(* ===== verification/_CoqProject ===== *)
-Q . S2P
Prelude.v
RustStd.v
StoreKeys.v
Store.v
StoreScan.v
StoreSim.v
Instances.v
Snapshot.v
LogStore.v
Grpc.v
Proto.v
EngineTypes.v
Validate.v
Net.v
Events.v
EventLog.v
Engine.v
KvView.v
EngineView.v
EngineInv.v
EngineValidate.v
EngineAcquire.v
EngineApply.v
EngineOps.v
EngineRelease.v
EngineGrant.v
EngineRest.v
EngineSafe.v
EngineSteps.v
EngineTotal.v
EngineTheorems.v
Paths.v
Placement.v
Footprint.v
Queue.v
QueueSweep.v
QueueState.v
QueueOps.v
QueueScans.v
Command.v
Codecs.v
QueueTheorems.v
StateMachine.v
Replica.v
Reads.v
Gossip.v
Router.v
RouterOps.v
RouterApi.v
RouterReads.v
MiniCluster.v
Controller.v
Config.v
RouterLogic.v
RouterClaims.v
RouterPolicy.v
RouterCycle.v
RouterLeader.v
RouterDump.v
Service.v
Health.v
Process.v
Transport.v
Web.v
WebClaims.v
ServiceStream.v
ApplySim.v
ApplyKeeps.v
ApplyTheorems.v
FenceTheorems.v
GroupState.v
GroupSteps.v
GroupOps.v
GroupPolicy.v
GroupTheorems.v
GroupClaims.v
ReadClaims.v
ServiceLogic.v
ServiceClaims.v
