(* ===== verification/Prelude.v ===== *)
(** * pathlockd: a verification library

    pathlockd is a replicated lock service for hierarchical paths.  A client asks
    a node for locks (write, read or semaphore permits) on paths; the node routes
    the request to the Raft group that owns the paths' namespace; the group's
    state machine applies it to its part of a RocksDB database.  All file names
    below are relative to [src/src/], unless they start with [proto/].

    ** The parts and how they fit together

<<
   browser ── HTTP ─▶ web/
                        │
   client ── gRPC ──▶ service.rs ──▶ cluster/router.rs ──▶ openraft ──▶ raft/log_store.rs
                        │  events        │ reads                         │ committed entries
                        ▼                ▼                               ▼
                    events.rs      raft/server.rs ─────────▶ raft/state_machine.rs
                                                              │        │        │
                                                         engine.rs  queue.rs  directory.rs
                                                              └────────┴────────┘
                                                          store_rocksdb.rs, store_keys.rs
>>

    A command is one entry of a group's log.  Applying it runs an operation of
    [execute_op] in one transaction of the store ([WriteTxn]: a write batch with a
    read-your-writes overlay and a read cache), and commits the batch unless the
    operation is refused.  The engine keeps locks, fences, liveness leases and
    wait edges; the queue keeps waiters in arrival order and grants them when
    locks are released.  Beside this path, gossip ([cluster/gossip.rs]) keeps a
    catalog of the nodes, the controller ([cluster/controller.rs]) moves the voters
    of the groups to the nodes of the catalog, nodes call each other over an
    internal transport ([raft/network.rs], [raft/server.rs]), and [main.rs] starts
    it all from a configuration ([config.rs]).

    ** How the code is modelled

    - Fallible code over a transaction is a function of the monad [txm] below: a
      transaction goes in, a value and a transaction or an [error] come out; an
      error drops the transaction as [?] does.  Code generic over [StoreTxn] is
      generic over the class of that name.
    - Strings and byte vectors are lists of bytes; integers are [Z] with the
      width's wrap-around, saturation or range check written out where the code
      has it ([RustStd]).
    - Third-party code is a class with its documented behaviour as laws:
      [RocksDb] (ordered column families, atomic batches, iterators, snapshots),
      [Bincode] (decoding inverts encoding), [Cluster] (openraft, the transport,
      gossip, clocks and permits as a node sees them), [Timers] (deadlines of the
      probes), [Membership] (what openraft tells and does for the controller),
      [Cores] and [Protocol] (the cores of a process and the calls on them), [Foca]
      (the SWIM library), [Mpsc] (bounded channels), [Tonic] (headers, endpoints and
      statuses), and the hash [xxh3], name lookups, the TOML parser and the
      environment as function arguments.  [Instances], [Codecs], [MiniCluster] and
      the witness modules implement these classes in full; the witnesses run on them.
    - Asynchronous code (the router and the service) is a state monad over one
      node, [rm] and [sm]: wherever the code awaits, the [Cluster] operation gets
      the state of the router as well and may return another, so that requests
      running beside this one may have changed it.  A ghost list of events records
      what was proposed to which group and answered how.  The controller ([cm]), the
      process ([pm]), the transport ([tm], [nm]) follow the same pattern with ghost
      lists of membership changes and of initialized groups.
    - Fan-outs run their requests one after the other in the order of completion,
      which is arbitrary.
    - Background tasks (gossip, event streams, the event log) are step functions, run
      over arbitrary lists of inputs.

    ** Files

    The store.
    - [Prelude]: errors, the monad, bounded loops, the calculi [wp] and [sim].
    - [RustStd]: the standard library functions the code calls.
    - [StoreKeys]: [store_keys.rs].  Keys of all kinds, injectivity, order.
    - [Store], [StoreScan]: [store_rocksdb.rs].  Records with expiry, transactions,
      merged scans; [Kv], one group's keyspace as a finite map, is the abstract
      specification.  [StoreSim] proves that a [WriteTxn] over any [RocksDb]
      behaves as [Kv].
    - [Instances]: reference implementations of [RocksDb] and [Bincode].

    The lock engine, [engine.rs].
    - [EngineTypes] (values and codecs), [Engine] (every operation).
    - [KvView] (the live records as a map, with a program logic [vwp]),
      [EngineView], [EngineInv] (the invariant [Inv]), [EngineValidate],
      [EngineAcquire], [EngineApply], [EngineOps], [EngineRelease], [EngineGrant],
      [EngineRest] (what each operation does to the view), [EngineSafe] (which
      errors can occur), [EngineSteps] (reachable keyspaces), [EngineTotal] (the
      paging loop ends), [EngineTheorems] (the results).

    Paths, placement, the wait queue.
    - [Paths]: the ancestor walk.  [Placement]: [cluster/placement.rs].
    - [Queue]: [queue.rs].  [QueueSweep] (grant sweeps), [Footprint], [QueueState]
      (the invariant [queue_ok]), [QueueOps], [QueueScans], [QueueTheorems].

    A replica of a group.
    - [Command]: [raft/command.rs], [cluster/directory.rs]; [Codecs].
    - [StateMachine]: [raft/state_machine.rs] up to [apply_entry]; [ApplySim],
      [ApplyKeeps], [ApplyTheorems], [FenceTheorems], [GroupState], [GroupSteps],
      [GroupOps], [GroupPolicy], [GroupTheorems], [GroupClaims]: the engine and
      queue invariants for whole groups under any sequence of commands.
    - [Snapshot]: [raft/snapshot.rs].  [LogStore]: [raft/log_store.rs].
    - [Replica]: the openraft adapter of [raft/state_machine.rs], the snapshot
      sender of [raft/network.rs], the assembler of [raft/server.rs].
    - [Reads], [ReadClaims]: [raft/types.rs], the read executor of
      [raft/server.rs], the dump and listing scans of [store_rocksdb.rs].

    A node.
    - [Router], [RouterOps], [RouterApi], [RouterReads]: [cluster/router.rs];
      [MiniCluster]; [RouterLogic], [RouterClaims], [RouterPolicy], [RouterCycle],
      [RouterLeader], [RouterDump].
    - [Grpc], [Proto] ([proto/pathlockd.proto]), [Validate] (the checks and
      conversions of [service.rs]), [Service] (the handlers), [ServiceStream],
      [ServiceLogic], [ServiceClaims]; [Health]: [cluster/health.rs], the health
      handler and the probes of [cluster/router.rs].
    - [Events]: [events.rs], the registry of subscribers, the streams and the queues
      to peers, with the handlers [Subscribe] of [service.rs] and [publish_event] of
      [raft/server.rs].
    - [EventLog]: [web/eventlog.rs], [web/sse.rs].  [Web], [WebClaims]: [web/rest.rs],
      the request handler of [web/h3.rs].

    A cluster.
    - [Net]: socket addresses.  [Gossip]: [cluster/gossip.rs].
    - [Controller]: [cluster/controller.rs].
    - [Config]: [config.rs].  [Process]: [main.rs], [raft/manager.rs].
    - [Transport]: [raft/network.rs], [raft/server.rs],
      [proto/pathlockd_raft.proto].

    ** What the theorems show

    - Locks ([EngineTheorems], [GroupClaims]): in every reachable state of a group
      two owners never hold conflicting locks and semaphores stay within their
      capacity; a grant gives what was asked; fences only grow and a stale token
      is refused; releases free exactly what they should; operations leave other
      owners alone; a policy change leaves no lock of the old algorithm.
    - The queue ([QueueTheorems], [QueueSweep], [GroupClaims]): it is a FIFO list
      of waiters; among the waiters a sweep serves none overtakes an earlier one it
      conflicts with (the sweep after a release serves those that wait for a path
      related to a freed one, and lets them overtake others:
      [targeted_sweep_barges]); the oldest grantable waiter is granted; the indexes
      answer what full walks answer.
    - Applying ([ApplyTheorems], [FenceTheorems], [GroupClaims]): applying to the
      database is applying to one group's keyspace; retries are answered from the
      dedupe table; refused commands change nothing; tokens strictly increase; an
      admissible command never fails to apply.
    - Replication ([LogStore], [Replica], [ReadClaims]): the log store is a map of
      entries; only durable writes are acknowledged; a snapshot carries a group's
      state to another node; reads report the group's state.
    - The node ([RouterClaims], [RouterPolicy], [RouterLeader], [RouterCycle],
      [RouterDump], [ServiceStream], [ServiceClaims]): an acquire is one decision
      of one group; policy changes commit in the system group last; the leader is
      reached; reported cycles are deadlocks; the lock dump is complete; streamed
      acquires are single acquires; and whatever a client sends, the commands
      proposed are admissible, which closes the chain to the group theorems.
    - Placement ([Placement]): rendezvous hashing moves domains only to a new
      group, and voters are the heaviest members.
    - Events ([Events], [EventLog]): a stream delivers the events of its owner, in
      order and at most once, and all of them while it keeps up; a resumed stream
      continues exactly where it stopped or shows the gap.
    - The web gateway ([WebClaims]): replayable early data changes nothing but stale
      wait edges.
    - The cluster ([Gossip], [Controller], [Transport]): the catalog always holds the
      node and only real members; voters change only to steady, caught-up nodes in odd
      numbers, and only absent or steady ones leave; a protocol call between nodes is
      the call on the peer's core, made at most once, and only with the same token.
    - The process ([Process]): only a node that may found a cluster does; a data
      directory pins the cluster settings; a configuration that loads meets what the
      layers assume, and only the addresses the validation leaves unchecked can still
      stop the start-up.

    ** Bounds and fuel

    Loops of the source that are not structural carry an iteration budget and
    fail with [OutOfFuel] when it runs out.  The budget of a scan is the number of
    records it can meet; [EngineTotal] and the scan lemmas show that it is never
    used up, and [engine_only_limit_errors] and [commands_always_apply] that
    [OutOfFuel] never comes out of an operation.  Retry loops of the router have
    the bounds of the code ([MAX_FORWARD_HOPS], [MAX_RETRIES], two acquire
    attempts); the wait-graph walk is bounded by [max_depth].  The timers of gossip
    are popped with the size of the heap as fuel, which [gossip_loop_sound] shows to
    be enough; the GC of a group runs as many batches as its fuel allows, and a
    statement about it holds for every fuel.

    ** Not modelled

    - RocksDB, openraft, foca, tonic, prost, axum, quinn, tokio, bincode and xxh3
      themselves: third party, hence parameters.
    - Opening and tuning the database, file compaction, statistics
      ([store_rocksdb.rs]); metrics, spans and logging everywhere; [otel.rs].
    - Binding sockets, TLS ([web/tls.rs]), listeners and connection loops, and the
      body and concurrency layers around every web request, HTTP/3 included
      ([web/mod.rs], [web/h3.rs], [main.rs]); the task that sends the events queued for a peer
      ([events.rs]); shutting groups and the process down: I/O around third-party
      servers, without decisions of their own. *)

From Stdlib Require Import ZArith Lia.
From stdpp Require Import sorting countable base numbers gmap strings list.

(** ** Errors and results

    [anyhow::Error] values that the code tells apart: the scan-limit error is
    the only one it downcasts.  [OutOfFuel] never occurs in the code; it marks a
    model loop that used up its iteration budget. *)
Inductive error :=
| SetScanLimitExceeded (operation : string) (limit : Z)
| Anyhow (msg : string)
| OutOfFuel.

Inductive result (A : Type) :=
| Ok (a : A)
| Err (e : error).
Arguments Ok {A} a.
Arguments Err {A} e.

(** ** The transaction monad

    A computation over a transaction [T] reads and updates the transaction and
    may fail; a failure drops the transaction, as the [?] operator does. *)
Definition txm (T A : Type) : Type := T → result (A * T).

#[export] Instance txm_ret T : MRet (txm T) := λ A a t, Ok (a, t).
#[export] Instance txm_bind T : MBind (txm T) := λ A B f m t,
  match m t with
  | Ok (a, t') => f a t'
  | Err e => Err e
  end.

Definition tfail {T A} (e : error) : txm T A := λ _, Err e.

Definition lift {T A} (r : result A) : txm T A := λ t,
  match r with Ok a => Ok (a, t) | Err e => Err e end.

Definition of_option {A} (msg : string) (o : option A) : result A :=
  match o with Some a => Ok a | None => Err (Anyhow msg) end.

(** [for x in xs { f(x)?; }] *)
Fixpoint for_each {T A} (xs : list A) (f : A → txm T unit) : txm T unit :=
  match xs with
  | [] => mret tt
  | x :: xs => f x;; for_each xs f
  end.

(** [for x in xs { if let Some(r) = f(x)? { return Ok(Some(r)); } }] *)
Fixpoint find_first {T A B} (xs : list A) (f : A → txm T (option B))
    : txm T (option B) :=
  match xs with
  | [] => mret None
  | x :: xs =>
      r ← f x;
      match r with
      | Some b => mret (Some b)
      | None => find_first xs f
      end
  end.

(** A [for] loop with a mutable accumulator. *)
Fixpoint fold_txm {T A S} (f : S → A → txm T S) (s : S) (xs : list A) : txm T S :=
  match xs with
  | [] => mret s
  | x :: xs => s' ← f s x; fold_txm f s' xs
  end.

(** A [loop { .. }] run at most [2 ^ n] times: [inl] asks for another round and
    [inr] breaks out. *)
Fixpoint loop_upto {T S B} (n : nat) (body : S → txm T (S + B)) (s : S)
    : txm T (S + B) :=
  match n with
  | O => body s
  | S n =>
      r ← loop_upto n body s;
      match r with
      | inl s' => loop_upto n body s'
      | inr b => mret (inr b)
      end
  end.

(** The iteration budget of an unbounded source loop: [2 ^ 64] rounds. *)
Definition loop {T S B} (body : S → txm T (S + B)) (s : S) : txm T B :=
  r ← loop_upto 64 body s;
  match r with
  | inl _ => tfail OutOfFuel
  | inr b => mret b
  end.

(** ** Weakest preconditions

    [wp E m Q t]: run from [t], [m] either succeeds with a result and a
    transaction satisfying [Q], or fails with an error satisfying [E]. *)
Definition wp {T A} (E : error → Prop) (m : txm T A) (Q : A → T → Prop) (t : T) : Prop :=
  match m t with
  | Ok (a, t') => Q a t'
  | Err e => E e
  end.

(** Partial correctness: any error is allowed (the caller drops the writes). *)
Abbreviation wlp := (wp (λ _, True)).

Section wp_rules.
Context {T : Type} (E : error → Prop).

Lemma wp_ret {A} (a : A) (Q : A → T → Prop) t : Q a t → wp E (mret a) Q t.
Proof. done. Qed.

Lemma wp_bind {A B} (m : txm T A) (f : A → txm T B) Q t :
  wp E m (λ a t', wp E (f a) Q t') t → wp E (m ≫= f) Q t.
Proof. unfold wp, mbind, txm_bind. by destruct (m t) as [[a t']|e]. Qed.

Lemma wp_mono {A} (m : txm T A) (P Q : A → T → Prop) t :
  wp E m P t → (∀ a t', P a t' → Q a t') → wp E m Q t.
Proof. unfold wp. destruct (m t) as [[a t']|e]; auto. Qed.

Lemma wp_conj {A} (m : txm T A) (P Q : A → T → Prop) t :
  wp E m P t → wp E m Q t → wp E m (λ a t', P a t' ∧ Q a t') t.
Proof. unfold wp. destruct (m t) as [[a t']|e]; auto. Qed.

Lemma wp_fail {A} e (Q : A → T → Prop) t : E e → wp E (tfail e) Q t.
Proof. done. Qed.

Lemma wp_lift {A} (r : result A) (Q : A → T → Prop) t :
  (∀ a, r = Ok a → Q a t) → (∀ e, r = Err e → E e) → wp E (lift r) Q t.
Proof. unfold wp, lift. destruct r; auto. Qed.

(** An invariant kept by every round is kept by the loop. *)
Lemma wp_for_each {A} (xs : list A) (f : A → txm T unit) (I : T → Prop) t :
  I t → (∀ x t', x ∈ xs → I t' → wp E (f x) (λ _, I) t') →
  wp E (for_each xs f) (λ _, I) t.
Proof.
  revert t. induction xs as [|x xs IH]; intros t HI Hf; simpl; [done|].
  apply wp_bind. eapply wp_mono; [apply Hf; [left|done]|].
  intros [] t' HI'. apply IH; [done|]. intros y t'' Hy. apply Hf. by right.
Qed.

Lemma wp_find_first {A B} (xs : list A) (f : A → txm T (option B))
    (I : list A → T → Prop) (Q : option B → T → Prop) t :
  I [] t →
  (∀ pre x post t', xs = pre ++ x :: post → I pre t' →
    wp E (f x) (λ r t'', match r with
                         | Some b => Q (Some b) t''
                         | None => I (pre ++ [x]) t''
                         end) t') →
  (∀ t', I xs t' → Q None t') →
  wp E (find_first xs f) Q t.
Proof.
  intros H0 Hf Hend.
  cut (∀ pre post t', xs = pre ++ post → I pre t' → wp E (find_first post f) Q t').
  { intros H. by apply (H [] xs t). }
  intros pre post. revert pre.
  induction post as [|x post IH]; intros pre t' -> HI; simpl.
  - apply wp_ret, Hend. by rewrite app_nil_r.
  - apply wp_bind. eapply wp_mono; [by eapply Hf|].
    intros [b|] t''; [done|]. intros HI'.
    apply (IH (pre ++ [x])); [|done]. by rewrite <- app_assoc.
Qed.

Lemma wp_fold {A S} (f : S → A → txm T S) (I : list A → S → T → Prop) xs s t :
  I [] s t →
  (∀ pre x post s' t', xs = pre ++ x :: post → I pre s' t' →
    wp E (f s' x) (I (pre ++ [x])) t') →
  wp E (fold_txm f s xs) (I xs) t.
Proof.
  intros H0 Hf.
  cut (∀ pre post s' t', xs = pre ++ post → I pre s' t' →
         wp E (fold_txm f s' post) (I xs) t').
  { intros H. by apply (H [] xs s t). }
  intros pre post. revert pre.
  induction post as [|x post IH]; intros pre s' t' -> HI; simpl.
  - apply wp_ret. by rewrite app_nil_r.
  - apply wp_bind. eapply wp_mono; [by eapply Hf|].
    intros s'' t'' HI'. rewrite (cons_middle x), app_assoc.
    rewrite (cons_middle x), app_assoc in IH.
    eapply (IH (pre ++ [x])); [done|done].
Qed.
End wp_rules.

(** Running a computation that has a partial-correctness specification. *)
Lemma wlp_run {T A} (m : txm T A) Q t a t' :
  wlp m Q t → m t = Ok (a, t') → Q a t'.
Proof. unfold wp. intros H Hm. by rewrite Hm in H. Qed.

(** ** Loops: an invariant, and a bound on the number of rounds *)
Section loops.
Context {T S B : Type} (E : error → Prop) (body : S → txm T (S + B)).

(** A loop whose measure [mu] drops at every round that continues stops
    within its budget, with the invariant [I] and the result [Q]. *)
Lemma wp_loop_upto (I : S → T → Prop) (mu : S → T → nat) (Q : B → T → Prop) n s t :
  (∀ s t, I s t →
     wp E (body s) (λ r t', match r with
                            | inl s' => I s' t' ∧ (mu s' t' < mu s t)%nat
                            | inr b => Q b t'
                            end) t) →
  I s t →
  wp E (loop_upto n body s)
    (λ r t', match r with
             | inl s' => I s' t' ∧ (mu s' t' + 2 ^ n ≤ mu s t)%nat
             | inr b => Q b t'
             end) t.
Proof.
  intros Hb. revert s t. induction n as [|n IH]; intros s t HI; simpl.
  - eapply wp_mono; [by apply Hb|]. intros [s'|b] t'; [|done]. intros [? ?].
    split; [done|lia].
  - apply wp_bind. eapply wp_mono; [by apply IH|].
    intros [s'|b] t'; [|done]. intros [HI' Hmu].
    eapply wp_mono; [by apply IH|]. intros [s''|b] t''; [|done].
    intros [? ?]. split; [done|lia].
Qed.

Lemma wp_loop (I : S → T → Prop) (mu : S → T → nat) (Q : B → T → Prop) s t :
  (∀ s t, I s t →
     wp E (body s) (λ r t', match r with
                            | inl s' => I s' t' ∧ (mu s' t' < mu s t)%nat
                            | inr b => Q b t'
                            end) t) →
  I s t → (Z.of_nat (mu s t) < 2 ^ 64)%Z ∨ E OutOfFuel →
  wp E (loop body s) Q t.
Proof.
  intros Hb HI Hmu. unfold loop. apply wp_bind.
  eapply wp_mono; [by apply (wp_loop_upto I mu Q 64)|].
  intros [s'|b] t'; [|done]. intros [_ Hbig].
  destruct Hmu as [Hmu|?]; [exfalso|by apply wp_fail].
  assert (Z.of_nat (2 ^ 64) = 2 ^ 64)%Z by (rewrite Nat2Z.inj_pow; done).
  lia.
Qed.
End loops.

(** ** Simulation between two transaction types

    [sim R m n]: from related transactions the two computations fail with the
    same error or return the same value in related transactions. *)
Definition sim {T U A} (R : T → U → Prop) (m : txm T A) (n : txm U A) : Prop :=
  ∀ t u, R t u →
    match m t, n u with
    | Ok (a, t'), Ok (b, u') => a = b ∧ R t' u'
    | Err e, Err e' => e = e'
    | _, _ => False
    end.

Section sim_rules.
Context {T U : Type} (R : T → U → Prop).

Lemma sim_ret {A} (a : A) : sim R (mret a) (mret a).
Proof. by intros t u HR. Qed.

Lemma sim_bind {A B} (m : txm T A) (n : txm U A) (f : A → txm T B) (g : A → txm U B) :
  sim R m n → (∀ a, sim R (f a) (g a)) → sim R (m ≫= f) (n ≫= g).
Proof.
  intros Hm Hf t u HR. specialize (Hm t u HR).
  unfold mbind, txm_bind.
  destruct (m t) as [[a t']|e], (n u) as [[b u']|e']; try done.
  destruct Hm as [-> HR']. by apply Hf.
Qed.

Lemma sim_fail {A} e : sim R (@tfail T A e) (tfail e).
Proof. by intros t u HR. Qed.

Lemma sim_lift {A} (r : result A) : sim R (lift r) (lift r).
Proof. intros t u HR. by destruct r. Qed.

Lemma sim_for_each {A} (xs : list A) f g :
  (∀ x, sim R (f x) (g x)) → sim R (for_each xs f) (for_each xs g).
Proof.
  intros Hf. induction xs as [|x xs IH]; simpl; [apply sim_ret|].
  apply sim_bind; [apply Hf|done].
Qed.

Lemma sim_find_first {A B} (xs : list A) (f : A → txm T (option B)) g :
  (∀ x, sim R (f x) (g x)) → sim R (find_first xs f) (find_first xs g).
Proof.
  intros Hf. induction xs as [|x xs IH]; simpl; [apply sim_ret|].
  apply sim_bind; [apply Hf|]. intros [b|]; [apply sim_ret|done].
Qed.

Lemma sim_fold {A S} (f : S → A → txm T S) g s xs :
  (∀ s x, sim R (f s x) (g s x)) → sim R (fold_txm f s xs) (fold_txm g s xs).
Proof.
  intros Hf. revert s. induction xs as [|x xs IH]; intros s; simpl; [apply sim_ret|].
  apply sim_bind; [apply Hf|done].
Qed.

Lemma sim_loop {S B} (f : S → txm T (S + B)) g s :
  (∀ s, sim R (f s) (g s)) → sim R (loop f s) (loop g s).
Proof.
  intros Hf. unfold loop.
  assert (∀ n s, sim R (loop_upto n f s) (loop_upto n g s)) as Hn.
  { clear s. induction n as [|n IH]; intros s; simpl; [apply Hf|].
    apply sim_bind; [apply IH|]. intros [s'|b]; [apply IH|apply sim_ret]. }
  apply sim_bind; [apply Hn|]. intros [s'|b]; [apply sim_fail|apply sim_ret].
Qed.
End sim_rules.

(** [sim] goals of straight-line code: the database [sim] holds one lemma per
    function, and [solve_sim] walks the syntax of the two computations. *)
Create HintDb sim.

Ltac sim_step :=
  match goal with
  | |- sim _ (mret _) (mret _) => apply sim_ret
  | |- sim _ (tfail _) (tfail _) => apply sim_fail
  | |- sim _ (lift _) (lift _) => apply sim_lift
  | |- sim _ _ _ => solve [eauto with sim typeclass_instances nocore]
  | |- sim _ (_ ≫= _) (_ ≫= _) => apply sim_bind; [|intros ?]
  | |- sim _ (for_each _ _) (for_each _ _) => apply sim_for_each; intros ?
  | |- sim _ (find_first _ _) (find_first _ _) => apply sim_find_first; intros ?
  | |- sim _ (fold_txm _ _ _) (fold_txm _ _ _) => apply sim_fold; intros ? ?
  | |- sim _ (loop _ _) (loop _ _) => apply sim_loop; intros ?
  | |- sim _ (match ?x with _ => _ end) (match ?x with _ => _ end) => destruct x
  | |- sim _ (let '_ := ?x in _) _ => destruct x
  end.

Ltac solve_sim := intros; repeat sim_step.

(** [wp] goals of straight-line code. *)
Ltac wp_step :=
  match goal with
  | |- wp _ (mret _) _ _ => apply wp_ret
  | |- wp _ (_ ≫= _) _ _ => apply wp_bind
  | |- wp _ (tfail _) _ _ => apply wp_fail
  end.

(** ** Lists *)

Lemma filter_ext_in {A} (P Q : A → Prop) `{!∀ x, Decision (P x), !∀ x, Decision (Q x)} (l : list A) :
  (∀ x, x ∈ l → P x ↔ Q x) → filter P l = filter Q l.
Proof.
  induction l as [|x l IH]; intros Hf; [done|]. rewrite !filter_cons.
  rewrite IH by (intros y Hy; apply Hf; by right). specialize (Hf x ltac:(by left)).
  repeat case_decide; tauto.
Qed.
Lemma filter_all {A} (P : A → Prop) `{!∀ x, Decision (P x)} (l : list A) :
  (∀ x, x ∈ l → P x) → filter P l = l.
Proof.
  induction l as [|x l IH]; intros Hf; [done|]. rewrite filter_cons, decide_True by (apply Hf; by left).
  f_equal. apply IH. intros y Hy. apply Hf. by right.
Qed.

Lemma head_filter_Some {A} (P : A → Prop) `{!∀ x, Decision (P x)} (l : list A) x :
  head (filter P l) = Some x → x ∈ l ∧ P x.
Proof.
  intros Hh. assert (x ∈ filter P l) as [? ?]%list_elem_of_filter; [|done].
  destruct (filter P l); [done|]. simpl in Hh. injection Hh as ->. by left.
Qed.
Lemma head_filter_None {A} (P : A → Prop) `{!∀ x, Decision (P x)} (l : list A) :
  head (filter P l) = None → ∀ x, x ∈ l → ¬ P x.
Proof.
  intros Hh x Hx Hp. assert (x ∈ filter P l) as Hin by by apply list_elem_of_filter.
  destruct (filter P l); [by apply not_elem_of_nil in Hin|done].
Qed.
Lemma head_filter_unique {A} (P : A → Prop) `{!∀ x, Decision (P x)} (l : list A) x :
  x ∈ l → P x → (∀ y, y ∈ l → P y → y = x) → head (filter P l) = Some x.
Proof.
  intros Hx Hp Hu. destruct (head (filter P l)) as [y|] eqn:Hy.
  - apply head_filter_Some in Hy as [Hin Hy]. by rewrite (Hu y Hin Hy).
  - by destruct (head_filter_None P l Hy x Hx).
Qed.

Lemma omap_cons {A B} (f : A → option B) (x : A) (l : list A) :
  omap f (x :: l) = match f x with Some y => y :: omap f l | None => omap f l end.
Proof. done. Qed.
Lemma omap_filter_None {A B} (f : A → option B) (P : A → Prop) `{!∀ x, Decision (P x)} (l : list A) :
  (∀ x, x ∈ l → ¬ P x → f x = None) → omap f (filter P l) = omap f l.
Proof.
  induction l as [|x l IH]; intros Hf; [done|]. rewrite filter_cons.
  assert (omap f (filter P l) = omap f l) as IH' by (apply IH; intros; apply Hf; [by right|done]).
  case_decide as Hp; rewrite !omap_cons, ?IH'; [done|]. rewrite (Hf x); [done|by left|done].
Qed.

Lemma omap_None {A B} (f : A → option B) (l : list A) : (∀ x, x ∈ l → f x = None) → omap f l = [].
Proof.
  induction l as [|x l IH]; intros Hf; [done|]. rewrite omap_cons, Hf by by left.
  apply IH. intros y Hy. apply Hf. by right.
Qed.
Lemma omap_fmap_ext {A B C} (f : A → option C) (g : B → option C) (h : A → B)
    (l : list A) :
  (∀ x, x ∈ l → f x = g (h x)) → omap f l = omap g (h <$> l).
Proof.
  induction l as [|x l IH]; intros Hf; [done|].
  rewrite fmap_cons, !omap_cons, (Hf x) by by left. rewrite IH; [done|]. intros y Hy. apply Hf. by right.
Qed.
