(* ===== verification/RustStd.v ===== *)
(** * What the source uses of the Rust language and its standard library

    Byte strings ([&str], [String], [Vec<u8>] are all lists of bytes here, the
    order on keys is the byte-wise lexicographic one), the string searches and
    splits the code calls, fixed-width integers with their saturating
    operations, big-endian encodings, decimal printing and parsing, and UTF-8
    validation. *)

From Stdlib Require Import ZArith NArith Lia Strings.Byte.
From Stdlib Require DecimalN.
From stdpp Require Import sorting countable base numbers gmap strings list.
From S2P Require Import Prelude.

Abbreviation byte := Byte.byte.
Abbreviation bytes := (list Byte.byte).
Abbreviation str := (list Byte.byte).

(** A string literal of the source. *)
Definition bs (s : string) : str := String.list_byte_of_string s.

(** ** Bytes *)

#[export] Instance byte_eq_decision : EqDecision byte := Byte.byte_eq_dec.
#[export] Instance byte_countable : Countable byte :=
  inj_countable Byte.to_N Byte.of_N Byte.of_to_N.

Definition byte_val (b : byte) : Z := Z.of_N (Byte.to_N b).

(** [z as u8] *)
Definition byte_of (z : Z) : byte :=
  match Byte.of_N (Z.to_N (z mod 256)) with Some b => b | None => x00 end.

(** Lexicographic comparison of byte strings ([Ord] of [&[u8]] and [str]). *)
Fixpoint bytes_ltb (a b : bytes) : bool :=
  match a, b with
  | _, [] => false
  | [], _ :: _ => true
  | x :: a, y :: b =>
      if (byte_val x <? byte_val y)%Z then true
      else if (byte_val y <? byte_val x)%Z then false
      else bytes_ltb a b
  end.

Definition bytes_leb (a b : bytes) : bool := negb (bytes_ltb b a).
Definition bytes_le (a b : bytes) : Prop := bytes_leb a b = true.
#[export] Instance bytes_le_dec : RelDecision bytes_le.
Proof. intros a b. unfold bytes_le. apply _. Defined.

(** ** Strings *)

Definition NUL : byte := x00.
Definition c_colon : byte := x3a.
Definition c_slash : byte := x2f.
Definition c_dash : byte := x2d.
Definition c_plus : byte := x2b.
Definition c_space : byte := x20.
Definition c_underscore : byte := x5f.

(** [s.contains(c)] *)
Definition contains (c : byte) (s : str) : bool := bool_decide (c ∈ s).

(** [s.split_once(c)]: around the first occurrence. *)
Fixpoint split_once (c : byte) (s : str) : option (str * str) :=
  match s with
  | [] => None
  | x :: s =>
      if decide (x = c) then Some ([], s)
      else match split_once c s with
           | Some (a, b) => Some (x :: a, b)
           | None => None
           end
  end.

(** [s.find(c)] and [s.rfind(c)]: byte offset of the first, last occurrence. *)
Definition find (c : byte) (s : str) : option nat :=
  match split_once c s with Some (a, _) => Some (length a) | None => None end.
Definition rfind (c : byte) (s : str) : option nat :=
  match split_once c (reverse s) with Some (_, b) => Some (length b) | None => None end.

(** [s.strip_prefix(p)] *)
Fixpoint strip_prefix (p s : str) : option str :=
  match p, s with
  | [], s => Some s
  | x :: p, y :: s => if decide (x = y) then strip_prefix p s else None
  | _ :: _, [] => None
  end.

Definition starts_with (p s : str) : bool :=
  match strip_prefix p s with Some _ => true | None => false end.
Definition ends_with (p s : str) : bool := starts_with (reverse p) (reverse s).

(** [s.trim_start_matches(c)] *)
Fixpoint trim_start_matches (c : byte) (s : str) : str :=
  match s with
  | x :: s' => if decide (x = c) then trim_start_matches c s' else s
  | [] => []
  end.

(** [s.splitn(n, c)] and [s.split(c)] as the list of pieces yielded. *)
Fixpoint splitn (n : nat) (c : byte) (s : str) : list str :=
  match n with
  | O => []
  | S O => [s]
  | S n => match split_once c s with
           | Some (a, b) => a :: splitn n c b
           | None => [s]
           end
  end.
Fixpoint split (c : byte) (s : str) : list str :=
  match s with
  | [] => [[]]
  | x :: s =>
      if decide (x = c) then [] :: split c s
      else match split c s with
           | piece :: pieces => (x :: piece) :: pieces
           | [] => [[x]]
           end
  end.

(** [char::is_whitespace]: the UTF-8 encodings of the White_Space characters. *)
Definition whitespace : list str :=
  [[x09]; [x0a]; [x0b]; [x0c]; [x0d]; [x20]; [xc2; x85]; [xc2; xa0];
   [xe1; x9a; x80]; [xe2; x80; x80]; [xe2; x80; x81]; [xe2; x80; x82];
   [xe2; x80; x83]; [xe2; x80; x84]; [xe2; x80; x85]; [xe2; x80; x86];
   [xe2; x80; x87]; [xe2; x80; x88]; [xe2; x80; x89]; [xe2; x80; x8a];
   [xe2; x80; xa8]; [xe2; x80; xa9]; [xe2; x80; xaf]; [xe2; x81; x9f];
   [xe3; x80; x80]].

Fixpoint strip_any (ps : list str) (s : str) : option str :=
  match ps with
  | [] => None
  | p :: ps => match strip_prefix p s with Some r => Some r | None => strip_any ps s end
  end.
Fixpoint trim_fuel (ps : list str) (fuel : nat) (s : str) : str :=
  match fuel with
  | O => s
  | S fuel => match strip_any ps s with Some r => trim_fuel ps fuel r | None => s end
  end.
(** [s.trim()]; every round drops at least a byte, so [length s] rounds do. *)
Definition trim_start (s : str) : str := trim_fuel whitespace (length s) s.
Definition trim_end (s : str) : str :=
  reverse (trim_fuel (reverse <$> whitespace) (length s) (reverse s)).
Definition trim (s : str) : str := trim_end (trim_start s).

Definition to_ascii_lowercase (s : str) : str :=
  (λ b, if (65 <=? byte_val b)%Z && (byte_val b <=? 90)%Z
        then byte_of (byte_val b + 32) else b) <$> s.

(** [s.replace([c1, c2, ..], "d")] for a one-byte replacement. *)
Definition replace_chars (cs : list byte) (d : byte) (s : str) : str :=
  (λ b, if bool_decide (b ∈ cs) then d else b) <$> s.

(** ** UTF-8 *)

Definition in_rangeb (lo hi : Z) (b : byte) : bool :=
  (lo <=? byte_val b)%Z && (byte_val b <=? hi)%Z.
Definition is_cont : byte → bool := in_rangeb 128 191.

Fixpoint utf8_valid (s : bytes) : bool :=
  match s with
  | [] => true
  | a :: s1 =>
      if in_rangeb 0 127 a then utf8_valid s1 else
      match s1 with
      | [] => false
      | b :: s2 =>
          if in_rangeb 194 223 a && is_cont b then utf8_valid s2 else
          match s2 with
          | [] => false
          | c :: s3 =>
              let lead3 :=
                (bool_decide (a = xe0) && in_rangeb 160 191 b) ||
                ((in_rangeb 225 236 a || in_rangeb 238 239 a) && is_cont b) ||
                (bool_decide (a = xed) && in_rangeb 128 159 b) in
              if lead3 && is_cont c then utf8_valid s3 else
              match s3 with
              | [] => false
              | d :: s4 =>
                  let lead4 :=
                    (bool_decide (a = xf0) && in_rangeb 144 191 b) ||
                    (in_rangeb 241 243 a && is_cont b) ||
                    (bool_decide (a = xf4) && in_rangeb 128 143 b) in
                  if lead4 && is_cont c && is_cont d then utf8_valid s4 else false
              end
          end
      end
  end.

(** [std::str::from_utf8(b).ok()] *)
Definition from_utf8 (b : bytes) : option str :=
  if utf8_valid b then Some b else None.

(** [s.is_char_boundary(n)], the condition under which [s.get(..n)] succeeds. *)
Definition is_char_boundary (s : str) (n : nat) : bool :=
  match n with
  | O => true
  | _ => match s !! n with
         | Some b => negb (is_cont b)
         | None => (n =? length s)%nat
         end
  end.

(** [s.get(i..j)] *)
Definition get_slice (s : str) (i j : nat) : option str :=
  if (i <=? j)%nat && is_char_boundary s i && is_char_boundary s j
  then Some (take (j - i) (drop i s)) else None.

(** ** Integers *)

Definition u32_max : Z := 2 ^ 32 - 1.
Definition u64_max : Z := 2 ^ 64 - 1.
Definition i64_max : Z := 2 ^ 63 - 1.
Definition i64_min : Z := - 2 ^ 63.
Definition is_u32 (z : Z) : Prop := (0 ≤ z ≤ u32_max)%Z.
Definition is_u64 (z : Z) : Prop := (0 ≤ z ≤ u64_max)%Z.
Definition is_i64 (z : Z) : Prop := (i64_min ≤ z ≤ i64_max)%Z.

Definition saturating_add (a b : Z) : Z := Z.min (a + b) u64_max.
Definition saturating_sub (a b : Z) : Z := Z.max (a - b) 0.
Definition saturating_mul (a b : Z) : Z := Z.min (a * b) u64_max.
Definition saturating_add_i64 (a b : Z) : Z := Z.max i64_min (Z.min (a + b) i64_max).
(** [a.div_ceil(b)] *)
Definition div_ceil (a b : Z) : Z := if (a mod b =? 0)%Z then a / b else a / b + 1.
(** [a as i64], [a as u64], [a as u32] *)
Definition as_i64 (a : Z) : Z :=
  let m := (a mod 2 ^ 64)%Z in if (m <? 2 ^ 63)%Z then m else m - 2 ^ 64.
Definition as_u64 (a : Z) : Z := a mod 2 ^ 64.
Definition as_u32 (a : Z) : Z := a mod 2 ^ 32.

(** [v.len()] *)
Definition len {A} (l : list A) : Z := Z.of_nat (length l).

(** Big-endian bytes: [z.to_be_bytes()] on [n] bytes and [from_be_bytes]. *)
Fixpoint be_bytes (n : nat) (z : Z) : bytes :=
  match n with
  | O => []
  | S n => byte_of (z / 256 ^ Z.of_nat n) :: be_bytes n z
  end.
Definition from_be (l : bytes) : Z := foldl (λ acc b, acc * 256 + byte_val b)%Z 0%Z l.

(** ** Decimal text *)

Fixpoint uint_bytes (u : Decimal.uint) : str :=
  match u with
  | Decimal.Nil => []
  | Decimal.D0 u => x30 :: uint_bytes u
  | Decimal.D1 u => x31 :: uint_bytes u
  | Decimal.D2 u => x32 :: uint_bytes u
  | Decimal.D3 u => x33 :: uint_bytes u
  | Decimal.D4 u => x34 :: uint_bytes u
  | Decimal.D5 u => x35 :: uint_bytes u
  | Decimal.D6 u => x36 :: uint_bytes u
  | Decimal.D7 u => x37 :: uint_bytes u
  | Decimal.D8 u => x38 :: uint_bytes u
  | Decimal.D9 u => x39 :: uint_bytes u
  end.

Fixpoint bytes_uint (s : str) : option Decimal.uint :=
  match s with
  | [] => Some Decimal.Nil
  | b :: s =>
      match bytes_uint s with
      | None => None
      | Some u =>
          match b with
          | x30 => Some (Decimal.D0 u) | x31 => Some (Decimal.D1 u)
          | x32 => Some (Decimal.D2 u) | x33 => Some (Decimal.D3 u)
          | x34 => Some (Decimal.D4 u) | x35 => Some (Decimal.D5 u)
          | x36 => Some (Decimal.D6 u) | x37 => Some (Decimal.D7 u)
          | x38 => Some (Decimal.D8 u) | x39 => Some (Decimal.D9 u)
          | _ => None
          end
      end
  end.

(** [z.to_string()] of an integer. *)
Definition to_string (z : Z) : str :=
  if (z <? 0)%Z then c_dash :: uint_bytes (N.to_uint (Z.to_N (- z)))
  else uint_bytes (N.to_uint (Z.to_N z)).

Definition parse_digits (s : str) : option Z :=
  match s with
  | [] => None
  | _ => (λ u, Z.of_N (N.of_uint u)) <$> bytes_uint s
  end.

Definition in_bounds (lo hi z : Z) : option Z :=
  if (lo <=? z)%Z && (z <=? hi)%Z then Some z else None.

(** [s.parse::<u64>().ok()] and the other widths: an optional sign, digits, and
    a range check. *)
Definition parse_unsigned (hi : Z) (s : str) : option Z :=
  match s with
  | b :: s' => if decide (b = c_plus) then parse_digits s' ≫= in_bounds 0 hi
               else parse_digits s ≫= in_bounds 0 hi
  | [] => None
  end.
Definition parse_u64 : str → option Z := parse_unsigned u64_max.
Definition parse_u32 : str → option Z := parse_unsigned u32_max.
Definition parse_usize : str → option Z := parse_unsigned u64_max.
Definition parse_i64 (s : str) : option Z :=
  match s with
  | b :: s' =>
      if decide (b = c_dash)
      then parse_digits s' ≫= (λ z, in_bounds i64_min i64_max (- z))
      else if decide (b = c_plus) then parse_digits s' ≫= in_bounds i64_min i64_max
      else parse_digits s ≫= in_bounds i64_min i64_max
  | [] => None
  end.

(** ** Lemmas: bytes and their order *)

Lemma byte_val_range b : (0 ≤ byte_val b < 256)%Z.
Proof. unfold byte_val. pose proof (Byte.to_N_bounded b). lia. Qed.

Lemma byte_val_inj a b : byte_val a = byte_val b → a = b.
Proof.
  unfold byte_val. intros H. apply N2Z.inj in H.
  assert (Some a = Some b) by (rewrite <- !Byte.of_to_N; by rewrite H). by simplify_eq.
Qed.

Lemma byte_of_val b : byte_of (byte_val b) = b.
Proof.
  unfold byte_of. rewrite Z.mod_small by apply byte_val_range.
  unfold byte_val. by rewrite N2Z.id, Byte.of_to_N.
Qed.

Lemma byte_val_of z : byte_val (byte_of z) = (z mod 256)%Z.
Proof.
  unfold byte_of. pose proof (Z.mod_pos_bound z 256).
  destruct (Byte.of_N (Z.to_N (z mod 256))) as [b|] eqn:Hb.
  - apply Byte.to_of_N in Hb. unfold byte_val. rewrite Hb. lia.
  - apply Byte.of_N_None_iff in Hb. lia.
Qed.

Lemma bytes_ltb_irrefl a : bytes_ltb a a = false.
Proof. induction a as [|x a IH]; simpl; [done|]. by rewrite Z.ltb_irrefl. Qed.

Lemma bytes_ltb_app p a b : bytes_ltb (p ++ a) (p ++ b) = bytes_ltb a b.
Proof. induction p as [|x p IH]; simpl; [done|]. by rewrite Z.ltb_irrefl. Qed.

Lemma bytes_ltb_trans a b c :
  bytes_ltb a b = true → bytes_ltb b c = true → bytes_ltb a c = true.
Proof.
  revert b c. induction a as [|x a IH]; intros [|y b] [|z c]; simpl; try done.
  repeat match goal with
         | |- context [ (?u <? ?v)%Z ] => destruct (Z.ltb_spec u v); try done
         end; intros; try lia. by eapply IH.
Qed.

Lemma bytes_ltb_total a b : a = b ∨ bytes_ltb a b = true ∨ bytes_ltb b a = true.
Proof.
  revert b. induction a as [|x a IH]; intros [|y b]; simpl; auto.
  destruct (Z.ltb_spec (byte_val x) (byte_val y)); [auto|].
  destruct (Z.ltb_spec (byte_val y) (byte_val x)); [auto|].
  assert (x = y) as -> by (apply byte_val_inj; lia).
  destruct (IH b) as [->|[?|?]]; auto.
Qed.

Lemma bytes_ltb_asym a b : bytes_ltb a b = true → bytes_ltb b a = false.
Proof.
  intros H. destruct (bytes_ltb b a) eqn:H'; [|done].
  by rewrite <- (bytes_ltb_irrefl a), (bytes_ltb_trans a b a).
Qed.

#[export] Instance bytes_le_total : Total bytes_le.
Proof.
  intros a b. unfold bytes_le, bytes_leb.
  destruct (bytes_ltb b a) eqn:H; [|by left]. right. by rewrite (bytes_ltb_asym b a).
Qed.
#[export] Instance bytes_le_trans : Transitive bytes_le.
Proof.
  intros a b c. unfold bytes_le, bytes_leb. rewrite !negb_true_iff. intros H1 H2.
  destruct (bytes_ltb c a) eqn:H; [|done].
  destruct (bytes_ltb_total a b) as [->|[Hab|Hab]]; [congruence| |congruence].
  rewrite (bytes_ltb_trans c a b) in H2; done.
Qed.
#[export] Instance bytes_le_antisymm : AntiSymm (=) bytes_le.
Proof.
  intros a b. unfold bytes_le, bytes_leb. rewrite !negb_true_iff. intros H1 H2.
  destruct (bytes_ltb_total a b) as [->|[?|?]]; congruence.
Qed.

Lemma bytes_ltb_extend a b : b ≠ [] → bytes_ltb a (a ++ b) = true.
Proof. intros ?. rewrite <- (app_nil_r a) at 1. rewrite bytes_ltb_app. by destruct b. Qed.

(** A strict difference decides whatever follows it. *)
Lemma bytes_ltb_app_l a b x y :
  length a = length b → bytes_ltb a b = true → bytes_ltb (a ++ x) (b ++ y) = true.
Proof.
  revert b. induction a as [|u a IH]; intros [|v b]; simpl; try done.
  intros Hl. repeat case_match; try done. auto.
Qed.

(** ** Lemmas: searching and splitting *)

Lemma split_once_Some c s a b :
  split_once c s = Some (a, b) ↔ s = a ++ c :: b ∧ c ∉ a.
Proof.
  revert a b. induction s as [|x s IH]; intros a b; simpl.
  { split; [done|]. intros [H _]. by destruct a. }
  case_decide as Hx; [subst x|].
  - split; [intros; simplify_eq; split; [done|apply not_elem_of_nil]|].
    intros [H Hc]. destruct a as [|y a]; simplify_eq/=; [done|].
    destruct Hc. by left.
  - destruct (split_once c s) as [[a' b']|] eqn:Hs.
    + destruct (proj1 (IH a' b') eq_refl) as [-> Ha]. split.
      * intros. simplify_eq. split; [done|]. rewrite elem_of_cons. naive_solver.
      * intros [H Hc]. destruct a as [|y a]; simplify_eq/=.
        assert (Some (a', b') = Some (a, b)) by (apply IH; split; [done|set_solver]).
        by simplify_eq.
    + split; [done|]. intros [H Hc]. destruct a as [|y a]; simplify_eq/=.
      assert (None = Some (a, b)) by (apply IH; split; [done|set_solver]). done.
Qed.

Lemma split_once_None c s : split_once c s = None ↔ c ∉ s.
Proof.
  split.
  - intros H Hc. apply list_elem_of_split_l in Hc as (a & b & -> & Ha).
    assert (split_once c (a ++ c :: b) = Some (a, b)) by (by apply split_once_Some).
    congruence.
  - intros H. destruct (split_once c s) as [[a b]|] eqn:Hs; [|done].
    apply split_once_Some in Hs as [-> _]. set_solver.
Qed.

Lemma split_once_app c a b : c ∉ a → split_once c (a ++ c :: b) = Some (a, b).
Proof. intros. by apply split_once_Some. Qed.

(** Two separated strings with separator-free heads are equal piecewise. *)
Lemma sep_inj (c : byte) (a a' b b' : str) :
  c ∉ a → c ∉ a' → a ++ c :: b = a' ++ c :: b' → a = a' ∧ b = b'.
Proof.
  intros Ha Ha' H.
  assert (Some (a, b) = Some (a', b')) as Heq.
  { rewrite <- (split_once_app c a b), <- (split_once_app c a' b'), H by done. done. }
  by simplify_eq.
Qed.

Lemma strip_prefix_Some p s r : strip_prefix p s = Some r ↔ s = p ++ r.
Proof.
  revert s. induction p as [|x p IH]; intros s; simpl; [naive_solver|].
  destruct s as [|y s]; [done|]. case_decide; [subst; rewrite IH; naive_solver|].
  naive_solver.
Qed.

Lemma starts_with_spec p s : starts_with p s = true ↔ p `prefix_of` s.
Proof.
  unfold starts_with, prefix. destruct (strip_prefix p s) as [r|] eqn:H.
  - apply strip_prefix_Some in H. naive_solver.
  - split; [done|]. intros [r Hr]. apply strip_prefix_Some in Hr. congruence.
Qed.

Lemma contains_spec c s : contains c s = true ↔ c ∈ s.
Proof. unfold contains. by rewrite bool_decide_eq_true. Qed.

(** ** Lemmas: integers *)

Lemma length_be_bytes n z : length (be_bytes n z) = n.
Proof. induction n; simpl; congruence. Qed.

Lemma from_be_app l b : from_be (l ++ [b]) = (from_be l * 256 + byte_val b)%Z.
Proof. unfold from_be. by rewrite foldl_app. Qed.

Lemma from_be_be_bytes n z :
  (0 ≤ z < 256 ^ Z.of_nat n)%Z → from_be (be_bytes n z) = z.
Proof.
  unfold from_be. intros Hz.
  cut (∀ m acc, foldl (λ acc b, acc * 256 + byte_val b)%Z acc (be_bytes m z)
                = acc * 256 ^ Z.of_nat m + z mod 256 ^ Z.of_nat m)%Z.
  { intros ->. rewrite Z.mod_small; lia. }
  clear Hz. induction m as [|m IH]; intros acc; cbn [be_bytes foldl].
  { rewrite Z.mod_1_r. lia. }
  rewrite IH, byte_val_of, Nat2Z.inj_succ, Z.pow_succ_r by lia.
  rewrite (Z.mul_comm 256 (256 ^ _)), Z.rem_mul_r by lia. lia.
Qed.

Lemma be_bytes_inj n a b :
  (0 ≤ a < 256 ^ Z.of_nat n)%Z → (0 ≤ b < 256 ^ Z.of_nat n)%Z →
  be_bytes n a = be_bytes n b → a = b.
Proof.
  intros Ha Hb H. by rewrite <- (from_be_be_bytes n a), <- (from_be_be_bytes n b), H.
Qed.

(** Big-endian encodings sort like the numbers they encode. *)
Lemma be_bytes_ltb n a b :
  (0 ≤ a)%Z → (b < 256 ^ Z.of_nat n)%Z → (a < b)%Z →
  bytes_ltb (be_bytes n a) (be_bytes n b) = true.
Proof.
  intros Ha Hb Hab.
  cut (∀ m, (a mod 256 ^ Z.of_nat m < b mod 256 ^ Z.of_nat m)%Z →
            bytes_ltb (be_bytes m a) (be_bytes m b) = true).
  { intros H. apply H. rewrite !Z.mod_small; lia. }
  clear Hab Hb. induction m as [|m IH]; [rewrite !Z.mod_1_r; lia|].
  simpl be_bytes. simpl bytes_ltb. rewrite !byte_val_of. intros Hlt.
  rewrite Nat2Z.inj_succ, Z.pow_succ_r, (Z.mul_comm 256), !Z.rem_mul_r in Hlt by lia.
  set (p := (256 ^ Z.of_nat m)%Z) in *. assert (0 < p)%Z by lia.
  pose proof (Z.mod_pos_bound a p). pose proof (Z.mod_pos_bound b p).
  repeat match goal with
         | |- context [ (?u <? ?v)%Z ] => destruct (Z.ltb_spec u v); try done
         end.
  - nia.
  - apply IH. nia.
Qed.

Lemma be_bytes_ltb_iff n a b :
  (0 ≤ a < 256 ^ Z.of_nat n)%Z → (0 ≤ b < 256 ^ Z.of_nat n)%Z →
  bytes_ltb (be_bytes n a) (be_bytes n b) = true ↔ (a < b)%Z.
Proof.
  intros Ha Hb. split; [|intros; apply be_bytes_ltb; lia]. intros H.
  destruct (Z.lt_trichotomy a b) as [?|[->|?]]; [done| |].
  - by rewrite bytes_ltb_irrefl in H.
  - by rewrite bytes_ltb_asym in H by (apply be_bytes_ltb; lia).
Qed.

(** ** Lemmas: decimal text *)

Lemma bytes_uint_bytes u : bytes_uint (uint_bytes u) = Some u.
Proof. induction u; simpl; rewrite ?IHu; done. Qed.

Lemma N_to_uint_not_nil n : N.to_uint n ≠ Decimal.Nil.
Proof.
  intros H. pose proof (DecimalN.Unsigned.of_to n) as Hn. rewrite H in Hn.
  simpl in Hn. subst n. discriminate H.
Qed.

Definition is_digit (b : byte) : Prop := b ∈ bs "0123456789".

Lemma uint_bytes_digits u : Forall is_digit (uint_bytes u).
Proof.
  induction u; simpl; constructor; try done;
    by apply (bool_decide_eq_true_1 (_ ∈ bs "0123456789")).
Qed.

Lemma parse_digits_N n : parse_digits (uint_bytes (N.to_uint n)) = Some (Z.of_N n).
Proof.
  unfold parse_digits. destruct (uint_bytes (N.to_uint n)) as [|b s] eqn:H.
  - pose proof (bytes_uint_bytes (N.to_uint n)) as Hu. rewrite H in Hu. simpl in Hu.
    simplify_eq. by destruct (N_to_uint_not_nil n).
  - rewrite <- H, bytes_uint_bytes. simpl. by rewrite DecimalN.Unsigned.of_to.
Qed.

Lemma uint_bytes_head u b s : uint_bytes u = b :: s → is_digit b.
Proof. intros H. pose proof (uint_bytes_digits u) as Hd. rewrite H in Hd. by inversion Hd. Qed.

Lemma digit_not_sign b : is_digit b → b ≠ c_dash ∧ b ≠ c_plus.
Proof.
  intros H. split; intros ->;
    by apply (bool_decide_eq_true_2 (_ ∈ bs "0123456789")) in H.
Qed.

(** Printing then parsing gives the number back, at its width. *)
Lemma parse_unsigned_to_string hi z :
  (0 ≤ z ≤ hi)%Z → parse_unsigned hi (to_string z) = Some z.
Proof.
  intros Hz. unfold to_string. destruct (Z.ltb_spec z 0); [lia|].
  pose proof (parse_digits_N (Z.to_N z)) as Hp. rewrite Z2N.id in Hp by lia.
  unfold parse_unsigned. destruct (uint_bytes _) as [|b s] eqn:H'; [done|].
  apply uint_bytes_head in H' as Hb. apply digit_not_sign in Hb as [_ Hb].
  rewrite decide_False by done. rewrite Hp. simpl. unfold in_bounds.
  by rewrite !(proj2 (Z.leb_le _ _)) by lia.
Qed.

Lemma parse_i64_to_string z : is_i64 z → parse_i64 (to_string z) = Some z.
Proof.
  unfold is_i64. intros Hz. unfold to_string. destruct (Z.ltb_spec z 0).
  - unfold parse_i64. rewrite decide_True by done. rewrite parse_digits_N. simpl.
    rewrite Z2N.id by lia. unfold in_bounds. rewrite Z.opp_involutive.
    by rewrite !(proj2 (Z.leb_le _ _)) by lia.
  - pose proof (parse_digits_N (Z.to_N z)) as Hp. rewrite Z2N.id in Hp by lia.
    unfold parse_i64. destruct (uint_bytes _) as [|b s] eqn:H'; [done|].
    apply uint_bytes_head in H' as Hb. apply digit_not_sign in Hb as [? ?].
    rewrite !decide_False by done. rewrite Hp. simpl. unfold in_bounds.
    by rewrite !(proj2 (Z.leb_le _ _)) by lia.
Qed.

Lemma to_string_inj a b : is_i64 a → is_i64 b → to_string a = to_string b → a = b.
Proof.
  intros Ha Hb H. apply parse_i64_to_string in Ha, Hb. rewrite H in Ha. congruence.
Qed.

Lemma to_string_no_byte c z : ¬ is_digit c → c ≠ c_dash → c ∉ to_string z.
Proof.
  intros Hc Hd. unfold to_string.
  assert (∀ u, c ∉ uint_bytes u) as H.
  { intros u Hu. apply Hc. pose proof (uint_bytes_digits u) as Hu'.
    rewrite Forall_forall in Hu'. by apply Hu'. }
  case_match; [rewrite elem_of_cons; naive_solver|done].
Qed.

#[global] Arguments be_bytes : simpl never.
#[global] Arguments to_string : simpl never.
#[global] Arguments bs : simpl never.
