(* ===== verification/StoreKeys.v ===== *)
(** * Key encoding, column families and time helpers ([src/store_keys.rs])

    Every key of the engine is a byte string built here.  The lemmas show that
    the encodings are injective, that decoding inverts encoding, and that the
    big-endian fields make key order agree with numeric order, which is what the
    wait queue (FIFO) and the expiry index (oldest first) rely on. *)

From Stdlib Require Import ZArith NArith Lia Strings.Byte.
From stdpp Require Import sorting countable base numbers gmap strings list.
From S2P Require Import Prelude RustStd.
Local Open Scope Z_scope.

(** ** Column families *)

Inductive cf :=
| CF_DEFAULT
| CF_META
| CF_RAFT_LOG
| CF_WRITE_LOCKS
| CF_READ_LOCKS
| CF_SEMAPHORE
| CF_FENCES
| CF_DESC_WRITE
| CF_DESC_READ
| CF_OWNER_ALIVE
| CF_OWNER_HOLDS
| CF_WAIT_EDGES
| CF_NAMESPACE_SETTINGS
| CF_EXPIRY
| CF_DEDUPE
| CF_QUEUE.

#[export] Instance cf_eq_dec : EqDecision cf.
Proof. solve_decision. Defined.

Definition cf_name (c : cf) : str :=
  bs match c with
     | CF_DEFAULT => "default"
     | CF_META => "meta"
     | CF_RAFT_LOG => "raft_log"
     | CF_WRITE_LOCKS => "write_locks"
     | CF_READ_LOCKS => "read_locks"
     | CF_SEMAPHORE => "semaphore_holders"
     | CF_FENCES => "fences"
     | CF_DESC_WRITE => "desc_write"
     | CF_DESC_READ => "desc_read"
     | CF_OWNER_ALIVE => "owner_alive"
     | CF_OWNER_HOLDS => "owner_holds"
     | CF_WAIT_EDGES => "wait_edges"
     | CF_NAMESPACE_SETTINGS => "namespace_settings"
     | CF_EXPIRY => "expiry"
     | CF_DEDUPE => "request_dedupe"
     | CF_QUEUE => "lock_queue"
     end.

Definition STATE_CFS : list cf :=
  [CF_WRITE_LOCKS; CF_READ_LOCKS; CF_SEMAPHORE; CF_FENCES; CF_DESC_WRITE;
   CF_DESC_READ; CF_OWNER_ALIVE; CF_OWNER_HOLDS; CF_WAIT_EDGES;
   CF_NAMESPACE_SETTINGS; CF_EXPIRY; CF_DEDUPE; CF_QUEUE].

Definition ALL_CFS : list cf := CF_DEFAULT :: CF_META :: CF_RAFT_LOG :: STATE_CFS.

Definition cf_index (c : cf) : nat :=
  match c with
  | CF_DEFAULT => 0 | CF_META => 1 | CF_RAFT_LOG => 2 | CF_WRITE_LOCKS => 3
  | CF_READ_LOCKS => 4 | CF_SEMAPHORE => 5 | CF_FENCES => 6 | CF_DESC_WRITE => 7
  | CF_DESC_READ => 8 | CF_OWNER_ALIVE => 9 | CF_OWNER_HOLDS => 10
  | CF_WAIT_EDGES => 11 | CF_NAMESPACE_SETTINGS => 12 | CF_EXPIRY => 13
  | CF_DEDUPE => 14 | CF_QUEUE => 15
  end.
#[export] Program Instance cf_countable : Countable cf :=
  inj_countable cf_index (λ n, ALL_CFS !! n) _.
Next Obligation. by intros []. Qed.

(** ** Constants *)

Definition MAX_SET_ENUM_MEMBERS : Z := 65536.
Definition EXPIRY_INDEX_QUANTUM_MS : Z := 3600000.

Definition META_FENCE_COUNTER_KEY : bytes := bs "fence_counter".
Definition META_GC_CURSOR_KEY : bytes := bs "gc_cursor".
Definition META_QUEUE_SEQ_KEY : bytes := bs "queue_seq".
Definition META_QUEUE_COUNT_KEY : bytes := bs "queue_count".
Definition META_LAST_NOW_KEY : bytes := bs "last_now_ms".
Definition META_VOTE_KEY : bytes := bs "raft_vote".
Definition META_COMMITTED_KEY : bytes := bs "raft_committed".
Definition META_LAST_APPLIED_KEY : bytes := bs "raft_last_applied".
Definition META_MEMBERSHIP_KEY : bytes := bs "raft_membership".
Definition META_PURGED_KEY : bytes := bs "raft_purged".
Definition META_SNAPSHOT_META_KEY : bytes := bs "raft_snapshot_meta".
Definition META_SNAPSHOT_DATA_KEY : bytes := bs "raft_snapshot_data".

(** ** Group scoping *)

Definition GroupId : Type := Z.
Definition GROUP_PREFIX_LEN : nat := 4.
Definition group_prefix (group : GroupId) : bytes := be_bytes 4 group.
Definition group_key (group : GroupId) (key : bytes) : bytes := be_bytes 4 group ++ key.
Definition group_range (group : GroupId) : bytes * option bytes :=
  (be_bytes 4 group,
   if group + 1 <=? u32_max then Some (be_bytes 4 (group + 1)) else None).

(** ** Keys *)

Definition wr_key (path : str) : bytes := path.
Definition rd_prefix (path : str) : bytes := path ++ [NUL].
Definition sem_prefix (path : str) : bytes := path ++ [NUL].
Definition fence_key (path : str) : bytes := path.
Definition alive_key (owner : str) : bytes := owner.
Definition revoke_key (owner : str) : bytes := owner ++ [NUL] ++ bs "revoke".
Definition own_prefix (owner : str) : bytes := owner ++ [NUL].
Definition wait_key (owner : str) : bytes := owner.
Definition hold_algorithm_key (owner mode path : str) : bytes :=
  bs "hold_alg:" ++ owner ++ [NUL] ++ mode ++ [NUL] ++ path.
Definition semaphore_permits_key (path : str) : bytes := bs "sem_permits:" ++ path.
Definition namespace_policy_key (namespace : str) : bytes := namespace.
Definition wrdesc_key (anc : str) : bytes := anc ++ [NUL].
Definition rddesc_prefix (anc : str) : bytes := anc ++ [NUL].

(** ** Wait-queue keys *)

Definition QUEUE_ENTRY_TAG : byte := x65.
Definition QUEUE_OWNER_TAG : byte := x6f.
Definition QUEUE_PATH_TAG : byte := x70.

Definition queue_entry_key (seq : Z) : bytes := QUEUE_ENTRY_TAG :: be_bytes 8 seq.
Definition queue_entry_lower : bytes := [QUEUE_ENTRY_TAG].
Definition queue_entry_upper : bytes := [byte_of (byte_val QUEUE_ENTRY_TAG + 1)].

Definition decode_queue_entry_seq (key : bytes) : option Z :=
  match key with
  | tag :: rest =>
      if (length key =? 9)%nat && bool_decide (tag = QUEUE_ENTRY_TAG)
      then Some (from_be rest) else None
  | [] => None
  end.

Definition queue_owner_key (owner : str) : bytes := QUEUE_OWNER_TAG :: owner.
Definition queue_path_prefix (path : str) : bytes := QUEUE_PATH_TAG :: path ++ [NUL].

(** [last.saturating_add(1)] on the last byte. *)
Definition bump_last (key : bytes) : bytes :=
  match reverse key with
  | [] => []
  | b :: rest => reverse (byte_of (Z.min (byte_val b + 1) 255) :: rest)
  end.
Definition queue_path_upper (path : str) : bytes := bump_last (queue_path_prefix path).
Definition queue_path_key (path : str) (seq : Z) : bytes :=
  queue_path_prefix path ++ be_bytes 8 seq.

Definition decode_queue_path_seq (key : bytes) : option Z :=
  match key with
  | tag :: _ =>
      if (length key <? 10)%nat || negb (bool_decide (tag = QUEUE_PATH_TAG)) then None
      else
        let tail := (length key - 8)%nat in
        if bool_decide (key !! (tail - 1)%nat = Some NUL)
        then Some (from_be (drop tail key)) else None
  | [] => None
  end.

(** ** Expiry index *)

Definition expiry_key (expires_at : Z) (kind : str) (primary_key : bytes) : bytes :=
  be_bytes 8 expires_at ++ [NUL] ++ kind ++ [NUL] ++ primary_key.
Definition expiry_scan_upper (max_expires_at : Z) : bytes :=
  be_bytes 8 max_expires_at ++ [NUL; NUL].

Definition decode_expiry_key_exp (key : bytes) : option Z :=
  if (length key <? 8)%nat then None else Some (from_be (take 8 key)).

Definition decode_expiry_entry (key : bytes) : option (Z * str * bytes) :=
  if (length key <? 9)%nat then None
  else
    let exp := from_be (take 8 key) in
    match split_once NUL (drop 9 key) with
    | None => None
    | Some (kind, primary_key) =>
        match from_utf8 kind with
        | None => None
        | Some c => Some (exp, c, primary_key)
        end
    end.

(** ** Handlers and domains *)

Definition handler_of (path : str) : str :=
  match find c_colon path with Some i => take i path | None => path end.

(** First [/] of [rest] at an index greater than zero. *)
Fixpoint slash_after (i : nat) (rest : str) : option nat :=
  match rest with
  | [] => None
  | b :: rest =>
      if bool_decide (b = c_slash) && (0 <? i)%nat then Some i else slash_after (S i) rest
  end.
Definition lock_domain (path : str) : str :=
  match find c_colon path with
  | None => path
  | Some colon =>
      match slash_after 0 (drop (S colon) path) with
      | Some i => take (colon + 1 + i) path
      | None => path
      end
  end.

(** ** Time *)

Definition expired (exp now : Z) : bool := negb (exp =? 0) && (exp <=? now).
Definition expiry_at (now ttl_ms : Z) : Z :=
  if ttl_ms =? 0 then 0 else saturating_add now ttl_ms.
Definition quantized_index_expiry (now_ms exp : Z) : Z :=
  if saturating_sub exp now_ms <? EXPIRY_INDEX_QUANTUM_MS then exp
  else saturating_mul (div_ceil exp EXPIRY_INDEX_QUANTUM_MS) EXPIRY_INDEX_QUANTUM_MS.

(** ** Lemmas: separators *)

Definition nul_free (s : str) : Prop := NUL ∉ s.
#[export] Instance nul_free_dec s : Decision (nul_free s).
Proof. unfold nul_free. apply _. Defined.

Lemma nul_sep_inj p p' x y :
  nul_free p → nul_free p' → p ++ NUL :: x = p' ++ NUL :: y → p = p' ∧ x = y.
Proof. apply sep_inj. Qed.

Lemma cf_name_nul_free c : nul_free (cf_name c).
Proof. unfold nul_free. by destruct c; apply (bool_decide_eq_true_1 (_ ∉ _)). Qed.

Lemma cf_name_utf8 c : from_utf8 (cf_name c) = Some (cf_name c).
Proof. by destruct c. Qed.

Lemma cf_name_inj c c' : cf_name c = cf_name c' → c = c'.
Proof.
  intros H.
  assert (bool_decide (cf_name c = cf_name c') = true) as Hb by by apply bool_decide_eq_true.
  clear H. by destruct c, c'; vm_compute in Hb.
Qed.

(** ** Lemmas: machine-width encodings *)

Lemma u64_pow z : is_u64 z → 0 ≤ z < 256 ^ Z.of_nat 8.
Proof. unfold is_u64, u64_max. change (256 ^ Z.of_nat 8) with (2 ^ 64). lia. Qed.

Lemma u32_pow z : is_u32 z → 0 ≤ z < 256 ^ Z.of_nat 4.
Proof. unfold is_u32, u32_max. change (256 ^ Z.of_nat 4) with (2 ^ 32). lia. Qed.

Lemma from_be_u64 z : is_u64 z → from_be (be_bytes 8 z) = z.
Proof. intros H. apply from_be_be_bytes, u64_pow, H. Qed.

Lemma group_key_inj g g' k k' :
  is_u32 g → is_u32 g' → group_key g k = group_key g' k' → g = g' ∧ k = k'.
Proof.
  intros Hg Hg' H. unfold group_key in H.
  apply app_inj_1 in H as [H ->]; [|by rewrite !length_be_bytes].
  split; [|done]. eapply be_bytes_inj; [by apply u32_pow..|done].
Qed.

(** ** Lemmas: the wait queue's keys *)

Lemma decode_queue_entry_key seq :
  is_u64 seq → decode_queue_entry_seq (queue_entry_key seq) = Some seq.
Proof.
  intros H. unfold decode_queue_entry_seq, queue_entry_key.
  cbn [length]. rewrite length_be_bytes. simpl. by rewrite from_be_u64.
Qed.

Lemma queue_entry_key_lt a b :
  is_u64 a → is_u64 b →
  bytes_ltb (queue_entry_key a) (queue_entry_key b) = true ↔ a < b.
Proof.
  intros Ha Hb. unfold queue_entry_key. cbn [bytes_ltb].
  rewrite Z.ltb_irrefl. apply be_bytes_ltb_iff; by apply u64_pow.
Qed.

Lemma decode_queue_path_key path seq :
  is_u64 seq → decode_queue_path_seq (queue_path_key path seq) = Some seq.
Proof.
  intros H. unfold decode_queue_path_seq, queue_path_key, queue_path_prefix.
  cbn [app]. rewrite <- app_assoc. cbn [app length].
  rewrite !length_app. cbn [length]. rewrite length_be_bytes.
  destruct (Nat.ltb_spec (S (length path + 9)) 10); [lia|].
  rewrite bool_decide_eq_true_2 by done. cbn [negb orb].
  replace (S (length path + 9) - 8)%nat with (S (S (length path))) by lia.
  replace (S (S (length path)) - 1)%nat with (S (length path)) by lia.
  rewrite bool_decide_eq_true_2.
  - change (drop (S (S (length path))) (QUEUE_PATH_TAG :: path ++ NUL :: be_bytes 8 seq))
      with (drop (S (length path)) (path ++ NUL :: be_bytes 8 seq)).
    replace (S (length path)) with (length path + 1)%nat by lia.
    rewrite <- drop_drop, drop_app_length.
    change (drop 1 (NUL :: be_bytes 8 seq)) with (be_bytes 8 seq).
    by rewrite from_be_u64.
  - change ((path ++ NUL :: be_bytes 8 seq) !! length path = Some NUL).
    by apply list_lookup_middle.
Qed.

Lemma queue_path_key_inj p p' a b :
  is_u64 a → is_u64 b → queue_path_key p a = queue_path_key p' b → p = p' ∧ a = b.
Proof.
  unfold queue_path_key, queue_path_prefix. intros Ha Hb H.
  apply app_inj_2 in H as [H1 H2]; [|by rewrite !length_be_bytes].
  apply (inj (cons _)), app_inj_2 in H1 as [-> _]; [|done].
  split; [done|]. eapply be_bytes_inj; [by apply u64_pow..|done].
Qed.

Lemma queue_entry_key_inj a b : is_u64 a → is_u64 b → queue_entry_key a = queue_entry_key b → a = b.
Proof.
  unfold queue_entry_key. intros Ha Hb H. apply (inj (cons _)) in H.
  eapply be_bytes_inj; [by apply u64_pow..|done].
Qed.

(** Every key with the entry tag and length is an entry key. *)
Lemma decode_queue_entry_Some k n : decode_queue_entry_seq k = Some n → ∃ r, k = QUEUE_ENTRY_TAG :: r.
Proof.
  unfold decode_queue_entry_seq. destruct k as [|x r]; [done|].
  destruct (_ =? _)%nat; [|done]. simpl. case_bool_decide; [|done]. subst. eauto.
Qed.

(** ** Lemmas: the expiry index *)

Lemma decode_expiry_key exp c pk :
  is_u64 exp →
  decode_expiry_entry (expiry_key exp (cf_name c) pk) = Some (exp, cf_name c, pk).
Proof.
  intros H. unfold decode_expiry_entry, expiry_key.
  rewrite !length_app, length_be_bytes. cbn [length].
  destruct (Nat.ltb_spec (8 + (1 + (length (cf_name c) + (1 + length pk)))) 9); [lia|].
  assert (∀ x, take 8 (be_bytes 8 exp ++ x) = be_bytes 8 exp) as Ht.
  { intros x. rewrite <- (length_be_bytes 8 exp) at 1. apply take_app_length. }
  assert (∀ x, drop 9 (be_bytes 8 exp ++ NUL :: x) = x) as Hd.
  { intros x. change 9%nat with (8 + 1)%nat. rewrite <- drop_drop.
    rewrite <- (length_be_bytes 8 exp) at 1. by rewrite drop_app_length. }
  rewrite Ht. cbn [app]. rewrite Hd.
  rewrite split_once_app by apply cf_name_nul_free.
  by rewrite cf_name_utf8, from_be_u64.
Qed.

Lemma expiry_key_lt e1 e2 k1 k2 p1 p2 :
  is_u64 e1 → is_u64 e2 → e1 < e2 →
  bytes_ltb (expiry_key e1 k1 p1) (expiry_key e2 k2 p2) = true.
Proof.
  intros H1%u64_pow H2%u64_pow Hlt. unfold expiry_key.
  apply bytes_ltb_app_l; [by rewrite !length_be_bytes|apply be_bytes_ltb; lia].
Qed.

Lemma cf_name_head c : ∃ b rest, cf_name c = b :: rest ∧ 0 < byte_val b.
Proof. by destruct c; eexists _, _. Qed.

(** The sweep's upper bound admits exactly the strictly older timestamps. *)
Lemma expiry_scan_upper_iff e m c pk :
  is_u64 e → is_u64 m →
  bytes_ltb (expiry_key e (cf_name c) pk) (expiry_scan_upper m) = true ↔ e < m.
Proof.
  intros He%u64_pow Hm%u64_pow. unfold expiry_key, expiry_scan_upper. split.
  - intros H. destruct (Z.lt_trichotomy e m) as [?|[->|?]]; [done|exfalso|exfalso].
    + rewrite bytes_ltb_app in H. destruct (cf_name_head c) as (b & rest & Hc & Hb).
      rewrite Hc in H. simpl in H. change (byte_val NUL) with 0 in H.
      destruct (Z.ltb_spec (byte_val b) 0); [lia|].
      destruct (Z.ltb_spec 0 (byte_val b)); [done|lia].
    + rewrite bytes_ltb_asym in H; [done|].
      apply bytes_ltb_app_l; [by rewrite !length_be_bytes|apply be_bytes_ltb; lia].
  - intros. apply bytes_ltb_app_l; [by rewrite !length_be_bytes|apply be_bytes_ltb; lia].
Qed.

(** ** Lemmas: time *)

Lemma expired_mono exp now now' : now ≤ now' → expired exp now = true → expired exp now' = true.
Proof. unfold expired. rewrite !andb_true_iff, !Z.leb_le. lia. Qed.

Lemma expired_zero now : expired 0 now = false.
Proof. done. Qed.

Lemma expiry_at_live now ttl :
  0 ≤ now < u64_max → 0 ≤ ttl → expired (expiry_at now ttl) now = false.
Proof.
  unfold expiry_at, expired, saturating_add. intros. destruct (Z.eqb_spec ttl 0); [done|].
  apply andb_false_iff. right. apply Z.leb_gt. lia.
Qed.

Lemma expiry_at_u64 now ttl : is_u64 now → is_u64 ttl → is_u64 (expiry_at now ttl).
Proof.
  unfold expiry_at, is_u64, saturating_add, u64_max. intros. case_match; lia.
Qed.

Lemma div_ceil_bounds a b : 0 ≤ a → 0 < b → a ≤ div_ceil a b * b < a + b.
Proof.
  intros. unfold div_ceil. pose proof (Z.div_mod a b). pose proof (Z.mod_pos_bound a b).
  destruct (Z.eqb_spec (a mod b) 0); nia.
Qed.

(** The index timestamp is never earlier than the record's expiry, later by less
    than a quantum, and exact for short leases. *)
Lemma quantized_index_expiry_bounds now exp :
  is_u64 now → is_u64 exp →
  exp ≤ quantized_index_expiry now exp < exp + EXPIRY_INDEX_QUANTUM_MS ∧
  is_u64 (quantized_index_expiry now exp).
Proof.
  unfold is_u64, quantized_index_expiry, saturating_mul. intros Hn He.
  pose proof (div_ceil_bounds exp EXPIRY_INDEX_QUANTUM_MS).
  unfold EXPIRY_INDEX_QUANTUM_MS, u64_max in *. case_match; lia.
Qed.

(** Refreshing a long lease within a quantum window reuses one index slot. *)
Lemma quantized_index_expiry_long now exp :
  EXPIRY_INDEX_QUANTUM_MS ≤ exp - now → 0 ≤ now →
  quantized_index_expiry now exp =
  Z.min (div_ceil exp EXPIRY_INDEX_QUANTUM_MS * EXPIRY_INDEX_QUANTUM_MS) u64_max.
Proof.
  intros. unfold quantized_index_expiry, saturating_sub.
  destruct (Z.ltb_spec (Z.max (exp - now) 0) EXPIRY_INDEX_QUANTUM_MS); [lia|done].
Qed.
