(* ===== verification/Store.v ===== *)
(** * The transactional store ([src/store_rocksdb.rs])

    RocksDB and bincode are third-party code: they are the classes [RocksDb] and
    [Bincode], with the documented behaviour the code relies on as laws.  The
    transaction types are [WriteTxn] (write batch, read-your-writes overlay,
    read cache), [RocksDbTxn] and [SnapshotTxn] (read-only views); the trait
    [StoreTxn] is a class.  [Kv] is the abstract specification: one group's
    keyspace as a finite map. *)

From Stdlib Require Import ZArith NArith Lia Strings.Byte.
From stdpp Require Import sorting countable base numbers gmap strings list.
From S2P Require Import Prelude RustStd StoreKeys.
Local Open Scope Z_scope.

(** ** Third-party interfaces *)

(** A bincode-serializable type: decoding inverts encoding.  Encoding is total:
    the types the code stores hold strings, integers and lists of them, whose
    encoding to memory does not fail.  [str] is wider than Rust's [String] (any
    byte string, not only UTF-8), so an instance covers every value the code
    encodes. *)
Class Bincode (A : Type) := {
  bincode_encode : A → bytes;
  bincode_decode : bytes → option A;
  bincode_decode_encode a : bincode_decode (bincode_encode a) = Some a
}.

(** A key is in [[start, upper)]; an absent bound is open. *)
Definition in_range (start upper : option bytes) (k : bytes) : bool :=
  match start with Some s => bytes_leb s k | None => true end &&
  match upper with Some u => bytes_ltb k u | None => true end.

Definition key_lt {A} (x y : bytes * A) : Prop := bytes_ltb x.1 y.1 = true.

Inductive batch_op :=
| BPut (c : cf) (k v : bytes)
| BDelete (c : cf) (k : bytes)
| BDeleteRange (c : cf) (lo hi : bytes).

(** The effect of one batch operation on the value stored at [(c, k)]. *)
Definition batch_effect (c : cf) (k : bytes) (cur : option bytes) (op : batch_op)
    : option bytes :=
  match op with
  | BPut c' k' v => if decide (c' = c ∧ k' = k) then Some v else cur
  | BDelete c' k' => if decide (c' = c ∧ k' = k) then None else cur
  | BDeleteRange c' lo hi =>
      if decide (c' = c) then if in_range (Some lo) (Some hi) k then None else cur else cur
  end.

(** RocksDB: point reads, ordered iteration with bounds, atomic batches. *)
Class RocksDb := {
  DB : Type;
  get_cf : DB → cf → bytes → option bytes;
  range_cf : DB → cf → option bytes → option bytes → list (bytes * bytes);
  write_opt : DB → list batch_op → DB;
  range_cf_sorted db c s u : StronglySorted key_lt (range_cf db c s u);
  range_cf_spec db c s u k v :
    (k, v) ∈ range_cf db c s u ↔ get_cf db c k = Some v ∧ in_range s u k = true;
  get_cf_write db ops c k :
    get_cf (write_opt db ops) c k = foldl (batch_effect c k) (get_cf db c k) ops
}.

(** ** Stored records *)

Inductive StoredRecord :=
| Str (v : str) (exp : Z)
| Counter (v : Z)
| BytesRec (v : bytes) (exp : Z).

Section records.
Context `{!Bincode StoredRecord}.

Definition encode_record (rec : StoredRecord) : bytes := bincode_encode rec.
Definition decode_record (b : bytes) : result StoredRecord :=
  of_option "bincode decode" (bincode_decode b).
Definition decode_record_lenient (b : bytes) : option StoredRecord := bincode_decode b.

Definition live_str (rec : StoredRecord) (now_ms : Z) : option str :=
  match rec with
  | Str v exp => if expired exp now_ms then None else Some v
  | _ => None
  end.
End records.

(** ** Key helpers *)

Definition member_prefix (key : bytes) : bytes := key ++ [NUL].
Definition member_key (key : bytes) (member : str) : bytes := member_prefix key ++ member.

(** The [while let Some(last) = upper.last_mut()] loop, on the reversed key. *)
Fixpoint upper_bound_rev (rev_prefix : bytes) : option bytes :=
  match rev_prefix with
  | [] => None
  | last :: rest =>
      if byte_val last =? 255 then upper_bound_rev rest
      else Some (reverse (byte_of (byte_val last + 1) :: rest))
  end.
Definition prefix_upper_bound (prefix : bytes) : option bytes :=
  upper_bound_rev (reverse prefix).
Definition key_successor (key : bytes) : bytes := key ++ [NUL].

(** ** Merged range scan *)

(** A scan's visitor: threads a state, returns whether to go on. *)
Definition visitor (S : Type) : Type := bytes → bytes → S → result (S * bool).

Fixpoint visit_all {S : Type} (visit : visitor S) (s : S) (l : list (bytes * bytes)) : result S :=
  match l with
  | [] => Ok s
  | (k, v) :: l =>
      match visit k v s with
      | Ok (s', true) => visit_all visit s' l
      | Ok (s', false) => Ok s'
      | Err e => Err e
      end
  end.

(** A [BTreeMap]'s entries in key order, and its [range]. *)
Definition key_le {A} (x y : bytes * A) : Prop := bytes_le x.1 y.1.
#[export] Instance key_le_dec {A} : RelDecision (@key_le A).
Proof. intros x y. unfold key_le. apply _. Defined.
Definition sorted_entries {A} (m : gmap bytes A) : list (bytes * A) :=
  merge_sort key_le (map_to_list m).
Definition btree_range {A} (start upper : option bytes) (m : gmap bytes A)
    : list (bytes * A) :=
  filter (λ x, in_range start upper x.1 = true) (sorted_entries m).

Abbreviation Overlay := (gmap bytes (option bytes)).

(** The merge loop over the database iterator and the overlay range. *)
Fixpoint scan_loop {S : Type} (fuel : nat) (db : list (bytes * bytes))
    (ov : list (bytes * option bytes)) (visit : visitor S) (s : S) : result S :=
  match fuel with
  | O => Err OutOfFuel
  | Datatypes.S fuel =>
      let continue_with k v db' ov' :=
        match visit k v s with
        | Ok (s', true) => scan_loop fuel db' ov' visit s'
        | Ok (s', false) => Ok s'
        | Err e => Err e
        end in
      let take_overlay ok (o : option bytes) ov' :=
        let db' := match db with
                   | (dk, _) :: d => if decide (dk = ok) then d else db
                   | [] => []
                   end in
        match o with
        | Some value => continue_with ok value db' ov'
        | None => scan_loop fuel db' ov' visit s
        end in
      match db, ov with
      | [], [] => Ok s
      | [], (ok, o) :: ov' => take_overlay ok o ov'
      | (dk, dv) :: db', [] => continue_with dk dv db' []
      | (dk, dv) :: db', (ok, o) :: ov' =>
          if bytes_leb ok dk then take_overlay ok o ov' else continue_with dk dv db' ov
      end
  end.

Section scans.
Context `{!Bincode StoredRecord} `{!RocksDb}.

Definition scan_with_overlay {S : Type} (db : DB) (c : cf) (overlay : option Overlay)
    (start upper : option bytes) (visit : visitor S) (s : S) : result S :=
  let dbs := range_cf db c start upper in
  let ovs := btree_range start upper (default ∅ overlay) in
  scan_loop (Datatypes.S (length dbs + length ovs)) dbs ovs visit s.

(** ** Set scans

    The visitors of the three set scans; [prefix] is [member_prefix] of the key. *)
Definition raw_scan_cap (limit : Z) : Z := saturating_mul limit 4.

Definition smembers_limited_visit (prefix : bytes) (limit now_ms : Z)
    : visitor (list str * Z * bool) := λ k v '(members, raw, exceeded),
  if negb (starts_with prefix k) then Ok ((members, raw, exceeded), false)
  else
    let raw := raw + 1 in
    match decode_record v with
    | Err e => Err e
    | Ok rec =>
        let over := (members, raw, true) in
        match live_str rec now_ms with
        | Some member =>
            if limit <=? len members then Ok (over, false)
            else
              let members := members ++ [member] in
              if raw_scan_cap limit <=? raw then Ok ((members, raw, true), false)
              else Ok ((members, raw, exceeded), true)
        | None =>
            if raw_scan_cap limit <=? raw then Ok (over, false)
            else Ok ((members, raw, exceeded), true)
        end
    end.

Definition smembers_limited_result (limit : Z) (st : list str * Z * bool)
    : result (list str) :=
  let '(members, _, exceeded) := st in
  if exceeded then Err (SetScanLimitExceeded "smembers" limit) else Ok members.

Definition smembers_limited_impl (db : DB) (c : cf) (overlay : option Overlay)
    (key : bytes) (limit now_ms : Z) : result (list str) :=
  let prefix := member_prefix key in
  match scan_with_overlay db c overlay (Some prefix) (prefix_upper_bound prefix)
          (smembers_limited_visit prefix limit now_ms) ([], 0, false) with
  | Ok st => smembers_limited_result limit st
  | Err e => Err e
  end.

Definition smembers_page_visit (prefix : bytes) (page now_ms : Z)
    : visitor (list str * Z * option bytes) := λ k v '(members, raw, next_cursor),
  if negb (starts_with prefix k) then Ok ((members, raw, next_cursor), false)
  else if page <=? raw then Ok ((members, raw, Some k), false)
  else
    match decode_record v with
    | Err e => Err e
    | Ok rec =>
        match live_str rec now_ms with
        | Some member => Ok ((members ++ [member], raw + 1, next_cursor), true)
        | None => Ok ((members, raw + 1, next_cursor), true)
        end
    end.

Definition smembers_page_impl (db : DB) (c : cf) (overlay : option Overlay)
    (key : bytes) (cursor : option bytes) (page now_ms : Z)
    : result (list str * option bytes) :=
  let prefix := member_prefix key in
  let start := default prefix cursor in
  match scan_with_overlay db c overlay (Some start) (prefix_upper_bound prefix)
          (smembers_page_visit prefix page now_ms) ([], 0, None) with
  | Ok (members, _, next_cursor) => Ok (members, next_cursor)
  | Err e => Err e
  end.

Definition has_live_member_visit (prefix : bytes) (now_ms : Z) : visitor bool :=
  λ k v found,
  if negb (starts_with prefix k) then Ok (found, false)
  else
    match decode_record v with
    | Err e => Err e
    | Ok rec =>
        match live_str rec now_ms with
        | Some _ => Ok (true, false)
        | None => Ok (found, true)
        end
    end.

Definition has_live_member_impl (db : DB) (c : cf) (overlay : option Overlay)
    (key : bytes) (now_ms : Z) : result bool :=
  let prefix := member_prefix key in
  scan_with_overlay db c overlay (Some prefix) (prefix_upper_bound prefix)
    (has_live_member_visit prefix now_ms) false.
End scans.

(** ** The [StoreTxn] trait *)

Class StoreTxn (T : Type) := {
  now_ms : T → Z;
  get_str : cf → bytes → txm T (option str);
  set_str : cf → bytes → str → Z → txm T unit;
  pexpire_str : cf → bytes → Z → txm T unit;
  del : cf → bytes → txm T unit;
  sadd : cf → bytes → str → Z → txm T unit;
  srem : cf → bytes → str → txm T unit;
  smembers_limited : cf → bytes → Z → txm T (list str);
  smembers_page : cf → bytes → option bytes → Z → txm T (list str * option bytes);
  sismember : cf → bytes → str → txm T bool;
  has_live_member : cf → bytes → txm T bool
}.

(** The inherent methods of [WriteTxn] the apply layer uses besides the trait. *)
Class RawTxn (T : Type) := {
  raw_store :: StoreTxn T;
  get_raw : cf → bytes → txm T (option bytes);
  put_raw : cf → bytes → bytes → txm T unit;
  delete_raw : cf → bytes → txm T unit;
  scan_merged {S : Type} : cf → option bytes → option bytes → visitor S → S → txm T S
}.

Definition asks {T A} (f : T → A) : txm T A := λ t, Ok (f t, t).

(** ** Methods of [WriteTxn] written over its raw reads and writes *)
Section raw_methods.
Context `{!Bincode StoredRecord} {T : Type}.
Context (now : T → Z) (get : cf → bytes → txm T (option bytes)).
Context (put : cf → bytes → bytes → txm T unit) (delete : cf → bytes → txm T unit).

Definition write_expiry (exp : Z) (c : cf) (primary_key : bytes) : txm T unit :=
  now_ms ← asks now;
  let index_exp := quantized_index_expiry now_ms exp in
  put CF_EXPIRY (expiry_key index_exp (cf_name c) primary_key)
    (encode_record (Str [] index_exp)).

(** Store a record that carries an expiry, and its expiry-index entry. *)
Definition put_expiring (c : cf) (key : bytes) (mk : Z → StoredRecord) (ttl_ms : Z)
    : txm T unit :=
  now_ms ← asks now;
  let exp := expiry_at now_ms ttl_ms in
  put c key (encode_record (mk exp));;
  if 0 <? ttl_ms then write_expiry exp c key else mret tt.

Definition w_set_bytes (c : cf) (key : bytes) (value : bytes) (ttl_ms : Z) : txm T unit :=
  put_expiring c key (BytesRec value) ttl_ms.

Definition w_get_bytes (c : cf) (key : bytes) : txm T (option bytes) :=
  now_ms ← asks now;
  r ← get c key;
  match r with
  | Some raw =>
      rec ← lift (decode_record raw);
      match rec with
      | BytesRec v exp => mret (if expired exp now_ms then None else Some v)
      | _ => mret None
      end
  | None => mret None
  end.

Definition w_get_str (c : cf) (key : bytes) : txm T (option str) :=
  now_ms ← asks now;
  r ← get c key;
  match r with
  | Some b => rec ← lift (decode_record b); mret (live_str rec now_ms)
  | None => mret None
  end.

Definition w_set_str (c : cf) (key : bytes) (value : str) (ttl_ms : Z) : txm T unit :=
  put_expiring c key (Str value) ttl_ms.

Definition w_pexpire_str (c : cf) (key : bytes) (ttl_ms : Z) : txm T unit :=
  v ← w_get_str c key;
  match v with
  | Some v => w_set_str c key v ttl_ms
  | None => mret tt
  end.

Definition w_del (c : cf) (key : bytes) : txm T unit := delete c key.

Definition w_sadd (c : cf) (key : bytes) (member : str) (ttl_ms : Z) : txm T unit :=
  put_expiring c (member_key key member) (Str member) ttl_ms.

Definition w_srem (c : cf) (key : bytes) (member : str) : txm T unit :=
  delete c (member_key key member).

Definition w_sismember (c : cf) (key : bytes) (member : str) : txm T bool :=
  now_ms ← asks now;
  r ← get c (member_key key member);
  match r with
  | Some b =>
      rec ← lift (decode_record b);
      mret (match rec with Str _ exp => negb (expired exp now_ms) | _ => false end)
  | None => mret false
  end.
End raw_methods.

(** ** [WriteTxn] *)
Section write_txn.
Context `{!Bincode StoredRecord} `{!RocksDb}.

Record WriteTxn := {
  wt_db : DB;
  wt_group : GroupId;
  wt_batch : list batch_op;
  wt_overlay : gmap cf Overlay;
  wt_cache : gmap cf Overlay;
  wt_now_ms : Z;
  wt_dirty : bool
}.

Definition new (db : DB) (group : GroupId) (now : Z) : WriteTxn :=
  {| wt_db := db; wt_group := group; wt_batch := []; wt_overlay := ∅;
     wt_cache := ∅; wt_now_ms := now; wt_dirty := false |}.

Definition scoped (t : WriteTxn) (key : bytes) : bytes := group_key (wt_group t) key.

(** A two-level lookup, [map.get(cf).and_then(|m| m.get(key))]. *)
Definition lookup2 (m : gmap cf Overlay) (c : cf) (k : bytes) : option (option bytes) :=
  match m !! c with Some o => o !! k | None => None end.
Definition insert2 (m : gmap cf Overlay) (c : cf) (k : bytes) (v : option bytes)
    : gmap cf Overlay :=
  <[c := <[k := v]> (default ∅ (m !! c))]> m.

Definition get_full (c : cf) (full_key : bytes) : txm WriteTxn (option bytes) := λ t,
  match lookup2 (wt_overlay t) c full_key with
  | Some entry => Ok (entry, t)
  | None =>
      match lookup2 (wt_cache t) c full_key with
      | Some entry => Ok (entry, t)
      | None =>
          let value := get_cf (wt_db t) c full_key in
          Ok (value,
              {| wt_db := wt_db t; wt_group := wt_group t; wt_batch := wt_batch t;
                 wt_overlay := wt_overlay t;
                 wt_cache := insert2 (wt_cache t) c full_key value;
                 wt_now_ms := wt_now_ms t; wt_dirty := wt_dirty t |})
      end
  end.

Definition wt_get_raw (c : cf) (key : bytes) : txm WriteTxn (option bytes) := λ t,
  get_full c (scoped t key) t.

(** The common tail of [put_full] and [delete_raw]: append to the batch, shadow
    the key in the overlay, drop the family's read cache. *)
Definition record_write (c : cf) (op : batch_op) (full_key : bytes) (v : option bytes)
    (t : WriteTxn) : WriteTxn :=
  {| wt_db := wt_db t; wt_group := wt_group t; wt_batch := wt_batch t ++ [op];
     wt_overlay := insert2 (wt_overlay t) c full_key v;
     wt_cache := delete c (wt_cache t);
     wt_now_ms := wt_now_ms t; wt_dirty := true |}.

Definition put_full (c : cf) (full_key value : bytes) : txm WriteTxn unit := λ t,
  Ok (tt, record_write c (BPut c full_key value) full_key (Some value) t).

Definition wt_put_raw (c : cf) (key value : bytes) : txm WriteTxn unit := λ t,
  put_full c (scoped t key) value t.

Definition wt_delete_raw (c : cf) (key : bytes) : txm WriteTxn unit := λ t,
  Ok (tt, record_write c (BDelete c (scoped t key)) (scoped t key) None t).

Definition wt_scan_merged {S : Type} (c : cf) (start upper : option bytes)
    (visit : visitor S) (s : S) : txm WriteTxn S := λ t,
  let gp := group_prefix (wt_group t) in
  let scoped_start := match start with
                      | Some s => group_key (wt_group t) s
                      | None => gp
                      end in
  let scoped_upper := match upper with
                      | Some u => Some (group_key (wt_group t) u)
                      | None => prefix_upper_bound gp
                      end in
  lift (scan_with_overlay (wt_db t) c (wt_overlay t !! c) (Some scoped_start)
          scoped_upper (λ k v s, visit (drop (length gp) k) v s) s) t.

(** [commit]: the new database, and whether anything was written. *)
Definition commit (t : WriteTxn) : DB * bool :=
  if negb (wt_dirty t) then (wt_db t, false)
  else (write_opt (wt_db t) (wt_batch t), true).

Definition wt_smembers_limited (c : cf) (key : bytes) (limit : Z)
    : txm WriteTxn (list str) := λ t,
  lift (smembers_limited_impl (wt_db t) c (wt_overlay t !! c) (scoped t key) limit
          (wt_now_ms t)) t.

Definition wt_smembers_page (c : cf) (key : bytes) (cursor : option bytes) (page : Z)
    : txm WriteTxn (list str * option bytes) := λ t,
  match smembers_page_impl (wt_db t) c (wt_overlay t !! c) (scoped t key)
          (group_key (wt_group t) <$> cursor) page (wt_now_ms t) with
  | Ok (members, next) => Ok ((members, drop GROUP_PREFIX_LEN <$> next), t)
  | Err e => Err e
  end.

Definition wt_has_live_member (c : cf) (key : bytes) : txm WriteTxn bool := λ t,
  lift (has_live_member_impl (wt_db t) c (wt_overlay t !! c) (scoped t key)
          (wt_now_ms t)) t.

#[export] Instance write_txn_store : StoreTxn WriteTxn := {|
  now_ms := wt_now_ms;
  get_str := w_get_str wt_now_ms wt_get_raw;
  set_str := w_set_str wt_now_ms wt_put_raw;
  pexpire_str := w_pexpire_str wt_now_ms wt_get_raw wt_put_raw;
  del := w_del wt_delete_raw;
  sadd := w_sadd wt_now_ms wt_put_raw;
  srem := w_srem wt_delete_raw;
  smembers_limited := wt_smembers_limited;
  smembers_page := wt_smembers_page;
  sismember := w_sismember wt_now_ms wt_get_raw;
  has_live_member := wt_has_live_member
|}.

#[export] Instance write_txn_raw : RawTxn WriteTxn := {|
  raw_store := write_txn_store;
  get_raw := wt_get_raw;
  put_raw := wt_put_raw;
  delete_raw := wt_delete_raw;
  scan_merged := @wt_scan_merged
|}.
End write_txn.

(** ** Read-only transactions

    [RocksDbTxn] and [SnapshotTxn] differ only in where a read goes, the
    database or one of its snapshots; both are a database value here.  Writes
    fail; [del] and [srem] are dropped silently. *)
Section read_txn.
Context `{!Bincode StoredRecord} `{!RocksDb}.

Record ReadTxn := { rt_db : DB; rt_group : GroupId; rt_now_ms : Z }.

Definition read_only {T A} : txm T A := tfail (Anyhow "transaction is read-only").
Definition rt_scoped (t : ReadTxn) (key : bytes) : bytes := group_key (rt_group t) key.

Definition rt_get_raw (c : cf) (key : bytes) : txm ReadTxn (option bytes) := λ t,
  Ok (get_cf (rt_db t) c (rt_scoped t key), t).

Definition rt_smembers_page (c : cf) (key : bytes) (cursor : option bytes) (page : Z)
    : txm ReadTxn (list str * option bytes) := λ t,
  match smembers_page_impl (rt_db t) c None (rt_scoped t key)
          (group_key (rt_group t) <$> cursor) page (rt_now_ms t) with
  | Ok (members, next) => Ok ((members, drop GROUP_PREFIX_LEN <$> next), t)
  | Err e => Err e
  end.

#[export] Instance read_txn_store : StoreTxn ReadTxn := {|
  now_ms := rt_now_ms;
  get_str := w_get_str rt_now_ms rt_get_raw;
  set_str := λ _ _ _ _, read_only;
  pexpire_str := λ _ _ _, read_only;
  del := λ _ _, mret tt;
  sadd := λ _ _ _ _, read_only;
  srem := λ _ _ _, mret tt;
  smembers_limited := λ c key limit t,
    lift (smembers_limited_impl (rt_db t) c None (rt_scoped t key) limit (rt_now_ms t)) t;
  smembers_page := rt_smembers_page;
  sismember := w_sismember rt_now_ms rt_get_raw;
  has_live_member := λ c key t,
    lift (has_live_member_impl (rt_db t) c None (rt_scoped t key) (rt_now_ms t)) t
|}.
End read_txn.

(** ** Group lifecycle *)
Section lifecycle.
Context `{!RocksDb}.

Definition SYS_GROUP : GroupId := u32_max.

Definition destroy_group (db : DB) (group : GroupId) : result DB :=
  if group =? SYS_GROUP then Err (Anyhow "refusing to destroy the system group")
  else
    match group_range group with
    | (start, Some hi) =>
        Ok (write_opt db ((λ c, BDeleteRange c start hi)
                            <$> (STATE_CFS ++ [CF_RAFT_LOG; CF_META])))
    | (_, None) => Err (Anyhow "non-sys group has a bounded range")
    end.

Definition expiry_gc_cursor (db : DB) (group : GroupId) : option bytes :=
  get_cf db CF_META (group_key group META_GC_CURSOR_KEY).

Definition group_has_expiry_due (db : DB) (group : GroupId) (now : Z) : bool :=
  let start := match expiry_gc_cursor db group with
               | Some cursor => group_key group cursor
               | None => group_prefix group
               end in
  match range_cf db CF_EXPIRY (Some start)
          (Some (group_key group (expiry_scan_upper now))) with
  | [] => false
  | _ => true
  end.
End lifecycle.

(** ** The abstract store: one group's keyspace *)
Section kv.
Context `{!Bincode StoredRecord}.

Record Kv := { kv_now : Z; kv_data : gmap cf (gmap bytes bytes) }.

Definition cf_map (s : Kv) (c : cf) : gmap bytes bytes := default ∅ (kv_data s !! c).
Definition kv_upd (s : Kv) (c : cf) (m : gmap bytes bytes) : Kv :=
  {| kv_now := kv_now s; kv_data := <[c := m]> (kv_data s) |}.

Definition kv_get_raw (c : cf) (key : bytes) : txm Kv (option bytes) := λ s,
  Ok (cf_map s c !! key, s).
Definition kv_put_raw (c : cf) (key value : bytes) : txm Kv unit := λ s,
  Ok (tt, kv_upd s c (<[key := value]> (cf_map s c))).
Definition kv_delete_raw (c : cf) (key : bytes) : txm Kv unit := λ s,
  Ok (tt, kv_upd s c (delete key (cf_map s c))).

Definition kv_range (s : Kv) (c : cf) (start upper : option bytes) : list (bytes * bytes) :=
  btree_range start upper (cf_map s c).
Definition kv_scan {S : Type} (c : cf) (start upper : option bytes) (visit : visitor S) (s : S)
    : txm Kv S := λ t,
  lift (visit_all visit s (kv_range t c start upper)) t.

(** A scan of the keys that start with [prefix], from [start]. *)
Definition kv_scan_prefix {S : Type} (c : cf) (start prefix : bytes) (visit : visitor S) (s : S)
    : txm Kv S :=
  kv_scan c (Some start) (prefix_upper_bound prefix) visit s.

Definition kv_smembers_limited (c : cf) (key : bytes) (limit : Z) : txm Kv (list str) :=
  now ← asks kv_now;
  let prefix := member_prefix key in
  st ← kv_scan_prefix c prefix prefix (smembers_limited_visit prefix limit now) ([], 0, false);
  lift (smembers_limited_result limit st).

Definition kv_smembers_page (c : cf) (key : bytes) (cursor : option bytes) (page : Z)
    : txm Kv (list str * option bytes) :=
  now ← asks kv_now;
  let prefix := member_prefix key in
  '(members, _, next) ←
    kv_scan_prefix c (default prefix cursor) prefix
      (smembers_page_visit prefix page now) ([], 0, None);
  mret (members, next).

Definition kv_has_live_member (c : cf) (key : bytes) : txm Kv bool :=
  now ← asks kv_now;
  let prefix := member_prefix key in
  kv_scan_prefix c prefix prefix (has_live_member_visit prefix now) false.

#[export] Instance kv_store : StoreTxn Kv := {|
  now_ms := kv_now;
  get_str := w_get_str kv_now kv_get_raw;
  set_str := w_set_str kv_now kv_put_raw;
  pexpire_str := w_pexpire_str kv_now kv_get_raw kv_put_raw;
  del := w_del kv_delete_raw;
  sadd := w_sadd kv_now kv_put_raw;
  srem := w_srem kv_delete_raw;
  smembers_limited := kv_smembers_limited;
  smembers_page := kv_smembers_page;
  sismember := w_sismember kv_now kv_get_raw;
  has_live_member := kv_has_live_member
|}.

#[export] Instance kv_raw : RawTxn Kv := {|
  raw_store := kv_store;
  get_raw := kv_get_raw;
  put_raw := kv_put_raw;
  delete_raw := kv_delete_raw;
  scan_merged := @kv_scan
|}.
End kv.

(** Binary records over any raw transaction. *)
Section raw_bytes.
Context `{!Bincode StoredRecord} {T : Type} `{!RawTxn T}.
Definition set_bytes : cf → bytes → bytes → Z → txm T unit := w_set_bytes now_ms put_raw.
Definition get_bytes : cf → bytes → txm T (option bytes) := w_get_bytes now_ms get_raw.
End raw_bytes.
