(* ===== verification/StoreScan.v ===== *)
(** * Ordered scans: the merge loop, ordered lists and key ranges

    Facts behind every scan of [Store]: a strictly sorted list is determined by
    its elements, the prefix bound delimits exactly the keys with that prefix,
    and the overlay-merging loop visits exactly the merged entries in order. *)

From Stdlib Require Import ZArith NArith Lia Strings.Byte.
From stdpp Require Import sorting countable base numbers gmap strings list.
From S2P Require Import Prelude RustStd StoreKeys Store.
Local Open Scope Z_scope.

(** ** Strictly sorted lists of entries *)

Section sorted.
Context {A : Type}.
Implicit Types (l : list (bytes * A)) (x y : bytes * A).

Lemma key_lt_irrefl k (v v' : A) : ¬ key_lt (k, v) (k, v').
Proof. unfold key_lt. simpl. by rewrite bytes_ltb_irrefl. Qed.

Lemma key_lt_trans x y z : key_lt x y → key_lt y z → key_lt x z.
Proof. apply bytes_ltb_trans. Qed.

Lemma sorted_cons_inv x l :
  StronglySorted key_lt (x :: l) → StronglySorted key_lt l ∧ ∀ y, y ∈ l → key_lt x y.
Proof. inversion 1 as [|?? Hl Hx]; subst. by rewrite Forall_forall in Hx. Qed.

Lemma sorted_cons x l :
  StronglySorted key_lt l → (∀ y, y ∈ l → key_lt x y) → StronglySorted key_lt (x :: l).
Proof. constructor; [done|]. by apply Forall_forall. Qed.

Lemma sorted_key_unique l k (v v' : A) :
  StronglySorted key_lt l → (k, v) ∈ l → (k, v') ∈ l → v = v'.
Proof.
  induction l as [|x l IH]; [by intros ? ?%not_elem_of_nil|].
  intros [Hl Hx]%sorted_cons_inv. rewrite !elem_of_cons.
  intros [H1|H1] [H2|H2]; subst; [congruence| | |by eauto].
  - by apply Hx, key_lt_irrefl in H2.
  - by apply Hx, key_lt_irrefl in H1.
Qed.

(** A minimal element is the head. *)
Lemma sorted_head_min l x :
  StronglySorted key_lt l → x ∈ l → (∀ y, y ∈ l → y = x ∨ key_lt x y) →
  ∃ l', l = x :: l'.
Proof.
  destruct l as [|y l]; [by intros ? ?%not_elem_of_nil|].
  intros [_ Hy]%sorted_cons_inv Hx Hmin. exists l. f_equal.
  apply elem_of_cons in Hx as [->|Hx]; [done|].
  destruct (Hmin y) as [->|Hlt]; [by left|done|].
  destruct x as [k v]. destruct (key_lt_irrefl k v v).
  eapply key_lt_trans; [done|]. by apply Hy.
Qed.

Lemma sorted_ext l1 l2 :
  StronglySorted key_lt l1 → StronglySorted key_lt l2 →
  (∀ x, x ∈ l1 ↔ x ∈ l2) → l1 = l2.
Proof.
  revert l2. induction l1 as [|x l1 IH]; intros l2 H1 H2 Hel.
  { destruct l2 as [|y l2]; [done|]. exfalso. apply (not_elem_of_nil y), Hel. by left. }
  apply sorted_cons_inv in H1 as [H1 Hx].
  destruct (sorted_head_min l2 x) as [l2' ->]; [done|apply Hel; by left| |].
  { intros y Hy%Hel. apply elem_of_cons in Hy as [->|?]; auto. }
  apply sorted_cons_inv in H2 as [H2 Hx2]. f_equal. apply IH; [done..|].
  intros y. specialize (Hel y). rewrite !elem_of_cons in Hel. split; intros Hy.
  - destruct (proj1 Hel (or_intror Hy)) as [->|?]; [|done].
    destruct x. by apply Hx, key_lt_irrefl in Hy.
  - destruct (proj2 Hel (or_intror Hy)) as [->|?]; [|done].
    destruct x. by apply Hx2, key_lt_irrefl in Hy.
Qed.

Lemma sorted_filter (P : bytes * A → Prop) `{!∀ x, Decision (P x)} l :
  StronglySorted key_lt l → StronglySorted key_lt (filter P l).
Proof.
  induction l as [|x l IH]; [done|]. intros [Hl Hx]%sorted_cons_inv.
  rewrite filter_cons. case_decide; [|by apply IH].
  apply sorted_cons; [by apply IH|]. intros y [_ Hy]%list_elem_of_filter. auto.
Qed.

#[local] Instance key_le_trans : Transitive (@key_le A).
Proof. intros x y z. apply bytes_le_trans. Qed.
#[local] Instance key_le_total : Total (@key_le A).
Proof. intros x y. apply bytes_le_total. Qed.

Lemma sorted_entries_elem (m : gmap bytes A) k v :
  (k, v) ∈ sorted_entries m ↔ m !! k = Some v.
Proof.
  unfold sorted_entries. rewrite merge_sort_Permutation. apply elem_of_map_to_list.
Qed.

Lemma sorted_entries_sorted (m : gmap bytes A) : StronglySorted key_lt (sorted_entries m).
Proof.
  assert (NoDup (sorted_entries m).*1) as Hnd.
  { unfold sorted_entries. rewrite merge_sort_Permutation. apply NoDup_fst_map_to_list. }
  assert (StronglySorted key_le (sorted_entries m)) as Hs
    by apply (StronglySorted_merge_sort key_le).
  induction Hs as [|x l Hl IH Hx]; [constructor|].
  apply NoDup_cons in Hnd as [Hnin Hnd]. apply sorted_cons; [by apply IH|].
  intros y Hy. rewrite Forall_forall in Hx. specialize (Hx y Hy).
  unfold key_le, bytes_le, bytes_leb in Hx. rewrite negb_true_iff in Hx.
  destruct (bytes_ltb_total x.1 y.1) as [Heq|[?|?]]; [|done|congruence].
  destruct Hnin. apply list_elem_of_fmap. eauto.
Qed.

Lemma btree_range_elem (start upper : option bytes) (m : gmap bytes A) k v :
  (k, v) ∈ btree_range start upper m ↔ m !! k = Some v ∧ in_range start upper k = true.
Proof.
  unfold btree_range. rewrite list_elem_of_filter, sorted_entries_elem. simpl. tauto.
Qed.

Lemma btree_range_sorted (start upper : option bytes) (m : gmap bytes A) :
  StronglySorted key_lt (btree_range start upper m).
Proof. apply sorted_filter, sorted_entries_sorted. Qed.
End sorted.

(** ** Prefix ranges *)

Lemma bytes_leb_spec a b : bytes_leb a b = true ↔ a = b ∨ bytes_ltb a b = true.
Proof.
  unfold bytes_leb. rewrite negb_true_iff. split.
  - intros H. destruct (bytes_ltb_total a b) as [?|[?|?]]; auto. congruence.
  - intros [->|?]; [apply bytes_ltb_irrefl|by apply bytes_ltb_asym].
Qed.

Lemma bytes_leb_app p a b : bytes_leb (p ++ a) (p ++ b) = bytes_leb a b.
Proof. unfold bytes_leb. by rewrite bytes_ltb_app. Qed.

Lemma bytes_leb_extend a b : bytes_leb a (a ++ b) = true.
Proof.
  apply bytes_leb_spec. destruct b; [by rewrite app_nil_r; left|].
  right. by apply bytes_ltb_extend.
Qed.

Lemma bytes_leb_ltb_trans a b c :
  bytes_leb a b = true → bytes_ltb b c = true → bytes_ltb a c = true.
Proof. rewrite bytes_leb_spec. intros [->|?] ?; [done|by eapply bytes_ltb_trans]. Qed.

(** A key between two extensions of [p] is an extension of [p]. *)
Lemma between_prefix p a b k :
  bytes_leb (p ++ a) k = true → bytes_ltb k (p ++ b) = true → ∃ r, k = p ++ r.
Proof.
  revert k. induction p as [|x p IH]; intros k; [by exists k|].
  destruct k as [|y k]; [by rewrite bytes_leb_spec; intros [?|?]|].
  unfold bytes_leb. cbn [app bytes_ltb]. rewrite negb_true_iff.
  destruct (Z.ltb_spec (byte_val y) (byte_val x)); [done|].
  destruct (Z.ltb_spec (byte_val x) (byte_val y)); [done|].
  assert (x = y) as -> by (apply byte_val_inj; lia). intros H1 H2.
  destruct (IH k) as [r ->]; [by unfold bytes_leb; rewrite H1|done|]. by exists r.
Qed.

Lemma upper_bound_rev_snoc p x :
  prefix_upper_bound (p ++ [x]) =
  if byte_val x =? 255 then prefix_upper_bound p
  else Some (p ++ [byte_of (byte_val x + 1)]).
Proof.
  unfold prefix_upper_bound. rewrite reverse_app. simpl.
  case_match; [done|]. by rewrite reverse_cons, reverse_involutive.
Qed.

(** The bound of a scan delimits exactly the keys with the prefix. *)
Lemma prefix_range p k :
  in_range (Some p) (prefix_upper_bound p) k = true ↔ p `prefix_of` k.
Proof.
  unfold in_range. rewrite andb_true_iff. revert k.
  induction p as [|x p IH] using rev_ind; intros k.
  { split; [intros _; apply prefix_nil|by destruct k]. }
  rewrite upper_bound_rev_snoc. destruct (Z.eqb_spec (byte_val x) 255) as [Hx|Hx].
  - split.
    + intros [H1 H2]. destruct (proj1 (IH k)) as [r ->].
      { split; [|done]. rewrite bytes_leb_spec in H1 |- *. right.
        destruct H1 as [<-|H1]; [by apply bytes_ltb_extend|].
        apply (bytes_ltb_trans _ (p ++ [x])); [by apply bytes_ltb_extend|done]. }
      rewrite bytes_leb_app in H1. destruct r as [|y r]; [done|].
      assert (y = x) as ->; [|exists r; by rewrite <- app_assoc].
      unfold bytes_leb in H1. simpl in H1. pose proof (byte_val_range y).
      destruct (Z.ltb_spec (byte_val y) (byte_val x)); [done|].
      apply byte_val_inj. lia.
    + intros [r ->]. split; [apply bytes_leb_extend|].
      rewrite <- app_assoc. apply IH. by eexists.
  - split.
    + intros [H1 H2]. rewrite <- (app_nil_r (p ++ [x])), <- app_assoc in H1.
      destruct (between_prefix p ([x] ++ []) [byte_of (byte_val x + 1)] k) as [r ->]; [done..|].
      rewrite bytes_leb_app in H1. rewrite bytes_ltb_app in H2.
      destruct r as [|y r]; [done|]. assert (y = x) as ->; [|exists r; by rewrite <- app_assoc].
      unfold bytes_leb in H1. simpl in H1, H2. rewrite byte_val_of in H2.
      pose proof (byte_val_range x). rewrite Z.mod_small in H2 by lia.
      destruct (Z.ltb_spec (byte_val y) (byte_val x)); [done|].
      destruct (Z.ltb_spec (byte_val y) (byte_val x + 1)); [apply byte_val_inj; lia|].
      destruct (Z.ltb_spec (byte_val x + 1) (byte_val y)); [done|by destruct r].
    + intros [r ->]. split.
      * apply bytes_leb_extend.
      * rewrite <- app_assoc, bytes_ltb_app. simpl. rewrite byte_val_of.
        pose proof (byte_val_range x). rewrite Z.mod_small by lia.
        destruct (Z.ltb_spec (byte_val x) (byte_val x + 1)); [done|lia].
Qed.

Lemma prefix_upper_bound_app p q u :
  prefix_upper_bound q = Some u → prefix_upper_bound (p ++ q) = Some (p ++ u).
Proof.
  revert u. induction q as [|x q IH] using rev_ind; intros u; [done|].
  rewrite app_assoc, !upper_bound_rev_snoc. case_match; [apply IH|].
  intros ?. simplify_eq. by rewrite app_assoc.
Qed.

(** A set's prefix ends in NUL, so its bound always exists. *)
Lemma member_prefix_bound key :
  prefix_upper_bound (member_prefix key) = Some (key ++ [x01]).
Proof. unfold member_prefix. by rewrite upper_bound_rev_snoc. Qed.

(** Scoping both bounds of a range under [p]. *)
Lemma in_range_app p start u k :
  in_range (Some (p ++ start)) (Some (p ++ u)) k = true ↔
  ∃ r, k = p ++ r ∧ in_range (Some start) (Some u) r = true.
Proof.
  unfold in_range. split.
  - intros [H1 H2]%andb_true_iff. destruct (between_prefix p start u k) as [r ->]; [done..|].
    exists r. by rewrite bytes_leb_app, bytes_ltb_app in *; rewrite H1, H2.
  - intros (r & -> & H). by rewrite bytes_leb_app, bytes_ltb_app.
Qed.

(** ** The merge loop *)

Lemma visit_all_fmap {S} (visit : visitor S) f s l :
  visit_all (λ k v s, visit (f k) v s) s l =
  visit_all visit s ((λ x : bytes * bytes, (f x.1, x.2)) <$> l).
Proof.
  revert s. induction l as [|[k v] l IH]; intros s; simpl; [done|].
  destruct (visit (f k) v s) as [[s' []]|]; auto.
Qed.

(** [L] lists in order what the overlay [ov] over the database [db] shows. *)
Definition merged_list (db : list (bytes * bytes)) (ov : list (bytes * option bytes))
    (L : list (bytes * bytes)) : Prop :=
  StronglySorted key_lt db ∧ StronglySorted key_lt ov ∧ StronglySorted key_lt L ∧
  ∀ k v, (k, v) ∈ L ↔ (k, Some v) ∈ ov ∨ ((k, v) ∈ db ∧ ∀ o, (k, o) ∉ ov).

Lemma merged_list_nil L : merged_list [] [] L → L = [].
Proof.
  intros (_ & _ & _ & HL). destruct L as [|[k v] L]; [done|].
  destruct (proj1 (HL k v)) as [?%not_elem_of_nil|[?%not_elem_of_nil _]]; [by left|done..].
Qed.

(** The database entries that remain once an overlay key no larger than all of
    them has been consumed. *)
Definition drop_key (k : bytes) (db : list (bytes * bytes)) : list (bytes * bytes) :=
  match db with
  | (dk, _) :: d => if decide (dk = k) then d else db
  | [] => []
  end.

Lemma drop_key_spec k db k' v :
  StronglySorted key_lt db → (∀ x, x ∈ db → bytes_leb k x.1 = true) →
  (k', v) ∈ drop_key k db ↔ (k', v) ∈ db ∧ k' ≠ k.
Proof.
  destruct db as [|[dk dv] d]; simpl; [intros; rewrite elem_of_nil; tauto|].
  intros [Hd Hlt]%sorted_cons_inv Hle. rewrite elem_of_cons.
  case_decide as Hk.
  - subst. split; [|naive_solver]. intros Hin. split; [by right|]. intros ->.
    by apply Hlt, key_lt_irrefl in Hin.
  - rewrite elem_of_cons. split; [|naive_solver]. intros Hin. split; [done|]. intros ->.
    destruct Hin as [?|Hin]; [naive_solver|].
    specialize (Hle (dk, dv) ltac:(left)). apply Hlt in Hin.
    unfold key_lt in Hin; simpl in *. rewrite bytes_leb_spec in Hle.
    destruct Hle as [?|Hle]; [done|]. by rewrite bytes_ltb_asym in Hin.
Qed.

Lemma drop_key_sorted k db : StronglySorted key_lt db → StronglySorted key_lt (drop_key k db).
Proof.
  destruct db as [|[dk dv] d]; [done|]. intros H. simpl. case_decide; [|done].
  by apply sorted_cons_inv in H as [? _].
Qed.

Lemma drop_key_length k db : (length (drop_key k db) ≤ length db)%nat.
Proof. destruct db as [|[dk dv] d]; simpl; [done|]. case_decide; simpl; lia. Qed.

Lemma ov_cons_other (ok k : bytes) (o o' : option bytes) ov :
  k ≠ ok → (k, o') ∈ (ok, o) :: ov ↔ (k, o') ∈ ov.
Proof. rewrite elem_of_cons. naive_solver. Qed.

Lemma ov_tail_ne (ok k : bytes) (o o' : option bytes) ov :
  StronglySorted key_lt ((ok, o) :: ov) → (k, o') ∈ ov → k ≠ ok.
Proof. intros [_ Hlt]%sorted_cons_inv Hin ->. by apply Hlt, key_lt_irrefl in Hin. Qed.

Section merge_steps.
Context (db : list (bytes * bytes)) (ok : bytes) (o : option bytes).
Context (ov : list (bytes * option bytes)) (L : list (bytes * bytes)).
Hypothesis Hm : merged_list db ((ok, o) :: ov) L.
Hypothesis Hle : ∀ x, x ∈ db → bytes_leb ok x.1 = true.

Lemma merged_skip : o = None → merged_list (drop_key ok db) ov L.
Proof.
  intros Ho. pose proof Hm as (Hdb & Hov & HL & Hel).
  split_and!; [by apply drop_key_sorted|by apply sorted_cons_inv in Hov as [? _]|done|].
  intros k v. rewrite Hel, drop_key_spec by done. subst o. split.
  - intros [Hin|[Hin Hnot]].
    + rewrite elem_of_cons in Hin. naive_solver.
    + assert (k ≠ ok) by (intros ->; destruct (Hnot None); by left).
      right. split; [done|]. intros o' Hin'. apply (Hnot o'). by right.
  - intros [Hin|[[Hin Hk] Hnot]]; [left; by right|]. right. split; [done|].
    intros o' Hin'. rewrite ov_cons_other in Hin' by done. naive_solver.
Qed.

Lemma merged_take v :
  o = Some v → ∃ L', L = (ok, v) :: L' ∧ merged_list (drop_key ok db) ov L'.
Proof.
  intros Ho. pose proof Hm as (Hdb & Hov & HL & Hel). subst o.
  assert ((ok, v) ∈ L) as Hin by (apply Hel; left; by left).
  destruct (sorted_head_min L (ok, v)) as [L' ->]; [done..| |].
  { intros [k v'] Hk. destruct (decide (k = ok)) as [->|Hne].
    { left. f_equal. by eapply sorted_key_unique. }
    right. apply Hel in Hk as [Hk|[Hk _]].
    - apply ov_cons_other in Hk; [|done]. apply sorted_cons_inv in Hov as [_ Hlt].
      by apply (Hlt (k, Some v')).
    - apply Hle in Hk. simpl in Hk. apply bytes_leb_spec in Hk as [?|?]; [done|done]. }
  exists L'. split; [done|]. apply sorted_cons_inv in HL as [HL' HLlt].
  split_and!; [by apply drop_key_sorted|by apply sorted_cons_inv in Hov as [? _]|done|].
  intros k v'. rewrite drop_key_spec by done. split.
  - intros Hk. assert (k ≠ ok) as Hne by (intros ->; by apply HLlt, key_lt_irrefl in Hk).
    destruct (proj1 (Hel k v')) as [H|[H Hnot]]; [by right| |].
    + left. by apply ov_cons_other in H.
    + right. split; [done|]. intros o' ?. apply (Hnot o'). by right.
  - intros Hk. assert (k ≠ ok) as Hne.
    { destruct Hk as [Hk|[[_ ?] _]]; [|done]. by eapply ov_tail_ne. }
    assert ((k, v') ∈ (ok, v) :: L') as H.
    { apply Hel. destruct Hk as [Hk|[[Hk _] Hnot]]; [left; by right|].
      right. split; [done|]. intros o'. rewrite ov_cons_other by done. apply Hnot. }
    apply elem_of_cons in H as [H|?]; [naive_solver|done].
Qed.
End merge_steps.

Lemma merged_db_head dk dv db ov L :
  merged_list ((dk, dv) :: db) ov L → (∀ x, x ∈ ov → bytes_ltb dk x.1 = true) →
  ∃ L', L = (dk, dv) :: L' ∧ merged_list db ov L'.
Proof.
  intros (Hdb & Hov & HL & Hel) Hlt.
  apply sorted_cons_inv in Hdb as [Hdb Hdlt].
  assert (∀ o, (dk, o) ∉ ov) as Hno.
  { intros o Hin. apply Hlt in Hin. simpl in Hin. by rewrite bytes_ltb_irrefl in Hin. }
  assert ((dk, dv) ∈ L) as Hin by (apply Hel; right; split; [by left|done]).
  destruct (sorted_head_min L (dk, dv)) as [L' ->]; [done..| |].
  { intros [k v] Hk. destruct (decide (k = dk)) as [->|Hne].
    { left. f_equal. by eapply sorted_key_unique. }
    right. apply Hel in Hk as [Hk|[Hk _]]; [by apply Hlt in Hk|].
    apply elem_of_cons in Hk as [?|Hk]; [naive_solver|by apply Hdlt]. }
  exists L'. split; [done|]. apply sorted_cons_inv in HL as [HL HLlt].
  split_and!; [done..|]. intros k v. specialize (Hel k v). rewrite !elem_of_cons in Hel.
  split.
  - intros Hk. assert (k ≠ dk) by (intros ->; by apply HLlt, key_lt_irrefl in Hk).
    destruct (proj1 Hel (or_intror Hk)) as [?|[[?|?] ?]]; naive_solver.
  - intros Hk. assert (k ≠ dk) as Hne.
    { intros ->. destruct Hk as [Hk|[Hk _]]; [by apply Hno in Hk|].
      by apply Hdlt, key_lt_irrefl in Hk. }
    assert ((k, v) = (dk, dv) ∨ (k, v) ∈ L') as [?|?]; [|naive_solver|done].
    apply Hel. naive_solver.
Qed.

(** The merge loop visits exactly the merged list, and its fuel is enough. *)
Lemma scan_loop_spec {S} (visit : visitor S) fuel db ov L s :
  merged_list db ov L → (length db + length ov < fuel)%nat →
  scan_loop fuel db ov visit s = visit_all visit s L.
Proof.
  revert db ov L s. induction fuel as [|fuel IH]; intros db ov L s Hm Hf; [lia|].
  assert (∀ ok o ov', ov = (ok, o) :: ov' → (∀ x, x ∈ db → bytes_leb ok x.1 = true) →
    match o with
    | Some v => match visit ok v s with
                | Ok (s', true) => scan_loop fuel (drop_key ok db) ov' visit s'
                | Ok (s', false) => Ok s'
                | Err e => Err e
                end
    | None => scan_loop fuel (drop_key ok db) ov' visit s
    end = visit_all visit s L) as Hov.
  { intros ok o ov' -> Hle. pose proof (drop_key_length ok db). simpl in Hf.
    destruct o as [v|].
    - destruct (merged_take db ok (Some v) ov' L Hm Hle v eq_refl) as (L' & -> & Hm').
      simpl. destruct (visit ok v s) as [[s' []]|]; [|done..]. apply IH; [done|lia].
    - apply IH; [|lia]. by apply merged_skip with None. }
  assert (∀ dk dv db', db = (dk, dv) :: db' → (∀ x, x ∈ ov → bytes_ltb dk x.1 = true) →
    match visit dk dv s with
    | Ok (s', true) => scan_loop fuel db' ov visit s'
    | Ok (s', false) => Ok s'
    | Err e => Err e
    end = visit_all visit s L) as Hdb.
  { intros dk dv db' -> Hlt. simpl in Hf.
    destruct (merged_db_head dk dv db' ov L Hm Hlt) as (L' & -> & Hm').
    simpl. destruct (visit dk dv s) as [[s' []]|]; [|done..]. apply IH; [done|lia]. }
  destruct db as [|[dk dv] db], ov as [|[ok o] ov].
  - by rewrite (merged_list_nil L Hm).
  - apply (Hov ok o ov eq_refl). by intros x ?%not_elem_of_nil.
  - apply (Hdb dk dv db eq_refl). by intros x ?%not_elem_of_nil.
  - cbn [scan_loop]. destruct (bytes_leb ok dk) eqn:Hle.
    + apply (Hov ok o ov eq_refl). destruct Hm as ([_ Hlt]%sorted_cons_inv & _).
      intros x [->|Hx]%elem_of_cons; [done|]. apply Hlt in Hx. unfold key_lt in Hx.
      apply bytes_leb_spec. right. by eapply bytes_leb_ltb_trans.
    + apply (Hdb dk dv db eq_refl). destruct Hm as (_ & [_ Hlt]%sorted_cons_inv & _).
      unfold bytes_leb in Hle. rewrite negb_false_iff in Hle.
      intros x [->|Hx]%elem_of_cons; [done|]. apply Hlt in Hx.
      by eapply bytes_ltb_trans.
Qed.
