(* ===== verification/StoreSim.v ===== *)
(** * [WriteTxn] refines the abstract keyspace

    The classes [ReadSim], [StoreSim] and [RawSim] say that two transaction
    types answer alike from related states, operation by operation; the code
    that runs over a transaction is proved to preserve them once, in the files
    that model it.  [txn_rel] relates a write transaction to the keyspace its
    group would have after the commit; the read cache, the overlay, the batch
    and the group prefix are what it hides. *)

From Stdlib Require Import ZArith NArith Lia Strings.Byte.
From stdpp Require Import sorting countable base numbers gmap strings list.
From S2P Require Import Prelude RustStd StoreKeys Store StoreScan.
Local Open Scope Z_scope.

(** ** Interfaces *)

Class ReadSim {T U} `{!StoreTxn T, !StoreTxn U} (R : T → U → Prop) : Prop := {
  sim_now_ms t u : R t u → now_ms t = now_ms u;
  sim_get_str c k : sim R (get_str c k) (get_str c k);
  sim_smembers_limited c k n : sim R (smembers_limited c k n) (smembers_limited c k n);
  sim_smembers_page c k cur n : sim R (smembers_page c k cur n) (smembers_page c k cur n);
  sim_sismember c k m : sim R (sismember c k m) (sismember c k m);
  sim_has_live_member c k : sim R (has_live_member c k) (has_live_member c k)
}.

(** The writes a piece of code may make at a key of a family: a record with a TTL,
    raw bytes, a deletion. *)
Inductive write := WSet (ttl : Z) | WRaw | WDel.
Definition footprint : Type := cf → bytes → write → bool.
Definition any_write : footprint := λ _ _ _, true.

(** The writes are only required to agree within the footprint [W], so that a
    function's simulation lemma also bounds what it writes ([touches] below). *)
Class StoreSim {T U} `{!StoreTxn T, !StoreTxn U} (W : footprint) (R : T → U → Prop) : Prop := {
  store_sim_read :: ReadSim R;
  sim_set_str c k v ttl : W c k (WSet ttl) = true → sim R (set_str c k v ttl) (set_str c k v ttl);
  sim_pexpire_str c k ttl : W c k (WSet ttl) = true → sim R (pexpire_str c k ttl) (pexpire_str c k ttl);
  sim_del c k : W c k WDel = true → sim R (del c k) (del c k);
  sim_sadd c k m ttl :
    W c (member_key k m) (WSet ttl) = true → sim R (sadd c k m ttl) (sadd c k m ttl);
  sim_srem c k m : W c (member_key k m) WDel = true → sim R (srem c k m) (srem c k m)
}.

Class RawSim `{!Bincode StoredRecord} {T U} `{!RawTxn T, !RawTxn U} (W : footprint)
    (R : T → U → Prop) : Prop := {
  raw_sim_store :: StoreSim W R;
  sim_get_raw c k : sim R (get_raw c k) (get_raw c k);
  sim_put_raw c k v : W c k WRaw = true → sim R (put_raw c k v) (put_raw c k v);
  sim_delete_raw c k : W c k WDel = true → sim R (delete_raw c k) (delete_raw c k);
  sim_set_bytes c k v ttl :
    W c k (WSet ttl) = true → sim R (set_bytes c k v ttl) (set_bytes c k v ttl);
  sim_scan_merged {S} c lo hi (visit : visitor S) s :
    sim R (scan_merged c lo hi visit s) (scan_merged c lo hi visit s)
}.

Lemma store_sim_sub `{!StoreTxn T, !StoreTxn U} (R : T → U → Prop) (W W' : footprint) :
  (∀ c k w, W c k w = true → W' c k w = true) → StoreSim W' R → StoreSim W R.
Proof.
  intros HW H. split; [apply _|..]; intros; [apply sim_set_str|apply sim_pexpire_str|apply sim_del
    |apply sim_sadd|apply sim_srem]; auto.
Qed.

Lemma raw_sim_sub `{!Bincode StoredRecord, !RawTxn T, !RawTxn U} (R : T → U → Prop)
    (W W' : footprint) :
  (∀ c k w, W c k w = true → W' c k w = true) → RawSim W' R → RawSim W R.
Proof.
  intros HW H. split; [by eapply store_sim_sub, _|..]; intros; [apply sim_get_raw|apply sim_put_raw
    |apply sim_delete_raw|apply sim_set_bytes|apply sim_scan_merged]; auto.
Qed.

Lemma sim_asks {T U A} (R : T → U → Prop) (f : T → A) (g : U → A) :
  (∀ t u, R t u → f t = g u) → sim R (asks f) (asks g).
Proof. intros H t u HR. simpl. by rewrite (H t u HR). Qed.

Lemma sim_asks_now `{!StoreTxn T, !StoreTxn U} (R : T → U → Prop) `{!ReadSim R} :
  sim R (asks now_ms) (asks now_ms).
Proof. apply sim_asks, sim_now_ms. Qed.

#[export] Hint Resolve sim_asks_now sim_get_str sim_smembers_limited sim_smembers_page
  sim_sismember sim_has_live_member sim_set_str sim_pexpire_str sim_del sim_sadd
  sim_srem sim_get_raw sim_put_raw sim_delete_raw sim_set_bytes sim_scan_merged : sim.
#[export] Hint Extern 1 (_ = true) => reflexivity : sim.

(** ** The methods written over raw reads and writes *)
Section raw_methods_sim.
Context `{!Bincode StoredRecord} {T U : Type} (R : T → U → Prop).
Context (nowT : T → Z) (getT : cf → bytes → txm T (option bytes)).
Context (putT : cf → bytes → bytes → txm T unit) (delT : cf → bytes → txm T unit).
Context (nowU : U → Z) (getU : cf → bytes → txm U (option bytes)).
Context (putU : cf → bytes → bytes → txm U unit) (delU : cf → bytes → txm U unit).
Hypothesis Hnow : sim R (asks nowT) (asks nowU).
Hypothesis Hget : ∀ c k, sim R (getT c k) (getU c k).
Hypothesis Hput : ∀ c k v, sim R (putT c k v) (putU c k v).

Lemma sim_w_get_str c k : sim R (w_get_str nowT getT c k) (w_get_str nowU getU c k).
Proof. unfold w_get_str. solve_sim. Qed.

Lemma sim_put_expiring c k mk ttl :
  sim R (put_expiring nowT putT c k mk ttl) (put_expiring nowU putU c k mk ttl).
Proof. unfold put_expiring, write_expiry. solve_sim. Qed.

Lemma sim_w_pexpire_str c k ttl :
  sim R (w_pexpire_str nowT getT putT c k ttl) (w_pexpire_str nowU getU putU c k ttl).
Proof.
  unfold w_pexpire_str. apply sim_bind; [apply sim_w_get_str|]. intros [v|]; [|apply sim_ret].
  apply sim_put_expiring.
Qed.

Lemma sim_w_sismember c k m :
  sim R (w_sismember nowT getT c k m) (w_sismember nowU getU c k m).
Proof. unfold w_sismember. solve_sim. Qed.

Lemma sim_w_get_bytes c k : sim R (w_get_bytes nowT getT c k) (w_get_bytes nowU getU c k).
Proof. unfold w_get_bytes. solve_sim. Qed.
End raw_methods_sim.

Lemma sim_get_bytes `{!Bincode StoredRecord, !RawTxn T, !RawTxn U} (R : T → U → Prop) W
    `{!RawSim W R} c k : sim R (get_bytes c k) (get_bytes c k).
Proof. apply sim_w_get_bytes; eauto with sim typeclass_instances. Qed.
#[export] Hint Resolve sim_get_bytes : sim.

(** ** Scoped scans against the keyspace *)

Definition scope_entries (g : GroupId) (l : list (bytes * bytes)) : list (bytes * bytes) :=
  (λ x, (group_key g x.1, x.2)) <$> l.

Lemma scope_entries_sorted g l :
  StronglySorted key_lt l → StronglySorted key_lt (scope_entries g l).
Proof.
  induction l as [|x l IH]; [done|]. intros [Hl Hx]%sorted_cons_inv.
  apply sorted_cons; [by apply IH|]. intros y (z & -> & Hz)%list_elem_of_fmap.
  unfold key_lt, group_key. cbn [fst]. rewrite bytes_ltb_app. by apply Hx.
Qed.

Lemma scope_entries_elem g l k v : (group_key g k, v) ∈ scope_entries g l ↔ (k, v) ∈ l.
Proof.
  unfold scope_entries. rewrite list_elem_of_fmap. split; [|by exists (k, v)].
  intros ([k' v'] & Heq & Hin). unfold group_key in Heq. simplify_eq/=. done.
Qed.

Lemma scope_entries_inv g l fk v :
  (fk, v) ∈ scope_entries g l → ∃ k, fk = group_key g k ∧ (k, v) ∈ l.
Proof. intros ([k' v'] & Heq & Hin)%list_elem_of_fmap. simplify_eq/=. eauto. Qed.

Lemma visit_all_scoped {S} g (visit' visit : visitor S) s l :
  (∀ k v s, visit' (group_key g k) v s = visit k v s) →
  visit_all visit' s (scope_entries g l) = visit_all visit s l.
Proof.
  intros H. revert s. induction l as [|[k v] l IH]; intros s; [done|].
  simpl. rewrite H. by destruct (visit k v s) as [[s' []]|].
Qed.

Lemma member_prefix_scoped g key :
  member_prefix (group_key g key) = group_key g (member_prefix key).
Proof. unfold member_prefix, group_key. by rewrite <- app_assoc. Qed.

Lemma member_key_scoped g key m :
  member_key (group_key g key) m = group_key g (member_key key m).
Proof. unfold member_key. rewrite member_prefix_scoped. unfold group_key. by rewrite <- app_assoc. Qed.

Lemma starts_with_scoped g p k : starts_with (group_key g p) (group_key g k) = starts_with p k.
Proof.
  apply eq_true_iff_eq. rewrite !starts_with_spec. unfold group_key.
  split; intros [r Hr]; exists r.
  - by rewrite <- app_assoc in Hr; simplify_eq.
  - by rewrite Hr, <- app_assoc.
Qed.

(** Scoped bounds: the range of a group-relative pair of bounds, under the
    group's prefix.  An absent upper bound stops at the end of the group. *)
Lemma scoped_range g start upper fk :
  in_range (Some match start with Some s => group_key g s | None => group_prefix g end)
    match upper with Some u => Some (group_key g u) | None => prefix_upper_bound (group_prefix g) end
    fk = true ↔
  ∃ r, fk = group_key g r ∧ in_range start upper r = true.
Proof.
  assert (∃ s, match start with Some s => group_key g s | None => group_prefix g end
                 = group_key g s ∧ ∀ r, in_range start upper r = in_range (Some s) upper r)
    as (s & -> & Hs).
  { destruct start as [s|]; [by exists s|]. exists []. split.
    - unfold group_key. by rewrite app_nil_r.
    - intros r. by destruct r. }
  setoid_rewrite Hs. destruct upper as [u|]; [apply in_range_app|].
  split.
  - intros [Hle Hub]%andb_true_iff.
    destruct (proj1 (prefix_range (group_prefix g) fk)) as [r ->].
    { apply andb_true_iff. split; [|done]. apply bytes_leb_spec.
      pose proof (bytes_leb_extend (group_prefix g) s) as Hg.
      apply bytes_leb_spec in Hg as [Hg|Hg], Hle as [Hle|Hle]; unfold group_key in *.
      - left. unfold group_prefix in *. congruence.
      - right. unfold group_prefix in *. by rewrite Hg.
      - right. unfold group_prefix in *. by rewrite <- Hle.
      - right. by eapply bytes_ltb_trans. }
    exists r. split; [done|]. unfold in_range. rewrite andb_true_r.
    unfold group_key, group_prefix in Hle. by rewrite bytes_leb_app in Hle.
  - intros (r & -> & [Hr _]%andb_true_iff). apply andb_true_iff. split.
    + unfold group_key. by rewrite bytes_leb_app.
    + assert (group_prefix g `prefix_of` group_key g r) as Hp by by eexists.
      by apply prefix_range, andb_true_iff in Hp as [_ ?].
Qed.

Section scans_sim.
Context `{!Bincode StoredRecord} `{!RocksDb}.

(** What a database under an overlay shows at a key. *)
Definition view (db : DB) (c : cf) (overlay : option Overlay) (fk : bytes) : option bytes :=
  match default ∅ overlay !! fk with
  | Some entry => entry
  | None => get_cf db c fk
  end.

Section one_scan.
Context (db : DB) (c : cf) (overlay : option Overlay) (g : GroupId) (m : gmap bytes bytes).
Hypothesis Hview : ∀ k, m !! k = view db c overlay (group_key g k).

(** A merged scan over scoped bounds visits the keyspace's range, scoped. *)
Lemma scan_overlay_scoped {S} start upper start' upper' (visit : visitor S) s :
  (∀ fk, in_range (Some start') upper' fk = true ↔
     ∃ r, fk = group_key g r ∧ in_range start upper r = true) →
  scan_with_overlay db c overlay (Some start') upper' visit s =
  visit_all visit s (scope_entries g (btree_range start upper m)).
Proof.
  intros Hr. apply scan_loop_spec; [|lia].
  split_and!; [apply range_cf_sorted|apply btree_range_sorted|
    apply scope_entries_sorted, btree_range_sorted|].
  intros fk v. rewrite range_cf_spec. setoid_rewrite btree_range_elem. split.
  - intros (k & -> & [Hm Hin]%btree_range_elem)%scope_entries_inv.
    assert (in_range (Some start') upper' (group_key g k) = true) as Hin' by (apply Hr; eauto).
    rewrite Hview in Hm. unfold view in Hm.
    destruct (default ∅ overlay !! group_key g k) as [e|] eqn:He.
    + left. by subst e.
    + right. split; [done|]. intros o [Ho _]. congruence.
  - intros Hv. assert (in_range (Some start') upper' fk = true) as Hin by by destruct Hv as [[_ ?]|[[_ ?] _]].
    pose proof Hin as (r & -> & Hrin)%Hr. apply scope_entries_elem, btree_range_elem.
    split; [|done]. rewrite Hview. unfold view.
    destruct Hv as [[-> _]|[[Hdb _] Hno]]; [done|].
    destruct (default ∅ overlay !! group_key g r) as [e|] eqn:He; [|done].
    by destruct (Hno e).
Qed.

Lemma scan_overlay_prefix {S} start key (visit : visitor S) s :
  scan_with_overlay db c overlay (Some (group_key g start))
    (prefix_upper_bound (member_prefix (group_key g key))) visit s =
  visit_all visit s (scope_entries g
    (btree_range (Some start) (prefix_upper_bound (member_prefix key)) m)).
Proof.
  apply scan_overlay_scoped. intros fk. rewrite !member_prefix_bound.
  unfold group_key. rewrite <- app_assoc. apply in_range_app.
Qed.

Lemma smembers_limited_scoped key limit now :
  smembers_limited_impl db c overlay (group_key g key) limit now =
  match visit_all (smembers_limited_visit (member_prefix key) limit now) ([], 0, false)
          (btree_range (Some (member_prefix key))
             (prefix_upper_bound (member_prefix key)) m) with
  | Ok st => smembers_limited_result limit st
  | Err e => Err e
  end.
Proof.
  unfold smembers_limited_impl. rewrite member_prefix_scoped at 1.
  rewrite scan_overlay_prefix, (visit_all_scoped _ _
    (smembers_limited_visit (member_prefix key) limit now)); [done|].
  intros k v [[ms raw] ex]. unfold smembers_limited_visit.
  by rewrite member_prefix_scoped, starts_with_scoped.
Qed.

Lemma has_live_member_scoped key now :
  has_live_member_impl db c overlay (group_key g key) now =
  visit_all (has_live_member_visit (member_prefix key) now) false
    (btree_range (Some (member_prefix key)) (prefix_upper_bound (member_prefix key)) m).
Proof.
  unfold has_live_member_impl. rewrite member_prefix_scoped at 1.
  rewrite scan_overlay_prefix. apply visit_all_scoped.
  intros k v found. unfold has_live_member_visit.
  by rewrite member_prefix_scoped, starts_with_scoped.
Qed.

(** The paging visitor reports a full key as cursor. *)
Definition scope_page (st : list str * Z * option bytes) : list str * Z * option bytes :=
  let '(ms, raw, next) := st in (ms, raw, group_key g <$> next).

Lemma smembers_page_visit_scoped prefix page now st l :
  visit_all (smembers_page_visit (group_key g prefix) page now) (scope_page st)
    (scope_entries g l) =
  match visit_all (smembers_page_visit prefix page now) st l with
  | Ok st' => Ok (scope_page st')
  | Err e => Err e
  end.
Proof.
  revert st. induction l as [|[k v] l IH]; intros [[ms raw] next]; [done|].
  cbn -[group_key starts_with]. rewrite starts_with_scoped.
  destruct (starts_with prefix k); [|done]. cbn [negb]. destruct (page <=? raw); [done|].
  destruct (decode_record v) as [rec|]; [|done].
  destruct (live_str rec now) as [m'|];
    [apply (IH (ms ++ [m'], raw + 1, next))|apply (IH (ms, raw + 1, next))].
Qed.

Lemma smembers_page_scoped key cursor page now :
  smembers_page_impl db c overlay (group_key g key) (group_key g <$> cursor) page now =
  match visit_all (smembers_page_visit (member_prefix key) page now) ([], 0, None)
          (btree_range (Some (default (member_prefix key) cursor))
             (prefix_upper_bound (member_prefix key)) m) with
  | Ok (ms, _, next) => Ok (ms, group_key g <$> next)
  | Err e => Err e
  end.
Proof.
  unfold smembers_page_impl.
  assert (default (member_prefix (group_key g key)) (group_key g <$> cursor) =
    group_key g (default (member_prefix key) cursor)) as ->.
  { destruct cursor; [done|]. apply member_prefix_scoped. }
  rewrite scan_overlay_prefix, member_prefix_scoped.
  change ([], 0, None) with (scope_page ([], 0, None)) at 1.
  rewrite smembers_page_visit_scoped.
  by destruct (visit_all _ _ _) as [[[ms raw] next]|].
Qed.
End one_scan.
End scans_sim.

Lemma drop_group_key g k : drop GROUP_PREFIX_LEN (group_key g k) = k.
Proof.
  unfold group_key. rewrite <- (length_be_bytes GROUP_PREFIX_LEN g).
  apply drop_app_length.
Qed.

(** ** The relation between a write transaction and its keyspace *)
Section write_txn_sim.
Context `{!Bincode StoredRecord} `{!RocksDb}.

Definition wt_view (t : WriteTxn) (c : cf) (fk : bytes) : option bytes :=
  view (wt_db t) c (wt_overlay t !! c) fk.

Record txn_rel (db : DB) (g : GroupId) (t : WriteTxn) (s : Kv) : Prop := {
  tr_db : wt_db t = db;
  tr_group : wt_group t = g;
  tr_now : wt_now_ms t = kv_now s;
  tr_data c k : cf_map s c !! k = wt_view t c (group_key g k);
  (** the cache holds database values *)
  tr_cache c fk v : lookup2 (wt_cache t) c fk = Some v → v = get_cf db c fk;
  (** writing the batch gives what the overlay shows *)
  tr_batch c fk : foldl (batch_effect c fk) (get_cf db c fk) (wt_batch t) = wt_view t c fk;
  (** only keys of the group are written *)
  tr_scope c fk : ¬ (group_prefix g) `prefix_of` fk → wt_view t c fk = get_cf db c fk;
  tr_dirty : wt_dirty t = false → wt_batch t = []
}.

Lemma lookup2_insert2 m c k v c' k' :
  lookup2 (insert2 m c k v) c' k' =
  if decide (c = c' ∧ k = k') then Some v else lookup2 m c' k'.
Proof.
  unfold lookup2, insert2. destruct (decide (c = c')) as [->|Hc].
  - rewrite lookup_insert_eq. destruct (decide (k = k')) as [->|Hk].
    + rewrite lookup_insert_eq. by rewrite decide_True.
    + rewrite lookup_insert_ne by done. rewrite decide_False by naive_solver.
      destruct (m !! c'); simpl; [done|]. by rewrite lookup_empty.
  - rewrite lookup_insert_ne by done. by rewrite decide_False by naive_solver.
Qed.

Lemma wt_view_lookup2 t c fk :
  wt_view t c fk = default (get_cf (wt_db t) c fk) (lookup2 (wt_overlay t) c fk).
Proof.
  unfold wt_view, view, lookup2. destruct (wt_overlay t !! c) as [o|]; simpl.
  - by destruct (o !! fk).
  - by rewrite lookup_empty.
Qed.

Lemma wt_view_record_write t c op fk v c' fk' :
  wt_view (record_write c op fk v t) c' fk' =
  if decide (c = c' ∧ fk = fk') then v else wt_view t c' fk'.
Proof.
  rewrite !wt_view_lookup2. simpl. rewrite lookup2_insert2. by case_decide.
Qed.

Lemma cf_map_upd s c m c' :
  cf_map (kv_upd s c m) c' = if decide (c = c') then m else cf_map s c'.
Proof.
  unfold cf_map. simpl. case_decide as Hc.
  - subst. by rewrite lookup_insert_eq.
  - by rewrite lookup_insert_ne.
Qed.

Lemma group_key_inj_2 g k k' : group_key g k = group_key g k' → k = k'.
Proof. unfold group_key. intros. by simplify_list_eq. Qed.

(** One raw write against the keyspace. *)
Lemma txn_rel_write db g t s c k v op m :
  txn_rel db g t s →
  (∀ cur c' fk, batch_effect c' fk cur op =
     if decide (c = c' ∧ group_key g k = fk) then v else cur) →
  (∀ k', m !! k' = if decide (k = k') then v else cf_map s c !! k') →
  txn_rel db g (record_write c op (group_key g k) v t) (kv_upd s c m).
Proof.
  intros [Hdb Hg Hnow Hdata Hcache Hbatch Hscope Hdirty] Hop Hm. split; simpl; try done.
  - intros c' k'. rewrite wt_view_record_write, cf_map_upd.
    destruct (decide (c = c')) as [->|Hc].
    + rewrite Hm. destruct (decide (k = k')) as [->|Hk].
      * by rewrite decide_True.
      * rewrite decide_False; [done|]. intros [_ ?%group_key_inj_2]. done.
    + rewrite decide_False by naive_solver. done.
  - intros c' fk v' Hl. apply Hcache. unfold lookup2 in *.
    destruct (decide (c = c')) as [->|Hc].
    + by rewrite lookup_delete_eq in Hl.
    + by rewrite lookup_delete_ne in Hl.
  - intros c' fk. rewrite foldl_app. simpl. by rewrite Hbatch, Hop, wt_view_record_write.
  - intros c' fk Hfk. rewrite wt_view_record_write. rewrite decide_False; [by apply Hscope|].
    intros [_ <-]. destruct Hfk. by eexists.
Qed.

Section rel.
Context (db : DB) (g : GroupId).

Lemma sim_wt_get_raw c k : sim (txn_rel db g) (wt_get_raw c k) (kv_get_raw c k).
Proof.
  intros t s HR. unfold wt_get_raw, kv_get_raw, get_full, scoped.
  rewrite (tr_group _ _ _ _ HR), (tr_data _ _ _ _ HR), wt_view_lookup2.
  destruct (lookup2 (wt_overlay t) c (group_key g k)) as [e|]; [done|]. simpl.
  destruct (lookup2 (wt_cache t) c (group_key g k)) as [e|] eqn:Hc.
  - rewrite (tr_cache _ _ _ _ HR _ _ _ Hc), (tr_db _ _ _ _ HR). done.
  - split; [done|]. destruct HR as [Hdb Hg Hnow Hdata Hcache Hbatch Hscope Hdirty].
    split; simpl; try done. intros c' fk v. rewrite lookup2_insert2.
    case_decide as Hd; [|apply Hcache]. destruct Hd as [-> ->]. intros; by simplify_eq.
Qed.

Lemma sim_wt_put_raw c k v : sim (txn_rel db g) (wt_put_raw c k v) (kv_put_raw c k v).
Proof.
  intros t s HR. unfold wt_put_raw, kv_put_raw, put_full, scoped. split; [done|].
  rewrite (tr_group _ _ _ _ HR). apply txn_rel_write; [done|done|].
  intros k'. by rewrite lookup_insert.
Qed.

Lemma sim_wt_delete_raw c k : sim (txn_rel db g) (wt_delete_raw c k) (kv_delete_raw c k).
Proof.
  intros t s HR. unfold wt_delete_raw, kv_delete_raw, scoped. split; [done|].
  rewrite (tr_group _ _ _ _ HR). apply txn_rel_write; [done|done|].
  intros k'. by rewrite lookup_delete.
Qed.

Lemma sim_wt_scan_merged {S : Type} c lo hi (visit : visitor S) s0 :
  sim (txn_rel db g) (wt_scan_merged c lo hi visit s0) (kv_scan c lo hi visit s0).
Proof.
  intros t s HR. unfold wt_scan_merged, kv_scan, kv_range.
  erewrite (scan_overlay_scoped _ c _ (wt_group t) (cf_map s c));
    [|intros k; rewrite (tr_group _ _ _ _ HR); apply (tr_data _ _ _ _ HR)
     |intros fk; apply scoped_range].
  erewrite (visit_all_scoped _ _ visit).
  - unfold lift. destruct (visit_all visit s0 _); done.
  - done.
Qed.

Lemma sim_wt_smembers_limited c k n :
  sim (txn_rel db g) (wt_smembers_limited c k n) (kv_smembers_limited c k n).
Proof.
  intros t s HR. unfold wt_smembers_limited, scoped.
  rewrite (smembers_limited_scoped _ _ _ _ (cf_map s c)), (tr_now _ _ _ _ HR)
    by (intros k'; rewrite (tr_group _ _ _ _ HR); apply (tr_data _ _ _ _ HR)).
  unfold kv_smembers_limited, kv_scan_prefix, kv_scan, kv_range, mbind, txm_bind, asks.
  unfold lift. destruct (visit_all _ _ _) as [st|]; [|done].
  by destruct (smembers_limited_result n st).
Qed.

Lemma sim_wt_has_live_member c k :
  sim (txn_rel db g) (wt_has_live_member c k) (kv_has_live_member c k).
Proof.
  intros t s HR. unfold wt_has_live_member, scoped.
  rewrite (has_live_member_scoped _ _ _ _ (cf_map s c)), (tr_now _ _ _ _ HR)
    by (intros k'; rewrite (tr_group _ _ _ _ HR); apply (tr_data _ _ _ _ HR)).
  unfold kv_has_live_member, kv_scan_prefix, kv_scan, kv_range, mbind, txm_bind, asks.
  unfold lift. by destruct (visit_all _ _ _) as [st|].
Qed.

Lemma sim_wt_smembers_page c k cur n :
  sim (txn_rel db g) (wt_smembers_page c k cur n) (kv_smembers_page c k cur n).
Proof.
  intros t s HR. unfold wt_smembers_page, scoped.
  rewrite (smembers_page_scoped _ _ _ _ (cf_map s c)), (tr_now _ _ _ _ HR)
    by (intros k'; rewrite (tr_group _ _ _ _ HR); apply (tr_data _ _ _ _ HR)).
  unfold kv_smembers_page, kv_scan_prefix, kv_scan, kv_range, mbind, txm_bind, asks.
  unfold lift. destruct (visit_all _ _ _) as [[[ms raw] next]|]; [|done].
  split; [|done]. f_equal. destruct next as [nk|]; [|done].
  exact (f_equal Some (drop_group_key _ nk)).
Qed.

Lemma sim_wt_now : sim (txn_rel db g) (asks wt_now_ms) (asks kv_now).
Proof. apply sim_asks. intros t s HR. apply HR. Qed.

#[export] Instance write_txn_read_sim : ReadSim (txn_rel db g).
Proof.
  pose proof sim_wt_now. pose proof sim_wt_get_raw. split; intros.
  - by eapply tr_now.
  - by apply sim_w_get_str.
  - apply sim_wt_smembers_limited.
  - apply sim_wt_smembers_page.
  - by apply sim_w_sismember.
  - apply sim_wt_has_live_member.
Qed.

#[export] Instance write_txn_store_sim W : StoreSim W (txn_rel db g).
Proof.
  pose proof sim_wt_now. pose proof sim_wt_get_raw. pose proof sim_wt_put_raw.
  split; intros.
  - apply _.
  - cbn [set_str write_txn_store kv_store]. unfold w_set_str. apply sim_put_expiring; [apply sim_wt_now|apply sim_wt_put_raw].
  - by apply sim_w_pexpire_str.
  - apply sim_wt_delete_raw.
  - cbn [sadd write_txn_store kv_store]. unfold w_sadd. apply sim_put_expiring; [apply sim_wt_now|apply sim_wt_put_raw].
  - apply sim_wt_delete_raw.
Qed.

#[export] Instance write_txn_raw_sim W : RawSim W (txn_rel db g).
Proof.
  split; intros.
  - apply _.
  - apply sim_wt_get_raw.
  - apply sim_wt_put_raw.
  - apply sim_wt_delete_raw.
  - apply sim_put_expiring; [apply sim_wt_now|apply sim_wt_put_raw].
  - apply sim_wt_scan_merged.
Qed.

(** The keyspace of a group in a database. *)
Definition strip_entries (l : list (bytes * bytes)) : list (bytes * bytes) :=
  (λ x, (drop GROUP_PREFIX_LEN x.1, x.2)) <$> l.
Definition group_entries (c : cf) : list (bytes * bytes) :=
  range_cf db c (Some (group_prefix g)) (prefix_upper_bound (group_prefix g)).
Definition kv_of_db (now : Z) : Kv :=
  {| kv_now := now;
     kv_data := list_to_map ((λ c, (c, list_to_map (strip_entries (group_entries c))))
                               <$> ALL_CFS) |}.

Lemma scope_strip_entries l :
  (∀ x, x ∈ l → group_prefix g `prefix_of` x.1) → scope_entries g (strip_entries l) = l.
Proof.
  induction l as [|[fk v] l IH]; intros Hl; [done|].
  trans ((group_key g (drop GROUP_PREFIX_LEN fk), v) :: scope_entries g (strip_entries l));
    [done|]. rewrite IH.
  - destruct (Hl (fk, v)) as [r Hr]; [by left|].
    change (fk = group_key g r) in Hr. by rewrite Hr, drop_group_key.
  - intros x Hx. apply Hl. by right.
Qed.

Lemma scope_sorted_inv l :
  StronglySorted key_lt (scope_entries g l) → StronglySorted key_lt l.
Proof.
  induction l as [|x l IH]; [constructor|]. intros [Hl Hx]%sorted_cons_inv.
  apply sorted_cons; [by apply IH|]. intros y Hy.
  specialize (Hx (group_key g y.1, y.2)). unfold key_lt, group_key in Hx. cbn [fst] in Hx.
  rewrite bytes_ltb_app in Hx. apply Hx, list_elem_of_fmap. eauto.
Qed.

Lemma sorted_nodup_keys {A} (l : list (bytes * A)) :
  StronglySorted key_lt l → NoDup l.*1.
Proof.
  induction l as [|[k v] l IH]; [constructor|]. intros [Hl Hx]%sorted_cons_inv.
  apply NoDup_cons. split; [|by apply IH].
  intros ([k' v'] & Heq & Hy)%list_elem_of_fmap. simplify_eq/=. by apply Hx, key_lt_irrefl in Hy.
Qed.

Lemma kv_of_db_cf now c :
  cf_map (kv_of_db now) c = list_to_map (strip_entries (group_entries c)).
Proof.
  unfold cf_map, kv_of_db. cbn [kv_data]. erewrite elem_of_list_to_map_1; [done| |].
  - rewrite <- list_fmap_compose. change (NoDup (id <$> ALL_CFS)).
    rewrite list_fmap_id. by apply (bool_decide_eq_true_1 (NoDup ALL_CFS)).
  - apply list_elem_of_fmap. exists c. split; [done|].
    apply (bool_decide_eq_true_1 (c ∈ ALL_CFS)). by destruct c.
Qed.

Lemma kv_of_db_lookup now c k : cf_map (kv_of_db now) c !! k = get_cf db c (group_key g k).
Proof.
  rewrite kv_of_db_cf.
  assert (scope_entries g (strip_entries (group_entries c)) = group_entries c) as Hs.
  { apply scope_strip_entries. intros [fk v] [_ Hr%prefix_range]%range_cf_spec. done. }
  apply option_eq. intros v. rewrite <- elem_of_list_to_map.
  - rewrite <- (scope_entries_elem g), Hs. unfold group_entries.
    rewrite range_cf_spec, prefix_range. split; [by intros [? _]|].
    split; [done|by eexists].
  - apply sorted_nodup_keys, scope_sorted_inv. rewrite Hs. apply range_cf_sorted.
Qed.

(** A fresh transaction shows the group's keyspace. *)
Lemma txn_rel_new now : txn_rel db g (new db g now) (kv_of_db now).
Proof.
  split; simpl; try done.
  - intros c k. by rewrite kv_of_db_lookup, wt_view_lookup2.
Qed.

(** The commit writes the keyspace to the group and nothing elsewhere. *)
Lemma txn_rel_commit t s :
  txn_rel db g t s →
  (∀ c k, get_cf (commit t).1 c (group_key g k) = cf_map s c !! k) ∧
  (∀ c fk, ¬ group_prefix g `prefix_of` fk → get_cf (commit t).1 c fk = get_cf db c fk).
Proof.
  intros [Hdb Hg Hnow Hdata Hcache Hbatch Hscope Hdirty].
  assert (∀ c fk, get_cf (commit t).1 c fk = wt_view t c fk) as Hc.
  { intros c fk. unfold commit. rewrite <- Hbatch, Hdb. destruct (wt_dirty t); simpl.
    - by rewrite get_cf_write.
    - by rewrite Hdirty. }
  split; intros; rewrite Hc; [by rewrite Hdata|by apply Hscope].
Qed.
End rel.
End write_txn_sim.

(** ** Read-only transactions answer like the keyspace *)
Section read_txn_sim.
Context `{!Bincode StoredRecord} `{!RocksDb}.

Record read_rel (t : ReadTxn) (s : Kv) : Prop := {
  rr_now : rt_now_ms t = kv_now s;
  rr_data c k : cf_map s c !! k = view (rt_db t) c None (group_key (rt_group t) k)
}.

Lemma sim_rt_get_raw c k : sim read_rel (rt_get_raw c k) (kv_get_raw c k).
Proof.
  intros t s HR. split; [|done]. rewrite (rr_data _ _ HR). unfold view. simpl.
  by rewrite lookup_empty.
Qed.

Lemma sim_rt_now : sim read_rel (asks rt_now_ms) (asks kv_now).
Proof. apply sim_asks. intros t s HR. apply HR. Qed.

Lemma sim_rt_smembers_limited c k n :
  sim read_rel (smembers_limited c k n) (kv_smembers_limited c k n).
Proof.
  intros t s HR. cbn [smembers_limited read_txn_store]. unfold rt_scoped.
  rewrite (smembers_limited_scoped _ _ _ _ (cf_map s c)), (rr_now _ _ HR)
    by apply (rr_data _ _ HR).
  unfold kv_smembers_limited, kv_scan_prefix, kv_scan, kv_range, mbind, txm_bind, asks.
  unfold lift. destruct (visit_all _ _ _) as [st|]; [|done].
  by destruct (smembers_limited_result n st).
Qed.

Lemma sim_rt_has_live_member c k :
  sim read_rel (has_live_member c k) (kv_has_live_member c k).
Proof.
  intros t s HR. cbn [has_live_member read_txn_store]. unfold rt_scoped.
  rewrite (has_live_member_scoped _ _ _ _ (cf_map s c)), (rr_now _ _ HR)
    by apply (rr_data _ _ HR).
  unfold kv_has_live_member, kv_scan_prefix, kv_scan, kv_range, mbind, txm_bind, asks.
  unfold lift. by destruct (visit_all _ _ _) as [st|].
Qed.

Lemma sim_rt_smembers_page c k cur n :
  sim read_rel (rt_smembers_page c k cur n) (kv_smembers_page c k cur n).
Proof.
  intros t s HR. unfold rt_smembers_page, rt_scoped.
  rewrite (smembers_page_scoped _ _ _ _ (cf_map s c)), (rr_now _ _ HR)
    by apply (rr_data _ _ HR).
  unfold kv_smembers_page, kv_scan_prefix, kv_scan, kv_range, mbind, txm_bind, asks.
  unfold lift. destruct (visit_all _ _ _) as [[[ms raw] next]|]; [|done].
  split; [|done]. f_equal. destruct next as [nk|]; [|done].
  exact (f_equal Some (drop_group_key _ nk)).
Qed.

#[export] Instance read_txn_sim : ReadSim read_rel.
Proof.
  pose proof sim_rt_now. pose proof sim_rt_get_raw. split; intros.
  - by apply rr_now.
  - by apply sim_w_get_str.
  - apply sim_rt_smembers_limited.
  - apply sim_rt_smembers_page.
  - by apply sim_w_sismember.
  - apply sim_rt_has_live_member.
Qed.

Lemma read_rel_new db g now :
  read_rel {| rt_db := db; rt_group := g; rt_now_ms := now |} (kv_of_db db g now).
Proof.
  split; [done|]. intros c k. rewrite kv_of_db_lookup. unfold view. simpl.
  by rewrite lookup_empty.
Qed.
End read_txn_sim.
