(* ===== verification/Instances.v ===== *)
(** * Reference implementations of the third-party interfaces

    A record codec and an in-memory ordered store that satisfy the laws of
    [Bincode] and [RocksDb].  Theorems that rely on those laws are evaluated on
    them at concrete inputs. *)

From Stdlib Require Import ZArith NArith Lia Strings.Byte.
From stdpp Require Import sorting countable base numbers gmap strings list.
From S2P Require Import Prelude RustStd StoreKeys Store StoreScan.
Local Open Scope Z_scope.

(** ** A self-delimiting codec *)

Fixpoint enc_pos (p : positive) : bytes :=
  match p with
  | xH => [x02]
  | xO p => x00 :: enc_pos p
  | xI p => x01 :: enc_pos p
  end.
Fixpoint dec_pos (l : bytes) : option (positive * bytes) :=
  match l with
  | x00 :: l => match dec_pos l with Some (p, r) => Some (xO p, r) | None => None end
  | x01 :: l => match dec_pos l with Some (p, r) => Some (xI p, r) | None => None end
  | x02 :: l => Some (xH, l)
  | _ => None
  end.
Definition enc_z (z : Z) : bytes :=
  match z with Z0 => [x00] | Zpos p => x01 :: enc_pos p | Zneg p => x02 :: enc_pos p end.
Definition dec_z (l : bytes) : option (Z * bytes) :=
  match l with
  | x00 :: l => Some (0, l)
  | x01 :: l => match dec_pos l with Some (p, r) => Some (Zpos p, r) | None => None end
  | x02 :: l => match dec_pos l with Some (p, r) => Some (Zneg p, r) | None => None end
  | _ => None
  end.

Lemma dec_enc_pos p r : dec_pos (enc_pos p ++ r) = Some (p, r).
Proof. induction p as [p IH|p IH|]; simpl; by rewrite ?IH. Qed.
Lemma dec_enc_z z r : dec_z (enc_z z ++ r) = Some (z, r).
Proof. destruct z; simpl; by rewrite ?dec_enc_pos. Qed.

Lemma dec_enc_z_end z : match dec_z (enc_z z) with Some (x, []) => Some x | _ => None end = Some z.
Proof. by rewrite <- (app_nil_r (enc_z z)), dec_enc_z. Qed.
Definition ref_z : Bincode Z :=
  {| bincode_encode := enc_z;
     bincode_decode := λ b, match dec_z b with Some (x, []) => Some x | _ => None end;
     bincode_decode_encode := dec_enc_z_end |}.

Definition enc_record (rec : StoredRecord) : bytes :=
  match rec with
  | Str v exp => x00 :: enc_z exp ++ v
  | Counter v => x01 :: enc_z v
  | BytesRec v exp => x02 :: enc_z exp ++ v
  end.
Definition dec_record (b : bytes) : option StoredRecord :=
  match b with
  | x00 :: l => match dec_z l with Some (exp, v) => Some (Str v exp) | None => None end
  | x01 :: l => match dec_z l with Some (v, []) => Some (Counter v) | _ => None end
  | x02 :: l => match dec_z l with Some (exp, v) => Some (BytesRec v exp) | None => None end
  | _ => None
  end.

Lemma dec_enc_record rec : dec_record (enc_record rec) = Some rec.
Proof.
  destruct rec; simpl; rewrite ?dec_enc_z; [done| |done].
  by rewrite <- (app_nil_r (enc_z v)), dec_enc_z.
Qed.

Definition ref_bincode : Bincode StoredRecord :=
  {| bincode_encode := enc_record; bincode_decode := dec_record;
     bincode_decode_encode := dec_enc_record |}.

(** ** An in-memory store *)

Definition mem_get (db : gmap cf (gmap bytes bytes)) (c : cf) (k : bytes) : option bytes :=
  (default ∅ (db !! c) : gmap bytes bytes) !! k.
Definition mem_range (db : gmap cf (gmap bytes bytes)) (c : cf) (s u : option bytes)
    : list (bytes * bytes) := btree_range s u (default ∅ (db !! c) : gmap bytes bytes).
Definition mem_op (db : gmap cf (gmap bytes bytes)) (op : batch_op)
    : gmap cf (gmap bytes bytes) :=
  match op with
  | BPut c k v => <[c := <[k := v]> (default ∅ (db !! c))]> db
  | BDelete c k => <[c := delete k (default ∅ (db !! c))]> db
  | BDeleteRange c lo hi =>
      <[c := filter (λ x, in_range (Some lo) (Some hi) x.1 = false) (default ∅ (db !! c))]> db
  end.

Lemma mem_get_insert (db : gmap cf (gmap bytes bytes)) (c : cf) (m : gmap bytes bytes) c' k :
  mem_get (<[c := m]> db) c' k = if decide (c = c') then m !! k else mem_get db c' k.
Proof.
  unfold mem_get. case_decide as H.
  - subst. by rewrite lookup_insert_eq.
  - by rewrite lookup_insert_ne.
Qed.

Lemma mem_get_op db op c k :
  mem_get (mem_op db op) c k = batch_effect c k (mem_get db c k) op.
Proof.
  destruct op as [c' k' v|c' k'|c' lo hi]; simpl; rewrite mem_get_insert.
  - destruct (decide (c' = c)) as [->|Hne]; [|by rewrite decide_False by tauto].
    rewrite lookup_insert. case_decide; [by rewrite decide_True|by rewrite decide_False by tauto].
  - destruct (decide (c' = c)) as [->|Hne]; [|by rewrite decide_False by tauto].
    rewrite lookup_delete. case_decide; [by rewrite decide_True|by rewrite decide_False by tauto].
  - case_decide as Hc; [subst c'|done]. destruct (in_range (Some lo) (Some hi) k) eqn:Hr.
    + apply map_lookup_filter_None. right. simpl. congruence.
    + apply option_eq. intros v. rewrite map_lookup_filter_Some. simpl. tauto.
Qed.

Lemma mem_get_write ops db c k :
  mem_get (foldl mem_op db ops) c k = foldl (batch_effect c k) (mem_get db c k) ops.
Proof.
  revert db. induction ops as [|op ops IH]; intros db; [done|]. simpl.
  by rewrite IH, mem_get_op.
Qed.

Lemma mem_range_sorted db c s u : StronglySorted key_lt (mem_range db c s u).
Proof. apply btree_range_sorted. Qed.
Lemma mem_range_spec db c s u k v :
  (k, v) ∈ mem_range db c s u ↔ mem_get db c k = Some v ∧ in_range s u k = true.
Proof. apply btree_range_elem. Qed.

Definition ref_rocksdb : RocksDb :=
  {| DB := gmap cf (gmap bytes bytes); get_cf := mem_get; range_cf := mem_range;
     write_opt := λ db ops, foldl mem_op db ops;
     range_cf_sorted := mem_range_sorted; range_cf_spec := mem_range_spec;
     get_cf_write := λ db ops c k, mem_get_write ops db c k |}.
