(* ===== verification/Snapshot.v ===== *)
(** * Snapshot images ([src/raft/snapshot.rs])

    A snapshot of a group is the list of its records, one length-prefixed frame
    each, behind a magic string.  [build_group_image_from_snapshot_limited] reads
    the group, [install_group_image] writes an image into a group with one batch. *)

From Stdlib Require Import ZArith NArith Lia Strings.Byte.
From stdpp Require Import sorting countable base numbers gmap strings list.
From S2P Require Import Prelude RustStd StoreKeys Store StoreScan StoreSim.
Local Open Scope Z_scope.

(** [?] on plain results. *)
#[export] Instance result_ret : MRet result := λ A a, Ok a.
#[export] Instance result_bind : MBind result := λ A B f m,
  match m with Ok a => f a | Err e => Err e end.

Record Frame := { fr_cf : Z; fr_key : bytes; fr_value : bytes }.

Definition META_CF_MARKER : Z := 255.
Definition IMAGE_MAGIC : bytes := bs "pathlockd-snapshot" ++ [NUL].
Definition RAFT_META_KEYS : list bytes :=
  [META_VOTE_KEY; META_COMMITTED_KEY; META_LAST_APPLIED_KEY; META_MEMBERSHIP_KEY;
   META_PURGED_KEY; META_SNAPSHOT_META_KEY; META_SNAPSHOT_DATA_KEY].

Section image.
Context `{!Bincode Frame, !RocksDb}.

(** The loop of [scan_group_cf] and [scan_group_cf_snapshot] over the iterator. *)
Fixpoint scan_group_loop {S} (gp : bytes) (visit : bytes → bytes → S → result S)
    (l : list (bytes * bytes)) (s : S) : result S :=
  match l with
  | [] => Ok s
  | (key, value) :: l =>
      if negb (starts_with gp key) then Ok s
      else s ← visit (drop (length gp) key) value s; scan_group_loop gp visit l s
  end.
Definition scan_group_cf {S} (db : DB) (c : cf) (group : GroupId)
    (visit : bytes → bytes → S → result S) (s : S) : result S :=
  let gp := group_prefix group in
  scan_group_loop gp visit (range_cf db c (Some gp) (prefix_upper_bound gp)) s.

Definition push_frame (image : bytes) (frame : Frame) : result bytes :=
  let encoded := bincode_encode frame in
  if len encoded <=? u32_max then Ok (image ++ be_bytes 4 (len encoded) ++ encoded)
  else Err (Anyhow "snapshot frame too large").

(** The [while !rest.is_empty()] loop; [fuel] bounds its iterations. *)
Fixpoint frame_loop {S} (fuel : nat) (rest : bytes) (visit : Frame → S → result S) (s : S)
    : result S :=
  match fuel, rest with
  | _, [] => Ok s
  | O, _ => Err OutOfFuel
  | Datatypes.S fuel, _ =>
      if len rest <? 4 then Err (Anyhow "truncated snapshot frame length")
      else
        let n := from_be (take 4 rest) in
        let rest := drop 4 rest in
        if len rest <? n then Err (Anyhow "truncated snapshot frame payload")
        else
          frame ← of_option "bincode decode" (bincode_decode (take (Z.to_nat n) rest));
          s ← visit frame s;
          frame_loop fuel (drop (Z.to_nat n) rest) visit s
  end.
Definition for_each_frame {S} (image : bytes) (visit : Frame → S → result S) (s : S) : result S :=
  match strip_prefix IMAGE_MAGIC image with
  | None => Err (Anyhow "unsupported snapshot image format")
  | Some rest => frame_loop (length rest) rest visit s
  end.

Definition push_limited (max_bytes : Z) (cf_byte : Z) (key value image : bytes) : result bytes :=
  image ← push_frame image {| fr_cf := cf_byte; fr_key := key; fr_value := value |};
  if len image <=? max_bytes then Ok image else Err (Anyhow "snapshot image exceeds limit").

(** [for (idx, cf_name) in STATE_CFS.iter().enumerate()] *)
Fixpoint build_families (db : DB) (group : GroupId) (max_bytes : Z) (idx : Z) (cfs : list cf)
    (image : bytes) : result bytes :=
  match cfs with
  | [] => Ok image
  | c :: cfs =>
      image ← scan_group_cf db c group (push_limited max_bytes idx) image;
      build_families db group max_bytes (idx + 1) cfs image
  end.

Definition build_meta_visit (max_bytes : Z) (key value image : bytes) : result bytes :=
  if bool_decide (key ∈ RAFT_META_KEYS) then Ok image
  else push_limited max_bytes META_CF_MARKER key value image.

Definition build_group_image_from_snapshot_limited (db : DB) (group : GroupId) (max_bytes : Z)
    : result bytes :=
  image ← build_families db group max_bytes 0 STATE_CFS IMAGE_MAGIC;
  scan_group_cf db CF_META group (build_meta_visit max_bytes) image.

Definition build_group_image_from_snapshot (db : DB) (group : GroupId) : result bytes :=
  build_group_image_from_snapshot_limited db group u64_max.

(** The operations are appended to [batch]. *)
Definition wipe_meta_visit (group : GroupId) (key _ : bytes) (batch : list batch_op)
    : result (list batch_op) :=
  Ok (if bool_decide (key ∈ RAFT_META_KEYS) then batch
      else batch ++ [BDelete CF_META (group_key group key)]).

Definition install_frame (group : GroupId) (frame : Frame) (batch : list batch_op)
    : result (list batch_op) :=
  let scoped := group_key group (fr_key frame) in
  if fr_cf frame =? META_CF_MARKER then Ok (batch ++ [BPut CF_META scoped (fr_value frame)])
  else
    match STATE_CFS !! Z.to_nat (fr_cf frame) with
    | Some c => Ok (batch ++ [BPut c scoped (fr_value frame)])
    | None => Err (Anyhow "snapshot frame names unknown cf")
    end.

Definition install_group_image (db : DB) (group : GroupId) (image : bytes) (batch : list batch_op)
    : result (list batch_op) :=
  let gp := group_prefix group in
  let upper := default (replicate 16 (byte_of 255)) (prefix_upper_bound gp) in
  let batch := batch ++ ((λ c, BDeleteRange c gp upper) <$> STATE_CFS) in
  batch ← scan_group_cf db CF_META group (wipe_meta_visit group) batch;
  for_each_frame image (install_frame group) batch.
End image.

(** ** What an image holds *)
Section image_facts.
Context `{!Bincode Frame, !RocksDb}.

Fixpoint fold_result {A S} (f : A → S → result S) (l : list A) (s : S) : result S :=
  match l with [] => Ok s | x :: l => s ← f x s; fold_result f l s end.

Lemma fold_result_app {A S} (f : A → S → result S) l l' s :
  fold_result f (l ++ l') s = (s ← fold_result f l s; fold_result f l' s).
Proof.
  revert s. induction l as [|x l IH]; intros s; [done|]. simpl. unfold mbind, result_bind.
  destruct (f x s); [apply IH|done].
Qed.

Lemma scan_group_cf_entries {S} db c g (visit : bytes → bytes → S → result S) s :
  scan_group_cf db c g visit s =
  fold_result (λ x, visit x.1 x.2) (strip_entries (group_entries db g c)) s.
Proof.
  unfold scan_group_cf, group_entries. cbv zeta.
  assert (∀ x, x ∈ range_cf db c (Some (group_prefix g)) (prefix_upper_bound (group_prefix g)) →
    group_prefix g `prefix_of` x.1) as Hp.
  { intros [k v] [_ Hr]%range_cf_spec. by apply prefix_range. }
  revert s Hp. induction (range_cf _ _ _ _) as [|[k v] l IH]; intros s Hp; [done|].
  cbn [scan_group_loop strip_entries fmap list_fmap fold_result fst snd].
  destruct (Hp (k, v)) as [r Hr]; [by left|]. cbn [fst] in Hr. subst k.
  assert (starts_with (group_prefix g) (group_prefix g ++ r) = true) as ->.
  { apply starts_with_spec. by exists r. }
  cbn [negb]. change (length (group_prefix g)) with GROUP_PREFIX_LEN.
  unfold mbind, result_bind. destruct (visit _ v s); [|done]. apply IH.
  intros x Hx. apply Hp. by right.
Qed.

Definition enc_frame (f : Frame) : bytes := be_bytes 4 (len (bincode_encode f)) ++ bincode_encode f.
Definition fits (f : Frame) : Prop := len (bincode_encode f) ≤ u32_max.
Definition image_of (fs : list Frame) : bytes := IMAGE_MAGIC ++ concat (enc_frame <$> fs).

Lemma image_of_snoc fs f : image_of (fs ++ [f]) = image_of fs ++ enc_frame f.
Proof.
  unfold image_of. rewrite fmap_app, concat_app, app_assoc. f_equal. apply app_nil_r.
Qed.

(** A run that builds the image of [fs]. *)
Definition builds (max : Z) (fs : list Frame) (r : result bytes) : Prop :=
  match r with
  | Ok image => image = image_of fs ∧ Forall fits fs ∧ (fs ≠ [] → len image ≤ max)
  | Err _ => True
  end.

Lemma push_limited_builds max b k v fs :
  Forall fits fs →
  builds max (fs ++ [{| fr_cf := b; fr_key := k; fr_value := v |}])
    (push_limited max b k v (image_of fs)).
Proof.
  intros Hfs. unfold push_limited, push_frame. set (f := {| fr_cf := b; fr_key := k; fr_value := v |}).
  cbv zeta. destruct (Z.leb_spec (len (bincode_encode f)) u32_max) as [Hf|]; [|done].
  fold (enc_frame f). rewrite <- image_of_snoc. unfold mbind, result_bind.
  destruct (Z.leb_spec (len (image_of (fs ++ [f]))) max); [|done].
  split; [done|]. split; [|done]. apply Forall_app. split; [done|]. by apply Forall_singleton.
Qed.

(** Folding a visitor that appends the frames [g x]. *)
Lemma fold_builds {A} max (f : A → bytes → result bytes) (fr : A → list Frame) l fs r :
  (∀ x fs, Forall fits fs → builds max fs (Ok (image_of fs)) →
     builds max (fs ++ fr x) (f x (image_of fs))) →
  builds max fs r → builds max (fs ++ concat (fr <$> l)) (image ← r; fold_result f l image).
Proof.
  intros Hf. revert fs r. induction l as [|x l IH]; intros fs r Hr; simpl.
  { rewrite app_nil_r. by destruct r. }
  destruct r as [image|e]; [|done]. pose proof Hr as (-> & Hfit & Hmax). unfold mbind at 1, result_bind at 1.
  rewrite app_assoc. apply IH. apply Hf; [done|]. done.
Qed.

(** ** The frames of a group *)

Definition state_frames (db : DB) (g : GroupId) (idx : Z) (c : cf) : list Frame :=
  (λ x, {| fr_cf := idx; fr_key := x.1; fr_value := x.2 |}) <$> strip_entries (group_entries db g c).
Fixpoint families_frames (db : DB) (g : GroupId) (idx : Z) (cfs : list cf) : list Frame :=
  match cfs with
  | [] => []
  | c :: cfs => state_frames db g idx c ++ families_frames db g (idx + 1) cfs
  end.
Definition meta_frame (x : bytes * bytes) : list Frame :=
  if bool_decide (x.1 ∈ RAFT_META_KEYS) then []
  else [{| fr_cf := META_CF_MARKER; fr_key := x.1; fr_value := x.2 |}].
Definition group_frames (db : DB) (g : GroupId) : list Frame :=
  families_frames db g 0 STATE_CFS ++ concat (meta_frame <$> strip_entries (group_entries db g CF_META)).

Lemma concat_singletons {A B} (f : A → B) l : concat ((λ x, [f x]) <$> l) = f <$> l.
Proof. induction l as [|x l IH]; [done|]. exact (f_equal (cons (f x)) IH). Qed.

Lemma build_families_builds db g max idx cfs fs r :
  builds max fs r →
  builds max (fs ++ families_frames db g idx cfs) (image ← r; build_families db g max idx cfs image).
Proof.
  revert idx fs r. induction cfs as [|c cfs IH]; intros idx fs r Hr; simpl.
  { rewrite app_nil_r. by destruct r. }
  rewrite app_assoc. specialize (IH (idx + 1) (fs ++ state_frames db g idx c)
    (image ← r; scan_group_cf db c g (push_limited max idx) image)).
  destruct r as [image|e]; [|done]. apply IH.
  unfold mbind at 1, result_bind at 1. rewrite scan_group_cf_entries.
  unfold state_frames. rewrite <- concat_singletons.
  apply (fold_builds max _ _ (strip_entries (group_entries db g c)) fs (Ok image)); [|done].
  intros x fs' Hfs _. by apply push_limited_builds.
Qed.

(** A build that succeeds gives the image of all frames of the group. *)
Lemma build_image db g max image :
  build_group_image_from_snapshot_limited db g max = Ok image →
  image = image_of (group_frames db g) ∧ Forall fits (group_frames db g) ∧
  (group_frames db g ≠ [] → len image ≤ max).
Proof.
  intros Hrun. unfold build_group_image_from_snapshot_limited in Hrun.
  assert (builds max (group_frames db g) (Ok image)) as Hb; [|exact Hb].
  rewrite <- Hrun. unfold group_frames.
  assert (builds max (families_frames db g 0 STATE_CFS)
    (build_families db g max 0 STATE_CFS IMAGE_MAGIC)) as Hfam.
  { apply (build_families_builds db g max 0 STATE_CFS [] (Ok IMAGE_MAGIC)).
    split; [unfold image_of; by rewrite app_nil_r|]. by split; [constructor|]. }
  clear Hrun. destruct (build_families _ _ _ _ _ _) as [im|e]; [|done].
  unfold mbind at 1, result_bind at 1. rewrite scan_group_cf_entries.
  refine (fold_builds max (λ x, build_meta_visit max x.1 x.2) meta_frame _ _ (Ok im) _ Hfam).
  intros x fs Hfs Hb. unfold build_meta_visit, meta_frame.
  case_bool_decide; [by rewrite app_nil_r|]. by apply push_limited_builds.
Qed.

(** ** Reading an image *)

Lemma frame_loop_frames {S} fs fuel (visit : Frame → S → result S) s :
  Forall fits fs → (length (concat (enc_frame <$> fs)) ≤ fuel)%nat →
  frame_loop fuel (concat (enc_frame <$> fs)) visit s = fold_result visit fs s.
Proof.
  intros Hfs. revert fuel s. induction Hfs as [|f fs Hf _ IH]; intros fuel s Hfuel.
  { by destruct fuel. }
  cbn [fmap list_fmap concat fold_result] in *. set (rest := concat (enc_frame <$> fs)) in *.
  unfold enc_frame in *. rewrite <- app_assoc in *. set (e := bincode_encode f) in *.
  assert (length (be_bytes 4 (len e)) = 4%nat) as H4 by apply length_be_bytes.
  rewrite !length_app, H4 in Hfuel. destruct fuel as [|fuel]; [lia|].
  destruct (be_bytes 4 (len e) ++ e ++ rest) as [|b0 l0] eqn:Hl.
  { apply (f_equal length) in Hl. rewrite !length_app, H4 in Hl. simpl in Hl. lia. }
  cbn [frame_loop]. rewrite <- Hl. clear Hl b0 l0.
  rewrite (take_app_length' _ _ 4), (drop_app_length' _ _ 4) by done.
  assert (from_be (be_bytes 4 (len e)) = len e) as ->.
  { apply from_be_be_bytes. unfold fits in Hf. fold e in Hf. unfold u32_max, len in *.
    change (256 ^ Z.of_nat 4) with (2 ^ 32). lia. }
  destruct (Z.ltb_spec (len (be_bytes 4 (len e) ++ e ++ rest)) 4) as [Hlt|_].
  { unfold len in Hlt. rewrite length_app, length_be_bytes in Hlt. lia. }
  destruct (Z.ltb_spec (len (e ++ rest)) (len e)) as [Hlt|_].
  { unfold len in Hlt. rewrite length_app in Hlt. lia. }
  unfold len. rewrite Nat2Z.id, take_app_length, drop_app_length. unfold e at 1.
  rewrite bincode_decode_encode. unfold mbind, result_bind, of_option.
  destruct (visit f s) as [s'|err]; [|done]. apply IH. lia.
Qed.

Lemma for_each_frame_image {S} fs (visit : Frame → S → result S) s :
  Forall fits fs → for_each_frame (image_of fs) visit s = fold_result visit fs s.
Proof.
  intros Hfs. unfold for_each_frame, image_of.
  rewrite (proj2 (strip_prefix_Some IMAGE_MAGIC _ (concat (enc_frame <$> fs)))) by done.
  by apply frame_loop_frames.
Qed.
End image_facts.

(** ** Installing an image *)
Section install.
Context `{!Bincode Frame, !RocksDb}.

Lemma group_entry_elem db g c k v :
  (k, v) ∈ strip_entries (group_entries db g c) ↔ get_cf db c (group_key g k) = Some v.
Proof.
  rewrite <- (kv_of_db_lookup db g 0), kv_of_db_cf, <- elem_of_list_to_map; [done|].
  apply sorted_nodup_keys, (scope_sorted_inv g). rewrite (scope_strip_entries g).
  - apply range_cf_sorted.
  - intros [fk x] [_ Hr%prefix_range]%range_cf_spec. done.
Qed.

(** The records that travel in an image: all state families, and the group
    metadata that Raft does not own. *)
Definition travels (c : cf) (k : bytes) : Prop :=
  c ∈ STATE_CFS ∨ (c = CF_META ∧ k ∉ RAFT_META_KEYS).
#[export] Instance travels_dec c k : Decision (travels c k).
Proof. unfold travels. apply _. Defined.

Definition frame_cf (f : Frame) : option cf :=
  if fr_cf f =? META_CF_MARKER then Some CF_META else STATE_CFS !! Z.to_nat (fr_cf f).

(** [f] carries the record [v] of family [c] at [k]. *)
Definition carries (f : Frame) (c : cf) (k v : bytes) : Prop :=
  frame_cf f = Some c ∧ fr_key f = k ∧ fr_value f = v.

Lemma families_frames_elem db g n cfs f :
  f ∈ families_frames db g (Z.of_nat n) cfs ↔
  ∃ i c k v, cfs !! i = Some c ∧ get_cf db c (group_key g k) = Some v ∧
    f = {| fr_cf := Z.of_nat (n + i); fr_key := k; fr_value := v |}.
Proof.
  revert n. induction cfs as [|c cfs IH]; intros n; cbn [families_frames].
  { split; [by intros ?%not_elem_of_nil|]. by intros (i & ? & ? & ? & ? & _). }
  rewrite elem_of_app. replace (Z.of_nat n + 1) with (Z.of_nat (S n)) by lia. rewrite IH.
  unfold state_frames. rewrite list_elem_of_fmap. split.
  - intros [([k v] & -> & Hkv)|(i & c' & k & v & Hi & Hg & ->)].
    + exists O, c, k, v. rewrite Nat.add_0_r. split; [done|]. split; [by apply group_entry_elem|done].
    + exists (S i), c', k, v. split; [done|]. split; [done|]. by rewrite Nat.add_succ_r.
  - intros ([|i] & c' & k & v & Hi & Hg & ->); simpl in Hi.
    + left. exists (k, v). simplify_eq. rewrite Nat.add_0_r. split; [done|by apply group_entry_elem].
    + right. exists i, c', k, v. split; [done|]. split; [done|]. by rewrite Nat.add_succ_r.
Qed.

Lemma state_index i c : STATE_CFS !! i = Some c → c ∈ STATE_CFS ∧ (Z.of_nat i =? META_CF_MARKER) = false.
Proof.
  intros Hi. split; [by eapply list_elem_of_lookup_2|]. apply lookup_lt_Some in Hi. simpl in Hi.
  apply Z.eqb_neq. unfold META_CF_MARKER. lia.
Qed.

Lemma elem_of_concat {A} (x : A) ls : x ∈ concat ls ↔ ∃ l, x ∈ l ∧ l ∈ ls.
Proof.
  induction ls as [|l ls IH]; simpl; [set_solver|]. rewrite elem_of_app, IH. set_solver.
Qed.
Lemma meta_frames_elem (l : list (bytes * bytes)) f :
  f ∈ concat (meta_frame <$> l) ↔
  ∃ k v, (k, v) ∈ l ∧ k ∉ RAFT_META_KEYS ∧ f = {| fr_cf := META_CF_MARKER; fr_key := k; fr_value := v |}.
Proof.
  rewrite elem_of_concat. split.
  - intros (fs & Hf & ([k v] & -> & Hin)%list_elem_of_fmap). unfold meta_frame in Hf. simpl in Hf.
    case_bool_decide; [by apply not_elem_of_nil in Hf|]. apply list_elem_of_singleton in Hf as ->.
    by exists k, v.
  - intros (k & v & Hin & Hk & ->). exists (meta_frame (k, v)). split; [|by apply list_elem_of_fmap_2].
    unfold meta_frame. simpl. rewrite bool_decide_eq_false_2 by done. by apply list_elem_of_singleton.
Qed.

(** The frames of a group are exactly its records that travel. *)
Lemma group_frames_carry db g f :
  f ∈ group_frames db g →
  ∃ c k v, carries f c k v ∧ travels c k ∧ get_cf db c (group_key g k) = Some v.
Proof.
  unfold group_frames. intros [Hf|Hf]%elem_of_app.
  - apply (families_frames_elem db g 0) in Hf as (i & c & k & v & Hi & Hg & ->).
    destruct (state_index i c Hi) as [Hc Hn]. exists c, k, v. split; [|by split; [left|]].
    unfold carries, frame_cf. cbn [fr_cf fr_key fr_value]. by rewrite Nat.add_0_l, Hn, Nat2Z.id.
  - apply meta_frames_elem in Hf as (k & v & Hin & Hk & ->). exists CF_META, k, v.
    split; [done|]. split; [by right|by apply group_entry_elem].
Qed.
Lemma group_frames_all db g c k v :
  travels c k → get_cf db c (group_key g k) = Some v → ∃ f, f ∈ group_frames db g ∧ carries f c k v.
Proof.
  unfold group_frames. intros [Hc|[-> Hk]] Hg.
  - apply list_elem_of_lookup_1 in Hc as [i Hi]. destruct (state_index i c Hi) as [_ Hn].
    eexists. split; [apply elem_of_app; left; apply (families_frames_elem db g 0); by exists i, c, k, v|].
    unfold carries, frame_cf. cbn [fr_cf fr_key fr_value]. by rewrite Nat.add_0_l, Hn, Nat2Z.id.
  - exists {| fr_cf := META_CF_MARKER; fr_key := k; fr_value := v |}. split; [|done].
    apply elem_of_app. right. apply meta_frames_elem. exists k, v.
    split; [by apply group_entry_elem|done].
Qed.

(** ** The effect of the batch *)

Definition frame_put (g : GroupId) (f : Frame) : batch_op :=
  BPut (default CF_META (frame_cf f)) (group_key g (fr_key f)) (fr_value f).

Lemma install_frames g fs batch :
  (∀ f, f ∈ fs → is_Some (frame_cf f)) →
  fold_result (install_frame g) fs batch = Ok (batch ++ (frame_put g <$> fs)).
Proof.
  revert batch. induction fs as [|f fs IH]; intros batch Hfs; [by rewrite app_nil_r|].
  cbn [fold_result fmap list_fmap].
  assert (install_frame g f batch = Ok (batch ++ [frame_put g f])) as ->.
  { destruct (Hfs f) as [c Hc]; [by left|]. unfold install_frame, frame_put, frame_cf in *.
    destruct (fr_cf f =? META_CF_MARKER); [done|]. by rewrite Hc. }
  unfold mbind, result_bind. rewrite IH, <- app_assoc; [done|]. intros f' Hf'. apply Hfs. by right.
Qed.

Lemma wipe_meta g l batch :
  fold_result (λ x, wipe_meta_visit g x.1 x.2) l batch =
  Ok (batch ++ ((λ x, BDelete CF_META (group_key g x.1)) <$> filter (λ x, x.1 ∉ RAFT_META_KEYS) l)).
Proof.
  revert batch. induction l as [|x l IH]; intros batch; [by rewrite app_nil_r|].
  cbn [fold_result]. etrans; [apply IH|].
  rewrite filter_cons. case_bool_decide; [rewrite decide_False by auto|rewrite decide_True by done]; [done|].
  cbn [fmap list_fmap]. by rewrite <- app_assoc.
Qed.

Lemma effects_id c k ops cur :
  (∀ op, op ∈ ops → ∀ cur, batch_effect c k cur op = cur) → foldl (batch_effect c k) cur ops = cur.
Proof.
  revert cur. induction ops as [|op ops IH]; intros cur Hid; [done|]. simpl.
  rewrite Hid by by left. apply IH. intros op' Hop. apply Hid. by right.
Qed.
Lemma effects_const c k v ops cur :
  (∀ op, op ∈ ops → (∀ cur, batch_effect c k cur op = cur) ∨ (∀ cur, batch_effect c k cur op = v)) →
  cur = v ∨ (∃ op, op ∈ ops ∧ ∀ cur, batch_effect c k cur op = v) →
  foldl (batch_effect c k) cur ops = v.
Proof.
  revert cur. induction ops as [|op ops IH]; intros cur Hops [Hv|(o & Ho & He)]; simpl.
  - done.
  - by apply not_elem_of_nil in Ho.
  - apply IH; [intros; apply Hops; by right|]. left. destruct (Hops op) as [->| ->]; by try left.
  - apply IH; [intros; apply Hops; by right|]. apply elem_of_cons in Ho as [->|Ho]; [by left|].
    right. by exists o.
Qed.
End install.

(** ** Installing what was built *)
Section roundtrip.
Context `{!Bincode Frame, !RocksDb}.

(** The last byte string the wipe reaches in the group that has no upper bound. *)
Definition wipe_end (g : GroupId) : bytes :=
  default (replicate 16 (byte_of 255)) (prefix_upper_bound (group_prefix g)).
(** Every state record of the group lies below it. *)
Definition wipeable (db : DB) (g : GroupId) : Prop :=
  ∀ c k, c ∈ STATE_CFS → get_cf db c (group_key g k) ≠ None →
    bytes_ltb (group_key g k) (wipe_end g) = true.

Lemma upper_bound_none p : prefix_upper_bound p = None → p = replicate (length p) (byte_of 255).
Proof.
  induction p as [|x p IH] using rev_ind; [done|]. rewrite upper_bound_rev_snoc.
  destruct (Z.eqb_spec (byte_val x) 255) as [Hx|]; [|done]. intros Hp%IH.
  rewrite length_app, replicate_add, <- Hp. simpl. f_equal. f_equal.
  apply byte_val_inj. by rewrite Hx, byte_val_of.
Qed.

Lemma wipe_range_inside g fk :
  in_range (Some (group_prefix g)) (Some (wipe_end g)) fk = true → group_prefix g `prefix_of` fk.
Proof.
  unfold wipe_end. destruct (prefix_upper_bound (group_prefix g)) as [u|] eqn:Hu; cbn [default].
  - intros Hin. apply prefix_range. rewrite Hu. exact Hin.
  - pose proof (upper_bound_none _ Hu) as Hp. unfold in_range. rewrite andb_true_iff. intros [Hlo Hhi].
    destruct (between_prefix (group_prefix g) [] (replicate 12 (byte_of 255)) fk) as [r ->].
    + by rewrite app_nil_r.
    + rewrite Hp. exact Hhi.
    + by exists r.
Qed.
(** Only the group 0xFFFFFFFF has no upper bound. *)
Lemma wipeable_bounded db g u : prefix_upper_bound (group_prefix g) = Some u → wipeable db g.
Proof.
  intros Hu c k _ _. unfold wipe_end. rewrite Hu.
  assert (in_range (Some (group_prefix g)) (Some u) (group_key g k) = true) as Hin.
  { rewrite <- Hu. apply prefix_range. by exists k. }
  unfold in_range in Hin. apply andb_true_iff in Hin as [_ Hin]. exact Hin.
Qed.
Lemma wipe_range_keys db g c k :
  wipeable db g → c ∈ STATE_CFS → get_cf db c (group_key g k) ≠ None →
  in_range (Some (group_prefix g)) (Some (wipe_end g)) (group_key g k) = true.
Proof.
  intros Hw Hc Hk. unfold in_range. rewrite (Hw c k Hc Hk), andb_true_r. apply bytes_leb_extend.
Qed.

(** The operations of an install. *)
Definition meta_deletes (db' : DB) (g' : GroupId) : list batch_op :=
  (λ x, BDelete CF_META (group_key g' x.1)) <$>
    filter (λ x, x.1 ∉ RAFT_META_KEYS) (strip_entries (group_entries db' g' CF_META)).
Definition install_ops (db' : DB) (g' : GroupId) (fs : list Frame) : list batch_op :=
  ((λ c, BDeleteRange c (group_prefix g') (wipe_end g')) <$> STATE_CFS) ++
  meta_deletes db' g' ++ (frame_put g' <$> fs).

Lemma install_run db' g' fs :
  Forall fits fs → (∀ f, f ∈ fs → is_Some (frame_cf f)) →
  install_group_image db' g' (image_of fs) [] = Ok (install_ops db' g' fs).
Proof.
  intros Hfit Hcf. unfold install_group_image. cbv zeta. rewrite scan_group_cf_entries, wipe_meta.
  unfold mbind, result_bind. rewrite for_each_frame_image by done.
  rewrite install_frames by done. unfold install_ops. by rewrite app_nil_l, <- app_assoc.
Qed.

Lemma wipes_effect g' c fk cur :
  foldl (batch_effect c fk) cur
    ((λ c, BDeleteRange c (group_prefix g') (wipe_end g')) <$> STATE_CFS) =
  if bool_decide (c ∈ STATE_CFS) && in_range (Some (group_prefix g')) (Some (wipe_end g')) fk
  then None else cur.
Proof.
  destruct (_ && _) eqn:Hb.
  - apply andb_true_iff in Hb as [Hc%bool_decide_eq_true Hr]. apply effects_const.
    + intros op (c' & -> & _)%list_elem_of_fmap. simpl. rewrite Hr. case_decide; [by right|by left].
    + right. eexists. split; [by apply (list_elem_of_fmap_2 _ _ c)|]. intros x. simpl. by rewrite decide_True, Hr.
  - apply effects_id. intros op (c' & -> & Hc')%list_elem_of_fmap x. simpl.
    destruct (decide (c' = c)) as [->|]; [|done]. rewrite bool_decide_eq_true_2 in Hb by done.
    simpl in Hb. by rewrite Hb.
Qed.

Lemma meta_deletes_other db' g' c fk cur :
  (c = CF_META → ∀ k, fk = group_key g' k → k ∈ RAFT_META_KEYS) →
  foldl (batch_effect c fk) cur (meta_deletes db' g') = cur.
Proof.
  intros Hno. apply effects_id. intros op (y & -> & [Hy _]%list_elem_of_filter)%list_elem_of_fmap x.
  simpl. rewrite decide_False; [done|]. intros [<- <-]. by apply Hy, Hno.
Qed.
Lemma meta_deletes_meta db' g' k :
  k ∉ RAFT_META_KEYS →
  foldl (batch_effect CF_META (group_key g' k)) (get_cf db' CF_META (group_key g' k))
    (meta_deletes db' g') = None.
Proof.
  intros Hk. apply effects_const.
  - intros op (y & -> & _)%list_elem_of_fmap. simpl. case_decide; [by right|by left].
  - destruct (get_cf db' CF_META (group_key g' k)) as [v|] eqn:Hv; [right|by left].
    exists (BDelete CF_META (group_key g' k)). split.
    + apply list_elem_of_fmap. exists (k, v). split; [done|]. apply list_elem_of_filter.
      split; [done|by apply group_entry_elem].
    + intros. simpl. by rewrite decide_True.
Qed.

(** The puts of an install write what the frames carry. *)
Lemma puts_other g' fs c fk cur :
  (∀ f, f ∈ fs → default CF_META (frame_cf f) = c → fk ≠ group_key g' (fr_key f)) →
  foldl (batch_effect c fk) cur (frame_put g' <$> fs) = cur.
Proof.
  intros Hno. apply effects_id. intros op (f & -> & Hf)%list_elem_of_fmap x. simpl.
  rewrite decide_False; [done|]. intros [Hc Hk]. by eapply Hno.
Qed.
Lemma puts_group db g g' c k cur :
  travels c k → (get_cf db c (group_key g k) = None → cur = None) →
  foldl (batch_effect c (group_key g' k)) cur (frame_put g' <$> group_frames db g) =
  get_cf db c (group_key g k).
Proof.
  intros Ht Hcur. apply effects_const.
  - intros op (f & -> & Hf)%list_elem_of_fmap. simpl. case_decide as Heq; [right|by left].
    apply group_frames_carry in Hf as (c' & k' & v & (Hc & Hk & <-) & _ & Hg).
    rewrite Hc in Heq. simpl in Heq. destruct Heq as [-> Hkk%group_key_inj_2]. rewrite Hk in Hkk.
    rewrite Hkk in Hg. intros _. by rewrite Hg.
  - destruct (get_cf db c (group_key g k)) as [v|] eqn:Hv; [right|left; auto].
    destruct (group_frames_all db g c k v Ht Hv) as (f & Hf & Hc & Hk & <-).
    exists (frame_put g' f). split; [by apply list_elem_of_fmap_2|].
    intros. simpl. by rewrite Hc, Hk, decide_True.
Qed.

Lemma meta_not_state : CF_META ∉ STATE_CFS.
Proof. by apply (bool_decide_eq_false_1 (CF_META ∈ STATE_CFS)). Qed.

(** Installing the image of a group gives the target group the records that travel
    and changes nothing else. *)
Lemma install_built_image db g max image db' g' :
  build_group_image_from_snapshot_limited db g max = Ok image → wipeable db' g' →
  ∃ ops, install_group_image db' g' image [] = Ok ops ∧
    (∀ c k, travels c k →
       get_cf (write_opt db' ops) c (group_key g' k) = get_cf db c (group_key g k)) ∧
    (∀ c k, ¬ travels c k →
       get_cf (write_opt db' ops) c (group_key g' k) = get_cf db' c (group_key g' k)) ∧
    (∀ c fk, ¬ group_prefix g' `prefix_of` fk → get_cf (write_opt db' ops) c fk = get_cf db' c fk).
Proof.
  intros (-> & Hfit & _)%build_image Hw. exists (install_ops db' g' (group_frames db g)). split.
  { apply install_run; [done|]. intros f (c & k & v & (Hc & _) & _)%group_frames_carry. by exists c. }
  assert (∀ c fk, get_cf (write_opt db' (install_ops db' g' (group_frames db g))) c fk =
    foldl (batch_effect c fk) (foldl (batch_effect c fk)
      (if bool_decide (c ∈ STATE_CFS) && in_range (Some (group_prefix g')) (Some (wipe_end g')) fk
       then None else get_cf db' c fk) (meta_deletes db' g')) (frame_put g' <$> group_frames db g)) as Hrun.
  { intros c fk. rewrite get_cf_write. unfold install_ops. by rewrite !foldl_app, wipes_effect. }
  split_and!; intros c k Hk; rewrite Hrun; clear Hrun.
  - apply puts_group; [done|]. intros _. destruct Hk as [Hc|[-> Hk]].
    + rewrite meta_deletes_other by (intros ->; by apply meta_not_state in Hc). rewrite bool_decide_eq_true_2 by done. simpl.
      destruct (in_range _ _ _) eqn:Hr; [done|]. destruct (get_cf db' c (group_key g' k)) eqn:Hg; [|done].
      rewrite (wipe_range_keys db' g' c k Hw Hc) in Hr; [done|]. by rewrite Hg.
    + by apply meta_deletes_meta.
  - assert (c ∉ STATE_CFS) as Hc by (intros ?; apply Hk; by left).
    rewrite bool_decide_eq_false_2 by done. cbn [andb]. rewrite puts_other.
    + apply meta_deletes_other. intros -> k' ->%group_key_inj_2.
      destruct (decide (k' ∈ RAFT_META_KEYS)); [done|]. destruct Hk. by right.
    + intros f (c' & k' & v & (Hc' & <- & _) & Ht & _)%group_frames_carry. rewrite Hc'. simpl.
      intros -> ->%group_key_inj_2. done.
  - assert (in_range (Some (group_prefix g')) (Some (wipe_end g')) k = false) as ->.
    { apply not_true_iff_false. intros ?%wipe_range_inside. done. }
    rewrite andb_false_r, puts_other.
    + apply meta_deletes_other. intros _ k' ->. destruct Hk. by eexists.
    + intros f _ _ ->. destruct Hk. by eexists.
Qed.
End roundtrip.
