(* ===== verification/LogStore.v ===== *)
(** * The Raft log store ([src/raft/log_store.rs])

    The log of a group lies in one column family under [be32(group) ++ be64(index)];
    the vote, the committed pointer and the purge marker are group metadata.
    openraft's [LogId], [Vote] and [Entry] are parameters.  The file shows that the
    store implements a finite map from indexes to entries ([log_shows]), and that
    the fsync batcher acknowledges only durable appends and stops at the first
    failed fsync. *)

From Stdlib Require Import ZArith NArith Lia Strings.Byte.
From stdpp Require Import sorting countable base numbers gmap strings list.
From S2P Require Import Prelude RustStd StoreKeys Store StoreScan StoreSim Instances Snapshot.
Local Open Scope Z_scope.

(** A bound of an index range. *)
Inductive Bound := Included (i : Z) | Excluded (i : Z) | Unbounded.

Definition log_key (group : GroupId) (index : Z) : bytes := group_key group (be_bytes 8 index).
Definition log_range (group : GroupId) : bytes * bytes :=
  let '(start, hi) := group_range group in
  (start, default (replicate 16 (byte_of 255)) hi).

Section log_store.
Context `{!RocksDb} {LogId Vote Entry : Type}.
Context `{!Bincode LogId, !Bincode Vote, !Bincode Entry}.
(** [entry.log_id] and [log_id.index]. *)
Context (log_id : Entry → LogId) (index : LogId → Z).

Definition io_decode {A} `{!Bincode A} (b : bytes) : result A :=
  of_option "bincode decode" (bincode_decode b).

Definition get_meta {A} `{!Bincode A} (db : DB) (group : GroupId) (key : bytes) : result (option A) :=
  match get_cf db CF_META (group_key group key) with
  | Some b => v ← io_decode b; Ok (Some v)
  | None => Ok None
  end.
Definition put_meta {A} `{!Bincode A} (db : DB) (group : GroupId) (key : bytes) (value : A) : DB :=
  write_opt db [BPut CF_META (group_key group key) (bincode_encode value)].

(** [iter.seek_for_prev(target)] on an iterator with a lower bound: the last
    record not after the target. *)
Definition seek_for_prev (db : DB) (c : cf) (lower target : bytes) : option (bytes * bytes) :=
  last (filter (λ x, bytes_leb x.1 target = true) (range_cf db c (Some lower) None)).

Definition last_log_id_on_disk (db : DB) (group : GroupId) : result (option LogId) :=
  let '(start, hi) := log_range group in
  match seek_for_prev db CF_RAFT_LOG start hi with
  | None => Ok None
  | Some (_, value) => entry ← io_decode value; Ok (Some (log_id entry))
  end.

Fixpoint decode_entries (l : list (bytes * bytes)) : result (list Entry) :=
  match l with
  | [] => Ok []
  | (_, value) :: l => e ← io_decode value; es ← decode_entries l; Ok (e :: es)
  end.

Definition try_get_log_entries (db : DB) (group : GroupId) (lo hi : Bound) : result (list Entry) :=
  let start_idx := match lo with
                   | Included i => i
                   | Excluded i => saturating_add i 1
                   | Unbounded => 0
                   end in
  let end_idx := match hi with
                 | Included i => saturating_add i 1
                 | Excluded i => i
                 | Unbounded => u64_max
                 end in
  if end_idx <=? start_idx then Ok []
  else
    let lower := log_key group start_idx in
    let upper := if end_idx =? u64_max then (log_range group).2 else log_key group end_idx in
    decode_entries (range_cf db CF_RAFT_LOG (Some lower) (Some upper)).

Definition read_vote (db : DB) (group : GroupId) : result (option Vote) := get_meta db group META_VOTE_KEY.

Record LogState := { last_purged_log_id : option LogId; last_log_id : option LogId }.

Definition get_log_state (db : DB) (group : GroupId) : result LogState :=
  last_purged ← get_meta db group META_PURGED_KEY;
  on_disk ← last_log_id_on_disk db group;
  Ok {| last_purged_log_id := last_purged;
        last_log_id := match on_disk with Some id => Some id | None => last_purged end |}.

(** The writes; their fsync is the batcher's. *)
Definition save_vote (db : DB) (group : GroupId) (vote : Vote) : DB :=
  put_meta db group META_VOTE_KEY vote.
Definition save_committed (db : DB) (group : GroupId) (committed : option LogId) : DB :=
  match committed with Some c => put_meta db group META_COMMITTED_KEY c | None => db end.
Definition read_committed (db : DB) (group : GroupId) : result (option LogId) :=
  get_meta db group META_COMMITTED_KEY.

Definition append (db : DB) (group : GroupId) (entries : list Entry) : DB :=
  write_opt db ((λ e, BPut CF_RAFT_LOG (log_key group (index (log_id e))) (bincode_encode e)) <$> entries).

Definition truncate_after (db : DB) (group : GroupId) (last_log_id : option LogId) : DB :=
  let from_index := match last_log_id with Some id => saturating_add (index id) 1 | None => 0 end in
  write_opt db [BDeleteRange CF_RAFT_LOG (log_key group from_index) (log_range group).2].

(** The marker first, then the range. *)
Definition purge (db : DB) (group : GroupId) (upto : LogId) : DB :=
  let db := put_meta db group META_PURGED_KEY upto in
  write_opt db [BDeleteRange CF_RAFT_LOG (log_key group 0)
                  (log_key group (saturating_add (index upto) 1))].
End log_store.

(** ** Keys of the log *)

Lemma bytes_ltb_ones l n : (length l < n)%nat → bytes_ltb l (replicate n (byte_of 255)) = true.
Proof.
  revert n. induction l as [|x l IH]; intros [|n] Hl; simpl in *; try (done || lia).
  pose proof (byte_val_range x). rewrite byte_val_of. change (255 mod 256) with 255.
  destruct (Z.ltb_spec (byte_val x) 255); [done|]. destruct (Z.ltb_spec 255 (byte_val x)); [lia|].
  apply IH. lia.
Qed.

(** Keys sort by group, then by index. *)
Lemma group_key_ltb g g' k k' :
  is_u32 g → is_u32 g' →
  bytes_ltb (group_key g k) (group_key g' k') = true ↔ g < g' ∨ (g = g' ∧ bytes_ltb k k' = true).
Proof.
  intros Hg Hg'. unfold group_key. destruct (Z.lt_trichotomy g g') as [Hlt|[->|Hgt]].
  - split; [by left|]. intros _. apply bytes_ltb_app_l; [by rewrite !length_be_bytes|].
    by apply be_bytes_ltb_iff; [apply u32_pow..|].
  - rewrite bytes_ltb_app. split; [by right|]. intros [?|[_ ?]]; [lia|done].
  - split; [|lia]. intros Hb. rewrite bytes_ltb_asym in Hb; [done|].
    apply bytes_ltb_app_l; [by rewrite !length_be_bytes|]. by apply be_bytes_ltb_iff; [apply u32_pow..|].
Qed.
Lemma log_key_ltb g g' i j :
  is_u32 g → is_u32 g' → is_u64 i → is_u64 j →
  bytes_ltb (log_key g i) (log_key g' j) = true ↔ g < g' ∨ (g = g' ∧ i < j).
Proof.
  intros Hg Hg' Hi Hj. unfold log_key. rewrite group_key_ltb by done.
  rewrite be_bytes_ltb_iff by by apply u64_pow. done.
Qed.
Lemma log_key_leb g g' i j :
  is_u32 g → is_u32 g' → is_u64 i → is_u64 j →
  bytes_leb (log_key g i) (log_key g' j) = true ↔ g < g' ∨ (g = g' ∧ i ≤ j).
Proof.
  intros Hg Hg' Hi Hj. unfold bytes_leb.
  rewrite negb_true_iff, <- not_true_iff_false, log_key_ltb by done. lia.
Qed.
Lemma log_key_inj g g' i j :
  is_u32 g → is_u32 g' → is_u64 i → is_u64 j → log_key g i = log_key g' j → g = g' ∧ i = j.
Proof.
  intros Hg Hg' Hi Hj [-> He]%group_key_inj; [|done..]. split; [done|].
  by apply be_bytes_inj in He; [|apply u64_pow..].
Qed.

(** The end of a group's range is above its keys and not above those that follow. *)
Lemma log_end_ltb g g' k :
  is_u32 g → is_u32 g' → (length k < 12)%nat →
  bytes_ltb (group_key g' k) (log_range g).2 = true ↔ g' ≤ g.
Proof.
  intros Hg Hg' Hk. unfold log_range, group_range.
  destruct (Z.leb_spec (g + 1) u32_max) as [Hle|Hgt].
  - change (bytes_ltb (group_key g' k) (be_bytes 4 (g + 1)) = true ↔ g' ≤ g).
    rewrite <- (app_nil_r (be_bytes 4 (g + 1))). fold (group_key (g + 1) []).
    rewrite group_key_ltb; [|done|unfold is_u32 in *; lia]. split; [|lia].
    intros [?|[_ Hb]]; [lia|by destruct k].
  - assert (g = u32_max) as -> by (unfold is_u32 in Hg; lia). split; [unfold is_u32 in Hg'; lia|].
    intros _. unfold group_key. apply (bytes_ltb_ones _ 16). rewrite length_app, length_be_bytes. lia.
Qed.
Lemma length_be8 i : (length (be_bytes 8 i) < 12)%nat.
Proof. rewrite length_be_bytes. lia. Qed.

Lemma log_slice_range g g' s e i :
  is_u32 g → is_u32 g' → is_u64 s → is_u64 e → is_u64 i →
  in_range (Some (log_key g s)) (Some (log_key g e)) (log_key g' i) = true ↔ g' = g ∧ s ≤ i < e.
Proof.
  intros. unfold in_range. rewrite andb_true_iff, log_key_leb, log_key_ltb by done. lia.
Qed.
Lemma log_tail_range g g' s i :
  is_u32 g → is_u32 g' → is_u64 s → is_u64 i →
  in_range (Some (log_key g s)) (Some (log_range g).2) (log_key g' i) = true ↔ g' = g ∧ s ≤ i.
Proof.
  intros. unfold in_range. rewrite andb_true_iff, log_key_leb by done.
  unfold log_key. rewrite log_end_ltb by (done || apply length_be8). lia.
Qed.

(** ** The abstract log *)
Section refinement.
Context `{!RocksDb} {LogId Vote Entry : Type}.
Context `{!Bincode LogId, !Bincode Vote, !Bincode Entry}.
Context (log_id : Entry → LogId) (index : LogId → Z).

(** Group [g] of the database stores the log [L]; the family holds log keys only. *)
Record log_shows (db : DB) (g : GroupId) (L : gmap Z Entry) : Prop := {
  ls_family fk v : get_cf db CF_RAFT_LOG fk = Some v →
    ∃ g' i, is_u32 g' ∧ is_u64 i ∧ fk = log_key g' i;
  ls_get i : is_u64 i → get_cf db CF_RAFT_LOG (log_key g i) = bincode_encode <$> L !! i;
  ls_index i e : L !! i = Some e → is_u64 i ∧ index (log_id e) = i;
  ls_max i e : L !! i = Some e → i < u64_max
}.

(** What the writes do to the abstract log. *)
Definition appended (entries : list Entry) (L : gmap Z Entry) : gmap Z Entry :=
  foldl (λ L e, <[index (log_id e) := e]> L) L entries.
Definition kept (P : Z → Prop) `{!∀ i, Decision (P i)} (L : gmap Z Entry) : gmap Z Entry :=
  filter (λ x, P x.1) L.

Lemma lookup_kept P `{!∀ i, Decision (P i)} L i : kept P L !! i = if decide (P i) then L !! i else None.
Proof.
  unfold kept. apply option_eq. intros e. rewrite map_lookup_filter_Some. simpl.
  case_decide; naive_solver.
Qed.

Lemma append_effect g entries db i :
  is_u32 g → is_u64 i → (∀ e, e ∈ entries → is_u64 (index (log_id e))) → ∀ L,
  get_cf db CF_RAFT_LOG (log_key g i) = bincode_encode <$> L !! i →
  foldl (batch_effect CF_RAFT_LOG (log_key g i)) (get_cf db CF_RAFT_LOG (log_key g i))
    ((λ e, BPut CF_RAFT_LOG (log_key g (index (log_id e))) (bincode_encode e)) <$> entries)
  = bincode_encode <$> appended entries L !! i.
Proof.
  intros Hg Hi. generalize (get_cf db CF_RAFT_LOG (log_key g i)).
  induction entries as [|e entries IH]; intros cur Hes L HL; [done|].
  cbn [fmap list_fmap foldl appended]. apply IH; [intros e' He'; apply Hes; by right|].
  pose proof (Hes e ltac:(by left)) as He. simpl. case_decide as Hk.
  - destruct Hk as [_ [_ ->]%log_key_inj]; [|done..]. by rewrite lookup_insert_eq.
  - rewrite lookup_insert_ne; [done|]. intros <-. by apply Hk.
Qed.

Lemma append_refines db g L entries :
  is_u32 g → log_shows db g L → (∀ e, e ∈ entries → 0 ≤ index (log_id e) < u64_max) →
  log_shows (append log_id index db g entries) g (appended entries L).
Proof.
  intros Hg [Hfam Hget Hidx Hmax] Hlt.
  assert (∀ e, e ∈ entries → is_u64 (index (log_id e))) as Hes by (intros e He%Hlt; unfold is_u64; lia).
  split.
  - intros fk v. unfold append. rewrite get_cf_write. specialize (Hfam fk). clear Hget Hidx Hlt.
    revert v Hfam. generalize (get_cf db CF_RAFT_LOG fk). intros cur v Hfam. revert cur Hfam. induction entries as [|e entries IH]; intros cur Hfam; [apply Hfam|].
    cbn [fmap list_fmap foldl]. apply IH; [intros e' He'; apply Hes; by right|].
    intros v'. simpl. case_decide as Hk; [|by apply Hfam]. intros _. destruct Hk as [_ <-].
    exists g, (index (log_id e)). split; [done|]. split; [|done]. apply Hes. by left.
  - intros i Hi. unfold append. rewrite get_cf_write. by apply append_effect, Hget.
  - unfold appended. clear Hget Hlt. induction entries as [|e entries IH] using rev_ind; [done|].
    intros i e'. rewrite foldl_app. simpl. rewrite lookup_insert. case_decide as Hi.
    + intros [= <-]. split; [|done]. rewrite <- Hi. apply Hes. set_solver.
    + apply IH. intros e'' He''. apply Hes. set_solver.
  - unfold appended. clear Hget Hidx Hes. induction entries as [|e entries IH] using rev_ind; [done|].
    intros i e'. rewrite foldl_app. simpl. rewrite lookup_insert. case_decide as Hi.
    + intros _. rewrite <- Hi. apply Hlt. set_solver.
    + apply IH. intros e'' He''. apply Hlt. set_solver.
Qed.

(** A range of the family that is, in this group, the indexes satisfying [P]. *)
Definition selects_indexes (g : GroupId) (lo hi : bytes) (P : Z → Prop) : Prop :=
  ∀ g' i, is_u32 g' → is_u64 i → in_range (Some lo) (Some hi) (log_key g' i) = true ↔ g' = g ∧ P i.

Lemma delete_range_refines db g L lo hi (P : Z → Prop) `{!∀ i, Decision (P i)} :
  is_u32 g → selects_indexes g lo hi P → log_shows db g L →
  log_shows (write_opt db [BDeleteRange CF_RAFT_LOG lo hi]) g (kept (λ i, ¬ P i) L).
Proof.
  intros Hg Hsel [Hfam Hget Hidx Hmax]. split.
  - intros fk v. rewrite get_cf_write. cbn [foldl batch_effect]. rewrite decide_True by done.
    destruct (in_range _ _ fk); [done|apply Hfam].
  - intros i Hi. rewrite get_cf_write. cbn [foldl batch_effect]. rewrite decide_True by done. rewrite lookup_kept.
    destruct (in_range _ _ _) eqn:Hr.
    + apply Hsel in Hr as [_ HP]; [|done..]. by rewrite decide_False by auto.
    + rewrite decide_True; [by apply Hget|]. intros HP. apply not_true_iff_false in Hr. apply Hr.
      by apply Hsel.
  - intros i e. rewrite lookup_kept. case_decide; [apply Hidx|done].
  - intros i e. rewrite lookup_kept. case_decide; [apply Hmax|done].
Qed.

Lemma put_meta_refines {A} `{!Bincode A} db g g' L key (v : A) :
  log_shows db g L → log_shows (put_meta db g' key v) g L.
Proof.
  intros [Hfam Hget Hidx Hmax]. split; [..|done|done].
  - intros fk x. unfold put_meta. rewrite get_cf_write. cbn [foldl batch_effect]. rewrite decide_False by naive_solver.
    apply Hfam.
  - intros i Hi. unfold put_meta. rewrite get_cf_write. cbn [foldl batch_effect]. rewrite decide_False by naive_solver.
    by apply Hget.
Qed.

(** ** Reads *)

Definition idx (e : Entry) : Z := index (log_id e).

Lemma decode_entries_all g (L : gmap Z Entry) (l : list (bytes * bytes)) :
  (∀ x, x ∈ l → ∃ e, L !! idx e = Some e ∧ x = (log_key g (idx e), bincode_encode e)) →
  ∃ es, decode_entries l = Ok es ∧
    l = ((λ e, (log_key g (idx e), bincode_encode e)) <$> es) ∧ ∀ e, e ∈ es → L !! idx e = Some e.
Proof.
  induction l as [|x l IH]; intros Hl; [exists []; set_solver|].
  destruct (Hl x) as (e & He & ->); [by left|].
  destruct IH as (es & Hes & -> & Hall); [intros y Hy; apply Hl; by right|].
  exists (e :: es). split; [|split; [done|]].
  - cbn [decode_entries]. unfold io_decode at 1, mbind, result_bind. rewrite bincode_decode_encode.
    simpl. by rewrite Hes.
  - intros e' [->|He']%elem_of_cons; [done|by apply Hall].
Qed.

Lemma family_entry db g L fk v :
  is_u32 g → log_shows db g L → get_cf db CF_RAFT_LOG fk = Some v →
  (∃ g' i, is_u32 g' ∧ is_u64 i ∧ fk = log_key g' i ∧ g' ≠ g) ∨
  ∃ e, L !! idx e = Some e ∧ is_u64 (idx e) ∧ (fk, v) = (log_key g (idx e), bincode_encode e).
Proof.
  intros Hg [Hfam Hget Hidx _] Hv. destruct (Hfam fk v Hv) as (g' & i & Hg' & Hi & ->).
  destruct (decide (g' = g)) as [->|Hne]; [right|left; by exists g', i].
  rewrite Hget in Hv by done. destruct (L !! i) as [e|] eqn:He; [|done]. simpl in Hv. simplify_eq.
  destruct (Hidx i e He) as [_ Hie]. exists e. unfold idx. by rewrite Hie.
Qed.

Lemma keys_sorted g es :
  is_u32 g → (∀ e, e ∈ es → is_u64 (idx e)) →
  StronglySorted key_lt ((λ e, (log_key g (idx e), bincode_encode e)) <$> es) →
  StronglySorted (λ a b, idx a < idx b) es.
Proof.
  intros Hg. induction es as [|e es IH]; intros Hu; [constructor|].
  intros [Hs Hx]%StronglySorted_inv. constructor; [apply IH; [|done]; intros; apply Hu; by right|].
  apply Forall_forall. intros e' He'. rewrite Forall_forall in Hx.
  specialize (Hx (log_key g (idx e'), bincode_encode e')). unfold key_lt in Hx. cbn [fst] in Hx.
  assert (bytes_ltb (log_key g (idx e)) (log_key g (idx e')) = true) as Hlt.
  { apply Hx, list_elem_of_fmap. by exists e'. }
  apply log_key_ltb in Hlt; [lia|done|done|apply Hu; by left|apply Hu; right; done].
Qed.

(** The entries a read of the range gives. *)
Definition reads_entries (L : gmap Z Entry) (P : Z → Prop) (r : result (list Entry)) : Prop :=
  ∃ es, r = Ok es ∧ StronglySorted (λ a b, idx a < idx b) es ∧
    ∀ e, e ∈ es ↔ L !! idx e = Some e ∧ P (idx e).

Lemma read_range db g L lo hi P :
  is_u32 g → selects_indexes g lo hi P → log_shows db g L →
  reads_entries L P (decode_entries (range_cf db CF_RAFT_LOG (Some lo) (Some hi))).
Proof.
  intros Hg Hsel Hs.
  destruct (decode_entries_all g L (range_cf db CF_RAFT_LOG (Some lo) (Some hi))) as (es & Hes & Hl & Hall).
  { intros [fk v] [Hv Hr]%range_cf_spec.
    destruct (family_entry db g L fk v Hg Hs Hv) as [(g' & i & Hg' & Hi & -> & Hne)|(e & He & _ & Heq)].
    - by apply Hsel in Hr as [? _].
    - by exists e. }
  exists es. split; [done|]. split.
  - apply (keys_sorted g); [done|intros e He%Hall; by apply (ls_index _ _ _ Hs) in He as [? _]|].
    rewrite <- Hl. apply range_cf_sorted.
  - intros e. split.
    + intros He. split; [by apply Hall|]. destruct (ls_index _ _ _ Hs _ _ (Hall e He)) as [Hu _].
      assert ((log_key g (idx e), bincode_encode e) ∈ range_cf db CF_RAFT_LOG (Some lo) (Some hi)) as Hin.
      { rewrite Hl. by apply (list_elem_of_fmap_2 (λ e, (log_key g (idx e), bincode_encode e))). }
      apply range_cf_spec in Hin as [_ Hr]. by apply Hsel in Hr as [_ ?].
    + intros [He HP]. destruct (ls_index _ _ _ Hs _ _ He) as [Hu _].
      assert ((log_key g (idx e), bincode_encode e) ∈ range_cf db CF_RAFT_LOG (Some lo) (Some hi)) as Hin.
      { apply range_cf_spec. split; [rewrite (ls_get _ _ _ Hs) by done; by rewrite He|by apply Hsel]. }
      rewrite Hl in Hin. apply list_elem_of_fmap in Hin as (e' & Heq & He').
      apply pair_eq in Heq as [_ Henc]. pose proof (f_equal bincode_decode Henc) as Hd.
      rewrite !bincode_decode_encode in Hd. by injection Hd as ->.
Qed.

Lemma last_sorted (es : list Entry) e :
  StronglySorted (λ a b, idx a < idx b) (es ++ [e]) → ∀ e', e' ∈ es ++ [e] → idx e' ≤ idx e.
Proof.
  induction es as [|x es IH]; simpl; [intros _ e' ->%list_elem_of_singleton; done|].
  intros [Hs Hx]%StronglySorted_inv e' [->|He']%elem_of_cons; [|by apply IH].
  rewrite Forall_forall in Hx. specialize (Hx e).
  assert (idx x < idx e); [|lia]. apply Hx. set_solver.
Qed.

Lemma length_log_key g i : length (log_key g i) = 12%nat.
Proof. unfold log_key, group_key. by rewrite length_app, !length_be_bytes. Qed.
Lemma log_end_not_key g g' i : log_key g' i ≠ (log_range g).2.
Proof.
  intros Heq. apply (f_equal length) in Heq. rewrite length_log_key in Heq.
  unfold log_range, group_range in Heq. by destruct (g + 1 <=? u32_max).
Qed.

Lemma group_bounds g g' i :
  is_u32 g → is_u32 g' →
  bytes_leb (group_prefix g) (log_key g' i) = true ∧ bytes_leb (log_key g' i) (log_range g).2 = true ↔
  g' = g.
Proof.
  intros Hg Hg'. rewrite (bytes_leb_spec (log_key g' i)). pose proof (log_end_not_key g g' i) as Hne.
  unfold log_key in *. rewrite log_end_ltb by (done || apply length_be8).
  unfold bytes_leb. rewrite negb_true_iff, <- not_true_iff_false.
  rewrite <- (app_nil_r (group_prefix g)).
  change (group_prefix g ++ []) with (group_key g []). rewrite group_key_ltb by done. split.
  - intros [H1 [?|H2]]; [done|]. destruct (Z.lt_trichotomy g' g) as [?|[?|?]]; [|done|lia].
    exfalso. apply H1. by left.
  - intros ->. split; [|right; lia]. intros [?|[_ Hb]]; [lia|by destruct (be_bytes 8 i)].
Qed.

(** The record [seek_for_prev] finds is the entry with the largest index. *)
Lemma last_entry db g L :
  is_u32 g → log_shows db g L →
  match last_log_id_on_disk log_id db g with
  | Ok (Some id) => ∃ e, id = log_id e ∧ L !! idx e = Some e ∧ ∀ i, is_Some (L !! i) → i ≤ idx e
  | Ok None => L = ∅
  | Err _ => False
  end.
Proof.
  intros Hg Hs. unfold last_log_id_on_disk, seek_for_prev.
  change (log_range g) with (group_prefix g, (log_range g).2). cbv beta iota.
  set (l := filter (λ x, bytes_leb x.1 (log_range g).2 = true)
              (range_cf db CF_RAFT_LOG (Some (group_prefix g)) None)).
  assert (∀ fk v, (fk, v) ∈ l ↔ get_cf db CF_RAFT_LOG fk = Some v ∧
    bytes_leb (group_prefix g) fk = true ∧ bytes_leb fk (log_range g).2 = true) as Hmem.
  { intros fk v. unfold l. rewrite list_elem_of_filter, range_cf_spec. unfold in_range.
    rewrite andb_true_r. simpl. tauto. }
  destruct (decode_entries_all g L l) as (es & _ & Hl & Hall).
  { intros [fk v] (Hv & Hlo & Hhi)%Hmem.
    destruct (family_entry db g L fk v Hg Hs Hv) as [(g' & i & Hg' & Hi & -> & Hne)|(e & He & _ & Heq)].
    - destruct Hne. by apply (group_bounds g g' i).
    - by exists e. }
  assert (∀ i e, L !! i = Some e → e ∈ es) as Hin.
  { intros i e He. destruct (ls_index _ _ _ Hs i e He) as [Hi Hie].
    assert ((log_key g i, bincode_encode e) ∈ l) as Hx.
    { apply Hmem. split; [rewrite (ls_get _ _ _ Hs) by done; by rewrite He|by apply group_bounds]. }
    rewrite Hl in Hx. apply list_elem_of_fmap in Hx as (e' & [_ Henc]%pair_eq & He').
    pose proof (f_equal bincode_decode Henc) as Hd. rewrite !bincode_decode_encode in Hd. by injection Hd as ->. }
  destruct es as [|e es _] using rev_ind.
  { rewrite Hl. simpl. apply map_eq. intros i. rewrite lookup_empty.
    destruct (L !! i) as [e|] eqn:He; [|done]. by apply Hin, not_elem_of_nil in He. }
  rewrite Hl, fmap_app. cbn [fmap list_fmap]. rewrite last_snoc. unfold io_decode, mbind, result_bind.
  rewrite bincode_decode_encode. cbn [of_option]. exists e. split; [done|]. split; [apply Hall; set_solver|].
  intros i [e' He']. destruct (ls_index _ _ _ Hs i e' He') as [_ <-].
  eapply last_sorted; [|by eapply Hin]. apply (keys_sorted g); [done| |].
  - intros x Hx%Hall. by apply (ls_index _ _ _ Hs) in Hx as [? _].
  - rewrite <- Hl. unfold l. apply sorted_filter, range_cf_sorted.
Qed.

Lemma reads_entries_ext L (P Q : Z → Prop) r :
  (∀ i e, L !! i = Some e → P i ↔ Q i) → reads_entries L P r → reads_entries L Q r.
Proof.
  intros HPQ (es & -> & Hsort & Hes). exists es. split; [done|]. split; [done|].
  intros e. rewrite Hes. split; intros [He HP]; (split; [done|by apply (HPQ _ e)]).
Qed.

(** The indexes a range asks for. *)
Definition in_bounds (lo hi : Bound) (i : Z) : Prop :=
  match lo with Included s => s ≤ i | Excluded s => s < i | Unbounded => True end ∧
  match hi with Included e => i ≤ e | Excluded e => i < e | Unbounded => True end.
Definition bound_ok (b : Bound) : Prop :=
  match b with Included i | Excluded i => is_u64 i | Unbounded => True end.

Lemma try_get_exact db g L lo hi :
  is_u32 g → log_shows db g L → bound_ok lo → bound_ok hi →
  reads_entries L (in_bounds lo hi) (try_get_log_entries db g lo hi).
Proof.
  intros Hg Hs Hlo Hhi. unfold try_get_log_entries. cbv zeta.
  set (start := match lo with Included i => i | Excluded i => saturating_add i 1 | Unbounded => 0 end).
  set (fin := match hi with Included i => saturating_add i 1 | Excluded i => i | Unbounded => u64_max end).
  assert (is_u64 start ∧ is_u64 fin) as [Hstart Hfin].
  { unfold bound_ok, start, fin, saturating_add, is_u64, u64_max in *. destruct lo, hi; lia. }
  assert (∀ i e, L !! i = Some e → start ≤ i < fin ↔ in_bounds lo hi i) as Hin.
  { intros i e He. pose proof (ls_max _ _ _ Hs i e He). destruct (ls_index _ _ _ Hs i e He) as [Hi _].
    unfold bound_ok, start, fin, in_bounds, saturating_add, is_u64 in *. destruct lo, hi; lia. }
  destruct (Z.leb_spec fin start) as [Hle|Hgt].
  { exists []. split; [done|]. split; [constructor|]. intros e. split; [by intros ?%not_elem_of_nil|].
    intros [He Hb]. apply (Hin _ e He) in Hb. lia. }
  destruct (Z.eqb_spec fin u64_max) as [Heq|Hne].
  - apply (reads_entries_ext _ (λ i, start ≤ i)).
    { intros i e He. rewrite <- (Hin i e He). pose proof (ls_max _ _ _ Hs i e He). lia. }
    apply (read_range _ g); [done| |done]. intros g' i Hg' Hi. by apply log_tail_range.
  - apply (reads_entries_ext _ (λ i, start ≤ i < fin)); [exact Hin|].
    apply (read_range _ g); [done| |done]. intros g' i Hg' Hi. by apply log_slice_range.
Qed.

(** Not after the log id, where [None] is before everything. *)
Definition upto (last : option LogId) (i : Z) : Prop :=
  match last with Some id => i ≤ index id | None => False end.
#[export] Instance upto_dec last i : Decision (upto last i).
Proof. unfold upto. destruct last; apply _. Defined.

Lemma truncate_refines db g L last :
  is_u32 g → log_shows db g L → (∀ id, last = Some id → is_u64 (index id)) →
  log_shows (truncate_after index db g last) g
    (kept (upto last) L).
Proof.
  intros Hg Hs Hlast. unfold truncate_after. cbv zeta.
  set (from := match last with Some id => saturating_add (index id) 1 | None => 0 end).
  assert (is_u64 from) as Hfrom.
  { unfold from, saturating_add, is_u64, u64_max in *. destruct last as [id|]; [|lia].
    specialize (Hlast id eq_refl). lia. }
  pose proof (delete_range_refines db g L (log_key g from) (log_range g).2 (λ i, from ≤ i) Hg) as Hd.
  replace (kept _ L) with (kept (λ i, ¬ from ≤ i) L).
  - apply Hd; [|done]. intros g' i Hg' Hi. by apply log_tail_range.
  - apply map_eq. intros i. rewrite !lookup_kept. destruct (L !! i) as [e|] eqn:He; [|by repeat case_decide].
    pose proof (ls_max _ _ _ Hs i e He). destruct (ls_index _ _ _ Hs i e He) as [Hi _].
    unfold from, upto, saturating_add, is_u64 in *. destruct last as [id|]; repeat case_decide; try done; lia.
Qed.

Lemma purge_refines db g L id :
  is_u32 g → log_shows db g L → is_u64 (index id) →
  log_shows (purge index db g id) g (kept (λ i, index id < i) L).
Proof.
  intros Hg Hs Hid. unfold purge. cbv zeta. set (to := saturating_add (index id) 1).
  assert (is_u64 to) as Hto by (unfold to, saturating_add, is_u64, u64_max in *; lia).
  pose proof (delete_range_refines (put_meta db g META_PURGED_KEY id) g L (log_key g 0) (log_key g to)
    (λ i, 0 ≤ i < to) Hg) as Hd.
  replace (kept (λ i, index id < i) L) with (kept (λ i, ¬ (0 ≤ i < to)) L).
  - apply Hd; [|by apply put_meta_refines]. intros g' i Hg' Hi. by apply log_slice_range.
  - apply map_eq. intros i. rewrite !lookup_kept. destruct (L !! i) as [e|] eqn:He; [|by repeat case_decide].
    pose proof (ls_max _ _ _ Hs i e He). destruct (ls_index _ _ _ Hs i e He) as [Hi _].
    unfold to, saturating_add, is_u64 in *. repeat case_decide; try done; lia.
Qed.

(** ** Other groups *)

Lemma delete_range_other db g g' L lo hi (P : Z → Prop) :
  is_u32 g' → g' ≠ g → selects_indexes g lo hi P → log_shows db g' L →
  log_shows (write_opt db [BDeleteRange CF_RAFT_LOG lo hi]) g' L.
Proof.
  intros Hg' Hne Hsel [Hfam Hget Hidx Hmax]. split; [..|done|done].
  - intros fk v. rewrite get_cf_write. cbn [foldl batch_effect]. rewrite decide_True by done.
    destruct (in_range _ _ fk); [done|apply Hfam].
  - intros i Hi. rewrite get_cf_write. cbn [foldl batch_effect]. rewrite decide_True by done.
    destruct (in_range _ _ _) eqn:Hr; [|by apply Hget]. by apply Hsel in Hr as [? _].
Qed.
Lemma append_other db g g' L entries :
  is_u32 g → is_u32 g' → g' ≠ g → (∀ e, e ∈ entries → is_u64 (index (log_id e))) → log_shows db g' L →
  log_shows (append log_id index db g entries) g' L.
Proof.
  intros Hg Hg' Hne Hes [Hfam Hget Hidx Hmax]. unfold append. split; [..|done|done].
  - intros fk v. rewrite get_cf_write. specialize (Hfam fk). clear Hget.
    revert v Hfam. generalize (get_cf db CF_RAFT_LOG fk). intros cur v Hfam. revert cur Hfam.
    induction entries as [|e entries IH]; intros cur Hfam; [apply Hfam|].
    cbn [fmap list_fmap foldl]. apply IH; [intros e' He'; apply Hes; by right|].
    intros v'. simpl. case_decide as Hk; [|by apply Hfam]. intros _. destruct Hk as [_ <-].
    exists g, (index (log_id e)). split; [done|]. split; [|done]. apply Hes. by left.
  - intros i Hi. rewrite get_cf_write, effects_id; [by apply Hget|].
    intros op (e & -> & He)%list_elem_of_fmap cur. simpl. rewrite decide_False; [done|].
    intros [_ [? _]%log_key_inj]; [done|done|done|by apply Hes|done].
Qed.
Lemma truncate_other db g g' L last :
  is_u32 g → is_u32 g' → g' ≠ g → (∀ id, last = Some id → is_u64 (index id)) → log_shows db g' L →
  log_shows (truncate_after index db g last) g' L.
Proof.
  intros Hg Hg' Hne Hlast Hs. unfold truncate_after. cbv zeta.
  set (from := match last with Some id => saturating_add (index id) 1 | None => 0 end).
  apply (delete_range_other db g g' L _ _ (λ i, from ≤ i)); [done..| |done].
  intros g'' i Hg'' Hi. apply log_tail_range; [done|done| |done].
  unfold from, saturating_add, is_u64, u64_max in *. destruct last as [id|]; [|lia].
  specialize (Hlast id eq_refl). lia.
Qed.
Lemma purge_other db g g' L id :
  is_u32 g → is_u32 g' → g' ≠ g → is_u64 (index id) → log_shows db g' L →
  log_shows (purge index db g id) g' L.
Proof.
  intros Hg Hg' Hne Hid Hs. unfold purge. cbv zeta. set (to := saturating_add (index id) 1).
  apply (delete_range_other _ g g' L _ _ (λ i, 0 ≤ i < to)); [done..| |by apply put_meta_refines].
  intros g'' i Hg'' Hi. apply log_slice_range; [done|done|done| |done].
  unfold to, saturating_add, is_u64, u64_max in *. lia.
Qed.
End refinement.

(** ** The fsync batcher

    Jobs carry how far the log was written when they were submitted.  A round
    takes the waiting jobs, at most [BATCH_MAX], and syncs everything written. *)

Inductive FsyncJob := Flushed (callback : nat) | Barrier (waiter : nat).
Definition BATCH_MAX : nat := 4096.

Record FsyncBatcher := {
  fb_queue : list (FsyncJob * nat);
  fb_healthy : bool;
  fb_running : bool;
  fb_written : nat;
  fb_synced : nat;
  fb_done : list (FsyncJob * nat * bool)
}.

Definition fb_start : FsyncBatcher :=
  {| fb_queue := []; fb_healthy := true; fb_running := true; fb_written := 0; fb_synced := 0;
     fb_done := [] |}.

(** A write to the shared log of the database. *)
Definition fb_write (b : FsyncBatcher) : FsyncBatcher :=
  {| fb_queue := fb_queue b; fb_healthy := fb_healthy b; fb_running := fb_running b;
     fb_written := S (fb_written b); fb_synced := fb_synced b; fb_done := fb_done b |}.

(** [submit] and the send of [barrier]: a job sent to a stopped batcher is dropped. *)
Definition submit (job : FsyncJob) (b : FsyncBatcher) : FsyncBatcher :=
  if fb_running b
  then {| fb_queue := fb_queue b ++ [(job, fb_written b)]; fb_healthy := fb_healthy b;
          fb_running := true; fb_written := fb_written b; fb_synced := fb_synced b;
          fb_done := fb_done b |}
  else b.

(** One turn of [fsync_loop]; [flush] is the result of [flush_wal(true)]. *)
Definition fsync_round (wal_sync flush : bool) (b : FsyncBatcher) : FsyncBatcher :=
  let jobs := take BATCH_MAX (fb_queue b) in
  let rest := drop BATCH_MAX (fb_queue b) in
  if negb (fb_running b) || bool_decide (fb_queue b = []) then b
  else if negb wal_sync || flush
  then {| fb_queue := rest; fb_healthy := fb_healthy b; fb_running := true;
          fb_written := fb_written b;
          fb_synced := if wal_sync then fb_written b else fb_synced b;
          fb_done := fb_done b ++ ((λ j, (j, true)) <$> jobs) |}
  else {| fb_queue := []; fb_healthy := false; fb_running := false; fb_written := fb_written b;
          fb_synced := fb_synced b; fb_done := fb_done b ++ ((λ j, (j, false)) <$> jobs) |}.

Inductive fb_step (wal_sync : bool) : FsyncBatcher → FsyncBatcher → Prop :=
| fb_step_write b : fb_step wal_sync b (fb_write b)
| fb_step_submit job b : fb_step wal_sync b (submit job b)
| fb_step_round flush b : fb_step wal_sync b (fsync_round wal_sync flush b).

Record fb_ok (b : FsyncBatcher) : Prop := {
  fb_ok_done j pos : (j, pos, true) ∈ fb_done b → (pos ≤ fb_synced b)%nat;
  fb_ok_queue j pos : (j, pos) ∈ fb_queue b → (pos ≤ fb_written b)%nat;
  fb_ok_synced : (fb_synced b ≤ fb_written b)%nat;
  fb_ok_stop : fb_healthy b = fb_running b
}.

Lemma fb_step_ok b b' : fb_step true b b' → fb_ok b → fb_ok b'.
Proof.
  intros Hstep [Hd Hq Hs Hst]. destruct Hstep as [b|job b|flush b].
  - split; simpl; [done| |lia|done]. intros j pos ?%Hq. lia.
  - unfold submit. destruct (fb_running b) eqn:Hr; [|split; [done|done|done|congruence]]. split; simpl; [done| |lia|].
    + intros j pos [?%Hq|[= _ ->]%list_elem_of_singleton]%elem_of_app; lia.
    + congruence.
  - unfold fsync_round. cbv zeta. destruct (negb (fb_running b) || _) eqn:Hidle; [done|]. cbn [negb orb].
    apply orb_false_iff in Hidle as [Hr%negb_false_iff _]. destruct flush; split; simpl.
    + intros j pos [?%Hd|([j' pos'] & [= <- <-] & Hj)%list_elem_of_fmap]%elem_of_app; [lia|].
      apply Hq with j. rewrite <- (take_drop BATCH_MAX (fb_queue b)). apply elem_of_app. by left.
    + intros j pos Hj. apply Hq with j. rewrite <- (take_drop BATCH_MAX (fb_queue b)).
      apply elem_of_app. by right.
    + lia.
    + congruence.
    + intros j pos [?%Hd|([j' pos'] & [=] & Hj)%list_elem_of_fmap]%elem_of_app. lia.
    + by intros j pos ?%not_elem_of_nil.
    + lia.
    + done.
Qed.

Lemma fb_steps_ok b : rtc (fb_step true) fb_start b → fb_ok b.
Proof.
  assert (fb_ok fb_start) as H0 by (split; simpl; [by intros ? ? ?%not_elem_of_nil..|done|done]).
  revert H0. generalize fb_start as b0. intros b0 H0 Hsteps.
  induction Hsteps as [|b1 b2 b3 Hstep _ IH]; [done|]. by apply IH, (fb_step_ok b1).
Qed.

(** ** Theorems *)

(** C25: The log store implements a map from indexes to entries: appending,
    truncating and purging do to the stored log what they do to the map, and
    leave the logs of other groups alone; a range read returns exactly the
    entries in the range, in order of their index; the log state reports the
    entry with the largest index, or the purge marker when there is none. *)
Theorem log_store_refines `{!RocksDb} {LogId Entry : Type} `{!Bincode LogId, !Bincode Entry}
    (log_id : Entry → LogId) (index : LogId → Z) db g L :
  is_u32 g → log_shows log_id index db g L →
  (∀ entries, (∀ e, e ∈ entries → 0 ≤ index (log_id e) < u64_max) →
     log_shows log_id index (append log_id index db g entries) g (appended log_id index entries L)) ∧
  (∀ last, (∀ id, last = Some id → is_u64 (index id)) →
     log_shows log_id index (truncate_after index db g last) g (kept (upto index last) L)) ∧
  (∀ id, is_u64 (index id) →
     log_shows log_id index (purge index db g id) g (kept (λ i, index id < i) L)) ∧
  (∀ g' entries last id, is_u32 g' → g' ≠ g → (∀ e, e ∈ entries → 0 ≤ index (log_id e) < u64_max) →
     (∀ id, last = Some id → is_u64 (index id)) → is_u64 (index id) →
     log_shows log_id index (append log_id index db g' entries) g L ∧
     log_shows log_id index (truncate_after index db g' last) g L ∧
     log_shows log_id index (purge index db g' id) g L) ∧
  (∀ lo hi, bound_ok lo → bound_ok hi →
     reads_entries log_id index L (in_bounds lo hi) (try_get_log_entries db g lo hi)) ∧
  (∀ purged, get_meta db g META_PURGED_KEY = Ok purged →
     ∃ st, get_log_state log_id db g = Ok st ∧ last_purged_log_id st = purged ∧
       (L = ∅ → last_log_id st = purged) ∧
       (L ≠ ∅ → ∃ e, last_log_id st = Some (log_id e) ∧ L !! idx log_id index e = Some e ∧
          ∀ i, is_Some (L !! i) → i ≤ idx log_id index e)).
Proof.
  intros Hg Hs. split_and!; intros.
  - by apply append_refines.
  - by apply truncate_refines.
  - by apply purge_refines.
  - split_and!; [apply append_other|apply truncate_other|apply purge_other]; auto.
    intros e He. assert (0 ≤ index (log_id e) < u64_max) by auto. unfold is_u64. lia.
  - by apply try_get_exact.
  - unfold get_log_state. rewrite H0. unfold mbind, result_bind.
    pose proof (last_entry log_id index db g L Hg Hs) as Hlast.
    destruct (last_log_id_on_disk log_id db g) as [[id|]|]; [..|done]; eexists; (split; [done|]); simpl.
    + destruct Hlast as (e & -> & He & Hmax). split; [done|]. split.
      * intros ->. by rewrite lookup_empty in He.
      * intros _. by exists e.
    + by subst L.
Qed.

(** Once stopped, the batcher acknowledges nothing and stays unhealthy. *)
Lemma fb_stopped b b' :
  fb_running b = false → fb_healthy b = false → rtc (fb_step true) b b' →
  fb_done b' = fb_done b ∧ fb_healthy b' = false.
Proof.
  intros Hr Hh Hsteps. induction Hsteps as [|b1 b2 b3 Hstep _ IH]; [done|].
  assert (fb_done b2 = fb_done b1 ∧ fb_healthy b2 = false ∧ fb_running b2 = false) as (<- & ? & ?);
    [|by apply IH].
  destruct Hstep as [b|job b|flush b]; [done| |].
  - unfold submit. by rewrite Hr.
  - unfold fsync_round. by rewrite Hr.
Qed.

(** C27: The fsync batcher is fail-stop and acknowledges nothing early.  With
    syncing on, in every state it reaches, all writes made before an
    acknowledged job was submitted are durable.  A healthy batcher with waiting
    jobs takes up to [BATCH_MAX] of them, at least one, in a round.  When the
    fsync succeeds, it acknowledges exactly these and stays healthy.  When the
    fsync fails, it fails exactly these, is unhealthy from then on, and whatever
    is written, submitted or tried afterwards, no job is ever acknowledged
    again; an unhealthy batcher is one in that condition. *)
Theorem fsync_acknowledges_durable b :
  rtc (fb_step true) fb_start b →
  (∀ job pos, (job, pos, true) ∈ fb_done b → (pos ≤ fb_synced b)%nat) ∧
  (fb_healthy b = true → fb_queue b ≠ [] →
     let jobs := take BATCH_MAX (fb_queue b) in
     let synced := fsync_round true true b in
     let failed := fsync_round true false b in
     jobs ≠ [] ∧
     (fb_done synced = fb_done b ++ ((λ j, (j, true)) <$> jobs) ∧ fb_healthy synced = true ∧
      fb_queue synced = drop BATCH_MAX (fb_queue b)) ∧
     fb_done failed = fb_done b ++ ((λ j, (j, false)) <$> jobs) ∧
     ∀ b', rtc (fb_step true) failed b' → fb_done b' = fb_done failed ∧ fb_healthy b' = false) ∧
  (fb_healthy b = false → ∀ b', rtc (fb_step true) b b' → fb_done b' = fb_done b ∧ fb_healthy b' = false).
Proof.
  intros Hok%fb_steps_ok. split; [intros job pos; apply (fb_ok_done _ Hok)|].
  pose proof (fb_ok_stop _ Hok) as Hr. split.
  - intros Hh Hq. cbv zeta. unfold fsync_round. rewrite <- Hr, Hh, bool_decide_eq_false_2 by done. cbn [negb orb].
    split_and!; [by destruct (fb_queue b)|done|done|done|done|]. intros b'. by apply fb_stopped.
  - intros Hh b'. apply fb_stopped; congruence.
Qed.

(** ** Witnesses *)
Module LogWitness.
#[local] Existing Instance ref_rocksdb.
#[local] Existing Instance ref_z.

(** Entries and log ids are their index. *)
Definition db0 : DB := (∅ : gmap cf (gmap bytes bytes)).
Definition db1 : DB := append id id db0 3 [5; 6; 7].
Definition log1 : gmap Z Z := appended id id [5; 6; 7] ∅.

Lemma u32_3 : is_u32 3.
Proof. by split. Qed.
Lemma db1_shows : log_shows id id db1 3 log1.
Proof.
  apply append_refines; [done| |].
  - split; [done|intros; by rewrite lookup_empty|by intros i e; rewrite lookup_empty..].
  - apply (Forall_forall (λ e, 0 ≤ id (id e) < u64_max)). by repeat constructor.
Qed.

Lemma log_store_refines_witness :
  reads_entries id id log1 (in_bounds (Included 6) Unbounded)
    (try_get_log_entries db1 3 (Included 6) Unbounded) ∧
  log_shows id id (purge id db1 3 5) 3 (kept (λ i, id 5 < i) log1).
Proof.
  destruct (log_store_refines id id db1 3 log1 u32_3 db1_shows) as (_ & _ & Hpurge & _ & Hread & _).
  split; [apply Hread|apply Hpurge]; by unfold is_u64.
Defined.

(** An append is written, submitted and synced; a barrier waits, and the next sync
    fails. *)
Definition waiting : FsyncBatcher :=
  submit (Barrier 1) (fsync_round true true (submit (Flushed 0) (fb_write fb_start))).
Definition failed : FsyncBatcher := fsync_round true false waiting.
Lemma waiting_steps : rtc (fb_step true) fb_start waiting.
Proof.
  unfold waiting. eapply rtc_r; [|apply fb_step_submit].
  eapply rtc_r; [|apply fb_step_round]. eapply rtc_r; [|apply fb_step_submit].
  apply rtc_once, fb_step_write.
Qed.
Lemma fsync_acknowledges_durable_witness :
  fb_done failed = [(Flushed 0, 1%nat, true); (Barrier 1, 1%nat, false)] ∧ fb_synced failed = 1%nat ∧
  fb_done (fsync_round true true (submit (Barrier 2) failed)) = fb_done failed.
Proof.
  split; [reflexivity|]. split; [reflexivity|].
  destruct (fsync_acknowledges_durable waiting waiting_steps) as (_ & Hround & _).
  destruct (Hround eq_refl ltac:(discriminate)) as (_ & _ & _ & Hstop).
  apply Hstop. eapply rtc_l; [apply fb_step_submit|]. apply rtc_once, fb_step_round.
Defined.
End LogWitness.
