(* ===== verification/Grpc.v ===== *)
(** * gRPC results

    A handler answers or fails with a status.  [Status] carries the code and the
    message; [served A] is [Result<A, Status>]. *)

From Stdlib Require Import ZArith Lia Strings.Byte.
From stdpp Require Import base numbers strings list.
From S2P Require Import Prelude RustStd.

Inductive Code :=
| CodeOk
| Cancelled
| Unknown
| InvalidArgument
| DeadlineExceeded
| NotFound
| AlreadyExists
| PermissionDenied
| ResourceExhausted
| FailedPrecondition
| Aborted
| OutOfRange
| Unimplemented
| Internal
| Unavailable
| DataLoss
| Unauthenticated.
#[export] Instance Code_eq_dec : EqDecision Code.
Proof. solve_decision. Defined.

Record Status := { st_code : Code; st_message : str }.
#[export] Instance Status_eq_dec : EqDecision Status.
Proof. solve_decision. Defined.

Inductive served (A : Type) :=
| Served (a : A)
| Refused (s : Status).
Arguments Served {A} a.
Arguments Refused {A} s.

#[export] Instance served_ret : MRet served := λ A a, Served a.
#[export] Instance served_bind : MBind served := λ A B f m,
  match m with Served a => f a | Refused s => Refused s end.

Definition invalid_argument {A} (msg : str) : served A :=
  Refused {| st_code := InvalidArgument; st_message := msg |}.
Definition resource_exhausted {A} (msg : str) : served A :=
  Refused {| st_code := ResourceExhausted; st_message := msg |}.

(** [for x in xs { f(x)?; }] and [iter().map(f).collect::<Result<Vec<_>, _>>()]. *)
Fixpoint check_each {A} (f : A → served unit) (xs : list A) : served unit :=
  match xs with [] => Served tt | x :: xs => f x;; check_each f xs end.
Fixpoint collect {A B} (f : A → served B) (xs : list A) : served (list B) :=
  match xs with [] => Served [] | x :: xs => y ← f x; ys ← collect f xs; Served (y :: ys) end.

Lemma check_each_ok {A} (f : A → served unit) xs :
  check_each f xs = Served tt ↔ ∀ x, x ∈ xs → f x = Served tt.
Proof.
  induction xs as [|x xs IH]; cbn [check_each].
  { split; [by intros _ x ?%not_elem_of_nil|done]. }
  unfold mbind, served_bind. split.
  - destruct (f x) as [[]|] eqn:Hx; [|done]. intros H y [->|Hy]%elem_of_cons; [done|by apply IH].
  - intros H. rewrite (H x) by by left. apply IH. intros y Hy. apply H. by right.
Qed.
Lemma collect_ok {A B} (f : A → served B) xs ys :
  collect f xs = Served ys ↔ Forall2 (λ x y, f x = Served y) xs ys.
Proof.
  revert ys. induction xs as [|x xs IH]; intros ys; cbn [collect].
  { split; [intros [= <-]; constructor|]. by inversion_clear 1. }
  unfold mbind, served_bind. split.
  - destruct (f x) as [y|] eqn:Hx; [|done]. destruct (collect f xs) as [ys'|] eqn:Hc; [|done].
    intros [= <-]. constructor; [done|by apply IH].
  - inversion_clear 1 as [|? y ? ys' Hx Hys]. rewrite Hx. apply IH in Hys. by rewrite Hys.
Qed.
