(* ===== verification/Proto.v ===== *)
(** * The wire messages ([proto/pathlockd.proto])

    Enums are [i32]s on the wire; [try_from] refuses the numbers the schema does
    not list.  Messages are records with the schema's fields; absent fields have
    the proto3 default. *)

From Stdlib Require Import ZArith Lia Strings.Byte.
From stdpp Require Import base numbers strings list.
From S2P Require Import Prelude RustStd.
Local Open Scope Z_scope.

Module Proto.

(** ** Enums *)

Inductive Mode := Write | Read.
Definition mode_i32 (m : Mode) : Z := match m with Write => 0 | Read => 1 end.
Definition mode_try_from (i : Z) : option Mode :=
  match i with 0 => Some Write | 1 => Some Read | _ => None end.

Inductive LockState := New | Held.
Definition state_i32 (s : LockState) : Z := match s with New => 0 | Held => 1 end.
Definition state_try_from (i : Z) : option LockState :=
  match i with 0 => Some New | 1 => Some Held | _ => None end.

Inductive LockAlgorithm := RecursiveRw | PointRw | RecursiveWrite | PointWrite | Semaphore.
Definition algorithm_i32 (a : LockAlgorithm) : Z :=
  match a with RecursiveRw => 0 | PointRw => 1 | RecursiveWrite => 2 | PointWrite => 3 | Semaphore => 4 end.
Definition algorithm_try_from (i : Z) : option LockAlgorithm :=
  match i with
  | 0 => Some RecursiveRw | 1 => Some PointRw | 2 => Some RecursiveWrite | 3 => Some PointWrite
  | 4 => Some Semaphore | _ => None
  end.

Inductive ReasonCode :=
| Unspecified | AncestorLocked | WriteLocked | ReadLocked | DescendantWriteLocked | DescendantReadLocked
| ReadLocksDisabled | StaleFencingToken | InvalidPermits | SemaphoreFull | MissingSemaphore | MissingWrite
| MissingRead | MissingFence | MissingAlive | MissingOwnerSet | EmptyOwnerSet | Queued | StaleOwner.
Definition reason_i32 (r : ReasonCode) : Z :=
  match r with
  | Unspecified => 0 | AncestorLocked => 1 | WriteLocked => 2 | ReadLocked => 3 | DescendantWriteLocked => 4
  | DescendantReadLocked => 5 | ReadLocksDisabled => 6 | StaleFencingToken => 7 | InvalidPermits => 8
  | SemaphoreFull => 9 | MissingSemaphore => 10 | MissingWrite => 11 | MissingRead => 12 | MissingFence => 13
  | MissingAlive => 14 | MissingOwnerSet => 15 | EmptyOwnerSet => 16 | Queued => 17 | StaleOwner => 18
  end.
Definition reason_try_from (i : Z) : option ReasonCode :=
  match i with
  | 0 => Some Unspecified | 1 => Some AncestorLocked | 2 => Some WriteLocked | 3 => Some ReadLocked
  | 4 => Some DescendantWriteLocked | 5 => Some DescendantReadLocked | 6 => Some ReadLocksDisabled
  | 7 => Some StaleFencingToken | 8 => Some InvalidPermits | 9 => Some SemaphoreFull
  | 10 => Some MissingSemaphore | 11 => Some MissingWrite | 12 => Some MissingRead | 13 => Some MissingFence
  | 14 => Some MissingAlive | 15 => Some MissingOwnerSet | 16 => Some EmptyOwnerSet | 17 => Some Queued
  | 18 => Some StaleOwner | _ => None
  end.

Inductive AcquireStatus := AcquireOk | AcquireConflict | AcquireLost | AcquireQueued.
Definition acquire_status_i32 (s : AcquireStatus) : Z :=
  match s with AcquireOk => 0 | AcquireConflict => 1 | AcquireLost => 2 | AcquireQueued => 3 end.
Inductive RenewStatus := RenewOk | RenewLost.
Definition renew_status_i32 (s : RenewStatus) : Z := match s with RenewOk => 0 | RenewLost => 1 end.
Inductive AssertStatus := AssertOk | AssertFail.
Definition assert_status_i32 (s : AssertStatus) : Z := match s with AssertOk => 0 | AssertFail => 1 end.
Inductive CycleKind := NoCycle | Found | Truncated.
Definition cycle_kind_i32 (k : CycleKind) : Z := match k with NoCycle => 0 | Found => 1 | Truncated => 2 end.
Inductive EventType := NoEvent | Killed | Revoke | Grant.
Definition event_type_i32 (t : EventType) : Z :=
  match t with NoEvent => 0 | Killed => 1 | Revoke => 2 | Grant => 3 end.
Definition event_type_try_from (i : Z) : option EventType :=
  match i with 0 => Some NoEvent | 1 => Some Killed | 2 => Some Revoke | 3 => Some Grant | _ => None end.

(** ** Messages *)

Record LockRequest := { lq_path : str; lq_mode : Z; lq_state : Z; lq_permits : Z }.
Record ReleaseRequest := { rq_path : str; rq_mode : Z }.
Record AcquireRequest := {
  aq_owner_id : str; aq_ttl_ms : Z; aq_requests : list LockRequest; aq_fencing_token : Z;
  aq_release_requests : list ReleaseRequest; aq_idempotency_key : str; aq_queue_ttl_ms : Z
}.
Record AcquireResponse := {
  ap_status : Z; ap_path : str; ap_owner : str; ap_reason : Z; ap_fencing_token : Z;
  ap_current_fencing_token : Z; ap_namespace : str
}.
Record SetNamespacePolicyRequest := { sq_namespace : str; sq_algorithm : Z; sq_idempotency_key : str }.
Record GetNamespacePolicyResponse := { gp_algorithm : Z; gp_explicit : bool }.
Record DeleteNamespacePolicyRequest := { dq_namespace : str; dq_idempotency_key : str }.
Record ReleaseLocksRequest := {
  lk_owner_id : str; lk_requests : list ReleaseRequest; lk_del_wait_key : bool; lk_idempotency_key : str
}.
Record ReleaseAllRequest := {
  ra_owner_id : str; ra_del_wait_key : bool; ra_idempotency_key : str; ra_domains : list str
}.
Record RenewRequest := { nq_owner_id : str; nq_ttl_ms : Z; nq_domains : list str; nq_idempotency_key : str }.
Record RenewResponse := { np_status : Z; np_path : str; np_reason : Z; np_revoke_requested : bool }.
Record ForceReleaseRequest := { fq_victim_id : str; fq_idempotency_key : str }.
Record AssertFencingRequest := { tq_owner_id : str; tq_fencing_token : Z; tq_paths : list str }.
Record AssertFencingResponse := { tp_status : Z; tp_path : str; tp_reason : Z }.
Record DetectCycleRequest := { cq_start_owner_id : str; cq_max_depth : Z }.
Record DetectCycleResponse := { cp_kind : Z; cp_chain : list str }.
Record IsBlockingRequest := { bq_conflict_path : str; bq_conflict_owner : str; bq_reason : Z }.
Record SetWaitEdgeRequest := {
  wq_owner_id : str; wq_conflict_owner : str; wq_ttl_ms : Z; wq_conflict_path : str; wq_reason : Z;
  wq_idempotency_key : str
}.
Record ClearWaitEdgeRequest := { xq_owner_id : str; xq_idempotency_key : str }.
Record IsOwnerAliveRequest := { vq_owner_id : str; vq_domains : list str }.
Record InspectPathResponse := {
  ip_write_owner : str; ip_read_owners : list str; ip_has_fence : bool; ip_fence : Z; ip_claim_owner : str;
  ip_semaphore_owners : list str
}.
Record ListOwnerLocksRequest := { oq_owner_id : str; oq_domains : list str }.
Record OwnedLock := { op_path : str; op_mode : Z }.
Record ListOwnerLocksResponse := { op_alive : bool; op_locks : list OwnedLock }.
Record DumpLocksRequest := { uq_cursor : bytes; uq_owner_page : Z }.
Record LockEntry := { ue_owner : str; ue_path : str; ue_mode : Z; ue_has_fence : bool; ue_fence : Z }.
Record DumpLocksResponse := { up_entries : list LockEntry; up_next_cursor : bytes; up_done : bool }.
Record HealthResponse := { hp_ok : bool; hp_detail : str }.
Record Event := { ev_type : Z; ev_owner_id : str }.
#[export] Instance Event_eq_dec : EqDecision Event.
Proof. solve_decision. Defined.

(** [..Default::default()] *)
Definition acquire_response (status : AcquireStatus) : AcquireResponse :=
  {| ap_status := acquire_status_i32 status; ap_path := []; ap_owner := []; ap_reason := 0;
     ap_fencing_token := 0; ap_current_fencing_token := 0; ap_namespace := [] |}.

Lemma mode_i32_roundtrip m : mode_try_from (mode_i32 m) = Some m.
Proof. by destruct m. Qed.
Lemma state_i32_roundtrip s : state_try_from (state_i32 s) = Some s.
Proof. by destruct s. Qed.
Lemma algorithm_i32_roundtrip a : algorithm_try_from (algorithm_i32 a) = Some a.
Proof. by destruct a. Qed.
Lemma reason_i32_roundtrip r : reason_try_from (reason_i32 r) = Some r.
Proof. by destruct r. Qed.
End Proto.
