(* ===== verification/EngineTypes.v ===== *)
(** * The engine's values: modes, algorithms, reasons, paths, wait edges
    ([src/engine.rs], the parts that touch no store)

    Data types with the source's constructors, their textual encodings, the
    namespace-scoped path encoding, the ancestor walk and the conflict relation
    on requests. *)

From Stdlib Require Import ZArith NArith Lia Strings.Byte.
From stdpp Require Import sorting countable base numbers gmap strings list.
From S2P Require Import Prelude RustStd StoreKeys.
Local Open Scope Z_scope.

(** ** Enumerations *)

Inductive Mode := Write | Read.
#[export] Instance Mode_eq_dec : EqDecision Mode.
Proof. solve_decision. Defined.

Definition mode_as_str (m : Mode) : str :=
  match m with Write => bs "write" | Read => bs "read" end.

Inductive LockAlgorithm := RecursiveRw | PointRw | RecursiveWrite | PointWrite | Semaphore.
#[export] Instance LockAlgorithm_eq_dec : EqDecision LockAlgorithm.
Proof. solve_decision. Defined.

Definition default_algorithm : LockAlgorithm := RecursiveRw.

Record AlgorithmStrategy := {
  as_allows_read : bool;
  as_recursive : bool;
  as_semaphore : bool
}.

Definition ALGORITHM_STRATEGIES : list (LockAlgorithm * AlgorithmStrategy) :=
  [(RecursiveRw, {| as_allows_read := true; as_recursive := true; as_semaphore := false |});
   (PointRw, {| as_allows_read := true; as_recursive := false; as_semaphore := false |});
   (RecursiveWrite, {| as_allows_read := false; as_recursive := true; as_semaphore := false |});
   (PointWrite, {| as_allows_read := false; as_recursive := false; as_semaphore := false |});
   (Semaphore, {| as_allows_read := false; as_recursive := false; as_semaphore := true |})].

(** [find_map] over the table; the [expect] of the source never fires
    ([algorithm_strategy_total]). *)
Fixpoint find_strategy (a : LockAlgorithm) (l : list (LockAlgorithm * AlgorithmStrategy))
    : option AlgorithmStrategy :=
  match l with
  | [] => None
  | (candidate, strategy) :: l =>
      if bool_decide (candidate = a) then Some strategy else find_strategy a l
  end.
Definition algorithm_strategy (a : LockAlgorithm) : AlgorithmStrategy :=
  default {| as_allows_read := false; as_recursive := false; as_semaphore := false |}
    (find_strategy a ALGORITHM_STRATEGIES).
Lemma algorithm_strategy_total a : find_strategy a ALGORITHM_STRATEGIES = Some (algorithm_strategy a).
Proof. by destruct a. Qed.

Definition allows_read (a : LockAlgorithm) : bool := as_allows_read (algorithm_strategy a).
Definition recursive (a : LockAlgorithm) : bool := as_recursive (algorithm_strategy a).
Definition is_semaphore (a : LockAlgorithm) : bool := as_semaphore (algorithm_strategy a).
Definition allows_mode (a : LockAlgorithm) (m : Mode) : bool :=
  bool_decide (m = Write) || allows_read a.

Definition algorithm_as_str (a : LockAlgorithm) : str :=
  match a with
  | RecursiveRw => bs "recursive_rw"
  | PointRw => bs "point_rw"
  | RecursiveWrite => bs "recursive_write"
  | PointWrite => bs "point_write"
  | Semaphore => bs "semaphore"
  end.

(** The first of the table's strings equal to [s]. *)
Fixpoint match_str {A} (s : str) (table : list (str * A)) : option A :=
  match table with
  | [] => None
  | (t, a) :: table => if bool_decide (s = t) then Some a else match_str s table
  end.

Definition algorithm_from_str (raw : str) : result LockAlgorithm :=
  let normalized := replace_chars [c_dash; c_space] c_underscore
                      (to_ascii_lowercase (trim raw)) in
  of_option "unknown lock algorithm"
    (match_str normalized
       [(bs "recursive_rw", RecursiveRw); (bs "point_rw", PointRw);
        (bs "recursive_write", RecursiveWrite); (bs "point_write", PointWrite);
        (bs "semaphore", Semaphore)]).

Inductive Reason :=
| AncestorLocked | WriteLocked | ReadLocked | DescendantWriteLocked
| DescendantReadLocked | ReadLocksDisabled | StaleFencingToken | InvalidPermits
| SemaphoreFull | MissingSemaphore | MissingWrite | MissingRead | MissingFence
| MissingAlive | MissingOwnerSet | EmptyOwnerSet | Queued | StaleOwner.
#[export] Instance Reason_eq_dec : EqDecision Reason.
Proof. solve_decision. Defined.

Definition reason_as_str (r : Reason) : str :=
  match r with
  | AncestorLocked => bs "ancestor_locked"
  | WriteLocked => bs "write_locked"
  | ReadLocked => bs "read_locked"
  | DescendantWriteLocked => bs "descendant_write_locked"
  | DescendantReadLocked => bs "descendant_read_locked"
  | ReadLocksDisabled => bs "read_locks_disabled"
  | StaleFencingToken => bs "stale_fencing_token"
  | InvalidPermits => bs "invalid_permits"
  | SemaphoreFull => bs "semaphore_full"
  | MissingSemaphore => bs "missing_semaphore"
  | MissingWrite => bs "missing_write"
  | MissingRead => bs "missing_read"
  | MissingFence => bs "missing_fence"
  | MissingAlive => bs "missing_alive"
  | MissingOwnerSet => bs "missing_owner_set"
  | EmptyOwnerSet => bs "empty_owner_set"
  | Queued => bs "queued"
  | StaleOwner => bs "stale_owner"
  end.

Definition is_queueable (r : Reason) : bool :=
  match r with
  | WriteLocked | ReadLocked | AncestorLocked | DescendantWriteLocked
  | DescendantReadLocked | SemaphoreFull => true
  | _ => false
  end.
Definition is_blocking_reason (r : Reason) : bool :=
  match r with
  | AncestorLocked | WriteLocked | ReadLocked | DescendantWriteLocked
  | DescendantReadLocked | SemaphoreFull => true
  | _ => false
  end.

Definition reason_from_str (raw : str) : result Reason :=
  of_option "unknown reason"
    (match_str (trim raw)
       [(bs "ancestor_locked", AncestorLocked); (bs "write_locked", WriteLocked);
        (bs "read_locked", ReadLocked);
        (bs "descendant_write_locked", DescendantWriteLocked);
        (bs "descendant_read_locked", DescendantReadLocked);
        (bs "read_locks_disabled", ReadLocksDisabled);
        (bs "stale_fencing_token", StaleFencingToken);
        (bs "invalid_permits", InvalidPermits); (bs "semaphore_full", SemaphoreFull);
        (bs "missing_semaphore", MissingSemaphore); (bs "missing_write", MissingWrite);
        (bs "missing_read", MissingRead); (bs "missing_fence", MissingFence);
        (bs "missing_alive", MissingAlive); (bs "missing_owner_set", MissingOwnerSet);
        (bs "empty_owner_set", EmptyOwnerSet); (bs "queued", Queued);
        (bs "stale_owner", StaleOwner)]).

Inductive State := New | Held.
#[export] Instance State_eq_dec : EqDecision State.
Proof. solve_decision. Defined.

(** ** Requests and outcomes *)

Record LockReq := { lr_path : str; lr_mode : Mode; lr_state : State; lr_permits : Z }.
Record RelReq := { rel_path : str; rel_mode : Mode }.
Record AcquireArgs := {
  owner_id : str;
  ttl_ms : Z;
  requests : list LockReq;
  fencing_token : Z;
  release_requests : list RelReq;
  queue_ttl_ms : Z
}.
#[export] Instance LockReq_eq_dec : EqDecision LockReq.
Proof. solve_decision. Defined.
#[export] Instance RelReq_eq_dec : EqDecision RelReq.
Proof. solve_decision. Defined.
#[export] Instance AcquireArgs_eq_dec : EqDecision AcquireArgs.
Proof. solve_decision. Defined.

Inductive AcquireOutcome :=
| AcquireOk (fencing_token : Z)
| Conflict (path owner : str) (reason : Reason)
| Lost (path : str) (reason : Reason)
| AcquireQueued (path owner : str) (reason : Reason) (fencing_token : Z).
Inductive RenewOutcome :=
| RenewOk (revoke_requested : bool)
| RenewLost (path : str) (reason : Reason).
Inductive AssertOutcome :=
| AssertOk
| AssertFail (path : str) (reason : Reason).
#[export] Instance AcquireOutcome_eq_dec : EqDecision AcquireOutcome.
Proof. solve_decision. Defined.
#[export] Instance RenewOutcome_eq_dec : EqDecision RenewOutcome.
Proof. solve_decision. Defined.
#[export] Instance AssertOutcome_eq_dec : EqDecision AssertOutcome.
Proof. solve_decision. Defined.

Record LockPolicy := { algorithm : LockAlgorithm; epoch : Z }.
#[export] Instance LockPolicy_eq_dec : EqDecision LockPolicy.
Proof. solve_decision. Defined.
Definition from_algorithm (a : LockAlgorithm) : LockPolicy := {| algorithm := a; epoch := 0 |}.

Definition parse_namespace_policy_value (raw : str) : result LockPolicy :=
  match splitn 2 c_colon raw with
  | e :: rest =>
      match parse_u64 e with
      | None => Err (Anyhow "invalid epoch")
      | Some epoch =>
          match rest with
          | [] => Err (Anyhow "malformed namespace policy record")
          | a :: _ =>
              match algorithm_from_str a with
              | Ok algorithm => Ok {| algorithm := algorithm; epoch := epoch |}
              | Err e => Err e
              end
          end
      end
  | [] => Err (Anyhow "malformed namespace policy record")
  end.
Definition namespace_policy_value (p : LockPolicy) : str :=
  to_string (epoch p) ++ c_colon :: algorithm_as_str (algorithm p).

(** ** Namespace-scoped paths *)

Definition SCOPED_PATH_SEP : byte := x1f.
Definition slash : str := [c_slash].

Definition relative_path (namespace path : str) : str :=
  if negb (contains c_colon namespace) then
    match find c_colon path with
    | None => path
    | Some colon => drop (colon + 1) path
    end
  else if bool_decide (path = namespace) then slash
  else if ends_with (bs ":/") namespace then
    let suffix := default [] (strip_prefix namespace path) in
    match suffix with
    | [] => slash
    | _ => slash ++ suffix
    end
  else
    match strip_prefix namespace path with
    | Some rest => if starts_with slash rest then rest else path
    | None => path
    end.

Definition scoped_path (namespace path : str) : str :=
  namespace ++ SCOPED_PATH_SEP :: relative_path namespace path.

(** A namespace without the separator is the part of a scoped path before it. *)
Definition sep_free (s : str) : Prop := SCOPED_PATH_SEP ∉ s.
#[export] Instance sep_free_dec s : Decision (sep_free s).
Proof. unfold sep_free. apply _. Defined.
Definition namespace_of (p : str) : str :=
  match split_once SCOPED_PATH_SEP p with Some (ns, _) => ns | None => p end.
Lemma namespace_of_scoped ns path : sep_free ns → namespace_of (scoped_path ns path) = ns.
Proof. intros H. unfold namespace_of, scoped_path. by rewrite split_once_app. Qed.

Definition public_path (namespace path : str) : str :=
  match split_once SCOPED_PATH_SEP path with
  | None => path
  | Some (_, rel) =>
      if bool_decide (rel = slash) then
        if contains c_colon namespace then namespace else namespace ++ bs ":/"
      else if contains c_colon namespace then
        if ends_with (bs ":/") namespace then namespace ++ trim_start_matches c_slash rel
        else namespace ++ rel
      else namespace ++ c_colon :: rel
  end.

Record HeldLock := { hl_namespace : str; hl_mode : Mode; hl_path : str }.

Definition member (h : HeldLock) : str :=
  mode_as_str (hl_mode h) ++ NUL :: hl_namespace h ++ NUL :: hl_path h.
Definition key_path (h : HeldLock) : str := scoped_path (hl_namespace h) (hl_path h).

Definition parse_hold_member (m : str) : option HeldLock :=
  match splitn 3 NUL m with
  | [mode; ns; path] =>
      match match_str mode [(bs "write", Write); (bs "read", Read)] with
      | Some mode => Some {| hl_namespace := ns; hl_mode := mode; hl_path := path |}
      | None => None
      end
  | _ => None
  end.
Definition hold_member (namespace : str) (mode : Mode) (path : str) : str :=
  member {| hl_namespace := namespace; hl_mode := mode; hl_path := path |}.

(** ** Ancestors *)

(** The [while] loop that walks a path up to the root; every round shortens
    [current], so its length is enough fuel. *)
Fixpoint ancestor_loop (fuel : nat) (pre current : str) : list str :=
  match fuel with
  | O => []
  | S fuel =>
      if bool_decide (current = slash) || bool_decide (current = []) then []
      else
        match rfind c_slash current with
        | None => []
        | Some idx =>
            let current := if (idx =? 0)%nat then slash else take idx current in
            (pre ++ current) ::
            (if bool_decide (current = slash) then [] else ancestor_loop fuel pre current)
        end
  end.
Definition ancestors_from (pre path : str) : list str := ancestor_loop (length path) pre path.

Definition get_ancestors (full_path : str) : list str :=
  match split_once SCOPED_PATH_SEP full_path with
  | Some (namespace, relative) => ancestors_from (namespace ++ [SCOPED_PATH_SEP]) relative
  | None =>
      match find c_colon full_path with
      | None => []
      | Some col_idx =>
          ancestors_from (take (S col_idx) full_path) (drop (col_idx + 1) full_path)
      end
  end.

Definition is_strict_ancestor (anc desc : str) : bool :=
  bool_decide (anc ∈ get_ancestors desc).

Definition locks_conflict (a_algorithm : LockAlgorithm) (a_path : str) (a_mode : Mode)
    (b_algorithm : LockAlgorithm) (b_path : str) (b_mode : Mode) : bool :=
  if negb (allows_mode a_algorithm a_mode) || negb (allows_mode b_algorithm b_mode) then false
  else if bool_decide (a_path = b_path) then
    bool_decide (a_mode = Write) || bool_decide (b_mode = Write)
  else if is_strict_ancestor a_path b_path then
    bool_decide (a_mode = Write) && recursive a_algorithm
  else if is_strict_ancestor b_path a_path then
    bool_decide (b_mode = Write) && recursive b_algorithm
  else false.

(** ** Wait edges *)

Record WaitEdgeMetadata := { conflict_path : str; reason : Reason }.
Record WaitEdge := { conflict_owner : str; metadata : option WaitEdgeMetadata }.

Definition WAIT_EDGE_V1_PREFIX : str := bs "v1:".

Definition encode_wait_edge (conflict_owner : str) (metadata : option WaitEdgeMetadata) : str :=
  match metadata with
  | None => conflict_owner
  | Some md =>
      let r := reason_as_str (reason md) in
      WAIT_EDGE_V1_PREFIX ++
      to_string (len conflict_owner) ++ c_colon ::
      to_string (len (conflict_path md)) ++ c_colon ::
      to_string (len r) ++ c_colon ::
      conflict_owner ++ conflict_path md ++ r
  end.

Definition parse_len_field (input : str) : option (Z * str) :=
  match split_once c_colon input with
  | None => None
  | Some (l, rest) =>
      match l with
      | [] => None
      | _ => match parse_usize l with Some n => Some (n, rest) | None => None end
      end
  end.

Definition checked_add_usize (a b : Z) : option Z :=
  if a + b <=? u64_max then Some (a + b) else None.

Definition parse_wait_edge (raw : str) : result WaitEdge :=
  match strip_prefix WAIT_EDGE_V1_PREFIX raw with
  | None => Ok {| conflict_owner := raw; metadata := None |}
  | Some rest =>
      match parse_len_field rest with
      | None => Err (Anyhow "malformed wait edge: missing owner length")
      | Some (owner_len, rest) =>
      match parse_len_field rest with
      | None => Err (Anyhow "malformed wait edge: missing path length")
      | Some (path_len, rest) =>
      match parse_len_field rest with
      | None => Err (Anyhow "malformed wait edge: missing reason length")
      | Some (reason_len, payload) =>
          let total_len := match checked_add_usize owner_len path_len with
                           | Some v => checked_add_usize v reason_len
                           | None => None
                           end in
          if negb (bool_decide (total_len = Some (len payload)))
          then Err (Anyhow "malformed wait edge: payload length mismatch")
          else
            let owner_end := Z.to_nat owner_len in
            let path_end := (owner_end + Z.to_nat path_len)%nat in
            match get_slice payload 0 owner_end with
            | None => Err (Anyhow "malformed wait edge: owner slice out of bounds")
            | Some owner =>
            match get_slice payload owner_end path_end with
            | None => Err (Anyhow "malformed wait edge: path slice out of bounds")
            | Some path =>
            match get_slice payload path_end (length payload) with
            | None => Err (Anyhow "malformed wait edge: reason slice out of bounds")
            | Some r =>
                match reason_from_str r with
                | Ok r => Ok {| conflict_owner := owner;
                                metadata := Some {| conflict_path := path; reason := r |} |}
                | Err e => Err e
                end
            end end end
      end end end
  end.

Definition parse_fence (v : option str) : option Z :=
  match v with Some s => parse_i64 s | None => None end.
