(* ===== verification/Validate.v ===== *)
(** * Request validation ([src/service.rs]): checks and conversions

    What a request must satisfy before the router sees it, and the conversions
    between the wire's enums and the engine's types. *)

From Stdlib Require Import ZArith Lia Strings.Byte.
From stdpp Require Import base numbers strings list sets.
From S2P Require Import Prelude RustStd StoreKeys Grpc Proto EngineTypes.
Local Open Scope Z_scope.

Definition MAX_TTL_MS : Z := 7 * 86400000.
Definition MAX_ID_LEN : Z := 1024.
Definition MAX_PATH_LEN : Z := 4096.
Definition MAX_PATH_SEGMENTS : Z := 256.
Definition MAX_PATHS_PER_REQUEST : Z := 1024.
Definition MAX_PATHS_PER_STREAMED_ACQUIRE : Z := 65536.
Definition MAX_STREAMED_ACQUIRE_BYTES : Z := 4 * 1024 * 1024.
Definition MAX_RENEW_DOMAINS : Z := 1024.
Definition MAX_CYCLE_DEPTH : Z := 64.
Definition DEFAULT_DUMP_OWNER_PAGE : Z := 64.
Definition MAX_DUMP_OWNER_PAGE : Z := 512.

(** ** Checks *)

Definition check_id (label id : str) : served unit :=
  if bool_decide (id = []) then invalid_argument (label ++ bs " must not be empty")
  else if MAX_ID_LEN <? len id
  then invalid_argument (label ++ bs " too long (max " ++ to_string MAX_ID_LEN ++ bs " bytes)")
  else if contains NUL id then invalid_argument (label ++ bs " must not contain NUL bytes")
  else Served tt.

Definition idempotency_key (key : str) : served (option str) :=
  if bool_decide (key = []) then Served None
  else if MAX_ID_LEN <? len key
  then invalid_argument (bs "idempotency_key too long (max " ++ to_string MAX_ID_LEN ++ bs " bytes)")
  else if contains NUL key then invalid_argument (bs "idempotency_key must not contain NUL bytes")
  else Served (Some key).

Definition check_ttl (ttl_ms : Z) : served unit :=
  if ttl_ms =? 0 then invalid_argument (bs "ttl_ms must be > 0")
  else if MAX_TTL_MS <? ttl_ms
  then invalid_argument (bs "ttl_ms too large (max " ++ to_string MAX_TTL_MS ++ bs " ms)")
  else Served tt.

Definition check_queue_ttl (ttl_ms : Z) : served unit :=
  if MAX_TTL_MS <? ttl_ms
  then invalid_argument (bs "queue_ttl_ms too large (max " ++ to_string MAX_TTL_MS ++ bs " ms)")
  else Served tt.

(** The loop over the segments, [segments] of which it has counted. *)
Fixpoint check_segments (path : str) (segments : Z) (segs : list str) : served unit :=
  match segs with
  | [] => Served tt
  | seg :: segs =>
      let segments := segments + 1 in
      if MAX_PATH_SEGMENTS <? segments
      then invalid_argument (bs "normalized path has too many segments (max "
             ++ to_string MAX_PATH_SEGMENTS ++ bs "): " ++ path)
      else if bool_decide (seg = [])
      then invalid_argument (bs "normalized path has an empty segment ('//'): " ++ path)
      else if bool_decide (seg = bs ".") || bool_decide (seg = bs "..")
      then invalid_argument (bs "normalized path has a '.'/'..' segment: " ++ path)
      else check_segments path segments segs
  end.
Definition c_quote : byte := x22.
Definition check_path (path : str) : served unit :=
  if bool_decide (path = []) || (MAX_PATH_LEN <? len path)
  then invalid_argument (bs "path empty or too long")
  else if contains NUL path || contains SCOPED_PATH_SEP path
  then invalid_argument (bs "path contains a reserved control character")
  else
    match find c_colon path with
    | None => invalid_argument (bs "path must be " ++ [c_quote] ++ bs "<handler>:<normalizedPath>"
                ++ [c_quote] ++ bs ": " ++ path)
    | Some colon =>
        let handler := take colon path in
        let p := drop (colon + 1) path in
        if bool_decide (handler = []) || contains c_slash handler
        then invalid_argument (bs "path has an empty or invalid handler: " ++ path)
        else if negb (starts_with slash p)
        then invalid_argument (bs "normalized path must start with '/': " ++ path)
        else if bool_decide (p = slash) then Served tt
        else if ends_with slash p
        then invalid_argument (bs "normalized path must not end with '/': " ++ path)
        else check_segments path 0 (split c_slash (drop 1 p))
    end.

Definition check_namespace (namespace : str) : served unit :=
  if bool_decide (namespace = []) then invalid_argument (bs "namespace must be non-empty")
  else if contains NUL namespace || contains SCOPED_PATH_SEP namespace
  then invalid_argument (bs "namespace contains a reserved control character")
  else if contains c_colon namespace then
    if MAX_PATH_LEN <? len namespace
    then invalid_argument (bs "path namespace too long (max " ++ to_string MAX_PATH_LEN ++ bs " bytes)")
    else check_path namespace
  else if MAX_ID_LEN <? len namespace
  then invalid_argument (bs "handler namespace too long (max " ++ to_string MAX_ID_LEN ++ bs " bytes)")
  else if contains c_slash namespace
  then invalid_argument (bs "handler namespace must not contain '/': " ++ namespace)
  else Served tt.

Definition check_domains (domains : list str) : served unit :=
  if MAX_RENEW_DOMAINS <? len domains
  then invalid_argument (bs "too many domains (max " ++ to_string MAX_RENEW_DOMAINS ++ bs ")")
  else check_each check_namespace domains.

Definition check_blocking_reason (reason : Reason) : served unit :=
  if is_blocking_reason reason then Served tt
  else invalid_argument (bs "reason " ++ reason_as_str reason ++ bs " is not a blocking reason").

Definition check_write_fencing_token (fencing_token : Z) : served unit :=
  if fencing_token <=? 0 then invalid_argument (bs "fencing_token must be > 0") else Served tt.

Definition validate_peer_event (ev : Proto.Event) : served unit :=
  check_id (bs "event.owner_id") (Proto.ev_owner_id ev);;
  match Proto.event_type_try_from (Proto.ev_type ev) with
  | Some Proto.NoEvent => invalid_argument (bs "event type unspecified")
  | Some _ => Served tt
  | None => invalid_argument (bs "invalid event type value " ++ to_string (Proto.ev_type ev))
  end.

(** ** Conversions *)

Definition to_mode (i : Z) : served Mode :=
  match Proto.mode_try_from i with
  | Some Proto.Read => Served Read
  | Some Proto.Write => Served Write
  | None => invalid_argument (bs "invalid mode value " ++ to_string i)
  end.
Definition mode_to_proto (mode : Mode) : Z :=
  match mode with Write => Proto.mode_i32 Proto.Write | Read => Proto.mode_i32 Proto.Read end.

Definition to_algorithm (i : Z) : served LockAlgorithm :=
  match Proto.algorithm_try_from i with
  | Some Proto.RecursiveRw => Served RecursiveRw
  | Some Proto.PointRw => Served PointRw
  | Some Proto.RecursiveWrite => Served RecursiveWrite
  | Some Proto.PointWrite => Served PointWrite
  | Some Proto.Semaphore => Served Semaphore
  | None => invalid_argument (bs "invalid lock algorithm value " ++ to_string i)
  end.
Definition algorithm_to_proto (algorithm : LockAlgorithm) : Z :=
  Proto.algorithm_i32 match algorithm with
    | RecursiveRw => Proto.RecursiveRw
    | PointRw => Proto.PointRw
    | RecursiveWrite => Proto.RecursiveWrite
    | PointWrite => Proto.PointWrite
    | Semaphore => Proto.Semaphore
    end.

Definition to_reason (i : Z) : served Reason :=
  match Proto.reason_try_from i with
  | Some Proto.AncestorLocked => Served AncestorLocked
  | Some Proto.WriteLocked => Served WriteLocked
  | Some Proto.ReadLocked => Served ReadLocked
  | Some Proto.DescendantWriteLocked => Served DescendantWriteLocked
  | Some Proto.DescendantReadLocked => Served DescendantReadLocked
  | Some Proto.ReadLocksDisabled => Served ReadLocksDisabled
  | Some Proto.StaleFencingToken => Served StaleFencingToken
  | Some Proto.InvalidPermits => Served InvalidPermits
  | Some Proto.SemaphoreFull => Served SemaphoreFull
  | Some Proto.MissingSemaphore => Served MissingSemaphore
  | Some Proto.MissingWrite => Served MissingWrite
  | Some Proto.MissingRead => Served MissingRead
  | Some Proto.MissingFence => Served MissingFence
  | Some Proto.MissingAlive => Served MissingAlive
  | Some Proto.MissingOwnerSet => Served MissingOwnerSet
  | Some Proto.EmptyOwnerSet => Served EmptyOwnerSet
  | Some Proto.Queued => Served Queued
  | Some Proto.StaleOwner => Served StaleOwner
  | Some Proto.Unspecified => invalid_argument (bs "reason unspecified")
  | None => invalid_argument (bs "invalid reason value " ++ to_string i)
  end.
Definition reason_to_proto (reason : Reason) : Z :=
  Proto.reason_i32 match reason with
    | AncestorLocked => Proto.AncestorLocked
    | WriteLocked => Proto.WriteLocked
    | ReadLocked => Proto.ReadLocked
    | DescendantWriteLocked => Proto.DescendantWriteLocked
    | DescendantReadLocked => Proto.DescendantReadLocked
    | ReadLocksDisabled => Proto.ReadLocksDisabled
    | StaleFencingToken => Proto.StaleFencingToken
    | InvalidPermits => Proto.InvalidPermits
    | SemaphoreFull => Proto.SemaphoreFull
    | MissingSemaphore => Proto.MissingSemaphore
    | MissingWrite => Proto.MissingWrite
    | MissingRead => Proto.MissingRead
    | MissingFence => Proto.MissingFence
    | MissingAlive => Proto.MissingAlive
    | MissingOwnerSet => Proto.MissingOwnerSet
    | EmptyOwnerSet => Proto.EmptyOwnerSet
    | Queued => Proto.Queued
    | StaleOwner => Proto.StaleOwner
    end.

Definition to_state (i : Z) : served State :=
  match Proto.state_try_from i with
  | Some Proto.Held => Served Held
  | Some Proto.New => Served New
  | None => invalid_argument (bs "invalid lock state value " ++ to_string i)
  end.

(** The requests of a call, checked and converted. *)
Definition to_lock_req (r : Proto.LockRequest) : served LockReq :=
  mode ← to_mode (Proto.lq_mode r);
  state ← to_state (Proto.lq_state r);
  Served {| lr_path := Proto.lq_path r; lr_mode := mode; lr_state := state; lr_permits := Proto.lq_permits r |}.
Definition to_rel_req (r : Proto.ReleaseRequest) : served RelReq :=
  mode ← to_mode (Proto.rq_mode r);
  Served {| rel_path := Proto.rq_path r; rel_mode := mode |}.

(** ** What passes *)

Definition valid_id (id : str) : Prop := id ≠ [] ∧ len id ≤ MAX_ID_LEN ∧ nul_free id.

Lemma contains_false c s : contains c s = false ↔ c ∉ s.
Proof. unfold contains. apply bool_decide_eq_false. Qed.
Lemma check_id_ok label id : check_id label id = Served tt ↔ valid_id id.
Proof.
  unfold check_id, valid_id, invalid_argument. case_bool_decide; [naive_solver|].
  destruct (Z.ltb_spec MAX_ID_LEN (len id)); [split; [done|lia]|].
  destruct (contains NUL id) eqn:Hn.
  - apply contains_spec in Hn. split; [done|]. by intros (_ & _ & ?).
  - apply contains_false in Hn. split; [|done]. intros _. split_and!; [done|lia|done].
Qed.
Lemma idempotency_key_ok key k :
  idempotency_key key = Served k → k = (if bool_decide (key = []) then None else Some key).
Proof.
  unfold idempotency_key, invalid_argument. case_bool_decide; [by intros [= <-]|].
  destruct (_ <? _); [done|]. destruct (contains _ _); [done|]. by intros [= <-].
Qed.
Lemma check_ttl_ok ttl : check_ttl ttl = Served tt ↔ ttl ≠ 0 ∧ ttl ≤ MAX_TTL_MS.
Proof.
  unfold check_ttl, invalid_argument. destruct (Z.eqb_spec ttl 0), (Z.ltb_spec MAX_TTL_MS ttl); naive_solver lia.
Qed.
Lemma check_queue_ttl_ok ttl : check_queue_ttl ttl = Served tt ↔ ttl ≤ MAX_TTL_MS.
Proof. unfold check_queue_ttl, invalid_argument. destruct (Z.ltb_spec MAX_TTL_MS ttl); naive_solver lia. Qed.

(** A path is a handler and a list of segments. *)
Definition segment_ok (seg : str) : Prop := seg ≠ [] ∧ seg ≠ bs "." ∧ seg ≠ bs ".." ∧ c_slash ∉ seg.
Fixpoint join (segs : list str) : str :=
  match segs with [] => [] | [seg] => seg | seg :: segs => seg ++ c_slash :: join segs end.
Definition path_of (handler : str) (segs : list str) : str := handler ++ c_colon :: c_slash :: join segs.
Definition handler_ok (handler : str) : Prop := handler ≠ [] ∧ c_slash ∉ handler ∧ c_colon ∉ handler.
Definition canonical (path : str) : Prop :=
  len path ≤ MAX_PATH_LEN ∧ nul_free path ∧ sep_free path ∧
  ∃ handler segs, path = path_of handler segs ∧ handler_ok handler ∧ Forall segment_ok segs ∧
    len segs ≤ MAX_PATH_SEGMENTS.

Lemma split_not_nil c s : split c s ≠ [].
Proof. destruct s as [|x s]; cbn; [done|]. case_decide; [done|]. by destruct (split c s). Qed.
Lemma join_split s : join (split c_slash s) = s.
Proof.
  induction s as [|x s IH]; cbn [split]; [done|]. pose proof (split_not_nil c_slash s).
  case_decide as Hx; destruct (split c_slash s) as [|seg segs]; [done| |done|].
  - subst x. change (join ([] :: seg :: segs)) with (c_slash :: join (seg :: segs)). by rewrite IH.
  - rewrite <- IH. by destruct segs.
Qed.
Lemma split_piece seg : c_slash ∉ seg → split c_slash seg = [seg].
Proof.
  induction seg as [|x seg IH]; intros Hs; [done|]. apply not_elem_of_cons in Hs as [Hx Hs].
  cbn. rewrite decide_False by done. by rewrite IH.
Qed.
Lemma split_cons seg rest : c_slash ∉ seg → split c_slash (seg ++ c_slash :: rest) = seg :: split c_slash rest.
Proof.
  induction seg as [|x seg IH]; intros Hs; cbn; [done|].
  apply not_elem_of_cons in Hs as [Hx Hs]. rewrite decide_False by done. by rewrite IH.
Qed.
Lemma split_join segs : segs ≠ [] → Forall (λ seg, c_slash ∉ seg) segs → split c_slash (join segs) = segs.
Proof.
  intros Hne Hall. induction Hall as [|seg segs Hs Hall IH]; [done|]. destruct segs as [|seg' segs].
  - by apply split_piece.
  - change (join (seg :: seg' :: segs)) with (seg ++ c_slash :: join (seg' :: segs)).
    rewrite split_cons by done. by rewrite IH.
Qed.
Lemma split_pieces s seg : seg ∈ split c_slash s → c_slash ∉ seg.
Proof.
  revert seg. induction s as [|x s IH]; intros seg; cbn [split].
  { intros ->%list_elem_of_singleton. apply not_elem_of_nil. }
  case_decide as Hx.
  { intros [->|Hin]%elem_of_cons; [apply not_elem_of_nil|by apply IH]. }
  destruct (split c_slash s) as [|piece pieces].
  { intros ->%list_elem_of_singleton ?%list_elem_of_singleton. congruence. }
  intros [->|Hin]%elem_of_cons; [|apply IH; by right].
  apply not_elem_of_cons. split; [done|]. apply IH. by left.
Qed.

Lemma check_segments_ok path n segs :
  check_segments path n segs = Served tt ↔
  Forall (λ seg, seg ≠ [] ∧ seg ≠ bs "." ∧ seg ≠ bs "..") segs ∧ (segs ≠ [] → n + len segs ≤ MAX_PATH_SEGMENTS).
Proof.
  revert n. induction segs as [|seg segs IH]; intros n; cbn [check_segments]; [naive_solver|].
  cbv zeta. rewrite Forall_cons.
  assert (len (seg :: segs) = 1 + len segs) as Hlen by (unfold len; simpl; lia). rewrite Hlen.
  assert (0 ≤ len segs) by (unfold len; lia).
  destruct (Z.ltb_spec MAX_PATH_SEGMENTS (n + 1)); [split; [done|]; intros [_ Hn]; specialize (Hn ltac:(done)); lia|].
  case_bool_decide; [naive_solver|]. do 2 (case_bool_decide; [naive_solver|]). cbn [orb]. rewrite IH.
  assert (segs = [] → len segs = 0) by (by intros ->). split; [intros [? Hl]|intros [[_ ?] Hl]]; split_and!; try done.
  - intros _. destruct (decide (segs = [])) as [->|]; [change (len (A:=str) []) with 0|specialize (Hl ltac:(done))]; lia.
  - intros _. specialize (Hl ltac:(done)). lia.
Qed.

Lemma segments_exact rest path :
  check_segments path 0 (split c_slash rest) = Served tt ↔
  ∃ segs, segs ≠ [] ∧ rest = join segs ∧ Forall segment_ok segs ∧ len segs ≤ MAX_PATH_SEGMENTS.
Proof.
  rewrite check_segments_ok. pose proof (split_not_nil c_slash rest) as Hne. split.
  - intros [Hall Hlen]. exists (split c_slash rest). rewrite join_split. split_and!; [done|done| |by apply Hlen].
    rewrite Forall_forall in Hall |- *. intros seg Hin. destruct (Hall seg Hin) as (? & ? & ?).
    split_and!; [done|done|done|by eapply split_pieces].
  - intros (segs & Hsegs & -> & Hall & Hlen). rewrite split_join; [|done|].
    + split; [|done]. eapply Forall_impl; [exact Hall|]. by intros seg (? & ? & ? & _).
    + eapply Forall_impl; [exact Hall|]. by intros seg (_ & _ & _ & ?).
Qed.
Lemma join_last segs : segs ≠ [] → Forall segment_ok segs → ∃ pre seg, join segs = pre ++ seg ∧ segment_ok seg.
Proof.
  intros Hne Hall. induction Hall as [|seg segs Hs Hall IH]; [done|]. destruct segs as [|seg' segs].
  - by exists [], seg.
  - destruct IH as (pre & last & Heq & Hl); [done|]. exists (seg ++ c_slash :: pre), last.
    change (join (seg :: seg' :: segs)) with (seg ++ c_slash :: join (seg' :: segs)).
    by rewrite Heq, <- app_assoc.
Qed.
Lemma join_no_slash_end segs :
  segs ≠ [] → Forall segment_ok segs → ends_with slash (c_slash :: join segs) = false ∧ join segs ≠ [].
Proof.
  intros Hne Hall. destruct (join_last segs Hne Hall) as (pre & seg & -> & Hs & _ & _ & Hsl).
  destruct seg as [|y seg _] using rev_ind; [done|]. split; [|by destruct pre, seg].
  apply not_true_is_false. unfold ends_with. rewrite starts_with_spec. intros [r Hr].
  rewrite app_assoc, app_comm_cons, reverse_snoc in Hr. cbn in Hr. injection Hr as Hr _. subst y.
  apply Hsl. set_solver.
Qed.

Definition body_ok (p : str) : Prop :=
  ∃ segs, p = c_slash :: join segs ∧ Forall segment_ok segs ∧ len segs ≤ MAX_PATH_SEGMENTS.

(** Handler and segments of a path are unique. *)
Lemma canonical_split handler p :
  c_colon ∉ handler →
  (∃ h segs, handler ++ c_colon :: p = path_of h segs ∧ handler_ok h ∧ Forall segment_ok segs ∧
     len segs ≤ MAX_PATH_SEGMENTS) ↔
  handler ≠ [] ∧ c_slash ∉ handler ∧ body_ok p.
Proof.
  intros Hc. split.
  - intros (h & segs & Heq & (? & ? & ?) & ? & ?). apply sep_inj in Heq as [-> ->]; [|done..].
    split_and!; [done|done|]. by exists segs.
  - intros (? & ? & segs & -> & ? & ?). by exists handler, segs.
Qed.
Lemma body_exact path p :
  starts_with slash p = true →
  (if bool_decide (p = slash) then Served tt
   else if ends_with slash p then invalid_argument (bs "normalized path must not end with '/': " ++ path)
   else check_segments path 0 (split c_slash (drop 1 p))) = Served tt ↔ body_ok p.
Proof.
  intros [rest ->]%starts_with_spec. cbn [slash app drop]. rewrite drop_0. case_bool_decide as Hroot.
  { injection Hroot as ->. split; [|done]. intros _. exists []. split_and!; [done|by constructor|done]. }
  assert (rest ≠ []) as Hne by (intros ->; by apply Hroot).
  destruct (ends_with slash (c_slash :: rest)) eqn:He.
  - split; [done|]. intros (segs & [= ->] & Hall & _). destruct (decide (segs = [])) as [->|Hs]; [done|].
    destruct (join_no_slash_end segs Hs Hall) as [? _]. congruence.
  - rewrite segments_exact. split; [intros (segs & _ & -> & ?); by exists segs|].
    intros (segs & [= ->] & ? & ?). exists segs. split_and!; [by intros ->|done..].
Qed.

(** The paths that pass are the canonical ones. *)
Lemma check_path_exact path : check_path path = Served tt ↔ canonical path.
Proof.
  unfold check_path, canonical. case_bool_decide as Hne.
  { subst. split; [done|]. intros (_ & _ & _ & h & segs & Heq & _). by destruct h. }
  destruct (Z.ltb_spec MAX_PATH_LEN (len path)); [split; [done|lia]|]. cbn [orb].
  destruct (contains NUL path) eqn:Hn; [apply contains_spec in Hn; split; [done|naive_solver]|].
  destruct (contains SCOPED_PATH_SEP path) eqn:Hs; [apply contains_spec in Hs; split; [done|naive_solver]|].
  apply contains_false in Hn, Hs. cbn [orb]. unfold find.
  destruct (split_once c_colon path) as [[handler p]|] eqn:Hc.
  2: { apply split_once_None in Hc. split; [done|]. intros (_ & _ & _ & h & segs & -> & _). destruct Hc.
       unfold path_of. set_solver. }
  apply split_once_Some in Hc as [-> Hcolon]. cbv zeta.
  rewrite take_app_length. replace (drop (length handler + 1) (handler ++ c_colon :: p)) with p
    by (rewrite drop_app_add; done).
  rewrite (canonical_split handler p Hcolon).
  case_bool_decide; [naive_solver|]. destruct (contains c_slash handler) eqn:Hsl; cbn [orb].
  { apply contains_spec in Hsl. naive_solver. }
  apply contains_false in Hsl. destruct (starts_with slash p) eqn:Hst; cbn [negb].
  - rewrite (body_exact _ p Hst). naive_solver lia.
  - split; [done|]. intros (_ & _ & _ & _ & _ & segs & -> & _). exfalso.
    apply not_true_iff_false in Hst. apply Hst, starts_with_spec. by exists (join segs).
Qed.
