(* ===== verification/Net.v ===== *)
(** * Socket addresses of the standard library

    [SocketAddr] as [core::net] parses and prints it; the configuration, the
    gossip layer and the process setup use it. *)

From Stdlib Require Import ZArith NArith Lia Strings.Byte.
From stdpp Require Import sorting countable base numbers gmap strings list.
From S2P Require Import Prelude RustStd.
Local Open Scope Z_scope.

Inductive IpAddr :=
| V4 (octets : list Z)
| V6 (segments : list Z).
#[export] Instance IpAddr_eq_dec : EqDecision IpAddr.
Proof. solve_decision. Defined.
(** [scope_id] is 0 for a V4 address. *)
Record SocketAddr := { sa_ip : IpAddr; sa_port : Z; sa_scope : Z }.
#[export] Instance SocketAddr_eq_dec : EqDecision SocketAddr.
Proof. solve_decision. Defined.

Definition is_unspecified (ip : IpAddr) : bool :=
  match ip with V4 l | V6 l => forallb (Z.eqb 0) l end.

(** ** Parsing *)

(** A reader takes what it recognises from the front of the input. *)
Definition reader (A : Type) : Type := str → option (A * str).

Definition digit_val (radix : Z) (b : byte) : option Z :=
  let v := byte_val b in
  let d := if (48 <=? v) && (v <=? 57) then Some (v - 48)
           else if (97 <=? v) && (v <=? 102) then Some (v - 87)
           else if (65 <=? v) && (v <=? 70) then Some (v - 55) else None in
  d ← d; if d <? radix then Some d else None.
Definition read_given_char (c : byte) : reader unit := λ s,
  match s with b :: s => if bool_decide (b = c) then Some (tt, s) else None | [] => None end.

Fixpoint read_digits (radix hi : Z) (max_digits : option Z) (count acc : Z) (s : str) : option (Z * Z * str) :=
  match s with
  | b :: s' =>
      match digit_val radix b with
      | Some d =>
          let acc := acc * radix + d in
          if hi <? acc then None
          else if match max_digits with Some m => m <? count + 1 | None => false end then None
          else read_digits radix hi max_digits (count + 1) acc s'
      | None => Some (count, acc, s)
      end
  | [] => Some (count, acc, [])
  end.
Definition read_number (radix hi : Z) (max_digits : option Z) (allow_zero_prefix : bool) : reader Z := λ s,
  let leading_zero := match s with b :: _ => bool_decide (b = x30) | [] => false end in
  match read_digits radix hi max_digits 0 0 s with
  | Some (count, acc, s') =>
      if count =? 0 then None
      else if negb allow_zero_prefix && leading_zero && (1 <? count) then None
      else Some (acc, s')
  | None => None
  end.
Definition read_separator {A} (sep : byte) (index : nat) (inner : reader A) : reader A := λ s,
  match index with
  | O => inner s
  | S _ => '(_, s) ← read_given_char sep s; inner s
  end.

Definition c_dot : byte := x2e.
Definition read_octet (i : nat) : reader Z := read_separator c_dot i (read_number 10 255 (Some 3) false).
Definition read_ipv4_addr : reader (list Z) := λ s,
  '(a, s) ← read_octet 0 s; '(b, s) ← read_octet 1 s; '(c, s) ← read_octet 2 s; '(d, s) ← read_octet 3 s;
  Some ([a; b; c; d], s).
Definition v4_groups (l : list Z) : list Z :=
  match l with [a; b; c; d] => [a * 256 + b; c * 256 + d] | _ => [] end.

(** Up to [room] groups from position [i]; whether they end in a V4 address. *)
Fixpoint read_groups (room i : nat) (s : str) : list Z * bool * str :=
  match room with
  | O => ([], false, s)
  | S room =>
      let v4 := if (0 <? room)%nat then read_separator c_colon i read_ipv4_addr s else None in
      match v4 with
      | Some (l, s) => (v4_groups l, true, s)
      | None =>
          match read_separator c_colon i (read_number 16 65535 (Some 4) true) s with
          | Some (g, s) => let '(gs, v4, s) := read_groups room (S i) s in (g :: gs, v4, s)
          | None => ([], false, s)
          end
      end
  end.
Definition read_ipv6_addr : reader (list Z) := λ s,
  let '(head, head_v4, s) := read_groups 8 0 s in
  if (length head =? 8)%nat then Some (head, s)
  else if head_v4 then None
  else
    '(_, s) ← read_given_char c_colon s;
    '(_, s) ← read_given_char c_colon s;
    let '(tail, _, s) := read_groups (7 - length head) 0 s in
    Some (head ++ replicate (8 - length head - length tail) 0 ++ tail, s).

Definition read_port : reader Z := λ s,
  '(_, s) ← read_given_char c_colon s; read_number 10 65535 None true s.
Definition c_percent : byte := x25.
Definition read_scope_id : reader Z := λ s,
  '(_, s) ← read_given_char c_percent s; read_number 10 u32_max None true s.
Definition read_socket_addr_v4 : reader SocketAddr := λ s,
  '(ip, s) ← read_ipv4_addr s; '(port, s) ← read_port s;
  Some ({| sa_ip := V4 ip; sa_port := port; sa_scope := 0 |}, s).
Definition read_socket_addr_v6 : reader SocketAddr := λ s,
  '(_, s) ← read_given_char x5b s;
  '(ip, s) ← read_ipv6_addr s;
  let '(scope, s) := default (0, s) (read_scope_id s) in
  '(_, s) ← read_given_char x5d s;
  '(port, s) ← read_port s;
  Some ({| sa_ip := V6 ip; sa_port := port; sa_scope := scope |}, s).
Definition parse_socket_addr (s : str) : option SocketAddr :=
  let r := match read_socket_addr_v4 s with Some r => Some r | None => read_socket_addr_v6 s end in
  match r with Some (a, []) => Some a | _ => None end.

(** ** Printing *)

Fixpoint join_with (sep : byte) (xs : list str) : str :=
  match xs with
  | [] => []
  | [x] => x
  | x :: xs => x ++ sep :: join_with sep xs
  end.
Definition hex_digit (d : Z) : byte := byte_of (if d <? 10 then 48 + d else 87 + d).
Definition hex16 (z : Z) : str :=
  let ds := [z / 4096 mod 16; z / 256 mod 16; z / 16 mod 16; z mod 16] in
  hex_digit <$> (if z <? 16 then drop 3 ds else if z <? 256 then drop 2 ds else if z <? 4096 then drop 1 ds else ds).
Definition display_v4 (l : list Z) : str := join_with c_dot (to_string <$> l).

(** The first longest run of zero segments: its start and its length. *)
Fixpoint zero_runs (i start run : nat) (best : nat * nat) (l : list Z) : nat * nat :=
  match l with
  | [] => best
  | x :: l =>
      if x =? 0 then
        let start := match run with O => i | S _ => start end in
        let run := S run in
        zero_runs (S i) start run (if (best.2 <? run)%nat then (start, run) else best) l
      else zero_runs (S i) 0 0 best l
  end.
Definition display_v6 (l : list Z) : str :=
  match l with
  | [0; 0; 0; 0; 0; 65535; g; h] => bs "::ffff:" ++ display_v4 [g / 256; g mod 256; h / 256; h mod 256]
  | _ =>
      let '(start, run) := zero_runs 0 0 0 (0%nat, 0%nat) l in
      if (1 <? run)%nat then
        join_with c_colon (hex16 <$> take start l) ++ bs "::" ++ join_with c_colon (hex16 <$> drop (start + run) l)
      else join_with c_colon (hex16 <$> l)
  end.
Definition display_ip (ip : IpAddr) : str := match ip with V4 l => display_v4 l | V6 l => display_v6 l end.
Definition display_socket_addr (a : SocketAddr) : str :=
  match sa_ip a with
  | V4 l => display_v4 l
  | V6 l => bs "[" ++ display_v6 l ++ (if sa_scope a =? 0 then [] else c_percent :: to_string (sa_scope a)) ++ bs "]"
  end ++ c_colon :: to_string (sa_port a).
