(* ===== verification/Events.v ===== *)
(** * Event fan-out ([src/events.rs], [Subscribe] of [src/service.rs],
    [publish_event] of [src/raft/server.rs])

    A node keeps a bounded queue per subscription and one per peer.  An event goes
    to the subscriptions of its owner and, when it was published here, to every
    peer.  The queues are tokio's channels: the class [Mpsc].  They are shared
    between the registry (senders) and the streams (receivers), so they live in a
    store and are named by handles. *)

From Stdlib Require Import ZArith NArith Lia Strings.Byte.
From stdpp Require Import sorting countable base numbers gmap strings list.
From S2P Require Import Prelude RustStd Grpc Proto EngineTypes Validate.
Local Open Scope Z_scope.

(** ** Bounded channels *)

Class Mpsc (A : Type) := {
  chan : Type;
  channel : Z → chan;
  (** a send that fails leaves the channel as it was *)
  try_send : A → chan → chan;
  poll_recv : chan → option A * chan;
  close : chan → chan;
  (** what the receiver has still to take, the bound, whether there is a receiver *)
  queued : chan → list A;
  capacity : chan → Z;
  is_open : chan → bool;
  channel_spec n : 0 < n → queued (channel n) = [] ∧ capacity (channel n) = n ∧ is_open (channel n) = true;
  try_send_queued a c :
    queued (try_send a c) = if is_open c && (len (queued c) <? capacity c) then queued c ++ [a] else queued c;
  try_send_rest a c : capacity (try_send a c) = capacity c ∧ is_open (try_send a c) = is_open c;
  poll_recv_queued c :
    (poll_recv c).1 = head (queued c) ∧ queued (poll_recv c).2 = tail (queued c);
  poll_recv_rest c : capacity (poll_recv c).2 = capacity c ∧ is_open (poll_recv c).2 = is_open c;
  close_spec c : is_open (close c) = false
}.

(** ** The state of a node *)

Definition PEER_QUEUE : Z := 1024.
Definition MAX_SUBSCRIBER_QUEUE : Z := 1000000.

Record SubSender := { ss_id : Z; ss_tx : nat }.
Record Registry := { rg_subs : gmap str (list SubSender); rg_next_id : Z; rg_capacity : Z }.
Record Subscription := { sb_rx : nat; sb_owner : str; sb_id : Z }.

(** The broadcaster, the channels and the streams that clients hold. *)
Record Bus `{!Mpsc Proto.Event} := {
  registry : Registry;
  static_peer_txs : list nat;
  dynamic_peer_txs : gmap str nat;
  chans : gmap nat chan;
  next_chan : nat;
  streams : gmap nat Subscription
}.

Section bus.
Context `{!Mpsc Proto.Event}.
(** [Endpoint::from_shared]: whether a peer's URL can be used *)
Context (valid_endpoint : str → bool).

Definition set_subs (f : gmap str (list SubSender) → gmap str (list SubSender)) (b : Bus) : Bus :=
  {| registry := {| rg_subs := f (rg_subs (registry b)); rg_next_id := rg_next_id (registry b);
                    rg_capacity := rg_capacity (registry b) |};
     static_peer_txs := static_peer_txs b; dynamic_peer_txs := dynamic_peer_txs b; chans := chans b;
     next_chan := next_chan b; streams := streams b |}.
Definition set_chans (f : gmap nat chan → gmap nat chan) (b : Bus) : Bus :=
  {| registry := registry b; static_peer_txs := static_peer_txs b; dynamic_peer_txs := dynamic_peer_txs b;
     chans := f (chans b); next_chan := next_chan b; streams := streams b |}.
Definition set_peers (f : gmap str nat → gmap str nat) (b : Bus) : Bus :=
  {| registry := registry b; static_peer_txs := static_peer_txs b; dynamic_peer_txs := f (dynamic_peer_txs b);
     chans := chans b; next_chan := next_chan b; streams := streams b |}.
Definition set_streams (f : gmap nat Subscription → gmap nat Subscription) (b : Bus) : Bus :=
  {| registry := registry b; static_peer_txs := static_peer_txs b; dynamic_peer_txs := dynamic_peer_txs b;
     chans := chans b; next_chan := next_chan b; streams := f (streams b) |}.

(** [mpsc::channel(n)] *)
Definition new_chan (n : Z) (b : Bus) : nat * Bus :=
  (next_chan b,
   {| registry := registry b; static_peer_txs := static_peer_txs b; dynamic_peer_txs := dynamic_peer_txs b;
      chans := <[next_chan b := channel n]> (chans b); next_chan := S (next_chan b); streams := streams b |}).
Definition send (ev : Proto.Event) (b : Bus) (tx : nat) : Bus := set_chans (alter (try_send ev) tx) b.

(** ** The registry *)

Definition registry_new (capacity : Z) : result Registry :=
  if capacity =? 0 then Err (Anyhow "event_buffer must be > 0")
  else if MAX_SUBSCRIBER_QUEUE <? capacity then Err (Anyhow "event_buffer too large (max 1000000)")
  else Ok {| rg_subs := ∅; rg_next_id := 0; rg_capacity := capacity |}.

Definition route (ev : Proto.Event) (b : Bus) : Bus :=
  match rg_subs (registry b) !! Proto.ev_owner_id ev with
  | Some subs => foldl (send ev) b (ss_tx <$> subs)
  | None => b
  end.

(** The counter is a [u64] that wraps around. *)
Definition take_id (b : Bus) : Z * Bus :=
  (rg_next_id (registry b),
   {| registry := {| rg_subs := rg_subs (registry b); rg_next_id := (rg_next_id (registry b) + 1) mod 2 ^ 64;
                     rg_capacity := rg_capacity (registry b) |};
      static_peer_txs := static_peer_txs b; dynamic_peer_txs := dynamic_peer_txs b; chans := chans b;
      next_chan := next_chan b; streams := streams b |}).
Definition register (owner : str) (b : Bus) : Subscription * Bus :=
  let '(tx, b) := new_chan (rg_capacity (registry b)) b in
  let '(id, b) := take_id b in
  ({| sb_rx := tx; sb_owner := owner; sb_id := id |},
   set_subs (λ subs, <[owner := default [] (subs !! owner) ++ [{| ss_id := id; ss_tx := tx |}]]> subs) b).
Definition unregister (owner : str) (id : Z) (b : Bus) : Bus :=
  set_subs (λ subs,
    match subs !! owner with
    | Some subs_of =>
        let subs_of := filter (λ s, ss_id s ≠ id) subs_of in
        if bool_decide (subs_of = []) then delete owner subs else <[owner := subs_of]> subs
    | None => subs
    end) b.

(** ** The broadcaster *)

Definition spawn_peer (endpoint : str) (b : Bus) : option (nat * Bus) :=
  if valid_endpoint endpoint then Some (new_chan PEER_QUEUE b) else None.
Fixpoint spawn_static (endpoints : list str) (b : Bus) : option Bus :=
  match endpoints with
  | [] => Some b
  | ep :: endpoints =>
      match spawn_peer ep b with
      | Some (tx, b) =>
          spawn_static endpoints
            {| registry := registry b; static_peer_txs := static_peer_txs b ++ [tx];
               dynamic_peer_txs := dynamic_peer_txs b; chans := chans b; next_chan := next_chan b;
               streams := streams b |}
      | None => None
      end
  end.
Definition broadcaster_new (capacity : Z) (peer_endpoints : list str) : result Bus :=
  match registry_new capacity with
  | Err e => Err e
  | Ok r =>
      match spawn_static peer_endpoints
              {| registry := r; static_peer_txs := []; dynamic_peer_txs := ∅; chans := ∅; next_chan := 0;
                 streams := ∅ |} with
      | Some b => Ok b
      | None => Err (Anyhow "invalid peer endpoint")
      end
  end.

Fixpoint add_peers (endpoints : list str) (b : Bus) : Bus :=
  match endpoints with
  | [] => b
  | ep :: endpoints =>
      match dynamic_peer_txs b !! ep with
      | Some _ => add_peers endpoints b
      | None =>
          match spawn_peer ep b with
          | Some (tx, b) => add_peers endpoints (set_peers (insert ep tx) b)
          | None => add_peers endpoints b
          end
      end
  end.
Definition reconcile_dynamic_peers (endpoints : list str) (b : Bus) : Bus :=
  add_peers endpoints (set_peers (filter (λ p, p.1 ∈ endpoints)) b).

(** Every peer has a channel of its own, so the order over them makes no
    difference. *)
Definition publish_local (ev : Proto.Event) (b : Bus) : Bus :=
  let b := route ev b in
  let b := foldl (send ev) b (static_peer_txs b) in
  foldl (send ev) b (map_to_list (dynamic_peer_txs b)).*2.
Definition publish_from_peer (ev : Proto.Event) (b : Bus) : Bus := route ev b.

(** ** Streams *)

Definition subscribe (owner : str) (b : Bus) : nat * Bus :=
  let '(sub, b) := register owner b in (sb_rx sub, set_streams (insert (sb_rx sub) sub) b).
(** [poll_next]: an event, or nothing yet *)
Definition poll (rx : nat) (b : Bus) : option Proto.Event * Bus :=
  match chans b !! rx with
  | Some c => ((poll_recv c).1, set_chans (insert rx (poll_recv c).2) b)
  | None => (None, b)
  end.
(** [Drop for Subscription]; the receiver goes with it. *)
Definition drop_stream (rx : nat) (b : Bus) : Bus :=
  match streams b !! rx with
  | Some sub =>
      let b := unregister (sb_owner sub) (sb_id sub) b in
      set_streams (delete rx) (set_chans (alter close rx) b)
  | None => b
  end.

(** ** The handlers *)

Definition subscribe_rpc (owner : str) (b : Bus) : served nat * Bus :=
  match check_id (bs "owner_id") owner with
  | Served _ => let '(rx, b) := subscribe owner b in (Served rx, b)
  | Refused s => (Refused s, b)
  end.
Definition publish_event (ev : Proto.Event) (b : Bus) : served unit * Bus :=
  match validate_peer_event ev with
  | Served _ => (Served tt, publish_from_peer ev b)
  | Refused s => (Refused s, b)
  end.
End bus.

(** ** Runs *)

Inductive bus_op :=
| Subscribe (owner : str)
| Poll (rx : nat)
| DropStream (rx : nat)
| PublishLocal (ev : Proto.Event)
| PublishFromPeer (ev : Proto.Event)
| Reconcile (endpoints : list str).
#[local] Existing Instance Proto.Event_eq_dec.
#[export] Instance bus_op_eq_dec : EqDecision bus_op.
Proof. solve_decision. Defined.

Section runs.
Context `{!Mpsc Proto.Event} (valid_endpoint : str → bool).

Definition bus_step (op : bus_op) (b : Bus) : Bus :=
  match op with
  | Subscribe owner => (subscribe owner b).2
  | Poll rx => (poll rx b).2
  | DropStream rx => drop_stream rx b
  | PublishLocal ev => publish_local ev b
  | PublishFromPeer ev => publish_from_peer ev b
  | Reconcile endpoints => reconcile_dynamic_peers valid_endpoint endpoints b
  end.
Definition bus_run (ops : list bus_op) (b : Bus) : Bus := foldl (flip bus_step) b ops.

(** What a run delivers to a stream. *)
Fixpoint received (rx : nat) (ops : list bus_op) (b : Bus) : list Proto.Event :=
  match ops with
  | [] => []
  | op :: ops =>
      match op with
      | Poll rx' => if decide (rx' = rx) then option_list (poll rx b).1 else []
      | _ => []
      end ++ received rx ops (bus_step op b)
  end.
(** The events of an owner among those published. *)
Definition for_owner (owner : str) (op : bus_op) : option Proto.Event :=
  match op with
  | PublishLocal ev | PublishFromPeer ev => if decide (Proto.ev_owner_id ev = owner) then Some ev else None
  | _ => None
  end.
Definition published (owner : str) (ops : list bus_op) : list Proto.Event := omap (for_owner owner) ops.
Definition queue_of (b : Bus) (rx : nat) : list Proto.Event :=
  match chans b !! rx with Some c => queued c | None => [] end.
(** Whenever an event of the owner is published, the stream's queue has room. *)
Fixpoint keeps_up (rx : nat) (owner : str) (ops : list bus_op) (b : Bus) : Prop :=
  match ops with
  | [] => True
  | op :: ops =>
      (is_Some (for_owner owner op) → len (queue_of b rx) < rg_capacity (registry b)) ∧
      keeps_up rx owner ops (bus_step op b)
  end.
Fixpoint subscribes (ops : list bus_op) : Z :=
  match ops with
  | [] => 0
  | Subscribe _ :: ops => 1 + subscribes ops
  | _ :: ops => subscribes ops
  end.

(** ** The invariant *)

Record bus_ok (b : Bus) : Prop := {
  ok_subs o l s : rg_subs (registry b) !! o = Some l → s ∈ l →
    streams b !! ss_tx s = Some {| sb_rx := ss_tx s; sb_owner := o; sb_id := ss_id s |};
  ok_nonempty o : rg_subs (registry b) !! o ≠ Some [];
  ok_ids o l : rg_subs (registry b) !! o = Some l → NoDup (ss_id <$> l);
  ok_used o l s : rg_subs (registry b) !! o = Some l → s ∈ l → 0 ≤ ss_id s < rg_next_id (registry b);
  ok_streams k sub : streams b !! k = Some sub → sb_rx sub = k ∧
    ∃ l, rg_subs (registry b) !! sb_owner sub = Some l ∧ {| ss_id := sb_id sub; ss_tx := k |} ∈ l;
  ok_chan k : is_Some (streams b !! k) →
    ∃ c, chans b !! k = Some c ∧ is_open c = true ∧ capacity c = rg_capacity (registry b);
  ok_handles k : is_Some (chans b !! k) → (k < next_chan b)%nat;
  ok_static k : k ∈ static_peer_txs b → streams b !! k = None ∧ (k < next_chan b)%nat;
  ok_dynamic ep k : dynamic_peer_txs b !! ep = Some k → streams b !! k = None ∧ (k < next_chan b)%nat;
  ok_capacity : 0 < rg_capacity (registry b);
  ok_next : 0 ≤ rg_next_id (registry b)
}.

(** Two states that differ in the contents of queues only. *)
Definition like_chan (c c' : option chan) : Prop :=
  match c, c' with
  | Some c, Some c' => is_open c' = is_open c ∧ capacity c' = capacity c
  | None, None => True
  | _, _ => False
  end.
Record same_but_queues (b b' : Bus) : Prop := {
  sq_registry : registry b' = registry b;
  sq_static : static_peer_txs b' = static_peer_txs b;
  sq_dynamic : dynamic_peer_txs b' = dynamic_peer_txs b;
  sq_next : next_chan b' = next_chan b;
  sq_streams : streams b' = streams b;
  sq_chans k : like_chan (chans b !! k) (chans b' !! k)
}.
#[local] Instance same_trans : Transitive same_but_queues.
Proof.
  intros b1 b2 b3 [? ? ? ? ? H1] [? ? ? ? ? H2]. split; try congruence. intros k. specialize (H1 k). specialize (H2 k).
  unfold like_chan in *. destruct (chans b1 !! k), (chans b2 !! k), (chans b3 !! k); naive_solver congruence.
Qed.
#[local] Instance same_refl : Reflexive same_but_queues.
Proof. intros b. split; try done. intros k. unfold like_chan. by destruct (chans b !! k). Qed.
Lemma same_ok b b' : same_but_queues b b' → bus_ok b → bus_ok b'.
Proof.
  intros [Hr Hs Hd Hn Hst Hc] [H1 H2 H3 H4 H5 H6 H7 H8 H9 H10 H11].
  split; rewrite ?Hr, ?Hs, ?Hd, ?Hn, ?Hst; try done.
  - intros k Hk. destruct (H6 k Hk) as (c & Hck & Ho & Hcap). specialize (Hc k). rewrite Hck in Hc.
    unfold like_chan in Hc. destruct (chans b' !! k) as [c'|]; [|done]. exists c'. destruct Hc as [-> ->]. by rewrite Ho, Hcap.
  - intros k Hk. apply H7. specialize (Hc k). unfold like_chan in Hc. destruct Hk as [c' Hk]. rewrite Hk in Hc.
    by destruct (chans b !! k).
Qed.

Lemma same_send ev b tx : same_but_queues b (send ev b tx).
Proof.
  split; try done. intros k. cbn. destruct (decide (k = tx)) as [->|?].
  - rewrite lookup_alter_eq. unfold like_chan. destruct (chans b !! tx); cbn; [|done]. destruct (try_send_rest ev c); done.
  - rewrite lookup_alter_ne by done. apply same_refl.
Qed.
Lemma same_sends ev b txs : same_but_queues b (foldl (send ev) b txs).
Proof.
  revert b. induction txs as [|tx txs IH]; intros b; cbn; [reflexivity|]. etrans; [apply same_send|apply IH].
Qed.
Lemma same_route ev b : same_but_queues b (route ev b).
Proof. unfold route. destruct (_ !! _); [apply same_sends|reflexivity]. Qed.
Lemma same_publish ev b : same_but_queues b (publish_local ev b).
Proof. unfold publish_local. cbv zeta. etrans; [apply same_route|]. etrans; apply same_sends. Qed.
Lemma same_poll rx b : same_but_queues b (poll rx b).2.
Proof.
  unfold poll. destruct (chans b !! rx) as [c|] eqn:Hc; [|reflexivity]. split; try done. intros k. cbn.
  destruct (decide (k = rx)) as [->|?].
  - rewrite lookup_insert_eq, Hc. unfold like_chan. by destruct (poll_recv_rest c).
  - rewrite lookup_insert_ne by done. apply same_refl.
Qed.

(** ** Subscribing and dropping *)

Lemma unique_id l s s' : NoDup (ss_id <$> l) → s ∈ l → s' ∈ l → ss_id s = ss_id s' → ss_tx s = ss_tx s'.
Proof.
  induction l as [|x l IH]; [by intros _ ?%not_elem_of_nil|]. rewrite fmap_cons, NoDup_cons. intros [Hx Hl] Hs Hs' Heq.
  apply elem_of_cons in Hs as [->|Hs], Hs' as [->|Hs']; [done| | |by apply IH].
  - destruct Hx. rewrite Heq. by apply list_elem_of_fmap_2.
  - destruct Hx. rewrite <- Heq. by apply list_elem_of_fmap_2.
Qed.

Lemma subscribe_ok owner b :
  bus_ok b → rg_next_id (registry b) + 1 < 2 ^ 64 →
  bus_ok (subscribe owner b).2 ∧ (subscribe owner b).1 = next_chan b ∧
  streams b !! next_chan b = None ∧
  streams (subscribe owner b).2 !! next_chan b =
    Some {| sb_rx := next_chan b; sb_owner := owner; sb_id := rg_next_id (registry b) |}.
Proof.
  intros Hok Hid. pose proof (ok_next _ Hok) as Hnn. pose proof (ok_capacity _ Hok) as Hcap.
  assert (∀ k, is_Some (streams b !! k) → (k < next_chan b)%nat) as Hlt.
  { intros k Hk. destruct (ok_chan _ Hok k Hk) as (c & Hc & _). apply (ok_handles _ Hok). by eexists. }
  assert (streams b !! next_chan b = None) as Hnew.
  { apply eq_None_not_Some. intros Hk%Hlt. lia. }
  unfold subscribe, register, new_chan, take_id. cbn. split_and!; [|done|done|by rewrite lookup_insert_eq].
  rewrite Z.mod_small by lia. destruct (channel_spec _ Hcap) as (Hq & Hc & Ho).
  split; cbn.
  - intros o l s Hl Hs. destruct (decide (o = owner)) as [->|Hne].
    + rewrite lookup_insert_eq in Hl. injection Hl as <-.
      apply elem_of_app in Hs as [Hs| ->%list_elem_of_singleton]; [|by rewrite lookup_insert_eq].
      destruct (rg_subs (registry b) !! owner) as [l|] eqn:El; [|by apply not_elem_of_nil in Hs].
      pose proof (ok_subs _ Hok _ _ _ El Hs) as Hst. rewrite lookup_insert_ne; [done|]. intros Heq. congruence.
    + rewrite lookup_insert_ne in Hl by done. pose proof (ok_subs _ Hok _ _ _ Hl Hs) as Hst.
      rewrite lookup_insert_ne; [done|]. intros Heq. congruence.
  - intros o. destruct (decide (o = owner)) as [->|Hne].
    + rewrite lookup_insert_eq. intros [= Hnil]. by apply app_eq_nil in Hnil as [_ ?].
    + rewrite lookup_insert_ne by done. apply (ok_nonempty _ Hok).
  - intros o l Hl. destruct (decide (o = owner)) as [->|Hne]; [|rewrite lookup_insert_ne in Hl by done; by apply (ok_ids _ Hok o)].
    rewrite lookup_insert_eq in Hl. injection Hl as <-. rewrite fmap_app. cbn.
    destruct (rg_subs (registry b) !! owner) as [l|] eqn:El; cbn; [|apply NoDup_singleton].
    apply NoDup_app. split_and!; [by apply (ok_ids _ Hok owner)| |apply NoDup_singleton].
    intros id (s & -> & Hs)%list_elem_of_fmap Heq%list_elem_of_singleton. pose proof (ok_used _ Hok _ _ _ El Hs). lia.
  - intros o l s Hl Hs. destruct (decide (o = owner)) as [->|Hne].
    + rewrite lookup_insert_eq in Hl. injection Hl as <-.
      apply elem_of_app in Hs as [Hs| ->%list_elem_of_singleton]; [|cbn; lia].
      destruct (rg_subs (registry b) !! owner) as [l|] eqn:El; [|by apply not_elem_of_nil in Hs].
      pose proof (ok_used _ Hok _ _ _ El Hs). lia.
    + rewrite lookup_insert_ne in Hl by done. pose proof (ok_used _ Hok _ _ _ Hl Hs). lia.
  - intros k sub Hk. destruct (decide (k = next_chan b)) as [->|Hne].
    + rewrite lookup_insert_eq in Hk. injection Hk as <-. cbn. split; [done|]. rewrite lookup_insert_eq.
      eexists; split; [done|]. apply elem_of_app. right. by apply list_elem_of_singleton.
    + rewrite lookup_insert_ne in Hk by done. destruct (ok_streams _ Hok _ _ Hk) as (? & l & Hl & Hin). split; [done|].
      destruct (decide (sb_owner sub = owner)) as [<-|Hno].
      * rewrite lookup_insert_eq, Hl. eexists; split; [done|]. apply elem_of_app. by left.
      * rewrite lookup_insert_ne by done. by exists l.
  - intros k Hk. destruct (decide (k = next_chan b)) as [->|Hne].
    + rewrite lookup_insert_eq. by eexists.
    + rewrite lookup_insert_ne in Hk by done. rewrite lookup_insert_ne by done. by apply (ok_chan _ Hok).
  - intros k Hk. destruct (decide (k = next_chan b)) as [->|Hne]; [lia|]. rewrite lookup_insert_ne in Hk by done.
    pose proof (ok_handles _ Hok k Hk). lia.
  - intros k Hk. destruct (ok_static _ Hok k Hk) as [? ?]. rewrite lookup_insert_ne by lia. split; [done|lia].
  - intros ep k Hk. destruct (ok_dynamic _ Hok ep k Hk) as [? ?]. rewrite lookup_insert_ne by lia. split; [done|lia].
  - done.
  - lia.
Qed.

Lemma subs_unregister owner id b o :
  rg_subs (registry (unregister owner id b)) !! o =
  if decide (o = owner) then
    match rg_subs (registry b) !! owner with
    | Some l => let l := filter (λ s, ss_id s ≠ id) l in if bool_decide (l = []) then None else Some l
    | None => None
    end
  else rg_subs (registry b) !! o.
Proof.
  unfold unregister. cbn. destruct (decide (o = owner)) as [->|Hne].
  - destruct (rg_subs (registry b) !! owner) as [l|] eqn:E; [|done]. cbv zeta.
    case_bool_decide; [by rewrite lookup_delete_eq|by rewrite lookup_insert_eq].
  - destruct (rg_subs (registry b) !! owner) as [l|] eqn:E; [|done].
    case_bool_decide; [by rewrite lookup_delete_ne|by rewrite lookup_insert_ne].
Qed.
(** What is left in the registry is what was there, without the one dropped. *)
Lemma subs_unregister_Some owner id b o l :
  rg_subs (registry (unregister owner id b)) !! o = Some l →
  ∃ l0, rg_subs (registry b) !! o = Some l0 ∧ l `sublist_of` l0 ∧ ∀ s, s ∈ l → ¬ (o = owner ∧ ss_id s = id).
Proof.
  rewrite subs_unregister. destruct (decide (o = owner)) as [->|Hne].
  - destruct (rg_subs (registry b) !! owner) as [l0|]; [|done]. cbv zeta. case_bool_decide; [done|]. intros [= <-].
    exists l0. split_and!; [done|apply sublist_filter|]. intros s [? ?]%list_elem_of_filter. naive_solver.
  - intros Hl. exists l. split_and!; [done|done|]. naive_solver.
Qed.
Lemma subs_unregister_elem owner id b o l s :
  rg_subs (registry b) !! o = Some l → s ∈ l → ¬ (o = owner ∧ ss_id s = id) →
  ∃ l', rg_subs (registry (unregister owner id b)) !! o = Some l' ∧ s ∈ l'.
Proof.
  intros Hl Hs Hne. rewrite subs_unregister. destruct (decide (o = owner)) as [->|?]; [|by exists l].
  rewrite Hl. cbv zeta. assert (s ∈ filter (λ s, ss_id s ≠ id) l) as Hin by (apply list_elem_of_filter; naive_solver).
  case_bool_decide as Hnil; [rewrite Hnil in Hin; by apply not_elem_of_nil in Hin|]. by eexists.
Qed.

Lemma drop_ok rx b : bus_ok b → bus_ok (drop_stream rx b).
Proof.
  intros Hok. unfold drop_stream. destruct (streams b !! rx) as [sub|] eqn:Hsub; [|done].
  destruct (ok_streams _ Hok _ _ Hsub) as (Hrx & lo & Hlo & Hin).
  pose proof (subs_unregister_Some (sb_owner sub) (sb_id sub) b) as Hsome.
  set (b' := unregister (sb_owner sub) (sb_id sub) b) in *.
  assert (streams b' = streams b ∧ chans b' = chans b ∧ next_chan b' = next_chan b ∧
    static_peer_txs b' = static_peer_txs b ∧ dynamic_peer_txs b' = dynamic_peer_txs b) as (E1 & E2 & E3 & E4 & E5) by done.
  split; cbn [registry streams chans next_chan static_peer_txs dynamic_peer_txs set_streams set_chans];
    rewrite ?E1, ?E2, ?E3, ?E4, ?E5.
  - intros o l s Hl Hs. destruct (Hsome o l Hl) as (l0 & Hl0 & Hsl & Hn).
    pose proof (ok_subs _ Hok o l0 s Hl0) as Hst. rewrite lookup_delete_ne.
    + apply Hst. eapply elem_of_sublist; [exact Hs|exact Hsl].
    + intros Heq. rewrite Heq, Hst in Hsub by (eapply elem_of_sublist; [exact Hs|exact Hsl]).
      injection Hsub as <-. by apply (Hn s Hs).
  - intros o Hl. pose proof Hl as Hl'. unfold b' in Hl'. rewrite subs_unregister in Hl'. destruct (decide (o = sb_owner sub)) as [->|?];
      [|by apply (ok_nonempty _ Hok o)].
    rewrite Hlo in Hl'. cbv zeta in Hl'. case_bool_decide; [done|]. naive_solver.
  - intros o l Hl. destruct (Hsome o l Hl) as (l0 & Hl0 & Hsl & _).
    eapply sublist_NoDup; [apply (ok_ids _ Hok o l0 Hl0)|]. by apply fmap_sublist.
  - intros o l s Hl Hs. destruct (Hsome o l Hl) as (l0 & Hl0 & Hsl & _).
    apply (ok_used _ Hok o l0 s Hl0). eapply elem_of_sublist; [exact Hs|exact Hsl].
  - intros k sub' Hk. apply lookup_delete_Some in Hk as [Hne Hk].
    destruct (ok_streams _ Hok _ _ Hk) as (? & l & Hl & Hs). split; [done|].
    eapply subs_unregister_elem; [exact Hl|exact Hs|]. cbn. intros [Ho Hid]. rewrite Ho, Hlo in Hl. injection Hl as <-.
    apply Hne. apply (unique_id lo _ _ (ok_ids _ Hok _ _ Hlo) Hin Hs). by rewrite Hid.
  - intros k Hk. assert (k ≠ rx) as Hne by (intros ->; rewrite lookup_delete_eq in Hk; by destruct Hk).
    rewrite lookup_delete_ne in Hk by done. rewrite lookup_alter_ne by done. by apply (ok_chan _ Hok).
  - intros k Hk. apply (ok_handles _ Hok). destruct (decide (k = rx)) as [->|?].
    + rewrite lookup_alter_eq in Hk. by apply fmap_is_Some in Hk.
    + by rewrite lookup_alter_ne in Hk.
  - intros k Hk. destruct (ok_static _ Hok k Hk) as [Hk' ?]. split; [|done]. rewrite lookup_delete_None. by right.
  - intros ep k Hk. destruct (ok_dynamic _ Hok ep k Hk) as [Hk' ?]. split; [|done]. rewrite lookup_delete_None. by right.
  - apply (ok_capacity _ Hok).
  - apply (ok_next _ Hok).
Qed.

(** ** Peers *)

Lemma peer_ok ep b : bus_ok b → bus_ok (set_peers (insert ep (next_chan b)) (new_chan PEER_QUEUE b).2).
Proof.
  intros Hok. assert (∀ k, is_Some (streams b !! k) → (k < next_chan b)%nat) as Hlt.
  { intros k Hk. destruct (ok_chan _ Hok k Hk) as (c & Hc & _). apply (ok_handles _ Hok). by eexists. }
  destruct Hok as [H1 H2 H3 H4 H5 H6 H7 H8 H9 H10 H11].
  split; cbn; try done.
  - intros k Hk. rewrite lookup_insert_ne by (specialize (Hlt k Hk); lia). by apply H6.
  - intros k Hk. destruct (decide (k = next_chan b)) as [->|?]; [lia|]. rewrite lookup_insert_ne in Hk by done.
    specialize (H7 k Hk). lia.
  - intros k Hk. destruct (H8 k Hk). split; [done|lia].
  - intros ep' k Hk. destruct (decide (ep' = ep)) as [->|?].
    + rewrite lookup_insert_eq in Hk. injection Hk as <-. split; [|lia]. apply eq_None_not_Some. intros Hk%Hlt. lia.
    + rewrite lookup_insert_ne in Hk by done. destruct (H9 _ _ Hk). split; [done|lia].
Qed.
Lemma add_peers_ok eps b :
  bus_ok b → let b' := add_peers valid_endpoint eps b in
  bus_ok b' ∧ streams b' = streams b ∧ registry b' = registry b ∧
  ∀ k, (k < next_chan b)%nat → chans b' !! k = chans b !! k.
Proof.
  cbv zeta. revert b. induction eps as [|ep eps IH]; intros b Hok; cbn [add_peers]; [done|].
  destruct (dynamic_peer_txs b !! ep); [by apply IH|]. unfold spawn_peer. destruct (valid_endpoint ep); [|by apply IH].
  unfold new_chan. destruct (IH _ (peer_ok ep b Hok)) as (? & Hs & Hr & Hc). split_and!; [done|done|done|].
  intros k Hk. unfold new_chan in Hc. cbn in Hc. rewrite Hc by lia. by rewrite lookup_insert_ne by lia.
Qed.
Lemma reconcile_ok eps b :
  bus_ok b → let b' := reconcile_dynamic_peers valid_endpoint eps b in
  bus_ok b' ∧ streams b' = streams b ∧ registry b' = registry b ∧
  ∀ k, (k < next_chan b)%nat → chans b' !! k = chans b !! k.
Proof.
  intros Hok. unfold reconcile_dynamic_peers. cbv zeta. apply (add_peers_ok eps (set_peers _ b)).
  destruct Hok as [H1 H2 H3 H4 H5 H6 H7 H8 H9 H10 H11]. split; cbn; try done.
  intros ep k Hk. apply map_lookup_filter_Some in Hk as [Hk _]. by apply (H9 ep).
Qed.

Lemma step_ok op b :
  bus_ok b → rg_next_id (registry b) + subscribes [op] < 2 ^ 64 →
  bus_ok (bus_step op b) ∧
  rg_next_id (registry (bus_step op b)) = rg_next_id (registry b) + subscribes [op] ∧
  rg_capacity (registry (bus_step op b)) = rg_capacity (registry b).
Proof.
  intros Hok Hid. pose proof (ok_next _ Hok). destruct op; cbn [bus_step subscribes] in *.
  - destruct (subscribe_ok owner b Hok) as [? _]; [lia|]. split_and!; [done| |done].
    unfold subscribe, register, new_chan, take_id. cbn. rewrite Z.mod_small by lia. lia.
  - pose proof (same_poll rx b) as Hs. rewrite (sq_registry _ _ Hs). split_and!; [by eapply same_ok|lia|done].
  - split_and!; [by apply drop_ok| |]; unfold drop_stream; destruct (streams b !! rx); cbn; (lia || done).
  - pose proof (same_publish ev b) as Hs. rewrite (sq_registry _ _ Hs). split_and!; [by eapply same_ok|lia|done].
  - pose proof (same_route ev b) as Hs. unfold publish_from_peer. rewrite (sq_registry _ _ Hs).
    split_and!; [by eapply same_ok|lia|done].
  - destruct (reconcile_ok endpoints b Hok) as (? & _ & -> & _). split_and!; [done|lia|done].
Qed.

(** ** What happens to one queue *)

Lemma queue_sends ev b txs k :
  k ∉ txs → queue_of (foldl (send ev) b txs) k = queue_of b k.
Proof.
  revert b. induction txs as [|tx txs IH]; intros b Hk; cbn; [done|]. apply not_elem_of_cons in Hk as [Hne Hk].
  rewrite IH by done. unfold queue_of, send. cbn. by rewrite lookup_alter_ne.
Qed.
Lemma queue_sends_in ev b txs k c :
  NoDup txs → k ∈ txs → chans b !! k = Some c → is_open c = true →
  queue_of (foldl (send ev) b txs) k = if len (queued c) <? capacity c then queued c ++ [ev] else queued c.
Proof.
  revert b. induction txs as [|tx txs IH]; intros b Hnd Hk Hc Ho; [by apply not_elem_of_nil in Hk|].
  apply NoDup_cons in Hnd as [Hn Hnd]. cbn [foldl]. apply elem_of_cons in Hk as [->|Hk].
  - rewrite queue_sends by done. unfold queue_of, send. cbn. rewrite lookup_alter_eq, Hc. cbn. by rewrite try_send_queued, Ho.
  - apply IH; [done|done| |done]. unfold send. cbn. by rewrite lookup_alter_ne by (intros ->; done).
Qed.

Lemma nodup_txs b o l : bus_ok b → rg_subs (registry b) !! o = Some l → NoDup (ss_tx <$> l).
Proof.
  intros Hok Hl. pose proof (ok_ids _ Hok o l Hl) as Hids. pose proof (λ s, ok_subs _ Hok o l s Hl) as Hst. clear Hl.
  induction l as [|s l IH]; [constructor|]. rewrite fmap_cons in *. apply NoDup_cons in Hids as [Hs Hids].
  apply NoDup_cons. split; [|apply IH; [done|]; intros s' Hs'; apply Hst; by right].
  intros (s' & Heq & Hs')%list_elem_of_fmap. apply Hs. apply list_elem_of_fmap. exists s'. split; [|done].
  pose proof (Hst s ltac:(by left)) as H1. pose proof (Hst s' ltac:(by right)) as H2. rewrite Heq, H2 in H1. congruence.
Qed.
Lemma queue_route ev b k sub :
  bus_ok b → streams b !! k = Some sub →
  queue_of (route ev b) k =
  if decide (Proto.ev_owner_id ev = sb_owner sub) then
    if len (queue_of b k) <? rg_capacity (registry b) then queue_of b k ++ [ev] else queue_of b k
  else queue_of b k.
Proof.
  intros Hok Hk. destruct (ok_streams _ Hok _ _ Hk) as (Hrx & l & Hl & Hin).
  destruct (ok_chan _ Hok k) as (c & Hc & Ho & Hcap); [by eexists|].
  unfold route. destruct (decide (Proto.ev_owner_id ev = sb_owner sub)) as [->|Hne].
  - rewrite Hl, (queue_sends_in ev b _ k c); [| | |done|done].
    + unfold queue_of. by rewrite Hc, Hcap.
    + by eapply nodup_txs.
    + apply list_elem_of_fmap. by exists {| ss_id := sb_id sub; ss_tx := k |}.
  - destruct (rg_subs (registry b) !! Proto.ev_owner_id ev) as [l'|] eqn:Hl'; [|done].
    apply queue_sends. intros (s & -> & Hs)%list_elem_of_fmap. pose proof (ok_subs _ Hok _ _ _ Hl' Hs) as Hst.
    rewrite Hk in Hst. injection Hst as ->. done.
Qed.
Lemma queue_publish ev b k sub :
  bus_ok b → streams b !! k = Some sub → queue_of (publish_local ev b) k = queue_of (route ev b) k.
Proof.
  intros Hok Hk. unfold publish_local. cbv zeta. pose proof (same_route ev b) as Hs.
  set (b1 := route ev b) in *. rewrite queue_sends; [apply queue_sends|].
  - intros Hin. rewrite (sq_static _ _ Hs) in Hin. destruct (ok_static _ Hok k Hin). congruence.
  - pose proof (same_sends ev b1 (static_peer_txs b1)) as Hs'.
    rewrite (sq_dynamic _ _ Hs'), (sq_dynamic _ _ Hs). intros ([ep k'] & -> & Hin)%list_elem_of_fmap.
    apply elem_of_map_to_list in Hin. destruct (ok_dynamic _ Hok _ _ Hin). cbn in Hk. congruence.
Qed.

(** One step and the queue of a stream it does not drop. *)
Lemma step_queue op b k sub :
  bus_ok b → rg_next_id (registry b) + subscribes [op] < 2 ^ 64 → streams b !! k = Some sub → op ≠ DropStream k →
  streams (bus_step op b) !! k = Some sub ∧
  queue_of (bus_step op b) k =
    match for_owner (sb_owner sub) op with
    | Some ev => if len (queue_of b k) <? rg_capacity (registry b) then queue_of b k ++ [ev] else queue_of b k
    | None => if decide (op = Poll k) then tail (queue_of b k) else queue_of b k
    end.
Proof.
  intros Hok Hid Hk Hop.
  assert (k < next_chan b)%nat as Hlt.
  { destruct (ok_chan _ Hok k) as (c & Hc & _); [by eexists|]. apply (ok_handles _ Hok). by eexists. }
  destruct op as [owner|rx|rx|ev|ev|eps]; cbn [bus_step for_owner].
  - destruct (subscribe_ok owner b Hok) as (_ & Hrx & Hnone & _); [cbn in Hid; lia|].
    unfold subscribe, register, new_chan, take_id, queue_of. cbn. rewrite !lookup_insert_ne by lia. done.
  - rewrite (sq_streams _ _ (same_poll rx b)). split; [done|]. unfold poll.
    destruct (chans b !! rx) as [c|] eqn:Hc.
    + unfold queue_of. cbn. destruct (decide (Poll rx = Poll k)) as [[= ->]|Hne].
      * rewrite lookup_insert_eq, Hc. by destruct (poll_recv_queued c).
      * rewrite lookup_insert_ne; [done|]. congruence.
    + destruct (decide (Poll rx = Poll k)) as [[= ->]|Hne]; [|done]. unfold queue_of. cbn. by rewrite Hc.
  - assert (rx ≠ k) as Hne by congruence. unfold drop_stream. destruct (streams b !! rx); [|done]. unfold queue_of. cbn.
    by rewrite lookup_delete_ne, lookup_alter_ne.
  - rewrite (sq_streams _ _ (same_publish ev b)), (queue_publish ev b k sub), (queue_route ev b k sub) by done.
    split; [done|]. by destruct (decide (Proto.ev_owner_id ev = sb_owner sub)).
  - unfold publish_from_peer. rewrite (sq_streams _ _ (same_route ev b)), (queue_route ev b k sub) by done.
    split; [done|]. by destruct (decide (Proto.ev_owner_id ev = sb_owner sub)).
  - destruct (reconcile_ok eps b Hok) as (_ & -> & _ & Hc). split; [done|]. unfold queue_of. by rewrite Hc.
Qed.

Lemma subscribes_cons op ops : subscribes (op :: ops) = subscribes [op] + subscribes ops.
Proof. destruct op; cbn; lia. Qed.
Lemma subscribes_nonneg ops : 0 ≤ subscribes ops.
Proof. induction ops as [|[] ops IH]; cbn; lia. Qed.

Lemma bus_run_ok ops b :
  bus_ok b → rg_next_id (registry b) + subscribes ops < 2 ^ 64 →
  bus_ok (bus_run ops b) ∧ rg_next_id (registry (bus_run ops b)) = rg_next_id (registry b) + subscribes ops.
Proof.
  revert b. induction ops as [|op ops IH]; intros b Hok Hid; [cbn; split; [done|lia]|].
  rewrite subscribes_cons in Hid |- *. pose proof (subscribes_nonneg ops).
  destruct (step_ok op b Hok) as (Hok' & Hn & _); [lia|].
  destruct (IH (bus_step op b) Hok') as [? Hn']; [lia|]. split; [done|]. cbn [bus_run foldl flip] in *.
  unfold bus_run in Hn'. rewrite Hn'. lia.
Qed.

(** What a stream has delivered and still holds, after a run that keeps it. *)
Lemma delivered ops b k sub :
  bus_ok b → rg_next_id (registry b) + subscribes ops < 2 ^ 64 → streams b !! k = Some sub → DropStream k ∉ ops →
  received k ops b ++ queue_of (bus_run ops b) k `sublist_of` queue_of b k ++ published (sb_owner sub) ops ∧
  (keeps_up k (sb_owner sub) ops b →
   received k ops b ++ queue_of (bus_run ops b) k = queue_of b k ++ published (sb_owner sub) ops).
Proof.
  revert b. induction ops as [|op ops IH]; intros b Hok Hid Hk Hdrop; [cbn; by rewrite app_nil_r|].
  rewrite subscribes_cons in Hid. pose proof (subscribes_nonneg ops). apply not_elem_of_cons in Hdrop as [Hop Hdrop].
  destruct (step_ok op b Hok) as (Hok' & Hn & Hcap); [lia|].
  destruct (step_queue op b k sub Hok) as [Hk' Hq]; [lia|done|done|].
  destruct (IH (bus_step op b) Hok') as [Hsub Heq]; [lia|done|done|]. clear IH.
  cbn [received keeps_up bus_run foldl flip] in *. unfold bus_run in Hsub, Heq.
  unfold published in *. cbn [omap list_omap]. rewrite Hq in Hsub, Heq. clear Hq.
  rewrite <- !app_assoc.
  set (rest := received k ops (bus_step op b) ++ queue_of (foldl (flip bus_step) (bus_step op b) ops) k) in *.
  destruct (for_owner (sb_owner sub) op) as [ev|] eqn:Hf.
  - assert ((match op with Poll rx' => if decide (rx' = k) then option_list (poll k b).1 else [] | _ => [] end) = []) as ->
      by (by destruct op).
    cbn [app]. split.
    + destruct (len (queue_of b k) <? rg_capacity (registry b)); [by rewrite <- app_assoc in Hsub|].
      etrans; [exact Hsub|]. apply sublist_app; [done|]. by apply sublist_cons.
    + intros [Hroom Hup]. specialize (Hroom ltac:(by eexists)). destruct (Z.ltb_spec (len (queue_of b k)) (rg_capacity (registry b))); [|lia].
      rewrite (Heq Hup). by rewrite <- app_assoc.
  - destruct (decide (op = Poll k)) as [->|Hne].
    + rewrite decide_True by done. unfold poll, queue_of in *. destruct (ok_chan _ Hok k) as (c & Hc & _); [by eexists|].
      rewrite Hc in *. destruct (poll_recv_queued c) as [Hh _]. cbn [fst]. rewrite Hh. destruct (queued c) as [|x q]; cbn in *.
      * split; [done|]. intros [_ Hup]. by apply Heq.
      * split; [by apply sublist_skip|]. intros [_ Hup]. by rewrite (Heq Hup).
    + assert ((match op with Poll rx' => if decide (rx' = k) then option_list (poll k b).1 else [] | _ => [] end) = []) as ->.
      { destruct op; try done. destruct (decide (rx = k)); [congruence|done]. }
      cbn [app]. split; [done|]. intros [_ Hup]. by apply Heq.
Qed.

Lemma new_ok n peers b :
  0 ≤ n → broadcaster_new valid_endpoint n peers = Ok b → bus_ok b ∧ rg_next_id (registry b) = 0 ∧ rg_capacity (registry b) = n.
Proof.
  intros Hn. unfold broadcaster_new, registry_new. destruct (Z.eqb_spec n 0); [done|].
  destruct (MAX_SUBSCRIBER_QUEUE <? n); [done|].
  set (b0 := {| registry := _ |}). assert (bus_ok b0 ∧ streams b0 = ∅ ∧ rg_next_id (registry b0) = 0 ∧ rg_capacity (registry b0) = n) as H0.
  { split_and!; [|done..]. split; cbn; try lia; intros *; rewrite ?lookup_empty;
      first [done | by intros [] | by intros ?%not_elem_of_nil]. }
  clearbody b0. revert b0 H0. induction peers as [|ep peers IH]; intros b0 (Hok & Hs & Hid & Hc); cbn [spawn_static].
  { by intros [= <-]. }
  unfold spawn_peer. destruct (valid_endpoint ep); [|done]. cbn [new_chan]. apply IH. split_and!; [|done..].
  destruct Hok as [H1 H2 H3 H4 H5 H6 H7 H8 H9 H10 H11]. split; cbn; try done.
  - intros k. rewrite Hs. rewrite lookup_empty. by intros [].
  - intros k Hk. destruct (decide (k = next_chan b0)) as [->|?]; [lia|]. rewrite lookup_insert_ne in Hk by done. specialize (H7 k Hk). lia.
  - intros k [Hk| ->%list_elem_of_singleton]%elem_of_app; [destruct (H8 k Hk); split; [done|lia]|]. rewrite Hs. split; [done|lia].
  - intros e k Hk. destruct (H9 e k Hk). split; [done|lia].
Qed.

(** C22: Events stay with their owner, in order.  On a node that has run any sequence of operations since it started,
    a new stream of an owner, as long as it is not dropped, delivers events of that owner only, in the order they
    were published here or received from peers, each at most once; it misses none of them when its queue has room
    whenever one is published.  The registry knows exactly the open streams, so dropped streams leave nothing
    behind. *)
Theorem events_reach_their_owner n peers b0 ops0 owner ops :
  0 ≤ n → broadcaster_new valid_endpoint n peers = Ok b0 → subscribes ops0 + 1 + subscribes ops < 2 ^ 64 →
  let b := bus_run ops0 b0 in
  let '(rx, b1) := subscribe owner b in
  (DropStream rx ∉ ops →
     received rx ops b1 ++ queue_of (bus_run ops b1) rx `sublist_of` published owner ops ∧
     (keeps_up rx owner ops b1 → received rx ops b1 ++ queue_of (bus_run ops b1) rx = published owner ops)) ∧
  (∀ o s, (∃ l, rg_subs (registry b) !! o = Some l ∧ s ∈ l) ↔
     streams b !! ss_tx s = Some {| sb_rx := ss_tx s; sb_owner := o; sb_id := ss_id s |}) ∧
  (streams b = ∅ → rg_subs (registry b) = ∅).
Proof.
  intros Hn Hnew Hlt. destruct (new_ok n peers b0 Hn Hnew) as (Hok0 & Hid0 & _).
  pose proof (subscribes_nonneg ops). destruct (bus_run_ok ops0 b0 Hok0) as [Hok Hid]; [lia|]. cbv zeta.
  set (b := bus_run ops0 b0) in *. destruct (subscribe_ok owner b Hok) as (Hok1 & Hrx & Hnone & Hst); [lia|].
  destruct (step_ok (Subscribe owner) b Hok) as (_ & Hid1 & _); [cbn; lia|]. cbn [bus_step subscribes] in Hid1.
  destruct (subscribe owner b) as [rx b1] eqn:Hsub. cbn [fst snd] in *. subst rx. split_and!.
  - intros Hdrop. destruct (delivered ops b1 _ _ Hok1 ltac:(lia) Hst Hdrop) as [H1 H2]. cbn in H1, H2.
    assert (queue_of b1 (next_chan b) = []) as Hq; [|rewrite Hq in H1, H2; done].
    unfold subscribe, register, new_chan, take_id in Hsub. injection Hsub as <-. unfold queue_of. cbn.
    rewrite lookup_insert_eq. destruct (channel_spec _ (ok_capacity _ Hok)); done.
  - intros o s. split; [intros (l & Hl & Hs); by apply (ok_subs _ Hok o l s)|]. intros Hs.
    destruct (ok_streams _ Hok _ _ Hs) as (_ & l & Hl & Hin). exists l. by destruct s.
  - intros Hs. apply map_eq. intros o. rewrite lookup_empty. apply eq_None_not_Some. intros [l Hl].
    destruct l as [|s l]; [by apply (ok_nonempty _ Hok o)|]. pose proof (ok_subs _ Hok o _ s Hl ltac:(by left)) as Hss.
    by rewrite Hs in Hss.
Qed.
End runs.

Module EventsWitness.
(** A channel as a list with a bound. *)
Record queue := { q_items : list Proto.Event; q_bound : Z; q_open : bool }.
Definition put (e : Proto.Event) (q : queue) : queue :=
  if q_open q && (len (q_items q) <? q_bound q)
  then {| q_items := q_items q ++ [e]; q_bound := q_bound q; q_open := q_open q |} else q.
#[local] Instance mpsc : Mpsc Proto.Event.
Proof.
  refine {| chan := queue; channel n := {| q_items := []; q_bound := n; q_open := true |}; try_send := put;
            poll_recv q := (head (q_items q), {| q_items := tail (q_items q); q_bound := q_bound q; q_open := q_open q |});
            close q := {| q_items := q_items q; q_bound := q_bound q; q_open := false |};
            queued := q_items; capacity := q_bound; is_open := q_open |}; try done.
  - intros e q. unfold put. by destruct (_ && _).
  - intros e q. unfold put. by destruct (_ && _).
Defined.

Definition ev (type : Z) (owner : string) : Proto.Event := {| Proto.ev_type := type; Proto.ev_owner_id := bs owner |}.
Definition any_endpoint (_ : str) : bool := true.
Definition b0 : Bus :=
  match broadcaster_new any_endpoint 2 [bs "http://peer"] with Ok b => b | Err _ =>
    {| registry := {| rg_subs := ∅; rg_next_id := 0; rg_capacity := 1 |}; static_peer_txs := []; dynamic_peer_txs := ∅;
       chans := ∅; next_chan := 0; streams := ∅ |} end.
Definition ops : list bus_op :=
  [PublishLocal (ev 1 "alice"); PublishFromPeer (ev 2 "bob"); Poll 2; PublishFromPeer (ev 3 "alice"); DropStream 1].

Lemma events_reach_their_owner_witness :
  broadcaster_new any_endpoint 2 [bs "http://peer"] = Ok b0 ∧
  received any_endpoint 2 ops (subscribe (bs "alice") (bus_run any_endpoint [Subscribe (bs "bob")] b0)).2 ++
    queue_of (bus_run any_endpoint ops (subscribe (bs "alice") (bus_run any_endpoint [Subscribe (bs "bob")] b0)).2) 2
  = [ev 1 "alice"; ev 3 "alice"].
Proof.
  split; [reflexivity|].
  pose proof (events_reach_their_owner any_endpoint 2 [bs "http://peer"] b0 [Subscribe (bs "bob")] (bs "alice") ops
    ltac:(lia) ltac:(reflexivity) ltac:(reflexivity)) as H. cbv zeta in H.
  destruct H as [H _]. destruct H as [_ H].
  - apply (bool_decide_eq_true_1 (DropStream 2 ∉ ops)). vm_compute. reflexivity.
  - apply H. vm_compute. repeat split; intros; reflexivity.
Defined.
End EventsWitness.
