(* ===== verification/EventLog.v ===== *)
(** * The retained event log of the HTTP facade ([src/web/eventlog.rs],
    [src/web/sse.rs])

    A log keeps the last events of one owner, numbered; a client that comes back
    resumes after the last number it saw.  Logs are created when a client attaches
    and evicted some time after the last one left; the numbering goes on in the
    next log.  Times are in milliseconds. *)

From Stdlib Require Import ZArith NArith Lia Strings.Byte.
From stdpp Require Import sorting countable base numbers gmap strings list.
From S2P Require Import Prelude RustStd Proto.
Local Open Scope Z_scope.

Record StoredEvent := { se_id : Z; se_event : Proto.Event }.
Record OwnerLog := {
  last_id : Z;
  ring : list StoredEvent;
  refs : Z;
  idle_since : option Z
}.
(** [seq] is shared with the log and survives it. *)
Record OwnerEntry := { oe_log : option OwnerLog; seq : Z }.
Record EventLog := {
  log_capacity : Z;
  retention : Z;
  owners : gmap str OwnerEntry;
  last_evict : Z
}.
Definition MAX_REMEMBERED_OWNERS : Z := 65536.

(** ** One log *)

Definition spawn_log : OwnerLog := {| last_id := 0; ring := []; refs := 0; idle_since := None |}.

Fixpoint pop_excess (capacity : Z) (r : list StoredEvent) : list StoredEvent :=
  match r with
  | [] => []
  | x :: r' => if capacity <? len r then pop_excess capacity r' else r
  end.
(** [push], with the counter the log shares: its new value. *)
Definition push_event (capacity : Z) (ev : Proto.Event) (e : OwnerEntry) : OwnerEntry :=
  let next := (seq e + 1) mod 2 ^ 64 in
  {| oe_log := (λ l, {| last_id := next;
                        ring := pop_excess capacity (ring l ++ [{| se_id := next; se_event := ev |}]);
                        refs := refs l; idle_since := idle_since l |}) <$> oe_log e;
     seq := next |}.
Definition since (l : OwnerLog) (after : Z) : list StoredEvent := filter (λ e, after < se_id e) (ring l).

(** ** The registry *)

Definition new_event_log (capacity retention now : Z) : EventLog :=
  {| log_capacity := Z.max capacity 1; retention := retention; owners := ∅; last_evict := now |}.

Definition set_owners (f : gmap str OwnerEntry → gmap str OwnerEntry) (st : EventLog) : EventLog :=
  {| log_capacity := log_capacity st; retention := retention st; owners := f (owners st); last_evict := last_evict st |}.

Definition retained (window now : Z) (l : OwnerLog) : bool :=
  (0 <? refs l) || match idle_since l with Some t => now - t <? window | None => true end.
Definition expire_log (window now : Z) (e : OwnerEntry) : OwnerEntry :=
  match oe_log e with
  | Some l => if retained window now l then e else {| oe_log := None; seq := seq e |}
  | None => e
  end.
Definition no_log (m : gmap str OwnerEntry) (o : str) : bool :=
  match m !! o with Some e => match oe_log e with None => true | Some _ => false end | None => false end.
(** The remembered counters dropped when there are too many; [order] is the
    iteration order of the map. *)
Definition forget_excess (order : list str) (m : gmap str OwnerEntry) : gmap str OwnerEntry :=
  if MAX_REMEMBERED_OWNERS <? Z.of_nat (size m) then
    let excess := Z.to_nat (Z.of_nat (size m) - MAX_REMEMBERED_OWNERS) in
    foldl (λ m o, delete o m) m (take excess (List.filter (no_log m) order))
  else m.
Definition evict_expired (order : list str) (now : Z) (st : EventLog) : EventLog :=
  if now - last_evict st <? 1000 then st
  else
    {| log_capacity := log_capacity st; retention := retention st;
       owners := forget_excess order (expire_log (retention st) now <$> owners st); last_evict := now |}.

Definition add_ref (l : OwnerLog) : OwnerLog :=
  {| last_id := last_id l; ring := ring l; refs := refs l + 1; idle_since := idle_since l |}.
Definition attach (order : list str) (now : Z) (owner : str) (st : EventLog) : EventLog :=
  set_owners (λ m,
    let entry := default {| oe_log := None; seq := 0 |} (m !! owner) in
    <[owner := {| oe_log := Some (add_ref (default spawn_log (oe_log entry))); seq := seq entry |}]> m)
    (evict_expired order now st).
(** [Drop for Attach] *)
Definition detach (now : Z) (owner : str) (st : EventLog) : EventLog :=
  set_owners (alter (λ e,
    {| oe_log := (λ l, {| last_id := last_id l; ring := ring l; refs := refs l - 1;
                          idle_since := if refs l =? 1 then Some now else idle_since l |}) <$> oe_log e;
       seq := seq e |}) owner) st.

(** ** The event stream *)

(** The cursor a stream starts from: the [Last-Event-ID] header, then the query,
    then the present. *)
Definition last_event_id (header : option bytes) : option Z :=
  match header with
  | Some v =>
      if forallb (λ b, (byte_val b =? 9) || ((32 <=? byte_val b) && (byte_val b <? 127))) v
      then parse_u64 (trim v) else None
  | None => None
  end.
Definition start_cursor (header : option bytes) (after : option Z) (l : OwnerLog) : Z :=
  match last_event_id header with
  | Some id => id
  | None => default (last_id l) after
  end.
(** One round of the stream: the frames it yields and its new cursor. *)
Definition sse_round (l : OwnerLog) (cursor : Z) : list StoredEvent * Z :=
  (since l cursor, default cursor (se_id <$> last (since l cursor))).

Definition event_type_name (t : Z) : str :=
  if t =? 1 then bs "killed" else if t =? 2 then bs "revoke" else if t =? 3 then bs "grant" else bs "unspecified".

(** ** Runs *)

Inductive log_op :=
| Attach (order : list str) (now : Z) (owner : str)
| Detach (now : Z) (owner : str)
| Evict (order : list str) (now : Z)
(** the drain task of an owner's log receives an event *)
| Receive (owner : str) (ev : Proto.Event)
(** the drain task of an evicted log receives one before it stops *)
| ReceiveLate (owner : str).

Definition log_step (op : log_op) (st : EventLog) : EventLog :=
  match op with
  | Attach order now owner => attach order now owner st
  | Detach now owner => detach now owner st
  | Evict order now => evict_expired order now st
  | Receive owner ev => set_owners (alter (push_event (log_capacity st) ev) owner) st
  | ReceiveLate owner =>
      set_owners (alter (λ e, {| oe_log := oe_log e; seq := (seq e + 1) mod 2 ^ 64 |}) owner) st
  end.

Definition log_of (st : EventLog) (o : str) : option OwnerLog := owners st !! o ≫= oe_log.

(** What was numbered for an owner: in its present log, and since the owner was
    last forgotten. *)
Record numbered := { history : list StoredEvent; issued : list StoredEvent }.
Definition received_by (o : str) (op : log_op) (st : EventLog) : list StoredEvent :=
  match op with
  | Receive o' ev =>
      if decide (o' = o) then
        match owners st !! o with
        | Some e => if oe_log e then [{| se_id := (seq e + 1) mod 2 ^ 64; se_event := ev |}] else []
        | None => []
        end
      else []
  | _ => []
  end.
(** The registry after the eviction an operation begins with. *)
Definition evicted (op : log_op) (st : EventLog) : EventLog :=
  match op with
  | Attach order now _ | Evict order now => evict_expired order now st
  | _ => st
  end.
Definition after_eviction (o : str) (st' : EventLog) (g : numbered) : numbered :=
  {| history := if log_of st' o then history g else [];
     issued := if owners st' !! o then issued g else [] |}.
Definition number_step (o : str) (op : log_op) (st : EventLog) (g : numbered) : numbered :=
  let g' := after_eviction o (evicted op st) g in
  let new := received_by o op st in
  {| history := history g' ++ new; issued := issued g' ++ new |}.
Definition log_run (o : str) (ops : list log_op) (st : EventLog) : EventLog * numbered :=
  foldl (λ x op, (log_step op x.1, number_step o op x.1 x.2)) (st, {| history := []; issued := [] |}) ops.

(** ** Facts about the ring *)

Lemma pop_excess_drop c r : pop_excess c r = drop (length r - Z.to_nat c) r.
Proof.
  induction r as [|x r IH]; [done|]. cbn [pop_excess]. unfold len in *. cbn [length] in *.
  destruct (Z.ltb_spec c (Z.of_nat (S (length r)))).
  - rewrite IH. destruct (Z.to_nat c) as [|m] eqn:Hm.
    + rewrite !Nat.sub_0_r. done.
    + replace (S (length r) - S m)%nat with (S (length r - S m)) by lia. done.
  - replace (S (length r) - Z.to_nat c)%nat with 0%nat by lia. done.
Qed.
Lemma push_ring c h x :
  1 ≤ c → pop_excess c (drop (length h - Z.to_nat c) h ++ [x]) = drop (length (h ++ [x]) - Z.to_nat c) (h ++ [x]).
Proof.
  intros Hc. rewrite pop_excess_drop, !length_app, length_drop. cbn [length].
  destruct (decide (length h < Z.to_nat c)%nat).
  - replace (length h - Z.to_nat c)%nat with 0%nat by lia. cbn [drop]. f_equal. lia.
  - replace (length h - (length h - Z.to_nat c) + 1 - Z.to_nat c)%nat with 1%nat by lia.
    rewrite !drop_app_le by (rewrite ?length_drop; lia). rewrite drop_drop. do 2 f_equal. lia.
Qed.

Lemma sorted_snoc (l : list StoredEvent) s x :
  StronglySorted Z.lt (se_id <$> l) → Forall (λ y, 0 < se_id y ≤ s) l → s < se_id x →
  StronglySorted Z.lt (se_id <$> l ++ [x]).
Proof.
  intros Hl Hs Hx. induction l as [|y l IH]; cbn in *; [repeat constructor|].
  apply StronglySorted_inv in Hl as [Hl Hy]. apply Forall_cons in Hs as [? Hs].
  constructor; [by apply IH|]. rewrite fmap_app. apply Forall_app. split; [done|].
  repeat constructor. cbn. lia.
Qed.

(** ** What every run keeps *)

Record entry_ok (cap n : Z) (e : OwnerEntry) (g : numbered) : Prop := {
  ok_seq : 0 ≤ seq e ≤ n;
  ok_suffix : history g `suffix_of` issued g;
  ok_sorted : StronglySorted Z.lt (se_id <$> issued g);
  ok_below : Forall (λ x, 0 < se_id x ≤ seq e) (issued g);
  ok_log : match oe_log e with
           | Some l => ring l = drop (length (history g) - Z.to_nat cap) (history g) ∧
                       last_id l = default 0 (se_id <$> last (history g))
           | None => history g = []
           end
}.
Definition owner_ok (n : Z) (st : EventLog) (o : str) (g : numbered) : Prop :=
  1 ≤ log_capacity st ∧
  match owners st !! o with
  | Some e => entry_ok (log_capacity st) n e g
  | None => history g = [] ∧ issued g = []
  end.

Lemma entry_ok_weaken cap n n' e g : n ≤ n' → entry_ok cap n e g → entry_ok cap n' e g.
Proof. intros ? [? ? ? ? ?]. split; auto. lia. Qed.
(** The log changes only in its references and its idle time. *)
Definition same_log (l l' : option OwnerLog) : Prop :=
  match l, l' with
  | Some l, Some l' => ring l' = ring l ∧ last_id l' = last_id l
  | None, None => True
  | _, _ => False
  end.
Lemma entry_ok_log cap n e e' g :
  same_log (oe_log e) (oe_log e') → seq e' = seq e → entry_ok cap n e g → entry_ok cap n e' g.
Proof.
  intros Hl Hs [? ? ? ? Hr]. split; rewrite ?Hs; auto. unfold same_log in Hl.
  destruct (oe_log e), (oe_log e'); try done. destruct Hl as [-> ->]. done.
Qed.
Lemma entry_ok_gone cap n e g :
  entry_ok cap n e g → entry_ok cap n {| oe_log := None; seq := seq e |} {| history := []; issued := issued g |}.
Proof. intros [? ? ? ? ?]. split; cbn; auto. apply suffix_nil. Qed.
Lemma entry_ok_spawn cap n s g :
  entry_ok cap n {| oe_log := None; seq := s |} g →
  entry_ok cap n {| oe_log := Some (add_ref spawn_log); seq := s |} g.
Proof. intros [? ? ? ? Hh]. cbn in *. split; cbn; auto. rewrite Hh. done. Qed.
Lemma entry_ok_push cap n ev e g :
  1 ≤ cap → n + 1 < 2 ^ 64 → entry_ok cap n e g →
  let new := [{| se_id := (seq e + 1) mod 2 ^ 64; se_event := ev |}] in
  is_Some (oe_log e) →
  entry_ok cap (n + 1) (push_event cap ev e) {| history := history g ++ new; issued := issued g ++ new |}.
Proof.
  intros Hc Hn [? [k Hk] Hs Hb Hr] new [l Hl]. subst new. rewrite Hl in Hr. destruct Hr as [Hr Hi].
  rewrite Z.mod_small by lia. unfold push_event. rewrite Hl, Z.mod_small by lia. split; cbn; [lia| | | |].
  - exists k. by rewrite Hk, app_assoc.
  - apply sorted_snoc with (seq e); [done|done|cbn; lia].
  - apply Forall_app. split; [|repeat constructor; cbn; lia]. eapply Forall_impl; [exact Hb|]. cbn. lia.
  - rewrite Hr, push_ring, last_snoc by done. done.
Qed.

Lemma deleted_lookup (ks : list str) (m : gmap str OwnerEntry) o :
  foldl (λ m o, delete o m) m ks !! o = if decide (o ∈ ks) then None else m !! o.
Proof.
  revert m. induction ks as [|k ks IH]; intros m; cbn; [done|]. rewrite IH.
  destruct (decide (o = k)) as [->|?].
  - rewrite lookup_delete_eq. rewrite (decide_True (P := k ∈ k :: ks)) by left. by destruct (decide _).
  - rewrite lookup_delete_ne by done.
    destruct (decide (o ∈ ks)); [rewrite decide_True by (by right)|rewrite decide_False by set_solver]; done.
Qed.
Lemma forget_lookup order m o :
  forget_excess order m !! o = m !! o ∨ (forget_excess order m !! o = None ∧ no_log m o = true).
Proof.
  unfold forget_excess. destruct (_ <? _); [|by left]. rewrite deleted_lookup.
  destruct (decide _) as [Hin|]; [right|by left]. split; [done|].
  apply elem_of_take in Hin as (i & Hi & _). apply list_elem_of_lookup_2, list_elem_of_In, filter_In in Hi. apply Hi.
Qed.
(** An eviction keeps an owner's log, drops it, or forgets the owner. *)
Lemma evict_lookup order now st o e :
  owners st !! o = Some e →
  let st' := evict_expired order now st in
  owners st' !! o = Some e ∨
  owners st' !! o = Some {| oe_log := None; seq := seq e |} ∨
  (owners st' !! o = None).
Proof.
  intros He st'. subst st'. unfold evict_expired. destruct (_ <? _); [by left|]. cbn.
  destruct (forget_lookup order (expire_log (retention st) now <$> owners st) o) as [->|[-> _]]; [|by right; right].
  rewrite lookup_fmap, He. cbn. unfold expire_log.
  destruct (oe_log e) eqn:Hl; [destruct (retained _ _ _)|]; auto.
Qed.
Lemma evict_absent order now st o :
  owners st !! o = None → owners (evict_expired order now st) !! o = None.
Proof.
  intros He. unfold evict_expired. destruct (_ <? _); [done|]. cbn.
  destruct (forget_lookup order (expire_log (retention st) now <$> owners st) o) as [->|[-> _]]; [|done].
  by rewrite lookup_fmap, He.
Qed.
Lemma evict_capacity order now st : log_capacity (evict_expired order now st) = log_capacity st.
Proof. unfold evict_expired. by destruct (_ <? _). Qed.

Lemma numbered_eta g : {| history := history g; issued := issued g |} = g.
Proof. by destruct g. Qed.
Lemma evict_ok n order now st o g :
  owner_ok n st o g →
  owner_ok n (evict_expired order now st) o (after_eviction o (evict_expired order now st) g).
Proof.
  intros [Hc Ho]. split; [by rewrite evict_capacity|]. rewrite evict_capacity. unfold after_eviction, log_of.
  destruct (owners st !! o) as [e|] eqn:He.
  - destruct (evict_lookup order now st o e He) as [-> | [-> | ->]]; cbn.
    + destruct (oe_log e) eqn:Hl; cbn.
      * by rewrite numbered_eta.
      * pose proof (ok_log _ _ _ _ Ho) as Hh. rewrite Hl in Hh. rewrite <- Hh, numbered_eta. done.
    + by apply entry_ok_gone.
    + done.
  - by rewrite evict_absent.
Qed.

(** An operation that evicts nothing leaves the numbering as it is. *)
Lemma after_none n o st g : owner_ok n st o g → after_eviction o st g = g.
Proof.
  intros [_ Ho]. unfold after_eviction, log_of. destruct g as [h i]. cbn.
  destruct (owners st !! o) as [e|] eqn:He; cbn in *.
  - pose proof (ok_log _ _ _ _ Ho) as Hl. cbn in Hl. destruct (oe_log e); cbn; [done|].
    by rewrite Hl.
  - by destruct Ho as [-> ->].
Qed.
Lemma number_none o op st g :
  received_by o op st = [] → number_step o op st g = after_eviction o (evicted op st) g.
Proof. intros Hr. unfold number_step. rewrite Hr, !app_nil_r. apply numbered_eta. Qed.
Lemma owner_ok_weaken n st o g : owner_ok n st o g → owner_ok (n + 1) st o g.
Proof.
  intros [? Ho]. split; [done|]. destruct (owners st !! o); [|done]. apply entry_ok_weaken with n; [lia|done].
Qed.
Lemma attach_ok n order now o o' st g :
  0 ≤ n → owner_ok n (evict_expired order now st) o g → owner_ok n (attach order now o' st) o g.
Proof.
  intros Hn [Hc Ho]. split; [exact Hc|]. cbn.
  destruct (decide (o' = o)) as [->|?]; [|by rewrite lookup_insert_ne].
  rewrite lookup_insert_eq. destruct (owners (evict_expired order now st) !! o) as [e|]; cbn.
  - destruct e as [[l|] s]; cbn; [|by apply entry_ok_spawn].
    by eapply entry_ok_log; [| |exact Ho].
  - destruct Ho as [Hh Hi]. apply entry_ok_spawn. split; cbn; rewrite ?Hh, ?Hi; try done.
    constructor.
Qed.
Lemma alter_ok n n' f o o' st g :
  n ≤ n' →
  (∀ e, owners st !! o = Some e → o' = o → entry_ok (log_capacity st) n e g → entry_ok (log_capacity st) n' (f e) g) →
  owner_ok n st o g → owner_ok n' (set_owners (alter f o') st) o g.
Proof.
  intros Hn Hf [Hc Ho]. split; [done|]. cbn. destruct (decide (o' = o)) as [->|?].
  - rewrite lookup_alter_eq. destruct (owners st !! o) eqn:He; cbn; [by apply Hf|done].
  - rewrite lookup_alter_ne by done. destruct (owners st !! o); [by apply entry_ok_weaken with n|done].
Qed.

Lemma late_ok n e g cap :
  n + 1 < 2 ^ 64 → entry_ok cap n e g →
  entry_ok cap (n + 1) {| oe_log := oe_log e; seq := (seq e + 1) mod 2 ^ 64 |} g.
Proof.
  intros Hn [? ? ? Hb ?]. rewrite Z.mod_small by lia. split; cbn; auto; [lia|].
  eapply Forall_impl; [exact Hb|]. cbn. lia.
Qed.
Lemma receive_ok n ev o' o st g :
  n + 1 < 2 ^ 64 → owner_ok n st o g →
  owner_ok (n + 1) (log_step (Receive o' ev) st) o (number_step o (Receive o' ev) st g).
Proof.
  intros Hn Ho. unfold number_step. cbn [evicted]. rewrite (after_none n) by done. cbn [log_step received_by].
  destruct (decide (o' = o)) as [->|?].
  - destruct Ho as [Hc Ho]. split; [done|]. cbn. rewrite lookup_alter_eq.
    destruct (owners st !! o) as [e|] eqn:He; cbn; [|by rewrite !app_nil_r].
    destruct (oe_log e) as [l|] eqn:Hl; [by apply entry_ok_push|].
    rewrite !app_nil_r, numbered_eta. unfold push_event. rewrite Hl. cbn.
    pose proof (late_ok n e g (log_capacity st) Hn Ho) as H. by rewrite Hl in H.
  - rewrite !app_nil_r, numbered_eta. apply alter_ok with n; [lia|done|done].
Qed.
Lemma log_step_ok n op o st g :
  0 ≤ n → n + 1 < 2 ^ 64 → owner_ok n st o g → owner_ok (n + 1) (log_step op st) o (number_step o op st g).
Proof.
  intros H0 Hn Ho. destruct op as [order now o'|now o'|order now|o' ev|o']; cbn [log_step].
  - rewrite number_none by done. apply owner_ok_weaken, attach_ok, evict_ok; done.
  - rewrite number_none by done. cbn [evicted]. rewrite (after_none n) by done.
    apply alter_ok with n; [lia| |done]. intros e _ _ He. apply entry_ok_weaken with n; [lia|].
    eapply entry_ok_log; [| |exact He]; [|done]. cbn. by destruct (oe_log e).
  - rewrite number_none by done. by apply owner_ok_weaken, evict_ok.
  - by apply receive_ok.
  - rewrite number_none by done. cbn [evicted]. rewrite (after_none n) by done.
    apply alter_ok with n; [lia| |done]. intros e _ _ He. by apply late_ok.
Qed.
Lemma log_run_ok n ops o st g :
  0 ≤ n → n + len ops < 2 ^ 64 → owner_ok n st o g →
  let r := foldl (λ x op, (log_step op x.1, number_step o op x.1 x.2)) (st, g) ops in
  owner_ok (n + len ops) r.1 o r.2.
Proof.
  revert n st g. induction ops as [|op ops IH]; intros n st g H0 Hn Ho; unfold len in *; cbn [foldl length] in *.
  - by rewrite Z.add_0_r.
  - replace (n + Z.of_nat (S (length ops))) with (n + 1 + Z.of_nat (length ops)) by lia.
    apply IH; [lia|lia|]. cbn. apply log_step_ok; [done|lia|done].
Qed.
Lemma new_log_ok capacity retention now o :
  owner_ok 0 (new_event_log capacity retention now) o {| history := []; issued := [] |}.
Proof. split; cbn; [lia|]. done. Qed.

(** ** Resuming *)

Lemma suffix_filter_drop (P : StoredEvent → Prop) `{∀ x, Decision (P x)} (l : list StoredEvent) k :
  filter P (drop k l) `suffix_of` filter P l.
Proof. exists (filter P (take k l)). by rewrite <- filter_app, take_drop. Qed.
Lemma sorted_app_lt (a b : list StoredEvent) x y :
  StronglySorted Z.lt (se_id <$> a ++ b) → x ∈ a → y ∈ b → se_id x < se_id y.
Proof.
  intros Hs Hx Hy. induction a as [|z a IH]; [by apply not_elem_of_nil in Hx|].
  cbn in Hs. apply StronglySorted_inv in Hs as [Hs Hz]. apply elem_of_cons in Hx as [->|Hx]; [|by apply IH].
  rewrite Forall_forall in Hz. apply Hz. rewrite fmap_app. apply elem_of_app. right. by apply list_elem_of_fmap_2.
Qed.
Lemma sorted_suffix (a b : list StoredEvent) :
  a `suffix_of` b → StronglySorted Z.lt (se_id <$> b) → StronglySorted Z.lt (se_id <$> a).
Proof.
  intros [k ->] Hs. induction k as [|z k IH]; [done|]. cbn in Hs. apply StronglySorted_inv in Hs as [Hs _]. auto.
Qed.

Lemma run_capacity ops o st g :
  log_capacity (foldl (λ x op, (log_step op x.1, number_step o op x.1 x.2)) (st, g) ops).1 = log_capacity st.
Proof.
  revert st g. induction ops as [|op ops IH]; intros st g; [done|]. cbn. rewrite IH.
  destruct op; cbn; auto using evict_capacity.
Qed.
(** What a suffix of the numbered events leaves out is older than its first. *)
Lemma gap_visible (after : Z) (missing got : list StoredEvent) :
  StronglySorted Z.lt (se_id <$> missing ++ got) → (∀ x, x ∈ missing → after < se_id x) →
  missing = [] ∨ got = [] ∨ ∃ e rest, got = e :: rest ∧ after + 1 < se_id e.
Proof.
  intros Hs Hm. destruct missing as [|x missing]; [by left|]. destruct got as [|e rest]; [by right; left|].
  right; right. exists e, rest. split; [done|].
  assert (se_id x < se_id e) by (eapply sorted_app_lt; [exact Hs|left|left]).
  specialize (Hm x ltac:(left)). lia.
Qed.
Lemma ids_sorted_filter after (r : list StoredEvent) :
  StronglySorted Z.lt (se_id <$> r) → StronglySorted Z.lt (se_id <$> filter (λ e, after < se_id e) r).
Proof.
  intros Hs. induction r as [|y r IH]; [constructor|]. cbn in Hs.
  apply StronglySorted_inv in Hs as [Hs Hy]. rewrite filter_cons.
  destruct (decide _); [|by apply IH]. cbn. constructor; [by apply IH|].
  rewrite Forall_forall in *. intros z Hz. apply Hy.
  apply list_elem_of_fmap in Hz as (w & -> & Hw). apply list_elem_of_filter in Hw as [_ Hw].
  by apply list_elem_of_fmap_2.
Qed.
Lemma round_drains l after :
  StronglySorted Z.lt (se_id <$> ring l) → since l (sse_round l after).2 = [].
Proof.
  intros Hs. unfold sse_round. cbn [snd]. destruct (last (since l after)) as [e|] eqn:He; cbn.
  - apply elem_of_nil_inv. intros x Hx. unfold since in *. apply list_elem_of_filter in Hx as [Hx Hr].
    apply last_Some in He as [k Hk].
    assert (Hsub : StronglySorted Z.lt (se_id <$> k ++ [e])) by (rewrite <- Hk; by apply ids_sorted_filter).
    assert (Hin : e ∈ filter (λ e, after < se_id e) (ring l)) by (rewrite Hk; set_solver).
    apply list_elem_of_filter in Hin as [Ha _].
    assert (Hx' : x ∈ k ++ [e]) by (rewrite <- Hk; apply list_elem_of_filter; split; [lia|done]).
    apply elem_of_app in Hx' as [Hx'|Hx']; [|apply list_elem_of_singleton in Hx' as ->; lia].
    assert (se_id x < se_id e) by (eapply sorted_app_lt; [exact Hsub|done|left]). lia.
  - by apply last_None in He.
Qed.

(** C23: a stream resumes exactly where it stopped.  After any run of attaches,
    detaches, evictions and deliveries, the numbers an owner's events were given
    increase strictly as long as the registry remembers the owner, also across
    evicted logs, and the next one is larger.  A round of the stream from any
    cursor yields, in order, the numbered events after the cursor, all of them
    or the latest ones; when some are missing and any is yielded, the first one
    yielded jumps past the number after the cursor, so that the client sees the
    gap.  Nothing of the present log is missing when it never overflowed, no
    more than the capacity is yielded, and the cursor moves past all of it. *)
Theorem resume_is_exact capacity window now ops o l s :
  len ops < 2 ^ 64 →
  let '(st, g) := log_run o ops (new_event_log capacity window now) in
  owners st !! o = Some {| oe_log := Some l; seq := s |} →
  StronglySorted Z.lt (se_id <$> issued g) ∧ Forall (λ e, se_id e < s + 1) (issued g) ∧
  ∀ after,
    let got := (sse_round l after).1 in
    let numbered_after := filter (λ e, after < se_id e) in
    got `suffix_of` numbered_after (issued g) ∧
    (got = numbered_after (issued g) ∨ got = [] ∨ ∃ e rest, got = e :: rest ∧ after + 1 < se_id e) ∧
    (len (history g) ≤ Z.max capacity 1 → got = numbered_after (history g)) ∧
    len got ≤ Z.max capacity 1 ∧
    since l (sse_round l after).2 = [].
Proof.
  intros Hn. pose proof (log_run_ok 0 ops o _ _ ltac:(done) Hn (new_log_ok capacity window now o)) as Hok.
  pose proof (run_capacity ops o (new_event_log capacity window now) {| history := []; issued := [] |}) as Hcap.
  unfold log_run. destruct (foldl _ _ ops) as [st g]. cbn [fst snd] in *. intros He.
  destruct Hok as [Hc Hok]. rewrite He in Hok. destruct Hok as [_ Hsuf Hs Hb Hr]. cbn in Hr, Hb.
  destruct Hr as [Hr _]. rewrite Hcap in Hr. cbn [log_capacity new_event_log] in Hr.
  split; [done|]. split; [eapply Forall_impl; [exact Hb|]; cbn; lia|]. intros after.
  set (got := (sse_round l after).1). set (want := filter (λ e, after < se_id e)).
  assert (Hring : ring l `suffix_of` issued g).
  { etrans; [|exact Hsuf]. rewrite Hr. apply suffix_drop. }
  destruct Hring as [k Hk].
  assert (Hw : want (issued g) = want k ++ got) by (unfold want; by rewrite Hk, filter_app).
  split; [by exists (want k)|]. split; [|split; [|split]].
  - destruct (gap_visible after (want k) got) as [Hm|[Hm|Hm]]; [| |left|by right; left|by right; right].
    + rewrite <- Hw. apply ids_sorted_filter. done.
    + intros x Hx. by apply list_elem_of_filter in Hx as [? _].
    + by rewrite Hw, Hm.
  - intros Hl. unfold got, want, sse_round, since. cbn [fst]. rewrite Hr. unfold len in Hl.
    by replace (length (history g) - Z.to_nat (Z.max capacity 1))%nat with 0%nat by lia.
  - unfold got, sse_round, since, len. cbn [fst].
    pose proof (length_filter (λ e, after < se_id e) (ring l)) as Hf.
    assert (length (ring l) ≤ Z.to_nat (Z.max capacity 1))%nat by (rewrite Hr, length_drop; lia). lia.
  - apply round_drains. apply sorted_suffix with (issued g); [by exists k|done].
Qed.

Module LogWitness.

Definition ev (n : Z) : Proto.Event := {| Proto.ev_type := n; Proto.ev_owner_id := bs "a" |}.
Definition ops : list log_op :=
  [Attach [] 0 (bs "a"); Receive (bs "a") (ev 1); Detach 5 (bs "a");
   Evict [] 9000; Attach [] 9001 (bs "a");
   Receive (bs "a") (ev 2); Receive (bs "a") (ev 3); Receive (bs "a") (ev 1)].
Definition last_log : OwnerLog :=
  {| last_id := 4; ring := [{| se_id := 3; se_event := ev 3 |}; {| se_id := 4; se_event := ev 1 |}];
     refs := 1; idle_since := None |}.

(** The log is evicted and respawned, then overflows: a client that saw event 1
    is given 3 and 4. *)
Lemma resume_is_exact_witness :
  len ops < 2 ^ 64 ∧
  (let '(st, g) := log_run (bs "a") ops (new_event_log 2 5000 0) in
   StronglySorted Z.lt (se_id <$> issued g) ∧ se_id <$> issued g = [1; 2; 3; 4]) ∧
  se_id <$> (sse_round last_log 1).1 = [3; 4] ∧
  since last_log (sse_round last_log 1).2 = [].
Proof.
  assert (Hn : len ops < 2 ^ 64) by (vm_compute; reflexivity).
  pose proof (resume_is_exact 2 5000 0 ops (bs "a") last_log 4 Hn) as H.
  assert (Hi : se_id <$> issued (log_run (bs "a") ops (new_event_log 2 5000 0)).2 = [1; 2; 3; 4])
    by (vm_compute; reflexivity).
  assert (He : owners (log_run (bs "a") ops (new_event_log 2 5000 0)).1 !! bs "a"
               = Some {| oe_log := Some last_log; seq := 4 |}) by (vm_compute; reflexivity).
  destruct (log_run (bs "a") ops (new_event_log 2 5000 0)) as [st g]. cbn [fst snd] in *.
  destruct (H He) as (Hs & _ & Ha). split; [exact Hn|]. split; [split; [exact Hs|exact Hi]|].
  split; [vm_compute; reflexivity|]. apply (Ha 1).
Defined.

(** The numbers are those of one registry: a cursor of another node, or of the
    time before a restart, hides new events until the counter has caught up. *)
Lemma foreign_cursor_hides_events :
  let st := (log_run (bs "a") [Attach [] 0 (bs "a"); Receive (bs "a") (ev 1)] (new_event_log 16 5000 0)).1 in
  match log_of st (bs "a") with
  | Some l => ring l ≠ [] ∧ (sse_round l (start_cursor (Some (bs "7")) None l)).1 = []
  | None => False
  end.
Proof. vm_compute. split; [intros H; discriminate H|reflexivity]. Qed.

End LogWitness.
