(* ===== verification/Engine.v ===== *)
(** * The lock engine ([src/engine.rs])

    Every engine function, generic over the transaction as in the source: the
    class [StoreTxn] is the trait.  The simulation lemmas at the end carry the
    whole engine across any two transaction types related by [StoreSim], in
    particular from [WriteTxn] to the abstract keyspace. *)

From Stdlib Require Import ZArith NArith Lia Strings.Byte.
From stdpp Require Import sorting countable base numbers gmap strings list.
From S2P Require Import Prelude RustStd StoreKeys Store StoreScan StoreSim EngineTypes.
Local Open Scope Z_scope.

Abbreviation RDDESC_CF := CF_DESC_READ.
Abbreviation WRDESC_CF := CF_DESC_WRITE.
Abbreviation FENCE_CF := CF_FENCES.
Abbreviation META_CF := CF_META.
Abbreviation NS_SETTINGS_CF := CF_NAMESPACE_SETTINGS.
Abbreviation ALIVE_CF := CF_OWNER_ALIVE.
Abbreviation OWN_CF := CF_OWNER_HOLDS.
Abbreviation RD_CF := CF_READ_LOCKS.
Abbreviation SEM_CF := CF_SEMAPHORE.
Abbreviation WAIT_CF := CF_WAIT_EDGES.
Abbreviation WR_CF := CF_WRITE_LOCKS.

Definition RELEASE_PAGE : Z := 4096.

Definition is_some {A} (o : option A) : bool :=
  match o with Some _ => true | None => false end.

Record PathInfo := {
  pi_write_owner : option str;
  pi_read_owners : list str;
  pi_fence : option Z;
  pi_claim_owner : option str;
  pi_semaphore_owners : list str
}.
Record OwnedLock := { ol_path : str; ol_mode : Mode }.

(** The context of the apply phase. *)
Record AcquireApplyCtx := {
  ctx_owner : str;
  ctx_namespace : str;
  ctx_request_algorithm : LockAlgorithm;
  ctx_token : Z;
  ctx_own_pfx : bytes
}.

Section engine.
Context {T : Type} `{!StoreTxn T}.

(** ** Shared helpers *)

Definition owner_alive (owner : str) : txm T bool :=
  v ← get_str ALIVE_CF (alive_key owner); mret (is_some v).

Definition get_namespace_policy_record_inner (namespace : str) (dflt : LockAlgorithm)
    : txm T (LockPolicy * bool) :=
  r ← get_str NS_SETTINGS_CF (namespace_policy_key namespace);
  match r with
  | None => mret (from_algorithm dflt, false)
  | Some raw => p ← lift (parse_namespace_policy_value raw); mret (p, true)
  end.

Definition get_namespace_policy_inner (namespace : str) (dflt : LockAlgorithm)
    : txm T (LockAlgorithm * bool) :=
  '(policy, explicit) ← get_namespace_policy_record_inner namespace dflt;
  mret (algorithm policy, explicit).

Definition set_namespace_policy_inner (namespace : str) (alg : LockAlgorithm) : txm T Z :=
  '(current, explicit) ← get_namespace_policy_record_inner namespace default_algorithm;
  let next_epoch := if explicit && bool_decide (algorithm current = alg)
                    then epoch current else saturating_add (epoch current) 1 in
  set_str NS_SETTINGS_CF (namespace_policy_key namespace)
    (namespace_policy_value {| algorithm := alg; epoch := next_epoch |}) 0;;
  mret next_epoch.

Definition delete_namespace_policy_inner (namespace : str) : txm T unit :=
  del NS_SETTINGS_CF (namespace_policy_key namespace).

Definition hold_algorithm (owner : str) (mode : Mode) (path : str) : txm T LockAlgorithm :=
  r ← get_str META_CF (hold_algorithm_key owner (mode_as_str mode) path);
  match r with
  | None => mret default_algorithm
  | Some raw => lift (algorithm_from_str raw)
  end.

Definition set_hold_algorithm (owner : str) (mode : Mode) (path : str)
    (alg : LockAlgorithm) (ttl : Z) : txm T unit :=
  set_str META_CF (hold_algorithm_key owner (mode_as_str mode) path) (algorithm_as_str alg) ttl.

Definition del_hold_algorithm (owner : str) (mode : Mode) (path : str) : txm T unit :=
  del META_CF (hold_algorithm_key owner (mode_as_str mode) path).

Definition semaphore_capacity (path : str) : txm T (option Z) :=
  r ← get_str META_CF (semaphore_permits_key path);
  match r with
  | None => mret None
  | Some raw => n ← lift (of_option "invalid permits" (parse_u32 raw)); mret (Some n)
  end.

Definition set_semaphore_capacity (path : str) (permits : Z) : txm T unit :=
  set_str META_CF (semaphore_permits_key path) (to_string permits) 0.

(** One round of the pruning loops: keep a live owner, drop a dead one. *)
Definition prune_owner (c : cf) (pfx : bytes) (mode : Mode) (path : str)
    (alive : list str) (o : str) : txm T (list str) :=
  a ← owner_alive o;
  if a : bool then mret (alive ++ [o])
  else srem c pfx o;; del_hold_algorithm o mode path;; mret alive.

Definition prune_dead_read_owners (path : str) : txm T (list str) :=
  let rd_pfx := rd_prefix path in
  owners ← smembers_limited RD_CF rd_pfx MAX_SET_ENUM_MEMBERS;
  fold_txm (prune_owner RD_CF rd_pfx Read path) [] owners.

Definition prune_dead_semaphore_owners (path : str) : txm T (list str) :=
  let pfx := sem_prefix path in
  owners ← smembers_limited SEM_CF pfx MAX_SET_ENUM_MEMBERS;
  fold_txm (prune_owner SEM_CF pfx Write path) [] owners.

Definition add_descendant_indexes (mode : Mode) (path : str) (ttl : Z) : txm T unit :=
  for_each (get_ancestors path) (λ anc,
    match mode with
    | Write => sadd WRDESC_CF (wrdesc_key anc) path ttl
    | Read => sadd RDDESC_CF (rddesc_prefix anc) path ttl
    end).

Definition remove_descendant_indexes (mode : Mode) (path : str) : txm T unit :=
  for_each (get_ancestors path) (λ anc,
    match mode with
    | Write => srem WRDESC_CF (wrdesc_key anc) path
    | Read => srem RDDESC_CF (rddesc_prefix anc) path
    end).

Definition get_live_write_owner (path : str) : txm T (option str) :=
  w ← get_str WR_CF (wr_key path);
  match w with
  | None => mret None
  | Some owner =>
      a ← owner_alive owner;
      if a : bool then mret (Some owner)
      else
        del WR_CF (wr_key path);;
        del_hold_algorithm owner Write path;;
        remove_descendant_indexes Write path;;
        mret None
  end.

Definition find_descendant_write_conflict (owner_id path namespace : str)
    : txm T (option (str * str * Reason)) :=
  let idx := wrdesc_key path in
  candidates ← smembers_limited WRDESC_CF idx MAX_SET_ENUM_MEMBERS;
  find_first candidates (λ candidate,
    w ← get_live_write_owner candidate;
    match w with
    | None =>
        srem WRDESC_CF idx candidate;;
        remove_descendant_indexes Write candidate;;
        mret None
    | Some owner =>
        if bool_decide (owner = owner_id) then mret None
        else mret (Some (public_path namespace candidate, owner, DescendantWriteLocked))
    end).

(** The first of [owners] that is not [owner_id]. *)
Fixpoint first_other (owner_id : str) (owners : list str) : option str :=
  match owners with
  | [] => None
  | o :: owners => if bool_decide (o = owner_id) then first_other owner_id owners else Some o
  end.

Definition descendant_read_candidate (owner_id : str) (idx_pfx : bytes)
    (namespace candidate : str) : txm T (option (str * str * Reason)) :=
  owners ← prune_dead_read_owners candidate;
  match owners with
  | [] =>
      srem RDDESC_CF idx_pfx candidate;;
      remove_descendant_indexes Read candidate;;
      mret None
  | _ =>
      mret match first_other owner_id owners with
           | Some owner => Some (public_path namespace candidate, owner, DescendantReadLocked)
           | None => None
           end
  end.

Fixpoint descendant_read_loop (owner_id : str) (idx_pfx : bytes) (namespace : str)
    (seen candidates : list str) : txm T (option (str * str * Reason)) :=
  match candidates with
  | [] => mret None
  | candidate :: candidates =>
      if bool_decide (candidate ∈ seen)
      then descendant_read_loop owner_id idx_pfx namespace seen candidates
      else
        r ← descendant_read_candidate owner_id idx_pfx namespace candidate;
        match r with
        | Some c => mret (Some c)
        | None =>
            descendant_read_loop owner_id idx_pfx namespace (candidate :: seen) candidates
        end
  end.

Definition find_descendant_read_conflict (owner_id path namespace : str)
    : txm T (option (str * str * Reason)) :=
  let idx_pfx := rddesc_prefix path in
  candidates ← smembers_limited RDDESC_CF idx_pfx MAX_SET_ENUM_MEMBERS;
  descendant_read_loop owner_id idx_pfx namespace [] candidates.

(** ** Release of one hold *)

(** The hold behind [key_path] of [owner]: the shared body of
    [apply_release], [release_inner_in_namespace] and [release_held_member]. *)
Definition release_hold (owner : str) (mode : Mode) (key_path : str) : txm T unit :=
  let release_read :=
    let rd_pfx := rd_prefix key_path in
    srem RD_CF rd_pfx owner;;
    del_hold_algorithm owner Read key_path;;
    live ← has_live_member RD_CF rd_pfx;
    if negb live then remove_descendant_indexes Read key_path else mret tt in
  let release_write :=
    let wr_k := wr_key key_path in
    w ← get_str WR_CF wr_k;
    if bool_decide (w = Some owner) then
      del WR_CF wr_k;;
      del_hold_algorithm owner Write key_path;;
      remove_descendant_indexes Write key_path
    else mret tt in
  match mode with
  | Write =>
      alg ← hold_algorithm owner Write key_path;
      if is_semaphore alg then
        srem SEM_CF (sem_prefix key_path) owner;;
        del_hold_algorithm owner Write key_path
      else release_write
  | Read => release_read
  end.

Definition apply_release (owner namespace : str) (req : RelReq) (own_pfx : bytes) : txm T unit :=
  let path := rel_path req in
  srem OWN_CF own_pfx (hold_member namespace (rel_mode req) path);;
  release_hold owner (rel_mode req) (scoped_path namespace path).

(** An owner whose hold set is empty is no longer alive. *)
Definition drop_if_empty (owner : str) (own_pfx alive_k : bytes) : txm T unit :=
  live ← has_live_member OWN_CF own_pfx;
  if negb live then del ALIVE_CF alive_k;; del ALIVE_CF (revoke_key owner) else mret tt.

Definition apply_releases (owner namespace : str) (reqs : list RelReq)
    (own_pfx alive_k : bytes) : txm T unit :=
  for_each reqs (λ req, apply_release owner namespace req own_pfx);;
  drop_if_empty owner own_pfx alive_k.

Definition release_inner_in_namespace (namespace owner : str) (reqs : list RelReq)
    (del_wait_key : bool) : txm T unit :=
  let own_pfx := own_prefix owner in
  let alive_k := alive_key owner in
  for_each reqs (λ req, apply_release owner namespace req own_pfx);;
  drop_if_empty owner own_pfx alive_k;;
  if del_wait_key then del WAIT_CF (wait_key owner) else mret tt.

Definition release_inner (owner : str) (reqs : list RelReq) (del_wait_key : bool) : txm T unit :=
  let namespace := default [] (head ((λ r, handler_of (rel_path r)) <$> reqs)) in
  release_inner_in_namespace namespace owner reqs del_wait_key.

Definition release_held_member (owner item : str) : txm T unit :=
  match parse_hold_member item with
  | None => mret tt
  | Some held => release_hold owner (hl_mode held) (key_path held)
  end.

Definition release_page_body (owner : str) (own_pfx : bytes) (cursor : option bytes)
    : txm T (option bytes + unit) :=
  '(members, next) ← smembers_page OWN_CF own_pfx cursor RELEASE_PAGE;
  for_each members (λ item, release_held_member owner item;; srem OWN_CF own_pfx item);;
  mret match next with
       | None => inr tt
       | Some c => inl (Some c)
       end.

Definition release_owner_wide (owner : str) (del_wait_key : bool) : txm T unit :=
  let own_pfx := own_prefix owner in
  loop (release_page_body owner own_pfx) None;;
  del ALIVE_CF (alive_key owner);;
  del ALIVE_CF (revoke_key owner);;
  if del_wait_key then del WAIT_CF (wait_key owner) else mret tt.

Definition release_all_inner (owner : str) (del_wait_key : bool) : txm T unit :=
  release_owner_wide owner del_wait_key.
Definition force_release_inner (victim : str) : txm T unit := release_owner_wide victim true.

(** ** Acquire: validation *)

Definition validate_held (owner : str) (token : Z) (req : LockReq) (namespace : str)
    : txm T (option AcquireOutcome) :=
  let path := lr_path req in
  let key_path := scoped_path namespace path in
  held_algorithm ← hold_algorithm owner (lr_mode req) key_path;
  if is_semaphore held_algorithm then
    m ← sismember SEM_CF (sem_prefix key_path) owner;
    mret (if m : bool then None else Some (Lost path MissingSemaphore))
  else
    match lr_mode req with
    | Write =>
        w ← get_str WR_CF (wr_key key_path);
        if negb (bool_decide (w = Some owner)) then mret (Some (Lost path MissingWrite))
        else
          f ← get_str FENCE_CF (fence_key key_path);
          mret match parse_fence f with
               | None => Some (Lost path MissingFence)
               | Some cur =>
                   if token <? cur then Some (Conflict path (to_string cur) StaleFencingToken)
                   else None
               end
    | Read =>
        m ← sismember RD_CF (rd_prefix key_path) owner;
        mret (if m : bool then None else Some (Lost path MissingRead))
    end.

Definition validate_new_ancestors (owner namespace key_path : str)
    : txm T (option AcquireOutcome) :=
  find_first (get_ancestors key_path) (λ anc,
    w ← get_live_write_owner anc;
    match w with
    | None => mret None
    | Some anc_owner =>
        if bool_decide (anc_owner = owner) then mret None
        else
          alg ← hold_algorithm anc_owner Write anc;
          mret (if recursive alg
                then Some (Conflict (public_path namespace anc) anc_owner AncestorLocked)
                else None)
    end).

Definition conflict_of (r : str * str * Reason) : AcquireOutcome :=
  let '(path, owner, reason) := r in Conflict path owner reason.

Definition validate_new_write (owner : str) (token : Z) (path namespace key_path : str)
    (alg : LockAlgorithm) (same_owner_write : bool) : txm T (option AcquireOutcome) :=
  rd_owners ← prune_dead_read_owners key_path;
  (match rd_owners with
   | [] => remove_descendant_indexes Read key_path
   | _ => mret tt
   end);;
  match first_other owner rd_owners with
  | Some o => mret (Some (Conflict path o ReadLocked))
  | None =>
      dw ← (if recursive alg then find_descendant_write_conflict owner key_path namespace
            else mret None);
      match dw with
      | Some c => mret (Some (conflict_of c))
      | None =>
          dr ← (if recursive alg then find_descendant_read_conflict owner key_path namespace
                else mret None);
          match dr with
          | Some c => mret (Some (conflict_of c))
          | None =>
              f ← get_str FENCE_CF (fence_key key_path);
              mret match parse_fence f with
                   | Some cur =>
                       if (token <? cur) || ((cur =? token) && negb same_owner_write)
                       then Some (Conflict path (to_string cur) StaleFencingToken)
                       else None
                   | None => None
                   end
          end
      end
  end.

Definition validate_new_semaphore (owner : str) (req : LockReq) (key_path : str)
    : txm T (option AcquireOutcome) :=
  let path := lr_path req in
  if lr_permits req =? 0 then mret (Some (Conflict path [] InvalidPermits))
  else
    cap ← semaphore_capacity key_path;
    let bad := match cap with
               | Some capacity =>
                   if negb (capacity =? lr_permits req)
                   then Some (Conflict path (to_string capacity) InvalidPermits)
                   else None
               | None => None
               end in
    match bad with
    | Some o => mret (Some o)
    | None =>
        m ← sismember SEM_CF (sem_prefix key_path) owner;
        if m : bool then mret None
        else
          holders ← prune_dead_semaphore_owners key_path;
          mret (if lr_permits req <=? as_u32 (len holders)
                then Some (Conflict path (default [] (head holders)) SemaphoreFull)
                else None)
    end.

Definition validate_new (owner : str) (token : Z) (req : LockReq) (namespace : str)
    (policy : LockPolicy) : txm T (option AcquireOutcome) :=
  let path := lr_path req in
  let key_path := scoped_path namespace path in
  let alg := algorithm policy in
  if negb (allows_mode alg (lr_mode req)) then mret (Some (Conflict path [] ReadLocksDisabled))
  else
    a ← validate_new_ancestors owner namespace key_path;
    match a with
    | Some outcome => mret (Some outcome)
    | None =>
        if is_semaphore alg then validate_new_semaphore owner req key_path
        else
          w ← get_live_write_owner key_path;
          match w with
          | Some wr_owner =>
              if bool_decide (wr_owner = owner) then
                match lr_mode req with
                | Write => validate_new_write owner token path namespace key_path alg true
                | Read => mret None
                end
              else mret (Some (Conflict path wr_owner WriteLocked))
          | None =>
              match lr_mode req with
              | Write => validate_new_write owner token path namespace key_path alg false
              | Read => mret None
              end
          end
    end.

Definition validate_acquire (owner : str) (token : Z) (reqs : list LockReq) (namespace : str)
    (policy : LockPolicy) : txm T (option AcquireOutcome) :=
  find_first reqs (λ req,
    match lr_state req with
    | Held => validate_held owner token req namespace
    | New => validate_new owner token req namespace policy
    end).

(** ** Acquire: apply *)

Definition refresh_portfolio (alive_k : bytes) (ttl : Z) : txm T unit :=
  set_str ALIVE_CF alive_k (bs "1") ttl.

Definition write_hold (owner key_path : str) (token : Z) : txm T unit :=
  set_str WR_CF (wr_key key_path) owner 0;;
  set_str FENCE_CF (fence_key key_path) (to_string token) 0;;
  add_descendant_indexes Write key_path 0.

Definition apply_write_acquire (owner path : str) (state : State) (key_path : str) (token : Z)
    : txm T (option AcquireOutcome) :=
  match state with
  | Held => write_hold owner key_path token;; mret None
  | New =>
      w ← get_str WR_CF (wr_key key_path);
      match w with
      | None => write_hold owner key_path token;; mret None
      | Some current =>
          if bool_decide (current = owner) then write_hold owner key_path token;; mret None
          else mret (Some (Conflict path current WriteLocked))
      end
  end.

Definition apply_semaphore_acquire (req : LockReq) (key_path : str)
    : txm T (option AcquireOutcome) :=
  match lr_state req with
  | New =>
      cap ← semaphore_capacity key_path;
      match cap with
      | Some capacity =>
          if negb (capacity =? lr_permits req)
          then mret (Some (Conflict (lr_path req) (to_string capacity) InvalidPermits))
          else mret None
      | None => set_semaphore_capacity key_path (lr_permits req);; mret None
      end
  | Held => mret None
  end.

Definition apply_read_acquire (owner key_path : str) : txm T (option AcquireOutcome) :=
  sadd RD_CF (rd_prefix key_path) owner 0;;
  add_descendant_indexes Read key_path 0;;
  mret None.

Definition apply_acquire (req : LockReq) (ctx : AcquireApplyCtx)
    : txm T (option AcquireOutcome) :=
  let path := lr_path req in
  let owner := ctx_owner ctx in
  let key_path := scoped_path (ctx_namespace ctx) path in
  let member := hold_member (ctx_namespace ctx) (lr_mode req) path in
  held_algorithm ← match lr_state req with
                   | Held => hold_algorithm owner (lr_mode req) key_path
                   | New => mret (ctx_request_algorithm ctx)
                   end;
  outcome ← (if is_semaphore held_algorithm then apply_semaphore_acquire req key_path
             else match lr_mode req with
                  | Write => apply_write_acquire owner path (lr_state req) key_path (ctx_token ctx)
                  | Read => apply_read_acquire owner key_path
                  end);
  match outcome with
  | Some o => mret (Some o)
  | None =>
      (if is_semaphore held_algorithm then sadd SEM_CF (sem_prefix key_path) owner 0
       else mret tt);;
      sadd OWN_CF (ctx_own_pfx ctx) member 0;;
      set_hold_algorithm owner (lr_mode req) key_path held_algorithm 0;;
      mret None
  end.

Definition acquire_inner_in_namespace (args : AcquireArgs) (policy : LockPolicy)
    (namespace : str) : txm T AcquireOutcome :=
  let owner := owner_id args in
  let token := fencing_token args in
  let alive_k := alive_key owner in
  let own_pfx := own_prefix owner in
  if bool_decide (requests args = []) && bool_decide (release_requests args = [])
  then mret (AcquireOk 0)
  else
    let has_held := existsb (λ r, bool_decide (lr_state r = Held)) (requests args) in
    a ← get_str ALIVE_CF alive_k;
    let alive := is_some a in
    if has_held && negb alive then mret (Lost [] MissingAlive)
    else
      (if negb has_held && negb alive && negb (bool_decide (requests args = []))
       then release_owner_wide owner false else mret tt);;
      v ← validate_acquire owner token (requests args) namespace policy;
      match v with
      | Some outcome => mret outcome
      | None =>
          let ctx := {| ctx_owner := owner; ctx_namespace := namespace;
                        ctx_request_algorithm := algorithm policy; ctx_token := token;
                        ctx_own_pfx := own_pfx |} in
          o ← find_first (requests args) (λ req, apply_acquire req ctx);
          match o with
          | Some outcome => mret outcome
          | None =>
              refresh_portfolio alive_k (ttl_ms args);;
              (if negb (bool_decide (release_requests args = []))
               then apply_releases owner namespace (release_requests args) own_pfx alive_k
               else mret tt);;
              mret (AcquireOk (if 0 <? token then token else 0))
          end
      end.

Definition acquire_inner_with_policy (args : AcquireArgs) (alg : LockAlgorithm)
    : txm T AcquireOutcome :=
  let namespace := default [] (head (((λ r, handler_of (lr_path r)) <$> requests args) ++
                                     ((λ r, handler_of (rel_path r)) <$> release_requests args))) in
  acquire_inner_in_namespace args (from_algorithm alg) namespace.

Definition acquire_inner (args : AcquireArgs) : txm T AcquireOutcome :=
  acquire_inner_with_policy args default_algorithm.

(** ** Renew, revoke, fencing, wait edges, inspection *)

Definition renew_inner (owner : str) (ttl : Z) : txm T RenewOutcome :=
  let alive_k := alive_key owner in
  a ← get_str ALIVE_CF alive_k;
  match a with
  | None => mret (RenewLost [] MissingAlive)
  | Some _ =>
      live ← has_live_member OWN_CF (own_prefix owner);
      if negb live then mret (RenewLost [] MissingOwnerSet)
      else
        pexpire_str ALIVE_CF alive_k ttl;;
        r ← get_str ALIVE_CF (revoke_key owner);
        mret (RenewOk (is_some r))
  end.

Definition request_revoke_inner (owner : str) (ttl : Z) : txm T unit :=
  a ← get_str ALIVE_CF (alive_key owner);
  match a with
  | None => mret tt
  | Some _ => set_str ALIVE_CF (revoke_key owner) (bs "1") ttl
  end.

Definition assert_fencing_inner (namespace owner : str) (token : Z) (paths : list str)
    : txm T AssertOutcome :=
  dead ← match paths with
         | [] => mret None
         | p0 :: _ => a ← owner_alive owner; mret (if a : bool then None else Some p0)
         end;
  match dead with
  | Some p0 => mret (AssertFail p0 StaleOwner)
  | None =>
      r ← find_first paths (λ path,
        let key_path := scoped_path namespace path in
        w ← get_str WR_CF (wr_key key_path);
        if negb (bool_decide (w = Some owner)) then mret (Some (AssertFail path StaleOwner))
        else
          f ← get_str FENCE_CF (fence_key key_path);
          mret (if negb (bool_decide (f = Some (to_string token)))
                then Some (AssertFail path StaleFencingToken) else None));
      mret (default AssertOk r)
  end.

Definition read_wait_edge (owner : str) : txm T (option WaitEdge) :=
  r ← get_str WAIT_CF (wait_key owner);
  match r with
  | None => mret None
  | Some raw => e ← lift (parse_wait_edge raw); mret (Some e)
  end.

Definition is_blocking_inner (namespace conflict_path conflict_owner : str) (reason : Reason)
    : txm T bool :=
  let key_path := scoped_path namespace conflict_path in
  match reason with
  | ReadLocked | DescendantReadLocked =>
      let rd_pfx := rd_prefix key_path in
      m ← sismember RD_CF rd_pfx conflict_owner;
      if negb m then mret false
      else
        a ← get_str ALIVE_CF (alive_key conflict_owner);
        match a with
        | Some _ => mret true
        | None =>
            srem RD_CF rd_pfx conflict_owner;;
            del_hold_algorithm conflict_owner Read key_path;;
            live ← has_live_member RD_CF rd_pfx;
            (if negb live then remove_descendant_indexes Read key_path else mret tt);;
            mret false
        end
  | SemaphoreFull =>
      m ← sismember SEM_CF (sem_prefix key_path) conflict_owner;
      if negb m then mret false
      else
        a ← get_str ALIVE_CF (alive_key conflict_owner);
        match a with
        | Some _ => mret true
        | None =>
            srem SEM_CF (sem_prefix key_path) conflict_owner;;
            del_hold_algorithm conflict_owner Write key_path;;
            mret false
        end
  | _ =>
      w ← get_live_write_owner key_path;
      mret (bool_decide (w = Some conflict_owner))
  end.

Definition set_wait_edge_inner (owner conflict_owner : str) (ttl : Z)
    (metadata : option WaitEdgeMetadata) : txm T unit :=
  set_str WAIT_CF (wait_key owner) (encode_wait_edge conflict_owner metadata) ttl.

Definition clear_wait_edge_inner (owner : str) : txm T unit := del WAIT_CF (wait_key owner).

Definition is_owner_alive_inner (owner : str) : txm T bool :=
  v ← get_str ALIVE_CF (alive_key owner); mret (is_some v).

Definition keep_alive_owner (acc : list str) (o : str) : txm T (list str) :=
  a ← owner_alive o; mret (if a : bool then acc ++ [o] else acc).

Definition inspect_path_inner (namespace path : str) : txm T PathInfo :=
  let key_path := scoped_path namespace path in
  w ← get_str WR_CF (wr_key key_path);
  write_owner ← match w with
                | Some owner => a ← owner_alive owner; mret (if a : bool then Some owner else None)
                | None => mret None
                end;
  rds ← smembers_limited RD_CF (rd_prefix key_path) MAX_SET_ENUM_MEMBERS;
  read_owners ← fold_txm keep_alive_owner [] rds;
  f ← get_str FENCE_CF (fence_key key_path);
  sems ← smembers_limited SEM_CF (sem_prefix key_path) MAX_SET_ENUM_MEMBERS;
  semaphore_owners ← fold_txm keep_alive_owner [] sems;
  mret {| pi_write_owner := write_owner; pi_read_owners := read_owners;
          pi_fence := parse_fence f; pi_claim_owner := None;
          pi_semaphore_owners := semaphore_owners |}.

Definition owned_lock_of (m : str) : option OwnedLock :=
  match parse_hold_member m with
  | Some held => Some {| ol_path := hl_path held; ol_mode := hl_mode held |}
  | None => None
  end.

Definition list_owner_locks_inner (owner : str) : txm T (bool * list OwnedLock) :=
  a ← get_str ALIVE_CF (alive_key owner);
  match a with
  | None => mret (false, [])
  | Some _ =>
      members ← smembers_limited OWN_CF (own_prefix owner) MAX_SET_ENUM_MEMBERS;
      mret (true, omap owned_lock_of members)
  end.
End engine.

(** ** Simulation: the engine over two related transactions

    [lock_write] is what the lock operations write: the lock families, the hold
    markers and semaphore capacities of [META_CF], and an expiry only on liveness,
    revocation and wait-edge records. *)

Definition is_marker (k : bytes) : bool := starts_with (bs "hold_alg:") k.
Definition is_permits (k : bytes) : bool := starts_with (bs "sem_permits:") k.
Definition lock_key (c : cf) (k : bytes) : bool :=
  match c with
  | CF_WRITE_LOCKS | CF_READ_LOCKS | CF_SEMAPHORE | CF_DESC_WRITE | CF_DESC_READ
  | CF_OWNER_HOLDS | CF_FENCES | CF_OWNER_ALIVE | CF_WAIT_EDGES => true
  | CF_META => is_marker k || is_permits k
  | _ => false
  end.
Definition leased (c : cf) : bool :=
  match c with CF_OWNER_ALIVE | CF_WAIT_EDGES => true | _ => false end.
Definition lock_write : footprint := λ c k w,
  match w with
  | WSet ttl => leased c || (lock_key c k && (ttl =? 0))
  | WDel => lock_key c k
  | WRaw => false
  end.
(** The same but for new hold-set members, which only a granted acquire adds. *)
Definition hold_write : footprint := λ c k w,
  lock_write c k w &&
  match c, w with CF_OWNER_HOLDS, WSet _ => false | _, _ => true end.
(** The policy operations write the settings family. *)
Definition policy_write : footprint := λ c k w,
  match w with
  | WSet ttl => bool_decide (c = CF_NAMESPACE_SETTINGS) && (ttl =? 0)
  | WDel => bool_decide (c = CF_NAMESPACE_SETTINGS)
  | WRaw => false
  end.

Section read_sims.
Context `{!StoreTxn T, !StoreTxn U} (R : T → U → Prop) `{!ReadSim R}.

Lemma sim_owner_alive o : sim R (owner_alive o) (owner_alive o).
Proof. unfold owner_alive. solve_sim. Qed.
#[local] Hint Resolve sim_owner_alive : sim.

Lemma sim_get_namespace_policy_record_inner ns d :
  sim R (get_namespace_policy_record_inner ns d) (get_namespace_policy_record_inner ns d).
Proof. unfold get_namespace_policy_record_inner. solve_sim. Qed.

Lemma sim_hold_algorithm o m p : sim R (hold_algorithm o m p) (hold_algorithm o m p).
Proof. unfold hold_algorithm. solve_sim. Qed.

Lemma sim_semaphore_capacity p : sim R (semaphore_capacity p) (semaphore_capacity p).
Proof. unfold semaphore_capacity. solve_sim. Qed.

Lemma sim_validate_held o tok req ns :
  sim R (validate_held o tok req ns) (validate_held o tok req ns).
Proof. pose proof sim_hold_algorithm. unfold validate_held. solve_sim. Qed.

Lemma sim_assert_fencing_inner ns o tok ps :
  sim R (assert_fencing_inner ns o tok ps) (assert_fencing_inner ns o tok ps).
Proof. unfold assert_fencing_inner. solve_sim. Qed.

Lemma sim_read_wait_edge o : sim R (read_wait_edge o) (read_wait_edge o).
Proof. unfold read_wait_edge. solve_sim. Qed.

Lemma sim_is_owner_alive_inner o : sim R (is_owner_alive_inner o) (is_owner_alive_inner o).
Proof. unfold is_owner_alive_inner. solve_sim. Qed.

Lemma sim_inspect_path_inner ns p : sim R (inspect_path_inner ns p) (inspect_path_inner ns p).
Proof. unfold inspect_path_inner, keep_alive_owner. solve_sim. Qed.

Lemma sim_list_owner_locks_inner o :
  sim R (list_owner_locks_inner o) (list_owner_locks_inner o).
Proof. unfold list_owner_locks_inner. solve_sim. Qed.
End read_sims.
#[export] Hint Resolve sim_owner_alive sim_get_namespace_policy_record_inner
  sim_hold_algorithm sim_semaphore_capacity sim_validate_held sim_assert_fencing_inner
  sim_read_wait_edge sim_is_owner_alive_inner sim_inspect_path_inner
  sim_list_owner_locks_inner : sim.

Section store_sims.
Context `{!StoreTxn T, !StoreTxn U} (R : T → U → Prop).

Section policy_sims.
Context `{!StoreSim policy_write R}.

Lemma sim_set_namespace_policy_inner ns a :
  sim R (set_namespace_policy_inner ns a) (set_namespace_policy_inner ns a).
Proof. unfold set_namespace_policy_inner. solve_sim. Qed.

Lemma sim_delete_namespace_policy_inner ns :
  sim R (delete_namespace_policy_inner ns) (delete_namespace_policy_inner ns).
Proof. unfold delete_namespace_policy_inner. solve_sim. Qed.
End policy_sims.

Section hold_sims.
Context `{!StoreSim hold_write R}.

Lemma sim_set_hold_algorithm o m p a :
  sim R (set_hold_algorithm o m p a 0) (set_hold_algorithm o m p a 0).
Proof. unfold set_hold_algorithm. solve_sim. Qed.

Lemma sim_del_hold_algorithm o m p : sim R (del_hold_algorithm o m p) (del_hold_algorithm o m p).
Proof. unfold del_hold_algorithm. solve_sim. Qed.

Lemma sim_set_semaphore_capacity p n :
  sim R (set_semaphore_capacity p n) (set_semaphore_capacity p n).
Proof. unfold set_semaphore_capacity. solve_sim. Qed.
#[local] Hint Resolve sim_set_hold_algorithm sim_del_hold_algorithm
  sim_set_semaphore_capacity : sim.

Lemma sim_prune_owner c pfx m p acc o :
  hold_write c (member_key pfx o) WDel = true → sim R (prune_owner c pfx m p acc o) (prune_owner c pfx m p acc o).
Proof. unfold prune_owner. solve_sim. Qed.
#[local] Hint Resolve sim_prune_owner : sim.

Lemma sim_prune_dead_read_owners p :
  sim R (prune_dead_read_owners p) (prune_dead_read_owners p).
Proof. unfold prune_dead_read_owners. solve_sim. Qed.

Lemma sim_prune_dead_semaphore_owners p :
  sim R (prune_dead_semaphore_owners p) (prune_dead_semaphore_owners p).
Proof. unfold prune_dead_semaphore_owners. solve_sim. Qed.

Lemma sim_add_descendant_indexes m p :
  sim R (add_descendant_indexes m p 0) (add_descendant_indexes m p 0).
Proof. unfold add_descendant_indexes. solve_sim. Qed.

Lemma sim_remove_descendant_indexes m p :
  sim R (remove_descendant_indexes m p) (remove_descendant_indexes m p).
Proof. unfold remove_descendant_indexes. solve_sim. Qed.
#[local] Hint Resolve sim_prune_dead_read_owners sim_prune_dead_semaphore_owners
  sim_add_descendant_indexes sim_remove_descendant_indexes : sim.

Lemma sim_get_live_write_owner p : sim R (get_live_write_owner p) (get_live_write_owner p).
Proof. unfold get_live_write_owner. solve_sim. Qed.
#[local] Hint Resolve sim_get_live_write_owner : sim.

Lemma sim_find_descendant_write_conflict o p ns :
  sim R (find_descendant_write_conflict o p ns) (find_descendant_write_conflict o p ns).
Proof. unfold find_descendant_write_conflict. solve_sim. Qed.

Lemma sim_descendant_read_candidate o pfx ns c :
  sim R (descendant_read_candidate o pfx ns c) (descendant_read_candidate o pfx ns c).
Proof. unfold descendant_read_candidate. solve_sim. Qed.
#[local] Hint Resolve sim_descendant_read_candidate : sim.

Lemma sim_descendant_read_loop o pfx ns seen cs :
  sim R (descendant_read_loop o pfx ns seen cs) (descendant_read_loop o pfx ns seen cs).
Proof. revert seen. induction cs; simpl; solve_sim. Qed.
#[local] Hint Resolve sim_descendant_read_loop : sim.

Lemma sim_find_descendant_read_conflict o p ns :
  sim R (find_descendant_read_conflict o p ns) (find_descendant_read_conflict o p ns).
Proof. unfold find_descendant_read_conflict. solve_sim. Qed.
#[local] Hint Resolve sim_find_descendant_write_conflict sim_find_descendant_read_conflict : sim.

Lemma sim_release_hold o m p : sim R (release_hold o m p) (release_hold o m p).
Proof. unfold release_hold. solve_sim. Qed.
#[local] Hint Resolve sim_release_hold : sim.

Lemma sim_apply_release o ns r pfx : sim R (apply_release o ns r pfx) (apply_release o ns r pfx).
Proof. unfold apply_release. solve_sim. Qed.

Lemma sim_drop_if_empty o pfx k : sim R (drop_if_empty o pfx k) (drop_if_empty o pfx k).
Proof. unfold drop_if_empty. solve_sim. Qed.
#[local] Hint Resolve sim_apply_release sim_drop_if_empty : sim.

Lemma sim_apply_releases o ns rs pfx k :
  sim R (apply_releases o ns rs pfx k) (apply_releases o ns rs pfx k).
Proof. unfold apply_releases. solve_sim. Qed.

Lemma sim_release_inner_in_namespace ns o rs d :
  sim R (release_inner_in_namespace ns o rs d) (release_inner_in_namespace ns o rs d).
Proof. unfold release_inner_in_namespace. solve_sim. Qed.

Lemma sim_release_held_member o i :
  sim R (release_held_member o i) (release_held_member o i).
Proof. unfold release_held_member. solve_sim. Qed.
#[local] Hint Resolve sim_apply_releases sim_release_held_member : sim.

Lemma sim_release_owner_wide o d : sim R (release_owner_wide o d) (release_owner_wide o d).
Proof. unfold release_owner_wide, release_page_body. solve_sim. Qed.
#[local] Hint Resolve sim_release_owner_wide : sim.

Lemma sim_validate_new_ancestors o ns p :
  sim R (validate_new_ancestors o ns p) (validate_new_ancestors o ns p).
Proof. unfold validate_new_ancestors. solve_sim. Qed.

Lemma sim_validate_new_write o tok p ns kp a s :
  sim R (validate_new_write o tok p ns kp a s) (validate_new_write o tok p ns kp a s).
Proof. unfold validate_new_write. solve_sim. Qed.

Lemma sim_validate_new_semaphore o req kp :
  sim R (validate_new_semaphore o req kp) (validate_new_semaphore o req kp).
Proof. unfold validate_new_semaphore. solve_sim. Qed.
#[local] Hint Resolve sim_validate_new_ancestors sim_validate_new_write
  sim_validate_new_semaphore : sim.

Lemma sim_validate_acquire o tok reqs ns pol :
  sim R (validate_acquire o tok reqs ns pol) (validate_acquire o tok reqs ns pol).
Proof. unfold validate_acquire, validate_new. solve_sim. Qed.

Lemma sim_renew_inner o ttl : sim R (renew_inner o ttl) (renew_inner o ttl).
Proof. unfold renew_inner. solve_sim. Qed.

Lemma sim_request_revoke_inner o ttl : sim R (request_revoke_inner o ttl) (request_revoke_inner o ttl).
Proof. unfold request_revoke_inner. solve_sim. Qed.

Lemma sim_is_blocking_inner ns p o r :
  sim R (is_blocking_inner ns p o r) (is_blocking_inner ns p o r).
Proof. unfold is_blocking_inner. solve_sim. Qed.

Lemma sim_set_wait_edge_inner o c ttl md :
  sim R (set_wait_edge_inner o c ttl md) (set_wait_edge_inner o c ttl md).
Proof. unfold set_wait_edge_inner. solve_sim. Qed.

Lemma sim_clear_wait_edge_inner o : sim R (clear_wait_edge_inner o) (clear_wait_edge_inner o).
Proof. unfold clear_wait_edge_inner. solve_sim. Qed.
End hold_sims.

#[export] Instance hold_write_sim : StoreSim lock_write R → StoreSim hold_write R.
Proof.
  apply store_sim_sub. intros c k w H. unfold hold_write in H. by apply andb_true_iff in H as [? _].
Qed.
Context `{!StoreSim lock_write R}.
#[local] Hint Resolve sim_set_hold_algorithm sim_add_descendant_indexes sim_set_semaphore_capacity
  sim_validate_acquire sim_release_owner_wide sim_apply_releases : sim.

Lemma sim_apply_acquire req ctx : sim R (apply_acquire req ctx) (apply_acquire req ctx).
Proof.
  unfold apply_acquire, apply_semaphore_acquire, apply_write_acquire, write_hold,
    apply_read_acquire. solve_sim.
Qed.
#[local] Hint Resolve sim_apply_acquire : sim.

Lemma sim_acquire_inner_in_namespace args pol ns :
  sim R (acquire_inner_in_namespace args pol ns) (acquire_inner_in_namespace args pol ns).
Proof. unfold acquire_inner_in_namespace, refresh_portfolio. solve_sim. Qed.

End store_sims.
#[export] Hint Resolve sim_set_namespace_policy_inner sim_delete_namespace_policy_inner
  sim_release_inner_in_namespace sim_release_owner_wide sim_acquire_inner_in_namespace
  sim_renew_inner sim_request_revoke_inner sim_is_blocking_inner sim_set_wait_edge_inner
  sim_clear_wait_edge_inner : sim.
