(* ===== verification/KvView.v ===== *)
(** * The live view of a keyspace, and a program logic over it

    During one transaction the clock is fixed, so a keyspace determines the map
    of its live string records, [view].  [vwp now m Q V] says that [m], run from
    any keyspace whose view is [V], either fails (the caller then drops every
    write) or ends with a result and a view satisfying [Q].  The rules give each
    store operation its effect on the view. *)

From Stdlib Require Import ZArith NArith Lia Strings.Byte.
From stdpp Require Import sorting countable base numbers gmap strings list.
From S2P Require Import Prelude RustStd StoreKeys Store StoreScan StoreSim.
Local Open Scope Z_scope.

(** The instances are spelled out so that a binder cannot be taken for one. *)
Abbreviation View :=
  (@gmap (cf * bytes) (@prod_eq_dec _ cf_eq_dec _ (@list_eq_dec byte byte_eq_decision))
     (@prod_countable _ cf_eq_dec cf_countable _ (@list_eq_dec byte byte_eq_decision)
        (@list_countable byte byte_eq_decision byte_countable)) str).

Section view.
Context `{!Bincode StoredRecord}.

Definition live_rec (now : Z) (b : bytes) : option str :=
  match decode_record b with
  | Ok rec => live_str rec now
  | Err _ => None
  end.

(** The expiry index is bookkeeping, not part of the view. *)
Definition view_entry (now : Z) (i : cf * bytes) (b : bytes) : option str :=
  if decide (i.1 = CF_EXPIRY) then None else live_rec now b.
Definition flat_data (s : Kv) : gmap (cf * bytes) bytes :=
  map_uncurry (M1 := gmap cf) (M2 := gmap bytes) (kv_data s).
Definition view (s : Kv) : View := map_imap (view_entry (kv_now s)) (flat_data s).

Lemma cf_map_lookup s c k : flat_data s !! (c, k) = cf_map s c !! k.
Proof.
  unfold flat_data. rewrite lookup_map_uncurry. unfold cf_map.
  destruct (kv_data s !! c); simpl; [done|]. by rewrite lookup_empty.
Qed.

Lemma view_lookup s c k :
  view s !! (c, k) = cf_map s c !! k ≫= view_entry (kv_now s) (c, k).
Proof. unfold view. by rewrite map_lookup_imap, cf_map_lookup. Qed.

Lemma view_lookup_live s c k :
  c ≠ CF_EXPIRY → view s !! (c, k) = cf_map s c !! k ≫= live_rec (kv_now s).
Proof.
  intros Hc. rewrite view_lookup. unfold view_entry.
  destruct (cf_map s c !! k); simpl; [|done]. by rewrite decide_False.
Qed.

Lemma decode_encode rec : decode_record (encode_record rec) = Ok rec.
Proof. unfold decode_record, encode_record. by rewrite bincode_decode_encode. Qed.

(** Writing one key changes one entry of the view. *)
Lemma view_put s c k b :
  view (kv_upd s c (<[k := b]> (cf_map s c))) =
  partial_alter (λ _, view_entry (kv_now s) (c, k) b) (c, k) (view s).
Proof.
  apply map_eq. intros [c' k']. rewrite view_lookup, cf_map_upd.
  destruct (decide ((c, k) = (c', k'))) as [[= <- <-]|Hne].
  - rewrite decide_True by done. rewrite lookup_insert_eq. simpl.
    by rewrite lookup_partial_alter_eq.
  - rewrite lookup_partial_alter_ne by done. rewrite view_lookup.
    case_decide as Hc; [|done]. subst c'.
    rewrite lookup_insert_ne; [done|]. by intros ->.
Qed.

Lemma view_delete s c k :
  view (kv_upd s c (delete k (cf_map s c))) = delete (c, k) (view s).
Proof.
  apply map_eq. intros [c' k']. rewrite view_lookup, cf_map_upd.
  destruct (decide ((c, k) = (c', k'))) as [[= <- <-]|Hne].
  - rewrite decide_True by done. by rewrite !lookup_delete_eq.
  - rewrite lookup_delete_ne by done. rewrite view_lookup.
    case_decide as Hc; [|done]. subst c'.
    rewrite lookup_delete_ne; [done|]. by intros ->.
Qed.

(** ** The program logic *)

Definition vwp {A} (now : Z) (m : txm Kv A) (Q : A → View → Prop) (V : View) : Prop :=
  ∀ s, kv_now s = now → view s = V →
    wlp m (λ a s', kv_now s' = now ∧ Q a (view s')) s.

Section rules.
Context (now : Z).

Lemma vwp_ret {A} (a : A) (Q : A → View → Prop) V : Q a V → vwp now (mret a) Q V.
Proof. intros HQ s Hn HV. apply wp_ret. by subst. Qed.

Lemma vwp_bind {A B} (m : txm Kv A) (f : A → txm Kv B) Q V :
  vwp now m (λ a V', vwp now (f a) Q V') V → vwp now (m ≫= f) Q V.
Proof.
  intros H s Hn HV. apply wp_bind. eapply wp_mono; [by apply H|].
  intros a s' [Hn' Hf]. by apply Hf.
Qed.

Lemma vwp_mono {A} (m : txm Kv A) (P Q : A → View → Prop) V :
  vwp now m P V → (∀ a V', P a V' → Q a V') → vwp now m Q V.
Proof.
  intros H HPQ s Hn HV. eapply wp_mono; [by apply H|]. intros a s' [? ?]. eauto.
Qed.

Lemma vwp_conj {A} (m : txm Kv A) (P Q : A → View → Prop) V :
  vwp now m P V → vwp now m Q V → vwp now m (λ a V', P a V' ∧ Q a V') V.
Proof.
  intros HP HQ s Hn HV. specialize (HP s Hn HV). specialize (HQ s Hn HV).
  eapply wp_mono; [exact (wp_conj _ _ _ _ _ HP HQ)|]. by intros a s' [[? ?] [_ ?]].
Qed.

Lemma vwp_fail {A} e (Q : A → View → Prop) V : vwp now (tfail e) Q V.
Proof. intros s Hn HV. by apply wp_fail. Qed.

Lemma vwp_lift {A} (r : result A) (Q : A → View → Prop) V :
  (∀ a, r = Ok a → Q a V) → vwp now (lift r) Q V.
Proof. intros H s Hn HV. apply wp_lift; [|done]. intros a Ha. subst V. auto. Qed.

Lemma vwp_asks_now (Q : Z → View → Prop) V : Q now V → vwp now (asks kv_now) Q V.
Proof. intros HQ s Hn HV. unfold wp, asks. by subst. Qed.

Lemma vwp_for_each {A} (xs : list A) (f : A → txm Kv unit) (I : View → Prop) V :
  I V → (∀ x V', x ∈ xs → I V' → vwp now (f x) (λ _, I) V') →
  vwp now (for_each xs f) (λ _, I) V.
Proof.
  revert V. induction xs as [|x xs IH]; intros V HI Hf; simpl; [by apply vwp_ret|].
  apply vwp_bind. eapply vwp_mono; [apply Hf; [left|done]|].
  intros [] V' HI'. apply IH; [done|]. intros y V'' Hy. apply Hf. by right.
Qed.

(** The invariant may mention the elements already visited. *)
Lemma vwp_for_each_pre {A} (xs : list A) (f : A → txm Kv unit) (I : list A → View → Prop) V :
  I [] V →
  (∀ pre x post V', xs = pre ++ x :: post → I pre V' →
     vwp now (f x) (λ _, I (pre ++ [x])) V') →
  vwp now (for_each xs f) (λ _, I xs) V.
Proof.
  intros H0 Hf.
  cut (∀ pre post V', xs = pre ++ post → I pre V' →
         vwp now (for_each post f) (λ _, I xs) V').
  { intros H. by apply (H [] xs V). }
  intros pre post. revert pre. induction post as [|x post IH]; intros pre V' Hxs HI; simpl.
  - apply vwp_ret. by rewrite Hxs, app_nil_r.
  - apply vwp_bind. eapply vwp_mono; [by eapply Hf|].
    intros [] V'' HI'. apply (IH (pre ++ [x])); [|done]. by rewrite <- app_assoc.
Qed.

Lemma vwp_find_first {A B} (xs : list A) (f : A → txm Kv (option B))
    (I : list A → View → Prop) (Q : option B → View → Prop) V :
  I [] V →
  (∀ pre x post V', xs = pre ++ x :: post → I pre V' →
     vwp now (f x) (λ r V'', match r with
                             | Some b => Q (Some b) V''
                             | None => I (pre ++ [x]) V''
                             end) V') →
  (∀ V', I xs V' → Q None V') →
  vwp now (find_first xs f) Q V.
Proof.
  intros H0 Hf Hend.
  cut (∀ pre post V', xs = pre ++ post → I pre V' → vwp now (find_first post f) Q V').
  { intros H. by apply (H [] xs V). }
  intros pre post. revert pre. induction post as [|x post IH]; intros pre V' Hxs HI; simpl.
  - apply vwp_ret, Hend. by rewrite Hxs, app_nil_r.
  - apply vwp_bind. eapply vwp_mono; [by eapply Hf|].
    intros [b|] V''; [apply vwp_ret|]. intros HI'.
    apply (IH (pre ++ [x])); [|done]. by rewrite <- app_assoc.
Qed.

Lemma vwp_fold {A S : Type} (f : S → A → txm Kv S) (I : list A → S → View → Prop) xs s0 V :
  I [] s0 V →
  (∀ pre x post s V', xs = pre ++ x :: post → I pre s V' →
     vwp now (f s x) (I (pre ++ [x])) V') →
  vwp now (fold_txm f s0 xs) (I xs) V.
Proof.
  intros H0 Hf.
  cut (∀ pre post s V', xs = pre ++ post → I pre s V' →
         vwp now (fold_txm f s post) (I xs) V').
  { intros H. by apply (H [] xs s0 V). }
  intros pre post. revert pre. induction post as [|x post IH]; intros pre s V' Hxs HI; simpl.
  - apply vwp_ret. by rewrite Hxs, app_nil_r.
  - apply vwp_bind. eapply vwp_mono; [by eapply Hf|].
    intros s' V'' HI'. apply (IH (pre ++ [x])); [|done]. by rewrite <- app_assoc.
Qed.

(** Partial correctness of a loop: an invariant suffices. *)
Lemma vwp_loop {S B : Type} (body : S → txm Kv (S + B)) (I : S → View → Prop)
    (Q : B → View → Prop) s0 V :
  (∀ s V, I s V → vwp now (body s) (λ r V', match r with
                                            | inl s' => I s' V'
                                            | inr b => Q b V'
                                            end) V) →
  I s0 V → vwp now (loop body s0) Q V.
Proof.
  intros Hb H0. unfold loop. apply vwp_bind.
  cut (∀ n s V, I s V → vwp now (loop_upto n body s)
         (λ r V', match r with inl s' => I s' V' | inr b => Q b V' end) V).
  { intros H. eapply vwp_mono; [by apply H|]. intros [s|b] V'; [|apply vwp_ret].
    intros _. apply vwp_fail. }
  clear s0 V H0. induction n as [|n IH]; intros s V HI; simpl; [by apply Hb|].
  apply vwp_bind. eapply vwp_mono; [by apply IH|].
  intros [s'|b] V' H; [by apply IH|by apply vwp_ret].
Qed.

(** ** Point operations *)

Lemma vwp_get_str c k (Q : option str → View → Prop) V :
  c ≠ CF_EXPIRY → Q (V !! (c, k)) V → vwp now (get_str c k) Q V.
Proof.
  intros Hc HQ s Hn HV. subst. cbn [get_str kv_store]. unfold w_get_str.
  apply wp_bind. unfold asks, wp at 1. apply wp_bind. unfold kv_get_raw, wp at 1.
  rewrite view_lookup_live in HQ by done. unfold live_rec in HQ.
  destruct (cf_map s c !! k) as [b|]; simpl in *; [|by apply wp_ret].
  apply wp_bind, wp_lift; [|done]. intros rec Hr. rewrite Hr in HQ. by apply wp_ret.
Qed.

Lemma vwp_put_raw c k b (Q : unit → View → Prop) V :
  Q tt (partial_alter (λ _, view_entry now (c, k) b) (c, k) V) →
  vwp now (kv_put_raw c k b) Q V.
Proof.
  intros HQ s Hn HV. unfold kv_put_raw, wp. subst. split; [done|]. by rewrite view_put.
Qed.

Lemma vwp_get_raw c k (Q : option bytes → View → Prop) V :
  (∀ r, Q r V) → vwp now (kv_get_raw c k) Q V.
Proof. intros HQ s Hn HV. unfold kv_get_raw, wp. subst. eauto. Qed.

Lemma vwp_delete_raw c k (Q : unit → View → Prop) V :
  Q tt (delete (c, k) V) → vwp now (kv_delete_raw c k) Q V.
Proof.
  intros HQ s Hn HV. unfold kv_delete_raw, wp. subst. split; [done|]. by rewrite view_delete.
Qed.

(** A put that the view does not show, because it is in the expiry index. *)
Lemma view_put_expiry (V : View) s k b :
  view s = V → partial_alter (λ _, view_entry now (CF_EXPIRY, k) b) (CF_EXPIRY, k) V = V.
Proof.
  intros <-. apply map_eq. intros i. destruct (decide ((CF_EXPIRY, k) = i)) as [<-|Hne].
  - rewrite lookup_partial_alter_eq, view_lookup. unfold view_entry. simpl.
    by destruct (cf_map s CF_EXPIRY !! k).
  - by rewrite lookup_partial_alter_ne.
Qed.

Lemma vwp_put_expiring c k mk ttl (Q : unit → View → Prop) V :
  Q tt (partial_alter (λ _, view_entry now (c, k) (encode_record (mk (expiry_at now ttl))))
          (c, k) V) →
  vwp now (put_expiring kv_now kv_put_raw c k mk ttl) Q V.
Proof.
  intros HQ. unfold put_expiring. apply vwp_bind, vwp_asks_now, vwp_bind, vwp_put_raw.
  destruct (0 <? ttl); [|by apply vwp_ret].
  unfold write_expiry. apply vwp_bind, vwp_asks_now.
  intros s Hn HV. eapply (vwp_put_raw _ _ _ _ (view s)); [|done..].
  by rewrite (view_put_expiry (view s) s) by done; rewrite HV.
Qed.

(** A string record written with a TTL is live, unless the clock is saturated. *)
Definition str_entry (ttl : Z) (v : str) : option str :=
  if expired (expiry_at now ttl) now then None else Some v.

Lemma str_entry_0 v : str_entry 0 v = Some v.
Proof. done. Qed.

Lemma view_entry_str c k v exp :
  c ≠ CF_EXPIRY →
  view_entry now (c, k) (encode_record (Str v exp)) = if expired exp now then None else Some v.
Proof.
  intros Hc. unfold view_entry. rewrite decide_False by done. unfold live_rec.
  by rewrite decode_encode.
Qed.

Lemma vwp_set_str_ttl c k v ttl (Q : unit → View → Prop) V :
  c ≠ CF_EXPIRY → Q tt (partial_alter (λ _, str_entry ttl v) (c, k) V) →
  vwp now (set_str c k v ttl) Q V.
Proof.
  intros Hc HQ. cbn [set_str kv_store]. unfold w_set_str. apply vwp_put_expiring.
  by rewrite view_entry_str.
Qed.

Lemma vwp_set_str c k v (Q : unit → View → Prop) V :
  c ≠ CF_EXPIRY → Q tt (<[(c, k) := v]> V) → vwp now (set_str c k v 0) Q V.
Proof. intros Hc HQ. by apply vwp_set_str_ttl. Qed.

Lemma vwp_del c k (Q : unit → View → Prop) V :
  Q tt (delete (c, k) V) → vwp now (del c k) Q V.
Proof. apply vwp_delete_raw. Qed.

Lemma vwp_sadd c key m (Q : unit → View → Prop) V :
  c ≠ CF_EXPIRY → Q tt (<[(c, member_key key m) := m]> V) → vwp now (sadd c key m 0) Q V.
Proof.
  intros Hc HQ. cbn [sadd kv_store]. unfold w_sadd. apply vwp_put_expiring.
  rewrite view_entry_str by done. apply HQ.
Qed.

Lemma vwp_srem c key m (Q : unit → View → Prop) V :
  Q tt (delete (c, member_key key m) V) → vwp now (srem c key m) Q V.
Proof. apply vwp_delete_raw. Qed.

Lemma vwp_sismember c key m (Q : bool → View → Prop) V :
  c ≠ CF_EXPIRY → Q (bool_decide (is_Some (V !! (c, member_key key m)))) V →
  vwp now (sismember c key m) Q V.
Proof.
  intros Hc HQ s Hn HV. subst. cbn [sismember kv_store]. unfold w_sismember.
  apply wp_bind. unfold asks, wp at 1. apply wp_bind. unfold kv_get_raw, wp at 1.
  rewrite view_lookup_live in HQ by done. unfold live_rec in HQ.
  destruct (cf_map s c !! member_key key m) as [b|]; simpl in *; [|by apply wp_ret].
  apply wp_bind, wp_lift; [|done]. intros rec Hr. rewrite Hr in HQ. apply wp_ret.
  split; [done|]. destruct rec; simpl in *; [|done..]. by destruct (expired exp (kv_now s)).
Qed.

Lemma vwp_pexpire_str c k ttl (Q : unit → View → Prop) V :
  c ≠ CF_EXPIRY →
  Q tt (match V !! (c, k) with
        | Some v => partial_alter (λ _, str_entry ttl v) (c, k) V
        | None => V
        end) →
  vwp now (pexpire_str c k ttl) Q V.
Proof.
  intros Hc HQ. cbn [pexpire_str kv_store]. unfold w_pexpire_str.
  apply vwp_bind, (vwp_get_str c k); [done|].
  destruct (V !! (c, k)) as [v|]; [|by apply vwp_ret].
  by apply (vwp_set_str_ttl c k v ttl).
Qed.

(** ** Set scans *)

#[local] Arguments starts_with : simpl never.

(** The live members among a range's records. *)
Definition live_members (l : list (bytes * bytes)) : list str :=
  omap (λ x, live_rec now x.2) l.

Lemma live_members_app l1 l2 : live_members (l1 ++ l2) = live_members l1 ++ live_members l2.
Proof. unfold live_members. apply omap_app. Qed.

Definition all_prefixed (prefix : bytes) (l : list (bytes * bytes)) : Prop :=
  ∀ x, x ∈ l → starts_with prefix x.1 = true.

Lemma all_prefixed_cons prefix x l :
  all_prefixed prefix (x :: l) → starts_with prefix x.1 = true ∧ all_prefixed prefix l.
Proof. intros H. split; [apply H; by left|]. intros y Hy. apply H. by right. Qed.

Lemma limited_visit_all prefix n l ms raw ms' raw' :
  all_prefixed prefix l →
  visit_all (smembers_limited_visit prefix n now) (ms, raw, false) l = Ok (ms', raw', false) →
  ms' = ms ++ live_members l ∧ (len ms ≤ n → len ms' ≤ n).
Proof.
  revert ms raw. induction l as [|[k v] l IH]; intros ms raw Hp H.
  { simpl in H. simplify_eq. by rewrite app_nil_r. }
  apply all_prefixed_cons in Hp as [Hk Hp]. simpl in H, Hk. rewrite Hk in H. simpl in H.
  unfold live_members. simpl. unfold live_rec at 1.
  destruct (decode_record v) as [rec|e]; [|done].
  destruct (live_str rec now) as [m|] eqn:Hm.
  - destruct (Z.leb_spec n (len ms)); [done|].
    destruct (raw_scan_cap n <=? raw + 1); [done|].
    apply IH in H as [-> Hlen]; [|done]. split; [by rewrite <- app_assoc|].
    intros _. apply Hlen. unfold len in *. rewrite length_app. simpl. lia.
  - destruct (raw_scan_cap n <=? raw + 1); [done|]. by apply IH in H.
Qed.

Lemma has_live_visit_all prefix l b :
  all_prefixed prefix l →
  visit_all (has_live_member_visit prefix now) false l = Ok b →
  b = true ↔ live_members l ≠ [].
Proof.
  induction l as [|[k v] l IH]; intros Hp H.
  { simpl in H. simplify_eq. by split. }
  apply all_prefixed_cons in Hp as [Hk Hp]. simpl in H, Hk. unfold has_live_member_visit at 1 in H. rewrite Hk in H. simpl in H.
  unfold live_members. simpl. unfold live_rec at 1.
  destruct (decode_record v) as [rec|e]; [|done].
  destruct (live_str rec now) as [m|] eqn:Hm; [by simplify_eq|]. by apply IH.
Qed.

Lemma page_visit_all prefix page l ms raw ms' raw' next :
  all_prefixed prefix l → raw ≤ page →
  visit_all (smembers_page_visit prefix page now) (ms, raw, None) l = Ok (ms', raw', next) →
  ∃ l1 l2, l = l1 ++ l2 ∧ ms' = ms ++ live_members l1 ∧
    match next with
    | None => l2 = []
    | Some k => raw + len l1 = page ∧ ∃ v l2', l2 = (k, v) :: l2'
    end.
Proof.
  revert ms raw. induction l as [|[k v] l IH]; intros ms raw Hp Hle H.
  { simpl in H. simplify_eq. exists [], []. split_and!; [done|by rewrite app_nil_r|done]. }
  apply all_prefixed_cons in Hp as [Hk Hp]. simpl in H, Hk. rewrite Hk in H. simpl in H.
  destruct (Z.leb_spec page raw).
  { simplify_eq. exists [], ((k, v) :: l). split; [done|]. split; [by rewrite app_nil_r|].
    unfold len. simpl. split; [lia|by eexists _, _]. }
  assert (∀ ms1, ms1 = ms ++ live_members [(k, v)] →
    visit_all (smembers_page_visit prefix page now) (ms1, raw + 1, None) l =
      Ok (ms', raw', next) → ∃ l1 l2, (k, v) :: l = l1 ++ l2 ∧ ms' = ms ++ live_members l1 ∧
      match next with
      | None => l2 = []
      | Some k => raw + len l1 = page ∧ ∃ v l2', l2 = (k, v) :: l2'
      end) as Hstep.
  { intros ms1 -> Hv. apply IH in Hv as (l1 & l2 & -> & -> & Hn); [|done|lia].
    exists ((k, v) :: l1), l2. split; [done|]. split.
    - change ((k, v) :: l1) with ([(k, v)] ++ l1). by rewrite live_members_app, app_assoc.
    - destruct next; [|done]. destruct Hn as [Hr ?]. split; [|done].
      unfold len in *. simpl. lia. }
  unfold live_members, live_rec in Hstep. simpl in Hstep.
  destruct (decode_record v) as [rec|e]; [|done].
  destruct (live_str rec now); apply Hstep in H; rewrite ?app_nil_r; done.
Qed.

Section range_facts.
Context (s : Kv) (c : cf) (start key : bytes).
Hypothesis Hnow : kv_now s = now.
Hypothesis Hc : c ≠ CF_EXPIRY.
Hypothesis Hstart : bytes_leb (member_prefix key) start = true.

Definition prefix_entries : list (bytes * bytes) :=
  btree_range (Some start) (prefix_upper_bound (member_prefix key)) (cf_map s c).

Lemma prefix_entries_elem k b :
  (k, b) ∈ prefix_entries ↔
  cf_map s c !! k = Some b ∧ member_prefix key `prefix_of` k ∧ bytes_leb start k = true.
Proof.
  unfold prefix_entries. rewrite btree_range_elem, <- prefix_range. unfold in_range.
  rewrite !andb_true_iff. split; [|naive_solver].
  intros (Hb & Hs & Hu). split_and!; try done.
  apply bytes_leb_spec in Hstart, Hs. apply bytes_leb_spec.
  destruct Hstart as [->|H1], Hs as [->|H2]; auto. right. by eapply bytes_ltb_trans.
Qed.

Lemma prefix_entries_prefixed : all_prefixed (member_prefix key) prefix_entries.
Proof. intros [k b] (_ & Hp & _)%prefix_entries_elem. by apply starts_with_spec. Qed.

Lemma prefix_entries_live m :
  m ∈ live_members prefix_entries ↔
  ∃ k, member_prefix key `prefix_of` k ∧ bytes_leb start k = true ∧ view s !! (c, k) = Some m.
Proof.
  unfold live_members. rewrite list_elem_of_omap. split.
  - intros ([k b] & (Hb & Hp & Hs)%prefix_entries_elem & Hl). exists k.
    rewrite view_lookup_live, Hb by done. simpl in *. by rewrite Hnow.
  - intros (k & Hp & Hs & Hv). rewrite view_lookup_live in Hv by done.
    destruct (cf_map s c !! k) as [b|] eqn:Hb; [|done]. exists (k, b).
    rewrite prefix_entries_elem. simpl in *. by rewrite <- Hnow.
Qed.
End range_facts.

(** The members of the set at [key], as the view shows them. *)
Definition is_member (V : View) (c : cf) (key : bytes) (m : str) : Prop :=
  ∃ k, member_prefix key `prefix_of` k ∧ V !! (c, k) = Some m.

Lemma bytes_leb_prefix (p k : bytes) : p `prefix_of` k → bytes_leb p k = true.
Proof. intros [r ->]. apply bytes_leb_extend. Qed.

Lemma bytes_leb_refl (k : bytes) : bytes_leb k k = true.
Proof. apply bytes_leb_spec. by left. Qed.

Lemma vwp_smembers_limited c key n (Q : list str → View → Prop) V :
  c ≠ CF_EXPIRY → 0 ≤ n →
  (∀ l, (∀ m, m ∈ l ↔ is_member V c key m) → len l ≤ n → Q l V) →
  vwp now (smembers_limited c key n) Q V.
Proof.
  intros Hc Hn0 HQ s Hn HV. cbn [smembers_limited kv_store]. unfold kv_smembers_limited.
  apply wp_bind. unfold asks, wp at 1. apply wp_bind.
  unfold kv_scan_prefix, kv_scan, kv_range. apply wp_lift; [|done].
  intros [[ms raw] ex] Hv. apply wp_lift; [|done]. intros l Hl.
  unfold smembers_limited_result in Hl. destruct ex; [done|].
  injection Hl as <-. split; [done|]. rewrite Hn in Hv. pose proof (bytes_leb_refl (member_prefix key)).
  apply limited_visit_all in Hv as [-> Hlen];
    [|by apply (prefix_entries_prefixed s c (member_prefix key) key)].
  subst V. apply HQ; [|apply Hlen; unfold len; simpl; lia]. intros m.
  rewrite app_nil_l, (prefix_entries_live s c (member_prefix key) key) by done.
  split; [intros (k & ? & _ & ?); by exists k|].
  intros (k & ? & ?). exists k. split_and!; [done| |done]. by apply bytes_leb_prefix.
Qed.

Lemma vwp_has_live_member c key (Q : bool → View → Prop) V :
  c ≠ CF_EXPIRY →
  (∀ b, (b = true ↔ ∃ m, is_member V c key m) → Q b V) →
  vwp now (has_live_member c key) Q V.
Proof.
  intros Hc HQ s Hn HV. cbn [has_live_member kv_store]. unfold kv_has_live_member.
  apply wp_bind. unfold asks, wp at 1. unfold kv_scan_prefix, kv_scan, kv_range.
  apply wp_lift; [|done]. intros b Hv. split; [done|]. rewrite Hn in Hv. subst V.
  pose proof (bytes_leb_refl (member_prefix key)).
  apply has_live_visit_all in Hv;
    [|by apply (prefix_entries_prefixed s c (member_prefix key) key)].
  apply HQ. rewrite Hv. split.
  - intros Hne. destruct (live_members _) as [|m ms] eqn:Hm; [done|].
    assert (m ∈ m :: ms) as Hin by by left. rewrite <- Hm in Hin.
    apply (prefix_entries_live s c (member_prefix key) key) in Hin as (k & ? & _ & ?); [|done..].
    by exists m, k.
  - intros (m & k & Hp & Hk) Hm. apply (not_elem_of_nil m). rewrite <- Hm.
    apply (prefix_entries_live s c (member_prefix key) key); [done..|].
    exists k. split_and!; [done| |done]. by apply bytes_leb_prefix.
Qed.

(** One page: the live members below the returned cursor, all of them when
    there is none. *)
Lemma vwp_smembers_page c key cursor page (Q : list str * option bytes → View → Prop) V :
  c ≠ CF_EXPIRY → 0 ≤ page →
  bytes_leb (member_prefix key) (default (member_prefix key) cursor) = true →
  (∀ l next,
     (∀ m, m ∈ l → is_member V c key m) →
     (∀ k m, member_prefix key `prefix_of` k → V !! (c, k) = Some m →
        bytes_leb (default (member_prefix key) cursor) k = true →
        match next with Some k' => bytes_ltb k k' = true | None => True end → m ∈ l) →
     match next with Some k' => member_prefix key `prefix_of` k' | None => True end →
     Q (l, next) V) →
  vwp now (smembers_page c key cursor page) Q V.
Proof.
  intros Hc Hpage Hcur HQ s Hn HV. cbn [smembers_page kv_store]. unfold kv_smembers_page.
  apply wp_bind. unfold asks, wp at 1. apply wp_bind.
  unfold kv_scan_prefix, kv_scan, kv_range. apply wp_lift; [|done].
  intros [[ms raw] next] Hv. apply wp_ret. split; [done|]. subst V.
  set (start := default (member_prefix key) cursor) in *.
  pose proof (btree_range_sorted (Some start) (prefix_upper_bound (member_prefix key))
    (cf_map s c)) as Hsort. fold (prefix_entries s c start key) in Hsort, Hv.
  rewrite Hn in Hv. apply page_visit_all in Hv as (l1 & l2 & Heq & -> & Hnext); [| |done];
    [|by apply prefix_entries_prefixed].
  rewrite app_nil_l. apply HQ.
  - intros m Hm. assert (m ∈ live_members (prefix_entries s c start key)) as Hin.
    { rewrite Heq, live_members_app. apply elem_of_app. by left. }
    apply prefix_entries_live in Hin as (k & ? & _ & ?); [|done..]. by exists k.
  - intros k m Hp Hk Hs Hlt. rewrite view_lookup_live in Hk by done.
    destruct (cf_map s c !! k) as [b|] eqn:Hb; [|done]. simpl in Hk.
    assert ((k, b) ∈ l1) as Hin.
    { assert ((k, b) ∈ prefix_entries s c start key) as Hin
        by by apply prefix_entries_elem.
      rewrite Heq, elem_of_app in Hin. destruct Hin as [?|Hin]; [done|exfalso].
      destruct next as [k'|]; [|by subst; apply not_elem_of_nil in Hin].
      destruct Hnext as (_ & v' & l2' & ->). rewrite Heq in Hsort.
      apply StronglySorted_app in Hsort as (_ & _ & Hsort).
      apply elem_of_cons in Hin as [[= -> ->]|Hin].
      + by rewrite bytes_ltb_irrefl in Hlt.
      + apply sorted_cons_inv in Hsort as [_ Hsort]. apply Hsort in Hin.
        unfold key_lt in Hin. simpl in Hin. by rewrite bytes_ltb_asym in Hin. }
    rewrite Hn in Hk. unfold live_members. apply list_elem_of_omap. by exists (k, b).
  - destruct next as [k'|]; [|done]. destruct Hnext as (_ & v' & l2' & ->).
    assert ((k', v') ∈ prefix_entries s c start key) as Hin.
    { rewrite Heq. apply elem_of_app. right. by left. }
    by apply prefix_entries_elem in Hin as (_ & ? & _).
Qed.
End rules.
End view.
