(* ===== verification/EngineView.v ===== *)
(** * The engine on the live view: keys, hold predicates, effects of the helpers

    The lock state read off a view: who writes, who reads, who holds a permit,
    the descendant indexes, the hold set of an owner.  Each helper of the engine
    gets a rule that says what it returns and how it changes the view. *)

From Stdlib Require Import ZArith NArith Lia Strings.Byte.
From stdpp Require Import sorting countable base numbers gmap strings list.
From S2P Require Import Prelude RustStd StoreKeys Store StoreScan StoreSim EngineTypes Engine.
From S2P Require Import KvView.
Local Open Scope Z_scope.

(** ** Keys of the view *)

Definition sk (c : cf) (p m : str) : cf * bytes := (c, member_key (p ++ [NUL]) m).
Definition wk (p : str) : cf * bytes := (WR_CF, wr_key p).
Definition hk (o : str) (m : Mode) (p : str) : cf * bytes :=
  (META_CF, hold_algorithm_key o (mode_as_str m) p).
Definition ck (p : str) : cf * bytes := (META_CF, semaphore_permits_key p).
Definition ak (o : str) : cf * bytes := (ALIVE_CF, alive_key o).
Definition fk (p : str) : cf * bytes := (FENCE_CF, fence_key p).

Lemma member_key_app p m : member_key (p ++ [NUL]) m = p ++ NUL :: NUL :: m.
Proof. unfold member_key, member_prefix. by rewrite <- !app_assoc. Qed.

Lemma sk_inj c c' p p' m m' :
  nul_free p → nul_free p' → sk c p m = sk c' p' m' → c = c' ∧ p = p' ∧ m = m'.
Proof.
  unfold sk. intros Hp Hp' H. apply pair_eq in H as [-> H].
  rewrite !member_key_app in H. apply nul_sep_inj in H as [-> H]; [|done..].
  by simplify_eq.
Qed.

Lemma mode_nul_free m : nul_free (mode_as_str m).
Proof. unfold nul_free. by destruct m; apply (bool_decide_eq_true_1 (_ ∉ _)). Qed.

Lemma mode_as_str_inj m m' : mode_as_str m = mode_as_str m' → m = m'.
Proof. by destruct m, m'. Qed.

Lemma hk_inj o o' m m' p p' :
  nul_free o → nul_free o' → hk o m p = hk o' m' p' → o = o' ∧ m = m' ∧ p = p'.
Proof.
  unfold hk, hold_algorithm_key. intros Ho Ho' H. apply pair_eq in H as [_ H].
  apply app_inv_head in H. cbn [app] in H.
  apply nul_sep_inj in H as [-> H]; [|done..].
  apply nul_sep_inj in H as [H ->]; [|apply mode_nul_free..].
  by apply mode_as_str_inj in H.
Qed.

Lemma hk_ck o m p p' : hk o m p ≠ ck p'.
Proof. unfold hk, ck, hold_algorithm_key, semaphore_permits_key. by intros [=]. Qed.

(** ** The lock state of a view *)

Definition writer (V : View) (p : str) : option str := V !! wk p.
Definition reads (V : View) (o p : str) : Prop := is_Some (V !! sk RD_CF p o).
Definition permit (V : View) (o p : str) : Prop := is_Some (V !! sk SEM_CF p o).
Definition owns (V : View) (o : str) (m : str) : Prop := is_Some (V !! sk OWN_CF o m).
Definition alive (V : View) (o : str) : Prop := is_Some (V !! ak o).
Definition capacity (V : View) (p : str) : option Z := V !! ck p ≫= parse_u32.

(** The algorithm a hold was taken under; [None] for an unreadable marker. *)
Definition hold_alg (V : View) (o : str) (m : Mode) (p : str) : option LockAlgorithm :=
  match V !! hk o m p with
  | None => Some default_algorithm
  | Some raw => match algorithm_from_str raw with Ok a => Some a | Err _ => None end
  end.
Definition rec_hold (V : View) (o p : str) : Prop :=
  ∃ a, hold_alg V o Write p = Some a ∧ recursive a = true.

Lemma algorithm_roundtrip a : algorithm_from_str (algorithm_as_str a) = Ok a.
Proof. by destruct a. Qed.

(** ** Key sets *)

Definition idx_cf (m : Mode) : cf := match m with Write => WRDESC_CF | Read => RDDESC_CF end.
Definition idx_keys (m : Mode) (p : str) : list (cf * bytes) :=
  (λ anc, sk (idx_cf m) anc p) <$> get_ancestors p.

Fixpoint del_keys (ks : list (cf * bytes)) (V : View) : View :=
  match ks with [] => V | i :: ks => del_keys ks (delete i V) end.
Fixpoint set_keys (ks : list (cf * bytes)) (v : str) (V : View) : View :=
  match ks with [] => V | i :: ks => set_keys ks v (<[i := v]> V) end.

Lemma lookup_del_keys ks (V : View) i :
  del_keys ks V !! i = if decide (i ∈ ks) then None else V !! i.
Proof.
  revert V. induction ks as [|j ks IH]; intros V; cbn [del_keys].
  { by rewrite decide_False by apply not_elem_of_nil. }
  rewrite IH, lookup_delete. repeat case_decide; set_solver.
Qed.

Lemma lookup_set_keys ks v (V : View) i :
  set_keys ks v V !! i = if decide (i ∈ ks) then Some v else V !! i.
Proof.
  revert V. induction ks as [|j ks IH]; intros V; cbn [set_keys].
  { by rewrite decide_False by apply not_elem_of_nil. }
  rewrite IH, lookup_insert. repeat case_decide; set_solver.
Qed.

Lemma idx_keys_cf m p i : i ∈ idx_keys m p → i.1 = idx_cf m.
Proof. by intros (anc & -> & _)%list_elem_of_fmap. Qed.

Lemma lookup_del_idx m p (V : View) i :
  i.1 ≠ idx_cf m → del_keys (idx_keys m p) V !! i = V !! i.
Proof.
  intros Hi. rewrite lookup_del_keys, decide_False; [done|]. by intros ?%idx_keys_cf.
Qed.

Lemma lookup_set_idx m p v (V : View) i :
  i.1 ≠ idx_cf m → set_keys (idx_keys m p) v V !! i = V !! i.
Proof.
  intros Hi. rewrite lookup_set_keys, decide_False; [done|]. by intros ?%idx_keys_cf.
Qed.

(** ** Rules for the engine's helpers *)
Section rules.
Context `{!Bincode StoredRecord} (now : Z).

Lemma vwp_owner_alive o (Q : bool → View → Prop) V :
  Q (bool_decide (alive V o)) V → vwp now (owner_alive o) Q V.
Proof.
  intros HQ. unfold owner_alive. apply vwp_bind, vwp_get_str; [done|]. apply vwp_ret.
  unfold alive, ak in HQ. by destruct (V !! (ALIVE_CF, alive_key o)).
Qed.

Lemma vwp_hold_algorithm o m p (Q : LockAlgorithm → View → Prop) V :
  (∀ a, hold_alg V o m p = Some a → Q a V) → vwp now (hold_algorithm o m p) Q V.
Proof.
  intros HQ. unfold hold_algorithm. apply vwp_bind, vwp_get_str; [done|].
  unfold hold_alg, hk in HQ. destruct (V !! (META_CF, _)) as [raw|]; [|apply vwp_ret; auto].
  apply vwp_lift. intros a Ha. apply HQ. by rewrite Ha.
Qed.

Lemma vwp_del_hold_algorithm o m p (Q : unit → View → Prop) V :
  Q tt (delete (hk o m p) V) → vwp now (del_hold_algorithm o m p) Q V.
Proof. apply vwp_del. Qed.

Lemma vwp_set_hold_algorithm o m p a (Q : unit → View → Prop) V :
  Q tt (<[hk o m p := algorithm_as_str a]> V) → vwp now (set_hold_algorithm o m p a 0) Q V.
Proof. by apply vwp_set_str. Qed.

Lemma vwp_idx_loop ancs c p (f : View → (cf * bytes) → View) (body : str → txm Kv unit)
    (g : list (cf * bytes) → View → View) (Q : unit → View → Prop) V :
  (∀ V, g [] V = V) → (∀ i ks V, g (i :: ks) V = g ks (f V i)) →
  (∀ anc Q V, Q tt (f V (sk c anc p)) → vwp now (body anc) Q V) →
  Q tt (g ((λ anc, sk c anc p) <$> ancs) V) → vwp now (for_each ancs body) Q V.
Proof.
  intros Hg0 Hg Hb. revert V. induction ancs as [|anc ancs IH]; intros V HQ; simpl in *.
  - apply vwp_ret. by rewrite Hg0 in HQ.
  - apply vwp_bind, Hb, IH. by rewrite Hg in HQ.
Qed.

Lemma vwp_remove_descendant_indexes m p (Q : unit → View → Prop) V :
  Q tt (del_keys (idx_keys m p) V) → vwp now (remove_descendant_indexes m p) Q V.
Proof.
  apply vwp_idx_loop with (f := λ V i, delete i V); [done..|].
  intros anc Q' V' HQ'. destruct m; by apply vwp_srem.
Qed.

Lemma vwp_add_descendant_indexes m p (Q : unit → View → Prop) V :
  Q tt (set_keys (idx_keys m p) p V) → vwp now (add_descendant_indexes m p 0) Q V.
Proof.
  apply vwp_idx_loop with (f := λ V i, <[i := p]> V) (g := λ ks, set_keys ks p); [done..|].
  intros anc Q' V' HQ'. destruct m; by apply vwp_sadd.
Qed.

(** What pruning a dead writer at [p] leaves. *)
Definition drop_write (o p : str) (V : View) : View :=
  del_keys (idx_keys Write p) (delete (hk o Write p) (delete (wk p) V)).

Lemma vwp_get_live_write_owner p (Q : option str → View → Prop) V :
  match writer V p with
  | None => Q None V
  | Some o => (alive V o → Q (Some o) V) ∧ (¬ alive V o → Q None (drop_write o p V))
  end → vwp now (get_live_write_owner p) Q V.
Proof.
  intros HQ. unfold get_live_write_owner. apply vwp_bind, vwp_get_str; [done|].
  unfold writer, wk in HQ. destruct (V !! (WR_CF, wr_key p)) as [o|]; [|by apply vwp_ret].
  apply vwp_bind, vwp_owner_alive. destruct HQ as [Ha Hd].
  case_bool_decide; [by apply vwp_ret, Ha|].
  apply vwp_bind, vwp_del, vwp_bind, vwp_del_hold_algorithm, vwp_bind,
    vwp_remove_descendant_indexes, vwp_ret. by apply Hd.
Qed.

(** What dropping one dead member of a holder set leaves. *)
Definition drop_member (c : cf) (m : Mode) (p o : str) (V : View) : View :=
  delete (hk o m p) (delete (sk c p o) V).

Lemma vwp_prune_owner c m p acc o (Q : list str → View → Prop) V :
  (alive V o → Q (acc ++ [o]) V) → (¬ alive V o → Q acc (drop_member c m p o V)) →
  vwp now (prune_owner c (p ++ [NUL]) m p acc o) Q V.
Proof.
  intros Ha Hd. unfold prune_owner. apply vwp_bind, vwp_owner_alive.
  case_bool_decide; [by apply vwp_ret, Ha|].
  apply vwp_bind, vwp_srem, vwp_bind, vwp_del_hold_algorithm, vwp_ret. by apply Hd.
Qed.

(** [release_hold], branch by branch. *)
Definition drop_read (o p : str) (V : View) : View :=
  delete (hk o Read p) (delete (sk RD_CF p o) V).

Lemma vwp_release_hold o m p (Q : unit → View → Prop) V :
  match m with
  | Write =>
      ∀ a, hold_alg V o Write p = Some a →
        if is_semaphore a then Q tt (drop_member SEM_CF Write p o V)
        else (writer V p = Some o → Q tt (drop_write o p V)) ∧
             (writer V p ≠ Some o → Q tt V)
  | Read =>
      (∀ o', is_member (drop_read o p V) RD_CF (rd_prefix p) o' → Q tt (drop_read o p V)) ∧
      ((∀ o', ¬ is_member (drop_read o p V) RD_CF (rd_prefix p) o') →
         Q tt (del_keys (idx_keys Read p) (drop_read o p V)))
  end → vwp now (release_hold o m p) Q V.
Proof.
  intros HQ. unfold release_hold. destruct m.
  - apply vwp_bind, vwp_hold_algorithm. intros a Ha. specialize (HQ a Ha).
    destruct (is_semaphore a).
    + apply vwp_bind, vwp_srem, vwp_del_hold_algorithm, HQ.
    + apply vwp_bind, vwp_get_str; [done|]. destruct HQ as [H1 H2].
      case_bool_decide as Hw; [|by apply vwp_ret, H2].
      apply vwp_bind, vwp_del, vwp_bind, vwp_del_hold_algorithm,
        vwp_remove_descendant_indexes. by apply H1.
  - apply vwp_bind, vwp_srem, vwp_bind, vwp_del_hold_algorithm, vwp_bind,
      vwp_has_live_member; [done|].
    intros b Hb. destruct HQ as [H1 H2]. destruct b; simpl.
    + apply vwp_ret. destruct (proj1 Hb) as [o' Ho']; [done|]. by apply (H1 o').
    + apply vwp_remove_descendant_indexes, H2. intros o' Ho'.
      by assert (false = true) by (apply Hb; eauto).
Qed.
End rules.
