(* ===== verification/EngineInv.v ===== *)
(** * The lock-state invariant and the pruning phase

    [Inv] collects what makes the lock tables consistent: exclusion between
    writers, readers and recursive writers of ancestors, completeness of the
    descendant indexes, the semaphore capacity bound, the shape of the keys.
    It speaks of the stored records whether or not their owner is still alive,
    which is why it survives the passing of time.  [prunes] is what the engine
    may do while it validates a request: drop records of dead owners. *)

From Stdlib Require Import ZArith NArith Lia Strings.Byte.
From stdpp Require Import sorting countable base numbers gmap strings list.
From S2P Require Import Prelude RustStd StoreKeys Store StoreScan StoreSim EngineTypes Engine.
From S2P Require Import KvView EngineView.
Local Open Scope Z_scope.

(** ** Separators *)

Lemma nul_nul_inj q b p m :
  nul_free p → nul_free m → q ++ NUL :: NUL :: b = p ++ NUL :: NUL :: m → q = p ∧ b = m.
Proof.
  unfold nul_free. revert p. induction q as [|x q IH]; intros [|y p] Hp Hm H; simplify_eq/=.
  - done.
  - set_solver.
  - destruct q as [|y q]; simplify_eq/=; set_solver.
  - destruct (IH p) as [-> ->]; [set_solver|done|done|done].
Qed.

(** Substrings of a NUL-free string. *)
Lemma nul_free_app a b : nul_free (a ++ b) ↔ nul_free a ∧ nul_free b.
Proof. unfold nul_free. set_solver. Qed.

Lemma nul_free_take n s : nul_free s → nul_free (take n s).
Proof. rewrite <- (take_drop n s) at 1. by intros [? _]%nul_free_app. Qed.

Lemma nul_free_drop n s : nul_free s → nul_free (drop n s).
Proof. rewrite <- (take_drop n s) at 1. by intros [_ ?]%nul_free_app. Qed.

Lemma nul_free_slash : nul_free slash.
Proof. by apply (bool_decide_eq_true_1 (nul_free slash)). Qed.

Lemma ancestor_loop_nul_free fuel pre cur anc :
  nul_free pre → nul_free cur → anc ∈ ancestor_loop fuel pre cur → nul_free anc.
Proof.
  intros Hpre. revert cur. induction fuel as [|fuel IH]; intros cur Hcur;
    cbn [ancestor_loop]; [by intros ?%not_elem_of_nil|].
  destruct (_ || _); [by intros ?%not_elem_of_nil|].
  destruct (rfind c_slash cur) as [idx|]; [|by intros ?%not_elem_of_nil].
  set (cur' := if (idx =? 0)%nat then slash else take idx cur).
  assert (nul_free cur') as Hc.
  { unfold cur'. destruct (idx =? 0)%nat; [apply nul_free_slash|by apply nul_free_take]. }
  intros [->|Hin]%elem_of_cons; [by apply nul_free_app|].
  case_bool_decide; [by apply not_elem_of_nil in Hin|by apply (IH cur')].
Qed.

Lemma get_ancestors_nul_free p anc : nul_free p → anc ∈ get_ancestors p → nul_free anc.
Proof.
  intros Hp. unfold get_ancestors, ancestors_from.
  destruct (split_once SCOPED_PATH_SEP p) as [[ns rel]|] eqn:Hs.
  - apply split_once_Some in Hs as [-> _]. rewrite (cons_middle SCOPED_PATH_SEP ns rel),
      app_assoc in Hp. apply nul_free_app in Hp as [Hp1 Hp2].
    by apply ancestor_loop_nul_free.
  - destruct (find c_colon p); [|by intros ?%not_elem_of_nil].
    apply ancestor_loop_nul_free; [by apply nul_free_take|by apply nul_free_drop].
Qed.

(** ** The invariant

    [semp] tells the semaphore paths apart: a namespace is either a semaphore
    namespace or a lock namespace (the state machine clears a namespace whose
    algorithm changes). *)
Definition set_cf (c : cf) : Prop :=
  c = RD_CF ∨ c = SEM_CF ∨ c = WRDESC_CF ∨ c = RDDESC_CF.

Section inv.
Context (semp : str → bool).

Record Inv (V : View) : Prop := {
  inv_set c k m : set_cf c → V !! (c, k) = Some m →
    ∃ p, nul_free p ∧ nul_free m ∧ (c, k) = sk c p m;
  inv_wr p o : writer V p = Some o →
    nul_free p ∧ nul_free o ∧ semp p = false ∧
    ∃ a, V !! hk o Write p = Some (algorithm_as_str a) ∧ is_semaphore a = false;
  inv_sem o p : permit V o p →
    semp p = true ∧ V !! hk o Write p = Some (algorithm_as_str Semaphore);
  inv_alg_r o p a : nul_free o → hold_alg V o Read p = Some a → is_semaphore a = false;
  inv_excl_ww p q a b : writer V p = Some a → p ∈ get_ancestors q → writer V q = Some b →
    rec_hold V a p → a = b;
  inv_excl_wr p q a b : writer V p = Some a → p ∈ get_ancestors q → reads V b q →
    rec_hold V a p → a = b;
  inv_point p a b : writer V p = Some a → reads V b p → a = b;
  inv_idx_w q o p : writer V q = Some o → p ∈ get_ancestors q → is_Some (V !! sk WRDESC_CF p q);
  inv_idx_r q o p : reads V o q → p ∈ get_ancestors q → is_Some (V !! sk RDDESC_CF p q);
  inv_cap p l : l ≠ [] → NoDup l → (∀ o, o ∈ l → permit V o p) →
    ∃ n, capacity V p = Some n ∧ len l ≤ n
}.

(** A member record is stored under its own name. *)
Lemma inv_set_lookup V c p o m :
  Inv V → set_cf c → V !! sk c p o = Some m → nul_free p ∧ nul_free o ∧ m = o.
Proof.
  intros HI Hc Hm. destruct (inv_set V HI c _ m Hc Hm) as (p' & Hp' & Hm' & Heq).
  unfold sk in Heq. apply pair_eq in Heq as [_ Heq]. rewrite !member_key_app in Heq.
  apply nul_nul_inj in Heq as [-> ->]; done.
Qed.

Lemma reads_nul_free V o p : Inv V → reads V o p → nul_free p ∧ nul_free o.
Proof.
  intros HI [m Hm]. apply inv_set_lookup in Hm as (? & ? & _); [done..|by left].
Qed.

Lemma permit_nul_free V o p : Inv V → permit V o p → nul_free p ∧ nul_free o.
Proof.
  intros HI [m Hm]. apply inv_set_lookup in Hm as (? & ? & _); [done..|by right; left].
Qed.

(** The members a scan of the set at [p] finds. *)
Lemma is_member_sk V c p o :
  Inv V → set_cf c → nul_free p →
  is_member V c (p ++ [NUL]) o ↔ is_Some (V !! sk c p o).
Proof.
  intros HI Hc Hp. split.
  - intros (k & [r ->] & Hk). destruct (inv_set V HI c _ o Hc Hk) as (p' & Hp' & Ho & Heq).
    unfold sk in Heq |- *. apply pair_eq in Heq as [_ Heq].
    rewrite member_key_app in Heq. unfold member_prefix in Heq, Hk.
    rewrite <- !app_assoc in Heq, Hk. simpl in Heq, Hk.
    apply nul_nul_inj in Heq as [-> ->]; [|done..]. by rewrite member_key_app, Hk.
  - intros [m Hm]. pose proof Hm as (_ & Ho & ->)%inv_set_lookup; [|done..].
    exists (member_key (p ++ [NUL]) o). split; [|done]. by eexists.
Qed.

(** ** Removals keep the invariant *)

Definition sub_view (V V' : View) : Prop := ∀ i, V' !! i = V !! i ∨ V' !! i = None.

Lemma sub_view_Some V V' i v : sub_view V V' → V' !! i = Some v → V !! i = Some v.
Proof. intros H Hi. destruct (H i) as [Heq|Heq]; congruence. Qed.

Lemma sub_view_is_Some V V' i : sub_view V V' → is_Some (V' !! i) → is_Some (V !! i).
Proof. intros H [v Hv]. exists v. by apply (sub_view_Some V V'). Qed.

Lemma hold_alg_eq V V' o m p : V' !! hk o m p = V !! hk o m p → hold_alg V' o m p = hold_alg V o m p.
Proof. unfold hold_alg. by intros ->. Qed.

Lemma rec_hold_eq V V' o p :
  V' !! hk o Write p = V !! hk o Write p → rec_hold V' o p → rec_hold V o p.
Proof. unfold rec_hold. intros H. by rewrite (hold_alg_eq V V'). Qed.

Lemma hold_alg_sub V V' o m p a :
  sub_view V V' → hold_alg V' o m p = Some a → is_semaphore a = true → hold_alg V o m p = Some a.
Proof.
  intros Hs. unfold hold_alg. destruct (V' !! hk o m p) as [raw|] eqn:Hr.
  - by rewrite (sub_view_Some V V' _ raw).
  - intros [= <-]. done.
Qed.

Lemma Inv_shrink V V' :
  Inv V → sub_view V V' →
  (∀ q o p, writer V' q = Some o → p ∈ get_ancestors q →
     V' !! sk WRDESC_CF p q = V !! sk WRDESC_CF p q) →
  (∀ q o p, reads V' o q → p ∈ get_ancestors q →
     V' !! sk RDDESC_CF p q = V !! sk RDDESC_CF p q) →
  (∀ q o, writer V' q = Some o → V' !! hk o Write q = V !! hk o Write q) →
  (∀ q o, permit V' o q → V' !! hk o Write q = V !! hk o Write q) →
  (∀ p, V' !! ck p = V !! ck p) →
  Inv V'.
Proof.
  intros HI Hs Hw Hr Hh Hhs Hck.
  assert (∀ p o, writer V' p = Some o → writer V p = Some o) as Hwr
    by (intros p o; by apply sub_view_Some).
  assert (∀ p o, reads V' o p → reads V o p) as Hrd by (intros p o; by apply sub_view_is_Some).
  assert (∀ p o, permit V' o p → permit V o p) as Hsm by (intros p o; by apply sub_view_is_Some).
  split.
  - intros c k m Hc Hm. by apply (inv_set V HI), (sub_view_Some V V').
  - intros p o Ho. rewrite (Hh _ _ Ho). by apply (inv_wr V HI), Hwr.
  - intros o p Ho. rewrite (Hhs _ _ Ho). by apply (inv_sem V HI), Hsm.
  - intros o p a Ho Ha. destruct (is_semaphore a) eqn:Hsem; [|done].
    rewrite <- Hsem. eapply (inv_alg_r V HI); [done|]. by apply (hold_alg_sub V V').
  - intros p q a b Ha Hq Hb Hrec. eapply (inv_excl_ww V HI); eauto.
    by apply (rec_hold_eq V V'); [apply Hh|].
  - intros p q a b Ha Hq Hb Hrec. eapply (inv_excl_wr V HI); eauto.
    by apply (rec_hold_eq V V'); [apply Hh|].
  - intros p a b Ha Hb. eapply (inv_point V HI); eauto.
  - intros q o p Ho Hq. rewrite (Hw q o p) by done. eapply (inv_idx_w V HI); eauto.
  - intros q o p Ho Hq. rewrite (Hr q o p) by done. eapply (inv_idx_r V HI); eauto.
  - intros p l Hl Hnd Hin. unfold capacity. rewrite Hck. apply (inv_cap V HI); auto.
Qed.

(** The invariant reads only the lock tables and the hold markers. *)
Lemma Inv_ext_cap V V' :
  Inv V →
  (∀ i, i.1 = WR_CF ∨ set_cf i.1 → V' !! i = V !! i) →
  (∀ o m p, V' !! hk o m p = V !! hk o m p) →
  (∀ p l, l ≠ [] → NoDup l → (∀ o, o ∈ l → permit V o p) →
     ∃ n, capacity V' p = Some n ∧ len l ≤ n) →
  Inv V'.
Proof.
  intros HI Hl Hh Hck.
  assert (∀ p, writer V' p = writer V p) as Hwr by (intros p; apply Hl; by left).
  assert (∀ c p m, set_cf c → V' !! sk c p m = V !! sk c p m) as Hsk
    by (intros c p m Hc; apply Hl; by right).
  assert (∀ o p, reads V' o p ↔ reads V o p) as Hrd
    by (intros o p; unfold reads; rewrite Hsk; [done|by left]).
  assert (∀ o p, permit V' o p ↔ permit V o p) as Hsm
    by (intros o p; unfold permit; rewrite Hsk; [done|by right; left]).
  assert (∀ o m p, hold_alg V' o m p = hold_alg V o m p) as Ha
    by (intros o m p; apply hold_alg_eq, Hh).
  assert (∀ o p, rec_hold V' o p ↔ rec_hold V o p) as Hrec
    by (intros o p; unfold rec_hold; by rewrite Ha).
  split.
  - intros c k m Hc Hm. apply (inv_set V HI); [done|]. rewrite <- Hl; [done|by right].
  - intros p o. rewrite Hwr, Hh. apply (inv_wr V HI).
  - intros o p. rewrite Hsm, Hh. apply (inv_sem V HI).
  - intros o p a. rewrite Ha. apply (inv_alg_r V HI).
  - intros p q a b. rewrite !Hwr, Hrec. apply (inv_excl_ww V HI).
  - intros p q a b. rewrite !Hwr, Hrec, Hrd. apply (inv_excl_wr V HI).
  - intros p a b. rewrite Hwr, Hrd. apply (inv_point V HI).
  - intros q o p. rewrite Hwr, Hsk by (by right; right; left). apply (inv_idx_w V HI).
  - intros q o p. rewrite Hrd, Hsk by (by right; right; right). apply (inv_idx_r V HI).
  - intros p l Hl' Hnd Hin. apply Hck; [done..|]. intros o Ho. by apply Hsm, Hin.
Qed.

Lemma Inv_ext V V' :
  Inv V →
  (∀ i, i.1 = WR_CF ∨ set_cf i.1 → V' !! i = V !! i) →
  (∀ o m p, V' !! hk o m p = V !! hk o m p) →
  (∀ p, V' !! ck p = V !! ck p) →
  Inv V'.
Proof.
  intros HI Hl Hh Hck. apply (Inv_ext_cap V); [done..|]. intros p l. unfold capacity. rewrite Hck.
  apply (inv_cap V HI).
Qed.

(** ** Pruning: only records of dead owners disappear *)

Definition lock_cfs : list cf := [WR_CF; RD_CF; SEM_CF; WRDESC_CF; RDDESC_CF; META_CF].

Record prunes (V V' : View) : Prop := {
  pr_sub : sub_view V V';
  pr_other i : i.1 ∉ lock_cfs → V' !! i = V !! i;
  pr_meta k : (∀ o m p, (META_CF, k) ≠ hk o m p) → V' !! (META_CF, k) = V !! (META_CF, k);
  pr_wr p o : writer V p = Some o → alive V o → writer V' p = Some o;
  pr_rd o p : nul_free o → reads V o p → alive V o → reads V' o p;
  pr_sem o p : nul_free o → permit V o p → alive V o → permit V' o p;
  pr_hk o m p : nul_free o → alive V o → V' !! hk o m p = V !! hk o m p;
  pr_alg p o : writer V' p = Some o → V' !! hk o Write p = V !! hk o Write p
}.

Lemma prunes_alive V V' o : prunes V V' → alive V' o ↔ alive V o.
Proof.
  intros Hp. unfold alive. rewrite (pr_other V V' Hp); [done|].
  by apply (bool_decide_eq_true_1 (ALIVE_CF ∉ lock_cfs)).
Qed.

#[export] Instance prunes_refl : Reflexive prunes.
Proof. intros V. split; eauto. intros i. by left. Qed.

#[export] Instance prunes_trans : Transitive prunes.
Proof.
  intros V1 V2 V3 H1 H2. pose proof (λ o, prunes_alive V1 V2 o H1) as Ha. split.
  - intros i. destruct (pr_sub _ _ H2 i) as [->| ->]; [|by right]. apply (pr_sub _ _ H1).
  - intros i Hi. by rewrite (pr_other _ _ H2), (pr_other _ _ H1).
  - intros k Hk. by rewrite (pr_meta _ _ H2), (pr_meta _ _ H1).
  - intros p o Hw Hal. apply (pr_wr _ _ H2); [by apply (pr_wr _ _ H1)|by apply Ha].
  - intros o p Ho Hr Hal. apply (pr_rd _ _ H2); [done|by apply (pr_rd _ _ H1)|by apply Ha].
  - intros o p Ho Hr Hal. apply (pr_sem _ _ H2); [done|by apply (pr_sem _ _ H1)|by apply Ha].
  - intros o m p Ho Hal. rewrite (pr_hk _ _ H2), (pr_hk _ _ H1); [done..|by apply Ha].
  - intros p o Hw. rewrite (pr_alg _ _ H2) by done. apply (pr_alg _ _ H1).
    by apply (sub_view_Some V2 V3); [apply H2|].
Qed.

Definition pruned (V V' : View) : Prop := Inv V' ∧ prunes V V'.
End inv.
