(* ===== verification/EngineValidate.v ===== *)
(** * Validation: what it prunes and what it establishes

    The validation phase of an acquire only removes records of dead owners
    ([pruned]), and when it lets a request pass, the request is compatible with
    every hold of another owner ([ok_req]). *)

From Stdlib Require Import ZArith NArith Lia Strings.Byte.
From stdpp Require Import sorting countable base numbers gmap strings list.
From S2P Require Import Prelude RustStd StoreKeys Store StoreScan StoreSim EngineTypes Engine.
From S2P Require Import KvView EngineView EngineInv.
Local Open Scope Z_scope.

(** ** Lookups after removals *)

Lemma ne_cf (i j : cf * bytes) : i.1 ≠ j.1 → i ≠ j.
Proof. by intros H ->. Qed.

Ltac lookup_ne :=
  repeat first
    [ rewrite lookup_del_idx by done
    | rewrite lookup_set_idx by done
    | rewrite lookup_delete_ne by (apply ne_cf; done)
    | rewrite lookup_insert_ne by (apply ne_cf; done) ].

Lemma sub_view_refl V : sub_view V V.
Proof. intros i. by left. Qed.

Lemma sub_view_delete V V' j : sub_view V V' → sub_view V (delete j V').
Proof.
  intros H i. destruct (decide (j = i)) as [->|Hne].
  - right. apply lookup_delete_eq.
  - rewrite lookup_delete_ne by done. apply H.
Qed.

Lemma sub_view_del_keys V V' ks : sub_view V V' → sub_view V (del_keys ks V').
Proof. intros H i. rewrite lookup_del_keys. case_decide; [by right|apply H]. Qed.
#[export] Hint Resolve sub_view_refl sub_view_delete sub_view_del_keys : core.

Lemma wk_inj p q : wk p = wk q → p = q.
Proof. by intros [=]. Qed.

Lemma writer_delete V p q : writer (delete (wk p) V) q = if decide (p = q) then None else writer V q.
Proof.
  unfold writer. case_decide as H; [subst; apply lookup_delete_eq|].
  rewrite lookup_delete_ne; [done|]. by intros ?%wk_inj.
Qed.

Lemma hk_delete (V : View) o m p o' m' p' :
  nul_free o → nul_free o' →
  (o, m, p) ≠ (o', m', p') → delete (hk o m p) V !! hk o' m' p' = V !! hk o' m' p'.
Proof.
  intros Ho Ho' Hne. apply lookup_delete_ne. intros Heq.
  apply hk_inj in Heq as (-> & -> & ->); done.
Qed.

Lemma not_alive_ne V o o' : ¬ alive V o → alive V o' → o ≠ o'.
Proof. by intros H H' ->. Qed.

(** Index keys of different paths are different. *)
Lemma idx_key_other m m' p q anc :
  nul_free p → nul_free q → anc ∈ get_ancestors q → p ≠ q →
  sk (idx_cf m') anc q ∉ idx_keys m p.
Proof.
  intros Hp Hq Hanc Hne (a & Heq & Ha)%list_elem_of_fmap.
  apply sk_inj in Heq as (_ & _ & ->); [done| |].
  - by apply (get_ancestors_nul_free q).
  - by apply (get_ancestors_nul_free p).
Qed.

Section drops.
Context (semp : str → bool).

Lemma drop_write_lookup_hk V o p o' m' p' :
  nul_free o → nul_free o' → (o, Write, p) ≠ (o', m', p') →
  drop_write o p V !! hk o' m' p' = V !! hk o' m' p'.
Proof. intros. unfold drop_write. rewrite lookup_del_idx by done. rewrite hk_delete by done. by lookup_ne. Qed.

Lemma writer_drop_write V o p q :
  writer (drop_write o p V) q = if decide (p = q) then None else writer V q.
Proof.
  rewrite <- writer_delete. unfold writer, drop_write. by lookup_ne.
Qed.

(** Dropping the write hold of [o] at [p] keeps the invariant. *)
Lemma Inv_drop_write V o p :
  Inv semp V → writer V p = Some o → Inv semp (drop_write o p V).
Proof.
  intros HI Hw. destruct (inv_wr _ V HI p o Hw) as (Hp & Ho & Hsp & _).
  apply (Inv_shrink semp V); [done|by unfold drop_write; auto|..].
  - intros q o' anc Hq Hanc. rewrite writer_drop_write in Hq. case_decide as Hne; [done|].
    destruct (inv_wr _ V HI q o' Hq) as (Hq' & _).
    unfold drop_write. rewrite lookup_del_keys, decide_False by by apply (idx_key_other _ Write).
    by lookup_ne.
  - intros q o' anc _ _. unfold drop_write. by lookup_ne.
  - intros q o' Hq. rewrite writer_drop_write in Hq. case_decide as Hne; [done|].
    destruct (inv_wr _ V HI q o' Hq) as (_ & Ho' & _).
    apply drop_write_lookup_hk; [done..|]. intros [=]; done.
  - intros q o' Hs. assert (permit V o' q) as Hs'.
    { unfold permit, drop_write in *. revert Hs. by lookup_ne. }
    destruct (permit_nul_free _ V o' q HI Hs') as [_ Ho'].
    apply drop_write_lookup_hk; [done..|]. intros [= -> ->].
    destruct (inv_sem _ V HI _ _ Hs'). congruence.
  - intros q. unfold drop_write. rewrite lookup_del_idx by done.
    rewrite lookup_delete_ne by apply hk_ck. by lookup_ne.
Qed.

Lemma prunes_drop_write V o p :
  Inv semp V → writer V p = Some o → ¬ alive V o → prunes V (drop_write o p V).
Proof.
  intros HI Hw Hal. destruct (inv_wr _ V HI p o Hw) as (Hp & Ho & Hsp & _). split.
  - unfold drop_write; auto.
  - intros i Hi. unfold drop_write. rewrite lookup_del_idx by (intros Hc; destruct Hi; rewrite Hc; set_solver).
    rewrite lookup_delete_ne by (intros <-; destruct Hi; set_solver).
    rewrite lookup_delete_ne; [done|]. intros <-; destruct Hi; set_solver.
  - intros k Hk. unfold drop_write. rewrite lookup_del_idx by done.
    rewrite lookup_delete_ne by (intros Heq; by destruct (Hk o Write p)). by lookup_ne.
  - intros q o' Hq Ha. rewrite writer_drop_write. case_decide; [|done].
    subst. rewrite Hw in Hq. by simplify_eq.
  - intros o' q _ Hr _. unfold reads, drop_write. by lookup_ne.
  - intros o' q _ Hr _. unfold permit, drop_write. by lookup_ne.
  - intros o' m q Ho' Ha. apply drop_write_lookup_hk; [done..|]. by intros [= -> _ _].
  - intros q o' Hq. rewrite writer_drop_write in Hq. case_decide as Hne; [done|].
    destruct (inv_wr _ V HI q o' Hq) as (_ & Ho' & _).
    apply drop_write_lookup_hk; [done..|]. by intros [=].
Qed.

(** Dropping one holder of a read or semaphore set. *)
Definition holder_cf (c : cf) (m : Mode) : Prop := (c = RD_CF ∧ m = Read) ∨ (c = SEM_CF ∧ m = Write).

Lemma holder_set_cf c m : holder_cf c m → set_cf c.
Proof. intros [[-> _]|[-> _]]; [by left|by right; left]. Qed.

Lemma drop_member_lookup_hk c (V : View) o m p o' m' p' :
  nul_free o → nul_free o' → holder_cf c m → (o, m, p) ≠ (o', m', p') →
  drop_member c m p o V !! hk o' m' p' = V !! hk o' m' p'.
Proof.
  intros. unfold drop_member. rewrite hk_delete by done.
  rewrite lookup_delete_ne; [done|]. apply ne_cf. by destruct H1 as [[-> _]|[-> _]].
Qed.

Lemma drop_member_lookup c (V : View) o m p i :
  i.1 ≠ c → i.1 ≠ META_CF → drop_member c m p o V !! i = V !! i.
Proof.
  intros. unfold drop_member. rewrite !lookup_delete_ne; [done|apply ne_cf; simpl; congruence..].
Qed.

Lemma drop_member_ck c V o m p q :
  holder_cf c m → drop_member c m p o V !! ck q = V !! ck q.
Proof.
  intros Hc. unfold drop_member. rewrite lookup_delete_ne by apply hk_ck.
  apply lookup_delete_ne, ne_cf. by destruct Hc as [[-> _]|[-> _]].
Qed.

Lemma permit_drop_member c V o m p o' q :
  holder_cf c m → nul_free o → permit (drop_member c m p o V) o' q →
  permit V o' q ∧ (c = SEM_CF → sk SEM_CF q o' ≠ sk SEM_CF p o).
Proof.
  intros Hc Ho Hs. unfold permit, drop_member in *. revert Hs.
  rewrite lookup_delete_ne by (apply ne_cf; done).
  destruct (decide (sk c p o = sk SEM_CF q o')) as [Heq|Hne].
  - rewrite Heq, lookup_delete_eq. by intros [].
  - rewrite lookup_delete_ne by done. intros Hs. split; [done|]. intros -> Heq. congruence.
Qed.

Lemma Inv_drop_member c m V o p :
  Inv semp V → holder_cf c m → nul_free o → (c = SEM_CF → writer V p ≠ Some o) →
  Inv semp (drop_member c m p o V).
Proof.
  intros HI Hc Ho Hsem.
  assert (∀ q o', writer V q = Some o' → (o, m, p) ≠ (o', Write, q)) as Hwr.
  { intros q o' Hq [= -> -> ->]. destruct Hc as [[_ ?]|[-> _]]; [done|].
    by apply Hsem. }
  assert (∀ q, writer (drop_member c m p o V) q = writer V q) as Hw.
  { intros q. apply drop_member_lookup; [|done]. by destruct Hc as [[-> _]|[-> _]]. }
  apply (Inv_shrink semp V); [done|by unfold drop_member; auto|..].
  - intros q o' anc _ _. apply drop_member_lookup; [|done]. by destruct Hc as [[-> _]|[-> _]].
  - intros q o' anc _ _. apply drop_member_lookup; [|done]. by destruct Hc as [[-> _]|[-> _]].
  - intros q o' Hq. rewrite Hw in Hq. destruct (inv_wr _ V HI q o' Hq) as (_ & Ho' & _).
    apply drop_member_lookup_hk; [done..|]. by apply Hwr.
  - intros q o' Hs. apply permit_drop_member in Hs as [Hs Hne]; [|done..].
    destruct (permit_nul_free _ V o' q HI Hs) as [_ Ho'].
    apply drop_member_lookup_hk; [done..|]. intros [= <- -> <-].
    destruct Hc as [[_ ?]|[-> _]]; [done|]. by apply Hne.
  - intros q. by apply drop_member_ck.
Qed.

Lemma prunes_drop_member c m V o p :
  Inv semp V → holder_cf c m → nul_free p → nul_free o → (c = SEM_CF → writer V p ≠ Some o) →
  ¬ alive V o → prunes V (drop_member c m p o V).
Proof.
  intros HI Hc Hp Ho Hsem Hal.
  assert (∀ c' o' q, nul_free o' → is_Some (V !! sk c' q o') → alive V o' → set_cf c' →
    is_Some (drop_member c m p o V !! sk c' q o')) as Hkeep.
  { intros c' o' q Ho' [v' Hv'] Ha Hc'. unfold drop_member.
    destruct (inv_set_lookup _ V c' q o' v' HI Hc' Hv') as (Hq & _).
    rewrite lookup_delete_ne by (apply ne_cf; by destruct Hc' as [->|[->|[->| ->]]]).
    rewrite lookup_delete_ne; [by eexists|]. intros Heq.
    apply sk_inj in Heq as (_ & _ & ->); [|done..]. done. }
  split.
  - unfold drop_member; auto.
  - intros i Hi. apply drop_member_lookup; intros Heq; apply Hi; rewrite Heq.
    + destruct Hc as [[-> _]|[-> _]]; set_solver.
    + set_solver.
  - intros k Hk. unfold drop_member. rewrite lookup_delete_ne by (intros Heq; by destruct (Hk o m p)).
    apply lookup_delete_ne, ne_cf. by destruct Hc as [[-> _]|[-> _]].
  - intros q o' Hq Ha. rewrite <- Hq. apply drop_member_lookup; [|done].
    by destruct Hc as [[-> _]|[-> _]].
  - intros o' q Ho' Hr Ha. apply Hkeep; [done..|by left].
  - intros o' q Ho' Hr Ha. apply Hkeep; [done..|by right; left].
  - intros o' m' q Ho' Ha. apply drop_member_lookup_hk; [done..|]. by intros [= -> _ _].
  - intros q o' Hq. assert (writer V q = Some o') as Hq'.
    { rewrite <- Hq. symmetry. apply drop_member_lookup; [|done].
      by destruct Hc as [[-> _]|[-> _]]. }
    destruct (inv_wr _ V HI q o' Hq') as (_ & Ho' & Hsp & _).
    apply drop_member_lookup_hk; [done..|]. intros [= -> -> ->].
    destruct Hc as [[_ ?]|[-> _]]; [done|]. by apply Hsem.
Qed.

(** Index entries may go when their path is not held. *)
Lemma pruned_del_keys V m ks :
  Inv semp V → (∀ i, i ∈ ks → i.1 = idx_cf m) →
  (∀ q o p, match m with Write => writer V q = Some o | Read => reads V o q end →
     p ∈ get_ancestors q → sk (idx_cf m) p q ∉ ks) →
  pruned semp V (del_keys ks V).
Proof.
  intros HI Hks Hno.
  assert (∀ i, i.1 ≠ idx_cf m → del_keys ks V !! i = V !! i) as Hl.
  { intros i Hi. rewrite lookup_del_keys, decide_False; [done|]. by intros ?%Hks. }
  assert (∀ q, writer (del_keys ks V) q = writer V q) as Hw by (intros q; apply Hl; by destruct m).
  assert (∀ o q, reads (del_keys ks V) o q ↔ reads V o q) as Hr.
  { intros o q. unfold reads. rewrite Hl; [done|]. by destruct m. }
  split.
  - apply (Inv_shrink semp V); [done|by auto|..].
    + intros q o p Hq Hanc. destruct m; [|by apply Hl]. rewrite Hw in Hq.
      rewrite lookup_del_keys, decide_False by by eapply Hno. done.
    + intros q o p Hq Hanc. destruct m; [by apply Hl|]. apply Hr in Hq.
      rewrite lookup_del_keys, decide_False by by eapply Hno. done.
    + intros q o _. apply Hl. by destruct m.
    + intros q o _. apply Hl. by destruct m.
    + intros q. apply Hl. by destruct m.
  - split; [by auto|..].
    + intros i Hi. apply Hl. intros Heq. apply Hi. rewrite Heq. destruct m; set_solver.
    + intros k _. apply Hl. by destruct m.
    + intros q o Hq _. by rewrite Hw.
    + intros o q _ Hq _. by apply Hr.
    + intros o q _ Hq _. unfold permit. rewrite Hl; [done|]. by destruct m.
    + intros o m' q _ _. apply Hl. by destruct m.
    + intros q o _. apply Hl. by destruct m.
Qed.

Lemma pruned_idx V m p :
  Inv semp V → nul_free p →
  match m with Write => writer V p = None | Read => ∀ o, ¬ reads V o p end →
  pruned semp V (del_keys (idx_keys m p) V).
Proof.
  intros HI Hp Hno. apply pruned_del_keys with m; [done|apply idx_keys_cf|].
  intros q o anc Hq Hanc.
  assert (nul_free q ∧ p ≠ q) as [Hq' Hne].
  { destruct m.
    - destruct (inv_wr _ V HI q o Hq) as (? & _). split; [done|]. intros ->. congruence.
    - destruct (reads_nul_free _ V o q HI Hq). split; [done|]. intros ->. by destruct (Hno o). }
  by apply idx_key_other.
Qed.

Lemma pruned_idx1 V m anc p :
  Inv semp V → nul_free anc →
  match m with Write => writer V p = None | Read => ∀ o, ¬ reads V o p end →
  pruned semp V (delete (sk (idx_cf m) anc p) V).
Proof.
  intros HI Hanc Hno. apply (pruned_del_keys V m [sk (idx_cf m) anc p]); [done|set_solver|].
  intros q o a Hq Ha Hin. apply list_elem_of_singleton in Hin.
  assert (nul_free q ∧ p ≠ q) as [Hq' Hne].
  { destruct m.
    - destruct (inv_wr _ V HI q o Hq) as (? & _). split; [done|]. intros ->. congruence.
    - destruct (reads_nul_free _ V o q HI Hq). split; [done|]. intros ->. by destruct (Hno o). }
  apply sk_inj in Hin as (_ & _ & ->); [done|by apply (get_ancestors_nul_free q)|done].
Qed.

Lemma pruned_refl V : Inv semp V → pruned semp V V.
Proof. by split. Qed.

Lemma pruned_trans V1 V2 V3 : pruned semp V1 V2 → pruned semp V2 V3 → pruned semp V1 V3.
Proof. intros [_ H1] [H2 H3]. split; [done|by trans V2]. Qed.
End drops.

Lemma first_other_None o l : first_other o l = None ↔ ∀ b, b ∈ l → b = o.
Proof.
  induction l as [|x l IH]; simpl; [set_solver|]. case_bool_decide as Hx.
  - rewrite IH. set_solver.
  - split; [done|]. intros H. destruct Hx. apply H. by left.
Qed.

(** ** The pruning helpers *)
Section helpers.
Context `{!Bincode StoredRecord} (semp : str → bool) (now : Z).
Local Abbreviation Inv := (Inv semp).
Local Abbreviation pruned := (pruned semp).

Lemma vwp_live_writer p V :
  Inv V → vwp now (get_live_write_owner p) (λ r V', pruned V V' ∧ writer V' p = r) V.
Proof.
  intros HI. apply vwp_get_live_write_owner.
  destruct (writer V p) as [o|] eqn:Hw; [|by split; [apply pruned_refl|]].
  split; intros Ha.
  - by split; [apply pruned_refl|].
  - split; [split; [by apply Inv_drop_write|by eapply prunes_drop_write]|].
    rewrite writer_drop_write. by rewrite decide_True.
Qed.

(** The fold that prunes the dead members of a holder set. *)
Lemma vwp_prune_fold c m p owners V :
  Inv V → holder_cf c m → nul_free p →
  (∀ o, o ∈ owners ↔ is_Some (V !! sk c p o)) →
  vwp now (fold_txm (prune_owner c (p ++ [NUL]) m p) [] owners)
    (λ l V', pruned V V' ∧ len l ≤ len owners ∧ ∀ o, o ∈ l ↔ is_Some (V' !! sk c p o)) V.
Proof.
  intros HI Hc Hp Hown.
  eapply vwp_mono; [apply (vwp_fold now _ (λ pre acc V', (pruned V V' ∧ len acc ≤ len pre) ∧
    (∀ o, o ∈ acc → alive V o ∧ is_Some (V' !! sk c p o)) ∧
    (∀ o, is_Some (V' !! sk c p o) → o ∈ pre → o ∈ acc)))|].
  - split; [split; [by apply pruned_refl|done]|]. set_solver.
  - intros pre x post acc V' Heq ([Hpr Hlen] & Hacc & Hpre). pose proof Hpr as [HI' Hps].
    unfold len in Hlen |- *. rewrite length_app. simpl length.
    assert (is_Some (V !! sk c p x)) as Hx by (apply Hown; set_solver).
    assert (nul_free x) as Hnx.
    { destruct Hx as [v Hv].
      by apply (inv_set_lookup _ V c p x v HI (holder_set_cf c m Hc)) in Hv as (_ & ? & _). }
    apply vwp_prune_owner; intros Ha.
    + assert (alive V x) as Ha' by by apply (prunes_alive V V').
      split; [split; [done|rewrite length_app; simpl; lia]|]. split; [|set_solver].
      intros o [Ho|Ho%list_elem_of_singleton]%elem_of_app; [auto|]. subst. split; [done|].
      destruct Hc as [[-> _]|[-> _]]; [by apply (pr_rd _ _ Hps)|by apply (pr_sem _ _ Hps)].
    + assert (¬ alive V x) as Ha' by (intros H; by apply (prunes_alive V V') in H).
      assert (∀ o, is_Some (drop_member c m p x V' !! sk c p o) ↔
                   is_Some (V' !! sk c p o) ∧ o ≠ x) as Hdrop.
      { intros o. unfold drop_member.
        rewrite lookup_delete_ne by (apply ne_cf; by destruct Hc as [[-> _]|[-> _]]).
        destruct (decide (o = x)) as [->|Hne].
        - rewrite lookup_delete_eq. split; [by intros []|by intros [_ ?]].
        - rewrite lookup_delete_ne; [by split; [|intros []]|].
          intros H. apply sk_inj in H as (_ & _ & ->); done. }
      assert (pruned V (drop_member c m p x V')) as Hpr'.
      { eapply pruned_trans; [done|].
        assert (c = SEM_CF → writer V' p ≠ Some x).
        { intros -> Hw. destruct (inv_sem _ V HI x p Hx), (inv_wr _ V' HI' p x Hw) as (_ & _ & ? & _).
          congruence. }
        split; [by apply Inv_drop_member|by eapply prunes_drop_member]. }
      split; [split; [done|lia]|]. split.
      * intros o Ho. apply Hacc in Ho as [Hal Hs]. split; [done|]. apply Hdrop.
        split; [done|]. by intros ->.
      * intros o [Hs Hne]%Hdrop Hin. apply Hpre; [done|]. set_solver.
  - intros l V' ([Hpr Hlen] & Hacc & Hpre). split; [done|]. split; [done|]. intros o. split.
    + intros Ho. by apply Hacc.
    + intros Hs. apply Hpre; [done|]. apply Hown.
      by apply (sub_view_is_Some V V'); [apply Hpr|].
Qed.

Lemma vwp_prune_readers p V :
  Inv V → nul_free p →
  vwp now (prune_dead_read_owners p)
    (λ l V', pruned V V' ∧ ∀ o, o ∈ l ↔ reads V' o p) V.
Proof.
  intros HI Hp. unfold prune_dead_read_owners.
  apply vwp_bind, vwp_smembers_limited; [done..|]. intros owners Hl _.
  eapply vwp_mono; [apply vwp_prune_fold; [done|by left|done|]|by intros l V' (? & _ & ?)].
  intros o. rewrite Hl. apply (is_member_sk semp); [done|by left|done].
Qed.

Lemma vwp_prune_permits p V :
  Inv V → nul_free p →
  vwp now (prune_dead_semaphore_owners p)
    (λ l V', pruned V V' ∧ len l ≤ MAX_SET_ENUM_MEMBERS ∧ ∀ o, o ∈ l ↔ permit V' o p) V.
Proof.
  intros HI Hp. unfold prune_dead_semaphore_owners.
  apply vwp_bind, vwp_smembers_limited; [done..|]. intros owners Hl Hmax.
  eapply vwp_mono; [apply vwp_prune_fold; [done|by right|done|]|].
  2: { intros l V' (? & Hlen & ?). split_and!; [done| |done]. lia. }
  intros o. rewrite Hl. apply (is_member_sk semp); [done|by right; left|done].
Qed.

(** A writer seen after pruning was there before. *)
Lemma pruned_writer V V' p o : pruned V V' → writer V' p = Some o → writer V p = Some o.
Proof. intros [_ Hp]. apply sub_view_Some, Hp. Qed.

Lemma pruned_reads V V' p o : pruned V V' → reads V' o p → reads V o p.
Proof. intros [_ Hp]. apply sub_view_is_Some, Hp. Qed.

Lemma pruned_permit V V' p o : pruned V V' → permit V' o p → permit V o p.
Proof. intros [_ Hp]. apply sub_view_is_Some, Hp. Qed.

Lemma pruned_rec V V' p o :
  pruned V V' → writer V' p = Some o → rec_hold V' o p → rec_hold V o p.
Proof. intros [_ Hp] Hw. apply rec_hold_eq. by apply (pr_alg _ _ Hp). Qed.

Lemma pruned_other V V' i : pruned V V' → i.1 ∉ lock_cfs → V' !! i = V !! i.
Proof. intros [_ Hp]. apply (pr_other _ _ Hp). Qed.

Lemma pruned_fence V V' p : pruned V V' → V' !! fk p = V !! fk p.
Proof.
  intros Hp. eapply pruned_other; [done|].
  by apply (bool_decide_eq_true_1 (FENCE_CF ∉ lock_cfs)).
Qed.

Lemma pruned_inv V V' : pruned V V' → Inv V'.
Proof. by intros [? _]. Qed.

Lemma vwp_descendant_writers o p ns V :
  Inv V → nul_free p →
  vwp now (find_descendant_write_conflict o p ns)
    (λ r V', pruned V V' ∧
       (r = None → ∀ q b, writer V' q = Some b → p ∈ get_ancestors q → b = o)) V.
Proof.
  intros HI Hp. unfold find_descendant_write_conflict.
  apply vwp_bind, vwp_smembers_limited; [done..|]. intros cs Hcs _.
  assert (∀ q, q ∈ cs ↔ is_Some (V !! sk WRDESC_CF p q)) as Hcs'.
  { intros q. rewrite Hcs. apply (is_member_sk semp); [done|by right; right; left|done]. }
  apply (vwp_find_first now _ _ (λ pre V', pruned V V' ∧
    ∀ q b, q ∈ pre → writer V' q = Some b → b = o)).
  - split; [by apply pruned_refl|]. set_solver.
  - intros pre x post V' Heq [Hpr Hpre].
    apply vwp_bind. eapply vwp_mono; [apply vwp_live_writer, (pruned_inv V V'), Hpr|].
    intros w V1 [Hpr1 Hw]. cbn beta.
    assert (pruned V V1) as HprV by by eapply pruned_trans.
    assert (∀ V2, pruned V1 V2 → (∀ b, writer V2 x = Some b → b = o) →
      pruned V V2 ∧ ∀ q b, q ∈ pre ++ [x] → writer V2 q = Some b → b = o) as Hstep.
    { intros V2 Hpr2 Hx. split; [by eapply pruned_trans|].
      intros q b [Hq|Hq%list_elem_of_singleton]%elem_of_app Hb; [|subst; auto].
      apply (Hpre q); [done|]. eapply pruned_writer; [|done]. by eapply pruned_trans. }
    destruct w as [b|].
    + case_bool_decide as Hb; apply vwp_ret; [|by split].
      apply Hstep; [apply pruned_refl; apply HprV|]. congruence.
    + assert (nul_free x) as Hx.
      { assert (x ∈ cs) as Hin by (rewrite Heq; set_solver). apply Hcs' in Hin as [v Hv].
        apply (inv_set_lookup _ V _ _ _ _ HI) in Hv as (_ & ? & _); [done|by right; right; left]. }
      apply vwp_bind, vwp_srem. apply vwp_bind, vwp_remove_descendant_indexes, vwp_ret.
      destruct (pruned_idx1 semp V1 Write p x) as [HI2 Hp2]; [apply HprV|done|done|].
      assert (writer (delete (sk WRDESC_CF p x) V1) x = None) as Hx2
        by (unfold writer; by lookup_ne).
      apply Hstep.
      * eapply pruned_trans; [by split|]. by apply (pruned_idx semp _ Write x).
      * intros b Hb. exfalso. revert Hb. unfold writer in *. lookup_ne. congruence.
  - intros V' [Hpr Hcl]. split; [done|]. intros _ q b Hq Hanc. apply (Hcl q); [|done].
    apply Hcs', (inv_idx_w _ V HI q b); [|done]. by eapply pruned_writer.
Qed.

Lemma vwp_descendant_read_candidate o p ns x V :
  Inv V → nul_free p → nul_free x →
  vwp now (descendant_read_candidate o (rddesc_prefix p) ns x)
    (λ r V', pruned V V' ∧ (r = None → ∀ b, reads V' b x → b = o)) V.
Proof.
  intros HI Hp Hx. unfold descendant_read_candidate. apply vwp_bind.
  eapply vwp_mono; [by apply vwp_prune_readers|]. intros l V1 [Hpr Hl]. cbn beta.
  destruct l as [|y l].
  - assert (∀ b, ¬ reads V1 b x) as Hno by (intros b Hb; apply Hl in Hb; set_solver).
    apply vwp_bind, vwp_srem, vwp_bind, vwp_remove_descendant_indexes, vwp_ret.
    destruct (pruned_idx1 semp V1 Read p x) as [HI2 Hp2]; [apply Hpr|done|done|].
    assert (∀ b, ¬ reads (delete (sk RDDESC_CF p x) V1) b x) as Hno2
      by (intros b; unfold reads; lookup_ne; apply Hno).
    destruct (pruned_idx semp _ Read x HI2 Hx Hno2) as [HI3 Hp3].
    split; [eapply pruned_trans; [done|]; by split; [|by etrans]|].
    intros _ b Hb. exfalso. apply (Hno2 b). revert Hb. unfold reads. by lookup_ne.
  - apply vwp_ret. split; [done|]. intros Hr b Hb.
    destruct (first_other o (y :: l)) eqn:Hf; [done|].
    by apply (proj1 (first_other_None o _) Hf), Hl.
Qed.

Lemma vwp_descendant_read_loop o p ns seen cs V :
  Inv V → nul_free p → (∀ x, x ∈ cs → nul_free x) →
  (∀ x b, x ∈ seen → reads V b x → b = o) →
  vwp now (descendant_read_loop o (rddesc_prefix p) ns seen cs)
    (λ r V', pruned V V' ∧
       (r = None → ∀ x b, x ∈ seen ∨ x ∈ cs → reads V' b x → b = o)) V.
Proof.
  revert seen V. induction cs as [|x cs IH]; intros seen V HI Hp Hcs Hseen; cbn [descendant_read_loop].
  { apply vwp_ret. split; [by apply pruned_refl|]. set_solver. }
  case_bool_decide as Hx.
  { eapply vwp_mono; [apply IH; set_solver|]. intros r V' [Hpr Hr]. split; [done|].
    intros Hn y b Hy. apply (Hr Hn). set_solver. }
  apply vwp_bind. eapply vwp_mono; [apply vwp_descendant_read_candidate; set_solver|].
  intros r V1 [Hpr Hr]. cbn beta. destruct r as [c|]; [by apply vwp_ret|].
  eapply vwp_mono; [apply IH|].
  - apply Hpr.
  - done.
  - set_solver.
  - intros y b [->|Hy]%elem_of_cons Hb; [by apply Hr|].
    eapply Hseen; [done|]. by eapply pruned_reads.
  - intros r' V' [Hpr' Hr']. split; [by eapply pruned_trans|]. intros Hn y b Hy.
    apply (Hr' Hn). set_solver.
Qed.

Lemma vwp_descendant_readers o p ns V :
  Inv V → nul_free p →
  vwp now (find_descendant_read_conflict o p ns)
    (λ r V', pruned V V' ∧
       (r = None → ∀ q b, reads V' b q → p ∈ get_ancestors q → b = o)) V.
Proof.
  intros HI Hp. unfold find_descendant_read_conflict.
  apply vwp_bind, vwp_smembers_limited; [done..|]. intros cs Hcs _.
  assert (∀ q, q ∈ cs ↔ is_Some (V !! sk RDDESC_CF p q)) as Hcs'.
  { intros q. rewrite Hcs. apply (is_member_sk semp); [done|by right; right; right|done]. }
  eapply vwp_mono; [apply vwp_descendant_read_loop; [done..| |set_solver]|].
  - intros x Hx. apply Hcs' in Hx as [v Hv].
    apply (inv_set_lookup _ V _ _ _ _ HI) in Hv as (_ & ? & _); [done|by right; right; right].
  - intros r V' [Hpr Hr]. split; [done|]. intros Hn q b Hq Hanc. apply (Hr Hn q); [|done].
    right. apply Hcs', (inv_idx_r _ V HI q b); [|done]. by eapply pruned_reads.
Qed.

Lemma vwp_new_ancestors o ns p V :
  Inv V →
  vwp now (validate_new_ancestors o ns p)
    (λ r V', pruned V V' ∧
       (r = None → ∀ anc b, anc ∈ get_ancestors p → writer V' anc = Some b → b ≠ o →
          ¬ rec_hold V' b anc)) V.
Proof.
  intros HI. unfold validate_new_ancestors.
  apply (vwp_find_first now _ _ (λ pre V', pruned V V' ∧
    ∀ anc b, anc ∈ pre → writer V' anc = Some b → b ≠ o → ¬ rec_hold V' b anc)).
  - split; [by apply pruned_refl|]. set_solver.
  - intros pre x post V' Heq [Hpr Hpre].
    apply vwp_bind. eapply vwp_mono; [apply vwp_live_writer, Hpr|].
    intros w V1 [Hpr1 Hw]. cbn beta.
    assert (pruned V V1) as HprV by by eapply pruned_trans.
    assert ((∀ b, writer V1 x = Some b → b ≠ o → ¬ rec_hold V1 b x) →
      pruned V V1 ∧ ∀ anc b, anc ∈ pre ++ [x] → writer V1 anc = Some b → b ≠ o →
        ¬ rec_hold V1 b anc) as Hstep.
    { intros Hx. split; [done|].
      intros anc b [Ha|Ha%list_elem_of_singleton]%elem_of_app Hb Hne Hrec; [|subst; by eapply Hx].
      eapply (Hpre anc b); [done|by eapply pruned_writer|done|by eapply pruned_rec]. }
    destruct w as [b|]; [|apply vwp_ret, Hstep; congruence].
    case_bool_decide as Hb; [apply vwp_ret, Hstep; congruence|].
    apply vwp_bind, vwp_hold_algorithm. intros a Ha. apply vwp_ret.
    destruct (recursive a) eqn:Hrec; [by split|]. apply Hstep.
    intros b' Hb' _ (a' & Ha' & Hrec'). rewrite Hw in Hb'. simplify_eq. congruence.
  - intros V' [Hpr Hcl]. by split.
Qed.
End helpers.
