(* ===== verification/EngineAcquire.v ===== *)
(** * Acquire: compatibility of a validated request, and its application

    [ok_req] is what validation establishes for one request; it survives both
    the pruning of the other requests' validation and the application of the
    other requests of the same acquire. *)

From Stdlib Require Import ZArith NArith Lia Strings.Byte.
From stdpp Require Import sorting countable base numbers gmap strings list.
From S2P Require Import Prelude RustStd StoreKeys Store StoreScan StoreSim EngineTypes Engine.
From S2P Require Import KvView EngineView EngineInv EngineValidate.
Local Open Scope Z_scope.

(** ** Well-formed input: what the service layer checks *)

Definition valid_req (o ns : str) (req : LockReq) : Prop :=
  (nul_free (scoped_path ns (lr_path req)) ∧ sep_free ns ∧ utf8_valid o = true) ∧
  is_u32 (lr_permits req).

Section acquire.
Context `{!Bincode StoredRecord} (semp : str → bool) (now : Z).
Local Abbreviation Inv := (Inv semp).
Local Abbreviation pruned := (pruned semp).

(** The owner, token, algorithm and namespace of the acquire, and the view it
    starts from. *)
Context (o : str) (tok : Z) (pol : LockPolicy) (ns : str) (V0 : View).
Let alg : LockAlgorithm := algorithm pol.

Definition anc_free (V : View) (p : str) : Prop :=
  ∀ anc b, anc ∈ get_ancestors p → writer V anc = Some b → b ≠ o → ¬ rec_hold V b anc.
Definition desc_free (V : View) (p : str) : Prop :=
  ∀ q b, p ∈ get_ancestors q → writer V q = Some b ∨ reads V b q → b = o.
(** Room for [o] among the permit holders of [p]. *)
Definition sem_room (V : View) (p : str) (n : Z) : Prop :=
  ∀ l, NoDup l → (∀ b, b ∈ l → b = o ∨ permit V b p) → len l ≤ n.

(** The fencing rule: a new writer brings a larger token than any before. *)
Definition fence_new (p : str) : Prop :=
  ∀ cur, parse_fence (V0 !! fk p) = Some cur →
    cur < tok ∨ (cur = tok ∧ writer V0 p = Some o).
Definition fence_held (p : str) : Prop :=
  ∃ cur, parse_fence (V0 !! fk p) = Some cur ∧ cur ≤ tok.

Definition ok_new (V : View) (req : LockReq) (p : str) : Prop :=
  allows_mode alg (lr_mode req) = true ∧
  if is_semaphore alg then 0 < lr_permits req ∧ sem_room V p (lr_permits req)
  else
    (∀ b, writer V p = Some b → b = o) ∧ anc_free V p ∧
    (lr_mode req = Write →
       (∀ b, reads V b p → b = o) ∧ (recursive alg = true → desc_free V p) ∧ fence_new p).
Definition ok_held (V : View) (req : LockReq) (p : str) : Prop :=
  ∃ a, hold_alg V o (lr_mode req) p = Some a ∧
    if is_semaphore a then permit V o p
    else match lr_mode req with
         | Write => writer V p = Some o ∧ fence_held p
         | Read => reads V o p
         end.
Definition ok_req (V : View) (req : LockReq) : Prop :=
  let p := scoped_path ns (lr_path req) in
  match lr_state req with
  | New => ok_new V req p
  | Held => ok_held V req p
  end.

(** The current view against the starting one. *)
Definition since (V : View) : Prop :=
  (∀ p, V !! fk p = V0 !! fk p) ∧ (∀ p b, writer V p = Some b → writer V0 p = Some b).

Lemma since_pruned V V' : since V → pruned V V' → since V'.
Proof.
  intros [Hf Hw] Hp. split.
  - intros p. by rewrite (pruned_fence semp V V').
  - intros p b Hb. apply Hw. by eapply pruned_writer.
Qed.

(** ** Pruning preserves compatibility *)
Lemma ok_req_pruned V V' req :
  nul_free o → pruned V V' → (lr_state req = Held → alive V o) →
  ok_req V req → ok_req V' req.
Proof.
  intros Ho Hp Hal. unfold ok_req. set (p := scoped_path ns (lr_path req)).
  destruct (lr_state req).
  - intros [Hm Hok]. split; [done|]. destruct (is_semaphore alg).
    + destruct Hok as [Hn Hroom]. split; [done|]. intros l Hnd Hl. apply Hroom; [done|].
      intros b Hb. destruct (Hl b Hb) as [?|?]; [by left|right]. by eapply pruned_permit.
    + destruct Hok as (Hw & Ha & Hwm). split_and!.
      * intros b Hb. apply Hw. by eapply pruned_writer.
      * intros anc b Hanc Hb Hne Hrec. eapply Ha; [done|by eapply pruned_writer|done|].
        by eapply pruned_rec.
      * intros Hwr. destruct (Hwm Hwr) as (Hr & Hd & Hf). split_and!; [| |done].
        -- intros b Hb. apply Hr. by eapply pruned_reads.
        -- intros Hrec q b Hq [Hb|Hb]; apply (Hd Hrec q); [done| |done|].
           ++ left. by eapply pruned_writer.
           ++ right. by eapply pruned_reads.
  - specialize (Hal eq_refl). destruct Hp as [HI Hp]. intros (a & Ha & Hok). exists a.
    rewrite (hold_alg_eq V V') by by apply (pr_hk _ _ Hp). split; [done|].
    destruct (is_semaphore a); [by apply (pr_sem _ _ Hp)|].
    destruct (lr_mode req); [|by apply (pr_rd _ _ Hp)].
    destruct Hok as [Hw Hf]. split; [by apply (pr_wr _ _ Hp)|done].
Qed.

(** ** Validation establishes compatibility *)

Lemma vwp_validate_held req V :
  since V → lr_state req = Held →
  vwp now (validate_held o tok req ns) (λ r V', V' = V ∧ (r = None → ok_req V req)) V.
Proof.
  intros [Hf _] Hst. unfold validate_held, ok_req. rewrite Hst. unfold ok_held.
  set (p := scoped_path ns (lr_path req)).
  apply vwp_bind, vwp_hold_algorithm. intros a Ha. destruct (is_semaphore a) eqn:Hs.
  - apply vwp_bind, vwp_sismember; [done|]. apply vwp_ret. split; [done|].
    case_bool_decide as Hm; [|done]. intros _. exists a. by rewrite Hs.
  - destruct (lr_mode req).
    + apply vwp_bind, vwp_get_str; [done|]. case_bool_decide as Hw; [|by apply vwp_ret].
      apply vwp_bind, vwp_get_str; [done|]. apply vwp_ret. split; [done|].
      change (V !! (FENCE_CF, fence_key p)) with (V !! fk p). rewrite Hf.
      destruct (parse_fence (V0 !! fk p)) as [cur|] eqn:Hc; [|done].
      destruct (Z.ltb_spec tok cur); [done|]. intros _. exists a. rewrite Hs.
      split_and!; [done..|]. by exists cur.
    + apply vwp_bind, vwp_sismember; [done|]. apply vwp_ret. split; [done|].
      case_bool_decide as Hm; [|done]. intros _. exists a. by rewrite Hs.
Qed.

Lemma vwp_semaphore_capacity p (Q : option Z → View → Prop) V :
  match V !! ck p with
  | None => Q None V
  | Some raw => ∀ n, parse_u32 raw = Some n → Q (Some n) V
  end → vwp now (semaphore_capacity p) Q V.
Proof.
  intros HQ. unfold semaphore_capacity. apply vwp_bind, vwp_get_str; [done|].
  change (V !! (META_CF, semaphore_permits_key p)) with (V !! ck p).
  destruct (V !! ck p) as [raw|]; [|by apply vwp_ret].
  apply vwp_bind, vwp_lift. intros n Hn. apply vwp_ret, HQ.
  unfold of_option in Hn. by destruct (parse_u32 raw); simplify_eq.
Qed.

(** [NoDup] lists inside a list are no longer than it. *)
Lemma nodup_len {A} (l l' : list A) : NoDup l → (∀ x, x ∈ l → x ∈ l') → len l ≤ len l'.
Proof.
  intros Hnd Hin. unfold len. apply inj_le, submseteq_length, NoDup_submseteq; [done|].
  by intros x Hx%Hin.
Qed.

Lemma vwp_validate_new_semaphore req p V :
  Inv V → nul_free p → is_u32 (lr_permits req) →
  vwp now (validate_new_semaphore o req p)
    (λ r V', pruned V V' ∧
       (r = None → 0 < lr_permits req ∧ sem_room V' p (lr_permits req))) V.
Proof.
  intros HI Hp Hn. unfold validate_new_semaphore.
  destruct (Z.eqb_spec (lr_permits req) 0) as [|Hn0]; [by apply vwp_ret; split; [apply pruned_refl|]|].
  assert (0 < lr_permits req) by (unfold is_u32 in Hn; lia).
  assert ((∀ l, l ≠ [] → NoDup l → (∀ b, b ∈ l → permit V b p) → len l ≤ lr_permits req) →
    vwp now (m ← sismember SEM_CF (sem_prefix p) o;
             if m : bool then mret None
             else holders ← prune_dead_semaphore_owners p;
                  mret (if lr_permits req <=? as_u32 (len holders)
                        then Some (Conflict (lr_path req) (default [] (head holders)) SemaphoreFull)
                        else None))
      (λ r V', pruned V V' ∧
         (r = None → 0 < lr_permits req ∧ sem_room V' p (lr_permits req))) V) as Hrest.
  { intros Hcap. apply vwp_bind, vwp_sismember; [done|]. case_bool_decide as Hm.
    - apply vwp_ret. split; [by apply pruned_refl|]. intros _. split; [done|].
      intros l Hnd Hl. destruct (decide (l = [])) as [->|Hne]; [unfold len; simpl; lia|].
      apply Hcap; [done..|]. intros b Hb. by destruct (Hl b Hb) as [->|?].
    - apply vwp_bind. eapply vwp_mono; [by apply vwp_prune_permits|].
      intros holders V' (Hpr & Hlen & Hh). apply vwp_ret. split; [done|].
      unfold as_u32, MAX_SET_ENUM_MEMBERS in *. rewrite Z.mod_small by (unfold len in *; lia).
      destruct (Z.leb_spec (lr_permits req) (len holders)); [done|]. intros _. split; [done|].
      intros l Hnd Hl. trans (len (o :: holders)).
      + apply nodup_len; [done|]. intros b Hb. destruct (Hl b Hb) as [->|Hb']; [by left|].
        right. by apply Hh.
      + unfold len in *. simpl. lia. }
  apply vwp_bind, vwp_semaphore_capacity.
  destruct (V !! ck p) as [raw|] eqn:Hck.
  - intros n Hraw. destruct (Z.eqb_spec n (lr_permits req)) as [->|];
      [|by apply vwp_ret; split; [apply pruned_refl|]].
    apply Hrest. intros l Hl Hnd Hin. destruct (inv_cap _ V HI p l) as (n' & Hc & Hle); [done..|].
    unfold capacity in Hc. rewrite Hck in Hc. simpl in Hc. by simplify_eq.
  - apply Hrest. intros l Hl Hnd Hin.
    destruct (inv_cap _ V HI p l) as (n' & Hc & _); [done..|].
    unfold capacity in Hc. by rewrite Hck in Hc.
Qed.

Lemma vwp_validate_new_write path p same V :
  Inv V → nul_free p → since V →
  (same = true → writer V p = Some o) →
  vwp now (validate_new_write o tok path ns p alg same)
    (λ r V', pruned V V' ∧
       (r = None → (∀ b, reads V' b p → b = o) ∧ (recursive alg = true → desc_free V' p) ∧
                   fence_new p)) V.
Proof.
  intros HI Hp Hsince Hsame. unfold validate_new_write.
  apply vwp_bind. eapply vwp_mono; [by apply vwp_prune_readers|]. intros l V1 [Hpr1 Hl].
  apply vwp_bind, (vwp_mono _ _ (λ _ V2, pruned V V2 ∧ ∀ b, reads V2 b p → b ∈ l)).
  { destruct l as [|x l]; [|apply vwp_ret; split; [done|]; intros b; apply Hl].
    apply vwp_remove_descendant_indexes.
    assert (∀ b, ¬ reads V1 b p) as Hno by (intros b Hb; apply Hl in Hb; set_solver).
    split; [eapply pruned_trans; [done|]; apply (pruned_idx semp V1 Read p); [apply Hpr1|done..]|].
    intros b Hb. exfalso. apply (Hno b). revert Hb. unfold reads. by lookup_ne. }
  intros _ V2 [Hpr2 Hl2]. cbn beta.
  destruct (first_other o l) as [x|] eqn:Hfo; [by apply vwp_ret|].
  assert (∀ b, reads V2 b p → b = o) as Hr2
    by (intros b Hb; by apply (proj1 (first_other_None o l) Hfo), Hl2).
  apply vwp_bind, (vwp_mono _ _ (λ r V3, pruned V V3 ∧ pruned V2 V3 ∧ (r = None → recursive alg = true →
    ∀ q b, writer V3 q = Some b → p ∈ get_ancestors q → b = o))).
  { destruct (recursive alg); [|apply vwp_ret; split_and!; [done|by apply pruned_refl, Hpr2|done]].
    eapply vwp_mono; [apply vwp_descendant_writers; [apply Hpr2|done]|].
    intros r V3 [Hpr3 Hr]. split_and!; [by eapply pruned_trans|done|]. intros Hn _. by apply Hr. }
  intros dw V3 (Hpr3 & Hpr23 & Hdw). destruct dw as [c|]; [by apply vwp_ret|].
  apply vwp_bind, (vwp_mono _ _ (λ r V4, pruned V V4 ∧ pruned V3 V4 ∧ (r = None → recursive alg = true →
    ∀ q b, reads V4 b q → p ∈ get_ancestors q → b = o))).
  { destruct (recursive alg); [|apply vwp_ret; split_and!; [done|by apply pruned_refl, Hpr3|done]].
    eapply vwp_mono; [apply vwp_descendant_readers; [apply Hpr3|done]|].
    intros r V4 [Hpr4 Hr]. split_and!; [by eapply pruned_trans|done|]. intros Hn _. by apply Hr. }
  intros dr V4 (Hpr4 & Hpr34 & Hdr). destruct dr as [c|]; [by apply vwp_ret|].
  apply vwp_bind, vwp_get_str; [done|]. apply vwp_ret. split; [done|]. intros Hres.
  split_and!.
  - intros b Hb. apply Hr2. eapply pruned_reads; [|done]. by eapply pruned_trans.
  - intros Hrec q b Hq [Hb|Hb]; [|by eapply Hdr].
    apply (Hdw eq_refl Hrec q); [|done]. by eapply pruned_writer.
  - intros cur Hcur. change (V4 !! (FENCE_CF, fence_key p)) with (V4 !! fk p) in Hres.
    rewrite (pruned_fence semp V V4), (proj1 Hsince), Hcur in Hres by done.
    destruct (Z.ltb_spec tok cur); [done|]. destruct (Z.eqb_spec cur tok); [|left; lia].
    right. split; [done|]. destruct same; [|done]. by apply (proj2 Hsince), Hsame.
Qed.

Lemma vwp_validate_new req V :
  Inv V → since V → valid_req o ns req → lr_state req = New →
  vwp now (validate_new o tok req ns pol) (λ r V', pruned V V' ∧ (r = None → ok_req V' req)) V.
Proof.
  intros HI Hsince [[Hp _] Hn] Hst. unfold validate_new, ok_req. rewrite Hst. unfold ok_new.
  set (p := scoped_path ns (lr_path req)) in *. fold alg.
  destruct (allows_mode alg (lr_mode req)) eqn:Hallow;
    [|by apply vwp_ret; split; [apply pruned_refl|]].
  apply vwp_bind. eapply vwp_mono; [by apply vwp_new_ancestors|].
  intros a V1 [Hpr1 Hanc]. cbn beta. destruct a as [c|]; [by apply vwp_ret|].
  specialize (Hanc eq_refl). destruct (is_semaphore alg) eqn:Hsem.
  { eapply vwp_mono; [apply vwp_validate_new_semaphore; [apply Hpr1|done..]|].
    intros r V' [Hpr Hr]. split; [by eapply pruned_trans|]. auto. }
  apply vwp_bind. eapply vwp_mono; [apply vwp_live_writer, Hpr1|].
  intros w V2 [Hpr2 Hw]. cbn beta.
  assert (pruned V V2) as HprV by by eapply pruned_trans.
  assert (∀ V3, pruned V2 V3 → anc_free V3 p) as Hanc3.
  { intros V3 Hpr3 anc b Hin Hb Hne Hrec. assert (pruned V1 V3) by by eapply pruned_trans.
    eapply Hanc; [done|by eapply pruned_writer|done|by eapply pruned_rec]. }
  assert ((∀ b, w = Some b → b = o) → ∀ V3, pruned V2 V3 → ∀ b, writer V3 p = Some b → b = o) as Hw3.
  { intros H V3 Hpr3 b Hb. apply H. rewrite <- Hw. by eapply pruned_writer. }
  assert (∀ same, (∀ b, w = Some b → b = o) → (same = true → w = Some o) →
    vwp now match lr_mode req with
            | Write => validate_new_write o tok (lr_path req) ns p alg same
            | Read => mret None
            end
      (λ r V', pruned V V' ∧ (r = None → true = true ∧
         (∀ b, writer V' p = Some b → b = o) ∧ anc_free V' p ∧
         (lr_mode req = Write → (∀ b, reads V' b p → b = o) ∧
            (recursive alg = true → desc_free V' p) ∧ fence_new p))) V2) as Hmode.
  { intros same Hw1 Hw2. destruct (lr_mode req).
    - eapply vwp_mono; [apply vwp_validate_new_write; [apply HprV|done| |]|].
      + by eapply since_pruned.
      + intros Hs. rewrite Hw. by apply Hw2.
      + intros r V3 [Hpr3 Hr]. split; [by eapply pruned_trans|]. intros Hn'. split_and!; eauto.
    - apply vwp_ret. split; [done|]. intros _.
      assert (pruned V2 V2) by (apply pruned_refl, HprV). split_and!; eauto. done. }
  destruct w as [b|].
  - case_bool_decide as Hb; [|by apply vwp_ret]. subst b. apply (Hmode true); congruence.
  - apply (Hmode false); done.
Qed.

Lemma vwp_validate_acquire reqs V :
  Inv V → since V → nul_free o → (∀ req, req ∈ reqs → valid_req o ns req) →
  ((∃ req, req ∈ reqs ∧ lr_state req = Held) → alive V o) →
  vwp now (validate_acquire o tok reqs ns pol)
    (λ r V', pruned V V' ∧ (r = None → ∀ req, req ∈ reqs → ok_req V' req)) V.
Proof.
  intros HI Hsince Ho Hval Hheld. unfold validate_acquire.
  apply (vwp_find_first now _ _ (λ pre V', pruned V V' ∧ ∀ req, req ∈ pre → ok_req V' req)).
  - split; [by apply pruned_refl|]. set_solver.
  - intros pre req post V' Heq [Hpr Hpre].
    assert (req ∈ reqs) as Hin by (rewrite Heq; set_solver).
    assert (∀ (r : option AcquireOutcome) V2, pruned V' V2 → (r = None → ok_req V2 req) →
      match r with
      | Some b => pruned V V2 ∧ (Some b = None → ∀ req, req ∈ reqs → ok_req V2 req)
      | None => pruned V V2 ∧ ∀ req', req' ∈ pre ++ [req] → ok_req V2 req'
      end) as Hstep.
    { intros [b|] V2 Hpr2 Hr; (split; [by eapply pruned_trans|]); [done|].
      intros req' [Hr'|Hr'%list_elem_of_singleton]%elem_of_app; [|subst; auto].
      eapply ok_req_pruned; [done|done| |by apply Hpre].
      intros Hh. apply (prunes_alive V V'); [apply Hpr|]. apply Hheld.
      exists req'. split; [rewrite Heq; set_solver|done]. }
    destruct (lr_state req) eqn:Hst.
    + eapply vwp_mono; [apply vwp_validate_new; [apply Hpr|by eapply since_pruned|auto|done]|].
      intros r V2 [Hpr2 Hr]. by apply Hstep.
    + eapply vwp_mono; [apply vwp_validate_held; [by eapply since_pruned|done]|].
      intros r V2 [-> Hr]. apply Hstep; [apply pruned_refl, Hpr|done].
  - intros V' [Hpr Hok]. by split.
Qed.
End acquire.
