(* ===== verification/EngineApply.v ===== *)
(** * Applying a validated request

    Each of the three ways to record a hold (write, read, permit) keeps the
    invariant when the request is compatible, and adds to the holds of the
    acquiring owner only ([extends]). *)

From Stdlib Require Import ZArith NArith Lia Strings.Byte.
From stdpp Require Import sorting countable base numbers gmap strings list.
From S2P Require Import Prelude RustStd StoreKeys Store StoreScan StoreSim EngineTypes Engine.
From S2P Require Import KvView EngineView EngineInv EngineValidate EngineAcquire.
Local Open Scope Z_scope.

Lemma lookup_set_idx_key m p v (V : View) anc q :
  nul_free p → nul_free anc →
  set_keys (idx_keys m p) v V !! sk (idx_cf m) anc q =
  if decide (q = p ∧ anc ∈ get_ancestors p) then Some v else V !! sk (idx_cf m) anc q.
Proof.
  intros Hp Hanc. rewrite lookup_set_keys.
  destruct (decide (q = p ∧ anc ∈ get_ancestors p)) as [[-> Hin]|Hno].
  - rewrite decide_True; [done|]. apply list_elem_of_fmap. eauto.
  - rewrite decide_False; [done|]. intros (a & Heq & Ha)%list_elem_of_fmap. destruct Hno.
    apply sk_inj in Heq as (_ & -> & ->); [done|done|].
    by apply (get_ancestors_nul_free p).
Qed.

(** Index keys are stored under NUL-free names. *)
Lemma set_idx_key_shape m p (V : View) k v :
  nul_free p → set_keys (idx_keys m p) p V !! (idx_cf m, k) = Some v →
  (∃ anc, nul_free anc ∧ nul_free v ∧ (idx_cf m, k) = sk (idx_cf m) anc v) ∨
  V !! (idx_cf m, k) = Some v.
Proof.
  intros Hp. rewrite lookup_set_keys. case_decide as Hin; [|by right].
  apply list_elem_of_fmap in Hin as (anc & Heq & Hanc). intros [= <-]. left.
  exists anc. split; [by apply (get_ancestors_nul_free p)|done].
Qed.

Section apply.
Context `{!Bincode StoredRecord} (semp : str → bool) (now : Z).
Local Abbreviation Inv := (Inv semp).

(** ** The three records *)
Section puts.
Context (o p mem : str) (a : LockAlgorithm) (V : View).
Hypothesis Ho : nul_free o.
Hypothesis Hp : nul_free p.

Definition mark (m : Mode) (V : View) : View :=
  <[hk o m p := algorithm_as_str a]> (<[sk OWN_CF o mem := mem]> V).
Definition put_write (tok : Z) : View :=
  mark Write (set_keys (idx_keys Write p) p (<[fk p := to_string tok]> (<[wk p := o]> V))).
Definition put_read : View :=
  mark Read (set_keys (idx_keys Read p) p (<[sk RD_CF p o := o]> V)).
Definition put_permit : View := mark Write (<[sk SEM_CF p o := o]> V).

Lemma mark_lookup m (W : View) i :
  i.1 ≠ META_CF → i.1 ≠ OWN_CF → mark m W !! i = W !! i.
Proof using Type.
  intros. unfold mark. rewrite !lookup_insert_ne; [done|apply ne_cf; simpl; congruence..].
Qed.

Lemma mark_ck m (W : View) q : mark m W !! ck q = W !! ck q.
Proof using Type. unfold mark. rewrite lookup_insert_ne by apply hk_ck. by lookup_ne. Qed.

Lemma mark_hk m (W : View) o' m' q :
  nul_free o' →
  mark m W !! hk o' m' q =
  if decide ((o, m, p) = (o', m', q)) then Some (algorithm_as_str a) else W !! hk o' m' q.
Proof using Ho Hp.
  intros Ho'. unfold mark. case_decide as H.
  - injection H as -> -> ->. by rewrite lookup_insert_eq.
  - rewrite lookup_insert_ne; [by lookup_ne|]. intros Heq.
    apply hk_inj in Heq as (-> & -> & ->); done.
Qed.

Lemma mark_hold_alg m (W : View) o' m' q :
  nul_free o' →
  hold_alg (mark m W) o' m' q =
  if decide ((o, m, p) = (o', m', q)) then Some a else hold_alg W o' m' q.
Proof using Ho Hp.
  intros Ho'. unfold hold_alg. rewrite mark_hk by done. case_decide; [|done].
  by rewrite algorithm_roundtrip.
Qed.

(** *** Write *)
Section write.
Context (tok : Z).
Local Abbreviation W := (put_write tok).

Lemma put_write_writer q : writer W q = if decide (p = q) then Some o else writer V q.
Proof using semp Ho Hp.
  unfold writer, put_write. rewrite mark_lookup by done.
  rewrite lookup_set_idx by done. rewrite lookup_insert_ne by (apply ne_cf; done).
  case_decide as H; [subst; by rewrite lookup_insert_eq|].
  rewrite lookup_insert_ne; [done|]. by intros ?%wk_inj.
Qed.

Lemma put_write_lookup i :
  i.1 ∉ [WR_CF; WRDESC_CF; FENCE_CF; META_CF; OWN_CF] → W !! i = V !! i.
Proof using semp Ho Hp.
  intros Hi. unfold put_write. rewrite mark_lookup by set_solver.
  rewrite lookup_set_idx by (simpl; set_solver).
  rewrite !lookup_insert_ne; [done|apply ne_cf; simpl; set_solver..].
Qed.

Lemma put_write_reads b q : reads W b q ↔ reads V b q.
Proof using semp Ho Hp. unfold reads. rewrite put_write_lookup by (simpl; set_solver). done. Qed.

Lemma put_write_permit b q : permit W b q ↔ permit V b q.
Proof using semp Ho Hp. unfold permit. rewrite put_write_lookup by (simpl; set_solver). done. Qed.

Lemma put_write_hk o' m q :
  nul_free o' → (o, Write, p) ≠ (o', m, q) → W !! hk o' m q = V !! hk o' m q.
Proof using semp Ho Hp.
  intros Ho' Hne. unfold put_write. rewrite mark_hk, decide_False by done. by lookup_ne.
Qed.

Lemma put_write_hold_alg o' m q :
  nul_free o' →
  hold_alg W o' m q = if decide ((o, Write, p) = (o', m, q)) then Some a else hold_alg V o' m q.
Proof using semp Ho Hp.
  intros Ho'. unfold put_write. rewrite mark_hold_alg by done. case_decide; [done|].
  apply hold_alg_eq. by lookup_ne.
Qed.

Lemma put_write_rec o' q :
  nul_free o' → rec_hold W o' q →
  (o' = o ∧ q = p ∧ recursive a = true) ∨ ((o', q) ≠ (o, p) ∧ rec_hold V o' q).
Proof using semp Ho Hp.
  intros Ho' (a' & Ha & Hr). rewrite put_write_hold_alg in Ha by done. case_decide as H.
  - left. by simplify_eq.
  - right. split; [congruence|by exists a'].
Qed.

Lemma put_write_idx anc q :
  nul_free anc →
  W !! sk WRDESC_CF anc q =
  if decide (q = p ∧ anc ∈ get_ancestors p) then Some p else V !! sk WRDESC_CF anc q.
Proof using semp Ho Hp.
  intros Hanc. unfold put_write. rewrite mark_lookup by done.
  rewrite (lookup_set_idx_key Write) by done. by lookup_ne.
Qed.

Lemma Inv_put_write :
  Inv V → semp p = false → is_semaphore a = false →
  (∀ b, writer V p = Some b → b = o) → anc_free o V p → (∀ b, reads V b p → b = o) →
  (recursive a = true → desc_free o V p) →
  Inv W.
Proof.
  intros HI Hsp Hna Hwr Hanc Hrd Hdesc.
  assert (∀ q b, writer W q = Some b → (q = p ∧ b = o) ∨ (q ≠ p ∧ writer V q = Some b)) as Hw.
  { intros q b. rewrite put_write_writer. case_decide; naive_solver. }
  assert (∀ q b, writer W q = Some b → nul_free q ∧ nul_free b) as Hnf.
  { intros q b [[-> ->]|[_ Hq]]%Hw; [done|]. by destruct (inv_wr _ V HI q b Hq) as (? & ? & _). }
  split.
  - intros c k m Hc Hm. destruct (decide (c = WRDESC_CF)) as [->|Hne].
    + unfold put_write in Hm. rewrite mark_lookup in Hm by done.
      apply (set_idx_key_shape Write) in Hm as [?|Hm]; [done| |done].
      revert Hm. lookup_ne. by apply (inv_set _ V HI).
    + rewrite put_write_lookup in Hm; [by apply (inv_set _ V HI)|].
      destruct Hc as [->|[->|[->| ->]]]; simpl; [set_solver|set_solver|done|set_solver].
  - intros q b Hq. pose proof (Hnf q b Hq) as [Hnq Hnb].
    destruct (Hw q b Hq) as [[-> ->]|[Hne Hq']].
    + split_and!; [done..|]. exists a. split; [|done]. unfold put_write.
      by rewrite mark_hk, decide_True.
    + destruct (inv_wr _ V HI q b Hq') as (_ & _ & Hs & a' & Ha' & Hna').
      split_and!; [done..|]. exists a'. rewrite put_write_hk by (try done; congruence). done.
  - intros b q Hb. apply put_write_permit in Hb. destruct (inv_sem _ V HI b q Hb) as [Hs Hh].
    destruct (permit_nul_free _ V b q HI Hb). split; [done|].
    rewrite put_write_hk; [done..|]. intros [=]; congruence.
  - intros b q a' Hb Ha'. rewrite put_write_hold_alg in Ha' by done.
    rewrite decide_False in Ha' by congruence. by eapply (inv_alg_r _ V HI).
  - intros x q b1 b2 Hx Hanc' Hq Hrec. destruct (Hnf x b1 Hx) as [_ Hnb].
    apply put_write_rec in Hrec; [|done].
    destruct (Hw x b1 Hx) as [[-> ->]|[Hnx Hx']], (Hw q b2 Hq) as [[-> ->]|[Hnq Hq']].
    + done.
    + destruct Hrec as [(_ & _ & Hra)|[? _]]; [|done]. symmetry. eapply (Hdesc Hra); eauto.
    + destruct Hrec as [(_ & ? & _)|[_ Hrec]]; [done|].
      destruct (decide (b1 = o)) as [->|Hne]; [done|]. by destruct (Hanc x b1).
    + destruct Hrec as [(_ & ? & _)|[_ Hrec]]; [done|]. by eapply (inv_excl_ww _ V HI).
  - intros x q b1 b2 Hx Hanc' Hq%put_write_reads Hrec. destruct (Hnf x b1 Hx) as [_ Hnb].
    apply put_write_rec in Hrec; [|done].
    destruct (Hw x b1 Hx) as [[-> ->]|[Hnx Hx']].
    + destruct Hrec as [(_ & _ & Hra)|[? _]]; [|done]. symmetry. eapply (Hdesc Hra); eauto.
    + destruct Hrec as [(_ & ? & _)|[_ Hrec]]; [done|]. by eapply (inv_excl_wr _ V HI).
  - intros x b1 b2 Hx Hb%put_write_reads.
    destruct (Hw x b1 Hx) as [[-> ->]|[Hnx Hx']]; [symmetry; by apply Hrd|].
    by eapply (inv_point _ V HI).
  - intros q b anc Hq Hanc'. destruct (Hnf q b Hq) as [Hnq _].
    rewrite put_write_idx by by apply (get_ancestors_nul_free q).
    case_decide as Hd; [done|]. destruct (Hw q b Hq) as [[-> ->]|[_ Hq']]; [by destruct Hd|].
    by eapply (inv_idx_w _ V HI).
  - intros q b anc Hq%put_write_reads Hanc'. rewrite put_write_lookup by (simpl; set_solver).
    by eapply (inv_idx_r _ V HI).
  - intros q l Hl Hnd Hin. unfold capacity, put_write. rewrite mark_ck. lookup_ne.
    apply (inv_cap _ V HI); [done..|]. intros b Hb. by apply put_write_permit, Hin.
Qed.
End write.

(** *** Read *)
Section read.
Local Abbreviation W := put_read.

Lemma put_read_lookup i :
  i.1 ∉ [RD_CF; RDDESC_CF; META_CF; OWN_CF] → W !! i = V !! i.
Proof using semp Ho Hp.
  intros Hi. unfold put_read. rewrite mark_lookup by set_solver.
  rewrite lookup_set_idx by (simpl; set_solver).
  rewrite !lookup_insert_ne; [done|apply ne_cf; simpl; set_solver..].
Qed.

Lemma put_read_writer q : writer W q = writer V q.
Proof using semp Ho Hp. apply put_read_lookup. simpl. set_solver. Qed.

Lemma put_read_reads b q :
  nul_free q → reads W b q ↔ (b = o ∧ q = p) ∨ reads V b q.
Proof using semp Ho Hp.
  intros Hq. unfold reads, put_read. rewrite mark_lookup by done.
  rewrite lookup_set_idx by done.
  destruct (decide (sk RD_CF p o = sk RD_CF q b)) as [Heq|Hne].
  - rewrite Heq, lookup_insert_eq. apply sk_inj in Heq as (_ & -> & ->); [|done..].
    split; [auto|by intros _].
  - rewrite lookup_insert_ne by done. split; [auto|]. by intros [[-> ->]|?].
Qed.

Lemma put_read_permit b q : permit W b q ↔ permit V b q.
Proof using semp Ho Hp. unfold permit. rewrite put_read_lookup by (simpl; set_solver). done. Qed.

Lemma put_read_hk o' m q :
  nul_free o' → (o, Read, p) ≠ (o', m, q) → W !! hk o' m q = V !! hk o' m q.
Proof using semp Ho Hp.
  intros Ho' Hne. unfold put_read. rewrite mark_hk, decide_False by done. by lookup_ne.
Qed.

Lemma put_read_hk_write o' q : nul_free o' → W !! hk o' Write q = V !! hk o' Write q.
Proof using semp Ho Hp. intros. by apply put_read_hk. Qed.

Lemma put_read_rec o' q : nul_free o' → rec_hold W o' q → rec_hold V o' q.
Proof using semp Ho Hp. intros Ho'. by apply rec_hold_eq, put_read_hk_write. Qed.

Lemma put_read_idx anc q :
  nul_free anc →
  W !! sk RDDESC_CF anc q =
  if decide (q = p ∧ anc ∈ get_ancestors p) then Some p else V !! sk RDDESC_CF anc q.
Proof using semp Ho Hp.
  intros Hanc. unfold put_read. rewrite mark_lookup by done.
  rewrite (lookup_set_idx_key Read) by done. by lookup_ne.
Qed.

Lemma put_read_shape c k m :
  Inv V → set_cf c → W !! (c, k) = Some m →
  ∃ q, nul_free q ∧ nul_free m ∧ (c, k) = sk c q m.
Proof.
  intros HI Hc Hm. destruct (decide (c = RDDESC_CF)) as [->|Hne].
  { unfold put_read in Hm. rewrite mark_lookup in Hm by done.
    apply (set_idx_key_shape Read) in Hm as [?|Hm]; [done| |done].
    revert Hm. lookup_ne. by apply (inv_set _ V HI). }
  destruct (decide (c = RD_CF)) as [->|Hne'].
  - unfold put_read in Hm. rewrite mark_lookup in Hm by done.
    rewrite lookup_set_idx in Hm by done.
    destruct (decide (sk RD_CF p o = (RD_CF, k))) as [Heq|Hne2].
    + rewrite <- Heq, lookup_insert_eq in Hm. simplify_eq. by exists p.
    + rewrite lookup_insert_ne in Hm by done. by apply (inv_set _ V HI).
  - rewrite put_read_lookup in Hm; [by apply (inv_set _ V HI)|].
    destruct Hc as [->|[->|[->| ->]]]; simpl; [done|set_solver|set_solver|done].
Qed.

Lemma Inv_put_read :
  Inv V → is_semaphore a = false →
  (∀ b, writer V p = Some b → b = o) → anc_free o V p →
  Inv W.
Proof.
  intros HI Hna Hwr Hanc.
  assert (∀ b q, reads W b q → (b = o ∧ q = p) ∨ reads V b q) as Hr.
  { intros b q [m Hm]. apply put_read_reads; [|by eexists].
    destruct (put_read_shape RD_CF _ m HI ltac:(by left) Hm) as (q' & Hq' & Hm' & Heq).
    unfold sk in Heq. apply pair_eq in Heq as [_ Heq]. rewrite !member_key_app in Heq.
    by apply nul_nul_inj in Heq as [-> ->]. }
  split.
  - intros c k m Hc Hm. by apply put_read_shape.
  - intros q b. rewrite put_read_writer. intros Hq.
    pose proof (inv_wr _ V HI q b Hq) as (? & ? & _). rewrite put_read_hk_write by done.
    by apply (inv_wr _ V HI).
  - intros b q Hb%put_read_permit. destruct (permit_nul_free _ V b q HI Hb).
    rewrite put_read_hk_write by done. by apply (inv_sem _ V HI).
  - intros b q a' Hb Ha'. unfold put_read in Ha'. rewrite mark_hold_alg in Ha' by done.
    case_decide; [by simplify_eq|]. eapply (inv_alg_r _ V HI); [done|].
    rewrite <- Ha'. apply hold_alg_eq. by lookup_ne.
  - intros x q b1 b2. rewrite !put_read_writer. intros Hx Hanc' Hq Hrec.
    eapply (inv_excl_ww _ V HI); [done..|]. apply put_read_rec; [|done].
    by destruct (inv_wr _ V HI x b1 Hx) as (_ & ? & _).
  - intros x q b1 b2. rewrite put_read_writer. intros Hx Hanc' Hq Hrec.
    apply put_read_rec in Hrec; [|by destruct (inv_wr _ V HI x b1 Hx) as (_ & ? & _)].
    apply Hr in Hq as [[-> ->]|Hq]; [|by eapply (inv_excl_wr _ V HI)].
    destruct (decide (b1 = o)) as [->|Hne]; [done|]. by destruct (Hanc x b1).
  - intros x b1 b2. rewrite put_read_writer. intros Hx [[-> ->]|Hb]%Hr; [by apply Hwr|].
    by eapply (inv_point _ V HI).
  - intros q b anc. rewrite put_read_writer, put_read_lookup by (simpl; set_solver).
    apply (inv_idx_w _ V HI).
  - intros q b anc Hq Hanc'.
    assert (nul_free q) as Hnq.
    { apply Hr in Hq as [[_ ->]|Hq]; [done|]. by apply (reads_nul_free _ V b q HI) in Hq as [? _]. }
    rewrite put_read_idx by by apply (get_ancestors_nul_free q).
    case_decide as Hd; [done|]. apply Hr in Hq as [[-> ->]|Hq]; [by destruct Hd|].
    by eapply (inv_idx_r _ V HI).
  - intros q l Hl Hnd Hin. unfold capacity, put_read. rewrite mark_ck. lookup_ne.
    apply (inv_cap _ V HI); [done..|]. intros b Hb. by apply put_read_permit, Hin.
Qed.
End read.

(** *** Permit *)
Section permit.
Local Abbreviation W := put_permit.

Lemma put_permit_lookup i : i.1 ∉ [SEM_CF; META_CF; OWN_CF] → W !! i = V !! i.
Proof using semp Ho Hp.
  intros Hi. unfold put_permit. rewrite mark_lookup by set_solver.
  rewrite lookup_insert_ne; [done|apply ne_cf; simpl; set_solver].
Qed.

Lemma put_permit_writer q : writer W q = writer V q.
Proof using semp Ho Hp. apply put_permit_lookup. simpl. set_solver. Qed.

Lemma put_permit_reads b q : reads W b q ↔ reads V b q.
Proof using semp Ho Hp. unfold reads. rewrite put_permit_lookup by (simpl; set_solver). done. Qed.

Lemma put_permit_permit b q :
  nul_free q → permit W b q ↔ (b = o ∧ q = p) ∨ permit V b q.
Proof using semp Ho Hp.
  intros Hq. unfold permit, put_permit. rewrite mark_lookup by done.
  destruct (decide (sk SEM_CF p o = sk SEM_CF q b)) as [Heq|Hne].
  - rewrite Heq, lookup_insert_eq. apply sk_inj in Heq as (_ & -> & ->); [|done..].
    split; [auto|by intros _].
  - rewrite lookup_insert_ne by done. split; [auto|]. by intros [[-> ->]|?].
Qed.

Lemma put_permit_hk o' m q :
  nul_free o' → (o, Write, p) ≠ (o', m, q) → W !! hk o' m q = V !! hk o' m q.
Proof using semp Ho Hp.
  intros Ho' Hne. unfold put_permit. rewrite mark_hk, decide_False by done. by lookup_ne.
Qed.

Lemma put_permit_shape c k m :
  Inv V → set_cf c → W !! (c, k) = Some m →
  ∃ q, nul_free q ∧ nul_free m ∧ (c, k) = sk c q m.
Proof.
  intros HI Hc Hm. destruct (decide (c = SEM_CF)) as [->|Hne].
  - unfold put_permit in Hm. rewrite mark_lookup in Hm by done.
    destruct (decide (sk SEM_CF p o = (SEM_CF, k))) as [Heq|Hne2].
    + rewrite <- Heq, lookup_insert_eq in Hm. simplify_eq. by exists p.
    + rewrite lookup_insert_ne in Hm by done. by apply (inv_set _ V HI).
  - rewrite put_permit_lookup in Hm; [by apply (inv_set _ V HI)|].
    destruct Hc as [->|[->|[->| ->]]]; simpl; [set_solver|done|set_solver|set_solver].
Qed.

Lemma Inv_put_permit n :
  Inv V → semp p = true → a = Semaphore →
  capacity V p = Some n → sem_room o V p n →
  Inv W.
Proof.
  intros HI Hsp Ha Hck Hroom.
  assert (∀ b q, permit W b q → nul_free q ∧ nul_free b ∧ ((b = o ∧ q = p) ∨ permit V b q)) as Hs.
  { intros b q [m Hm].
    destruct (put_permit_shape SEM_CF _ m HI ltac:(by right; left) Hm) as (q' & Hq' & Hm' & Heq).
    unfold sk in Heq. apply pair_eq in Heq as [_ Heq]. rewrite !member_key_app in Heq.
    apply nul_nul_inj in Heq as [-> ->]; [|done..]. split_and!; [done..|].
    apply put_permit_permit; [done|by eexists]. }
  assert (∀ q b, writer V q = Some b → W !! hk b Write q = V !! hk b Write q) as Hh.
  { intros q b Hq. pose proof (inv_wr _ V HI q b Hq) as (_ & ? & Hsq & _).
    apply put_permit_hk; [done|]. intros [=]. congruence. }
  split.
  - intros c k m Hc Hm. by apply put_permit_shape.
  - intros q b. rewrite put_permit_writer. intros Hq. rewrite Hh by done. by apply (inv_wr _ V HI).
  - intros b q (Hq & Hb & Hcase)%Hs. unfold put_permit. rewrite mark_hk by done.
    case_decide as Hd; [injection Hd as <- <-; by rewrite Ha|]. destruct Hcase as [[-> ->]|Hb']; [done|].
    lookup_ne. by apply (inv_sem _ V HI).
  - intros b q a' Hb. rewrite (hold_alg_eq V) by (apply put_permit_hk; [done|congruence]).
    by apply (inv_alg_r _ V HI).
  - intros x q b1 b2. rewrite !put_permit_writer. intros Hx Hanc' Hq Hrec.
    eapply (inv_excl_ww _ V HI); [done..|]. by apply (rec_hold_eq V W); [apply Hh|].
  - intros x q b1 b2. rewrite put_permit_writer, put_permit_reads. intros Hx Hanc' Hq Hrec.
    eapply (inv_excl_wr _ V HI); [done..|]. by apply (rec_hold_eq V W); [apply Hh|].
  - intros x b1 b2. rewrite put_permit_writer, put_permit_reads. apply (inv_point _ V HI).
  - intros q b anc. rewrite put_permit_writer, put_permit_lookup by (simpl; set_solver).
    apply (inv_idx_w _ V HI).
  - intros q b anc. rewrite put_permit_reads, put_permit_lookup by (simpl; set_solver).
    apply (inv_idx_r _ V HI).
  - intros q l Hl Hnd Hin. unfold capacity, put_permit. rewrite mark_ck. lookup_ne.
    fold (capacity V q).
    destruct (decide (q = p)) as [->|Hne].
    + exists n. split_and!; [done..|]. apply Hroom; [done|]. intros b Hb.
      destruct (Hs b p (Hin b Hb)) as (_ & _ & [[-> _]|?]); auto.
    + apply (inv_cap _ V HI); [done..|]. intros b Hb.
      destruct (Hs b q (Hin b Hb)) as (_ & _ & [[_ ?]|?]); [done|done].
Qed.
End permit.
End puts.

(** ** The hold set of an owner lists its holds *)

Lemma parse_hold_member_member ns m path :
  nul_free ns →
  parse_hold_member (hold_member ns m path) =
  Some {| hl_namespace := ns; hl_mode := m; hl_path := path |}.
Proof.
  intros Hns. unfold parse_hold_member, hold_member, member.
  cbn [hl_namespace hl_mode hl_path splitn].
  rewrite split_once_app by apply mode_nul_free. cbn [splitn].
  rewrite split_once_app by done. by destruct m.
Qed.

Lemma scoped_path_nul_free ns path : nul_free (scoped_path ns path) → nul_free ns.
Proof. unfold scoped_path. by intros [? _]%nul_free_app. Qed.

Lemma hold_member_inj ns m path ns' m' path' :
  nul_free ns → nul_free ns' → hold_member ns m path = hold_member ns' m' path' →
  ns = ns' ∧ m = m' ∧ path = path'.
Proof.
  intros Hns Hns' Heq. pose proof (parse_hold_member_member ns m path Hns) as Hp.
  rewrite Heq, parse_hold_member_member in Hp by done. by simplify_eq.
Qed.

Definition has_own (V : View) (o : str) (m : Mode) (p : str) : Prop :=
  ∃ ns path, p = scoped_path ns path ∧ owns V o (hold_member ns m path).
Record own_ok (V : View) : Prop := {
  own_w p o : writer V p = Some o → has_own V o Write p;
  own_r p o : reads V o p → has_own V o Read p;
  own_s p o : permit V o p → has_own V o Write p;
  (** every entry is stored under the owner it belongs to, and names a key path *)
  own_key k m : V !! (OWN_CF, k) = Some m →
    (∃ o, nul_free o ∧ utf8_valid o = true ∧ (OWN_CF, k) = sk OWN_CF o m) ∧
    (∀ held, parse_hold_member m = Some held → nul_free (key_path held) ∧ sep_free (hl_namespace held))
}.

(** ** Adding holds of one owner *)
Section extend.
Context (o : str) (tok : Z) (pol : LockPolicy) (ns : str) (V0 : View).
Local Abbreviation ok_req := (ok_req o tok pol ns V0).
Let alg : LockAlgorithm := algorithm pol.
Hypothesis Ho : nul_free o.

Record extends (V V' : View) : Prop := {
  ex_wr q b : writer V' q = Some b → b = o ∨ writer V q = Some b;
  ex_wr_keep q b : writer V q = Some b → b = o → writer V' q = Some b;
  ex_rd q b : reads V' b q → b = o ∨ reads V b q;
  ex_rd_keep q b : reads V b q → reads V' b q;
  ex_sem q b : permit V' b q → b = o ∨ permit V b q;
  ex_sem_keep q b : permit V b q → permit V' b q;
  ex_hk b m q : nul_free b → b ≠ o → V' !! hk b m q = V !! hk b m q;
  ex_hk_o m q : V' !! hk o m q = V !! hk o m q ∨
    ∃ a, V' !! hk o m q = Some (algorithm_as_str a) ∧
         match m with Write => is_semaphore a = semp q | Read => is_semaphore a = false end
}.

Lemma extends_refl V : extends V V.
Proof. split; auto. Qed.

Lemma hold_alg_extends V V' m q a :
  extends V V' → hold_alg V o m q = Some a →
  is_semaphore a = match m with Write => semp q | Read => false end →
  ∃ a', hold_alg V' o m q = Some a' ∧ is_semaphore a' = is_semaphore a.
Proof.
  intros Hex Ha Hs. destruct (ex_hk_o _ _ Hex m q) as [Heq|(a' & Heq & Hs')].
  - exists a. by rewrite (hold_alg_eq V V').
  - exists a'. unfold hold_alg. rewrite Heq, algorithm_roundtrip. split; [done|].
    destruct m; congruence.
Qed.

Lemma ok_req_extends V V' req : Inv V → extends V V' → ok_req V req → ok_req V' req.
Proof.
  intros HI Hex. unfold EngineAcquire.ok_req. set (p := scoped_path ns (lr_path req)).
  destruct (lr_state req).
  - intros [Hm Hok]. split; [done|]. destruct (is_semaphore (algorithm pol)).
    + destruct Hok as [Hn Hroom]. split; [done|]. intros l Hnd Hl. apply Hroom; [done|].
      intros b Hb. destruct (Hl b Hb) as [?|Hs]; [by left|]. by apply (ex_sem _ _ Hex).
    + destruct Hok as (Hw & Ha & Hwm). split_and!.
      * intros b Hb. destruct (ex_wr _ _ Hex p b Hb) as [?|?]; auto.
      * intros anc b Hanc Hb Hne Hrec. destruct (ex_wr _ _ Hex anc b Hb) as [?|Hb']; [done|].
        apply (Ha anc b); [done..|]. apply (rec_hold_eq V V'); [|done].
        apply (ex_hk _ _ Hex); [|done]. by destruct (inv_wr _ V HI anc b Hb') as (_ & ? & _).
      * intros Hwr. destruct (Hwm Hwr) as (Hr & Hd & Hf). split_and!; [| |done].
        -- intros b Hb. destruct (ex_rd _ _ Hex p b Hb) as [?|?]; auto.
        -- intros Hrec q b Hq [Hb|Hb].
           ++ destruct (ex_wr _ _ Hex q b Hb) as [?|?]; [done|]. eapply (Hd Hrec q); auto.
           ++ destruct (ex_rd _ _ Hex q b Hb) as [?|?]; [done|]. eapply (Hd Hrec q); auto.
  - intros (a & Ha & Hok).
    assert (is_semaphore a = match lr_mode req with Write => semp p | Read => false end) as Hcl.
    { destruct (lr_mode req); [|by apply (inv_alg_r _ V HI o p)].
      destruct (is_semaphore a) eqn:Hs.
      - symmetry. by destruct (inv_sem _ V HI o p Hok).
      - destruct Hok as [Hw _]. by destruct (inv_wr _ V HI p o Hw) as (_ & _ & ? & _). }
    destruct (hold_alg_extends V V' _ p a Hex Ha Hcl) as (a' & Ha' & Hs').
    exists a'. rewrite Hs'. split; [done|]. destruct (is_semaphore a).
    + by apply (ex_sem_keep _ _ Hex).
    + destruct (lr_mode req); [|by apply (ex_rd_keep _ _ Hex)].
      destruct Hok as [Hw Hf]. split; [by apply (ex_wr_keep _ _ Hex)|done].
Qed.

(** *** The three records extend the view *)
Section puts_extend.
Context (V : View) (p mem : str) (a : LockAlgorithm).
Hypothesis HI : Inv V.
Hypothesis Hp : nul_free p.

Lemma put_write_extends :
  semp p = is_semaphore a → extends V (put_write o p mem a V tok).
Proof.
  intros Hs. pose proof (put_write_writer o p mem a V Ho Hp tok) as Hw.
  pose proof (put_write_reads o p mem a V Ho Hp tok) as Hr.
  pose proof (put_write_permit o p mem a V Ho Hp tok) as Hsm. split.
  - intros q b. rewrite Hw. case_decide; [intros [= <-]; by left|by right].
  - intros q b Hq ->. rewrite Hw. by case_decide.
  - intros q b. rewrite Hr. by right.
  - intros q b. by rewrite Hr.
  - intros q b. rewrite Hsm. by right.
  - intros q b. by rewrite Hsm.
  - intros b m q Hb Hne. apply put_write_hk; [done..|]. congruence.
  - intros m q. destruct (decide ((Write, p) = (m, q))) as [[= <- <-]|Hne].
    + right. exists a. unfold put_write. rewrite mark_hk, decide_True by done. done.
    + left. apply put_write_hk; [done..|]. congruence.
Qed.

Lemma put_read_extends : is_semaphore a = false → extends V (put_read o p mem a V).
Proof.
  intros Hs. pose proof (put_read_writer o p mem a V Ho Hp) as Hw.
  pose proof (put_read_reads o p mem a V Ho Hp) as Hr.
  pose proof (put_read_permit o p mem a V Ho Hp) as Hsm. split.
  - intros q b. rewrite Hw. by right.
  - intros q b Hq _. by rewrite Hw.
  - intros q b [m Hm]. assert (nul_free q) as Hq.
    { destruct (put_read_shape o p mem a V Ho Hp RD_CF _ m HI ltac:(by left) Hm) as (q' & ? & ? & Heq).
      unfold sk in Heq. apply pair_eq in Heq as [_ Heq]. rewrite !member_key_app in Heq.
      by apply nul_nul_inj in Heq as [-> _]. }
    assert (reads (put_read o p mem a V) b q) as Hb by by eexists.
    apply Hr in Hb as [[? _]|?]; [by left|by right|done].
  - intros q b Hb. destruct (reads_nul_free _ V b q HI Hb). apply Hr; [done|by right].
  - intros q b. rewrite Hsm. by right.
  - intros q b. by rewrite Hsm.
  - intros b m q Hb Hne. apply put_read_hk; [done..|]. congruence.
  - intros m q. destruct (decide ((Read, p) = (m, q))) as [[= <- <-]|Hne].
    + right. exists a. unfold put_read. rewrite mark_hk, decide_True by done. done.
    + left. apply put_read_hk; [done..|]. congruence.
Qed.

Lemma put_permit_extends :
  semp p = true → a = Semaphore → extends V (put_permit o p mem a V).
Proof.
  intros Hs Ha. pose proof (put_permit_writer o p mem a V Ho Hp) as Hw.
  pose proof (put_permit_reads o p mem a V Ho Hp) as Hr.
  pose proof (put_permit_permit o p mem a V Ho Hp) as Hsm. split.
  - intros q b. rewrite Hw. by right.
  - intros q b Hq _. by rewrite Hw.
  - intros q b. rewrite Hr. by right.
  - intros q b. by rewrite Hr.
  - intros q b [m Hm]. assert (nul_free q) as Hq.
    { destruct (put_permit_shape o p mem a V Ho Hp SEM_CF _ m HI ltac:(by right; left) Hm)
        as (q' & ? & ? & Heq).
      unfold sk in Heq. apply pair_eq in Heq as [_ Heq]. rewrite !member_key_app in Heq.
      by apply nul_nul_inj in Heq as [-> _]. }
    assert (permit (put_permit o p mem a V) b q) as Hb by by eexists.
    apply Hsm in Hb as [[? _]|?]; [by left|by right|done].
  - intros q b Hb. destruct (permit_nul_free _ V b q HI Hb). apply Hsm; [done|by right].
  - intros b m q Hb Hne. apply put_permit_hk; [done..|]. congruence.
  - intros m q. destruct (decide ((Write, p) = (m, q))) as [[= <- <-]|Hne].
    + right. exists a. unfold put_permit. rewrite mark_hk, decide_True by done.
      split; [done|]. by rewrite Hs, Ha.
    + left. apply put_permit_hk; [done..|]. congruence.
Qed.
End puts_extend.
End extend.
End apply.
