(* ===== verification/EngineOps.v ===== *)
(** * The engine's operations preserve the lock-state invariant

    The apply loop of an acquire, the release paths, the owner-wide release and
    the remaining operations, each with what it does to the holds. *)

From Stdlib Require Import ZArith NArith Lia Strings.Byte.
From stdpp Require Import sorting countable base numbers gmap strings list.
From S2P Require Import Prelude RustStd StoreKeys Store StoreScan StoreSim EngineTypes Engine.
From S2P Require Import KvView EngineView EngineInv EngineValidate EngineAcquire EngineApply.
Local Open Scope Z_scope.

(** The hold of [o] at [p] in mode [m] is not there. *)
Definition gone (V : View) (o : str) (m : Mode) (p : str) : Prop :=
  match m with
  | Write => writer V p ≠ Some o ∧ ¬ permit V o p
  | Read => ¬ reads V o p
  end.

(** The hold of [o] at [p] in mode [m] is there. *)
Definition held (V : View) (o : str) (m : Mode) (p : str) : Prop :=
  match m with
  | Write => writer V p = Some o ∨ permit V o p
  | Read => reads V o p
  end.

Lemma gone_held V o m p : gone V o m p ↔ ¬ held V o m p.
Proof. destruct m; simpl; tauto. Qed.

Lemma held_eq V V' o m p :
  V' !! wk p = V !! wk p → (∀ c, c = RD_CF ∨ c = SEM_CF → V' !! sk c p o = V !! sk c p o) →
  held V o m p → held V' o m p.
Proof.
  intros Hw Hs. destruct m; simpl; unfold writer, permit, reads.
  - rewrite Hw, Hs by by right. done.
  - by rewrite Hs by by left.
Qed.

Section ops.
Context `{!Bincode StoredRecord} (semp : str → bool) (now : Z).
Local Abbreviation Inv := (Inv semp).
Local Abbreviation pruned := (pruned semp).

(** ** Applying one request *)

(** The families a validated request may write. *)
Definition grant_cfs : list cf := FENCE_CF :: OWN_CF :: lock_cfs.

Lemma mark_own (o p mem : str) a m (W : View) k :
  mark o p mem a m W !! (OWN_CF, k) =
  if decide (sk OWN_CF o mem = (OWN_CF, k)) then Some mem else W !! (OWN_CF, k).
Proof.
  unfold mark. rewrite lookup_insert_ne by (apply ne_cf; done). by rewrite lookup_insert.
Qed.

Lemma own_ok_mark (o p mem : str) a m (V W : View) ns path :
  own_ok V → nul_free o → nul_free p → sep_free ns → utf8_valid o = true →
  (∀ k, W !! (OWN_CF, k) = V !! (OWN_CF, k)) → p = scoped_path ns path → mem = hold_member ns m path →
  (∀ q b, writer (mark o p mem a m W) q = Some b → (q = p ∧ b = o ∧ m = Write) ∨ writer V q = Some b) →
  (∀ q b, reads (mark o p mem a m W) b q → (q = p ∧ b = o ∧ m = Read) ∨ reads V b q) →
  (∀ q b, permit (mark o p mem a m W) b q → (q = p ∧ b = o ∧ m = Write) ∨ permit V b q) →
  own_ok (mark o p mem a m W).
Proof.
  intros Hok Ho Hnp Hns Hu HW Hp Hmem Hw Hr Hs.
  assert (∀ b x, owns V b x → owns (mark o p mem a m W) b x) as Hown.
  { intros b x Hb. unfold owns, sk. rewrite mark_own. case_decide; [by eexists|].
    rewrite HW. done. }
  assert (∀ b m' q, has_own V b m' q → has_own (mark o p mem a m W) b m' q) as Hhas.
  { intros b m' q (ns' & path' & -> & Hb). exists ns', path'. auto. }
  assert (has_own (mark o p mem a m W) o m p) as Hnew.
  { exists ns, path. split; [done|]. rewrite <- Hmem. unfold owns, sk. rewrite mark_own.
    by rewrite decide_True. }
  split.
  - intros q b [(-> & -> & ->)|Hq]%Hw; [done|]. by apply Hhas, (own_w _ Hok).
  - intros q b [(-> & -> & ->)|Hq]%Hr; [done|]. by apply Hhas, (own_r _ Hok).
  - intros q b [(-> & -> & ->)|Hq]%Hs; [done|]. by apply Hhas, (own_s _ Hok).
  - intros k x. rewrite mark_own. case_decide as Hd.
    { intros [= <-]. split; [by exists o|]. intros held Hh.
      rewrite Hmem, parse_hold_member_member in Hh; [by simplify_eq|].
      apply (scoped_path_nul_free ns path). by rewrite <- Hp. }
    rewrite HW. apply (own_key _ Hok).
Qed.

Section apply_one.
Context (o : str) (tok : Z) (pol : LockPolicy) (ns : str) (V0 : View).
Local Abbreviation ok_req := (ok_req o tok pol ns V0).
Local Abbreviation extends := (extends semp o).
Hypothesis Ho : nul_free o.

Definition fence_ok (V : View) : Prop :=
  ∀ q, V !! fk q = V0 !! fk q ∨
       (V !! fk q = Some (to_string tok) ∧ (fence_new o tok V0 q ∨ fence_held tok V0 q)).

(** What a granted request leaves in the lock tables. *)
Definition got (V : View) (req : LockReq) : Prop :=
  let p := scoped_path ns (lr_path req) in
  match lr_state req with
  | New =>
      if is_semaphore (algorithm pol) then permit V o p
      else match lr_mode req with
           | Write => writer V p = Some o ∧ V !! fk p = Some (to_string tok)
           | Read => reads V o p
           end
  | Held => held V o (lr_mode req) p
  end.

Lemma got_extends V V' req :
  extends V V' → (∀ q, V' !! fk q = V !! fk q ∨ V' !! fk q = Some (to_string tok)) →
  got V req → got V' req.
Proof.
  intros Hex Hf. unfold got. set (p := scoped_path ns (lr_path req)).
  destruct (lr_state req).
  - destruct (is_semaphore _); [by apply (ex_sem_keep _ _ _ _ Hex)|].
    destruct (lr_mode req); [|by apply (ex_rd_keep _ _ _ _ Hex)].
    intros [Hw Hfk]. split; [by apply (ex_wr_keep _ _ _ _ Hex)|].
    destruct (Hf p) as [->| ->]; done.
  - destruct (lr_mode req); simpl; [|by apply (ex_rd_keep _ _ _ _ Hex)].
    intros [?|?]; [left; by apply (ex_wr_keep _ _ _ _ Hex)|right; by apply (ex_sem_keep _ _ _ _ Hex)].
Qed.

Record applied (V V' : View) (req : LockReq) (r : option AcquireOutcome) : Prop := {
  ap_inv : Inv V';
  ap_ext : extends V V';
  ap_own : own_ok V → own_ok V';
  ap_fence q : V' !! fk q = V !! fk q ∨
    (V' !! fk q = Some (to_string tok) ∧ (fence_new o tok V0 q ∨ fence_held tok V0 q));
  ap_new q : writer V' q = Some o → writer V q = Some o ∨
    (V' !! fk q = Some (to_string tok) ∧ fence_new o tok V0 q);
  ap_keep q b : writer V q = Some b → writer V' q = Some b;
  ap_other i : i.1 ∉ grant_cfs → V' !! i = V !! i;
  ap_got : r = None → got V' req
}.

Lemma applied_refl V req r : Inv V → r ≠ None → applied V V req r.
Proof. intros HI Hr. split; auto using extends_refl. done. Qed.

Lemma ok_held_compat V p a :
  Inv V → writer V p = Some o → hold_alg V o Write p = Some a →
  anc_free o V p ∧ (∀ b, reads V b p → b = o) ∧ (recursive a = true → desc_free o V p).
Proof.
  intros HI Hw Ha. split_and!.
  - intros anc b Hanc Hb Hne Hrec. by apply Hne, (inv_excl_ww _ V HI anc p).
  - intros b Hb. symmetry. by eapply (inv_point _ V HI).
  - intros Hr q b Hq [Hb|Hb]; symmetry.
    + eapply (inv_excl_ww _ V HI p q); [done..|]. by exists a.
    + eapply (inv_excl_wr _ V HI p q); [done..|]. by exists a.
Qed.

Let ctx : AcquireApplyCtx :=
  {| ctx_owner := o; ctx_namespace := ns; ctx_request_algorithm := algorithm pol;
     ctx_token := tok; ctx_own_pfx := own_prefix o |}.

(** The record of a compatible write. *)
Lemma applied_write V req a :
  Inv V → valid_req o ns req → lr_mode req = Write →
  let p := scoped_path ns (lr_path req) in
  semp p = false → is_semaphore a = false →
  (lr_state req = New → is_semaphore (algorithm pol) = false) →
  (∀ b, writer V p = Some b → b = o) → anc_free o V p → (∀ b, reads V b p → b = o) →
  (recursive a = true → desc_free o V p) →
  fence_new o tok V0 p ∨ (fence_held tok V0 p ∧ writer V p = Some o) →
  applied V (put_write o p (hold_member ns Write (lr_path req)) a V tok) req None.
Proof.
  intros HI [[Hp [Hns Hu]] _] Hm p Hsp Hna Hnew Hwr Hanc Hrd Hdesc Hf.
  pose proof (put_write_writer semp o p (hold_member ns Write (lr_path req)) a V Ho Hp tok) as Hw.
  pose proof (put_write_reads semp o p (hold_member ns Write (lr_path req)) a V Ho Hp tok) as Hr.
  pose proof (put_write_permit semp o p (hold_member ns Write (lr_path req)) a V Ho Hp tok) as Hs.
  assert (∀ q, put_write o p (hold_member ns Write (lr_path req)) a V tok !! fk q =
    if decide (p = q) then Some (to_string tok) else V !! fk q) as Hfk.
  { intros q. unfold put_write. rewrite mark_lookup by done. rewrite lookup_set_idx by done.
    case_decide as Hq; [subst q; by rewrite lookup_insert_eq|].
    rewrite lookup_insert_ne by (intros [=]; done). by lookup_ne. }
  split.
  - by apply Inv_put_write.
  - apply put_write_extends; [done..|]. congruence.
  - intros Hown. apply (own_ok_mark _ _ _ _ _ V _ ns (lr_path req)); try done.
    + intros k. by lookup_ne.
    + intros q b. rewrite Hw. case_decide; [intros [= <-]; by left|by right].
    + intros q b. rewrite Hr. by right.
    + intros q b. rewrite Hs. by right.
  - intros q. rewrite Hfk. case_decide; [right; subst; by destruct Hf as [?|[? _]]; auto|by left].
  - intros q. rewrite Hw, Hfk. case_decide; [subst|by left]. intros _.
    destruct Hf as [?|[_ ?]]; [by right|by left].
  - intros q b Hq. rewrite Hw. case_decide; [subst; by rewrite (Hwr b)|done].
  - intros i Hi. unfold grant_cfs, lock_cfs in Hi. apply (put_write_lookup semp); [done..|set_solver].
  - intros _. unfold got. fold p. rewrite Hm. cbn [held]. rewrite Hw, decide_True by done.
    destruct (lr_state req); [|by left]. rewrite Hnew by done.
    split; [done|]. by rewrite Hfk, decide_True.
Qed.

Lemma applied_read V req a :
  Inv V → valid_req o ns req → lr_mode req = Read →
  let p := scoped_path ns (lr_path req) in
  is_semaphore a = false → (lr_state req = New → is_semaphore (algorithm pol) = false) →
  (∀ b, writer V p = Some b → b = o) → anc_free o V p →
  applied V (put_read o p (hold_member ns Read (lr_path req)) a V) req None.
Proof.
  intros HI [[Hp [Hns Hu]] _] Hm p Hna Hnew Hwr Hanc.
  assert (extends V (put_read o p (hold_member ns Read (lr_path req)) a V)) as Hex
    by by apply put_read_extends.
  pose proof (put_read_writer semp o p (hold_member ns Read (lr_path req)) a V Ho Hp) as Hw.
  pose proof (put_read_permit semp o p (hold_member ns Read (lr_path req)) a V Ho Hp) as Hs.
  assert (reads (put_read o p (hold_member ns Read (lr_path req)) a V) o p) as Hr.
  { apply (put_read_reads semp); auto. }
  split.
  - by apply Inv_put_read.
  - done.
  - intros Hown. apply (own_ok_mark _ _ _ _ _ V _ ns (lr_path req)); try done.
    + intros k. by lookup_ne.
    + intros q b. rewrite Hw. by right.
    + intros q b [x Hx].
      destruct (put_read_shape semp o p _ a V Ho Hp RD_CF _ x HI ltac:(by left) Hx) as (q' & ? & ? & Heq).
      unfold sk in Heq. apply pair_eq in Heq as [_ Heq]. rewrite !member_key_app in Heq.
      apply nul_nul_inj in Heq as [-> ->]; [|done..].
      assert (reads (put_read o p (hold_member ns Read (lr_path req)) a V) x q') as Hb by by eexists.
      apply (put_read_reads semp) in Hb as [[? ?]|?]; [by left|by right|done..].
    + intros q b. rewrite Hs. by right.
  - intros q. left. apply (put_read_lookup semp); [done..|]. simpl. set_solver.
  - intros q. rewrite Hw. by left.
  - intros q b. by rewrite Hw.
  - intros i Hi. unfold grant_cfs, lock_cfs in Hi. apply (put_read_lookup semp); [done..|set_solver].
  - intros _. unfold got. fold p. rewrite Hm. destruct (lr_state req); [|done].
    by rewrite Hnew.
Qed.

Lemma applied_permit V V1 req n :
  Inv V → valid_req o ns req → lr_mode req = Write →
  let p := scoped_path ns (lr_path req) in
  semp p = true → (lr_state req = New → is_semaphore (algorithm pol) = true) →
  (∀ i, i ≠ ck p → V1 !! i = V !! i) → capacity V1 p = Some n →
  sem_room o V p n →
  applied V (put_permit o p (hold_member ns Write (lr_path req)) Semaphore V1) req None.
Proof.
  intros HI [[Hp [Hns Hu]] _] Hm p Hsp Hnew HV1 Hck Hroom.
  assert (∀ q, writer V1 q = writer V q) as Hw1 by (intros q; by apply HV1).
  assert (∀ b q, reads V1 b q ↔ reads V b q) as Hr1 by (intros b q; unfold reads; by rewrite HV1).
  assert (∀ b q, permit V1 b q ↔ permit V b q) as Hs1 by (intros b q; unfold permit; by rewrite HV1).
  assert (sem_room o V1 p n) as Hroom1.
  { intros l Hnd Hl. apply Hroom; [done|]. intros b Hb. rewrite <- Hs1. auto. }
  assert (Inv V1) as HI1.
  { apply (Inv_ext_cap semp V); [done|..].
    - intros i Hi. apply HV1. intros ->. destruct Hi as [?|[?|[?|[?|?]]]]; done.
    - intros b m q. apply HV1, hk_ck.
    - intros q l Hl Hnd Hin. destruct (decide (q = p)) as [->|Hne].
      + exists n. split_and!; [done..|]. apply Hroom; auto.
      + unfold capacity. rewrite HV1; [by apply (inv_cap _ V HI)|]. intros Heq.
        unfold ck, semaphore_permits_key in Heq. by simplify_list_eq. }
  pose proof (put_permit_writer semp o p (hold_member ns Write (lr_path req)) Semaphore V1 Ho Hp) as Hw2.
  pose proof (put_permit_reads semp o p (hold_member ns Write (lr_path req)) Semaphore V1 Ho Hp) as Hr2.
  assert (extends V1 (put_permit o p (hold_member ns Write (lr_path req)) Semaphore V1)) as Hex
    by by apply put_permit_extends.
  assert (permit (put_permit o p (hold_member ns Write (lr_path req)) Semaphore V1) o p) as Hs
    by (apply (put_permit_permit semp); auto).
  split.
  - by apply (Inv_put_permit semp _ _ _ _ _ Ho Hp n).
  - destruct Hex as [E1 E2 E3 E4 E5 E6 E7 E8]. split.
    + intros q b Hq. rewrite <- Hw1. by apply E1.
    + intros q b Hq. apply E2. by rewrite Hw1.
    + intros q b Hq. rewrite <- Hr1. by apply E3.
    + intros q b Hq. by apply E4, Hr1.
    + intros q b Hq. rewrite <- Hs1. by apply E5.
    + intros q b Hq. by apply E6, Hs1.
    + intros b m q Hb Hne. rewrite E7 by done. apply HV1, hk_ck.
    + intros m q. rewrite <- (HV1 (hk o m q)) by apply hk_ck. apply E8.
  - intros Hown. apply (own_ok_mark _ _ _ _ _ V _ ns (lr_path req)); try done.
    + intros k. lookup_ne. by apply HV1.
    + intros q b. rewrite Hw2, Hw1. by right.
    + intros q b. rewrite Hr2, Hr1. by right.
    + intros q b [x Hx].
      destruct (put_permit_shape semp o p _ Semaphore V1 Ho Hp SEM_CF _ x HI1
        ltac:(by right; left) Hx) as (q' & ? & ? & Heq).
      unfold sk in Heq. apply pair_eq in Heq as [_ Heq]. rewrite !member_key_app in Heq.
      apply nul_nul_inj in Heq as [-> ->]; [|done..].
      assert (permit (put_permit o p (hold_member ns Write (lr_path req)) Semaphore V1) x q')
        as Hb by by eexists.
      apply (put_permit_permit semp) in Hb as [[? ?]|?%Hs1]; [by left|by right|done..].
  - intros q. left. rewrite <- (HV1 (fk q)) by done.
    apply (put_permit_lookup semp); [done..|]. simpl. set_solver.
  - intros q. rewrite Hw2, Hw1. by left.
  - intros q b. by rewrite Hw2, Hw1.
  - intros i Hi. unfold grant_cfs, lock_cfs in Hi. rewrite <- (HV1 i).
    + apply (put_permit_lookup semp); [done..|set_solver].
    + intros ->. set_solver.
  - intros _. unfold got. fold p. rewrite Hm. destruct (lr_state req); [|by right].
    by rewrite Hnew.
Qed.

(** ** [apply_acquire] *)
Lemma is_semaphore_eq a : is_semaphore a = true → a = Semaphore.
Proof. by destruct a. Qed.

Lemma vwp_write_hold p (Q : unit → View → Prop) V :
  Q tt (set_keys (idx_keys Write p) p (<[fk p := to_string tok]> (<[wk p := o]> V))) →
  vwp now (write_hold o p tok) Q V.
Proof.
  intros HQ. unfold write_hold. apply vwp_bind, vwp_set_str; [done|].
  apply vwp_bind, vwp_set_str; [done|]. by apply vwp_add_descendant_indexes.
Qed.

(** The common end of every branch. *)
Lemma vwp_apply_tail req a (Q : option AcquireOutcome → View → Prop) V :
  let p := scoped_path ns (lr_path req) in
  Q None (mark o p (hold_member ns (lr_mode req) (lr_path req)) a (lr_mode req)
            (if is_semaphore a then <[sk SEM_CF p o := o]> V else V)) →
  vwp now ((if is_semaphore a then sadd SEM_CF (sem_prefix p) o 0 else mret tt);;
           sadd OWN_CF (own_prefix o) (hold_member ns (lr_mode req) (lr_path req)) 0;;
           set_hold_algorithm o (lr_mode req) p a 0;;
           mret None) Q V.
Proof.
  intros p HQ. apply vwp_bind. destruct (is_semaphore a).
  - apply vwp_sadd; [done|]. apply vwp_bind, vwp_sadd; [done|].
    apply vwp_bind, vwp_set_hold_algorithm, vwp_ret, HQ.
  - apply vwp_ret, vwp_bind, vwp_sadd; [done|].
    apply vwp_bind, vwp_set_hold_algorithm, vwp_ret, HQ.
Qed.

(** The record phase, for the algorithm the hold is taken under. *)
Definition record_acquire (req : LockReq) (a : LockAlgorithm) : txm Kv (option AcquireOutcome) :=
  let p := scoped_path ns (lr_path req) in
  outcome ← (if is_semaphore a then apply_semaphore_acquire req p
             else match lr_mode req with
                  | Write => apply_write_acquire o (lr_path req) (lr_state req) p tok
                  | Read => apply_read_acquire o p
                  end);
  match outcome with
  | Some oc => mret (Some oc)
  | None =>
      (if is_semaphore a then sadd SEM_CF (sem_prefix p) o 0 else mret tt);;
      sadd OWN_CF (own_prefix o) (hold_member ns (lr_mode req) (lr_path req)) 0;;
      set_hold_algorithm o (lr_mode req) p a 0;;
      mret None
  end.

Lemma vwp_record_semaphore req a V :
  Inv V → valid_req o ns req → lr_mode req = Write → is_semaphore a = true →
  let p := scoped_path ns (lr_path req) in
  semp p = true → (lr_state req = New → is_semaphore (algorithm pol) = true) →
  match lr_state req with
  | New => sem_room o V p (lr_permits req)
  | Held => permit V o p
  end →
  vwp now (record_acquire req a) (λ r V', applied V V' req r) V.
Proof.
  intros HI Hval Hm Ha p Hsp Hnew Hroom. apply is_semaphore_eq in Ha as ->.
  unfold record_acquire. cbn [is_semaphore algorithm_strategy]. fold p.
  change (is_semaphore Semaphore) with true. cbv iota. apply vwp_bind.
  assert (∀ V1 n, (∀ i, i ≠ ck p → V1 !! i = V !! i) → capacity V1 p = Some n →
    sem_room o V p n →
    vwp now (sadd SEM_CF (sem_prefix p) o 0;;
             sadd OWN_CF (own_prefix o) (hold_member ns (lr_mode req) (lr_path req)) 0;;
             set_hold_algorithm o (lr_mode req) p Semaphore 0;;
             mret None) (λ r V', applied V V' req r) V1) as Htail.
  { intros V1 n HV1 Hcap Hr. apply (vwp_apply_tail req Semaphore). fold p. rewrite Hm.
    by apply (applied_permit V V1 req n). }
  unfold apply_semaphore_acquire. destruct (lr_state req) eqn:Hst.
  - apply vwp_bind, vwp_semaphore_capacity. destruct Hval as [_ Hu].
    destruct (V !! ck p) as [raw|] eqn:Hck.
    + intros n Hraw. destruct (Z.eqb_spec n (lr_permits req)) as [->|Hne];
        [|by apply vwp_ret, vwp_ret, applied_refl].
      apply vwp_ret, (Htail V (lr_permits req)); [done| |done].
      unfold capacity. by rewrite Hck.
    + apply vwp_bind, vwp_set_str; [done|]. apply vwp_ret.
      apply (Htail _ (lr_permits req)); [| |done].
      * intros i Hi. by apply lookup_insert_ne.
      * unfold capacity. rewrite lookup_insert_eq. simpl. unfold parse_u32.
        apply parse_unsigned_to_string, Hu.
  - apply vwp_ret.
    destruct (inv_cap _ V HI p [o]) as (n & Hn & _); [done|apply NoDup_singleton|set_solver|].
    apply (Htail V n); [done..|]. intros l Hnd Hl.
    destruct (decide (l = [])) as [->|Hne].
    { destruct (inv_cap _ V HI p [o]) as (n' & Hn' & Hle); [done|apply NoDup_singleton|set_solver|].
      unfold len in *. simpl in *. simplify_eq. lia. }
    destruct (inv_cap _ V HI p l) as (n' & Hn' & Hle); [done..| |by simplify_eq].
    intros b Hb. by destruct (Hl b Hb) as [->|?].
Qed.

Lemma vwp_apply_acquire req V :
  Inv V → ok_req V req → valid_req o ns req →
  (lr_state req = New → semp (scoped_path ns (lr_path req)) = is_semaphore (algorithm pol)) →
  vwp now (apply_acquire req ctx) (λ r V', applied V V' req r) V.
Proof.
  intros HI Hok Hval Hsp. unfold EngineAcquire.ok_req in Hok.
  set (p := scoped_path ns (lr_path req)) in *.
  assert (∀ a,
    (is_semaphore a = true → semp p = true ∧ lr_mode req = Write ∧
       (lr_state req = New → is_semaphore (algorithm pol) = true) ∧
       match lr_state req with
       | New => sem_room o V p (lr_permits req)
       | Held => permit V o p
       end) →
    (is_semaphore a = false → (lr_state req = New → is_semaphore (algorithm pol) = false) ∧
       (∀ b, writer V p = Some b → b = o) ∧ anc_free o V p ∧
       (lr_mode req = Write → semp p = false ∧ (∀ b, reads V b p → b = o) ∧
          (recursive a = true → desc_free o V p) ∧
          (fence_new o tok V0 p ∨ (fence_held tok V0 p ∧ writer V p = Some o)))) →
    vwp now (record_acquire req a) (λ r V', applied V V' req r) V) as Hrec.
  { intros a Hsem Hlock. destruct (is_semaphore a) eqn:Hs.
    { destruct (Hsem eq_refl) as (? & ? & ? & ?). by apply vwp_record_semaphore. }
    destruct (Hlock eq_refl) as (Hnew & Hw & Hanc & Hwr). clear Hsem Hlock.
    unfold record_acquire. rewrite Hs. fold p. apply vwp_bind.
    destruct (lr_mode req) eqn:Hm.
    - destruct (Hwr eq_refl) as (Hspf & Hr & Hd & Hf).
      assert (vwp now (write_hold o p tok;; mret None)
        (λ oc V1, vwp now match oc with
           | Some oc => mret (Some oc)
           | None => mret tt;; sadd OWN_CF (own_prefix o) (hold_member ns Write (lr_path req)) 0;;
                     set_hold_algorithm o Write p a 0;; mret None
           end (λ r V', applied V V' req r) V1) V) as Hput.
      { apply vwp_bind, vwp_write_hold, vwp_ret.
        pose proof (vwp_apply_tail req a) as Htail. rewrite Hs, Hm in Htail. apply Htail.
        by apply applied_write. }
      unfold apply_write_acquire. destruct (lr_state req); [|exact Hput].
      apply vwp_bind, vwp_get_str; [done|].
      change (V !! (WR_CF, wr_key p)) with (writer V p).
      destruct (writer V p) as [b|] eqn:Hwp; [|exact Hput].
      rewrite bool_decide_eq_true_2 by auto. exact Hput.
    - apply vwp_bind, vwp_sadd; [done|].
      apply vwp_bind, vwp_add_descendant_indexes, vwp_ret.
      pose proof (vwp_apply_tail req a) as Htail. rewrite Hs, Hm in Htail. apply Htail.
      by apply applied_read. }
  change (vwp now (a ← match lr_state req with
                       | Held => hold_algorithm o (lr_mode req) p
                       | New => mret (algorithm pol)
                       end; record_acquire req a) (λ r V', applied V V' req r) V).
  apply vwp_bind. destruct (lr_state req) eqn:Hst.
  - apply vwp_ret, Hrec.
    + intros Hs. destruct Hok as [Hallow Hok]. rewrite Hs in Hok. split_and!.
      * by rewrite Hsp.
      * apply is_semaphore_eq in Hs. rewrite Hs in Hallow. by destruct (lr_mode req).
      * done.
      * apply Hok.
    + intros Hs. destruct Hok as [_ Hok]. rewrite Hs in Hok. destruct Hok as (Hw & Ha & Hwr).
      split_and!; [done..|]. intros Hm. destruct (Hwr Hm) as (Hr & Hd & Hf).
      rewrite Hsp by done. split_and!; auto.
  - apply vwp_hold_algorithm. intros a Ha. destruct Hok as (a' & Ha' & Hok).
    assert (a' = a) as -> by congruence. apply Hrec.
    + intros Hs. rewrite Hs in Hok. split_and!; [| |done|done].
      * by apply (inv_sem _ V HI o p).
      * destruct (lr_mode req) eqn:Hm; [done|].
        by rewrite (inv_alg_r _ V HI o p a Ho Ha) in Hs.
    + intros Hs. rewrite Hs in Hok. split; [done|]. destruct (lr_mode req) eqn:Hm.
      * destruct Hok as [Hw Hf]. destruct (ok_held_compat V p a HI Hw Ha) as (Hanc & Hr & Hd).
        split_and!; [congruence|done|]. intros _.
        destruct (inv_wr _ V HI p o Hw) as (_ & _ & Hspf & _). split_and!; auto.
      * split_and!; [|intros anc b Hanc Hb Hne Hrh|done].
        -- intros b Hb. by eapply (inv_point _ V HI).
        -- by apply Hne, (inv_excl_wr _ V HI anc p).
Qed.

(** ** The apply loop *)
Record grants (V V' : View) : Prop := {
  gr_inv : Inv V';
  gr_ext : extends V V';
  gr_own : own_ok V → own_ok V';
  gr_fence q : V' !! fk q = V !! fk q ∨
    (V' !! fk q = Some (to_string tok) ∧ (fence_new o tok V0 q ∨ fence_held tok V0 q));
  gr_new q : writer V' q = Some o → writer V q = Some o ∨
    (V' !! fk q = Some (to_string tok) ∧ fence_new o tok V0 q);
  gr_keep q b : writer V q = Some b → writer V' q = Some b;
  gr_other i : i.1 ∉ grant_cfs → V' !! i = V !! i
}.

Lemma extends_trans V1 V2 V3 : extends V1 V2 → extends V2 V3 → extends V1 V3.
Proof.
  intros A B. split.
  - intros q b [?|?]%(ex_wr _ _ _ _ B); [by left|by apply (ex_wr _ _ _ _ A)].
  - intros q b Hq Hb. apply (ex_wr_keep _ _ _ _ B); [by apply (ex_wr_keep _ _ _ _ A)|done].
  - intros q b [?|?]%(ex_rd _ _ _ _ B); [by left|by apply (ex_rd _ _ _ _ A)].
  - intros q b Hq. by apply (ex_rd_keep _ _ _ _ B), (ex_rd_keep _ _ _ _ A).
  - intros q b [?|?]%(ex_sem _ _ _ _ B); [by left|by apply (ex_sem _ _ _ _ A)].
  - intros q b Hq. by apply (ex_sem_keep _ _ _ _ B), (ex_sem_keep _ _ _ _ A).
  - intros b m q Hb Hne. by rewrite (ex_hk _ _ _ _ B), (ex_hk _ _ _ _ A).
  - intros m q. destruct (ex_hk_o _ _ _ _ B m q) as [->|?]; [apply (ex_hk_o _ _ _ _ A)|by right].
Qed.

Lemma grants_refl V : Inv V → grants V V.
Proof. intros HI. split; auto using extends_refl. Qed.

Lemma grants_applied V1 V2 V3 req r : grants V1 V2 → applied V2 V3 req r → grants V1 V3.
Proof.
  intros [A1 A2 A3 A4 A5 A6 A7] [B1 B2 B3 B4 B5 B6 B7 _]. split; auto.
  - by eapply extends_trans.
  - intros q. destruct (B4 q) as [->|?]; [apply A4|by right].
  - intros q [Hq|?]%B5; [|by right]. destruct (A5 q Hq) as [?|[Hf Hn]]; [by left|right].
    split; [|done]. by destruct (B4 q) as [->|[-> _]].
  - intros i Hi. by rewrite B7, A7.
Qed.

Lemma vwp_apply_loop reqs V :
  Inv V → (∀ req, req ∈ reqs → ok_req V req) → (∀ req, req ∈ reqs → valid_req o ns req) →
  (∀ req, req ∈ reqs → lr_state req = New →
     semp (scoped_path ns (lr_path req)) = is_semaphore (algorithm pol)) →
  vwp now (find_first reqs (λ req, apply_acquire req ctx))
    (λ r V', grants V V' ∧ (r = None → ∀ req, req ∈ reqs → got V' req)) V.
Proof.
  intros HI Hok Hval Hsp.
  apply (vwp_find_first now reqs _ (λ pre V', grants V V' ∧ ∀ req, req ∈ pre → got V' req)).
  - split; [by apply grants_refl|set_solver].
  - intros pre req post V1 Heq [Hgr Hgot].
    assert (req ∈ reqs) as Hin by (rewrite Heq; set_solver).
    eapply vwp_mono; [apply vwp_apply_acquire; [apply Hgr| |auto..]|].
    { apply (ok_req_extends semp o tok pol ns V0 Ho V); auto. apply Hgr. }
    intros r V2 Hap. pose proof (grants_applied _ _ _ _ _ Hgr Hap) as Hgr2.
    destruct r as [oc|]; [done|]. split; [done|].
    intros r [Hr|Hr]%elem_of_app.
    + apply (got_extends V1); [apply Hap| |auto]. intros q.
      destruct (ap_fence _ _ _ _ Hap q) as [?|[? _]]; auto.
    + apply list_elem_of_singleton in Hr as ->. by apply (ap_got _ _ _ _ Hap).
  - intros V1 [Hgr Hgot]. by split.
Qed.
End apply_one.
End ops.
