(* ===== verification/EngineRelease.v ===== *)
(** * Release: what it frees and what it leaves alone

    Releasing one hold, the release of a list of holds, and the owner-wide
    release that pages through the owner's hold set. *)

From Stdlib Require Import ZArith NArith Lia Strings.Byte.
From stdpp Require Import sorting countable base numbers gmap strings list.
From S2P Require Import Prelude RustStd StoreKeys Store StoreScan StoreSim EngineTypes Engine.
From S2P Require Import KvView EngineView EngineInv EngineValidate EngineAcquire EngineApply.
From S2P Require Import EngineOps.
Local Open Scope Z_scope.

Lemma gone_sub V V' o m p : sub_view V V' → gone V o m p → gone V' o m p.
Proof.
  intros Hs. destruct m; simpl.
  - intros [Hw Hp]. split.
    + intros H. by apply Hw, (sub_view_Some V V').
    + intros H. by apply Hp, (sub_view_is_Some V V').
  - intros Hr H. by apply Hr, (sub_view_is_Some V V').
Qed.

Lemma lock_cfs_WR : WR_CF ∈ lock_cfs.
Proof. set_solver. Qed.
Lemma lock_cfs_META : META_CF ∈ lock_cfs.
Proof. set_solver. Qed.
Lemma lock_cfs_idx m : idx_cf m ∈ lock_cfs.
Proof. destruct m; set_solver. Qed.

Section release.
Context `{!Bincode StoredRecord} (semp : str → bool) (now : Z).
Local Abbreviation Inv := (Inv semp).
Context (o : str).
Hypothesis Ho : nul_free o.

(** Removing records of [o] only. *)
Record frees (V V' : View) : Prop := {
  fr_sub : sub_view V V';
  fr_wr q b : b ≠ o → writer V q = Some b → writer V' q = Some b;
  fr_rd q b : b ≠ o → reads V b q → reads V' b q;
  fr_sem q b : b ≠ o → permit V b q → permit V' b q;
  fr_alive b : nul_free b → b ≠ o → alive V b → alive V' b;
  fr_fence q : V' !! fk q = V !! fk q;
  fr_ck q : V' !! ck q = V !! ck q
}.

Lemma frees_refl V : frees V V.
Proof using Type. by split. Qed.

Lemma sub_view_trans V1 V2 V3 : sub_view V1 V2 → sub_view V2 V3 → sub_view V1 V3.
Proof using Type. intros H1 H2 i. destruct (H2 i) as [->| ->]; [apply H1|by right]. Qed.

Lemma frees_trans V1 V2 V3 : frees V1 V2 → frees V2 V3 → frees V1 V3.
Proof using Type.
  intros [A1 A2 A3 A4 A5 A6 A7] [B1 B2 B3 B4 B5 B6 B7]. split; eauto using sub_view_trans.
  - intros q. by rewrite B6, A6.
  - intros q. by rewrite B7, A7.
Qed.

(** Every hold of [o] outside [R] stays. *)
Definition keeps (R : Mode → str → Prop) (V V' : View) : Prop :=
  ∀ m q, ¬ R m q → held V o m q → held V' o m q.

Lemma keeps_refl R V : keeps R V V.
Proof using Type. by intros m q. Qed.

Lemma keeps_trans R V1 V2 V3 : keeps R V1 V2 → keeps R V2 V3 → keeps R V1 V3.
Proof using Type. intros A B m q Hn Hq. apply B; [done|by apply A]. Qed.

Lemma keeps_delete R V V' c k :
  c ≠ WR_CF → c ≠ RD_CF → c ≠ SEM_CF → keeps R V V' → keeps R V (delete (c, k) V').
Proof using Type.
  intros ??? H m q Hn Hq. apply (held_eq V'); [..|by apply H].
  - by apply lookup_delete_ne, ne_cf.
  - intros c' [->| ->]; by apply lookup_delete_ne, ne_cf.
Qed.

(** ** One hold *)

Record released (V V' : View) (m : Mode) (p : str) : Prop := {
  rl_inv : Inv V';
  rl_frees : frees V V';
  rl_gone : gone V' o m p;
  rl_keep : keeps (λ m' q, m' = m ∧ q = p) V V';
  rl_other i : i.1 ∉ lock_cfs → V' !! i = V !! i
}.

Lemma drop_write_other V p i : i.1 ∉ lock_cfs → drop_write o p V !! i = V !! i.
Proof.
  intros Hi. unfold drop_write.
  rewrite lookup_del_idx by (intros Hc; apply Hi; rewrite Hc; apply lock_cfs_idx).
  rewrite !lookup_delete_ne; [done|apply ne_cf; intros Hc; apply Hi; rewrite <- Hc..].
  - apply lock_cfs_WR.
  - apply lock_cfs_META.
Qed.

Lemma released_write V p : Inv V → writer V p = Some o → released V (drop_write o p V) Write p.
Proof.
  intros HI Hw. assert (∀ c q b, c ≠ WRDESC_CF → c ≠ META_CF → c ≠ WR_CF →
    drop_write o p V !! sk c q b = V !! sk c q b) as Hl.
  { intros c q b ???. unfold drop_write. rewrite lookup_del_idx by done.
    rewrite !lookup_delete_ne; [done|by apply ne_cf..]. }
  split.
  - by apply Inv_drop_write.
  - split.
    + unfold drop_write; auto.
    + intros q b Hne Hq. rewrite writer_drop_write. case_decide; [congruence|done].
    + intros q b _ Hq. unfold reads. by rewrite Hl.
    + intros q b _ Hq. unfold permit. by rewrite Hl.
    + intros b _ _. unfold alive, drop_write. by lookup_ne.
    + intros q. unfold drop_write. by lookup_ne.
    + intros q. unfold drop_write. rewrite lookup_del_idx by done.
      rewrite lookup_delete_ne by apply hk_ck. by lookup_ne.
  - split; [rewrite writer_drop_write; by rewrite decide_True|].
    intros Hs. assert (permit V o p) as Hs' by (revert Hs; unfold permit; by rewrite Hl).
    destruct (inv_sem _ V HI o p Hs'), (inv_wr _ V HI p o Hw) as (_ & _ & ? & _). congruence.
  - intros m q Hne. destruct m; simpl; unfold permit, reads; rewrite Hl by done; [|done].
    rewrite writer_drop_write. case_decide; [by subst; destruct Hne|done].
  - intros i. apply drop_write_other.
Qed.

Lemma released_member c m V p :
  Inv V → holder_cf c m → nul_free p → (c = SEM_CF → writer V p ≠ Some o) →
  released V (drop_member c m p o V) m p.
Proof.
  intros HI Hc Hp Hsem.
  assert (∀ q, writer (drop_member c m p o V) q = writer V q) as Hw.
  { intros q. apply drop_member_lookup; [|done]. by destruct Hc as [[-> _]|[-> _]]. }
  assert (∀ c' q b, set_cf c' → b ≠ o → is_Some (V !! sk c' q b) →
    is_Some (drop_member c m p o V !! sk c' q b)) as Hkeep.
  { intros c' q b Hc' Hne [v Hv]. unfold drop_member.
    destruct (inv_set_lookup _ V c' q b v HI Hc' Hv) as (Hq & _).
    rewrite lookup_delete_ne by (apply ne_cf; by destruct Hc' as [->|[->|[->| ->]]]).
    rewrite lookup_delete_ne; [by eexists|]. intros Heq.
    by apply sk_inj in Heq as (_ & _ & ->). }
  split.
  - by apply Inv_drop_member.
  - split.
    + unfold drop_member; auto.
    + intros q b _ Hq. by rewrite Hw.
    + intros q b Hne Hq. apply Hkeep; [by left|done..].
    + intros q b Hne Hq. apply Hkeep; [by right; left|done..].
    + intros b _ _ Hb. unfold alive. rewrite drop_member_lookup; [done| |done].
      by destruct Hc as [[-> _]|[-> _]].
    + intros q. apply drop_member_lookup; [|done]. by destruct Hc as [[-> _]|[-> _]].
    + intros q. by apply drop_member_ck.
  - assert (¬ is_Some (drop_member c m p o V !! sk c p o)) as Hno.
    { unfold drop_member. rewrite lookup_delete_ne by
        (apply ne_cf; by destruct Hc as [[-> _]|[-> _]]).
      rewrite lookup_delete_eq. by intros []. }
    destruct Hc as [[-> ->]|[-> ->]]; [done|]. split; [|done].
    rewrite Hw. by apply Hsem.
  - assert (∀ c' q, set_cf c' → (c = c' → q ≠ p) → is_Some (V !! sk c' q o) →
      is_Some (drop_member c m p o V !! sk c' q o)) as Hk.
    { intros c' q Hc' Hne [v Hv]. destruct (inv_set_lookup _ V c' q o v HI Hc' Hv) as (Hq & _).
      unfold drop_member.
      rewrite lookup_delete_ne by (apply ne_cf; by destruct Hc' as [->|[->|[->| ->]]]).
      rewrite lookup_delete_ne; [by eexists|]. intros Heq.
      apply sk_inj in Heq as (? & ? & _); [|done..]. by apply Hne. }
    intros m' q Hne. destruct m'; simpl.
    + rewrite Hw. intros [?|Hq]; [by left|right]. apply Hk; [by right; left| |done].
      intros ->. destruct Hc as [[? _]|[_ ->]]; [done|]. intros ->. by apply Hne.
    + apply Hk; [by left|]. intros ->. destruct Hc as [[_ ->]|[? _]]; [|done].
      intros ->. by apply Hne.
  - intros i Hi. apply drop_member_lookup; intros Heq; apply Hi; rewrite Heq.
    + destruct Hc as [[-> _]|[-> _]]; set_solver.
    + apply lock_cfs_META.
Qed.

Lemma vwp_release_hold_spec m p V :
  Inv V → nul_free p →
  vwp now (release_hold o m p) (λ _ V', released V V' m p) V.
Proof.
  intros HI Hp. apply vwp_release_hold. destruct m.
  - intros a Ha. destruct (is_semaphore a) eqn:Hs.
    + apply released_member; [done|by right|done|]. intros _ Hw.
      destruct (inv_wr _ V HI p o Hw) as (_ & _ & _ & a' & Hm & Ha'). unfold hold_alg in Ha.
      rewrite Hm, algorithm_roundtrip in Ha. congruence.
    + split; intros Hw; [by apply released_write|].
      split; [done|apply frees_refl| |apply keeps_refl|done]. split; [done|]. intros Hpm.
      destruct (inv_sem _ V HI o p Hpm) as [_ Hh]. unfold hold_alg in Ha.
      rewrite Hh, algorithm_roundtrip in Ha. by simplify_eq.
  - change (drop_read o p V) with (drop_member RD_CF Read p o V).
    assert (released V (drop_member RD_CF Read p o V) Read p) as Hrel
      by (apply released_member; [done|by left|done|done]).
    destruct Hrel as [HI' Hf Hg Hkp Hoth]. split; [by intros _ _; split|]. intros Hno.
    set (V1 := drop_member RD_CF Read p o V) in *.
    assert (∀ b, ¬ reads V1 b p) as Hnr.
    { intros b Hb. apply (Hno b). apply (is_member_sk semp); [done|by left|done|done]. }
    destruct (pruned_idx semp V1 Read p HI' Hp Hnr) as [HI2 Hp2].
    split; [done| | | |].
    + eapply frees_trans; [done|]. split.
      * apply Hp2.
      * intros q b _ Hq. unfold writer. by lookup_ne.
      * intros q b _ Hq. unfold reads. by lookup_ne.
      * intros q b _ Hq. unfold permit. by lookup_ne.
      * intros b _ _ Hb. unfold alive. by lookup_ne.
      * intros q. by lookup_ne.
      * intros q. by lookup_ne.
    + by apply (gone_sub V1); [apply Hp2|].
    + eapply keeps_trans; [done|]. intros m q _. apply held_eq; [by lookup_ne|].
      intros c [->| ->]; by lookup_ne.
    + intros i Hi. rewrite (pr_other _ _ Hp2) by done. by apply Hoth.
Qed.

(** ** The hold set follows *)

Lemma own_lookup_sk V m x :
  own_ok V → V !! sk OWN_CF o m = Some x → x = m.
Proof.
  intros Hok Hx. destruct (own_key _ Hok _ _ Hx) as [(b & Hb & _ & Heq) _].
  by apply sk_inj in Heq as (_ & _ & ->).
Qed.

(** Dropping entry [x] of [o] after (or before) the hold it names is gone. *)
Lemma own_ok_drop V V' x :
  Inv V → own_ok V → sub_view V V' →
  (∀ k, (OWN_CF, k) ≠ sk OWN_CF o x → V' !! (OWN_CF, k) = V !! (OWN_CF, k)) →
  (∀ ns m path, nul_free ns → x = hold_member ns m path → gone V' o m (scoped_path ns path)) →
  own_ok V'.
Proof.
  intros HI Hok Hs Hk Hx.
  assert (∀ b m q, nul_free q → nul_free b → (b = o → ¬ gone V' o m q) →
    has_own V b m q → has_own V' b m q) as Hhas.
  { intros b m q Hq Hb Hng (ns & path & -> & Hown). exists ns, path. split; [done|].
    unfold owns, sk in *. rewrite Hk; [done|]. intros Heq.
    apply (sk_inj OWN_CF OWN_CF) in Heq as (_ & -> & Heq); [|done..].
    apply (Hng eq_refl). eapply Hx; [|done]. by apply (scoped_path_nul_free ns path). }
  split.
  - intros q b Hq. pose proof (sub_view_Some V V' _ _ Hs Hq) as Hq'.
    destruct (inv_wr _ V HI q b Hq') as (? & ? & _).
    apply Hhas; [done..| |by apply (own_w _ Hok)]. intros -> [? _]. done.
  - intros q b Hq. pose proof (sub_view_is_Some V V' _ Hs Hq) as Hq'.
    destruct (reads_nul_free _ V b q HI Hq').
    apply Hhas; [done..| |by apply (own_r _ Hok)]. intros -> ?. done.
  - intros q b Hq. pose proof (sub_view_is_Some V V' _ Hs Hq) as Hq'.
    destruct (permit_nul_free _ V b q HI Hq').
    apply Hhas; [done..| |by apply (own_s _ Hok)]. intros -> [_ ?]. done.
  - intros k m Hm. by apply (own_key _ Hok), (sub_view_Some V V').
Qed.

(** Writes outside the lock tables and the hold sets. *)
Lemma own_ok_ext V V' :
  own_ok V → (∀ i, i.1 = WR_CF ∨ set_cf i.1 ∨ i.1 = OWN_CF → V' !! i = V !! i) → own_ok V'.
Proof using Type.
  clear Ho o. intros Hok Hl.
  assert (∀ b m q, has_own V b m q → has_own V' b m q) as Hhas.
  { intros b m q (ns & path & -> & Hown). exists ns, path. split; [done|].
    unfold owns. rewrite Hl; [done|]. by right; right. }
  assert (∀ q, writer V' q = writer V q) as Hw by (intros q; apply Hl; by left).
  assert (∀ c q b, set_cf c → V' !! sk c q b = V !! sk c q b) as Hs
    by (intros c q b Hc; apply Hl; by right; left).
  split.
  - intros q b. rewrite Hw. intros. by apply Hhas, (own_w _ Hok).
  - intros q b. unfold reads. rewrite Hs by by left. intros. by apply Hhas, (own_r _ Hok).
  - intros q b. unfold permit. rewrite Hs by by right; left. intros. by apply Hhas, (own_s _ Hok).
  - intros k m. rewrite Hl by by right; right. apply (own_key _ Hok).
Qed.

Lemma Inv_other V V' :
  Inv V → (∀ i, i.1 ∈ lock_cfs → V' !! i = V !! i) → Inv V'.
Proof using Type.
  clear Ho o. intros HI Hl. apply (Inv_ext semp V); [done|..].
  - intros i Hi. apply Hl. destruct Hi as [->|[->|[->|[->| ->]]]]; set_solver.
  - intros b m q. apply Hl, lock_cfs_META.
  - intros q. apply Hl, lock_cfs_META.
Qed.

Record good (V : View) : Prop := { good_inv : Inv V; good_own : own_ok V }.

Lemma frees_delete V V' j :
  frees V V' → (∀ q, j ≠ wk q) → (∀ c q b, set_cf c → j ≠ sk c q b) →
  (∀ b, nul_free b → b ≠ o → j ≠ ak b) → (∀ q, j ≠ fk q) → (∀ q, j ≠ ck q) → frees V (delete j V').
Proof using Type.
  intros [A1 A2 A3 A4 A5 A6 A7] H1 H2 H3 H4 H5. split; auto.
  - intros q b Hb Hq. unfold writer. rewrite lookup_delete_ne by done. by apply A2.
  - intros q b Hb Hq. unfold reads. rewrite lookup_delete_ne by (apply H2; by left). by apply A3.
  - intros q b Hb Hq. unfold permit. rewrite lookup_delete_ne by (apply H2; by right; left).
    by apply A4.
  - intros b Hnb Hb Hq. unfold alive. rewrite lookup_delete_ne by auto. by apply A5.
  - intros q. by rewrite lookup_delete_ne.
  - intros q. by rewrite lookup_delete_ne.
Qed.

Lemma frees_delete_own V V' x : frees V V' → frees V (delete (sk OWN_CF o x) V').
Proof.
  intros Hf. apply frees_delete; [done|..]; try by intros.
  intros c q b Hc [= <- _]. by destruct Hc as [?|[?|[?|?]]].
Qed.

Lemma frees_delete_cf V V' c k :
  c ∉ lock_cfs → c ≠ FENCE_CF → c ≠ ALIVE_CF → frees V V' → frees V (delete (c, k) V').
Proof using Type.
  clear Ho semp. intros Hc Hf Ha HF. apply frees_delete; [done|..].
  - intros q [= -> _]. set_solver.
  - intros c' q b Hc' [= <- _]. apply Hc. destruct Hc' as [->|[->|[->| ->]]]; set_solver.
  - intros b _ _ [= ? _]. done.
  - intros q [= ? _]. done.
  - intros q [= -> _]. set_solver.
Qed.

Lemma frees_delete_alive V V' :
  frees V V' →
  frees V (delete (ALIVE_CF, revoke_key o) (delete (ALIVE_CF, alive_key o) V')).
Proof.
  intros Hf. apply frees_delete; [apply frees_delete; [done|..]|..]; try (by intros).
  - intros c q b Hc [= <- _]. by destruct Hc as [?|[?|[?|?]]].
  - intros b _ Hb Heq. injection Heq as Heq. by apply Hb.
  - intros c q b Hc [= <- _]. by destruct Hc as [?|[?|[?|?]]].
  - intros b Hnb _ Heq. unfold ak, revoke_key, alive_key in Heq. injection Heq as <-.
    apply nul_free_app in Hnb as [_ Hnb]. apply Hnb. by left.
Qed.

(** ** Releasing requested holds *)

Lemma vwp_apply_release ns req V :
  good V → nul_free (scoped_path ns (rel_path req)) →
  vwp now (apply_release o ns req (own_prefix o))
    (λ _ V', good V' ∧ frees V V' ∧ gone V' o (rel_mode req) (scoped_path ns (rel_path req)) ∧
       keeps (λ m q, m = rel_mode req ∧ q = scoped_path ns (rel_path req)) V V') V.
Proof.
  intros [HI Hok] Hp. unfold apply_release. apply vwp_bind, vwp_srem.
  set (x := hold_member ns (rel_mode req) (rel_path req)).
  set (V1 := delete (sk OWN_CF o x) V).
  assert (Inv V1) as HI1.
  { apply (Inv_other V); [done|]. intros i Hi. unfold V1.
    apply lookup_delete_ne. intros <-. set_solver. }
  eapply vwp_mono; [by apply vwp_release_hold_spec|].
  intros _ V' [HI' Hf Hg Hkp Hoth].
  assert (frees V V') as HF by (eapply frees_trans; [apply frees_delete_own, frees_refl|done]).
  split_and!; [split; [done|]|done|done|].
  2: { eapply keeps_trans; [|done]. apply keeps_delete; [done..|apply keeps_refl]. }
  apply (own_ok_drop V V' x); [done|done|apply HF|..].
  - intros k Hk. rewrite Hoth by set_solver. by apply lookup_delete_ne.
  - intros ns' m' path' Hns' Heq.
    apply hold_member_inj in Heq as (<- & <- & <-); [done|by eapply scoped_path_nul_free|done].
Qed.

Lemma vwp_drop_if_empty V0 V :
  good V → frees V0 V →
  vwp now (drop_if_empty o (own_prefix o) (alive_key o))
    (λ _ V', good V' ∧ frees V0 V' ∧ (∀ m p, gone V o m p → gone V' o m p) ∧
       ∀ R, keeps R V V') V.
Proof.
  intros [HI Hok] Hf. unfold drop_if_empty. apply vwp_bind, vwp_has_live_member; [done|].
  intros b _. destruct b; simpl; [apply vwp_ret; split_and!; by auto using keeps_refl, Build_good|].
  apply vwp_bind, vwp_del, vwp_del. split; [split|split_and!].
  - apply (Inv_other V); [done|]. intros i Hi.
    rewrite !lookup_delete_ne; [done|intros <-; set_solver..].
  - apply (own_ok_ext V); [done|]. intros i Hi.
    rewrite !lookup_delete_ne; [done|intros <-; by destruct Hi as [?|[[?|[?|[?|?]]]|?]]..].
  - by apply frees_delete_alive.
  - intros m p. apply gone_sub. auto.
  - intros R. do 2 (apply keeps_delete; [done..|]). apply keeps_refl.
Qed.

(** The requested holds. *)
Definition requested (ns : str) (reqs : list RelReq) (m : Mode) (p : str) : Prop :=
  ∃ req, req ∈ reqs ∧ m = rel_mode req ∧ p = scoped_path ns (rel_path req).

Definition freed (ns : str) (reqs : list RelReq) (V V' : View) : Prop :=
  good V' ∧ frees V V' ∧ (∀ m p, requested ns reqs m p → gone V' o m p) ∧
  keeps (requested ns reqs) V V'.

Lemma vwp_apply_release_loop ns reqs V :
  good V → (∀ req, req ∈ reqs → nul_free (scoped_path ns (rel_path req))) →
  vwp now (for_each reqs (λ req, apply_release o ns req (own_prefix o)))
    (λ _ V', freed ns reqs V V') V.
Proof.
  intros Hg Hreqs.
  apply (vwp_for_each_pre now reqs _ (λ pre V', freed ns pre V V')).
  { split_and!; [done|apply frees_refl|by intros m p (? & ?%not_elem_of_nil & _)|apply keeps_refl]. }
  intros pre req post V1 -> (Hg1 & Hf1 & Hgone & Hk).
  eapply vwp_mono; [apply vwp_apply_release; [done|set_solver]|].
  intros _ V2 (Hg2 & Hf2 & Hreq & Hk2). split_and!; [done|by eapply frees_trans|..].
  - intros m p (r & [Hr|Hr]%elem_of_app & -> & ->).
    + apply (gone_sub V1); [apply Hf2|]. apply Hgone. by exists r.
    + by apply list_elem_of_singleton in Hr as ->.
  - intros m p Hn Hm. apply Hk2.
    + intros [-> ->]. apply Hn. exists req. set_solver.
    + apply Hk; [|done]. intros (r & Hr & -> & ->). apply Hn. exists r. set_solver.
Qed.

Lemma vwp_freed_drop_if_empty ns reqs V V1 :
  freed ns reqs V V1 →
  vwp now (drop_if_empty o (own_prefix o) (alive_key o)) (λ _ V', freed ns reqs V V') V1.
Proof.
  intros (Hg1 & Hf1 & Hgone & Hk1). eapply vwp_mono; [by apply vwp_drop_if_empty|].
  intros _ V2 (Hg2 & Hf2 & Hk & Hk2). split_and!; auto. by eapply keeps_trans.
Qed.

Lemma vwp_apply_releases ns reqs V :
  good V → (∀ req, req ∈ reqs → nul_free (scoped_path ns (rel_path req))) →
  vwp now (apply_releases o ns reqs (own_prefix o) (alive_key o))
    (λ _ V', freed ns reqs V V') V.
Proof.
  intros Hg Hreqs. apply vwp_bind. eapply vwp_mono; [by apply vwp_apply_release_loop|].
  intros [] V1 Hfr. by apply vwp_freed_drop_if_empty.
Qed.

(** A deletion outside the lock tables and the hold sets. *)
Lemma good_delete V c k : good V → c ∉ OWN_CF :: lock_cfs → good (delete (c, k) V).
Proof using Type.
  clear Ho o. intros [HI Hok] Hc. split.
  - apply (Inv_other V); [done|]. intros i Hi. apply lookup_delete_ne. intros <-. set_solver.
  - apply (own_ok_ext V); [done|]. intros i Hi. apply lookup_delete_ne. intros <-. simpl in Hi.
    apply Hc. destruct Hi as [->|[[->|[->|[->| ->]]]| ->]]; set_solver.
Qed.

Lemma vwp_release_inner_in_namespace ns reqs del_wait V :
  good V → (∀ req, req ∈ reqs → nul_free (scoped_path ns (rel_path req))) →
  vwp now (release_inner_in_namespace ns o reqs del_wait)
    (λ _ V', freed ns reqs V V') V.
Proof.
  intros Hg Hreqs. unfold release_inner_in_namespace.
  apply vwp_bind. eapply vwp_mono; [by apply vwp_apply_release_loop|].
  intros [] V1 Hfr. apply vwp_bind. eapply vwp_mono; [by apply vwp_freed_drop_if_empty|].
  intros _ V2 (Hg2 & Hf2 & Hgone & Hk). destruct del_wait; [|by apply vwp_ret].
  apply vwp_del. split_and!.
  - apply good_delete; [done|set_solver].
  - apply frees_delete_cf; [set_solver|done..].
  - intros m p Hr. apply (gone_sub V2); auto.
  - by apply keeps_delete.
Qed.

(** ** Releasing everything of one owner *)

Lemma is_member_own V x : own_ok V → is_member V OWN_CF (own_prefix o) x ↔ owns V o x.
Proof.
  intros Hok. split.
  - intros (k & [r ->] & Hk). destruct (own_key _ Hok _ _ Hk) as [(b & Hb & _ & Heq) _].
    assert (b = o) as ->.
    { unfold sk, member_prefix, own_prefix in Heq. apply pair_eq in Heq as [_ Heq].
      rewrite member_key_app, <- !app_assoc in Heq. simpl in Heq.
      by apply nul_sep_inj in Heq as [-> _]. }
    rewrite Heq in Hk. by eexists.
  - intros [y Hy]. pose proof (own_lookup_sk V x y Hok Hy) as ->.
    exists (member_key (own_prefix o) x). split; [by eexists|done].
Qed.

Lemma vwp_release_item x V V0 :
  good V0 → owns V0 o x → good V → frees V0 V →
  vwp now (release_held_member o x;; srem OWN_CF (own_prefix o) x)
    (λ _ V', good V' ∧ frees V0 V' ∧ sub_view V V' ∧ ¬ owns V' o x) V.
Proof.
  intros [HI0 Hok0] [y Hy] [HI Hok] Hf0. pose proof (own_lookup_sk V0 x y Hok0 Hy) as ->.
  destruct (own_key _ Hok0 _ _ Hy) as [_ Hpath].
  apply vwp_bind.
  apply (vwp_mono _ _ (λ _ V', Inv V' ∧ frees V V' ∧ (∀ i, i.1 ∉ lock_cfs → V' !! i = V !! i) ∧
    ∀ ns m path, nul_free ns → x = hold_member ns m path → gone V' o m (scoped_path ns path))).
  - unfold release_held_member. destruct (parse_hold_member x) as [held|] eqn:Hx.
    + eapply vwp_mono; [apply vwp_release_hold_spec; [done..|by apply Hpath]|].
      intros _ V1 [HI1 Hf1 Hg1 _ Ho1]. split_and!; [done..|].
      intros ns m path Hns ->. rewrite parse_hold_member_member in Hx by done.
      by simplify_eq.
    + apply vwp_ret. split_and!; [done|apply frees_refl|done|].
      intros ns m path Hns ->. by rewrite parse_hold_member_member in Hx.
  - intros _ V1 (HI1 & Hf1 & Ho1 & Hg1). apply vwp_srem.
    change (OWN_CF, member_key (own_prefix o) x) with (sk OWN_CF o x).
    split_and!; [split| | |].
    + apply (Inv_other V1); [done|]. intros i Hi. apply lookup_delete_ne. intros <-. set_solver.
    + apply (own_ok_drop V _ x); [done|done|by apply sub_view_delete, Hf1|..].
      * intros k Hk. rewrite lookup_delete_ne by done. apply Ho1. set_solver.
      * intros ns m path Hns Heq. apply (gone_sub V1); [by apply sub_view_delete|auto].
    + apply frees_delete_own. by eapply frees_trans.
    + by apply sub_view_delete, Hf1.
    + unfold owns. rewrite lookup_delete_eq. by intros [].
Qed.

Definition page_from (cursor : option bytes) : bytes :=
  default (member_prefix (own_prefix o)) cursor.

(** Between two pages every entry below the cursor is gone. *)
Record paged (V0 : View) (cursor : option bytes) (V : View) : Prop := {
  pg_good : good V;
  pg_frees : frees V0 V;
  pg_cursor : member_prefix (own_prefix o) `prefix_of` page_from cursor;
  pg_left x : owns V o x → bytes_leb (page_from cursor) (member_key (own_prefix o) x) = true
}.

Lemma vwp_release_page_body V0 cursor V :
  paged V0 cursor V →
  vwp now (release_page_body o (own_prefix o) cursor)
    (λ r V', match r with
             | inl c => paged V0 c V'
             | inr _ => good V' ∧ frees V0 V' ∧ ∀ x, ¬ owns V' o x
             end) V.
Proof.
  intros [Hg Hf Hc Hleft]. unfold release_page_body. apply vwp_bind, vwp_smembers_page;
    [done|done|by apply bytes_leb_prefix|].
  intros l next Hl Hall Hnext. cbn beta iota. apply vwp_bind.
  assert (∀ x, x ∈ l → owns V o x) as Hown.
  { intros x Hx. apply is_member_own; [apply Hg|auto]. }
  eapply vwp_mono.
  { apply (vwp_for_each_pre now l _ (λ pre V', good V' ∧ frees V V' ∧ ∀ x, x ∈ pre → ¬ owns V' o x)).
    - split_and!; [done|apply frees_refl|set_solver].
    - intros pre x post V1 -> (Hg1 & Hf1 & Hpre).
      eapply vwp_mono; [apply (vwp_release_item x V1 V); [done|set_solver|done..]|].
      intros _ V2 (Hg2 & Hf2 & Hs & Hx). split_and!; [done..|].
      intros y [Hy|Hy]%elem_of_app; [|by apply list_elem_of_singleton in Hy as ->].
      intros Ho'. apply (Hpre y Hy). by apply (sub_view_is_Some V1 V2). }
  intros _ V1 (Hg1 & Hf1 & Hgone). apply vwp_ret.
  assert (∀ x, owns V1 o x →
    match next with
    | Some k' => bytes_ltb (member_key (own_prefix o) x) k' = false
    | None => False
    end) as Hrest.
  { intros x Hx. assert (owns V o x) as Hx0 by by apply (sub_view_is_Some V V1); [apply Hf1|].
    destruct Hx0 as [y Hy] eqn:E. clear E. assert (y = x) as ->
      by by apply (own_lookup_sk V x y); [apply Hg|].
    specialize (Hall (member_key (own_prefix o) x) x ltac:(by eexists) Hy (Hleft x ltac:(by eexists))).
    destruct next as [k'|].
    - destruct (bytes_ltb _ k') eqn:Hlt; [|done]. exfalso. by apply (Hgone x); [apply Hall|].
    - by apply (Hgone x); [apply Hall|]. }
  assert (frees V0 V1) as Hf01 by by eapply frees_trans.
  destruct next as [k'|].
  - split; [done..|]. intros x Hx. apply Hrest in Hx. unfold bytes_leb. simpl. by rewrite Hx.
  - split_and!; [done..|]. intros x Hx. by apply Hrest in Hx.
Qed.

(** Nothing listed, nothing held. *)
Lemma own_ok_gone V : own_ok V → (∀ x, ¬ owns V o x) → ∀ m p, gone V o m p.
Proof.
  intros Hok Hno m p. assert (∀ m p, ¬ has_own V o m p) as Hn
    by (intros m' p' (ns & path & _ & H); by eapply Hno).
  destruct m; simpl; [split|].
  - intros Hw. by eapply Hn, (own_w _ Hok).
  - intros Hs. by eapply Hn, (own_s _ Hok).
  - intros Hr. by eapply Hn, (own_r _ Hok).
Qed.

Lemma vwp_release_owner_wide del_wait V :
  good V →
  vwp now (release_owner_wide o del_wait)
    (λ _ V', good V' ∧ frees V V' ∧ (∀ m p, gone V' o m p) ∧ (∀ x, ¬ owns V' o x) ∧
       ¬ alive V' o) V.
Proof.
  intros Hg. unfold release_owner_wide. apply vwp_bind.
  eapply vwp_mono.
  { apply (vwp_loop now _ (paged V) (λ _ V', good V' ∧ frees V V' ∧ ∀ x, ¬ owns V' o x)).
    - intros c V1 Hp. by apply vwp_release_page_body.
    - split; [done|apply frees_refl|done|]. intros x _. apply bytes_leb_extend. }
  intros _ V1 (Hg1 & Hf1 & Hno1). apply vwp_bind, vwp_del, vwp_bind, vwp_del.
  set (V2 := delete (ALIVE_CF, revoke_key o) (delete (ALIVE_CF, alive_key o) V1)).
  assert (good V2) as Hg2 by (do 2 (apply good_delete; [|set_solver]); done).
  assert (frees V V2) as Hf2 by by apply frees_delete_alive.
  assert (∀ x, ¬ owns V2 o x) as Hno2.
  { intros x Hx. apply (Hno1 x). revert Hx. unfold V2, owns. by lookup_ne. }
  assert (¬ alive V2 o) as Hal2.
  { unfold alive, V2. rewrite lookup_delete_ne; [by rewrite lookup_delete_eq; intros []|].
    intros Heq. unfold ak, revoke_key, alive_key in Heq. injection Heq as Heq.
    by apply (f_equal length) in Heq; rewrite length_app in Heq; simpl in Heq; lia. }
  destruct del_wait.
  - apply vwp_del. assert (good (delete (WAIT_CF, wait_key o) V2)) as Hg3
      by (apply good_delete; [done|set_solver]).
    assert (∀ x, ¬ owns (delete (WAIT_CF, wait_key o) V2) o x) as Hno3
      by (intros x; unfold owns; lookup_ne; apply Hno2).
    split_and!; [done| |by apply own_ok_gone; [apply Hg3|]|done|by unfold alive; lookup_ne].
    apply frees_delete_cf; [set_solver|done..].
  - apply vwp_ret. split_and!; [done..|by apply own_ok_gone; [apply Hg2|]|done|done].
Qed.
End release.
