(* ===== verification/EngineGrant.v ===== *)
(** * Acquire: the whole operation

    [acquire_inner_in_namespace] from the liveness test to the releases that
    follow a grant, on every outcome. *)

From Stdlib Require Import ZArith NArith Lia Strings.Byte.
From stdpp Require Import sorting countable base numbers gmap strings list.
From S2P Require Import Prelude RustStd StoreKeys Store StoreScan StoreSim EngineTypes Engine.
From S2P Require Import KvView EngineView EngineInv EngineValidate EngineAcquire EngineApply.
From S2P Require Import EngineOps EngineRelease.
Local Open Scope Z_scope.

(** ** Validation and apply never report success themselves *)
Section refusals.
Context {T : Type} `{!StoreTxn T}.

Definition refusal (r : option AcquireOutcome) : Prop :=
  (∀ t, r ≠ Some (AcquireOk t)) ∧ ∀ p o q t, r ≠ Some (AcquireQueued p o q t).
Definition refuses (m : txm T (option AcquireOutcome)) : Prop :=
  ∀ s, wlp m (λ r _, refusal r) s.

Lemma refuses_ret r : refusal r → refuses (mret r).
Proof. intros H s. by apply wp_ret. Qed.

Lemma refuses_bind {A} (m : txm T A) f : (∀ a, refuses (f a)) → refuses (m ≫= f).
Proof.
  intros H s. apply wp_bind. unfold wp. destruct (m s) as [[a s']|e]; [by apply H|done].
Qed.

Lemma refuses_find_first {A} (xs : list A) f : (∀ x, refuses (f x)) → refuses (find_first xs f).
Proof.
  intros H. induction xs as [|x xs IH]; simpl; [by apply refuses_ret|].
  intros s. apply wp_bind. eapply wp_mono; [apply H|]. intros [oc|] s' Hr; [|apply IH].
  by apply wp_ret.
Qed.

Ltac refuse :=
  repeat first
    [ apply refuses_find_first; intros ?
    | apply refuses_bind; intros ?
    | apply refuses_ret; split; intros ?
    | case_match ];
  unfold conflict_of in *; repeat case_match; try done; try congruence.

Lemma refuses_ancestors o ns p : refuses (validate_new_ancestors o ns p).
Proof. unfold validate_new_ancestors. refuse. Qed.

Lemma refuses_validate o tok reqs ns pol : refuses (validate_acquire o tok reqs ns pol).
Proof.
  unfold validate_acquire. apply refuses_find_first. intros req. destruct (lr_state req).
  - unfold validate_new, validate_new_semaphore. case_match; [refuse|].
    intros s. apply wp_bind. eapply wp_mono; [apply refuses_ancestors|].
    intros [oc|] s' Hr; [by apply wp_ret|]. revert s'. refuse.
  - unfold validate_held. refuse.
Qed.

Lemma refuses_apply req ctx : refuses (apply_acquire req ctx).
Proof.
  unfold apply_acquire. apply refuses_bind. intros a. intros s. apply wp_bind.
  eapply (wp_mono _ _ (λ r _, refusal r)).
  - revert s. unfold apply_semaphore_acquire, apply_write_acquire, apply_read_acquire. refuse.
  - intros [oc|] s' Hr; [by apply wp_ret|]. revert s'. refuse.
Qed.
End refusals.

Section grant.
Context `{!Bincode StoredRecord} (semp : str → bool) (now : Z).
Local Abbreviation Inv := (Inv semp).
Local Abbreviation pruned := (pruned semp).
Local Abbreviation good := (good semp).

(** What an operation of [o] may do to the other owners: nothing of a live
    owner is lost, nobody gains a hold. *)
Record leaves (o : str) (V V' : View) : Prop := {
  lv_keep b m p : nul_free b → b ≠ o → alive V b → held V b m p → held V' b m p;
  lv_gain b m p : b ≠ o → held V' b m p → held V b m p;
  lv_alive b : nul_free b → b ≠ o → alive V b → alive V' b
}.

Lemma leaves_refl o V : leaves o V V.
Proof. by split. Qed.

Lemma leaves_trans o V1 V2 V3 : leaves o V1 V2 → leaves o V2 V3 → leaves o V1 V3.
Proof. intros [A1 A2 A3] [B1 B2 B3]. split; eauto. Qed.

Lemma held_sub V V' b m p : sub_view V V' → held V' b m p → held V b m p.
Proof.
  intros Hs. destruct m; simpl.
  - intros [?|?]; [left; by apply (sub_view_Some V V')|right; by apply (sub_view_is_Some V V')].
  - by apply sub_view_is_Some.
Qed.

Lemma leaves_frees o V V' : frees o V V' → leaves o V V'.
Proof.
  intros Hf. split.
  - intros b m p _ Hb _. destruct m; simpl; [|by apply (fr_rd _ _ _ Hf)].
    intros [?|?]; [left; by apply (fr_wr _ _ _ Hf)|right; by apply (fr_sem _ _ _ Hf)].
  - intros b m p _. apply held_sub, Hf.
  - apply (fr_alive _ _ _ Hf).
Qed.

Lemma leaves_pruned o V V' : pruned V V' → leaves o V V'.
Proof.
  intros [_ Hp]. split.
  - intros b m p Hnb _ Ha. destruct m; simpl; [|intros ?; by apply (pr_rd _ _ Hp)].
    intros [?|?]; [left; by apply (pr_wr _ _ Hp)|right; by apply (pr_sem _ _ Hp)].
  - intros b m p _. apply held_sub, Hp.
  - intros b _ _. by apply (prunes_alive V V').
Qed.

Lemma leaves_grants o tok V0 V V' : grants semp o tok V0 V V' → leaves o V V'.
Proof.
  intros Hg. pose proof (gr_ext _ _ _ _ _ _ Hg) as Hex. split.
  - intros b m p _ _ _. destruct m; simpl; [|by apply (ex_rd_keep _ _ _ _ Hex)].
    intros [?|?]; [left; by apply (gr_keep _ _ _ _ _ _ Hg)|right; by apply (ex_sem_keep _ _ _ _ Hex)].
  - intros b m p Hb. destruct m; simpl.
    + intros [[?|?]%(ex_wr _ _ _ _ Hex)|[?|?]%(ex_sem _ _ _ _ Hex)]; auto; done.
    + intros [?|?]%(ex_rd _ _ _ _ Hex); done.
  - intros b _ _. unfold alive. rewrite (gr_other _ _ _ _ _ _ Hg); [done|].
    by apply (bool_decide_eq_true_1 (ALIVE_CF ∉ grant_cfs)).
Qed.

(** Writes outside the lock tables. *)
Lemma good_alter V c k f : good V → c ∉ OWN_CF :: lock_cfs → good (partial_alter f (c, k) V).
Proof.
  intros [HI Hok] Hc. split.
  - apply (Inv_other semp V); [done|]. intros i Hi. apply lookup_partial_alter_ne.
    intros <-. set_solver.
  - apply (own_ok_ext V); [done|]. intros i Hi. apply lookup_partial_alter_ne. intros <-.
    apply Hc. destruct Hi as [Hi|[[Hi|[Hi|[Hi|Hi]]]|Hi]]; simpl in Hi; rewrite Hi; set_solver.
Qed.

Lemma held_alter V c k f b m p :
  c ≠ WR_CF → c ≠ RD_CF → c ≠ SEM_CF → held (partial_alter f (c, k) V) b m p ↔ held V b m p.
Proof using Type.
  clear semp. intros ???. assert (∀ i : cf * bytes, i.1 = WR_CF ∨ i.1 = RD_CF ∨ i.1 = SEM_CF →
    partial_alter f (c, k) V !! i = V !! i) as Hl.
  { intros i Hi. apply lookup_partial_alter_ne. intros <-. simpl in Hi. naive_solver. }
  split; apply held_eq.
  all: try (rewrite Hl; [done|by left]).
  all: intros c' [->| ->]; rewrite Hl; auto.
Qed.

Lemma leaves_alter_alive V o f : leaves o V (partial_alter f (ak o) V).
Proof using Type.
  clear semp. split.
  - intros b m p _ _ _ Hh. by apply held_alter.
  - intros b m p _ Hh. by apply held_alter in Hh.
  - intros b _ Hb. unfold alive. rewrite lookup_partial_alter_ne; [done|].
    unfold ak, alive_key. by intros [= ->].
Qed.

Lemma good_pruned V V' : good V → pruned V V' → good V'.
Proof.
  intros [HI Hok] [HI' Hp]. split; [done|].
  assert (∀ k, V' !! (OWN_CF, k) = V !! (OWN_CF, k)) as Ho
    by (intros k; apply (pr_other _ _ Hp); set_solver).
  assert (∀ b m q, has_own V b m q → has_own V' b m q) as Hh.
  { intros b m q (ns & path & -> & Hb). exists ns, path. split; [done|].
    unfold owns, sk. by rewrite Ho. }
  pose proof (pr_sub _ _ Hp) as Hs. split.
  - intros p b Hw. by apply Hh, (own_w _ Hok), (sub_view_Some V V').
  - intros p b Hw. by apply Hh, (own_r _ Hok), (sub_view_is_Some V V').
  - intros p b Hw. by apply Hh, (own_s _ Hok), (sub_view_is_Some V V').
  - intros k m. rewrite Ho. apply (own_key _ Hok).
Qed.

(** Releasing other holds does not take a granted one. *)
Lemma got_freed o tok pol ns rels V V' req :
  Inv V → freed semp o ns rels V V' →
  ¬ requested ns rels (lr_mode req) (scoped_path ns (lr_path req)) →
  allows_mode (algorithm pol) (lr_mode req) = true ∨ lr_state req = Held →
  got o tok pol ns V req → got o tok pol ns V' req.
Proof.
  intros HI (_ & Hf & _ & Hk) Hn Hmode. unfold got. set (p := scoped_path ns (lr_path req)) in *.
  pose proof (Hk _ _ Hn) as Hheld. clear Hk. pose proof (fr_sub _ _ _ Hf) as Hs.
  assert (writer V p = Some o → permit V o p → False) as Hno.
  { intros Hw Hp. destruct (inv_wr _ V HI p o Hw) as (_ & _ & ? & _), (inv_sem _ V HI o p Hp).
    congruence. }
  destruct (lr_state req) eqn:Hst; [|done]. destruct Hmode as [Hmode|?]; [|done].
  destruct (is_semaphore (algorithm pol)) eqn:Hsem.
  - assert (lr_mode req = Write) as Hm.
    { apply is_semaphore_eq in Hsem. rewrite Hsem in Hmode. by destruct (lr_mode req). }
    rewrite Hm in Hheld. simpl in Hheld. intros Hp. destruct Hheld as [Hw|?]; [by right| |done].
    exfalso. apply Hno; [by apply (sub_view_Some V V')|done].
  - destruct (lr_mode req); [|exact Hheld]. simpl in Hheld. intros [Hw Hfk].
    rewrite (fr_fence _ _ _ Hf). split; [|done]. destruct Hheld as [?|Hp]; [by left|done|].
    exfalso. apply Hno; [done|by apply (sub_view_is_Some V V')].
Qed.

(** ** The operation *)

(** What the service layer guarantees of the arguments, and the discipline of
    namespaces: new requests of a semaphore namespace, and only those, name
    semaphore paths. *)
Record acquire_ok (args : AcquireArgs) (pol : LockPolicy) (ns : str) : Prop := {
  aok_owner : nul_free (owner_id args);
  aok_reqs req : req ∈ requests args → valid_req (owner_id args) ns req;
  aok_rels rel : rel ∈ release_requests args → nul_free (scoped_path ns (rel_path rel));
  aok_semp req : req ∈ requests args → lr_state req = New →
    semp (scoped_path ns (lr_path req)) = is_semaphore (algorithm pol)
}.

Record acquired (args : AcquireArgs) (pol : LockPolicy) (ns : str) (V : View)
    (r : AcquireOutcome) (V' : View) : Prop := {
  aq_good : good V';
  aq_leaves : leaves (owner_id args) V V';
  aq_fence q : V' !! fk q = V !! fk q ∨
    (V' !! fk q = Some (to_string (fencing_token args)) ∧
     (fence_new (owner_id args) (fencing_token args) V q ∨ fence_held (fencing_token args) V q));
  aq_new q : writer V' q = Some (owner_id args) → writer V q = Some (owner_id args) ∨
    (V' !! fk q = Some (to_string (fencing_token args)) ∧
     fence_new (owner_id args) (fencing_token args) V q);
  aq_got t req : r = AcquireOk t → req ∈ requests args →
    ¬ requested ns (release_requests args) (lr_mode req) (scoped_path ns (lr_path req)) →
    got (owner_id args) (fencing_token args) pol ns V' req;
  aq_rel t m p : r = AcquireOk t → requested ns (release_requests args) m p →
    gone V' (owner_id args) m p ∨ requests args = [] ∧ release_requests args = []
}.

(** The phases before the records are written do not touch fences and add no writer. *)
Lemma acquired_early args pol ns V V' r :
  good V' → leaves (owner_id args) V V' → since V V' →
  (∀ t, r ≠ AcquireOk t) → acquired args pol ns V r V'.
Proof.
  intros Hg Hl [Hf Hw] Hr. split; [done|done|..].
  - intros q. left. apply Hf.
  - intros q Hq. left. by apply Hw.
  - intros t req Ht. by destruct (Hr t).
  - intros t m p Ht. by destruct (Hr t).
Qed.

Lemma since_frees o V V' : frees o V V' → since V V'.
Proof.
  intros Hf. split; [apply (fr_fence _ _ _ Hf)|].
  intros p b Hb. by apply (sub_view_Some V V'); [apply Hf|].
Qed.

Lemma acquired_refused args pol ns V V2 V3 r :
  good V2 → leaves (owner_id args) V V2 → since V V2 →
  grants semp (owner_id args) (fencing_token args) V V2 V3 →
  (∀ t, r ≠ AcquireOk t) → acquired args pol ns V r V3.
Proof.
  intros Hg Hl [Hf Hw] Hgr Hr. split.
  - split; apply Hgr; apply Hg.
  - eapply leaves_trans; [done|by eapply leaves_grants].
  - intros q. rewrite <- Hf. apply (gr_fence _ _ _ _ _ _ Hgr).
  - intros q Hq. destruct (gr_new _ _ _ _ _ _ Hgr q Hq) as [?|?]; [left; by apply Hw|by right].
  - intros t req Ht. by destruct (Hr t).
  - intros t m p Ht. by destruct (Hr t).
Qed.

Lemma vwp_refuses (m : txm Kv (option AcquireOutcome)) (Q : option AcquireOutcome → View → Prop) V :
  refuses m → vwp now m Q V → vwp now m (λ r V', Q r V' ∧ ∀ t, r ≠ Some (AcquireOk t)) V.
Proof.
  intros Hr Hm s Hn HV. eapply wp_mono; [exact (wp_conj _ _ _ _ _ (Hm s Hn HV) (Hr s))|].
  intros r s' [[? ?] [? _]]. done.
Qed.

(** The tail of a granted acquire. *)
Lemma vwp_acquire_tail args pol ns V V2 V3 t :
  acquire_ok args pol ns → good V2 → leaves (owner_id args) V V2 → since V V2 →
  grants semp (owner_id args) (fencing_token args) V V2 V3 →
  (∀ req, req ∈ requests args → got (owner_id args) (fencing_token args) pol ns V3 req) →
  (∀ req, req ∈ requests args → lr_state req = New →
     allows_mode (algorithm pol) (lr_mode req) = true) →
  vwp now (refresh_portfolio (alive_key (owner_id args)) (ttl_ms args);;
           (if negb (bool_decide (release_requests args = []))
            then apply_releases (owner_id args) ns (release_requests args)
                   (own_prefix (owner_id args)) (alive_key (owner_id args))
            else mret tt);;
           mret (AcquireOk t)) (acquired args pol ns V) V3.
Proof.
  intros [Ho _ Hrels _] Hg2 Hl2 [Hf2 Hw2] Hgr Hgot Hmode.
  set (o := owner_id args) in *. set (tok := fencing_token args) in *.
  apply vwp_bind, vwp_set_str_ttl; [done|].
  set (V4 := partial_alter _ _ V3).
  assert (good V3) as Hg3 by (split; apply Hgr; apply Hg2).
  assert (good V4) as Hg4 by (apply good_alter; [done|set_solver]).
  assert (leaves o V V4) as Hl4.
  { eapply leaves_trans; [done|]. eapply leaves_trans; [by eapply leaves_grants|].
    apply leaves_alter_alive. }
  assert (∀ i, i.1 ≠ ALIVE_CF → V4 !! i = V3 !! i) as H43.
  { intros i Hi. apply lookup_partial_alter_ne. by intros <-. }
  assert (∀ req, req ∈ requests args → got o tok pol ns V4 req) as Hgot4.
  { intros req Hreq. specialize (Hgot req Hreq). revert Hgot. unfold got, writer, permit, reads.
    rewrite !H43 by done. destruct (lr_state req); [done|]. intros Hh. by apply held_alter. }
  assert (∀ V', frees o V4 V' → good V' →
    (∀ t' req, AcquireOk t = AcquireOk t' → req ∈ requests args →
       ¬ requested ns (release_requests args) (lr_mode req) (scoped_path ns (lr_path req)) →
       got o tok pol ns V' req) →
    (∀ m p, requested ns (release_requests args) m p → gone V' o m p) →
    acquired args pol ns V (AcquireOk t) V') as Hfin.
  { intros V' Hfr Hg' Hgot' Hgone. split; [done| | | |done|].
    - eapply leaves_trans; [done|by apply leaves_frees].
    - intros q. rewrite (fr_fence _ _ _ Hfr), H43 by done. rewrite <- Hf2.
      apply (gr_fence _ _ _ _ _ _ Hgr).
    - intros q Hq. rewrite (fr_fence _ _ _ Hfr), H43 by done.
      assert (writer V3 q = Some o) as Hq3.
      { unfold writer. rewrite <- H43 by done. by apply (sub_view_Some V4 V'); [apply Hfr|]. }
      destruct (gr_new _ _ _ _ _ _ Hgr q Hq3) as [?|?]; [left; by apply Hw2|by right].
    - intros t' m p _ Hreq. left. by apply Hgone. }
  apply vwp_bind. case_bool_decide as Hrel; simpl.
  - apply vwp_ret, vwp_ret, Hfin; [apply frees_refl|done|by auto|].
    intros m p (r & Hr & _). rewrite Hrel in Hr. by apply not_elem_of_nil in Hr.
  - eapply vwp_mono; [by apply vwp_apply_releases|].
    intros [] V5 Hfr. pose proof Hfr as (Hg5 & Hf5 & Hgone & _).
    apply vwp_ret, Hfin; [done|done| |done].
    intros t' req _ Hreq Hn. eapply got_freed; [apply Hg4|done|done| |by apply Hgot4].
    destruct (lr_state req) eqn:Hst; [left; by apply Hmode|by right].
Qed.

(** Every run of acquire, whatever its outcome, keeps the lock state consistent
    and leaves the other owners alone. *)
Lemma vwp_acquire args pol ns V :
  good V → acquire_ok args pol ns →
  vwp now (acquire_inner_in_namespace args pol ns) (acquired args pol ns V) V.
Proof.
  intros Hg Haok. unfold acquire_inner_in_namespace.
  set (o := owner_id args). set (tok := fencing_token args).
  destruct (bool_decide (requests args = []) && bool_decide (release_requests args = []))
    eqn:Hempty.
  { apply andb_true_iff in Hempty as [H1%bool_decide_eq_true H2%bool_decide_eq_true].
    apply vwp_ret. split; [done|apply leaves_refl|by left|by left|..].
    - intros t req _. rewrite H1. by intros ?%not_elem_of_nil.
    - auto. }
  apply vwp_bind, vwp_get_str; [done|]. cbn zeta.
  set (has_held := existsb _ _). set (al := is_some _).
  assert (al = true ↔ alive V o) as Hal.
  { unfold al, alive, ak. destruct (V !! _); simpl; split; try done; by intros []. }
  destruct (has_held && negb al) eqn:Hlost.
  { apply vwp_ret. by apply acquired_early; [|apply leaves_refl|..]. }
  apply vwp_bind.
  apply (vwp_mono _ _ (λ _ V1, good V1 ∧ leaves o V V1 ∧ since V V1 ∧
    ((∃ req, req ∈ requests args ∧ lr_state req = Held) → alive V1 o))).
  { assert ((∃ req, req ∈ requests args ∧ lr_state req = Held) → has_held = true) as Hheld.
    { intros (req & Hreq & Hst). apply existsb_exists. exists req.
      split; [by apply list_elem_of_In|by apply bool_decide_eq_true]. }
    destruct (negb has_held && negb al && _) eqn:Hsteal.
    - eapply vwp_mono; [apply vwp_release_owner_wide; [apply Haok|done]|].
      intros [] V1 (Hg1 & Hf1 & _). split_and!;
        [done|by apply leaves_frees|by eapply since_frees|].
      intros ?%Hheld. destruct has_held; [done|]. done.
    - apply vwp_ret. split_and!; [done|apply leaves_refl|done|].
      intros ?%Hheld. apply Hal. destruct has_held, al; done. }
  intros [] V1 (Hg1 & Hl1 & Hs1 & Ha1). apply vwp_bind.
  eapply vwp_mono; [apply vwp_refuses; [apply refuses_validate|]|].
  { apply vwp_validate_acquire; [apply Hg1|done|apply Haok..|done]. }
  intros v V2 [[Hpr Hok] Hnok]. pose proof (good_pruned V1 V2 Hg1 Hpr) as Hg2.
  assert (leaves o V V2) as Hl2 by (eapply leaves_trans; [done|by apply leaves_pruned]).
  assert (since V V2) as Hs2 by by eapply since_pruned.
  destruct v as [oc|].
  { apply vwp_ret, acquired_early; [done..|]. intros t ->. by apply (Hnok t). }
  apply vwp_bind. eapply vwp_mono; [apply vwp_refuses|].
  { apply refuses_find_first. intros req. apply refuses_apply. }
  { eapply vwp_apply_loop; [apply Haok|apply Hg2|by apply Hok|apply Haok..]. }
  intros oc V3 [[Hgr Hgot] Hnok']. destruct oc as [oc|].
  { apply vwp_ret. by apply (acquired_refused args pol ns V V2 V3); [..|intros t ->; by apply (Hnok' t)]. }
  eapply vwp_acquire_tail; eauto.
  intros req Hreq Hst. specialize (Hok eq_refl req Hreq). unfold ok_req in Hok.
  rewrite Hst in Hok. apply Hok.
Qed.
End grant.
