(* ===== verification/EngineRest.v ===== *)
(** * Renewal, revocation, blocking checks, policies and inspection

    The operations that do not take or give up locks: they keep the lock state
    consistent, leave other owners alone, and answer from the lock state. *)

From Stdlib Require Import ZArith NArith Lia Strings.Byte.
From stdpp Require Import sorting countable base numbers gmap strings list.
From S2P Require Import Prelude RustStd StoreKeys Store StoreScan StoreSim EngineTypes Engine.
From S2P Require Import KvView EngineView EngineInv EngineValidate EngineAcquire EngineApply.
From S2P Require Import EngineOps EngineRelease EngineGrant.
Local Open Scope Z_scope.

Section rest.
Context `{!Bincode StoredRecord} (semp : str → bool) (now : Z).
Local Abbreviation Inv := (Inv semp).
Local Abbreviation pruned := (pruned semp).
Local Abbreviation good := (good semp).

(** A write that is neither a lock record nor a liveness record of a client. *)
Lemma leaves_alter o V c k f :
  c ≠ WR_CF → c ≠ RD_CF → c ≠ SEM_CF → (∀ b, nul_free b → (c, k) ≠ ak b) →
  leaves o V (partial_alter f (c, k) V).
Proof.
  intros ??? Hk. split.
  - intros b m p _ _ _ Hh. by apply held_alter.
  - intros b m p _ Hh. by apply held_alter in Hh.
  - intros b Hb _. unfold alive. rewrite lookup_partial_alter_ne; [done|by apply Hk].
Qed.

(** The same holds, the same owners, nothing but side records changed. *)
Definition quiet (o : str) (V V' : View) : Prop :=
  (∀ b m p, held V' b m p ↔ held V b m p) ∧ (∀ q, V' !! fk q = V !! fk q) ∧
  (∀ b, nul_free b → b ≠ o → alive V' b ↔ alive V b).

Lemma quiet_refl o V : quiet o V V.
Proof. by split_and!. Qed.

Lemma quiet_alter o V c k f :
  c ∉ FENCE_CF :: OWN_CF :: lock_cfs → (∀ b, nul_free b → b ≠ o → (c, k) ≠ ak b) →
  quiet o V (partial_alter f (c, k) V).
Proof.
  intros Hc Hk. split_and!.
  - intros b m p. rewrite held_alter; [done|intros ->; apply Hc; set_solver..].
  - intros q. apply lookup_partial_alter_ne. intros [= -> _]. set_solver.
  - intros b Hb Hne. unfold alive. rewrite lookup_partial_alter_ne; [done|by apply Hk].
Qed.

Lemma revoke_not_alive o b : nul_free b → (ALIVE_CF, revoke_key o) ≠ ak b.
Proof.
  intros Hb Heq. unfold ak, revoke_key, alive_key in Heq. injection Heq as <-.
  apply nul_free_app in Hb as [_ Hb]. apply Hb. by left.
Qed.

(** ** Renew and revoke *)

(** Renewal succeeds exactly for a live owner that still holds something. *)
Lemma vwp_renew o ttl V :
  good V → nul_free o →
  vwp now (renew_inner o ttl)
    (λ r V', good V' ∧ quiet o V V' ∧
       match r with
       | RenewOk _ => alive V o ∧ ∃ x, owns V o x
       | RenewLost _ reason =>
           V' = V ∧ (reason = MissingAlive ∧ ¬ alive V o ∨
                     reason = MissingOwnerSet ∧ alive V o ∧ ∀ x, ¬ owns V o x)
       end) V.
Proof.
  intros Hg Ho. unfold renew_inner. apply vwp_bind, vwp_get_str; [done|].
  assert (alive V o ↔ is_Some (V !! (ALIVE_CF, alive_key o))) as Hal by done.
  destruct (V !! (ALIVE_CF, alive_key o)) as [x|] eqn:Hx.
  2: { apply vwp_ret. split_and!; [done|apply quiet_refl|done|left]. split; [done|].
       intros ?%Hal. by destruct H. }
  assert (alive V o) as Ha by by apply Hal.
  apply vwp_bind, vwp_has_live_member; [done|]. intros live Hlive.
  assert (live = true ↔ ∃ x, owns V o x) as Hl.
  { rewrite Hlive. by setoid_rewrite (is_member_own o Ho V _ (good_own _ _ Hg)). }
  destruct live; simpl.
  - apply vwp_bind, vwp_pexpire_str; [done|]. rewrite Hx.
    apply vwp_bind, vwp_get_str; [done|]. apply vwp_ret. split_and!.
    + apply good_alter; [done|set_solver].
    + apply quiet_alter; [set_solver|]. intros b _ Hb Heq. injection Heq as Heq. by apply Hb.
    + done.
    + by apply Hl.
  - apply vwp_ret. split_and!; [done|apply quiet_refl|done|right]. split_and!; [done..|].
    intros y Hy. by assert (false = true) by (apply Hl; eauto).
Qed.

Lemma vwp_request_revoke o ttl V :
  good V → vwp now (request_revoke_inner o ttl) (λ _ V', good V' ∧ quiet o V V') V.
Proof.
  intros Hg. unfold request_revoke_inner. apply vwp_bind, vwp_get_str; [done|].
  destruct (V !! _); [|by apply vwp_ret; split; [|apply quiet_refl]].
  apply vwp_set_str_ttl; [done|]. split.
  - apply good_alter; [done|set_solver].
  - apply quiet_alter; [set_solver|]. intros b Hb _. by apply revoke_not_alive.
Qed.

(** ** Wait edges and policies *)

Lemma vwp_side_set c k v ttl o V :
  c = WAIT_CF ∨ c = NS_SETTINGS_CF → good V →
  vwp now (set_str c k v ttl) (λ _ V', good V' ∧ quiet o V V') V.
Proof.
  intros Hc Hg. apply vwp_set_str_ttl; [by destruct Hc as [->| ->]|]. split.
  - apply good_alter; [done|]. destruct Hc as [->| ->]; set_solver.
  - apply quiet_alter; [destruct Hc as [->| ->]; set_solver|].
    intros b _ _. by destruct Hc as [->| ->].
Qed.

Lemma vwp_side_del c k o V :
  c = WAIT_CF ∨ c = NS_SETTINGS_CF → good V →
  vwp now (del c k) (λ _ V', good V' ∧ quiet o V V') V.
Proof.
  intros Hc Hg. apply vwp_del. split.
  - apply good_alter; [done|]. destruct Hc as [->| ->]; set_solver.
  - apply quiet_alter; [destruct Hc as [->| ->]; set_solver|].
    intros b _ _. by destruct Hc as [->| ->].
Qed.

Lemma vwp_policy_record ns d (Q : LockPolicy * bool → View → Prop) V :
  match V !! (NS_SETTINGS_CF, namespace_policy_key ns) with
  | None => Q (from_algorithm d, false) V
  | Some raw => ∀ p, parse_namespace_policy_value raw = Ok p → Q (p, true) V
  end → vwp now (get_namespace_policy_record_inner ns d) Q V.
Proof.
  intros HQ. unfold get_namespace_policy_record_inner. apply vwp_bind, vwp_get_str; [done|].
  destruct (V !! _); [|by apply vwp_ret].
  apply vwp_bind, vwp_lift. intros p Hp. apply vwp_ret, HQ, Hp.
Qed.

Lemma vwp_set_policy ns a o V :
  good V → vwp now (set_namespace_policy_inner ns a) (λ _ V', good V' ∧ quiet o V V') V.
Proof.
  intros Hg. unfold set_namespace_policy_inner. apply vwp_bind, vwp_policy_record.
  destruct (V !! _).
  - intros p _. apply vwp_bind. eapply vwp_mono; [apply vwp_side_set; [by right|done]|].
    intros [] V' HV'. by apply vwp_ret.
  - apply vwp_bind. eapply vwp_mono; [apply vwp_side_set; [by right|done]|].
    intros [] V' HV'. by apply vwp_ret.
Qed.

(** ** Blocking checks prune what they find dead *)

Lemma pruned_member c m b p V :
  Inv V → holder_cf c m → nul_free p → nul_free b → (c = SEM_CF → writer V p ≠ Some b) →
  ¬ alive V b → pruned V (drop_member c m p b V).
Proof. intros. split; [by apply Inv_drop_member|by apply (prunes_drop_member semp)]. Qed.

Lemma vwp_is_blocking ns path b reason V :
  Inv V → nul_free (scoped_path ns path) → nul_free b →
  vwp now (is_blocking_inner ns path b reason)
    (λ r V', pruned V V' ∧
       (r = true →
          match reason with
          | ReadLocked | DescendantReadLocked => reads V' b (scoped_path ns path) ∧ alive V' b
          | SemaphoreFull => permit V' b (scoped_path ns path) ∧ alive V' b
          | _ => writer V' (scoped_path ns path) = Some b
          end)) V.
Proof.
  intros HI Hp Hb. set (p := scoped_path ns path) in *.
  assert (vwp now (w ← get_live_write_owner p; mret (bool_decide (w = Some b)))
    (λ r V', pruned V V' ∧ (r = true → writer V' p = Some b)) V) as Hw.
  { apply vwp_bind. eapply vwp_mono; [by apply vwp_live_writer|]. intros w V' [Hpr Hw].
    apply vwp_ret. split; [done|]. intros ->%bool_decide_eq_true. done. }
  assert (vwp now (m ← sismember RD_CF (rd_prefix p) b;
      if negb m then mret false
      else
        a ← get_str ALIVE_CF (alive_key b);
        match a with
        | Some _ => mret true
        | None =>
            srem RD_CF (rd_prefix p) b;;
            del_hold_algorithm b Read p;;
            live ← has_live_member RD_CF (rd_prefix p);
            (if negb live then remove_descendant_indexes Read p else mret tt);;
            mret false
        end) (λ r V', pruned V V' ∧ (r = true → reads V' b p ∧ alive V' b)) V) as Hr.
  { apply vwp_bind, vwp_sismember; [done|]. case_bool_decide as Hm; cbn [negb];
      [|by apply vwp_ret; split; [by apply pruned_refl|]].
    apply vwp_bind, vwp_get_str; [done|].
    destruct (V !! (ALIVE_CF, alive_key b)) as [x|] eqn:Hx.
    { apply vwp_ret. split; [by apply pruned_refl|]. split; [done|by exists x]. }
    assert (¬ alive V b) as Ha by (unfold alive, ak; rewrite Hx; by intros []).
    apply vwp_bind, vwp_srem, vwp_bind, vwp_del_hold_algorithm, vwp_bind, vwp_has_live_member; [done|].
    change (delete (hk b Read p) _) with (drop_member RD_CF Read p b V).
    pose proof (pruned_member RD_CF Read b p V HI ltac:(by left) Hp Hb ltac:(done) Ha) as Hp1.
    set (V1 := drop_member _ _ _ _ _) in *.
    intros live Hlive. apply vwp_bind. destruct live; cbn [negb]; [by apply vwp_ret, vwp_ret|].
    apply vwp_remove_descendant_indexes, vwp_ret. split; [|done].
    eapply pruned_trans; [done|]. apply (pruned_idx semp V1 Read); [apply Hp1|done|].
    intros b' Hb'. assert (false = true); [|done]. apply Hlive. exists b'.
    by apply (is_member_sk semp); [apply Hp1|left|..]. }
  assert (vwp now (m ← sismember SEM_CF (sem_prefix p) b;
      if negb m then mret false
      else
        a ← get_str ALIVE_CF (alive_key b);
        match a with
        | Some _ => mret true
        | None =>
            srem SEM_CF (sem_prefix p) b;;
            del_hold_algorithm b Write p;;
            mret false
        end) (λ r V', pruned V V' ∧ (r = true → permit V' b p ∧ alive V' b)) V) as Hs.
  { apply vwp_bind, vwp_sismember; [done|]. case_bool_decide as Hm; cbn [negb];
      [|by apply vwp_ret; split; [by apply pruned_refl|]].
    apply vwp_bind, vwp_get_str; [done|].
    destruct (V !! (ALIVE_CF, alive_key b)) as [x|] eqn:Hx.
    { apply vwp_ret. split; [by apply pruned_refl|]. split; [done|by exists x]. }
    assert (¬ alive V b) as Ha by (unfold alive, ak; rewrite Hx; by intros []).
    assert (SEM_CF = SEM_CF → writer V p ≠ Some b) as Hsp.
    { intros _ Hwp. destruct (inv_sem _ V HI b p Hm), (inv_wr _ V HI p b Hwp) as (_ & _ & ? & _).
      congruence. }
    apply vwp_bind, vwp_srem, vwp_bind, vwp_del_hold_algorithm, vwp_ret. split; [|done].
    by apply (pruned_member SEM_CF Write); [|right|..]. }
  unfold is_blocking_inner. fold p. destruct reason; lazymatch goal with
    | |- context [get_live_write_owner] => exact Hw
    | |- context [RD_CF] => exact Hr
    | |- _ => exact Hs
    end.
Qed.
End rest.
