(* ===== verification/EngineSafe.v ===== *)
(** * Well-formed stores: records decode, and lock records do not expire

    [sane] says that every record of the engine's families decodes to what the
    code stores there, and that only liveness, revocation and wait-edge records
    carry an expiry.  [stable E I m]: from a state in [I], [m] ends in [I] or
    fails with an error in [E].  The database [stable] proves it for the whole
    engine, with [E] reduced to the errors the code can really produce: an
    enumeration limit, and the budget of the paging loop. *)

From Stdlib Require Import ZArith NArith Lia Strings.Byte.
From stdpp Require Import sorting countable base numbers gmap strings list.
From S2P Require Import Prelude RustStd StoreKeys Store StoreScan StoreSim EngineTypes Engine.
From S2P Require Import KvView EngineView.
Local Open Scope Z_scope.

Definition stable {T A} (E : error → Prop) (I : T → Prop) (m : txm T A) : Prop :=
  ∀ s, I s → wp E m (λ _ s', I s') s.

Section stable_rules.
Context {T : Type} (E : error → Prop) (I : T → Prop).

Lemma stable_ret {A} (a : A) : stable E I (mret a).
Proof. by intros s Hs. Qed.
Lemma stable_fail {A} e : E e → stable E I (@tfail T A e).
Proof. by intros He s Hs. Qed.
Lemma stable_asks {A} (f : T → A) : stable E I (asks f).
Proof. by intros s Hs. Qed.

Lemma stable_bind {A B} (m : txm T A) (f : A → txm T B) :
  stable E I m → (∀ a, stable E I (f a)) → stable E I (m ≫= f).
Proof.
  intros Hm Hf s Hs. apply wp_bind. eapply wp_mono; [by apply Hm|]. intros a s'. apply Hf.
Qed.

Lemma stable_for_each {A} (xs : list A) f :
  (∀ x, x ∈ xs → stable E I (f x)) → stable E I (for_each xs f).
Proof. intros Hf s Hs. apply wp_for_each; [done|]. intros x s' Hx. by apply Hf. Qed.

Lemma stable_find_first {A B} (xs : list A) (f : A → txm T (option B)) :
  (∀ x, x ∈ xs → stable E I (f x)) → stable E I (find_first xs f).
Proof.
  induction xs as [|x xs IH]; intros Hf; simpl; [apply stable_ret|].
  apply stable_bind; [apply Hf; by left|]. intros [b|]; [apply stable_ret|].
  apply IH. intros y Hy. apply Hf. by right.
Qed.

Lemma stable_fold {A S} (f : S → A → txm T S) s0 xs :
  (∀ s x, x ∈ xs → stable E I (f s x)) → stable E I (fold_txm f s0 xs).
Proof.
  revert s0. induction xs as [|x xs IH]; intros s0 Hf; simpl; [apply stable_ret|].
  apply stable_bind; [apply Hf; by left|]. intros s1. apply IH. intros s y Hy. apply Hf. by right.
Qed.

Lemma stable_loop {S B} (f : S → txm T (S + B)) s0 :
  E OutOfFuel → (∀ s, stable E I (f s)) → stable E I (loop f s0).
Proof.
  intros HE Hf. unfold loop. assert (∀ n s, stable E I (loop_upto n f s)) as Hn.
  { clear s0. induction n as [|n IH]; intros s; simpl; [apply Hf|].
    apply stable_bind; [apply IH|]. intros [s'|b]; [apply IH|apply stable_ret]. }
  apply stable_bind; [apply Hn|]. intros [s'|b]; [by apply stable_fail|apply stable_ret].
Qed.
End stable_rules.

Create HintDb stable.

(** The errors an operation may end with. *)
Class AllowsLimit (E : error → Prop) := allows_limit op n : E (SetScanLimitExceeded op n).
Class AllowsFuel (E : error → Prop) := allows_fuel : E OutOfFuel.

Ltac stable_step :=
  match goal with
  | |- stable _ _ (mret _) => apply stable_ret
  | |- stable _ _ (asks _) => apply stable_asks
  | |- stable _ _ _ => solve [eauto with stable typeclass_instances nocore]
  | |- stable _ _ (_ ≫= _) => apply stable_bind; [|intros ?]
  | |- stable _ _ (for_each _ _) => apply stable_for_each; intros ? ?
  | |- stable _ _ (find_first _ _) => apply stable_find_first; intros ? ?
  | |- stable _ _ (fold_txm _ _ _) => apply stable_fold; intros ? ? ?
  | |- stable _ _ (loop _ _) => apply stable_loop; [apply allows_fuel|intros ?]
  | |- stable _ _ (match ?x with _ => _ end) => destruct x
  | |- stable _ _ (let '_ := ?x in _) => destruct x
  end.
Ltac solve_stable := intros; repeat stable_step.

(** ** The stored records *)

(** The families and keys the engine reads as records. *)
Definition readable (c : cf) (k : bytes) : bool :=
  match c with
  | CF_WRITE_LOCKS | CF_READ_LOCKS | CF_SEMAPHORE | CF_DESC_WRITE | CF_DESC_READ
  | CF_OWNER_HOLDS | CF_FENCES | CF_OWNER_ALIVE | CF_WAIT_EDGES | CF_NAMESPACE_SETTINGS => true
  | CF_META => is_marker k || is_permits k
  | _ => false
  end.
(** Those without expiry. *)
Definition lasting_key (c : cf) (k : bytes) : bool :=
  match c with CF_OWNER_ALIVE | CF_WAIT_EDGES => false | _ => readable c k end.

(** The values the parsers of the engine accept. *)
Definition value_ok (c : cf) (k : bytes) (v : str) : Prop :=
  match c with
  | CF_META =>
      (is_marker k = true → ∃ a, v = algorithm_as_str a) ∧
      (is_permits k = true → ∃ n, is_u32 n ∧ v = to_string n)
  | CF_NAMESPACE_SETTINGS => ∃ p, is_u64 (epoch p) ∧ v = namespace_policy_value p
  | _ => True
  end.

Definition set_family (c : cf) : bool :=
  match c with
  | CF_READ_LOCKS | CF_SEMAPHORE | CF_DESC_WRITE | CF_DESC_READ | CF_OWNER_HOLDS => true
  | _ => false
  end.

Section sane.
Context `{!Bincode StoredRecord}.

Definition record_ok (c : cf) (k : bytes) (b : bytes) : Prop :=
  readable c k = true → ∃ v exp, decode_record b = Ok (Str v exp) ∧
    (lasting_key c k = true → exp = 0) ∧ value_ok c k v.
Definition sane (s : Kv) : Prop :=
  ∀ c k b, cf_map s c !! k = Some b → record_ok c k b.

Section prims.
Context (E : error → Prop).

Lemma stable_put_raw c k b : record_ok c k b → stable E sane (kv_put_raw c k b).
Proof.
  intros Hb s Hs. unfold kv_put_raw, wp. intros c' k' b'. rewrite cf_map_upd.
  case_decide as Hc; [subst c'|by apply Hs].
  destruct (decide (k = k')) as [->|Hne].
  - rewrite lookup_insert_eq. by intros [= <-].
  - rewrite lookup_insert_ne by done. by apply Hs.
Qed.

Lemma stable_delete_raw c k : stable E sane (kv_delete_raw c k).
Proof.
  intros s Hs. unfold kv_delete_raw, wp. intros c' k' b'. rewrite cf_map_upd.
  case_decide as Hc; [subst c'|by apply Hs]. rewrite lookup_delete_Some.
  intros [_ ?]. by eapply Hs.
Qed.

Lemma stable_get_raw c k : stable E sane (kv_get_raw c k).
Proof. by intros s Hs. Qed.

Lemma stable_put_expiring c k mk ttl :
  record_ok c k (encode_record (mk 0)) →
  (lasting_key c k = false → ∀ e, record_ok c k (encode_record (mk e))) →
  ttl = 0 ∨ lasting_key c k = false →
  stable E sane (put_expiring kv_now kv_put_raw c k mk ttl).
Proof.
  intros H0 He Hc. unfold put_expiring, write_expiry. apply stable_bind; [apply stable_asks|].
  intros n. apply stable_bind.
  - apply stable_put_raw. destruct Hc as [->|Hc]; [done|by apply He].
  - intros _. destruct (0 <? ttl); [|apply stable_ret].
    apply stable_bind; [apply stable_asks|]. intros n'. by apply stable_put_raw.
Qed.

Lemma stable_set_str c k v ttl :
  value_ok c k v → ttl = 0 ∨ lasting_key c k = false → stable E sane (set_str c k v ttl).
Proof.
  intros Hv Hc. apply stable_put_expiring; [| |done].
  - intros _. exists v, 0. by rewrite decode_encode.
  - intros Hl e _. exists v, e. rewrite decode_encode. split_and!; [done|congruence|done].
Qed.

Lemma stable_sadd c k v : set_family c = true → stable E sane (sadd c k v 0).
Proof.
  intros Hc. apply stable_put_expiring; [| |by left].
  - intros _. exists v, 0. rewrite decode_encode. split_and!; [done|done|]. by destruct c.
  - intros Hl. by destruct c.
Qed.

(** Reads: the record is there and decodes. *)
Lemma wp_sane_get_str c k (Q : option str → Kv → Prop) s :
  readable c k = true → sane s → Q None s → (∀ v, value_ok c k v → Q (Some v) s) →
  wp E (get_str c k) Q s.
Proof.
  intros Hr Hs HN HS. cbn [get_str kv_store]. unfold w_get_str.
  apply wp_bind. unfold asks, wp at 1. apply wp_bind. unfold kv_get_raw, wp at 1.
  destruct (cf_map s c !! k) as [b|] eqn:Hb; [|by apply wp_ret].
  destruct (Hs c k b Hb Hr) as (v & exp & Hd & _ & Hv). rewrite Hd.
  unfold lift, wp, mbind, txm_bind, live_str, mret, txm_ret. destruct (expired exp _); auto.
Qed.

Lemma stable_get_str c k : readable c k = true → stable E sane (get_str c k).
Proof. intros Hr s Hs. by apply wp_sane_get_str. Qed.

Lemma stable_del c k : stable E sane (del c k).
Proof. apply stable_delete_raw. Qed.
Lemma stable_srem c k m : stable E sane (srem c k m).
Proof. apply stable_delete_raw. Qed.

Lemma stable_sismember c k m : set_family c = true → stable E sane (sismember c k m).
Proof.
  intros Hc s Hs. cbn [sismember kv_store]. unfold w_sismember.
  apply wp_bind. unfold asks, wp at 1. apply wp_bind. unfold kv_get_raw, wp at 1.
  destruct (cf_map s c !! _) as [b|] eqn:Hb; [|by apply wp_ret].
  destruct (Hs _ _ b Hb) as (v & exp & Hd & _); [by destruct c|]. by rewrite Hd.
Qed.

(** Scans of a set decode every entry they visit. *)
Lemma visit_all_ok {S : Type} (visit : visitor S) (F : error → Prop) l st :
  (∀ k b st e, (k, b) ∈ l → visit k b st = Err e → F e) →
  match visit_all visit st l with Ok _ => True | Err e => F e end.
Proof.
  revert st. induction l as [|[k b] l IH]; intros st Hv; simpl; [done|].
  destruct (visit k b st) as [[st' []]|e] eqn:Hvis; [|done|].
  - apply IH. intros k' b' st'' e Hin. apply Hv. by right.
  - eapply Hv; [by left|done].
Qed.

Lemma range_decodes s c start upper k b :
  sane s → set_family c = true → (k, b) ∈ kv_range s c start upper →
  ∃ v exp, decode_record b = Ok (Str v exp).
Proof.
  intros Hs Hc [Hb _]%btree_range_elem. destruct (Hs c k b Hb) as (v & exp & Hd & _); [|eauto].
  by destruct c.
Qed.

Lemma wp_sane_scan {S : Type} c start prefix (visit : visitor S) (Q : S → Kv → Prop) s s0 :
  sane s → set_family c = true →
  (∀ k b st v exp, decode_record b = Ok (Str v exp) → ∃ r, visit k b st = Ok r) →
  (∀ st, Q st s) → wp E (kv_scan_prefix c start prefix visit s0) Q s.
Proof.
  intros Hs Hc Hv HQ. unfold kv_scan_prefix, kv_scan. apply wp_lift; [done|].
  intros e He. pose proof (visit_all_ok visit (λ _, False)
    (kv_range s c (Some start) (prefix_upper_bound prefix)) s0) as Hok.
  rewrite He in Hok. destruct Hok. intros k b st e' Hin Hvis.
  destruct (range_decodes s c _ _ k b Hs Hc Hin) as (v & exp & Hd).
  destruct (Hv k b st v exp Hd) as [r Hr]. congruence.
Qed.

Lemma stable_smembers_limited c k n :
  AllowsLimit E → set_family c = true → stable E sane (smembers_limited c k n).
Proof.
  intros HE Hc s Hs. cbn [smembers_limited kv_store]. unfold kv_smembers_limited.
  apply wp_bind. unfold asks, wp at 1. apply wp_bind. apply wp_sane_scan; [done|done|..].
  - intros k' b [[ms raw] ex] v exp Hd. unfold smembers_limited_visit. rewrite Hd.
    repeat case_match; eauto.
  - intros [[ms raw] ex]. unfold smembers_limited_result. apply wp_lift; [done|].
    destruct ex; intros e [= <-]. apply allows_limit.
Qed.

Lemma stable_smembers_page c k cur n : set_family c = true → stable E sane (smembers_page c k cur n).
Proof.
  intros Hc s Hs. cbn [smembers_page kv_store]. unfold kv_smembers_page.
  apply wp_bind. unfold asks, wp at 1. apply wp_bind. apply wp_sane_scan; [done|done|..].
  - intros k' b [[ms raw] ex] v exp Hd. unfold smembers_page_visit. rewrite Hd.
    repeat case_match; eauto.
  - intros [[ms raw] ex]. by apply wp_ret.
Qed.

Lemma stable_has_live_member c k : set_family c = true → stable E sane (has_live_member c k).
Proof.
  intros Hc s Hs. cbn [has_live_member kv_store]. unfold kv_has_live_member.
  apply wp_bind. unfold asks, wp at 1. apply wp_sane_scan; [done|done|..|done].
  intros k' b st v exp Hd. unfold has_live_member_visit. rewrite Hd.
  repeat case_match; eauto.
Qed.
End prims.
End sane.
#[export] Hint Resolve stable_sadd stable_get_str stable_del stable_srem stable_sismember
  stable_smembers_limited stable_smembers_page stable_has_live_member stable_delete_raw
  stable_get_raw : stable.
#[export] Hint Extern 1 (readable _ _ = true) => reflexivity : stable.
#[export] Hint Extern 1 (set_family _ = true) => reflexivity : stable.

(** ** The engine keeps [sane] *)

Lemma policy_roundtrip p :
  is_u64 (epoch p) → parse_namespace_policy_value (namespace_policy_value p) = Ok p.
Proof.
  intros He. unfold parse_namespace_policy_value, namespace_policy_value. cbn [splitn].
  rewrite split_once_app by (apply to_string_no_byte; [|done];
    by apply (bool_decide_eq_true_1 (c_colon ∉ bs "0123456789"))). cbn [splitn].
  unfold parse_u64. rewrite parse_unsigned_to_string by apply He.
  rewrite algorithm_roundtrip. by destruct p.
Qed.

Section engine_stable.
Context `{!Bincode StoredRecord} (E : error → Prop).

(** Families with unconstrained values. *)
Lemma stable_set_lock c k v :
  bool_decide (c = WR_CF ∨ c = FENCE_CF) = true → stable E sane (set_str c k v 0).
Proof. intros [->| ->]%bool_decide_eq_true; (apply stable_set_str; [done|by left]). Qed.
Lemma stable_set_leased c k v ttl :
  bool_decide (c = ALIVE_CF ∨ c = WAIT_CF) = true → stable E sane (set_str c k v ttl).
Proof. intros [->| ->]%bool_decide_eq_true; (apply stable_set_str; [done|by right]). Qed.
Hint Resolve stable_set_lock stable_set_leased : stable.
Hint Extern 1 (bool_decide _ = true) => reflexivity : stable.

Lemma stable_pexpire_str k ttl : stable E sane (pexpire_str ALIVE_CF k ttl).
Proof.
  change (stable E sane (v ← get_str ALIVE_CF k;
    match v with Some v => set_str ALIVE_CF k v ttl | None => mret tt end)).
  solve_stable.
Qed.
Hint Resolve stable_pexpire_str : stable.

Lemma stable_owner_alive o :
  stable E sane (owner_alive o).
Proof. unfold owner_alive. solve_stable. Qed.
Hint Resolve stable_owner_alive : stable.

Lemma stable_hold_algorithm o m p : stable E sane (hold_algorithm o m p).
Proof.
  intros s Hs. unfold hold_algorithm. apply wp_bind, wp_sane_get_str; [done|done|done|].
  intros v [Hv _]. destruct Hv as [a ->]; [done|]. by rewrite algorithm_roundtrip.
Qed.
Hint Resolve stable_hold_algorithm : stable.

Lemma stable_set_hold_algorithm o m p a : stable E sane (set_hold_algorithm o m p a 0).
Proof. apply stable_set_str; [|by left]. split; [by exists a|done]. Qed.
Hint Resolve stable_set_hold_algorithm : stable.

Lemma stable_del_hold_algorithm o m p :
  stable E sane (del_hold_algorithm o m p).
Proof. unfold del_hold_algorithm. solve_stable. Qed.
Hint Resolve stable_del_hold_algorithm : stable.

Lemma stable_semaphore_capacity p : stable E sane (semaphore_capacity p).
Proof.
  intros s Hs. unfold semaphore_capacity. apply wp_bind, wp_sane_get_str; [done|done|done|].
  intros v [_ Hv]. destruct Hv as (n & Hn & ->); [done|].
  unfold parse_u32. by rewrite parse_unsigned_to_string by apply Hn.
Qed.

Lemma stable_set_semaphore_capacity p n :
  is_u32 n → stable E sane (set_semaphore_capacity p n).
Proof. intros Hn. apply stable_set_str; [|by left]. split; [done|by exists n]. Qed.
Hint Resolve stable_set_semaphore_capacity : stable.
Hint Resolve stable_semaphore_capacity : stable.

Lemma stable_prune_owner c k m p l o :
  set_family c = true → stable E sane (prune_owner c k m p l o).
Proof. unfold prune_owner. solve_stable. Qed.
Hint Resolve stable_prune_owner : stable.

Lemma stable_prune_dead_read_owners p :
  AllowsLimit E → stable E sane (prune_dead_read_owners p).
Proof. unfold prune_dead_read_owners. solve_stable. Qed.
Hint Resolve stable_prune_dead_read_owners : stable.

Lemma stable_prune_dead_semaphore_owners p :
  AllowsLimit E → stable E sane (prune_dead_semaphore_owners p).
Proof. unfold prune_dead_semaphore_owners. solve_stable. Qed.
Hint Resolve stable_prune_dead_semaphore_owners : stable.

Lemma stable_add_descendant_indexes m p :
  stable E sane (add_descendant_indexes m p 0).
Proof. unfold add_descendant_indexes. solve_stable. Qed.
Hint Resolve stable_add_descendant_indexes : stable.

Lemma stable_remove_descendant_indexes m p :
  stable E sane (remove_descendant_indexes m p).
Proof. unfold remove_descendant_indexes. solve_stable. Qed.
Hint Resolve stable_remove_descendant_indexes : stable.

Lemma stable_get_live_write_owner p :
  stable E sane (get_live_write_owner p).
Proof. unfold get_live_write_owner. solve_stable. Qed.
Hint Resolve stable_get_live_write_owner : stable.

Lemma stable_find_descendant_write_conflict o p ns :
  AllowsLimit E → stable E sane (find_descendant_write_conflict o p ns).
Proof. unfold find_descendant_write_conflict. solve_stable. Qed.
Hint Resolve stable_find_descendant_write_conflict : stable.

Lemma stable_descendant_read_candidate o k ns p :
  AllowsLimit E → stable E sane (descendant_read_candidate o k ns p).
Proof. unfold descendant_read_candidate. solve_stable. Qed.
Hint Resolve stable_descendant_read_candidate : stable.

Lemma stable_descendant_read_loop o k ns seen l :
  AllowsLimit E → stable E sane (descendant_read_loop o k ns seen l).
Proof.
  intros HE. revert seen. induction l as [|x l IH]; intros seen; cbn [descendant_read_loop];
    solve_stable.
Qed.
Hint Resolve stable_descendant_read_loop : stable.

Lemma stable_find_descendant_read_conflict o p ns :
  AllowsLimit E → stable E sane (find_descendant_read_conflict o p ns).
Proof. unfold find_descendant_read_conflict. solve_stable. Qed.
Hint Resolve stable_find_descendant_read_conflict : stable.

Lemma stable_release_hold o m p :
  stable E sane (release_hold o m p).
Proof. unfold release_hold. solve_stable. Qed.
Hint Resolve stable_release_hold : stable.

Lemma stable_apply_release o ns r k :
  stable E sane (apply_release o ns r k).
Proof. unfold apply_release. solve_stable. Qed.
Hint Resolve stable_apply_release : stable.

Lemma stable_drop_if_empty o k k' :
  stable E sane (drop_if_empty o k k').
Proof. unfold drop_if_empty. solve_stable. Qed.
Hint Resolve stable_drop_if_empty : stable.

Lemma stable_apply_releases o ns rs k k' :
  stable E sane (apply_releases o ns rs k k').
Proof. unfold apply_releases. solve_stable. Qed.
Hint Resolve stable_apply_releases : stable.

Lemma stable_release_inner_in_namespace ns o rs b :
  stable E sane (release_inner_in_namespace ns o rs b).
Proof. unfold release_inner_in_namespace. solve_stable. Qed.
Hint Resolve stable_release_inner_in_namespace : stable.

Lemma stable_release_held_member o x :
  stable E sane (release_held_member o x).
Proof. unfold release_held_member. solve_stable. Qed.
Hint Resolve stable_release_held_member : stable.

Lemma stable_release_page_body o k cur :
  stable E sane (release_page_body o k cur).
Proof. unfold release_page_body. solve_stable. Qed.
Hint Resolve stable_release_page_body : stable.

Lemma stable_release_owner_wide o b :
  AllowsFuel E → stable E sane (release_owner_wide o b).
Proof. unfold release_owner_wide. solve_stable. Qed.
Hint Resolve stable_release_owner_wide : stable.

Lemma stable_validate_held o t r ns :
  stable E sane (validate_held o t r ns).
Proof. unfold validate_held. solve_stable. Qed.
Hint Resolve stable_validate_held : stable.

Lemma stable_validate_new_ancestors o ns p :
  stable E sane (validate_new_ancestors o ns p).
Proof. unfold validate_new_ancestors. solve_stable. Qed.
Hint Resolve stable_validate_new_ancestors : stable.

Lemma stable_validate_new_write o t p ns p' a b :
  AllowsLimit E → stable E sane (validate_new_write o t p ns p' a b).
Proof. unfold validate_new_write. solve_stable. Qed.
Hint Resolve stable_validate_new_write : stable.

Lemma stable_validate_new_semaphore o r p :
  AllowsLimit E → stable E sane (validate_new_semaphore o r p).
Proof. unfold validate_new_semaphore. solve_stable. Qed.
Hint Resolve stable_validate_new_semaphore : stable.

Lemma stable_validate_new o t r ns pol :
  AllowsLimit E → stable E sane (validate_new o t r ns pol).
Proof. unfold validate_new. solve_stable. Qed.
Hint Resolve stable_validate_new : stable.

Lemma stable_validate_acquire o t rs ns pol :
  AllowsLimit E → stable E sane (validate_acquire o t rs ns pol).
Proof. unfold validate_acquire. solve_stable. Qed.
Hint Resolve stable_validate_acquire : stable.

Lemma stable_refresh_portfolio k t :
  stable E sane (refresh_portfolio k t).
Proof. unfold refresh_portfolio. solve_stable. Qed.
Hint Resolve stable_refresh_portfolio : stable.

Lemma stable_write_hold o p t :
  stable E sane (write_hold o p t).
Proof. unfold write_hold. solve_stable. Qed.
Hint Resolve stable_write_hold : stable.

Lemma stable_apply_write_acquire o p st p' t :
  stable E sane (apply_write_acquire o p st p' t).
Proof. unfold apply_write_acquire. solve_stable. Qed.
Hint Resolve stable_apply_write_acquire : stable.

Lemma stable_apply_semaphore_acquire r p :
  is_u32 (lr_permits r) → stable E sane (apply_semaphore_acquire r p).
Proof. unfold apply_semaphore_acquire. solve_stable. Qed.
Hint Resolve stable_apply_semaphore_acquire : stable.

Lemma stable_apply_read_acquire o p :
  stable E sane (apply_read_acquire o p).
Proof. unfold apply_read_acquire. solve_stable. Qed.
Hint Resolve stable_apply_read_acquire : stable.

Lemma stable_apply_acquire r ctx :
  is_u32 (lr_permits r) → stable E sane (apply_acquire r ctx).
Proof. unfold apply_acquire. solve_stable. Qed.
Hint Resolve stable_apply_acquire : stable.

Lemma stable_acquire_inner_in_namespace args pol ns :
  AllowsLimit E → AllowsFuel E → (∀ req, req ∈ requests args → is_u32 (lr_permits req)) →
  stable E sane (acquire_inner_in_namespace args pol ns).
Proof. unfold acquire_inner_in_namespace. solve_stable. Qed.
Hint Resolve stable_acquire_inner_in_namespace : stable.

Lemma stable_renew_inner o ttl :
  stable E sane (renew_inner o ttl).
Proof. unfold renew_inner. solve_stable. Qed.
Hint Resolve stable_renew_inner : stable.

Lemma stable_request_revoke_inner o ttl :
  stable E sane (request_revoke_inner o ttl).
Proof. unfold request_revoke_inner. solve_stable. Qed.
Hint Resolve stable_request_revoke_inner : stable.

Lemma stable_assert_fencing_inner ns o t ps :
  stable E sane (assert_fencing_inner ns o t ps).
Proof. unfold assert_fencing_inner. solve_stable. Qed.
Hint Resolve stable_assert_fencing_inner : stable.

Lemma stable_is_blocking_inner ns p o r :
  stable E sane (is_blocking_inner ns p o r).
Proof. unfold is_blocking_inner. solve_stable. Qed.
Hint Resolve stable_is_blocking_inner : stable.

Lemma stable_set_wait_edge_inner o o' ttl md :
  stable E sane (set_wait_edge_inner o o' ttl md).
Proof. unfold set_wait_edge_inner. solve_stable. Qed.
Hint Resolve stable_set_wait_edge_inner : stable.

Lemma stable_clear_wait_edge_inner o :
  stable E sane (clear_wait_edge_inner o).
Proof. unfold clear_wait_edge_inner. solve_stable. Qed.
Hint Resolve stable_clear_wait_edge_inner : stable.

Lemma wp_policy_record ns d (Q : LockPolicy * bool → Kv → Prop) s :
  sane s → Q (from_algorithm d, false) s → (∀ p, is_u64 (epoch p) → Q (p, true) s) →
  wp E (get_namespace_policy_record_inner ns d) Q s.
Proof.
  intros Hs HN HS. unfold get_namespace_policy_record_inner.
  apply wp_bind, wp_sane_get_str; [done|done|done|].
  intros v (p & Hp & ->). rewrite policy_roundtrip by done. by apply HS.
Qed.

Lemma stable_get_namespace_policy_record_inner ns d :
  stable E sane (get_namespace_policy_record_inner ns d).
Proof. intros s Hs. by apply wp_policy_record. Qed.
Hint Resolve stable_get_namespace_policy_record_inner : stable.

Lemma stable_set_namespace_policy_inner ns a :
  stable E sane (set_namespace_policy_inner ns a).
Proof.
  intros s Hs. unfold set_namespace_policy_inner. apply wp_bind.
  assert (∀ cur b, is_u64 (epoch cur) → wp E
    (let next_epoch := if b && bool_decide (algorithm cur = a)
                       then epoch cur else saturating_add (epoch cur) 1 in
     set_str NS_SETTINGS_CF (namespace_policy_key ns)
       (namespace_policy_value {| algorithm := a; epoch := next_epoch |}) 0;;
     mret next_epoch) (λ _ s', sane s') s) as H.
  { intros cur b Hcur. cbn zeta.
    set (e := if b && bool_decide (algorithm cur = a) then epoch cur
              else saturating_add (epoch cur) 1).
    assert (is_u64 e) as He.
    { unfold e, saturating_add, is_u64, u64_max in *. destruct (b && _); lia. }
    apply wp_bind. eapply wp_mono; [apply stable_set_str; [by exists {| algorithm := a; epoch := e |}|by left|done]|].
    intros [] s' Hs'. by apply wp_ret. }
  apply wp_policy_record; [done|apply (H _ false)|intros p Hp; by apply (H p true)].
  by unfold is_u64, u64_max.
Qed.
Hint Resolve stable_set_namespace_policy_inner : stable.

Lemma stable_delete_namespace_policy_inner ns :
  stable E sane (delete_namespace_policy_inner ns).
Proof. unfold delete_namespace_policy_inner. solve_stable. Qed.
Hint Resolve stable_delete_namespace_policy_inner : stable.

Lemma stable_keep_alive_owner l o :
  stable E sane (keep_alive_owner l o).
Proof. unfold keep_alive_owner. solve_stable. Qed.
Hint Resolve stable_keep_alive_owner : stable.

Lemma stable_inspect_path_inner ns p :
  AllowsLimit E → stable E sane (inspect_path_inner ns p).
Proof. unfold inspect_path_inner. solve_stable. Qed.
Hint Resolve stable_inspect_path_inner : stable.

Lemma stable_list_owner_locks_inner o :
  AllowsLimit E → stable E sane (list_owner_locks_inner o).
Proof. unfold list_owner_locks_inner. solve_stable. Qed.
Hint Resolve stable_list_owner_locks_inner : stable.

End engine_stable.
#[export] Hint Resolve stable_pexpire_str stable_set_lock stable_set_leased
  stable_set_semaphore_capacity stable_owner_alive stable_hold_algorithm
  stable_set_hold_algorithm stable_del_hold_algorithm stable_semaphore_capacity
  stable_prune_owner stable_prune_dead_read_owners stable_prune_dead_semaphore_owners
  stable_add_descendant_indexes stable_remove_descendant_indexes stable_get_live_write_owner
  stable_find_descendant_write_conflict stable_descendant_read_candidate
  stable_descendant_read_loop stable_find_descendant_read_conflict stable_release_hold
  stable_apply_release stable_drop_if_empty stable_apply_releases
  stable_release_inner_in_namespace stable_release_held_member stable_release_page_body
  stable_release_owner_wide stable_validate_held stable_validate_new_ancestors
  stable_validate_new_write stable_validate_new_semaphore stable_validate_new
  stable_validate_acquire stable_refresh_portfolio stable_write_hold stable_apply_write_acquire
  stable_apply_semaphore_acquire stable_apply_read_acquire stable_apply_acquire
  stable_acquire_inner_in_namespace stable_renew_inner stable_request_revoke_inner
  stable_assert_fencing_inner stable_is_blocking_inner stable_set_wait_edge_inner
  stable_clear_wait_edge_inner stable_get_namespace_policy_record_inner
  stable_set_namespace_policy_inner stable_delete_namespace_policy_inner stable_keep_alive_owner
  stable_inspect_path_inner stable_list_owner_locks_inner : stable.
#[export] Hint Extern 1 (bool_decide _ = true) => reflexivity : stable.
