(* ===== verification/EngineSteps.v ===== *)
(** * The engine as a transition system

    The steps of one lock group: an engine operation, or the clock moving on.
    Every reachable store is [sane] and its lock state is [good]. *)

From Stdlib Require Import ZArith NArith Lia Strings.Byte.
From stdpp Require Import sorting countable base numbers gmap strings list.
From S2P Require Import Prelude RustStd StoreKeys Store StoreScan StoreSim EngineTypes Engine.
From S2P Require Import KvView EngineView EngineInv EngineValidate EngineAcquire EngineApply.
From S2P Require Import EngineOps EngineRelease EngineGrant EngineRest EngineSafe.
Local Open Scope Z_scope.

Section steps.
Context `{!Bincode StoredRecord} (semp : str → bool).
Local Abbreviation good := (good semp).

(** ** The passing of time *)

Definition at_time (n : Z) (s : Kv) : Kv := {| kv_now := n; kv_data := kv_data s |}.

Lemma view_at_lasting n s c k :
  sane s → lasting_key c k = true → view (at_time n s) !! (c, k) = view s !! (c, k).
Proof.
  intros Hs Hk. assert (c ≠ CF_EXPIRY) as Hc by by intros ->.
  rewrite !view_lookup_live by done. change (cf_map (at_time n s) c) with (cf_map s c).
  destruct (cf_map s c !! k) as [b|] eqn:Hb; [|done]. simpl.
  assert (readable c k = true) as Hr by by destruct c.
  destruct (Hs c k b Hb Hr) as (v & exp & Hd & Hl & _). rewrite Hl in Hd by done.
  unfold live_rec. by rewrite Hd.
Qed.

Lemma good_at n s : sane s → good (view s) → good (view (at_time n s)).
Proof.
  intros Hs [HI Hok]. split.
  - apply (Inv_ext semp (view s)); [done|..].
    + intros [c k] Hi. apply view_at_lasting; [done|].
      destruct Hi as [Hi|[Hi|[Hi|[Hi|Hi]]]]; simpl in Hi; by subst.
    + intros o m p. by apply view_at_lasting.
    + intros p. by apply view_at_lasting.
  - apply (own_ok_ext (view s)); [done|]. intros [c k] Hi. apply view_at_lasting; [done|].
    destruct Hi as [Hi|[[Hi|[Hi|[Hi|Hi]]]|Hi]]; simpl in Hi; by subst.
Qed.

(** Owners only die as time passes. *)
Lemma alive_at n s o : kv_now s ≤ n → alive (view (at_time n s)) o → alive (view s) o.
Proof.
  intros Hn. unfold alive, ak. rewrite !view_lookup_live by done.
  change (cf_map (at_time n s) ALIVE_CF) with (cf_map s ALIVE_CF).
  destruct (cf_map s ALIVE_CF !! _) as [b|]; simpl; [|done].
  unfold live_rec. destruct (decode_record b) as [rec|]; [|done].
  unfold live_str. destruct rec; try done.
  destruct (expired exp (kv_now s)) eqn:He; [|done].
  by rewrite (expired_mono exp (kv_now s) n).
Qed.

(** ** Operations *)

Inductive op :=
| OpAcquire (args : AcquireArgs) (policy : LockPolicy) (namespace : str)
| OpRelease (namespace owner : str) (reqs : list RelReq) (del_wait_key : bool)
| OpReleaseAll (owner : str) (del_wait_key : bool)
| OpForceRelease (victim : str)
| OpRenew (owner : str) (ttl : Z)
| OpRevoke (owner : str) (ttl : Z)
| OpBlocking (namespace path owner : str) (reason : Reason)
| OpSetWait (owner conflict_owner : str) (ttl : Z) (md : option WaitEdgeMetadata)
| OpClearWait (owner : str)
| OpSetPolicy (namespace : str) (alg : LockAlgorithm)
| OpDeletePolicy (namespace : str).

Definition void {A} (m : txm Kv A) : txm Kv unit := m;; mret tt.

Definition run_op (x : op) : txm Kv unit :=
  match x with
  | OpAcquire args policy ns => void (acquire_inner_in_namespace args policy ns)
  | OpRelease ns o reqs w => release_inner_in_namespace ns o reqs w
  | OpReleaseAll o w => release_all_inner o w
  | OpForceRelease v => force_release_inner v
  | OpRenew o ttl => void (renew_inner o ttl)
  | OpRevoke o ttl => request_revoke_inner o ttl
  | OpBlocking ns p o r => void (is_blocking_inner ns p o r)
  | OpSetWait o b ttl md => set_wait_edge_inner o b ttl md
  | OpClearWait o => clear_wait_edge_inner o
  | OpSetPolicy ns a => void (set_namespace_policy_inner ns a)
  | OpDeletePolicy ns => delete_namespace_policy_inner ns
  end.

(** The arguments the service layer lets through. *)
Definition op_ok (x : op) : Prop :=
  match x with
  | OpAcquire args policy ns => acquire_ok semp args policy ns
  | OpRelease ns o reqs _ =>
      nul_free o ∧ ∀ req, req ∈ reqs → nul_free (scoped_path ns (rel_path req))
  | OpReleaseAll o _ | OpForceRelease o | OpRenew o _ => nul_free o
  | OpBlocking ns p o _ => nul_free (scoped_path ns p) ∧ nul_free o
  | _ => True
  end.

Lemma vwp_void {A} now (m : txm Kv A) (P : View → Prop) V :
  vwp now m (λ _, P) V → vwp now (void m) (λ _, P) V.
Proof.
  intros Hm. apply vwp_bind. eapply vwp_mono; [exact Hm|]. intros a V' HV'. by apply vwp_ret.
Qed.

(** Every operation keeps the lock state consistent. *)
Lemma vwp_run_op now x V : op_ok x → good V → vwp now (run_op x) (λ _, good) V.
Proof.
  intros Hx Hg. destruct x; cbn [run_op op_ok] in Hx |- *.
  - apply vwp_void. eapply vwp_mono; [by apply vwp_acquire|]. intros a V' Ha. apply Ha.
  - destruct Hx. eapply vwp_mono; [by apply vwp_release_inner_in_namespace|].
    by intros [] V' (? & _).
  - eapply vwp_mono; [by apply vwp_release_owner_wide|]. by intros [] V' (? & _).
  - eapply vwp_mono; [by apply vwp_release_owner_wide|]. by intros [] V' (? & _).
  - apply vwp_void. eapply vwp_mono; [by apply vwp_renew|]. by intros a V' (? & _).
  - eapply vwp_mono; [by apply vwp_request_revoke|]. by intros [] V' (? & _).
  - destruct Hx. apply vwp_void. eapply vwp_mono; [by apply vwp_is_blocking; [apply Hg|..]|].
    intros a V' [? _]. by eapply good_pruned.
  - eapply vwp_mono; [apply (vwp_side_set semp now WAIT_CF _ _ _ []); [by left|done]|].
    by intros [] V' [? _].
  - eapply vwp_mono; [apply (vwp_side_del semp now WAIT_CF _ []); [by left|done]|].
    by intros [] V' [? _].
  - apply vwp_void. eapply vwp_mono; [by apply (vwp_set_policy semp now _ _ [])|]. by intros a V' [? _].
  - eapply vwp_mono; [apply (vwp_side_del semp now NS_SETTINGS_CF _ []); [by right|done]|].
    by intros [] V' [? _].
Qed.

(** ** Which errors an operation can end with *)

Definition engine_error (e : error) : Prop :=
  e = OutOfFuel ∨ ∃ op n, e = SetScanLimitExceeded op n.
#[export] Instance engine_error_limit : AllowsLimit engine_error.
Proof. intros op n. right. eauto. Qed.
#[export] Instance engine_error_fuel : AllowsFuel engine_error.
Proof. by left. Qed.

Lemma stable_run_op x : op_ok x → stable engine_error sane (run_op x).
Proof.
  intros Hx. destruct x; unfold run_op, void; simpl in Hx;
    unfold release_all_inner, force_release_inner; try solve [solve_stable].
  apply stable_bind; [|intros ?; apply stable_ret].
  apply stable_acquire_inner_in_namespace; [apply _|apply _|].
  intros req Hreq. by apply (aok_reqs _ _ _ _ Hx).
Qed.

(** ** Reachable stores *)

Inductive step : Kv → Kv → Prop :=
| step_time n s : kv_now s ≤ n → step s (at_time n s)
| step_op x s s' : op_ok x → run_op x s = Ok (tt, s') → step s s'.

Definition empty_kv : Kv := {| kv_now := 0; kv_data := ∅ |}.

Inductive reachable : Kv → Prop :=
| reachable_init : reachable empty_kv
| reachable_step s s' : reachable s → step s s' → reachable s'.

Lemma view_empty : view empty_kv = ∅.
Proof. by apply map_eq; intros [c k]; rewrite view_lookup, lookup_empty. Qed.

Lemma good_empty : good ∅.
Proof.
  assert (∀ i, (∅ : View) !! i = None) as He by apply lookup_empty.
  assert (∀ o p, ¬ permit ∅ o p) as Hs by (intros o p; unfold permit; rewrite He; by intros []).
  assert (∀ o p, ¬ reads ∅ o p) as Hr by (intros o p; unfold reads; rewrite He; by intros []).
  assert (∀ p o, writer ∅ p ≠ Some o) as Hw by (intros p o; unfold writer; by rewrite He).
  split; split.
  - intros c k m _. by rewrite He.
  - intros p o H. by apply Hw in H.
  - intros o p H. by apply Hs in H.
  - intros o p a _. unfold hold_alg. rewrite He. by intros [= <-].
  - intros p q a b H. by apply Hw in H.
  - intros p q a b H. by apply Hw in H.
  - intros p a b H. by apply Hw in H.
  - intros q o p H. by apply Hw in H.
  - intros q o p H. by apply Hr in H.
  - intros p [|o l] Hl _ H; [done|]. exfalso. eapply Hs, (H o). by left.
  - intros p o H. by apply Hw in H.
  - intros p o H. by apply Hr in H.
  - intros p o H. by apply Hs in H.
  - intros k m. by rewrite He.
Qed.

Lemma step_inv s s' :
  step s s' → sane s → good (view s) → sane s' ∧ good (view s') ∧ kv_now s ≤ kv_now s'.
Proof.
  intros [n s1 Hn|x s1 s2 Hx Hrun] Hs Hg.
  - split_and!; [done|by apply good_at|done].
  - split.
    + pose proof (stable_run_op x Hx s1 Hs) as H. unfold wp in H. by rewrite Hrun in H.
    + destruct (wlp_run _ _ _ _ _ (vwp_run_op _ x _ Hx Hg s1 eq_refl eq_refl) Hrun) as [Hn' Hg'].
      split; [done|lia].
Qed.

Lemma reachable_inv s : reachable s → sane s ∧ good (view s).
Proof.
  induction 1 as [|s s' _ [Hs Hg] Hstep].
  - split; [|rewrite view_empty; apply good_empty]. intros c k b.
    change (cf_map empty_kv c) with (∅ : gmap bytes bytes). by rewrite lookup_empty.
  - by destruct (step_inv _ _ Hstep Hs Hg) as (? & ? & _).
Qed.
End steps.
