(* ===== verification/EngineTotal.v ===== *)
(** * The owner-wide release always finishes

    [release_owner_wide] pages through the owner's hold set while it deletes
    from it.  Every page moves the cursor past at least one stored entry, so the
    loop ends within the size of the hold-set family; no step can fail on a
    [sane] store. *)

From Stdlib Require Import ZArith NArith Lia Strings.Byte.
From stdpp Require Import sorting countable base numbers gmap strings list.
From S2P Require Import Prelude RustStd StoreKeys Store StoreScan StoreSim EngineTypes Engine.
From S2P Require Import KvView EngineView EngineSafe.
Local Open Scope Z_scope.

Section total.
Context `{!Bincode StoredRecord}.

(** ** The hold sets only shrink *)
Definition own_within (m0 : gmap bytes bytes) (s : Kv) : Prop := cf_map s OWN_CF ⊆ m0.

Lemma within_delete E m0 c k : stable E (own_within m0) (kv_delete_raw c k).
Proof.
  intros s Hs. unfold kv_delete_raw, wp, own_within. rewrite cf_map_upd.
  case_decide; [subst c; etrans; [apply delete_subseteq|done]|done].
Qed.

Lemma reads_within {A} E m0 (m : txm Kv A) :
  (∀ s, match m s with Ok (_, s') => s' = s | Err e => E e end) → stable E (own_within m0) m.
Proof. intros Hm s Hs. specialize (Hm s). unfold wp. destruct (m s) as [[a s']|e]; [by subst|done]. Qed.

Lemma within_get_str m0 c k : stable (λ _, True) (own_within m0) (get_str c k).
Proof.
  apply reads_within. intros s. cbn [get_str kv_store].
  unfold w_get_str, asks, mbind, txm_bind, kv_get_raw, lift, mret, txm_ret.
  by repeat case_match; simplify_eq.
Qed.
Lemma within_has_live_member m0 c k : stable (λ _, True) (own_within m0) (has_live_member c k).
Proof.
  apply reads_within. intros s. cbn [has_live_member kv_store].
  unfold kv_has_live_member, asks, mbind, txm_bind, kv_scan_prefix, kv_scan, lift.
  by repeat case_match; simplify_eq.
Qed.
Lemma within_lift {A} m0 (r : result A) : stable (λ _, True) (own_within m0) (lift r).
Proof. apply reads_within. intros s. by destruct r. Qed.
Lemma within_del m0 c k : stable (λ _, True) (own_within m0) (del c k).
Proof. apply within_delete. Qed.
Lemma within_srem m0 c k m : stable (λ _, True) (own_within m0) (srem c k m).
Proof. apply within_delete. Qed.
Hint Resolve within_get_str within_has_live_member within_lift within_del within_srem : stable.

Lemma within_release_item m0 o k x :
  stable (λ _, True) (own_within m0) (release_held_member o x;; srem OWN_CF k x).
Proof.
  unfold release_held_member, release_hold, hold_algorithm, del_hold_algorithm,
    remove_descendant_indexes. solve_stable.
Qed.

(** ** One page *)

Lemma wp_both {T A} (E : error → Prop) (m : txm T A) (P Q : A → T → Prop) t :
  wp E m P t → wlp m Q t → wp E m (λ a t', P a t' ∧ Q a t') t.
Proof. unfold wp. destruct (m t) as [[a t']|e]; auto. Qed.

(** The entries the loop still has ahead of it. *)
Definition ahead (start : bytes) (s : Kv) : gmap bytes bytes :=
  filter (λ x, bytes_leb start x.1 = true) (cf_map s OWN_CF).

Lemma ahead_lt start start' s s' k b :
  cf_map s' OWN_CF ⊆ cf_map s OWN_CF → bytes_leb start start' = true →
  cf_map s OWN_CF !! k = Some b → bytes_leb start k = true → bytes_ltb k start' = true →
  (size (ahead start' s') < size (ahead start s))%nat.
Proof.
  intros Hsub Hle Hk Hs Hlt. apply map_subset_size. apply map_subset_alt. split.
  - apply map_subseteq_spec. intros k' b'. unfold ahead. rewrite !map_lookup_filter_Some. simpl.
    intros [Hk' Hs']. split; [by eapply lookup_weaken|].
    apply bytes_leb_spec in Hle as [->|Hle]; [done|]. apply bytes_leb_spec in Hs' as [->|Hs'];
      apply bytes_leb_spec; right; [done|by eapply bytes_ltb_trans].
  - exists k. split.
    + unfold ahead. apply map_lookup_filter_None. right. intros b' _. simpl.
      unfold bytes_leb. by rewrite Hlt.
    + exists b. unfold ahead. by apply map_lookup_filter_Some.
Qed.

Context (o : str).
Let pfx : bytes := member_prefix (own_prefix o).
Let from (cursor : option bytes) : bytes := default pfx cursor.

Lemma wp_release_page E cursor s :
  sane s → pfx `prefix_of` from cursor →
  wp E (release_page_body o (own_prefix o) cursor)
    (λ r s', sane s' ∧ match r with
       | inl c => pfx `prefix_of` from c ∧
                  (size (ahead (from c) s') < size (ahead (from cursor) s))%nat
       | inr _ => True
       end) s.
Proof.
  intros Hs Hpfx. unfold release_page_body. apply wp_bind.
  cbn [smembers_page kv_store]. unfold kv_smembers_page.
  apply wp_bind. unfold asks, wp at 1. apply wp_bind.
  unfold kv_scan_prefix, kv_scan. apply wp_lift; last first.
  { intros e He. pose proof (visit_all_ok
      (smembers_page_visit (member_prefix (own_prefix o)) RELEASE_PAGE (kv_now s)) (λ _, False)
      (kv_range s OWN_CF (Some (default pfx cursor)) (prefix_upper_bound pfx)) ([], 0, None)) as Hok.
    unfold pfx in Hok. rewrite He in Hok. destruct Hok. intros k b [[ms raw] nx] e' Hin Hvis.
    destruct (range_decodes s OWN_CF _ _ k b Hs eq_refl Hin) as (v & exp & Hd).
    unfold smembers_page_visit in Hvis. rewrite Hd in Hvis. by repeat case_match. }
  intros [[ms raw] next] Hv. apply wp_ret.
  assert (bytes_leb pfx (from cursor) = true) as Hle by by apply bytes_leb_prefix.
  apply page_visit_all in Hv as (l1 & l2 & Heq & _ & Hnext); [| |done];
    [|by apply (prefix_entries_prefixed s OWN_CF (from cursor) (own_prefix o))].
  apply wp_bind. eapply wp_mono.
  { apply wp_both.
    - apply (stable_for_each E sane ms); [|exact Hs]. intros x _. solve_stable.
    - apply (stable_for_each (λ _, True) (own_within (cf_map s OWN_CF)) ms); [|by unfold own_within].
      intros x _. apply within_release_item. }
  intros [] s' [Hs' Hsub]. apply wp_ret. split; [done|]. destruct next as [c|]; [|done].
  destruct Hnext as (Hlen & v & l2' & ->). rewrite Z.add_0_l in Hlen.
  destruct l1 as [|[k b] l1]; [done|].
  fold pfx in Heq. fold (from cursor) in Heq.
  pose proof (btree_range_sorted (Some (from cursor)) (prefix_upper_bound pfx)
    (cf_map s OWN_CF)) as Hsort. unfold kv_range in Heq. rewrite Heq in Hsort.
  assert (∀ k b, (k, b) ∈ btree_range (Some (from cursor)) (prefix_upper_bound pfx) (cf_map s OWN_CF) →
    cf_map s OWN_CF !! k = Some b ∧ pfx `prefix_of` k ∧ bytes_leb (from cursor) k = true) as Hel.
  { intros k' b' Hin. by apply (prefix_entries_elem s OWN_CF (from cursor) (own_prefix o)) in Hin. }
  rewrite Heq in Hel.
  destruct (Hel k b) as (Hk & _ & Hkle); [by left|].
  destruct (Hel c v) as (_ & Hcp & Hcle); [set_solver|].
  split; [done|]. simpl. apply (ahead_lt _ _ _ _ k b); [exact Hsub|done|done|done|].
  apply StronglySorted_app in Hsort as (Hlt & _ & _).
  apply (Hlt (k, b) (c, v)); [by left|by left].
Qed.

(** ** The loop *)
Lemma wp_release_owner_wide E del_wait s :
  sane s → Z.of_nat (size (cf_map s OWN_CF)) < 2 ^ 64 →
  wp E (release_owner_wide o del_wait) (λ _ s', sane s') s.
Proof.
  intros Hs Hsize. unfold release_owner_wide. apply wp_bind.
  apply (wp_loop E _ (λ c t, sane t ∧ pfx `prefix_of` from c)
    (λ c t, size (ahead (from c) t))).
  - intros c t [Ht Hc]. eapply wp_mono; [by apply wp_release_page|].
    intros [c'|[]] t' [Ht' Hr]; [tauto|]. assert (stable E sane (del ALIVE_CF (alive_key o);;
      del ALIVE_CF (revoke_key o);;
      if del_wait then del WAIT_CF (wait_key o) else mret tt)) as Htail by solve_stable.
    by apply Htail.
  - by split.
  - left. assert (size (ahead (from None) s) ≤ size (cf_map s OWN_CF))%nat; [|lia].
    apply map_subseteq_size, map_filter_subseteq.
Qed.
End total.
