(* ===== verification/EngineTheorems.v ===== *)
(** * What the lock engine guarantees

    The theorems about [src/engine.rs]: exclusion and capacity in every
    reachable store, what a grant gives, fencing, what releases free, isolation
    between owners, totality of the owner-wide release and the possible errors.
    Each theorem with hypotheses is applied to a concrete run. *)

From Stdlib Require Import ZArith NArith Lia Strings.Byte.
From stdpp Require Import sorting countable base numbers gmap strings list.
From S2P Require Import Prelude RustStd StoreKeys Store StoreScan StoreSim EngineTypes Engine.
From S2P Require Import KvView EngineView EngineInv EngineValidate EngineAcquire EngineApply.
From S2P Require Import EngineOps EngineRelease EngineGrant EngineRest EngineSafe EngineSteps.
From S2P Require Import EngineTotal Instances.
Local Open Scope Z_scope.

(** ** Auxiliary definitions and lemmas *)

(** [o] holds the lock on [p] in mode [m], taken under algorithm [a]. *)
Definition lock_held (V : View) (o : str) (m : Mode) (p : str) (a : LockAlgorithm) : Prop :=
  match m with Write => writer V p = Some o | Read => reads V o p end ∧
  hold_alg V o m p = Some a.

Section lemmas.
Context `{!Bincode StoredRecord} (semp : str → bool).

Lemma vwp_run {A} (m : txm Kv A) (Q : A → View → Prop) s a s' :
  vwp (kv_now s) m Q (view s) → m s = Ok (a, s') → kv_now s' = kv_now s ∧ Q a (view s').
Proof. intros H Hm. apply (wlp_run _ _ _ _ _ (H s eq_refl eq_refl) Hm). Qed.

Lemma wp_total {A} (m : txm Kv A) (Q : A → Kv → Prop) s :
  wp (λ _, False) m Q s → ∃ a s', m s = Ok (a, s') ∧ Q a s'.
Proof. unfold wp. destruct (m s) as [[a s']|e]; [eauto|done]. Qed.

Lemma reachable_good s : reachable semp s → good semp (view s).
Proof. intros H. by apply reachable_inv in H as [_ ?]. Qed.
Lemma reachable_sane s : reachable semp s → sane s.
Proof. intros H. by apply reachable_inv in H as [? _]. Qed.

(** A recursive writer admits nobody else below it. *)
Lemma below_recursive V a b pa m pb alga algb :
  Inv semp V → lock_held V a Write pa alga → lock_held V b m pb algb →
  pa ∈ get_ancestors pb → recursive alga = true → a = b.
Proof.
  intros HI [Hw Ha] [Hb _] Hanc Hrec. assert (rec_hold V a pa) by by exists alga.
  destruct m; [by eapply (inv_excl_ww _ _ HI pa pb)|by eapply (inv_excl_wr _ _ HI pa pb)].
Qed.

Lemma locks_conflict_holds V a b ma mb pa pb alga algb :
  Inv semp V → lock_held V a ma pa alga → lock_held V b mb pb algb → a ≠ b →
  locks_conflict alga pa ma algb pb mb = false.
Proof.
  intros HI Ha Hb Hne. unfold locks_conflict. destruct (_ || _) eqn:Hallow; [done|clear Hallow].
  case_bool_decide as Hp; [subst pb|].
  { destruct Ha as [Ha _], Hb as [Hb _]. destruct ma, mb; try done; exfalso; apply Hne.
    - congruence.
    - by eapply (inv_point _ _ HI pa).
    - symmetry. by eapply (inv_point _ _ HI pa). }
  unfold is_strict_ancestor. case_bool_decide as Hab.
  { destruct ma; [|done]. destruct (recursive alga) eqn:Hrec; [|done].
    destruct Hne. by eapply (below_recursive V a b pa mb pb). }
  case_bool_decide as Hba; [|done].
  destruct mb; [|done]. destruct (recursive algb) eqn:Hrec; [|done].
  destruct Hne. symmetry. by eapply (below_recursive V b a pb ma pa).
Qed.

(** [assert_fencing_inner] answers from the lock state. *)
Lemma vwp_assert_fencing now ns o tok paths V :
  vwp now (assert_fencing_inner ns o tok paths)
    (λ r V', V' = V ∧
       (r = AssertOk ↔ (paths ≠ [] → alive V o) ∧ ∀ path, path ∈ paths →
          writer V (scoped_path ns path) = Some o ∧
          V !! fk (scoped_path ns path) = Some (to_string tok))) V.
Proof using Type.
  clear semp. unfold assert_fencing_inner. apply vwp_bind.
  apply (vwp_mono _ _ (λ d V', V' = V ∧ (d = None ↔ (paths ≠ [] → alive V o)))).
  { destruct paths as [|p0 paths]; [by apply vwp_ret|].
    apply vwp_bind, vwp_owner_alive, vwp_ret. split; [done|].
    case_bool_decide as Ha; [done|]. split; [done|]. intros H. destruct Ha. by apply H. }
  intros d V' [-> Hd]. destruct d as [p0|].
  { apply vwp_ret. split; [done|]. split; [done|]. intros [H _]. by apply Hd in H. }
  apply vwp_bind. apply (vwp_mono _ _ (λ r V', V' = V ∧
    match r with
    | None => ∀ path, path ∈ paths → writer V (scoped_path ns path) = Some o ∧
        V !! fk (scoped_path ns path) = Some (to_string tok)
    | Some x => x ≠ AssertOk ∧ ∃ path, path ∈ paths ∧ ¬ (writer V (scoped_path ns path) = Some o ∧
        V !! fk (scoped_path ns path) = Some (to_string tok))
    end)).
  - apply (vwp_find_first now paths _ (λ pre V', V' = V ∧ ∀ path, path ∈ pre →
      writer V (scoped_path ns path) = Some o ∧
      V !! fk (scoped_path ns path) = Some (to_string tok))); [split; [done|set_solver]| |done].
    intros pre path post V' Heq [-> Hpre]. apply vwp_bind, vwp_get_str; [done|].
    assert (path ∈ paths) as Hin by (rewrite Heq; set_solver).
    case_bool_decide as Hw; cbn [negb].
    2: { apply vwp_ret. split; [done|]. split; [done|]. exists path. split; [done|].
         by intros [? _]. }
    apply vwp_bind, vwp_get_str; [done|]. apply vwp_ret.
    case_bool_decide as Hf; cbn [negb]; (split; [done|]).
    + intros q [Hq|Hq]%elem_of_app; [by apply Hpre|].
      apply list_elem_of_singleton in Hq as ->. by split.
    + split; [done|]. exists path. split; [done|]. by intros [_ ?].
  - intros r V' [-> Hr]. apply vwp_ret. split; [done|]. destruct r as [x|]; simpl.
    + destruct Hr as [Hx (path & Hin & Hno)]. split; [by intros ->|].
      intros [_ H]. by destruct Hno; apply H.
    + split; [intros _|done]. split; [by apply Hd|done].
Qed.

(** An acquire fails only by exceeding an enumeration limit. *)
Definition limit_error (e : error) : Prop := ∃ op n, e = SetScanLimitExceeded op n.
#[local] Instance limit_error_limit : AllowsLimit limit_error.
Proof. intros op n. by exists op, n. Qed.

Lemma wp_acquire_errors args pol ns s :
  sane s → Z.of_nat (size (cf_map s OWN_CF)) < 2 ^ 64 →
  (∀ req, req ∈ requests args → is_u32 (lr_permits req)) →
  wp limit_error (acquire_inner_in_namespace args pol ns) (λ _ s', sane s') s.
Proof.
  intros Hs Hsize Hreqs. unfold acquire_inner_in_namespace.
  destruct (_ && _); [by apply wp_ret|].
  apply wp_bind, wp_sane_get_str; [done|done|..]; intros; cbn zeta; destruct (_ && _).
  all: try by apply wp_ret.
  all: apply wp_bind; apply (wp_mono _ _ (λ _ s', sane s'));
    [destruct (_ && _); [by apply wp_release_owner_wide|by apply wp_ret]|].
  all: intros [] s' Hs'; clear Hs Hsize; revert s' Hs'.
  all: lazymatch goal with |- ∀ s', sane s' → wp limit_error ?m _ s' =>
         change (stable limit_error sane m) end; solve_stable.
Qed.

Lemma wp_op_errors x s :
  op_ok semp x → sane s → Z.of_nat (size (cf_map s OWN_CF)) < 2 ^ 64 →
  wp limit_error (run_op x) (λ _ s', sane s') s.
Proof.
  intros Hx Hs Hsize.
  assert (∀ m : txm Kv unit, stable limit_error sane m → wp limit_error m (λ _ s', sane s') s) as Hst
    by (intros m Hm; by apply Hm).
  destruct x; cbn [run_op]; unfold void, release_all_inner, force_release_inner.
  1: { apply wp_bind. eapply wp_mono; [apply wp_acquire_errors; [done..|]|done].
       intros req Hreq. by apply (aok_reqs _ _ _ _ Hx). }
  2, 3: by apply wp_release_owner_wide.
  all: apply Hst; solve_stable.
Qed.

(** The fence a path carries only grows. *)
Lemma fence_ge args V q r V' pol ns :
  is_i64 (fencing_token args) → acquired semp args pol ns V r V' →
  ∀ c, parse_fence (V !! fk q) = Some c →
  ∃ c', parse_fence (V' !! fk q) = Some c' ∧ c ≤ c'.
Proof.
  intros Hi Ha c Hc. destruct (aq_fence _ _ _ _ _ _ _ Ha q) as [->|[-> Hf]]; [by exists c|].
  exists (fencing_token args). split; [by apply parse_i64_to_string|].
  destruct Hf as [Hf|(c' & Hc' & Hle)].
  - destruct (Hf c Hc) as [?|[-> _]]; lia.
  - rewrite Hc in Hc'. by simplify_eq.
Qed.
End lemmas.

(** ** A concrete run

    Two owners in the namespace [h] under the default algorithm. *)
Definition demo_policy : LockPolicy := from_algorithm default_algorithm.
Definition demo_req (path : string) (m : Mode) : LockReq :=
  {| lr_path := bs path; lr_mode := m; lr_state := New; lr_permits := 0 |}.
Definition demo_args (owner path : string) (m : Mode) (tok : Z) : AcquireArgs :=
  {| owner_id := bs owner; ttl_ms := 1000; requests := [demo_req path m];
     fencing_token := tok; release_requests := []; queue_ttl_ms := 0 |}.
Definition demo_sem_args (owner : string) (n : Z) : AcquireArgs :=
  {| owner_id := bs owner; ttl_ms := 1000;
     requests := [{| lr_path := bs "h:/s"; lr_mode := Write; lr_state := New; lr_permits := n |}];
     fencing_token := 1; release_requests := []; queue_ttl_ms := 0 |}.
Definition sem_policy : LockPolicy := from_algorithm Semaphore.
Definition no_sem : str → bool := λ _, false.
Definition all_sem : str → bool := λ _, true.
Definition end_state {A} (r : result (A * Kv)) : Kv :=
  match r with Ok (_, s) => s | Err _ => empty_kv end.

Definition outcome_of {A} (r : result (A * Kv)) : option A :=
  match r with Ok (a, _) => Some a | Err _ => None end.

Lemma run_end {A} (r : result (A * Kv)) a : outcome_of r = Some a → r = Ok (a, end_state r).
Proof. destruct r as [[a' s]|e]; simpl; congruence. Qed.

Section demo.
#[local] Existing Instance ref_bincode.
Definition demo_run (args : AcquireArgs) (pol : LockPolicy) (s : Kv) : result (AcquireOutcome * Kv) :=
  acquire_inner_in_namespace args pol (bs "h") s.
(** [alice] writes [/a/b], then [bob] reads [/a/c]. *)
Definition demo1 : Kv := end_state (demo_run (demo_args "alice" "h:/a/b" Write 1) demo_policy empty_kv).
Definition demo2 : Kv := end_state (demo_run (demo_args "bob" "h:/a/c" Read 2) demo_policy demo1).
(** [alice] and [bob] share a semaphore of two permits. *)
Definition sem1 : Kv := end_state (demo_run (demo_sem_args "alice" 2) sem_policy empty_kv).
Definition sem2 : Kv := end_state (demo_run (demo_sem_args "bob" 2) sem_policy sem1).

Lemma demo_ok owner path m tok :
  nul_free (bs owner) → utf8_valid (bs owner) = true →
  nul_free (scoped_path (bs "h") (bs path)) →
  acquire_ok no_sem (demo_args owner path m tok) demo_policy (bs "h").
Proof.
  intros Ho Hu Hp. split; simpl.
  - done.
  - intros req ->%list_elem_of_singleton. split; [split_and!; [done|by apply (bool_decide_unpack _)|done]|]. by unfold is_u32.
  - by intros rel ?%not_elem_of_nil.
  - by intros req ->%list_elem_of_singleton _.
Qed.

Lemma demo_sem_ok owner n :
  nul_free (bs owner) → utf8_valid (bs owner) = true → is_u32 n →
  acquire_ok all_sem (demo_sem_args owner n) sem_policy (bs "h").
Proof.
  intros Ho Hu Hn. split; simpl.
  - done.
  - intros req ->%list_elem_of_singleton. split; [|done].
    by split_and!; [apply (bool_decide_unpack _)..|].
  - by intros rel ?%not_elem_of_nil.
  - by intros req ->%list_elem_of_singleton _.
Qed.

Lemma nul_free_by (x : str) : bool_decide (nul_free x) = true → nul_free x.
Proof. apply bool_decide_eq_true_1. Qed.

Lemma reachable_acquire semp args pol s r s' :
  acquire_ok semp args pol (bs "h") → reachable semp s →
  demo_run args pol s = Ok (r, s') → reachable semp s'.
Proof.
  intros Hok Hr Hrun. eapply reachable_step; [done|].
  apply (step_op _ (OpAcquire args pol (bs "h"))); [done|].
  cbn [run_op]. unfold void, mbind, txm_bind. unfold demo_run in Hrun. by rewrite Hrun.
Qed.

Lemma demo1_run : demo_run (demo_args "alice" "h:/a/b" Write 1) demo_policy empty_kv = Ok (AcquireOk 1, demo1).
Proof. unfold demo1. refine (run_end _ _ _). vm_compute. reflexivity. Qed.
Lemma demo2_run : demo_run (demo_args "bob" "h:/a/c" Read 2) demo_policy demo1 = Ok (AcquireOk 2, demo2).
Proof. unfold demo2. refine (run_end _ _ _). vm_compute. reflexivity. Qed.
Lemma sem1_run : demo_run (demo_sem_args "alice" 2) sem_policy empty_kv = Ok (AcquireOk 1, sem1).
Proof. unfold sem1. refine (run_end _ _ _). vm_compute. reflexivity. Qed.
Lemma sem2_run : demo_run (demo_sem_args "bob" 2) sem_policy sem1 = Ok (AcquireOk 1, sem2).
Proof. unfold sem2. refine (run_end _ _ _). vm_compute. reflexivity. Qed.

Lemma demo1_reachable : reachable no_sem demo1.
Proof.
  eapply reachable_acquire; [|apply reachable_init|exact demo1_run].
  apply demo_ok; first [reflexivity|by apply nul_free_by].
Qed.
Lemma demo2_reachable : reachable no_sem demo2.
Proof.
  eapply reachable_acquire; [|exact demo1_reachable|exact demo2_run].
  apply demo_ok; first [reflexivity|by apply nul_free_by].
Qed.
Lemma sem2_reachable : reachable all_sem sem2.
Proof.
  eapply reachable_acquire; [| |exact sem2_run]; [by apply demo_sem_ok; [apply nul_free_by|reflexivity|]|].
  eapply reachable_acquire; [|apply reachable_init|exact sem1_run].
  by apply demo_sem_ok; [apply nul_free_by|reflexivity|].
Qed.
End demo.

(** ** Theorems *)
Section theorems.
Context `{!Bincode StoredRecord} (semp : str → bool).

(** C2: in every reachable store, the locks held by two different owners never
    conflict in the sense of [locks_conflict]: no two writers or a writer and a
    reader on one path, nothing of another owner below a recursive writer.  The
    dead owners whose records were not yet pruned are included. *)
Theorem lock_exclusion s a b ma mb pa pb alga algb :
  reachable semp s → lock_held (view s) a ma pa alga → lock_held (view s) b mb pb algb →
  a ≠ b → locks_conflict alga pa ma algb pb mb = false.
Proof. intros Hr%reachable_good. apply (locks_conflict_holds semp), Hr. Qed.

(** C3: in every reachable store, the holders of a semaphore path never exceed
    the capacity recorded for it. *)
Theorem semaphore_bound s p holders :
  reachable semp s → holders ≠ [] → NoDup holders → (∀ o, o ∈ holders → permit (view s) o p) →
  ∃ n, capacity (view s) p = Some n ∧ len holders ≤ n.
Proof. intros Hr%reachable_good. apply (inv_cap _ _ (good_inv _ _ Hr)). Qed.

(** C9: a successful acquire holds every request that it does not release in
    the same call (writes with the caller's token as fence), and none of the
    holds it was asked to release. *)
Theorem acquire_grants s args pol ns t s' :
  reachable semp s → acquire_ok semp args pol ns →
  acquire_inner_in_namespace args pol ns s = Ok (AcquireOk t, s') →
  (∀ req, req ∈ requests args →
     ¬ requested ns (release_requests args) (lr_mode req) (scoped_path ns (lr_path req)) →
     got (owner_id args) (fencing_token args) pol ns (view s') req) ∧
  (∀ m p, requested ns (release_requests args) m p → gone (view s') (owner_id args) m p).
Proof.
  intros Hr%reachable_good Hok Hrun.
  destruct (vwp_run _ _ _ _ _ (vwp_acquire semp _ args pol ns _ Hr Hok) Hrun) as [_ Ha].
  split; [intros req; by apply (aq_got _ _ _ _ _ _ _ Ha t)|].
  intros m p Hreq. destruct (aq_rel _ _ _ _ _ _ _ Ha t m p eq_refl Hreq) as [?|[_ Hnil]]; [done|].
  destruct Hreq as (req & Hin & _). rewrite Hnil in Hin. by apply not_elem_of_nil in Hin.
Qed.

(** C10: whatever an acquire returns, fences never go down, and a write hold the
    owner did not have before carries the caller's token, which is larger than
    every fence the path had. *)
Theorem acquire_fences s args pol ns r s' :
  reachable semp s → acquire_ok semp args pol ns → is_i64 (fencing_token args) →
  acquire_inner_in_namespace args pol ns s = Ok (r, s') →
  (∀ q c, parse_fence (view s !! fk q) = Some c →
     ∃ c', parse_fence (view s' !! fk q) = Some c' ∧ c ≤ c') ∧
  (∀ q, writer (view s') q = Some (owner_id args) → writer (view s) q ≠ Some (owner_id args) →
     parse_fence (view s' !! fk q) = Some (fencing_token args) ∧
     ∀ c, parse_fence (view s !! fk q) = Some c → c < fencing_token args).
Proof.
  intros Hr%reachable_good Hok Hi Hrun.
  destruct (vwp_run _ _ _ _ _ (vwp_acquire semp _ args pol ns _ Hr Hok) Hrun) as [_ Ha].
  split; [intros q c; by eapply fence_ge|]. intros q Hq Hno.
  destruct (aq_new _ _ _ _ _ _ _ Ha q Hq) as [?|[-> Hf]]; [done|].
  split; [by apply parse_i64_to_string|]. intros c Hc.
  by destruct (Hf c Hc) as [?|[_ ?]].
Qed.

(** C13: an acquire, whatever it returns, takes no hold from another owner that
    is alive, gives none to anybody else, and kills nobody. *)
Theorem acquire_isolation s args pol ns r s' b :
  reachable semp s → acquire_ok semp args pol ns →
  acquire_inner_in_namespace args pol ns s = Ok (r, s') →
  nul_free b → b ≠ owner_id args →
  (∀ m p, held (view s') b m p → held (view s) b m p) ∧
  (alive (view s) b →
     alive (view s') b ∧ ∀ m p, held (view s) b m p → held (view s') b m p).
Proof.
  intros Hr%reachable_good Hok Hrun Hb Hne.
  destruct (vwp_run _ _ _ _ _ (vwp_acquire semp _ args pol ns _ Hr Hok) Hrun) as [_ Ha].
  pose proof (aq_leaves _ _ _ _ _ _ _ Ha) as Hl. split.
  - intros m p. by apply (lv_gain _ _ _ Hl).
  - intros Hal. split; [by apply (lv_alive _ _ _ Hl)|]. intros m p. by apply (lv_keep _ _ _ Hl).
Qed.

(** C14: [assert_fencing_inner] succeeds exactly when the owner is alive and
    writes every path under exactly this token, and it changes nothing. *)
Theorem assert_fencing_exact s ns o tok paths r s' :
  assert_fencing_inner ns o tok paths s = Ok (r, s') →
  view s' = view s ∧
  (r = AssertOk ↔
     (paths ≠ [] → alive (view s) o) ∧
     ∀ path, path ∈ paths →
       writer (view s) (scoped_path ns path) = Some o ∧
       view s !! fk (scoped_path ns path) = Some (to_string tok)).
Proof.
  intros Hrun. by destruct (vwp_run _ _ _ _ _ (vwp_assert_fencing _ ns o tok paths _) Hrun).
Qed.

(** A fencing check by anybody but the current writer, or with an older
    token, is refused once a write lock has been granted, however much time has
    passed since. *)
Theorem stale_token_refused s args pol ns t s' req n b tok paths r s'' :
  reachable semp s → acquire_ok semp args pol ns → is_i64 (fencing_token args) → is_i64 tok →
  acquire_inner_in_namespace args pol ns s = Ok (AcquireOk t, s') →
  req ∈ requests args → lr_state req = New → lr_mode req = Write →
  is_semaphore (algorithm pol) = false → release_requests args = [] →
  (b, tok) ≠ (owner_id args, fencing_token args) → lr_path req ∈ paths →
  assert_fencing_inner ns b tok paths (at_time n s') = Ok (r, s'') → r ≠ AssertOk.
Proof.
  intros Hr Hok Hi Hi' Hrun Hreq Hst Hm Hsem Hrel Hne Hin Hassert ->.
  pose proof (reachable_good semp s Hr) as Hg.
  destruct (vwp_run _ _ _ _ _ (vwp_acquire semp _ args pol ns _ Hg Hok) Hrun) as [_ Ha].
  pose proof (aq_got _ _ _ _ _ _ _ Ha t req eq_refl Hreq) as Hgot.
  unfold got in Hgot. rewrite Hst, Hsem, Hm in Hgot. destruct Hgot as [Hw Hf].
  { rewrite Hrel. by intros (? & ?%not_elem_of_nil & _). }
  assert (sane s') as Hs'.
  { pose proof (stable_acquire_inner_in_namespace engine_error args pol ns _ _
      (λ req Hreq, proj2 (aok_reqs _ _ _ _ Hok req Hreq)) s (reachable_sane semp s Hr)) as H.
    unfold wp in H. by rewrite Hrun in H. }
  destruct (vwp_run _ _ _ _ _ (vwp_assert_fencing _ ns b tok paths _) Hassert) as [_ [_ [H _]]].
  destruct (H eq_refl) as [_ Hpaths]. destruct (Hpaths _ Hin) as [Hwb Hfb].
  unfold writer, wk in Hwb. unfold fk in Hfb. rewrite view_at_lasting in Hwb, Hfb by done.
  unfold writer, wk in Hw. unfold fk in Hf. rewrite Hw in Hwb. rewrite Hf in Hfb.
  injection Hwb as <-. injection Hfb as Hfb.
  apply to_string_inj in Hfb; [|done..]. congruence.
Qed.

(** C15: releasing holds in a namespace frees exactly the requested holds of the
    owner: each is gone, its other holds stay, no other owner loses or gains
    anything, and fences are kept. *)
Theorem release_exact s ns o reqs w s' :
  reachable semp s → nul_free o →
  (∀ req, req ∈ reqs → nul_free (scoped_path ns (rel_path req))) →
  release_inner_in_namespace ns o reqs w s = Ok (tt, s') →
  (∀ m p, held (view s') o m p ↔ held (view s) o m p ∧ ¬ requested ns reqs m p) ∧
  (∀ b m p, b ≠ o → held (view s') b m p ↔ held (view s) b m p) ∧
  (∀ q, view s' !! fk q = view s !! fk q).
Proof.
  intros Hr%reachable_good Ho Hreqs Hrun.
  destruct (vwp_run _ _ _ _ _
    (vwp_release_inner_in_namespace semp _ o Ho ns reqs w _ Hr Hreqs) Hrun)
    as [_ (_ & Hf & Hgone & Hkeep)]. split_and!.
  - intros m p. split.
    + intros Hh. split; [by eapply held_sub; [apply Hf|]|].
      intros Hreq%Hgone. by apply gone_held in Hreq.
    + intros [Hh Hn]. by apply Hkeep.
  - intros b m p Hb. split; [apply held_sub, Hf|]. destruct m; simpl.
    + intros [?|?]; [left; by apply (fr_wr _ _ _ Hf)|right; by apply (fr_sem _ _ _ Hf)].
    + by apply (fr_rd _ _ _ Hf).
  - apply (fr_fence _ _ _ Hf).
Qed.

(** C16: releasing everything of an owner always succeeds (the paging loop ends,
    no record fails to decode), leaves the owner without holds and not alive,
    and changes no hold of anybody else. *)
Theorem release_all_total s o w :
  reachable semp s → nul_free o → Z.of_nat (size (cf_map s OWN_CF)) < 2 ^ 64 →
  ∃ s', release_all_inner o w s = Ok (tt, s') ∧
    (∀ m p, gone (view s') o m p) ∧ ¬ alive (view s') o ∧
    ∀ b m p, b ≠ o → held (view s') b m p ↔ held (view s) b m p.
Proof.
  intros Hr Ho Hsize. pose proof (reachable_good semp s Hr) as Hg.
  pose proof (wp_release_owner_wide o (λ _, False) w s (reachable_sane semp s Hr) Hsize) as Hwp.
  apply wp_total in Hwp as ([] & s' & Hrun & _).
  destruct (vwp_run _ _ _ _ _ (vwp_release_owner_wide semp _ o Ho w _ Hg) Hrun)
    as [_ (_ & Hf & Hgone & _ & Hal)].
  exists s'. split_and!; [done..|]. intros b m p Hb. split; [apply held_sub, Hf|].
  destruct m; simpl.
  - intros [?|?]; [left; by apply (fr_wr _ _ _ Hf)|right; by apply (fr_sem _ _ _ Hf)].
  - by apply (fr_rd _ _ _ Hf).
Qed.

(** On a reachable store an engine operation succeeds or reports an
    exceeded enumeration limit: no record fails to decode or parse, and no loop
    runs out. *)
Theorem engine_only_limit_errors s x :
  reachable semp s → op_ok semp x → Z.of_nat (size (cf_map s OWN_CF)) < 2 ^ 64 →
  (∃ s', run_op x s = Ok (tt, s')) ∨ ∃ op n, run_op x s = Err (SetScanLimitExceeded op n).
Proof.
  intros Hr%reachable_sane Hx Hsize. pose proof (wp_op_errors semp x s Hx Hr Hsize) as H.
  unfold wp in H. destruct (run_op x s) as [[[] s']|e]; [eauto|].
  destruct H as (op & n & ->). eauto.
Qed.

(** A renewal succeeds exactly for a live owner with at least one hold,
    says why otherwise, and changes neither holds nor fences nor the liveness of
    anybody else. *)
Theorem renew_exact s o ttl r s' :
  reachable semp s → nul_free o → renew_inner o ttl s = Ok (r, s') →
  (∀ b m p, held (view s') b m p ↔ held (view s) b m p) ∧
  (∀ q, view s' !! fk q = view s !! fk q) ∧
  (∀ b, nul_free b → b ≠ o → alive (view s') b ↔ alive (view s) b) ∧
  match r with
  | RenewOk _ => alive (view s) o ∧ ∃ x, owns (view s) o x
  | RenewLost _ reason =>
      reason = MissingAlive ∧ ¬ alive (view s) o ∨
      reason = MissingOwnerSet ∧ alive (view s) o ∧ ∀ m p, gone (view s) o m p
  end.
Proof.
  intros Hr%reachable_good Ho Hrun.
  destruct (vwp_run _ _ _ _ _ (vwp_renew semp _ o ttl _ Hr Ho) Hrun)
    as [_ (_ & (Hh & Hf & Ha) & Hres)]. split_and!; [done..|].
  destruct r as [|path reason]; [done|]. destruct Hres as [_ [?|(? & ? & Hno)]]; [by left|right].
  split_and!; [done..|]. apply own_ok_gone; [apply Hr|done].
Qed.
End theorems.

(** ** The theorems at concrete inputs *)
Section witnesses.
#[local] Existing Instance ref_bincode.
Local Abbreviation pb := (scoped_path (bs "h") (bs "h:/a/b")).
Local Abbreviation pc := (scoped_path (bs "h") (bs "h:/a/c")).
Local Abbreviation psem := (scoped_path (bs "h") (bs "h:/s")).
Local Abbreviation alice_b := (demo_args "alice" "h:/a/b" Write 1).
Local Abbreviation bob_c := (demo_args "bob" "h:/a/c" Read 2).

Lemma alice_b_ok : acquire_ok no_sem alice_b demo_policy (bs "h").
Proof. apply demo_ok; first [reflexivity|by apply nul_free_by]. Qed.
Lemma bob_c_ok : acquire_ok no_sem bob_c demo_policy (bs "h").
Proof. apply demo_ok; first [reflexivity|by apply nul_free_by]. Qed.
Lemma is_Some_by {A} (x : option A) : is_some x = true → is_Some x.
Proof. by destruct x. Qed.

Lemma lock_exclusion_witness :
  locks_conflict default_algorithm pb Write default_algorithm pc Read = false.
Proof.
  apply (lock_exclusion no_sem demo2 (bs "alice") (bs "bob")).
  - exact demo2_reachable.
  - split; vm_compute; reflexivity.
  - split; [apply is_Some_by|]; vm_compute; reflexivity.
  - done.
Defined.

Lemma semaphore_bound_witness :
  ∃ n, capacity (view sem2) psem = Some n ∧ len [bs "alice"; bs "bob"] ≤ n.
Proof.
  apply (semaphore_bound all_sem sem2 psem [bs "alice"; bs "bob"]).
  - exact sem2_reachable.
  - done.
  - by apply (bool_decide_eq_true_1 (NoDup _)).
  - intros o [->|[->|[]%not_elem_of_nil]%elem_of_cons]%elem_of_cons;
      apply is_Some_by; vm_compute; reflexivity.
Defined.

Lemma acquire_grants_witness :
  got (bs "bob") 2 demo_policy (bs "h") (view demo2) (demo_req "h:/a/c" Read).
Proof.
  apply (proj1 (acquire_grants no_sem demo1 bob_c demo_policy (bs "h") 2 demo2
    demo1_reachable bob_c_ok demo2_run)).
  - by left.
  - by intros (? & ?%not_elem_of_nil & _).
Defined.

Lemma acquire_fences_witness :
  parse_fence (view demo1 !! fk pb) = Some 1 ∧
  ∀ c, parse_fence (view empty_kv !! fk pb) = Some c → c < 1.
Proof.
  apply (acquire_fences no_sem empty_kv alice_b demo_policy (bs "h") (AcquireOk 1) demo1).
  - apply reachable_init.
  - exact alice_b_ok.
  - by unfold is_i64.
  - exact demo1_run.
  - vm_compute. reflexivity.
  - vm_compute. done.
Defined.

Lemma acquire_isolation_witness :
  alive (view demo2) (bs "alice") ∧
  ∀ m p, held (view demo1) (bs "alice") m p → held (view demo2) (bs "alice") m p.
Proof.
  apply (acquire_isolation no_sem demo1 bob_c demo_policy (bs "h") (AcquireOk 2) demo2 (bs "alice")).
  - exact demo1_reachable.
  - exact bob_c_ok.
  - exact demo2_run.
  - by apply nul_free_by.
  - done.
  - apply is_Some_by. vm_compute. reflexivity.
Defined.

Definition demo_assert (o : string) (tok : Z) : result (AssertOutcome * Kv) :=
  assert_fencing_inner (bs "h") (bs o) tok [bs "h:/a/b"] demo2.

Lemma assert_fencing_exact_witness :
  AssertOk = AssertOk ↔
    ([bs "h:/a/b"] ≠ [] → alive (view demo2) (bs "alice")) ∧
    ∀ path, path ∈ [bs "h:/a/b"] →
      writer (view demo2) (scoped_path (bs "h") path) = Some (bs "alice") ∧
      view demo2 !! fk (scoped_path (bs "h") path) = Some (to_string 1).
Proof.
  apply (assert_fencing_exact demo2 (bs "h") (bs "alice") 1 [bs "h:/a/b"] AssertOk
    (end_state (demo_assert "alice" 1))).
  refine (run_end _ _ _). vm_compute. reflexivity.
Defined.

Definition late_assert : result (AssertOutcome * Kv) :=
  assert_fencing_inner (bs "h") (bs "bob") 1 [bs "h:/a/b"] (at_time 5000 demo1).

Lemma stale_token_refused_witness :
  AssertFail (bs "h:/a/b") StaleOwner ≠ AssertOk.
Proof.
  apply (stale_token_refused no_sem empty_kv alice_b demo_policy (bs "h") 1 demo1
    (demo_req "h:/a/b" Write) 5000 (bs "bob") 1 [bs "h:/a/b"] _ (end_state late_assert)).
  - apply reachable_init.
  - exact alice_b_ok.
  - by unfold is_i64.
  - by unfold is_i64.
  - exact demo1_run.
  - by left.
  - done.
  - done.
  - done.
  - done.
  - done.
  - by left.
  - refine (run_end _ _ _). vm_compute. reflexivity.
Defined.

Definition demo_rel : list RelReq := [{| rel_path := bs "h:/a/b"; rel_mode := Write |}].
Definition demo_release : result (unit * Kv) :=
  release_inner_in_namespace (bs "h") (bs "alice") demo_rel true demo2.

Lemma release_exact_witness :
  (∀ m p, held (view (end_state demo_release)) (bs "alice") m p ↔
          held (view demo2) (bs "alice") m p ∧ ¬ requested (bs "h") demo_rel m p) ∧
  (∀ b m p, b ≠ bs "alice" →
     held (view (end_state demo_release)) b m p ↔ held (view demo2) b m p) ∧
  (∀ q, view (end_state demo_release) !! fk q = view demo2 !! fk q).
Proof.
  apply (release_exact no_sem demo2 (bs "h") (bs "alice") demo_rel true).
  - exact demo2_reachable.
  - by apply nul_free_by.
  - intros req ->%list_elem_of_singleton. by apply nul_free_by.
  - refine (run_end demo_release _ _). vm_compute. reflexivity.
Defined.

Lemma release_all_total_witness :
  ∃ s', release_all_inner (bs "alice") true demo2 = Ok (tt, s') ∧
    (∀ m p, gone (view s') (bs "alice") m p) ∧ ¬ alive (view s') (bs "alice") ∧
    ∀ b m p, b ≠ bs "alice" → held (view s') b m p ↔ held (view demo2) b m p.
Proof.
  apply (release_all_total no_sem demo2 (bs "alice") true).
  - exact demo2_reachable.
  - by apply nul_free_by.
  - vm_compute. reflexivity.
Defined.

Lemma engine_only_limit_errors_witness :
  (∃ s', run_op (OpAcquire bob_c demo_policy (bs "h")) demo1 = Ok (tt, s')) ∨
  ∃ op n, run_op (OpAcquire bob_c demo_policy (bs "h")) demo1 = Err (SetScanLimitExceeded op n).
Proof.
  apply (engine_only_limit_errors no_sem demo1 (OpAcquire bob_c demo_policy (bs "h"))).
  - exact demo1_reachable.
  - exact bob_c_ok.
  - vm_compute. reflexivity.
Defined.

Lemma renew_exact_witness : alive (view demo1) (bs "alice") ∧ ∃ x, owns (view demo1) (bs "alice") x.
Proof.
  apply (renew_exact no_sem demo1 (bs "alice") 1000 (RenewOk false)
    (end_state (renew_inner (bs "alice") 1000 demo1))).
  - exact demo1_reachable.
  - by apply nul_free_by.
  - refine (run_end _ _ _). vm_compute. reflexivity.
Defined.
End witnesses.
