(* ===== verification/Paths.v ===== *)
(** * Ancestors of a path

    [get_ancestors] walks a path up to its root.  The walk is described by
    [up], one [parent] step at a time: its results are strictly shorter
    prefixes of the path, they form a chain, and the relation is transitive.
    Names are built so that every descendant of a path has the index prefix of
    that path as a prefix, which the queue relies on. *)

From Stdlib Require Import ZArith NArith Lia Strings.Byte.
From stdpp Require Import sorting countable base numbers gmap strings list.
From S2P Require Import Prelude RustStd StoreKeys EngineTypes.
Local Open Scope Z_scope.

(** One step of the walk. *)
Definition parent (cur : str) : option str :=
  if bool_decide (cur = slash) || bool_decide (cur = []) then None
  else match rfind c_slash cur with
       | None => None
       | Some idx => Some (if (idx =? 0)%nat then slash else take idx cur)
       end.

Lemma rfind_Some c s i :
  rfind c s = Some i ↔ ∃ b, c ∉ b ∧ s = take i s ++ c :: b ∧ (i < length s)%nat.
Proof.
  unfold rfind. destruct (split_once c (reverse s)) as [[a b]|] eqn:Hs.
  - apply split_once_Some in Hs as [Hs Ha].
    assert (s = reverse b ++ c :: reverse a) as Heq.
    { rewrite <- (reverse_involutive s), Hs, reverse_app, reverse_cons. by rewrite <- app_assoc. }
    split.
    + intros [= <-]. exists (reverse a). rewrite Heq, take_app_length' by (by rewrite length_reverse).
      split_and!; [by rewrite elem_of_reverse|done|rewrite length_app, length_reverse; simpl; lia].
    + intros (b' & Hb' & Hs' & Hi). f_equal. rewrite Hs' in Heq.
      assert (reverse (take i s ++ c :: b') = reverse (reverse b ++ c :: reverse a)) as Hr
        by by rewrite Heq.
      rewrite !reverse_app, !reverse_cons, !reverse_involutive, <- !app_assoc in Hr. simpl in Hr.
      apply sep_inj in Hr as [_ Hr]; [|by rewrite elem_of_reverse|done].
      rewrite <- Hr, length_reverse, length_take. lia.
  - split; [done|]. intros (b & _ & Hb & _). apply split_once_None in Hs. destruct Hs.
    rewrite elem_of_reverse, Hb. set_solver.
Qed.

(** A parent is a shorter prefix; the rest starts with the separator. *)
Lemma parent_Some cur c :
  parent cur = Some c →
  c ≠ [] ∧ (length c < length cur)%nat ∧
  (c = slash ∧ (∃ r, cur = slash ++ r) ∨ ∃ r, cur = c ++ c_slash :: r).
Proof.
  unfold parent. case_bool_decide as H1; [done|]. case_bool_decide as H2; [done|]. simpl.
  destruct (rfind c_slash cur) as [idx|] eqn:Hr; [|done].
  apply rfind_Some in Hr as (b & Hb & Hcur & Hlen). intros [= <-].
  destruct (Nat.eqb_spec idx 0) as [->|Hne].
  - simpl in Hcur. split; [done|]. split; [|left; split; [done|by exists b]].
    destruct b; [by rewrite Hcur in H1|]. rewrite Hcur. simpl. lia.
  - split; [|split].
    + intros H. apply (f_equal length) in H. rewrite length_take in H. simpl in H. lia.
    + rewrite length_take. lia.
    + right. by exists b.
Qed.

Lemma parent_slash : parent slash = None.
Proof. done. Qed.

Lemma parent_nil : parent [] = None.
Proof. done. Qed.

(** ** The walk *)

Lemma ancestor_loop_step fuel pre cur :
  ancestor_loop (S fuel) pre cur =
  match parent cur with
  | Some c => (pre ++ c) :: ancestor_loop fuel pre c
  | None => []
  end.
Proof.
  cbn [ancestor_loop]. unfold parent. destruct (_ || _); [done|].
  destruct (rfind c_slash cur) as [idx|]; [|done].
  set (c := if (idx =? 0)%nat then slash else take idx cur).
  case_bool_decide as Hc; [|done]. rewrite Hc. by destruct fuel.
Qed.

Lemma ancestor_loop_fuel pre fuel cur :
  (length cur ≤ fuel)%nat → ancestor_loop fuel pre cur = ancestor_loop (length cur) pre cur.
Proof.
  revert cur. induction (lt_wf fuel) as [fuel _ IH]; intros cur Hle.
  destruct fuel as [|fuel]; [by destruct cur; [|simpl in Hle; lia]|].
  destruct cur as [|x cur].
  { simpl. by destruct fuel. }
  cbn [length]. rewrite !ancestor_loop_step. destruct (parent (x :: cur)) as [c|] eqn:Hp; [|done].
  apply parent_Some in Hp as (_ & Hlt & _). simpl in Hlt, Hle.
  rewrite (IH fuel) by lia. rewrite (IH (length cur)) by lia. done.
Qed.

Definition up (cur : str) : list str := ancestor_loop (length cur) [] cur.

Lemma up_step cur :
  up cur = match parent cur with Some c => c :: up c | None => [] end.
Proof.
  unfold up. destruct cur as [|x cur]; [done|]. cbn [length]. rewrite ancestor_loop_step.
  destruct (parent (x :: cur)) as [c|] eqn:Hp; [|done]. simpl.
  apply parent_Some in Hp as (_ & Hlt & _). simpl in Hlt. by rewrite ancestor_loop_fuel by lia.
Qed.

(** Induction along the walk. *)
Lemma up_ind (P : str → Prop) :
  (∀ cur, (∀ c, parent cur = Some c → P c) → P cur) → ∀ cur, P cur.
Proof.
  intros H cur. remember (length cur) as n eqn:Hn. revert cur Hn.
  induction (lt_wf n) as [n _ IH]; intros cur ->. apply H. intros c Hc.
  apply parent_Some in Hc as (_ & Hlt & _). by eapply IH.
Qed.

Lemma ancestors_from_up pre cur : ancestors_from pre cur = (pre ++.) <$> up cur.
Proof.
  unfold ancestors_from. induction cur as [cur IH] using up_ind. rewrite up_step.
  destruct cur as [|x cur]; [done|]. cbn [length]. rewrite ancestor_loop_step.
  destruct (parent (x :: cur)) as [c|] eqn:Hp; [|done].
  rewrite fmap_cons. f_equal. pose proof (parent_Some _ _ Hp) as (_ & Hlt & _). simpl in Hlt.
  rewrite ancestor_loop_fuel by lia. by apply IH.
Qed.

Lemma up_spec cur c :
  c ∈ up cur → c ≠ [] ∧ (length c < length cur)%nat ∧
  (c = slash ∧ (∃ r, cur = slash ++ r) ∨ ∃ r, cur = c ++ c_slash :: r).
Proof.
  induction cur as [cur IH] using up_ind. rewrite up_step.
  destruct (parent cur) as [d|] eqn:Hp; [|by intros ?%not_elem_of_nil].
  intros [->|Hc]%elem_of_cons; [by apply parent_Some|].
  destruct (IH d eq_refl Hc) as (Hne & Hlt & Hcase).
  destruct (parent_Some _ _ Hp) as (Hnd & Hltd & Hd). split_and!; [done|lia|].
  destruct Hd as [[-> _]|[rd ->]].
  { rewrite up_step, parent_slash in Hc. by apply not_elem_of_nil in Hc. }
  destruct Hcase as [[-> [r ->]]|[r ->]].
  - left. split; [done|]. exists (r ++ c_slash :: rd). by rewrite app_assoc.
  - right. exists (r ++ c_slash :: rd). by rewrite <- app_assoc.
Qed.

Lemma up_trans cur c d : c ∈ up cur → d ∈ up c → d ∈ up cur.
Proof.
  induction cur as [cur IH] using up_ind. rewrite (up_step cur).
  destruct (parent cur) as [e|] eqn:Hp; [|by intros ?%not_elem_of_nil].
  intros [->|Hc]%elem_of_cons Hd; right; [done|by apply (IH e)].
Qed.

(** Two ancestors of a path are comparable. *)
Lemma up_chain cur c d : c ∈ up cur → d ∈ up cur → c = d ∨ c ∈ up d ∨ d ∈ up c.
Proof.
  induction cur as [cur IH] using up_ind. rewrite up_step.
  destruct (parent cur) as [e|] eqn:Hp; [|by intros ?%not_elem_of_nil].
  intros [->|Hc]%elem_of_cons [->|Hd]%elem_of_cons; [by left|by auto|by auto|by apply (IH e)].
Qed.

(** ** [get_ancestors] *)

(** The part of a path the walk keeps, and the part it walks on. *)
Definition path_split (p : str) : option (str * str) :=
  match split_once SCOPED_PATH_SEP p with
  | Some (ns, rel) => Some (ns ++ [SCOPED_PATH_SEP], rel)
  | None => match split_once c_colon p with
            | Some (h, rel) => Some (h ++ [c_colon], rel)
            | None => None
            end
  end.

Lemma find_split c s :
  find c s = match split_once c s with Some (a, _) => Some (length a) | None => None end.
Proof. done. Qed.

Lemma get_ancestors_split p :
  get_ancestors p = match path_split p with
                    | Some (pre, rel) => (pre ++.) <$> up rel
                    | None => []
                    end.
Proof.
  unfold get_ancestors, path_split. destruct (split_once SCOPED_PATH_SEP p) as [[ns rel]|] eqn:Hs.
  { by rewrite ancestors_from_up. }
  rewrite find_split. destruct (split_once c_colon p) as [[h rel]|] eqn:Hc; [|done].
  apply split_once_Some in Hc as [-> _]. rewrite ancestors_from_up.
  replace (h ++ c_colon :: rel) with ((h ++ [c_colon]) ++ rel) by by rewrite <- app_assoc.
  rewrite take_app_length' by (rewrite length_app; simpl; lia).
  by rewrite drop_app_length' by (rewrite length_app; simpl; lia).
Qed.

Lemma path_split_spec p pre rel : path_split p = Some (pre, rel) → p = pre ++ rel.
Proof.
  unfold path_split. destruct (split_once SCOPED_PATH_SEP p) as [[ns r]|] eqn:Hs.
  - apply split_once_Some in Hs as [-> _]. intros [= <- <-]. by rewrite <- app_assoc.
  - destruct (split_once c_colon p) as [[h r]|] eqn:Hc; [|done].
    apply split_once_Some in Hc as [-> _]. intros [= <- <-]. by rewrite <- app_assoc.
Qed.

(** Moving up keeps the split. *)
Lemma path_split_prefix p pre rel c :
  path_split p = Some (pre, rel) → c `prefix_of` rel → path_split (pre ++ c) = Some (pre, c).
Proof.
  intros Hp [r Hr]. pose proof (path_split_spec p pre rel Hp) as Heq.
  unfold path_split in Hp |- *. destruct (split_once SCOPED_PATH_SEP p) as [[ns r']|] eqn:Hs.
  - injection Hp as <- ->. apply split_once_Some in Hs as [_ Hns].
    rewrite <- app_assoc. simpl. by rewrite split_once_app.
  - destruct (split_once c_colon p) as [[h r']|] eqn:Hc; [|done]. injection Hp as <- ->.
    apply split_once_None in Hs. apply split_once_Some in Hc as [_ Hh].
    rewrite (proj2 (split_once_None SCOPED_PATH_SEP _)).
    + rewrite <- app_assoc. simpl. by rewrite split_once_app.
    + rewrite Heq, Hr in Hs. set_solver.
Qed.

Lemma up_prefix cur c : c ∈ up cur → c `prefix_of` cur.
Proof.
  intros (_ & _ & [[-> [r ->]]|[r ->]])%up_spec; [by exists r|]. by exists (c_slash :: r).
Qed.

Lemma ancestor_split p a :
  a ∈ get_ancestors p ↔
  ∃ pre rel c, path_split p = Some (pre, rel) ∧ c ∈ up rel ∧ a = pre ++ c.
Proof.
  rewrite get_ancestors_split. destruct (path_split p) as [[pre rel]|]; split.
  - intros (c & -> & Hc)%list_elem_of_fmap. by exists pre, rel, c.
  - intros (pre' & rel' & c & [= <- <-] & Hc & ->). apply list_elem_of_fmap. by exists c.
  - by intros ?%not_elem_of_nil.
  - by intros (? & ? & ? & ? & _).
Qed.

Lemma ancestor_shorter p a : a ∈ get_ancestors p → (length a < length p)%nat.
Proof.
  intros (pre & rel & c & Hp & Hc & ->)%ancestor_split.
  apply up_spec in Hc as (_ & Hlt & _). rewrite (path_split_spec _ _ _ Hp), !length_app. lia.
Qed.

Lemma ancestor_trans p a b : b ∈ get_ancestors p → a ∈ get_ancestors b → a ∈ get_ancestors p.
Proof.
  intros (pre & rel & c & Hp & Hc & ->)%ancestor_split (pre' & rel' & d & Hb & Hd & ->)%ancestor_split.
  rewrite (path_split_prefix p pre rel c Hp (up_prefix _ _ Hc)) in Hb. injection Hb as <- <-.
  apply ancestor_split. exists pre, rel, d. split_and!; [done| |done]. by eapply up_trans.
Qed.

Lemma ancestor_chain p a b :
  a ∈ get_ancestors p → b ∈ get_ancestors p →
  a = b ∨ a ∈ get_ancestors b ∨ b ∈ get_ancestors a.
Proof.
  intros (pre & rel & c & Hp & Hc & ->)%ancestor_split (pre' & rel' & d & Hp' & Hd & ->)%ancestor_split.
  rewrite Hp in Hp'. injection Hp' as <- <-.
  assert (∀ x y, y ∈ up rel → x ∈ up y → pre ++ x ∈ get_ancestors (pre ++ y)) as Hin.
  { intros x y Hy Hx. apply ancestor_split. exists pre, y, x. split_and!; [|done|done].
    apply (path_split_prefix p pre rel); [done|by apply up_prefix]. }
  destruct (up_chain rel c d Hc Hd) as [->|[?|?]]; auto.
Qed.

(** ** Index prefixes ([descendant_index_prefix] of [src/queue.rs]) *)

Definition descendant_index_prefix (path : str) : str :=
  if ends_with slash path then path else path ++ slash.

Lemma ends_with_snoc (p : str) x : ends_with [x] (p ++ [x]) = true.
Proof.
  unfold ends_with. apply starts_with_spec. rewrite reverse_app. by exists (reverse p).
Qed.

Lemma ancestor_index_prefix p a :
  a ∈ get_ancestors p → descendant_index_prefix a `prefix_of` p.
Proof.
  intros (pre & rel & c & Hp & Hc & ->)%ancestor_split. rewrite (path_split_spec _ _ _ Hp).
  apply up_spec in Hc as (_ & _ & [[-> [r ->]]|[r ->]]).
  - unfold descendant_index_prefix, slash. rewrite ends_with_snoc. exists r. by rewrite app_assoc.
  - unfold descendant_index_prefix. destruct (ends_with slash (pre ++ c)).
    + exists (c_slash :: r). by rewrite app_assoc.
    + exists r. by rewrite <- !app_assoc.
Qed.
