(* ===== verification/Placement.v ===== *)
(** * Placement of routing domains and voters ([src/cluster/placement.rs])

    [xxh3] is third-party code: a function from bytes to a 64-bit weight.  The
    theorems need only that the weight is not negative. *)

From Stdlib Require Import ZArith NArith Lia Strings.Byte.
From stdpp Require Import sorting countable base numbers gmap strings list.
From S2P Require Import Prelude RustStd StoreKeys EngineTypes Paths.
Local Open Scope Z_scope.

(** [z.to_le_bytes()] of a [u64]. *)
Definition le_bytes8 (z : Z) : bytes := reverse (be_bytes 8 z).

Section hashing.
Context (xxh3_64 : bytes → Z).

(** One round of the loop: the first group of largest weight so far. *)
Definition domain_weight (domain : str) (g : Z) : Z := xxh3_64 (le_bytes8 g ++ domain).
Definition place_step (domain : str) (best : Z * Z) (g : Z) : Z * Z :=
  let weight := domain_weight domain g in
  if best.2 <? weight then (g, weight) else best.
Definition place_domain (domain : str) (group_count : Z) : GroupId :=
  (foldl (place_step domain) (0, 0) (seqZ 0 group_count)).1.

(** [sort_by_key(Reverse(weight))] is stable: insert after the heavier and
    equally heavy entries. *)
Definition node_weight (group_id node_id : Z) : Z :=
  xxh3_64 (le_bytes8 group_id ++ le_bytes8 node_id).
Fixpoint insert_by_weight (x : Z * Z) (l : list (Z * Z)) : list (Z * Z) :=
  match l with
  | [] => [x]
  | y :: l => if x.2 <=? y.2 then y :: insert_by_weight x l else x :: y :: l
  end.
Definition sort_by_weight (l : list (Z * Z)) : list (Z * Z) :=
  foldl (λ acc x, insert_by_weight x acc) [] l.
Definition select_voters (group_id : GroupId) (nodes : list Z) (replication_factor : Z) : list Z :=
  fst <$> take (Z.to_nat replication_factor)
            (sort_by_weight ((λ n, (n, node_weight group_id n)) <$> nodes)).
End hashing.

Definition rf_effective (configured stable_nodes : Z) : Z :=
  let n := Z.max (Z.min configured (as_u32 stable_nodes)) 1 in
  if n mod 2 =? 0 then n - 1 else n.

(** The end of segment [k]: the index of the [k]-th slash after position 0. *)
Fixpoint segment_end (i : nat) (segs k : Z) (rest : str) : option nat :=
  match rest with
  | [] => None
  | b :: rest =>
      if bool_decide (b = c_slash) && (0 <? i)%nat then
        if segs + 1 =? k then Some i else segment_end (S i) (segs + 1) k rest
      else segment_end (S i) segs k rest
  end.
Definition routing_prefix (path : str) (prefix_segments : Z) : str :=
  match find c_colon path with
  | None => path
  | Some colon =>
      if prefix_segments =? 0 then take colon path
      else match segment_end 0 0 prefix_segments (drop (colon + 1) path) with
           | Some i => take (colon + 1 + i) path
           | None => path
           end
  end.

Definition namespace_contains_path (namespace path : str) : bool :=
  match find c_colon namespace with
  | None =>
      match find c_colon path with
      | Some colon => bool_decide (take colon path = namespace)
      | None => false
      end
  | Some ns_colon =>
      match find c_colon path with
      | None => false
      | Some path_colon =>
          if negb (bool_decide (take ns_colon namespace = take path_colon path)) then false
          else if bool_decide (namespace = path) then true
          else if ends_with (bs ":/") namespace then starts_with namespace path
          else match strip_prefix namespace path with
               | Some rest => starts_with slash rest
               | None => false
               end
      end
  end.

Definition count_slashes (s : str) : Z := len (filter (λ b, b = c_slash) s).
Definition path_depth (path : str) : Z :=
  match find c_colon path with
  | None => 0
  | Some colon =>
      let rest := drop (colon + 1) path in
      if bool_decide (rest = slash) || bool_decide (rest = []) then 0
      else as_u32 (count_slashes rest)
  end.

(** ** Rendezvous hashing *)
Section hrw.
Context (xxh3_64 : bytes → Z).
Hypothesis Hw : ∀ b, 0 ≤ xxh3_64 b.
Local Abbreviation weight := (domain_weight xxh3_64).
Local Abbreviation place := (place_domain xxh3_64).

Lemma seqZ_snoc n : 0 ≤ n → seqZ 0 (n + 1) = seqZ 0 n ++ [n].
Proof.
  intros Hn. rewrite seqZ_app by lia. by rewrite Z.add_0_l.
Qed.

Lemma place_state d n :
  0 ≤ n →
  let best := foldl (place_step xxh3_64 d) (0, 0) (seqZ 0 n) in
  (∀ g, 0 ≤ g < n → weight d g ≤ best.2) ∧
  (best.2 = 0 ∧ best.1 = 0 ∨ 0 ≤ best.1 < n ∧ best.2 = weight d best.1).
Proof.
  intros Hn. pattern n. apply natlike_ind; [|clear n Hn; intros n Hn IH|done].
  { simpl. split; [lia|by left]. }
  unfold Z.succ. rewrite seqZ_snoc by done. rewrite foldl_app. cbn [foldl]. cbv zeta in IH |- *.
  destruct IH as [Hmax Hbest]. set (best := foldl _ _ _) in *. unfold place_step.
  destruct (Z.ltb_spec best.2 (weight d n)); simpl.
  - split; [|right; split; [lia|done]]. intros g Hg.
    destruct (decide (g = n)) as [->|]; [done|]. specialize (Hmax g). lia.
  - split; [|destruct Hbest as [?|[? ?]]; [by left|right; split; [lia|done]]].
    intros g Hg. destruct (decide (g = n)) as [->|]; [done|]. apply Hmax. lia.
Qed.

Lemma place_domain_range d n : 0 < n → 0 ≤ place d n < n.
Proof.
  intros Hn. destruct (place_state d n) as [_ [[_ H]|[H _]]]; [lia| |exact H].
  unfold place_domain. rewrite H. lia.
Qed.

Lemma place_domain_max d n g : 0 ≤ g < n → weight d g ≤ weight d (place d n).
Proof.
  intros Hg. destruct (place_state d n) as [Hmax Hbest]; [lia|]. specialize (Hmax g Hg).
  unfold place_domain. destruct Hbest as [[H1 H2]|[_ H]]; [|lia].
  rewrite H2. unfold domain_weight at 2. pose proof (Hw (le_bytes8 0 ++ d)). lia.
Qed.

Lemma place_domain_grow d n : 0 ≤ n → place d (n + 1) = place d n ∨ place d (n + 1) = n.
Proof.
  intros Hn. unfold place_domain. rewrite seqZ_snoc by done. rewrite foldl_app. cbn [foldl].
  set (best := foldl _ _ _). unfold place_step. destruct (_ <? _); [by right|by left].
Qed.

(** ** Voters *)

Lemma insert_by_weight_perm x l : insert_by_weight x l ≡ₚ x :: l.
Proof.
  induction l as [|y l IH]; simpl; [done|]. destruct (_ <=? _); [|done].
  rewrite IH. apply Permutation_swap.
Qed.

Lemma sort_by_weight_perm l : sort_by_weight l ≡ₚ l.
Proof.
  unfold sort_by_weight. cut (∀ acc, foldl (λ acc x, insert_by_weight x acc) acc l ≡ₚ acc ++ l).
  { intros H. apply H. }
  induction l as [|x l IH]; intros acc; simpl; [by rewrite app_nil_r|].
  rewrite IH, insert_by_weight_perm. simpl. apply Permutation_middle.
Qed.

Definition heavier (x y : Z * Z) : Prop := y.2 ≤ x.2.

Lemma insert_by_weight_sorted x l :
  StronglySorted heavier l → StronglySorted heavier (insert_by_weight x l).
Proof.
  induction 1 as [|y l Hs IH Hall]; simpl; [by repeat constructor|].
  destruct (Z.leb_spec x.2 y.2).
  - constructor; [done|]. rewrite Forall_forall. intros z Hz.
    rewrite insert_by_weight_perm in Hz. apply elem_of_cons in Hz as [->|Hz]; [done|].
    by rewrite Forall_forall in Hall; apply Hall.
  - constructor; [by constructor|]. constructor; [unfold heavier; lia|].
    eapply Forall_impl; [exact Hall|]. unfold heavier. intros z Hz. lia.
Qed.

Lemma sort_by_weight_sorted l : StronglySorted heavier (sort_by_weight l).
Proof.
  unfold sort_by_weight. cut (∀ acc, StronglySorted heavier acc →
    StronglySorted heavier (foldl (λ acc x, insert_by_weight x acc) acc l)).
  { intros H. apply H. constructor. }
  induction l as [|x l IH]; intros acc Hacc; simpl; [done|]. by apply IH, insert_by_weight_sorted.
Qed.
End hrw.

(** ** Replication factor *)

Lemma rf_effective_spec configured nodes :
  0 ≤ configured → is_u32 nodes →
  Z.odd (rf_effective configured nodes) = true ∧
  1 ≤ rf_effective configured nodes ≤ Z.max 1 (Z.min configured nodes) ∧
  Z.min configured nodes - 1 ≤ rf_effective configured nodes.
Proof.
  unfold is_u32, u32_max, rf_effective, as_u32. intros Hc Hn.
  rewrite (Z.mod_small nodes) by lia. remember (Z.max (Z.min configured nodes) 1) as n eqn:Hdef.
  assert (1 ≤ n) by lia. destruct (Z.eqb_spec (n mod 2) 0) as [Hev|Hodd].
  - assert (n ≠ 1) by (intros Hn1; by rewrite Hn1 in Hev).
    split_and!; [|lia|lia|lia]. rewrite Z.odd_sub.
    rewrite Zmod_even in Hev. destruct (Z.even n) eqn:He; [|done].
    by rewrite <- Z.negb_even, He.
  - split_and!; [|lia|lia|lia]. rewrite Zmod_odd in Hodd. by destruct (Z.odd n).
Qed.

(** ** Routing prefixes *)

Lemma count_slashes_cons b l :
  count_slashes (b :: l) = (if bool_decide (b = c_slash) then 1 else 0) + count_slashes l.
Proof.
  unfold count_slashes, len. rewrite filter_cons. case_bool_decide as H.
  - rewrite decide_True by done. simpl. lia.
  - rewrite decide_False by done. lia.
Qed.

Lemma count_slashes_nonneg l : 0 ≤ count_slashes l.
Proof. unfold count_slashes, len. lia. Qed.

(** The scan of [l1] followed by a slash and more. *)
Lemma segment_end_app l1 l2 i (segs k : Z) :
  (0 < i)%nat → k ≤ segs + count_slashes l1 + 1 → segs < k →
  segment_end i segs k (l1 ++ c_slash :: l2) =
  match segment_end i segs k l1 with
  | Some j => Some j
  | None => Some (i + length l1)%nat
  end.
Proof.
  revert i segs. induction l1 as [|b l1 IH]; intros i segs Hi Hk Hs; simpl.
  - destruct (Nat.ltb_spec 0 i); [simpl|lia].
    unfold count_slashes in Hk. simpl in Hk. unfold len in Hk. simpl in Hk.
    destruct (Z.eqb_spec (segs + 1) k); [|lia]. f_equal. lia.
  - rewrite count_slashes_cons in Hk. destruct (Nat.ltb_spec 0 i); [|lia].
    case_bool_decide; simpl.
    + destruct (Z.eqb_spec (segs + 1) k); [done|]. rewrite IH by lia.
      destruct (segment_end (S i) (segs + 1) k l1); [done|]. f_equal. lia.
    + rewrite IH by lia. destruct (segment_end (S i) segs k l1); [done|]. f_equal. lia.
Qed.

(** The first byte never ends a segment. *)
Lemma segment_end_0 b l segs k : segment_end 0 segs k (b :: l) = segment_end 1 segs k l.
Proof. simpl. by rewrite andb_false_r. Qed.

Lemma segment_end_lt l i segs k j :
  segment_end i segs k l = Some j → (i ≤ j < i + length l)%nat.
Proof.
  revert i segs. induction l as [|b l IH]; intros i segs; simpl; [done|].
  destruct (_ && _).
  - destruct (_ =? _); [intros [= <-]; lia|]. intros ?%IH. lia.
  - intros ?%IH. lia.
Qed.

Lemma colon_split p pre rel :
  SCOPED_PATH_SEP ∉ p → path_split p = Some (pre, rel) →
  ∃ h, pre = h ++ [c_colon] ∧ c_colon ∉ h ∧ p = h ++ c_colon :: rel ∧
    ∀ c, find c_colon (pre ++ c) = Some (length h) ∧ drop (length h + 1) (pre ++ c) = c ∧
         take (length h) (pre ++ c) = h.
Proof.
  intros Hsep. unfold path_split. rewrite (proj2 (split_once_None _ p) Hsep).
  destruct (split_once c_colon p) as [[h r]|] eqn:Hc; [|done]. intros [= <- <-].
  apply split_once_Some in Hc as [-> Hh]. exists h. split_and!; [done..|]. intros c.
  rewrite <- app_assoc. simpl. split_and!.
  - unfold find. by rewrite split_once_app.
  - change (c_colon :: c) with ([c_colon] ++ c). rewrite app_assoc.
    by rewrite drop_app_length' by (rewrite length_app; simpl; lia).
  - by rewrite take_app_length.
Qed.

(** The segment scan cannot tell a path from its ancestors of depth [k] or more. *)
Lemma segment_end_ancestor c r k :
  c ≠ [] → c ≠ slash → 0 < k ≤ count_slashes c →
  segment_end 0 0 k (c ++ c_slash :: r) =
  match segment_end 0 0 k c with Some i => Some i | None => Some (length c) end.
Proof.
  intros Hne Hns Hk. destruct c as [|b c]; [done|]. cbn [app]. rewrite !segment_end_0.
  rewrite count_slashes_cons in Hk. rewrite segment_end_app; [done|lia| |lia].
  destruct (bool_decide _); lia.
Qed.

Lemma routing_prefix_ancestor a p k :
  SCOPED_PATH_SEP ∉ p → len p < 2 ^ 32 → a ∈ get_ancestors p → 0 ≤ k ≤ path_depth a →
  routing_prefix a k = routing_prefix p k.
Proof.
  intros Hsep Hlen (pre & rel & c & Hp & Hc & ->)%ancestor_split Hk.
  destruct (colon_split p pre rel Hsep Hp) as (h & -> & Hh & Heq & Hpre).
  destruct (Hpre c) as (Hf & Hd & Ht). destruct (Hpre rel) as (Hf' & Hd' & Ht').
  assert (p = (h ++ [c_colon]) ++ rel) as Hp' by (rewrite Heq; by rewrite <- app_assoc).
  unfold path_depth in Hk. rewrite Hf, Hd in Hk. unfold routing_prefix.
  rewrite Hp' in Hlen |- *. rewrite Hf, Hf', Hd, Hd', Ht, Ht'.
  destruct (Z.eqb_spec k 0) as [|Hk0]; [done|].
  apply up_spec in Hc as (Hne & _ & Hcase).
  case_bool_decide as Hs; [simpl in Hk; lia|]. rewrite bool_decide_eq_false_2 in Hk by done.
  simpl in Hk. destruct Hcase as [[-> _]|[r ->]]; [done|].
  assert (count_slashes c ≤ len c).
  { unfold count_slashes, len. pose proof (length_filter (λ b, b = c_slash) c). lia. }
  assert (len c < 2 ^ 32) by (unfold len in *; rewrite !length_app in Hlen; lia).
  unfold as_u32 in Hk. rewrite Z.mod_small in Hk by (pose proof (count_slashes_nonneg c); lia).
  rewrite segment_end_ancestor by (done || lia).
  assert (length (h ++ [c_colon]) = length h + 1)%nat as Hl by (rewrite length_app; done).
  assert (∀ i x, take (length h + 1 + i) ((h ++ [c_colon]) ++ x) = (h ++ [c_colon]) ++ take i x)
    as Htake.
  { intros i x. rewrite <- Hl. apply take_app_add. }
  destruct (segment_end 0 0 k c) as [i|] eqn:Hi.
  - apply segment_end_lt in Hi. rewrite !Htake. by rewrite take_app_le by lia.
  - rewrite Htake. by rewrite take_app_length.
Qed.

(** ** Namespace roots *)

Lemma contains_colon c s : c_colon ∉ c → find c_colon (c ++ c_colon :: s) = Some (length c).
Proof. intros. unfold find. by rewrite split_once_app. Qed.

Lemma namespace_contains_down ns a p :
  SCOPED_PATH_SEP ∉ p → a ∈ get_ancestors p →
  namespace_contains_path ns a = true → namespace_contains_path ns p = true.
Proof.
  intros Hsep (pre & rel & c & Hp & Hc & ->)%ancestor_split.
  destruct (colon_split p pre rel Hsep Hp) as (h & -> & Hh & Heq & Hpre).
  destruct (Hpre c) as (Hf & Hd & Ht). destruct (Hpre rel) as (Hf' & Hd' & Ht').
  assert (p = (h ++ [c_colon]) ++ rel) as Hp' by (rewrite Heq; by rewrite <- app_assoc).
  rewrite Hp'. unfold namespace_contains_path. rewrite Hf, Hf', Ht, Ht'.
  destruct (find c_colon ns) as [nc|]; [|done].
  destruct (negb _); [done|]. set (a := (h ++ [c_colon]) ++ c).
  assert (a `prefix_of` (h ++ [c_colon]) ++ rel) as Hpa
    by by apply prefix_app, up_prefix.
  assert (a ≠ (h ++ [c_colon]) ++ rel) as Hlt.
  { intros H. apply app_inv_head in H. apply up_spec in Hc as (_ & Hlt & _). subst. lia. }
  case_bool_decide as Hna.
  - intros _. case_bool_decide; [done|]. destruct (ends_with (bs ":/") ns) eqn:He.
    { apply starts_with_spec. by rewrite Hna. }
    apply up_spec in Hc as (Hne & _ & [[-> _]|[r ->]]).
    { exfalso. rewrite Hna in He. unfold a, slash in He.
      rewrite <- app_assoc in He. change ([c_colon] ++ [c_slash]) with (bs ":/") in He.
      unfold ends_with in He. rewrite reverse_app in He.
      assert (starts_with (reverse (bs ":/")) (reverse (bs ":/") ++ reverse h) = true)
        by (apply starts_with_spec; by eexists). congruence. }
    replace ((h ++ [c_colon]) ++ c ++ c_slash :: r) with (a ++ c_slash :: r)
      by (unfold a; by rewrite <- !app_assoc).
    rewrite Hna, (proj2 (strip_prefix_Some a _ (c_slash :: r))) by done.
    apply starts_with_spec. by exists r.
  - case_bool_decide as Hnp; [done|]. destruct (ends_with (bs ":/") ns).
    + rewrite !starts_with_spec. intros Ha. by etrans.
    + destruct (strip_prefix ns a) as [x|] eqn:Hx; [|done]. apply strip_prefix_Some in Hx.
      destruct Hpa as [y Hy]. rewrite Hy, Hx, <- app_assoc.
      rewrite (proj2 (strip_prefix_Some ns _ (x ++ y))) by done.
      rewrite !starts_with_spec. intros [z ->]. exists (z ++ y). by rewrite app_assoc.
Qed.

(** ** Theorems *)

(** Placement is rendezvous hashing: the group is in range, no other group
    has a larger weight for the domain, and adding a group moves a domain only
    to the new group. *)
Theorem placement_rendezvous (xxh3_64 : bytes → Z) domain n :
  (∀ b, 0 ≤ xxh3_64 b) → 0 < n →
  0 ≤ place_domain xxh3_64 domain n < n ∧
  (∀ g, 0 ≤ g < n →
     domain_weight xxh3_64 domain g ≤
     domain_weight xxh3_64 domain (place_domain xxh3_64 domain n)) ∧
  (place_domain xxh3_64 domain (n + 1) = place_domain xxh3_64 domain n ∨
   place_domain xxh3_64 domain (n + 1) = n).
Proof.
  intros Hw Hn. split; [by apply place_domain_range|]. split.
  - intros g Hg. by apply place_domain_max.
  - apply place_domain_grow. lia.
Qed.

Definition byte_sum (b : bytes) : Z := foldr (λ x acc, byte_val x + acc) 0 b.

Lemma placement_rendezvous_witness :
  0 ≤ place_domain byte_sum (bs "h") 4 < 4 ∧
  (∀ g, 0 ≤ g < 4 →
     domain_weight byte_sum (bs "h") g ≤
     domain_weight byte_sum (bs "h") (place_domain byte_sum (bs "h") 4)) ∧
  (place_domain byte_sum (bs "h") (4 + 1) = place_domain byte_sum (bs "h") 4 ∨
   place_domain byte_sum (bs "h") (4 + 1) = 4).
Proof.
  apply (placement_rendezvous byte_sum (bs "h") 4); [|done].
  intros b. induction b as [|x b IH]; simpl; [done|]. pose proof (byte_val_range x). lia.
Defined.

(** The voters of a group are distinct members of the node list, as many as
    the replication factor allows, and no other node has a larger weight. *)
Theorem voters_are_heaviest (xxh3_64 : bytes → Z) g nodes rf :
  NoDup nodes → 0 ≤ rf →
  let vs := select_voters xxh3_64 g nodes rf in
  NoDup vs ∧ (∀ n, n ∈ vs → n ∈ nodes) ∧ len vs = Z.min rf (len nodes) ∧
  (∀ n m, n ∈ vs → m ∈ nodes → m ∉ vs →
     node_weight xxh3_64 g m ≤ node_weight xxh3_64 g n).
Proof.
  intros Hnd Hrf vs. set (weigh := λ n, (n, node_weight xxh3_64 g n)).
  pose proof (sort_by_weight_perm (weigh <$> nodes)) as Hperm.
  pose proof (sort_by_weight_sorted (weigh <$> nodes)) as Hsort.
  set (sorted := sort_by_weight (weigh <$> nodes)) in *.
  assert (vs = fst <$> take (Z.to_nat rf) sorted) as Hvs by done.
  assert (fst <$> sorted ≡ₚ nodes) as Hfst.
  { rewrite Hperm, <- list_fmap_compose. clear. induction nodes as [|n l IH]; [done|].
    cbn [fmap list_fmap]. by rewrite IH. }
  assert (∀ x, x ∈ sorted → x.2 = node_weight xxh3_64 g x.1) as Hweigh.
  { intros x. rewrite Hperm. by intros (n & -> & _)%list_elem_of_fmap. }
  assert (NoDup (fst <$> sorted)) as Hnds by by rewrite Hfst.
  assert (fst <$> sorted = vs ++ (fst <$> drop (Z.to_nat rf) sorted)) as Hsplit
    by by rewrite Hvs, <- fmap_app, take_drop.
  split_and!.
  - rewrite Hsplit in Hnds. by apply NoDup_app in Hnds as (? & _).
  - intros n Hn. rewrite <- Hfst, Hsplit. set_solver.
  - rewrite Hvs. unfold len. rewrite length_fmap, length_take.
    rewrite <- (Permutation_length Hfst), length_fmap. lia.
  - intros n m Hn Hm Hnot. rewrite <- Hfst, Hsplit in Hm. apply elem_of_app in Hm as [?|Hm]; [done|].
    rewrite Hvs in Hn. apply list_elem_of_fmap in Hn as (x & -> & Hx), Hm as (y & -> & Hy).
    assert (x ∈ sorted ∧ y ∈ sorted) as [Hxs Hys].
    { rewrite <- (take_drop (Z.to_nat rf) sorted). set_solver. }
    rewrite <- (Hweigh x Hxs), <- (Hweigh y Hys).
    rewrite <- (take_drop (Z.to_nat rf) sorted) in Hsort.
    apply StronglySorted_app in Hsort as (H & _ & _). by apply (H x y).
Qed.

Lemma voters_are_heaviest_witness :
  let vs := select_voters byte_sum 1 [3; 5; 9; 7] 3 in
  NoDup vs ∧ (∀ n, n ∈ vs → n ∈ [3; 5; 9; 7]) ∧ len vs = Z.min 3 (len [3; 5; 9; 7]) ∧
  (∀ n m, n ∈ vs → m ∈ [3; 5; 9; 7] → m ∉ vs →
     node_weight byte_sum 1 m ≤ node_weight byte_sum 1 n).
Proof.
  apply (voters_are_heaviest byte_sum 1 [3; 5; 9; 7] 3); [|done].
  by apply (bool_decide_eq_true_1 (NoDup _)).
Defined.

(** Routing keeps subtrees together: a path and every ancestor of it that
    has at least [k] segments get the same routing domain. *)
Theorem routing_keeps_subtrees p a k :
  SCOPED_PATH_SEP ∉ p → len p < 2 ^ 32 → is_strict_ancestor a p = true →
  0 ≤ k ≤ path_depth a → routing_prefix a k = routing_prefix p k.
Proof.
  intros Hsep Hlen Ha. apply routing_prefix_ancestor; [done..|].
  by apply bool_decide_eq_true in Ha.
Qed.

(** A namespace root that contains a path contains everything below it. *)
Theorem namespace_contains_subtrees ns p a :
  SCOPED_PATH_SEP ∉ p → is_strict_ancestor a p = true →
  namespace_contains_path ns a = true → namespace_contains_path ns p = true.
Proof.
  intros Hsep Ha. apply namespace_contains_down; [done|]. by apply bool_decide_eq_true in Ha.
Qed.

(** The effective replication factor is odd, at least one, within both the
    configured factor and the node count, and gives up at most one replica. *)
Theorem replication_factor_odd configured nodes :
  0 ≤ configured → is_u32 nodes →
  Z.odd (rf_effective configured nodes) = true ∧
  1 ≤ rf_effective configured nodes ≤ Z.max 1 (Z.min configured nodes) ∧
  Z.min configured nodes - 1 ≤ rf_effective configured nodes.
Proof. apply rf_effective_spec. Qed.
