(* ===== verification/Footprint.v ===== *)
(** * Footprints: what an operation may change

    A simulation lemma holds for every relation that is closed under the writes of
    a footprint; instantiated with [same I], two equal keyspaces in [I], it says
    that the operation preserves [I].  [touches] instantiates it once more: keys
    outside the footprint keep their value. *)

From Stdlib Require Import ZArith NArith Lia Strings.Byte.
From stdpp Require Import sorting countable base numbers gmap strings list.
From S2P Require Import Prelude RustStd StoreKeys Store StoreScan StoreSim KvView EngineTypes.
From S2P Require Import Engine.
Local Open Scope Z_scope.

(** ** Computations that leave the state alone *)

Definition reads {A} (m : txm Kv A) : Prop :=
  ∀ s, match m s with Ok (_, s') => s' = s | Err _ => True end.
Lemma reads_ret {A} (a : A) : reads (mret a).
Proof. done. Qed.
Lemma reads_fail {A} e : reads (A := A) (tfail e).
Proof. done. Qed.
Lemma reads_lift {A} (r : result A) : reads (lift r).
Proof. intros s. by destruct r. Qed.
Lemma reads_asks {A} (f : Kv → A) : reads (asks f).
Proof. done. Qed.
Lemma reads_bind {A B} (m : txm Kv A) (f : A → txm Kv B) :
  reads m → (∀ a, reads (f a)) → reads (m ≫= f).
Proof.
  intros Hm Hf s. specialize (Hm s). unfold mbind, txm_bind.
  destruct (m s) as [[a s']|e]; [subst s'; apply Hf|done].
Qed.
Lemma reads_scan {S : Type} c lo hi (visit : visitor S) s0 : reads (kv_scan c lo hi visit s0).
Proof. intros s. apply reads_lift. Qed.
Lemma reads_get_raw c k : reads (kv_get_raw c k).
Proof. done. Qed.
Lemma reads_find_first {A B} (xs : list A) (f : A → txm Kv (option B)) :
  (∀ x, reads (f x)) → reads (find_first xs f).
Proof.
  intros Hf. induction xs as [|x xs IH]; [apply reads_ret|]. apply reads_bind; [apply Hf|].
  intros [b|]; [apply reads_ret|done].
Qed.
Lemma reads_fold {A S} (f : S → A → txm Kv S) s0 xs :
  (∀ s x, reads (f s x)) → reads (fold_txm f s0 xs).
Proof.
  intros Hf. revert s0. induction xs as [|x xs IH]; intros s0; [apply reads_ret|].
  apply reads_bind; [apply Hf|done].
Qed.

Ltac solve_reads :=
  repeat first [apply reads_ret|apply reads_fail|apply reads_lift|apply reads_asks|apply reads_scan
               |apply reads_get_raw|apply reads_bind; [|intros ?]|apply reads_find_first; intros ?
               |apply reads_fold; intros ? ?|progress case_match|done].

Section footprint.
Context `{!Bincode StoredRecord}.

(** ** Effects of the write operations on a keyspace *)
Definition kv_put (s : Kv) (c : cf) (k b : bytes) : Kv := kv_upd s c (<[k := b]> (cf_map s c)).
Definition kv_del (s : Kv) (c : cf) (k : bytes) : Kv := kv_upd s c (delete k (cf_map s c)).
Definition index_key (now : Z) (c : cf) (k : bytes) (ttl : Z) : bytes :=
  expiry_key (quantized_index_expiry now (expiry_at now ttl)) (cf_name c) k.
Definition index_record (now ttl : Z) : bytes :=
  encode_record (Str [] (quantized_index_expiry now (expiry_at now ttl))).
Definition kv_put_ttl (s : Kv) (c : cf) (k : bytes) (mk : Z → StoredRecord) (ttl : Z) : Kv :=
  let s1 := kv_put s c k (encode_record (mk (expiry_at (kv_now s) ttl))) in
  if 0 <? ttl
  then kv_put s1 CF_EXPIRY (index_key (kv_now s) c k ttl) (index_record (kv_now s) ttl)
  else s1.

(** The record makers of [set_str] and [set_bytes]. *)
Inductive maker : (Z → StoredRecord) → Prop :=
| mk_str v : maker (Str v)
| mk_bytes v : maker (BytesRec v).

(** A property of keyspaces kept by every write in [W]. *)
Class Closed (W : footprint) (I : Kv → Prop) : Prop := {
  closed_ttl s c k mk ttl :
    W c k (WSet ttl) = true → maker mk → I s → I (kv_put_ttl s c k mk ttl);
  closed_raw s c k b : W c k WRaw = true → I s → I (kv_put s c k b);
  closed_del s c k : W c k WDel = true → I s → I (kv_del s c k)
}.

Definition same (I : Kv → Prop) (s t : Kv) : Prop := s = t ∧ I s.

Lemma sim_same {A} I (m : txm Kv A) :
  (∀ s, I s → match m s with Ok (_, s') => I s' | Err _ => True end) → sim (same I) m m.
Proof. intros H s t [<- HI]. specialize (H s HI). by destruct (m s) as [[a s']|e]. Qed.

Lemma sim_same_run {A} I (m : txm Kv A) s a s' :
  sim (same I) m m → I s → m s = Ok (a, s') → I s'.
Proof. intros H HI Hm. specialize (H s s (conj eq_refl HI)). rewrite Hm in H. apply H. Qed.

Lemma sim_reads {A} I (m : txm Kv A) : reads m → sim (same I) m m.
Proof. intros H. apply sim_same. intros s HI. specialize (H s). by destruct (m s) as [[a s']|]; subst. Qed.

Lemma reads_get_str c k : reads (w_get_str kv_now kv_get_raw c k).
Proof. unfold w_get_str. solve_reads. Qed.

Section closed.
Context (W : footprint) (I : Kv → Prop) `{!Closed W I}.

Lemma sim_same_put_ttl c k mk ttl :
  W c k (WSet ttl) = true → maker mk →
  sim (same I) (put_expiring kv_now kv_put_raw c k mk ttl) (put_expiring kv_now kv_put_raw c k mk ttl).
Proof.
  intros HW Hm. apply sim_same. intros s HI. pose proof (closed_ttl s c k mk ttl HW Hm HI) as H.
  unfold kv_put_ttl in H. unfold put_expiring, write_expiry, mbind, txm_bind, asks, kv_put_raw.
  simpl. by destruct (0 <? ttl).
Qed.

Lemma sim_same_del c k :
  W c k WDel = true → sim (same I) (kv_delete_raw c k) (kv_delete_raw c k).
Proof. intros HW. apply sim_same. intros s HI. by apply closed_del. Qed.

#[export] Instance same_read_sim : ReadSim (same I).
Proof.
  split; intros.
  - by destruct H as [-> _].
  - apply sim_reads, reads_get_str.
  - apply sim_reads. unfold smembers_limited. simpl. unfold kv_smembers_limited, kv_scan_prefix.
    solve_reads.
  - apply sim_reads. simpl. unfold kv_smembers_page, kv_scan_prefix. solve_reads.
  - apply sim_reads. simpl. unfold w_sismember. solve_reads.
  - apply sim_reads. simpl. unfold kv_has_live_member, kv_scan_prefix. solve_reads.
Qed.

#[export] Instance same_store_sim : StoreSim W (same I).
Proof.
  split; [apply _|..]; intros.
  - apply sim_same_put_ttl; [done|constructor].
  - cbn [pexpire_str kv_store]. unfold w_pexpire_str. apply sim_bind; [apply sim_reads, reads_get_str|].
    intros [v|]; [|apply sim_ret]. apply sim_same_put_ttl; [done|constructor].
  - by apply sim_same_del.
  - apply sim_same_put_ttl; [done|constructor].
  - by apply sim_same_del.
Qed.

#[export] Instance same_raw_sim : RawSim W (same I).
Proof.
  split; [apply _|..]; intros.
  - by apply sim_reads.
  - apply sim_same. intros s HI. by apply closed_raw.
  - by apply sim_same_del.
  - apply sim_same_put_ttl; [done|constructor].
  - apply sim_reads, reads_scan.
Qed.
End closed.

(** ** Frames *)

(** What a run with footprint [W] leaves alone.  The expiry index may only gain
    entries, for the leased records written. *)
Record frame (W : footprint) (s s' : Kv) : Prop := {
  fm_now : kv_now s' = kv_now s;
  fm_key c k : c ≠ CF_EXPIRY → (∀ w, W c k w = false) → cf_map s' c !! k = cf_map s c !! k;
  fm_keep ek : is_Some (cf_map s CF_EXPIRY !! ek) → is_Some (cf_map s' CF_EXPIRY !! ek);
  fm_index ek : is_Some (cf_map s' CF_EXPIRY !! ek) → is_Some (cf_map s CF_EXPIRY !! ek) ∨
    ∃ c k ttl, W c k (WSet ttl) = true ∧ 0 < ttl ∧ ek = index_key (kv_now s) c k ttl
}.

Lemma frame_refl W s : frame W s s.
Proof. split; eauto. Qed.

Lemma cf_map_put s c k b c' k' :
  cf_map (kv_put s c k b) c' !! k' =
  if decide (c = c' ∧ k = k') then Some b else cf_map s c' !! k'.
Proof.
  unfold kv_put. rewrite cf_map_upd. destruct (decide (c = c')) as [->|Hc].
  - destruct (decide (k = k')) as [->|Hk].
    + by rewrite lookup_insert_eq, decide_True.
    + rewrite lookup_insert_ne by done. by rewrite decide_False by tauto.
  - by rewrite decide_False by tauto.
Qed.

Lemma cf_map_del s c k c' k' :
  cf_map (kv_del s c k) c' !! k' =
  if decide (c = c' ∧ k = k') then None else cf_map s c' !! k'.
Proof.
  unfold kv_del. rewrite cf_map_upd. destruct (decide (c = c')) as [->|Hc].
  - destruct (decide (k = k')) as [->|Hk].
    + by rewrite lookup_delete_eq, decide_True.
    + rewrite lookup_delete_ne by done. by rewrite decide_False by tauto.
  - by rewrite decide_False by tauto.
Qed.

Lemma cf_map_put_ttl s c k mk ttl c' k' :
  c' ≠ CF_EXPIRY →
  cf_map (kv_put_ttl s c k mk ttl) c' !! k' =
  if decide (c = c' ∧ k = k') then Some (encode_record (mk (expiry_at (kv_now s) ttl)))
  else cf_map s c' !! k'.
Proof.
  intros Hc. unfold kv_put_ttl. destruct (0 <? ttl); [|apply cf_map_put].
  rewrite cf_map_put, decide_False by naive_solver. apply cf_map_put.
Qed.

(** Footprints that write the index only as [put_ttl] does. *)
Class NoIndex (W : footprint) : Prop := no_index k w : W CF_EXPIRY k w = false.

#[export] Instance frame_closed W s0 : NoIndex W → Closed W (frame W s0).
Proof.
  intros HW. split.
  - intros s c k mk ttl Hw _ [Hn Hk Hkeep Hi].
    assert (c ≠ CF_EXPIRY) as Hc by (intros ->; by rewrite HW in Hw).
    assert (∀ ek, cf_map (kv_put_ttl s c k mk ttl) CF_EXPIRY !! ek =
      if decide (0 < ttl ∧ index_key (kv_now s) c k ttl = ek)
      then Some (index_record (kv_now s) ttl) else cf_map s CF_EXPIRY !! ek) as Hex.
    { intros ek. unfold kv_put_ttl. destruct (Z.ltb_spec 0 ttl).
      - rewrite !cf_map_put. rewrite (decide_False (P := c = CF_EXPIRY ∧ _)) by tauto.
        repeat case_decide; tauto.
      - rewrite cf_map_put, !decide_False by (lia || tauto). done. }
    split.
    + rewrite <- Hn. unfold kv_put_ttl. by destruct (0 <? ttl).
    + intros c' k' Hc' Hw'. rewrite cf_map_put_ttl by done.
      destruct (decide (c = c' ∧ k = k')) as [[-> ->]|Hd]; [|by apply Hk]. by rewrite Hw' in Hw.
    + intros ek Hek. rewrite Hex. destruct (decide (0 < ttl ∧ _)); [done|by apply Hkeep].
    + intros ek. rewrite Hex. destruct (decide (0 < ttl ∧ _)) as [[Ht <-]|Hd]; [|apply Hi].
      intros _. right. exists c, k, ttl. by rewrite Hn.
  - intros s c k b Hw [Hn Hk Hkeep Hi].
    assert (c ≠ CF_EXPIRY) as Hc by (intros ->; by rewrite HW in Hw). split; [done|..].
    + intros c' k' Hc' Hw'. rewrite cf_map_put. case_decide as Hd; [|by apply Hk].
      destruct Hd as [-> ->]. by rewrite Hw' in Hw.
    + intros ek. rewrite cf_map_put, decide_False by naive_solver. apply Hkeep.
    + intros ek. rewrite cf_map_put, decide_False by naive_solver. apply Hi.
  - intros s c k Hw [Hn Hk Hkeep Hi].
    assert (c ≠ CF_EXPIRY) as Hc by (intros ->; by rewrite HW in Hw). split; [done|..].
    + intros c' k' Hc' Hw'. rewrite cf_map_del. case_decide as Hd; [|by apply Hk].
      destruct Hd as [-> ->]. by rewrite Hw' in Hw.
    + intros ek. rewrite cf_map_del, decide_False by naive_solver. apply Hkeep.
    + intros ek. rewrite cf_map_del, decide_False by naive_solver. apply Hi.
Qed.

Lemma frame_run {A} W (m : txm Kv A) s a s' :
  sim (same (frame W s)) m m → m s = Ok (a, s') → frame W s s'.
Proof. intros H. apply sim_same_run; [done|apply frame_refl]. Qed.
End footprint.

#[export] Instance lock_write_no_index : NoIndex lock_write.
Proof. by intros k [ttl| |]. Qed.
#[export] Instance policy_write_no_index : NoIndex policy_write.
Proof. by intros k [ttl| |]. Qed.
