(* ===== verification/Queue.v ===== *)
(** * The persisted wait queue ([src/queue.rs])

    Queue entries, the owner and path indexes and the unit counter of one group,
    generic over the transaction as the engine is (the source uses the concrete
    [WriteTxn]; here any [RawTxn]).  The encoding of an entry is bincode's. *)

From Stdlib Require Import ZArith NArith Lia Strings.Byte.
From stdpp Require Import sorting countable base numbers gmap strings list.
From S2P Require Import Prelude RustStd StoreKeys Store StoreScan StoreSim EngineTypes Engine.
From S2P Require Import Paths Placement.
Local Open Scope Z_scope.

Definition QUEUE_ENTRY_TTL_MS : Z := 60000.
Definition QUEUE_SCAN_LIMIT : Z := 65536.

Record QueueEntry := {
  qe_seq : Z;
  qe_owner : str;
  qe_namespace : str;
  qe_args : AcquireArgs;
  qe_policy : LockPolicy
}.
#[export] Instance QueueEntry_eq_dec : EqDecision QueueEntry.
Proof. solve_decision. Defined.

(** ** Contended paths *)

Definition is_new (r : LockReq) : bool := bool_decide (lr_state r = New).
Definition new_paths (args : AcquireArgs) : list (str * Mode) :=
  (λ r, (lr_path r, lr_mode r)) <$> filter (λ r, is_new r = true) (requests args).
Definition new_scoped_paths (args : AcquireArgs) (namespace : str) : list (str * Mode) :=
  (λ x, (scoped_path namespace x.1, x.2)) <$> new_paths args.
Definition queue_units (args : AcquireArgs) : Z := Z.max 1 (len (new_paths args)).

Definition requests_conflict (a_algorithm : LockAlgorithm) (a_path : str) (a_mode : Mode)
    (b_algorithm : LockAlgorithm) (b_path : str) (b_mode : Mode) : bool :=
  locks_conflict a_algorithm a_path a_mode b_algorithm b_path b_mode.

(** The first new path of [args] that conflicts with one of [paths]. *)
Definition args_conflicts_with (args : AcquireArgs) (namespace : str) (policy : LockPolicy)
    (paths : list (str * Mode * LockAlgorithm)) : option str :=
  head (fst <$> filter (λ a : str * Mode,
          existsb (λ b : str * Mode * LockAlgorithm,
            requests_conflict (algorithm policy) a.1 a.2 b.2 b.1.1 b.1.2) paths = true)
        (new_scoped_paths args namespace)).

(** ** Reserved paths of a grant sweep *)

Abbreviation ReservedPaths := (gmap str (list (Mode * LockAlgorithm))).

Definition entries_conflict (alg : LockAlgorithm) (path : str) (mode : Mode) (other : str)
    (entries : list (Mode * LockAlgorithm)) : bool :=
  existsb (λ e : Mode * LockAlgorithm, requests_conflict alg path mode e.2 other e.1) entries.

(** [by_path.get(other).is_some_and(..)] *)
Definition path_entry_conflicts (by_path : ReservedPaths) (path : str) (mode : Mode)
    (alg : LockAlgorithm) (other : str) : bool :=
  match by_path !! other with
  | Some entries => entries_conflict alg path mode other entries
  | None => false
  end.

(** The [for .. range(prefix..)] loop: stops at the first key without the prefix. *)
Fixpoint range_conflicts (prefix path : str) (mode : Mode) (alg : LockAlgorithm)
    (l : list (str * list (Mode * LockAlgorithm))) : bool :=
  match l with
  | [] => false
  | (other, entries) :: l =>
      if negb (starts_with prefix other) then false
      else if entries_conflict alg path mode other entries then true
      else range_conflicts prefix path mode alg l
  end.

Definition path_conflicts (by_path : ReservedPaths) (path : str) (mode : Mode)
    (alg : LockAlgorithm) : bool :=
  if path_entry_conflicts by_path path mode alg path then true
  else if existsb (path_entry_conflicts by_path path mode alg) (get_ancestors path) then true
  else if bool_decide (mode = Write) && recursive alg then
    let prefix := descendant_index_prefix path in
    range_conflicts prefix path mode alg (btree_range (Some prefix) None by_path)
  else false.

Definition reserved_conflicts (by_path : ReservedPaths) (args : AcquireArgs) (namespace : str)
    (policy : LockPolicy) : bool :=
  existsb (λ x : str * Mode, path_conflicts by_path x.1 x.2 (algorithm policy))
    (new_scoped_paths args namespace).

Definition reserve_path (alg : LockAlgorithm) (by_path : ReservedPaths) (x : str * Mode)
    : ReservedPaths :=
  <[x.1 := default [] (by_path !! x.1) ++ [(x.2, alg)]]> by_path.
Definition reserved_insert (by_path : ReservedPaths) (namespace : str) (args : AcquireArgs)
    (alg : LockAlgorithm) : ReservedPaths :=
  foldl (reserve_path alg) by_path (new_scoped_paths args namespace).

Section queue.
Context `{!Bincode StoredRecord, !Bincode QueueEntry} {T : Type} `{!RawTxn T}.

Definition decode_queue_entry (b : bytes) : option QueueEntry := bincode_decode b.

Definition stored_queue_units (raw : bytes) : Z :=
  match decode_record raw with
  | Ok (BytesRec v _) =>
      match decode_queue_entry v with
      | Some entry => queue_units (qe_args entry)
      | None => 1
      end
  | _ => 1
  end.

(** ** Sequence and unit counters *)

Definition next_seq : txm T Z :=
  r ← get_raw CF_META META_QUEUE_SEQ_KEY;
  current ← match r with
            | Some b =>
                rec ← lift (decode_record b);
                mret match rec with
                     | Counter v => if 0 <=? v then v else 0
                     | _ => 0
                     end
            | None => mret 0
            end;
  let next := saturating_add current 1 in
  put_raw CF_META META_QUEUE_SEQ_KEY (encode_record (Counter (as_i64 next)));;
  mret next.

Definition set_queue_count (count : Z) : txm T unit :=
  put_raw CF_META META_QUEUE_COUNT_KEY (encode_record (Counter (Z.min count i64_max))).

Definition count_visit : visitor Z := λ key value count,
  Ok (match decode_queue_entry_seq key with
      | Some _ => saturating_add count (stored_queue_units value)
      | None => count
      end, true).

Definition queue_count : txm T Z :=
  r ← get_raw CF_META META_QUEUE_COUNT_KEY;
  stored ← match r with
           | Some b =>
               rec ← lift (decode_record b);
               mret match rec with Counter v => Some (Z.max v 0) | _ => None end
           | None => mret None
           end;
  match stored with
  | Some v => mret v
  | None =>
      count ← scan_merged CF_QUEUE (Some queue_entry_lower) (Some queue_entry_upper)
                count_visit 0;
      set_queue_count count;;
      mret count
  end.

Definition reserve_queue_units (old_units new_units : Z) : txm T unit :=
  count ← queue_count;
  let next := saturating_add (saturating_sub count old_units) new_units in
  if QUEUE_SCAN_LIMIT <? next then tfail (SetScanLimitExceeded "enqueue" QUEUE_SCAN_LIMIT)
  else set_queue_count next.

Definition release_queue_units (units : Z) : txm T unit :=
  count ← queue_count;
  set_queue_count (saturating_sub count units).

(** ** Entries and indexes *)

Definition owner_seq (owner : str) : txm T (option Z) :=
  s ← get_str CF_QUEUE (queue_owner_key owner);
  mret (match s with Some s => parse_u64 s | None => None end).

Definition read_entry (seq : Z) : txm T (option QueueEntry) :=
  r ← get_bytes CF_QUEUE (queue_entry_key seq);
  mret (match r with Some b => decode_queue_entry b | None => None end).

Definition write_path_indexes (entry : QueueEntry) (ttl : Z) : txm T unit :=
  for_each (new_scoped_paths (qe_args entry) (qe_namespace entry)) (λ x : str * Mode,
    set_str CF_QUEUE (queue_path_key x.1 (qe_seq entry)) (bs "1") ttl).

Definition delete_path_indexes (entry : QueueEntry) : txm T unit :=
  for_each (new_scoped_paths (qe_args entry) (qe_namespace entry)) (λ x : str * Mode,
    del CF_QUEUE (queue_path_key x.1 (qe_seq entry))).

Definition expire_entry (primary_key : bytes) : txm T bool :=
  match decode_queue_entry_seq primary_key with
  | None => mret false
  | Some seq =>
      r ← get_raw CF_QUEUE primary_key;
      match r with
      | None => mret false
      | Some raw =>
          match decode_record raw with
          | Ok (BytesRec v _) =>
              match decode_queue_entry v with
              | Some entry =>
                  delete_path_indexes entry;;
                  s ← owner_seq (qe_owner entry);
                  if bool_decide (s = Some seq)
                  then del CF_QUEUE (queue_owner_key (qe_owner entry)) else mret tt
              | None => mret tt
              end
          | _ => mret tt
          end;;
          release_queue_units (stored_queue_units raw);;
          del CF_QUEUE primary_key;;
          mret true
      end
  end.

(** The sequence number a waiter gets, and the units its old entry held. *)
Definition enqueue_seq (namespace : str) (args : AcquireArgs) (policy : LockPolicy)
    : txm T (Z * Z) :=
  let owner := owner_id args in
  s ← owner_seq owner;
  match s with
  | Some existing =>
      e ← read_entry existing;
      match e with
      | Some entry =>
          let old_units := queue_units (qe_args entry) in
          if bool_decide (qe_namespace entry = namespace) && bool_decide (qe_args entry = args)
             && bool_decide (qe_policy entry = policy)
          then delete_path_indexes entry;; mret (existing, old_units)
          else
            delete_path_indexes entry;;
            del CF_QUEUE (queue_entry_key existing);;
            del CF_QUEUE (queue_owner_key owner);;
            n ← next_seq; mret (n, old_units)
      | None =>
          expire_entry (queue_entry_key existing);;
          del CF_QUEUE (queue_owner_key owner);;
          n ← next_seq; mret (n, 0)
      end
  | None => n ← next_seq; mret (n, 0)
  end.

Definition enqueue (namespace : str) (args : AcquireArgs) (policy : LockPolicy) : txm T Z :=
  '(seq, old_units) ← enqueue_seq namespace args policy;
  reserve_queue_units old_units (queue_units args);;
  let ttl := if 0 <? queue_ttl_ms args then queue_ttl_ms args else QUEUE_ENTRY_TTL_MS in
  let entry := {| qe_seq := seq; qe_owner := owner_id args; qe_namespace := namespace;
                  qe_args := args; qe_policy := policy |} in
  set_bytes CF_QUEUE (queue_entry_key seq) (bincode_encode entry) ttl;;
  set_str CF_QUEUE (queue_owner_key (owner_id args)) (to_string seq) ttl;;
  write_path_indexes entry ttl;;
  mret seq.

Definition dequeue (owner : str) : txm T unit :=
  s ← owner_seq owner;
  match s with
  | Some seq =>
      raw ← get_raw CF_QUEUE (queue_entry_key seq);
      e ← read_entry seq;
      match e with Some entry => delete_path_indexes entry | None => mret tt end;;
      match raw with
      | Some raw => release_queue_units (stored_queue_units raw)
      | None => mret tt
      end;;
      del CF_QUEUE (queue_entry_key seq)
  | None => mret tt
  end;;
  del CF_QUEUE (queue_owner_key owner).

(** ** Scans *)

(** A live entry of the queue, [None] for anything else. *)
Definition live_entry (now : Z) (key value : bytes) : option QueueEntry :=
  match decode_queue_entry_seq key with
  | None => None
  | Some _ =>
      match decode_record value with
      | Ok (BytesRec v exp) => if expired exp now then None else decode_queue_entry v
      | _ => None
      end
  end.

Definition scan_visit (now : Z) : visitor (list QueueEntry * Z) := λ key value '(out, raw),
  let raw := raw + 1 in
  match decode_queue_entry_seq key with
  | None => Ok ((out, raw), true)
  | Some _ =>
      let out := match live_entry now key value with
                 | Some entry => out ++ [entry]
                 | None => out
                 end in
      Ok ((out, raw), (len out <? QUEUE_SCAN_LIMIT) && (raw <? QUEUE_SCAN_LIMIT))
  end.

Definition scan : txm T (list QueueEntry) :=
  now ← asks now_ms;
  '(out, _) ← scan_merged CF_QUEUE (Some queue_entry_lower) (Some queue_entry_upper)
                (scan_visit now) ([], 0);
  mret out.

Definition scan_all_visit (now : Z) : visitor (list QueueEntry) := λ key value out,
  Ok (match live_entry now key value with
      | Some entry => out ++ [entry]
      | None => out
      end, true).

Definition scan_all : txm T (list QueueEntry) :=
  now ← asks now_ms;
  scan_merged CF_QUEUE (Some queue_entry_lower) (Some queue_entry_upper) (scan_all_visit now) [].

Definition touches_namespace (namespace : str) (args : AcquireArgs) : bool :=
  existsb (λ r, namespace_contains_path namespace (lr_path r)) (requests args) ||
  existsb (λ r, namespace_contains_path namespace (rel_path r)) (release_requests args).

Definition clear_namespace (namespace : str) (include_legacy_routes : bool)
    (preserved_namespaces : gset str) : txm T (list str) :=
  entries ← scan_all;
  fold_txm (λ cleared entry,
    let legacy_match := include_legacy_routes && touches_namespace namespace (qe_args entry)
                        && negb (bool_decide (qe_namespace entry ∈ preserved_namespaces)) in
    if bool_decide (qe_namespace entry = namespace) || legacy_match
    then dequeue (qe_owner entry);; mret (cleared ++ [qe_owner entry])
    else mret cleared) [] entries.

(** ** Admission *)

Definition owner_holds_or_covers (owner path : str) (mode : Mode) (alg : LockAlgorithm)
    : txm T bool :=
  w ← get_str WR_CF (wr_key path);
  if bool_decide (w = Some owner) then mret true
  else
    s ← (if is_semaphore alg then sismember SEM_CF (sem_prefix path) owner else mret false);
    if s : bool then mret true
    else
      a ← (if recursive alg then
             find_first (get_ancestors path) (λ anc,
               w ← get_str WR_CF (wr_key anc);
               mret (if bool_decide (w = Some owner) then Some tt else None))
           else mret None);
      match a with
      | Some _ => mret true
      | None =>
          r ← (if bool_decide (mode = Read) then sismember RD_CF (rd_prefix path) owner
               else mret false);
          mret r
      end.

(** The [for i in (0..upper.len()).rev()] loop: bump the last byte below 0xff. *)
Fixpoint prefix_successor_from (prefix : bytes) (i : nat) : option bytes :=
  match i with
  | O => None
  | S i =>
      match prefix !! i with
      | Some b => if bool_decide (b = xff) then prefix_successor_from prefix i
                  else Some (take i prefix ++ [byte_of (byte_val b + 1)])
      | None => None
      end
  end.
Definition prefix_successor (prefix : bytes) : option bytes :=
  prefix_successor_from prefix (length prefix).

Definition queue_index_prefix_range (path_prefix : str) : bytes * option bytes :=
  let lower := QUEUE_PATH_TAG :: path_prefix in (lower, prefix_successor lower).

Definition seqs_visit (now : Z) : visitor (gset Z * Z * bool) := λ key value '(out, raw, exceeded),
  if QUEUE_SCAN_LIMIT <=? raw then Ok ((out, raw, true), false)
  else
    let out := match decode_queue_path_seq key with
               | Some seq =>
                   match decode_record value with
                   | Ok (Str _ exp) => if expired exp now then out else {[ seq ]} ∪ out
                   | _ => out
                   end
               | None => out
               end in
    Ok ((out, raw + 1, exceeded), true).

(** The scan shared by [collect_exact_path_seqs] and [collect_prefixed_path_seqs]. *)
Definition collect_path_seqs (operation : string) (lower : bytes) (upper : option bytes)
    (out : gset Z) : txm T (gset Z) :=
  now ← asks now_ms;
  '(out, _, exceeded) ← scan_merged CF_QUEUE (Some lower) upper (seqs_visit now) (out, 0, false);
  if exceeded : bool then tfail (SetScanLimitExceeded operation QUEUE_SCAN_LIMIT)
  else mret out.
Definition collect_exact_path_seqs (out : gset Z) (path : str) : txm T (gset Z) :=
  collect_path_seqs "queue exact-path scan" (queue_path_prefix path) (Some (queue_path_upper path))
    out.
Definition collect_prefixed_path_seqs (out : gset Z) (path_prefix : str) : txm T (gset Z) :=
  let (lower, upper) := queue_index_prefix_range path_prefix in
  collect_path_seqs "queue prefix scan" lower upper out.

(** The candidates one path contributes. *)
Definition collect_candidates (descendants : bool) (out : gset Z) (path : str) : txm T (gset Z) :=
  out ← collect_exact_path_seqs out path;
  out ← fold_txm collect_exact_path_seqs out (get_ancestors path);
  if descendants then collect_prefixed_path_seqs out (descendant_index_prefix path) else mret out.

(** Ascending iteration of a [BTreeSet<u64>]. *)
Definition ascending (s : gset Z) : list Z := merge_sort Z.le (elements s).

Definition admission_step (owner : str) (alg : LockAlgorithm)
    (acc : list (str * Mode * LockAlgorithm) * gset Z) (x : str * Mode)
    : txm T (list (str * Mode * LockAlgorithm) * gset Z) :=
  let '(mine, seqs) := acc in
  covered ← owner_holds_or_covers owner x.1 x.2 alg;
  if covered : bool then mret (mine, seqs)
  else
    seqs ← collect_candidates (bool_decide (x.2 = Write) && recursive alg) seqs x.1;
    mret (mine ++ [(x.1, x.2, alg)], seqs).

Definition blocked_by_earlier (namespace : str) (args : AcquireArgs) (policy : LockPolicy)
    : txm T (option (str * str * Reason)) :=
  let owner := owner_id args in
  '(mine, candidate_seqs) ← fold_txm (admission_step owner (algorithm policy)) ([], ∅)
                              (new_scoped_paths args namespace);
  if bool_decide (mine = []) then mret None
  else if bool_decide (candidate_seqs = ∅) then mret None
  else
    my_seq ← owner_seq owner;
    find_first (ascending candidate_seqs) (λ seq,
      e ← read_entry seq;
      mret match e with
           | None => None
           | Some entry =>
               if bool_decide (qe_owner entry = owner) then None
               else if match my_seq with Some my => my <=? qe_seq entry | None => false end
               then None
               else match args_conflicts_with (qe_args entry) (qe_namespace entry)
                            (qe_policy entry) mine with
                    | Some path =>
                        Some (qe_owner entry, public_path (qe_namespace entry) path, Queued)
                    | None => None
                    end
           end).

(** ** Grant sweeps *)
Section sweep.
Context (try_acquire : str → AcquireArgs → LockPolicy → txm T AcquireOutcome).

Definition sweep_step (acc : list str * ReservedPaths) (entry : QueueEntry)
    : txm T (list str * ReservedPaths) :=
  let '(notify, reserved) := acc in
  let reserve := reserved_insert reserved (qe_namespace entry) (qe_args entry)
                   (algorithm (qe_policy entry)) in
  if reserved_conflicts reserved (qe_args entry) (qe_namespace entry) (qe_policy entry)
  then mret (notify, reserve)
  else
    outcome ← try_acquire (qe_namespace entry) (qe_args entry) (qe_policy entry);
    match outcome with
    | AcquireOk _ => dequeue (qe_owner entry);; mret (notify ++ [qe_owner entry], reserved)
    | Conflict _ _ StaleFencingToken => mret (notify ++ [qe_owner entry], reserve)
    | Conflict _ _ reason =>
        if negb (is_queueable reason) then dequeue (qe_owner entry);; mret (notify, reserved)
        else mret (notify, reserve)
    | Lost _ _ => dequeue (qe_owner entry);; mret (notify, reserved)
    | AcquireQueued _ _ _ _ => mret (notify, reserve)
    end.

Definition run_grant_sweep (entries : list QueueEntry) : txm T (list str) :=
  '(notify, _) ← fold_txm sweep_step ([], ∅) entries;
  mret notify.

Definition grant_sweep : txm T (list str) := entries ← scan; run_grant_sweep entries.

Definition read_entries (seqs : list Z) : txm T (list QueueEntry) :=
  fold_txm (λ entries seq,
    e ← read_entry seq;
    mret match e with Some entry => entries ++ [entry] | None => entries end) [] seqs.

Definition grant_sweep_for_paths (freed_scoped : list str) : txm T (list str) :=
  if bool_decide (freed_scoped = []) then mret []
  else
    candidate_seqs ← fold_txm (collect_candidates true) ∅ freed_scoped;
    if bool_decide (candidate_seqs = ∅) then mret []
    else
      entries ← read_entries (ascending candidate_seqs);
      run_grant_sweep entries.
End sweep.
End queue.
