(* ===== verification/QueueSweep.v ===== *)
(** * Grant sweeps serve a list of waiters in line ([src/queue.rs])

    [ReservedPaths] answers, with three map lookups, whether a request conflicts
    with any reserved one.  [path_conflicts_spec] shows the lookups find exactly
    the conflicts a pairwise comparison would, and [run_grant_sweep_waiters] that
    a sweep over a list of waiters is the obvious one: a waiter is tried unless an
    earlier waiter of the list that stays queued conflicts with it. *)

From Stdlib Require Import ZArith NArith Lia Strings.Byte.
From stdpp Require Import sorting countable base numbers gmap strings list.
From S2P Require Import Prelude RustStd StoreKeys Store StoreScan StoreSim EngineTypes Engine.
From S2P Require Import Paths Placement Queue.
Local Open Scope Z_scope.

(** ** Reserved paths *)

Lemma entries_conflict_spec alg path mode other entries :
  entries_conflict alg path mode other entries = true ↔
  ∃ e : Mode * LockAlgorithm, e ∈ entries ∧ requests_conflict alg path mode e.2 other e.1 = true.
Proof.
  unfold entries_conflict. rewrite existsb_exists. by setoid_rewrite list_elem_of_In.
Qed.

(** Keys with a prefix come first among the keys from the prefix on. *)
Lemma prefix_block (p k k' : str) :
  bytes_leb p k = true → bytes_ltb k k' = true → p `prefix_of` k' → p `prefix_of` k.
Proof.
  intros Hk Hlt Hk'. apply prefix_range in Hk'. unfold in_range in Hk'.
  apply andb_true_iff in Hk' as [_ Hu].
  apply prefix_range. unfold in_range. apply andb_true_iff. split; [done|].
  destruct (prefix_upper_bound p); [|done]. by eapply bytes_ltb_trans.
Qed.

Lemma range_conflicts_spec prefix path mode alg l :
  StronglySorted key_lt l →
  (∀ k e, (k, e) ∈ l → bytes_leb prefix k = true) →
  range_conflicts prefix path mode alg l = true ↔
  ∃ k entries, (k, entries) ∈ l ∧ prefix `prefix_of` k ∧
    entries_conflict alg path mode k entries = true.
Proof.
  induction l as [|[k es] l IH]; intros Hs Hge; simpl.
  { split; [done|]. by intros (? & ? & ?%not_elem_of_nil & _). }
  apply sorted_cons_inv in Hs as [Hs Hk].
  assert (∀ k' e', (k', e') ∈ l → bytes_leb prefix k' = true) as Hge'
    by (intros; eapply Hge; by right).
  destruct (starts_with prefix k) eqn:Hp; simpl.
  - apply starts_with_spec in Hp. destruct (entries_conflict alg path mode k es) eqn:He.
    + split; [intros _|done]. exists k, es. split_and!; [left|done|done].
    + rewrite (IH Hs Hge'). split.
      * intros (k' & e' & ? & ? & ?). exists k', e'. split_and!; [by right|done|done].
      * intros (k' & e' & [[= -> ->]|?]%elem_of_cons & ? & ?); [congruence|]. by exists k', e'.
  - split; [done|]. intros (k' & e' & Hin & Hp' & _). exfalso.
    assert (¬ prefix `prefix_of` k) as Hn.
    { rewrite <- starts_with_spec. by rewrite Hp. }
    apply elem_of_cons in Hin as [[= -> ->]|Hin]; [done|].
    apply Hn. apply (prefix_block _ _ k'); [eapply Hge; by left| |done].
    exact (Hk _ Hin).
Qed.

Lemma path_entry_conflicts_spec by_path path mode alg other :
  path_entry_conflicts by_path path mode alg other = true ↔
  ∃ entries e, by_path !! other = Some entries ∧ e ∈ entries ∧
    requests_conflict alg path mode e.2 other e.1 = true.
Proof.
  unfold path_entry_conflicts. destruct (by_path !! other) as [es|].
  - rewrite entries_conflict_spec. naive_solver.
  - naive_solver.
Qed.

Lemma path_conflicts_spec by_path path mode alg :
  path_conflicts by_path path mode alg = true ↔
  ∃ other entries e, by_path !! other = Some entries ∧ e ∈ entries ∧
    requests_conflict alg path mode e.2 other e.1 = true.
Proof.
  assert (range_conflicts (descendant_index_prefix path) path mode alg
            (btree_range (Some (descendant_index_prefix path)) None by_path) = true ↔
          ∃ other entries e, by_path !! other = Some entries ∧ e ∈ entries ∧
            descendant_index_prefix path `prefix_of` other ∧
            requests_conflict alg path mode e.2 other e.1 = true) as Hrange.
  { rewrite range_conflicts_spec.
    - setoid_rewrite btree_range_elem. setoid_rewrite entries_conflict_spec. split.
      + intros (k & es & [? _] & ? & e & ? & ?). by exists k, es, e.
      + intros (k & es & e & ? & ? & Hp & ?). exists k, es. split_and!; [done| |done|by exists e].
        unfold in_range. destruct Hp as [r ->]. by rewrite bytes_leb_extend.
    - apply btree_range_sorted.
    - intros k e [_ Hr]%btree_range_elem. unfold in_range in Hr. by apply andb_true_iff in Hr as [? _]. }
  unfold path_conflicts. split.
  - destruct (path_entry_conflicts by_path path mode alg path) eqn:H1.
    { intros _. apply path_entry_conflicts_spec in H1. naive_solver. }
    destruct (existsb _ (get_ancestors path)) eqn:H2.
    { intros _. apply existsb_exists in H2 as (a & _ & H2%path_entry_conflicts_spec). naive_solver. }
    destruct (_ && _); [|done]. rewrite Hrange. naive_solver.
  - intros (other & es & e & Hl & He & Hc).
    destruct (path_entry_conflicts by_path path mode alg path) eqn:H1; [done|].
    destruct (existsb _ (get_ancestors path)) eqn:H2; [done|].
    assert (path ≠ other) as Hne.
    { intros <-. apply not_true_iff_false in H1. destruct H1. apply path_entry_conflicts_spec. eauto. }
    assert (other ∉ get_ancestors path) as Hna.
    { intros Hin. apply not_true_iff_false in H2. destruct H2. apply existsb_exists.
      exists other. split; [by apply list_elem_of_In|]. apply path_entry_conflicts_spec. eauto. }
    pose proof Hc as Hc'. unfold requests_conflict, locks_conflict in Hc. destruct (_ || _); [done|].
    rewrite bool_decide_eq_false_2 in Hc by done.
    unfold is_strict_ancestor in Hc. rewrite (bool_decide_eq_false_2 (other ∈ _)) in Hc by done.
    case_bool_decide as Hanc; [|done]. rewrite Hc. apply Hrange.
    exists other, es, e. split_and!; [done|done|by apply ancestor_index_prefix|done].
Qed.

(** ** The sweep as a pairwise comparison *)

(** Whether two waiters ask for paths that cannot be held together. *)
Definition waiters_conflict (a b : QueueEntry) : bool :=
  existsb (λ x : str * Mode,
    existsb (λ y : str * Mode,
      requests_conflict (algorithm (qe_policy a)) x.1 x.2 (algorithm (qe_policy b)) y.1 y.2)
      (new_scoped_paths (qe_args b) (qe_namespace b)))
    (new_scoped_paths (qe_args a) (qe_namespace a)).

(** The reservations of the waiters in [waiting]. *)
Definition reserves (by_path : ReservedPaths) (waiting : list QueueEntry) : Prop :=
  ∀ p m alg, (∃ entries, by_path !! p = Some entries ∧ (m, alg) ∈ entries) ↔
    ∃ w, w ∈ waiting ∧ algorithm (qe_policy w) = alg ∧
      (p, m) ∈ new_scoped_paths (qe_args w) (qe_namespace w).

Lemma reserves_nil : reserves ∅ [].
Proof.
  intros p m alg. split.
  - intros (es & Hl & _). by rewrite lookup_empty in Hl.
  - by intros (w & ?%not_elem_of_nil & _).
Qed.

Lemma reserve_paths_spec alg l by_path p m a :
  (∃ entries, foldl (reserve_path alg) by_path l !! p = Some entries ∧ (m, a) ∈ entries) ↔
  (∃ entries, by_path !! p = Some entries ∧ (m, a) ∈ entries) ∨ (a = alg ∧ (p, m) ∈ l).
Proof.
  revert by_path. induction l as [|[q m'] l IH]; intros by_path; simpl; [set_solver|].
  rewrite IH. unfold reserve_path at 1. simpl. rewrite elem_of_cons.
  destruct (decide (q = p)) as [->|Hne].
  - rewrite lookup_insert_eq. split.
    + intros [(es & [= <-] & Hin)|?]; [|tauto]. apply elem_of_app in Hin as [Hin|Hin].
      * left. destruct (by_path !! p) as [es|]; [by exists es|by apply not_elem_of_nil in Hin].
      * apply list_elem_of_singleton in Hin. naive_solver.
    + intros [(es & Hl & Hin)|[-> [[= ->]|?]]]; [left|left|tauto].
      * eexists. split; [done|]. rewrite Hl. simpl. apply elem_of_app. by left.
      * eexists. split; [done|]. apply elem_of_app. right. by left.
  - rewrite lookup_insert_ne by done. naive_solver.
Qed.

Lemma reserves_insert by_path waiting w :
  reserves by_path waiting →
  reserves (reserved_insert by_path (qe_namespace w) (qe_args w) (algorithm (qe_policy w)))
    (waiting ++ [w]).
Proof.
  intros H p m alg. unfold reserved_insert. rewrite reserve_paths_spec, (H p m alg).
  setoid_rewrite elem_of_app. setoid_rewrite list_elem_of_singleton. naive_solver.
Qed.

(** Reservations conflict with a waiter exactly when a waiting one does. *)
Lemma reserved_conflicts_spec by_path waiting w :
  reserves by_path waiting →
  reserved_conflicts by_path (qe_args w) (qe_namespace w) (qe_policy w) =
  existsb (waiters_conflict w) waiting.
Proof.
  intros H. apply eq_bool_prop_intro. rewrite !Is_true_true. unfold reserved_conflicts.
  rewrite !existsb_exists. setoid_rewrite <- list_elem_of_In. split.
  - intros ([p m] & Hin & (q & es & [m' a] & Hl & He & Hc)%path_conflicts_spec).
    destruct (proj1 (H q m' a)) as (v & Hv & <- & Hq); [by exists es|].
    exists v. split; [done|]. unfold waiters_conflict. apply existsb_exists. exists (p, m).
    split; [by apply list_elem_of_In|]. apply existsb_exists. exists (q, m').
    split; [by apply list_elem_of_In|done].
  - intros (v & Hv & Hc). unfold waiters_conflict in Hc. apply existsb_exists in Hc as ([p m] & Hp & Hc).
    apply existsb_exists in Hc as ([q m'] & Hq & Hc). apply list_elem_of_In in Hp, Hq.
    exists (p, m). split; [done|]. apply path_conflicts_spec.
    destruct (proj2 (H q m' (algorithm (qe_policy v)))) as (es & Hl & He); [by exists v|].
    by exists q, es, (m', algorithm (qe_policy v)).
Qed.

Section sweep_ref.
Context `{!Bincode StoredRecord, !Bincode QueueEntry} {T : Type} `{!RawTxn T}.
Context (try_acquire : str → AcquireArgs → LockPolicy → txm T AcquireOutcome).

(** What an outcome does to a waiter that was tried: notify it, drop it from the
    queue, keep it waiting. *)
Definition notifies (o : AcquireOutcome) : bool :=
  match o with
  | AcquireOk _ | Conflict _ _ StaleFencingToken => true
  | _ => false
  end.
Definition stays (o : AcquireOutcome) : bool :=
  match o with
  | AcquireOk _ | Lost _ _ => false
  | Conflict _ _ r => bool_decide (r = StaleFencingToken) || is_queueable r
  | AcquireQueued _ _ _ _ => true
  end.

(** The reference sweep keeps the list of the waiters that stay. *)
Fixpoint sweep_waiters (waiting : list QueueEntry) (entries : list QueueEntry)
    : txm T (list str) :=
  match entries with
  | [] => mret []
  | w :: rest =>
      if existsb (waiters_conflict w) waiting then sweep_waiters (waiting ++ [w]) rest
      else
        outcome ← try_acquire (qe_namespace w) (qe_args w) (qe_policy w);
        (if stays outcome then mret tt else dequeue (qe_owner w));;
        notify ← sweep_waiters (if stays outcome then waiting ++ [w] else waiting) rest;
        mret (if notifies outcome then qe_owner w :: notify else notify)
  end.

(** The cases of one step, folded. *)
Lemma sweep_step_tried notify reserved w t :
  reserved_conflicts reserved (qe_args w) (qe_namespace w) (qe_policy w) = false →
  sweep_step try_acquire (notify, reserved) w t =
  (o ← try_acquire (qe_namespace w) (qe_args w) (qe_policy w);
   (if stays o then mret tt else dequeue (qe_owner w));;
   mret (if notifies o then notify ++ [qe_owner w] else notify,
         if stays o
         then reserved_insert reserved (qe_namespace w) (qe_args w) (algorithm (qe_policy w))
         else reserved)) t.
Proof.
  intros Hc. unfold sweep_step. rewrite Hc. unfold mbind, txm_bind.
  destruct (try_acquire _ _ _ t) as [[o t1]|e]; [|done].
  by destruct o as [|? ? []| |].
Qed.

Lemma sweep_fold entries notify reserved waiting t :
  reserves reserved waiting →
  ('(n, _) ← fold_txm (sweep_step try_acquire) (notify, reserved) entries; mret n) t =
  (ns ← sweep_waiters waiting entries; mret (notify ++ ns)) t.
Proof.
  revert notify reserved waiting t.
  induction entries as [|w rest IH]; intros notify reserved waiting t Hr.
  { simpl. cbv [mbind txm_bind mret txm_ret]. by rewrite app_nil_r. }
  cbn [fold_txm sweep_waiters].
  pose proof (reserved_conflicts_spec reserved waiting w Hr) as Hspec.
  pose proof (reserves_insert _ _ w Hr) as Hr'.
  destruct (existsb (waiters_conflict w) waiting).
  { rewrite <- (IH _ _ _ t Hr'). unfold mbind, txm_bind. unfold sweep_step at 1.
    by rewrite Hspec. }
  unfold mbind, txm_bind, mret, txm_ret in IH |- *. rewrite (sweep_step_tried _ _ _ _ Hspec).
  unfold mbind, txm_bind, mret, txm_ret.
  destruct (try_acquire _ _ _ t) as [[o t1]|e]; [|done].
  assert (∀ reserved' waiting' t2, reserves reserved' waiting' →
    match fold_txm (sweep_step try_acquire)
            (if notifies o then notify ++ [qe_owner w] else notify, reserved') rest t2 with
    | Ok (a, t') => (let '(n, _) := a in λ t0 : T, Ok (n, t0)) t'
    | Err e => Err e
    end =
    match sweep_waiters waiting' rest t2 with
    | Ok (ns, t') => Ok (notify ++ (if notifies o then qe_owner w :: ns else ns), t')
    | Err e => Err e
    end) as Hrest.
  { intros reserved' waiting' t2 H. rewrite (IH _ _ _ _ H).
    destruct (sweep_waiters _ rest t2) as [[ns t3]|e]; [|done].
    destruct (notifies o); [by rewrite <- app_assoc|done]. }
  destruct (stays o); [|destruct (dequeue (qe_owner w) t1) as [[[] t2]|e]; [|done]].
  - rewrite (Hrest _ _ _ Hr'). by destruct (sweep_waiters _ rest t1) as [[ns t3]|e].
  - rewrite (Hrest _ _ _ Hr). by destruct (sweep_waiters _ rest t2) as [[ns t3]|e].
Qed.

Lemma run_grant_sweep_waiters entries t :
  run_grant_sweep try_acquire entries t = sweep_waiters [] entries t.
Proof.
  pose proof (sweep_fold entries [] ∅ [] t reserves_nil) as H.
  unfold run_grant_sweep. etransitivity; [exact H|].
  unfold mbind, txm_bind, mret, txm_ret. by destruct (sweep_waiters [] entries t) as [[??]|].
Qed.
End sweep_ref.

(** Reserved-path lookups are exact.  After reserving the waiters of
    [waiting] in turn, [reserved_conflicts] (an exact lookup, the ancestors, and
    one prefix range) answers for a waiter what comparing it with every reserved
    request answers. *)
Theorem reserved_lookup_exact waiting w :
  reserved_conflicts
    (foldl (λ r v, reserved_insert r (qe_namespace v) (qe_args v) (algorithm (qe_policy v)))
       ∅ waiting)
    (qe_args w) (qe_namespace w) (qe_policy w) =
  existsb (waiters_conflict w) waiting.
Proof.
  apply reserved_conflicts_spec. induction waiting as [|v waiting IH] using rev_ind.
  - apply reserves_nil.
  - rewrite foldl_app. by apply reserves_insert.
Qed.
