(* ===== verification/QueueState.v ===== *)
(** * The invariant of the wait queue

    [qst] is the part of a keyspace the queue consists of: the queue family and
    its two counters.  [queue_ok] says how the three kinds of records fit: a live
    waiter has its owner record and an index record for each path it waits for,
    index records belong to a stored entry, and the unit counter is the sum over
    the stored entries.  [drop_entry] and [add_entry] are the two changes every
    operation is made of. *)

From Stdlib Require Import ZArith NArith Lia Strings.Byte.
From stdpp Require Import sorting countable base numbers gmap strings list.
From S2P Require Import Prelude RustStd StoreKeys Store StoreScan StoreSim KvView EngineTypes.
From S2P Require Import Engine.
From S2P Require Import Footprint Paths Placement Queue.
Local Open Scope Z_scope.

Record qst := { q_now : Z; q_map : gmap bytes bytes; q_seq : option bytes; q_count : option bytes }.

Section queue_state.
Context `{!Bincode StoredRecord, !Bincode QueueEntry}.

Definition entry_rec (e : QueueEntry) (exp : Z) : bytes :=
  encode_record (BytesRec (bincode_encode e) exp).
Definition owner_rec (n exp : Z) : bytes := encode_record (Str (to_string n) exp).
Definition path_rec (exp : Z) : bytes := encode_record (Str (bs "1") exp).
Definition wait_paths (e : QueueEntry) : list str :=
  fst <$> new_scoped_paths (qe_args e) (qe_namespace e).
Definition path_keys (e : QueueEntry) : list bytes :=
  (λ p, queue_path_key p (qe_seq e)) <$> wait_paths e.

Lemma encode_record_inj r r' : encode_record r = encode_record r' → r = r'.
Proof. intros H. pose proof (decode_encode r) as Hr. rewrite H, decode_encode in Hr. congruence. Qed.

Lemma entry_rec_inj e exp e' exp' : entry_rec e exp = entry_rec e' exp' → e = e' ∧ exp = exp'.
Proof.
  intros H%encode_record_inj. injection H as H ->. split; [|done].
  pose proof (bincode_decode_encode e) as He. rewrite H, bincode_decode_encode in He. congruence.
Qed.

Lemma parse_u64_to_string n : is_u64 n → parse_u64 (to_string n) = Some n.
Proof. apply parse_unsigned_to_string. Qed.

Lemma owner_rec_inj n exp n' exp' :
  is_u64 n → is_u64 n' → owner_rec n exp = owner_rec n' exp' → n = n' ∧ exp = exp'.
Proof.
  intros Hn Hn' H%encode_record_inj. injection H as H ->. split; [|done].
  apply parse_u64_to_string in Hn, Hn'. congruence.
Qed.

Lemma path_rec_inj exp exp' : path_rec exp = path_rec exp' → exp = exp'.
Proof. intros H%encode_record_inj. congruence. Qed.

Lemma stored_units_entry e exp : stored_queue_units (entry_rec e exp) = queue_units (qe_args e).
Proof.
  unfold stored_queue_units, entry_rec, decode_queue_entry. rewrite decode_encode.
  by rewrite bincode_decode_encode.
Qed.

Lemma queue_units_pos a : 1 ≤ queue_units a.
Proof. unfold queue_units. lia. Qed.

(** ** The sum of the units *)

Definition is_entry_key (k : bytes) : bool := is_some (decode_queue_entry_seq k).
Definition entries_of (m : gmap bytes bytes) : gmap bytes bytes :=
  filter (λ kb, is_entry_key kb.1 = true) m.
Definition units_total (m : gmap bytes bytes) : Z :=
  map_fold (λ _ b acc, stored_queue_units b + acc) 0 (entries_of m).

Lemma stored_units_pos b : 1 ≤ stored_queue_units b.
Proof. unfold stored_queue_units. repeat case_match; try lia. apply queue_units_pos. Qed.

Lemma units_total_ext m m' :
  (∀ k, is_entry_key k = true → m' !! k = m !! k) → units_total m' = units_total m.
Proof.
  intros H. unfold units_total. f_equal. apply map_eq. intros k. unfold entries_of.
  destruct (is_entry_key k) eqn:Hk.
  - apply option_eq. intros b. rewrite !map_lookup_filter_Some. simpl. by rewrite H.
  - rewrite !map_lookup_filter_None_2; [done|..]; right; simpl; intros; congruence.
Qed.

Lemma units_total_insert m k b :
  is_entry_key k = true → m !! k = None →
  units_total (<[k := b]> m) = stored_queue_units b + units_total m.
Proof.
  intros Hk Hm. unfold units_total, entries_of. rewrite map_filter_insert_True by done.
  rewrite map_fold_insert_L; [done|intros; lia|]. apply map_lookup_filter_None. by left.
Qed.

Lemma units_total_delete m k b :
  is_entry_key k = true → m !! k = Some b →
  units_total m = stored_queue_units b + units_total (delete k m).
Proof.
  intros Hk Hm. rewrite <- (insert_delete_id m k b Hm) at 1.
  rewrite units_total_insert; [done|done|apply lookup_delete_eq].
Qed.

Lemma units_total_nonneg m : 0 ≤ units_total m.
Proof.
  unfold units_total. apply (map_fold_weak_ind (λ r _, 0 ≤ r)); [done|].
  intros k b m' r _ Hr. pose proof (stored_units_pos b). cbv beta. lia.
Qed.

(** ** Views of the records *)

(** The entry stored under a sequence number, with its expiry. *)
Definition stored (m : gmap bytes bytes) (e : QueueEntry) (exp : Z) : Prop :=
  is_u64 (qe_seq e) ∧ m !! queue_entry_key (qe_seq e) = Some (entry_rec e exp).

Lemma stored_fun m e exp e' exp' :
  stored m e exp → stored m e' exp' → qe_seq e = qe_seq e' → e = e' ∧ exp = exp'.
Proof. intros [_ H] [_ H'] Heq. rewrite Heq, H' in H. injection H as H. by apply entry_rec_inj in H as [-> ->]. Qed.

Lemma is_entry_key_entry n : is_u64 n → is_entry_key (queue_entry_key n) = true.
Proof. intros Hn. unfold is_entry_key. by rewrite decode_queue_entry_key. Qed.

Lemma entry_owner_key n o : queue_entry_key n ≠ queue_owner_key o.
Proof. done. Qed.
Lemma entry_path_key n p n' : queue_entry_key n ≠ queue_path_key p n'.
Proof. done. Qed.
Lemma owner_path_key o p n : queue_owner_key o ≠ queue_path_key p n.
Proof. done. Qed.
Lemma not_entry_owner o : is_entry_key (queue_owner_key o) = false.
Proof. unfold is_entry_key, decode_queue_entry_seq, queue_owner_key. by destruct (_ =? _)%nat. Qed.
Lemma not_entry_path p n : is_entry_key (queue_path_key p n) = false.
Proof. unfold is_entry_key, decode_queue_entry_seq, queue_path_key. simpl. by destruct (_ =? _)%nat. Qed.

Lemma elem_path_keys e p n :
  is_u64 n → is_u64 (qe_seq e) → queue_path_key p n ∈ path_keys e ↔ n = qe_seq e ∧ p ∈ wait_paths e.
Proof.
  intros Hn He. unfold path_keys. rewrite list_elem_of_fmap. split.
  - intros (q & Hq & Hin). apply queue_path_key_inj in Hq as [-> ->]; done.
  - intros [-> Hin]. eauto.
Qed.

Definition seq_value (q : qst) : Z :=
  match q_seq q with
  | Some b => match decode_record b with Ok (Counter v) => v | _ => 0 end
  | None => 0
  end.

Record queue_ok (q : qst) : Prop := {
  qo_shape k b : q_map q !! k = Some b →
    (∃ e exp, k = queue_entry_key (qe_seq e) ∧ b = entry_rec e exp ∧ is_u64 (qe_seq e)) ∨
    (∃ o n exp, k = queue_owner_key o ∧ b = owner_rec n exp ∧ is_u64 n) ∨
    (∃ p n exp, k = queue_path_key p n ∧ b = path_rec exp ∧ is_u64 n);
  qo_path p n exp : is_u64 n → q_map q !! queue_path_key p n = Some (path_rec exp) →
    ∃ e, stored (q_map q) e exp ∧ qe_seq e = n ∧ p ∈ wait_paths e;
  qo_owner o n exp : is_u64 n → q_map q !! queue_owner_key o = Some (owner_rec n exp) →
    expired exp (q_now q) = false →
    ∃ e, stored (q_map q) e exp ∧ qe_seq e = n ∧ qe_owner e = o;
  qo_entry e exp : stored (q_map q) e exp → expired exp (q_now q) = false →
    q_map q !! queue_owner_key (qe_owner e) = Some (owner_rec (qe_seq e) exp) ∧
    ∀ p, p ∈ wait_paths e → q_map q !! queue_path_key p (qe_seq e) = Some (path_rec exp);
  qo_seq : 0 ≤ seq_value q ≤ i64_max ∧
    (q_seq q = None ∨ q_seq q = Some (encode_record (Counter (seq_value q)))) ∧
    ∀ e exp, stored (q_map q) e exp → 0 < qe_seq e ≤ seq_value q;
  qo_count : q_count q = Some (encode_record (Counter (units_total (q_map q)))) ∨
    q_count q = None ∧ units_total (q_map q) = 0;
  qo_limit : units_total (q_map q) ≤ QUEUE_SCAN_LIMIT
}.

(** ** Removing and adding an entry *)

Fixpoint del_entries (ks : list bytes) (m : gmap bytes bytes) : gmap bytes bytes :=
  match ks with [] => m | k :: ks => del_entries ks (delete k m) end.
Fixpoint put_keys (b : bytes) (ks : list bytes) (m : gmap bytes bytes) : gmap bytes bytes :=
  match ks with [] => m | k :: ks => put_keys b ks (<[k := b]> m) end.

Lemma lookup_del_entries ks m k : del_entries ks m !! k = if decide (k ∈ ks) then None else m !! k.
Proof.
  revert m. induction ks as [|k' ks IH]; intros m; [done|]. cbn [del_entries put_keys].
  rewrite IH. destruct (decide (k ∈ ks)); [by rewrite decide_True by set_solver|].
  destruct (decide (k = k')) as [->|Hne].
  - by rewrite lookup_delete_eq, decide_True by set_solver.
  - rewrite lookup_delete_ne by done. by rewrite decide_False by set_solver.
Qed.

Lemma lookup_put_keys b ks m k : put_keys b ks m !! k = if decide (k ∈ ks) then Some b else m !! k.
Proof.
  revert m. induction ks as [|k' ks IH]; intros m; [done|]. cbn [del_entries put_keys].
  rewrite IH. destruct (decide (k ∈ ks)); [by rewrite decide_True by set_solver|].
  destruct (decide (k = k')) as [->|Hne].
  - by rewrite lookup_insert_eq, decide_True by set_solver.
  - rewrite lookup_insert_ne by done. by rewrite decide_False by set_solver.
Qed.

(** The three kinds of keys, seen through a family that is an entry short. *)
Definition drop_entry (e : QueueEntry) (m : gmap bytes bytes) : gmap bytes bytes :=
  delete (queue_entry_key (qe_seq e)) (del_entries (path_keys e) m).

Lemma drop_entry_entry e m n : is_u64 n → is_u64 (qe_seq e) →
  drop_entry e m !! queue_entry_key n = if decide (n = qe_seq e) then None else m !! queue_entry_key n.
Proof.
  intros Hn He. unfold drop_entry. case_decide as Hd; [subst; apply lookup_delete_eq|].
  rewrite lookup_delete_ne by (intros ?%queue_entry_key_inj; congruence).
  rewrite lookup_del_entries, decide_False; [done|].
  unfold path_keys. rewrite list_elem_of_fmap. by intros (p & ? & _).
Qed.
Lemma drop_entry_owner e m o : drop_entry e m !! queue_owner_key o = m !! queue_owner_key o.
Proof.
  unfold drop_entry. rewrite lookup_delete_ne by apply entry_owner_key.
  rewrite lookup_del_entries, decide_False; [done|].
  unfold path_keys. rewrite list_elem_of_fmap. by intros (p & ? & _).
Qed.
Lemma drop_entry_path e m p n : is_u64 n → is_u64 (qe_seq e) →
  drop_entry e m !! queue_path_key p n =
  if decide (n = qe_seq e ∧ p ∈ wait_paths e) then None else m !! queue_path_key p n.
Proof.
  intros Hn He. unfold drop_entry. rewrite lookup_delete_ne by apply entry_path_key.
  rewrite lookup_del_entries. pose proof (elem_path_keys e p n Hn He).
  repeat case_decide; naive_solver.
Qed.
Lemma drop_entry_other e m k : k ≠ queue_entry_key (qe_seq e) → k ∉ path_keys e → drop_entry e m !! k = m !! k.
Proof.
  intros. unfold drop_entry. rewrite lookup_delete_ne by done. by rewrite lookup_del_entries, decide_False.
Qed.
Lemma drop_entry_sub e m k b : drop_entry e m !! k = Some b → m !! k = Some b.
Proof.
  unfold drop_entry. rewrite lookup_delete_Some, lookup_del_entries. intros [_ H]. by case_decide.
Qed.

Lemma units_total_del_keys ks m :
  Forall (λ k, is_entry_key k = false) ks → units_total (del_entries ks m) = units_total m.
Proof.
  intros H. apply units_total_ext. intros k Hk. rewrite lookup_del_entries, decide_False; [done|].
  intros Hin. rewrite Forall_forall in H. rewrite (H k Hin) in Hk. done.
Qed.
Lemma path_keys_not_entry e : Forall (λ k, is_entry_key k = false) (path_keys e).
Proof. unfold path_keys. rewrite Forall_fmap. apply Forall_true. intros p. apply not_entry_path. Qed.

Lemma units_drop_entry e exp m :
  stored m e exp → units_total (drop_entry e m) = units_total m - queue_units (qe_args e).
Proof.
  intros [Hn He]. unfold drop_entry.
  pose proof (units_total_del_keys _ m (path_keys_not_entry e)) as H.
  rewrite (units_total_delete _ (queue_entry_key (qe_seq e)) (entry_rec e exp)) in H.
  - rewrite stored_units_entry in H. lia.
  - by apply is_entry_key_entry.
  - rewrite lookup_del_entries, decide_False; [done|].
    unfold path_keys. rewrite list_elem_of_fmap. by intros (p & ? & _).
Qed.

Lemma stored_drop_entry e m e' exp' : is_u64 (qe_seq e) →
  stored (drop_entry e m) e' exp' ↔ stored m e' exp' ∧ qe_seq e' ≠ qe_seq e.
Proof.
  intros He. unfold stored. split.
  - intros [Hn H]. rewrite drop_entry_entry in H by done. case_decide; naive_solver.
  - intros [[Hn H] Hne]. split; [done|]. by rewrite drop_entry_entry, decide_False.
Qed.

Definition with_map (q : qst) (m : gmap bytes bytes) : qst :=
  {| q_now := q_now q; q_map := m; q_seq := q_seq q; q_count := q_count q |}.
Definition with_count (q : qst) (c : Z) : qst :=
  {| q_now := q_now q; q_map := q_map q; q_seq := q_seq q;
     q_count := Some (encode_record (Counter c)) |}.

(** Two live waiters of one owner are the same waiter. *)
Lemma waiter_unique q e exp e' exp' :
  queue_ok q → stored (q_map q) e exp → stored (q_map q) e' exp' →
  expired exp (q_now q) = false → expired exp' (q_now q) = false →
  qe_owner e = qe_owner e' → e = e' ∧ exp = exp'.
Proof.
  intros Hq He He' Hl Hl' Ho. eapply stored_fun; [done..|].
  pose proof (proj1 (qo_entry q Hq _ _ He Hl)) as H. rewrite Ho in H.
  rewrite (proj1 (qo_entry q Hq _ _ He' Hl')) in H. injection H as H.
  by apply owner_rec_inj in H as [-> _]; [|apply He'|apply He].
Qed.

Lemma queue_owner_key_inj o o' : queue_owner_key o = queue_owner_key o' → o = o'.
Proof. by intros H%(inj (cons _)). Qed.

Definition delete_owner (d : bool) (o : str) (m : gmap bytes bytes) : gmap bytes bytes :=
  if d then delete (queue_owner_key o) m else m.
Lemma delete_owner_ne d o m k : k ≠ queue_owner_key o → delete_owner d o m !! k = m !! k.
Proof. intros. unfold delete_owner. destruct d; [by apply lookup_delete_ne|done]. Qed.
Lemma delete_owner_sub d o m k b : delete_owner d o m !! k = Some b → m !! k = Some b.
Proof. unfold delete_owner. destruct d; [|done]. by intros [_ H]%lookup_delete_Some. Qed.
Lemma stored_delete_owner d o m e exp : stored (delete_owner d o m) e exp ↔ stored m e exp.
Proof. unfold stored. by rewrite delete_owner_ne by apply entry_owner_key. Qed.
Lemma units_delete_owner d o m : units_total (delete_owner d o m) = units_total m.
Proof.
  apply units_total_ext. intros k Hk. apply delete_owner_ne. intros ->.
  by rewrite not_entry_owner in Hk.
Qed.

(** Removing an entry: the owner record goes too when [d], and must not be a live
    record of this entry otherwise. *)
Lemma remove_ok q e exp (d : bool) :
  queue_ok q → stored (q_map q) e exp →
  (d = false → ∀ x, q_map q !! queue_owner_key (qe_owner e) = Some (owner_rec (qe_seq e) x) →
     expired x (q_now q) = true) →
  (d = true → ∀ e' x, stored (q_map q) e' x → expired x (q_now q) = false →
     qe_owner e' = qe_owner e → e' = e) →
  queue_ok (with_count (with_map q (delete_owner d (qe_owner e) (drop_entry e (q_map q))))
              (units_total (q_map q) - queue_units (qe_args e))).
Proof.
  intros Hq He Hf Ht. assert (is_u64 (qe_seq e)) as Hu by apply He.
  assert (units_total (delete_owner d (qe_owner e) (drop_entry e (q_map q))) =
          units_total (q_map q) - queue_units (qe_args e)) as Hun
    by (rewrite units_delete_owner; by apply (units_drop_entry e exp)).
  split; cbn [with_count with_map q_now q_map q_seq q_count].
  - intros k b H%delete_owner_sub%drop_entry_sub. by apply (qo_shape q).
  - intros p n x Hn H. rewrite delete_owner_ne in H by done.
    rewrite drop_entry_path in H by done.
    destruct (decide (n = qe_seq e ∧ p ∈ wait_paths e)) as [|Hno]; [done|].
    destruct (qo_path q Hq p n x Hn H) as (e' & He' & <- & Hp).
    exists e'. rewrite stored_delete_owner, stored_drop_entry by done. split; [|done].
    split; [done|]. intros Heq. destruct (stored_fun _ _ _ _ _ He' He Heq) as [-> _]. auto.
  - intros o n x Hn H Hl. pose proof (delete_owner_sub _ _ _ _ _ H) as H'.
    rewrite drop_entry_owner in H'. destruct (qo_owner q Hq o n x Hn H' Hl) as (e' & He' & <- & <-).
    exists e'. rewrite stored_delete_owner, stored_drop_entry by done. split; [|done].
    split; [done|]. intros Heq. destruct (stored_fun _ _ _ _ _ He' He Heq) as [-> ->].
    destruct d; [unfold delete_owner in H; by rewrite lookup_delete_eq in H|]. rewrite (Hf eq_refl _ H') in Hl. done.
  - intros e' x. rewrite stored_delete_owner, stored_drop_entry by done. intros [He' Hne] Hl.
    destruct (qo_entry q Hq e' x He' Hl) as [Ho Hps]. split.
    + unfold delete_owner. destruct d; [|by rewrite drop_entry_owner].
      rewrite lookup_delete_ne; [by rewrite drop_entry_owner|].
      intros Hk%queue_owner_key_inj. destruct Hne. by rewrite (Ht eq_refl e' x He' Hl).
    + intros p Hp. rewrite delete_owner_ne by done.
      rewrite drop_entry_path by (done || apply He'). rewrite decide_False by naive_solver. auto.
  - destruct (qo_seq q Hq) as (? & ? & Hs). split; [done|]. split; [done|].
    intros e' x. rewrite stored_delete_owner, stored_drop_entry by done. intros [He' _]. eauto.
  - left. by rewrite Hun.
  - rewrite Hun. pose proof (qo_limit q Hq). pose proof (queue_units_pos (qe_args e)). lia.
Qed.

(** Deleting a record no live waiter needs. *)
Lemma delete_owner_ok q o :
  queue_ok q →
  (∀ e x, stored (q_map q) e x → expired x (q_now q) = false → qe_owner e ≠ o) →
  queue_ok (with_map q (delete (queue_owner_key o) (q_map q))).
Proof.
  intros Hq Ho. change (delete (queue_owner_key o) (q_map q)) with (delete_owner true o (q_map q)).
  split; cbn [with_map q_now q_map q_seq q_count]; rewrite ?units_delete_owner; try apply Hq.
  - intros k b H%delete_owner_sub. by apply (qo_shape q).
  - intros p n x Hn H. rewrite delete_owner_ne in H by done. setoid_rewrite stored_delete_owner.
    by apply (qo_path q).
  - intros o' n x Hn H%delete_owner_sub. setoid_rewrite stored_delete_owner. by apply (qo_owner q).
  - intros e x. rewrite stored_delete_owner. intros He Hl. destruct (qo_entry q Hq e x He Hl) as [H1 H2].
    split; [|intros p Hp; rewrite delete_owner_ne by done; by apply H2].
    rewrite delete_owner_ne; [done|]. intros H%queue_owner_key_inj. by apply (Ho e x).
  - destruct (qo_seq q Hq) as (? & ? & Hs). split; [done|]. split; [done|].
    intros e x. rewrite stored_delete_owner. apply Hs.
Qed.

Lemma delete_dead_path_ok q p n exp :
  queue_ok q → is_u64 n → q_map q !! queue_path_key p n = Some (path_rec exp) →
  expired exp (q_now q) = true →
  queue_ok (with_map q (delete (queue_path_key p n) (q_map q))).
Proof.
  intros Hq Hn Hk Hdead.
  assert (∀ e x, stored (delete (queue_path_key p n) (q_map q)) e x ↔ stored (q_map q) e x) as Hst.
  { intros. unfold stored. by rewrite lookup_delete_ne. }
  split; cbn [with_map q_now q_map q_seq q_count].
  - intros k b [_ H]%lookup_delete_Some. by apply (qo_shape q).
  - intros p' n' x Hn' [_ H]%lookup_delete_Some. setoid_rewrite Hst. by apply (qo_path q).
  - intros o' n' x Hn' [_ H]%lookup_delete_Some. setoid_rewrite Hst. by apply (qo_owner q).
  - intros e x. rewrite Hst. intros He Hl. destruct (qo_entry q Hq e x He Hl) as [H1 H2].
    split; [by rewrite lookup_delete_ne|]. intros p' Hp'.
    rewrite lookup_delete_ne; [by apply H2|]. intros Heq. specialize (H2 p' Hp').
    rewrite <- Heq, Hk in H2. injection H2 as ->%path_rec_inj. congruence.
  - destruct (qo_seq q Hq) as (? & ? & Hs). split; [done|]. split; [done|].
    intros e x. rewrite Hst. apply Hs.
  - rewrite (units_total_ext (q_map q)); [apply Hq|]. intros k Hk'.
    apply lookup_delete_ne. intros <-. by rewrite not_entry_path in Hk'.
  - rewrite (units_total_ext (q_map q)); [apply Hq|]. intros k Hk'.
    apply lookup_delete_ne. intros <-. by rewrite not_entry_path in Hk'.
Qed.

Definition add_entry (e : QueueEntry) (exp : Z) (m : gmap bytes bytes) : gmap bytes bytes :=
  put_keys (path_rec exp) (path_keys e)
    (<[queue_owner_key (qe_owner e) := owner_rec (qe_seq e) exp]>
      (<[queue_entry_key (qe_seq e) := entry_rec e exp]> m)).

Lemma add_entry_entry e exp m n : is_u64 n → is_u64 (qe_seq e) →
  add_entry e exp m !! queue_entry_key n =
  if decide (n = qe_seq e) then Some (entry_rec e exp) else m !! queue_entry_key n.
Proof.
  intros Hn He. unfold add_entry. rewrite lookup_put_keys, decide_False.
  - rewrite lookup_insert_ne by done. case_decide as Hd; [subst; by rewrite lookup_insert_eq|].
    apply lookup_insert_ne. intros ?%queue_entry_key_inj; congruence.
  - unfold path_keys. rewrite list_elem_of_fmap. by intros (p & ? & _).
Qed.
Lemma add_entry_owner e exp m o :
  add_entry e exp m !! queue_owner_key o =
  if decide (o = qe_owner e) then Some (owner_rec (qe_seq e) exp) else m !! queue_owner_key o.
Proof.
  unfold add_entry. rewrite lookup_put_keys, decide_False.
  - case_decide as Hd; [subst; by rewrite lookup_insert_eq|].
    rewrite lookup_insert_ne by (intros ?%queue_owner_key_inj; congruence).
    by apply lookup_insert_ne.
  - unfold path_keys. rewrite list_elem_of_fmap. by intros (p & ? & _).
Qed.
Lemma add_entry_path e exp m p n : is_u64 n → is_u64 (qe_seq e) →
  add_entry e exp m !! queue_path_key p n =
  if decide (n = qe_seq e ∧ p ∈ wait_paths e) then Some (path_rec exp) else m !! queue_path_key p n.
Proof.
  intros Hn He. unfold add_entry. rewrite lookup_put_keys, !lookup_insert_ne by done.
  pose proof (elem_path_keys e p n Hn He). repeat case_decide; naive_solver.
Qed.

Lemma add_entry_shape e exp m k b : is_u64 (qe_seq e) →
  add_entry e exp m !! k = Some b → m !! k = Some b ∨
  (k = queue_entry_key (qe_seq e) ∧ b = entry_rec e exp) ∨
  (k = queue_owner_key (qe_owner e) ∧ b = owner_rec (qe_seq e) exp) ∨
  (∃ p, k = queue_path_key p (qe_seq e) ∧ b = path_rec exp).
Proof.
  intros Hu. unfold add_entry. rewrite lookup_put_keys. case_decide as Hin.
  - intros [= <-]. unfold path_keys in Hin. apply list_elem_of_fmap in Hin as (p & -> & _). eauto 10.
  - rewrite !lookup_insert_Some. naive_solver.
Qed.

Lemma stored_add_entry e exp m e' exp' : is_u64 (qe_seq e) →
  stored (add_entry e exp m) e' exp' ↔
  (e' = e ∧ exp' = exp) ∨ (stored m e' exp' ∧ qe_seq e' ≠ qe_seq e).
Proof.
  intros Hu. unfold stored. split.
  - intros [Hn H]. rewrite add_entry_entry in H by done.
    destruct (decide (qe_seq e' = qe_seq e)); [|by right].
    injection H as [-> ->]%entry_rec_inj. by left.
  - intros [[-> ->]|[[Hn H] Hne]]; (split; [done|]); rewrite add_entry_entry by done.
    + by rewrite decide_True.
    + by rewrite decide_False.
Qed.

Lemma units_add_entry e exp m :
  is_u64 (qe_seq e) → m !! queue_entry_key (qe_seq e) = None →
  units_total (add_entry e exp m) = units_total m + queue_units (qe_args e).
Proof.
  intros Hu Hm.
  rewrite (units_total_ext (<[queue_entry_key (qe_seq e) := entry_rec e exp]> m)).
  - rewrite units_total_insert by (done || by apply is_entry_key_entry).
    rewrite stored_units_entry. lia.
  - intros k Hk. unfold add_entry. rewrite lookup_put_keys, decide_False.
    + apply lookup_insert_ne. intros <-. by rewrite not_entry_owner in Hk.
    + intros Hin. pose proof (path_keys_not_entry e) as H. rewrite Forall_forall in H.
      by rewrite (H k Hin) in Hk.
Qed.

Lemma add_ok q e exp :
  queue_ok q → q_map q !! queue_entry_key (qe_seq e) = None →
  0 < qe_seq e ≤ seq_value q →
  (∀ e' x, stored (q_map q) e' x → expired x (q_now q) = false → qe_owner e' ≠ qe_owner e) →
  units_total (q_map q) + queue_units (qe_args e) ≤ QUEUE_SCAN_LIMIT →
  queue_ok (with_count (with_map q (add_entry e exp (q_map q)))
              (units_total (q_map q) + queue_units (qe_args e))).
Proof.
  intros Hq Hm Hs Ho Hlim. destruct (qo_seq q Hq) as (Hv & Hsome & Hseqs).
  assert (is_u64 (qe_seq e)) as Hu by (unfold is_u64, u64_max, i64_max in *; lia).
  assert (∀ e' x, stored (q_map q) e' x → qe_seq e' ≠ qe_seq e) as Hfresh
    by (intros e' x [_ He'] Heq; rewrite Heq, Hm in He'; done).
  split; cbn [with_count with_map q_now q_map q_seq q_count].
  - intros k b [H|[[-> ->]|[[-> ->]|(p & -> & ->)]]]%add_entry_shape; [by apply (qo_shape q)|..|done];
      [left|right; left|right; right]; eauto 10.
  - intros p n x Hn. rewrite add_entry_path by done. setoid_rewrite stored_add_entry; [|done].
    destruct (decide (n = qe_seq e ∧ p ∈ wait_paths e)) as [[-> Hp]|Hno].
    + intros [= ->%path_rec_inj]. exists e. split; [by left|done].
    + intros H. destruct (qo_path q Hq p n x Hn H) as (e' & He' & <- & Hp). exists e'.
      split; [right; split; [done|by eapply Hfresh]|done].
  - intros o n x Hn. rewrite add_entry_owner. setoid_rewrite stored_add_entry; [|done].
    destruct (decide (o = qe_owner e)) as [->|Hne].
    + intros [= [<- <-]%owner_rec_inj]; [|done..]. exists e. split; [by left|done].
    + intros H Hl. destruct (qo_owner q Hq o n x Hn H Hl) as (e' & He' & <- & Hp). exists e'.
      split; [right; split; [done|by eapply Hfresh]|done].
  - intros e' x. rewrite stored_add_entry by done. intros [[-> ->]|[He' Hne]] Hl.
    + rewrite add_entry_owner, decide_True by done. split; [done|]. intros p Hp.
      by rewrite add_entry_path, decide_True.
    + destruct (qo_entry q Hq e' x He' Hl) as [H1 H2]. split.
      * rewrite add_entry_owner, decide_False by (by eapply Ho). done.
      * intros p Hp. rewrite add_entry_path by (done || apply He').
        rewrite decide_False by naive_solver. auto.
  - split; [done|]. split; [done|]. intros e' x. rewrite stored_add_entry by done.
    intros [[-> ->]|[He' _]]; [done|eauto].
  - left. by rewrite units_add_entry.
  - by rewrite units_add_entry.
Qed.

Definition with_seq (q : qst) (v : Z) : qst :=
  {| q_now := q_now q; q_map := q_map q; q_seq := Some (encode_record (Counter v));
     q_count := q_count q |}.
Lemma seq_value_with_seq q v : seq_value (with_seq q v) = v.
Proof. unfold seq_value. simpl. by rewrite decode_encode. Qed.

Lemma with_seq_ok q v : queue_ok q → seq_value q ≤ v ≤ i64_max → queue_ok (with_seq q v).
Proof.
  intros Hq Hv. destruct (qo_seq q Hq) as (? & ? & Hs). split; try apply Hq.
  rewrite seq_value_with_seq. split; [lia|]. split; [by right|].
  intros e x He. specialize (Hs e x He). lia.
Qed.

Definition with_now (q : qst) (now : Z) : qst :=
  {| q_now := now; q_map := q_map q; q_seq := q_seq q; q_count := q_count q |}.
Lemma live_mono exp now now' : now ≤ now' → expired exp now' = false → expired exp now = false.
Proof. unfold expired. rewrite !andb_false_iff, !Z.leb_gt. intuition lia. Qed.
Lemma with_now_ok q now : queue_ok q → q_now q ≤ now → queue_ok (with_now q now).
Proof.
  intros Hq Hn. split; try apply Hq; cbn [with_now q_now q_map].
  - intros o n x Hu H Hl. apply (qo_owner q Hq o n x Hu H). by eapply live_mono.
  - intros e x He Hl. apply (qo_entry q Hq e x He). by eapply live_mono.
Qed.
End queue_state.
