(* ===== verification/QueueOps.v ===== *)
(** * What the wait queue's operations do ([src/queue.rs])

    [waiters] is the queue as a list: the live entries in sequence order.  On a
    keyspace that satisfies [queue_ok], [dequeue] removes the owner's waiter,
    [enqueue] keeps an unchanged waiter in place and otherwise appends a new one,
    and the three readers see exactly this list: the scan limits of the code are
    never reached. *)

From Stdlib Require Import ZArith NArith Lia Strings.Byte.
From stdpp Require Import sorting countable base numbers gmap strings list.
From S2P Require Import Prelude RustStd StoreKeys Store StoreScan StoreSim KvView EngineTypes.
From S2P Require Import Engine.
From S2P Require Import Footprint Paths Placement Queue QueueState.
Local Open Scope Z_scope.

Section queue_ops.
Context `{!Bincode StoredRecord, !Bincode QueueEntry}.

(** ** The waiters of a queue *)

Definition waiters (q : qst) : list QueueEntry :=
  omap (λ kb : bytes * bytes, live_entry (q_now q) kb.1 kb.2)
    (btree_range (Some queue_entry_lower) (Some queue_entry_upper) (q_map q)).

Lemma entry_key_range k n :
  decode_queue_entry_seq k = Some n → in_range (Some queue_entry_lower) (Some queue_entry_upper) k = true.
Proof.
  intros [r ->]%decode_queue_entry_Some. apply (prefix_range [QUEUE_ENTRY_TAG]). by exists r.
Qed.

Lemma live_entry_stored q k b e :
  queue_ok q → q_map q !! k = Some b →
  live_entry (q_now q) k b = Some e ↔
  k = queue_entry_key (qe_seq e) ∧ ∃ exp, stored (q_map q) e exp ∧ expired exp (q_now q) = false.
Proof.
  intros Hq Hk. unfold live_entry. split.
  - destruct (qo_shape q Hq k b Hk) as [(e' & x & -> & -> & Hu)|[(o & n & x & -> & -> & _)|
      (p & n & x & -> & -> & Hn)]].
    + rewrite decode_queue_entry_key by done. unfold entry_rec. rewrite decode_encode.
      destruct (expired x (q_now q)) eqn:Hx; [done|]. unfold decode_queue_entry.
      rewrite bincode_decode_encode. intros [= <-]. split; [done|]. by exists x.
    + pose proof (not_entry_owner o) as H. unfold is_entry_key in H.
      by destruct (decode_queue_entry_seq _).
    + pose proof (not_entry_path p n) as H. unfold is_entry_key in H.
      by destruct (decode_queue_entry_seq _).
  - intros [-> (x & [Hu Hs] & Hx)]. rewrite Hk in Hs. injection Hs as ->.
    rewrite decode_queue_entry_key by done. unfold entry_rec. rewrite decode_encode, Hx.
    apply bincode_decode_encode.
Qed.

Lemma elem_waiters q e :
  queue_ok q →
  e ∈ waiters q ↔ ∃ exp, stored (q_map q) e exp ∧ expired exp (q_now q) = false.
Proof.
  intros Hq. unfold waiters. rewrite list_elem_of_omap. split.
  - intros ([k b] & [Hk _]%btree_range_elem & H). apply (live_entry_stored q) in H; [apply H|done..].
  - intros (x & [Hu Hs] & Hx). exists (queue_entry_key (qe_seq e), entry_rec e x). split.
    + apply btree_range_elem. split; [done|]. eapply entry_key_range. by apply decode_queue_entry_key.
    + apply (live_entry_stored q _ _ _ Hq Hs). split; [done|]. by exists x.
Qed.

Definition seq_lt (e e' : QueueEntry) : Prop := qe_seq e < qe_seq e'.

Lemma sorted_omap (f : bytes * bytes → option QueueEntry) l :
  StronglySorted key_lt l →
  (∀ x y e e', x ∈ l → y ∈ l → f x = Some e → f y = Some e' → key_lt x y → seq_lt e e') →
  StronglySorted seq_lt (omap f l).
Proof.
  induction l as [|x l IH]; [constructor|]. intros [Hl Hx]%sorted_cons_inv Hf. simpl.
  assert (StronglySorted seq_lt (omap f l)) as IH'.
  { apply IH; [done|]. intros y z e e' Hy Hz. apply Hf; by right. }
  destruct (f x) as [e|] eqn:He; [|done]. constructor; [done|].
  apply Forall_forall. intros e' (y & Hy & He')%list_elem_of_omap.
  eapply Hf; [by left|by right|done|done|by apply Hx].
Qed.

Lemma waiters_sorted q : queue_ok q → StronglySorted seq_lt (waiters q).
Proof.
  intros Hq. apply sorted_omap; [apply btree_range_sorted|].
  intros [k b] [k' b'] e e' [Hk _]%btree_range_elem [Hk' _]%btree_range_elem He He' Hlt.
  cbn [fst snd] in He, He'.
  apply (live_entry_stored q) in He as (-> & x & [Hu _] & _); [|done..].
  apply (live_entry_stored q) in He' as (-> & x' & [Hu' _] & _); [|done..].
  by apply queue_entry_key_lt in Hlt.
Qed.

Lemma seq_sorted_ext l1 l2 :
  StronglySorted seq_lt l1 → StronglySorted seq_lt l2 → (∀ e, e ∈ l1 ↔ e ∈ l2) → l1 = l2.
Proof.
  revert l2. induction l1 as [|x l1 IH]; intros [|y l2] H1 H2 Hel.
  - done.
  - exfalso. apply (not_elem_of_nil y), Hel. by left.
  - exfalso. apply (not_elem_of_nil x), Hel. by left.
  - inversion H1 as [|? ? Hs1 Hx]; inversion H2 as [|? ? Hs2 Hy]; subst.
    rewrite Forall_forall in Hx, Hy. unfold seq_lt in Hx, Hy.
    assert (x = y) as <-.
    { pose proof (proj1 (Hel x) ltac:(by left)) as Hxy.
      pose proof (proj2 (Hel y) ltac:(by left)) as Hyx.
      apply elem_of_cons in Hxy as [->|Hxy]; [done|]. apply elem_of_cons in Hyx as [->|Hyx]; [done|].
      specialize (Hx y Hyx). specialize (Hy x Hxy). lia. }
    f_equal. apply IH; [done..|]. intros e. specialize (Hel e). rewrite !elem_of_cons in Hel.
    split; intros He; [specialize (Hx e He)|specialize (Hy e He)];
      destruct Hel as [Ha Hb]; [destruct Ha as [->|?]|destruct Hb as [->|?]]; auto; lia.
Qed.

Lemma sorted_filter_seq (P : QueueEntry → Prop) `{!∀ x, Decision (P x)} l :
  StronglySorted seq_lt l → StronglySorted seq_lt (filter P l).
Proof.
  induction 1 as [|x l Hl IH Hx]; [constructor|]. rewrite filter_cons. case_decide; [|done].
  constructor; [done|]. rewrite Forall_forall in Hx |- *. intros y [_ Hy]%list_elem_of_filter. auto.
Qed.

(** The waiter of an owner, and the waiter with a sequence number. *)
Definition waiter_of (o : str) (l : list QueueEntry) : option QueueEntry :=
  head (filter (λ e, qe_owner e = o) l).
Definition waiter_at (n : Z) (l : list QueueEntry) : option QueueEntry :=
  head (filter (λ e, qe_seq e = n) l).

Lemma waiter_of_unique q e :
  queue_ok q → e ∈ waiters q → waiter_of (qe_owner e) (waiters q) = Some e.
Proof.
  intros Hq He. apply head_filter_unique; [done..|]. intros e' He' Ho.
  apply elem_waiters in He as (x & Hs & Hx); [|done].
  apply elem_waiters in He' as (x' & Hs' & Hx'); [|done]. by eapply waiter_unique.
Qed.
Lemma waiter_owners_nodup q : queue_ok q → NoDup (qe_owner <$> waiters q).
Proof.
  intros Hq. pose proof (waiters_sorted q Hq) as Hs.
  assert (∀ e e', e ∈ waiters q → e' ∈ waiters q → qe_owner e = qe_owner e' → e = e') as Hu.
  { intros e e' He He' Ho. apply (waiter_of_unique q) in He, He'; [|done..]. congruence. }
  revert Hu. induction Hs as [|e l Hl IH Hlt]; intros Hu; [constructor|].
  rewrite fmap_cons. constructor.
  - intros (e' & Ho & Hin)%list_elem_of_fmap. rewrite Forall_forall in Hlt.
    specialize (Hlt e' Hin). rewrite (Hu e e') in Hlt by (done || by constructor).
    unfold seq_lt in Hlt. lia.
  - apply IH. intros e1 e2 H1 H2. apply Hu; by right.
Qed.
Lemma waiter_at_unique q e :
  queue_ok q → e ∈ waiters q → waiter_at (qe_seq e) (waiters q) = Some e.
Proof.
  intros Hq He. apply head_filter_unique; [done..|]. intros e' He' Ho.
  apply elem_waiters in He as (x & Hs & Hx); [|done].
  apply elem_waiters in He' as (x' & Hs' & Hx'); [|done]. by eapply stored_fun.
Qed.

(** ** Running an operation on the queue's part of the keyspace *)

Definition qview (s : Kv) : qst :=
  {| q_now := kv_now s; q_map := cf_map s CF_QUEUE;
     q_seq := cf_map s CF_META !! META_QUEUE_SEQ_KEY;
     q_count := cf_map s CF_META !! META_QUEUE_COUNT_KEY |}.

(** From any keyspace with queue part [q], [m] returns [a] and leaves [q']. *)
Definition qruns {A} (m : txm Kv A) (q : qst) (a : A) (q' : qst) : Prop :=
  ∀ s, qview s = q → ∃ s', m s = Ok (a, s') ∧ qview s' = q'.
Definition qfails {A} (m : txm Kv A) (q : qst) (e : error) : Prop :=
  ∀ s, qview s = q → m s = Err e.

Lemma qruns_ret {A} (a : A) q : qruns (mret a) q a q.
Proof. intros s Hs. by exists s. Qed.
Lemma qruns_bind {A B} (m : txm Kv A) (f : A → txm Kv B) q a q1 b q2 :
  qruns m q a q1 → qruns (f a) q1 b q2 → qruns (m ≫= f) q b q2.
Proof.
  intros Hm Hf s Hs. destruct (Hm s Hs) as (s1 & Hs1 & Hq1).
  destruct (Hf s1 Hq1) as (s2 & Hs2 & Hq2). exists s2. unfold mbind, txm_bind. by rewrite Hs1.
Qed.
Lemma qfails_bind {A B} (m : txm Kv A) (f : A → txm Kv B) q a q1 e :
  qruns m q a q1 → qfails (f a) q1 e → qfails (m ≫= f) q e.
Proof.
  intros Hm Hf s Hs. destruct (Hm s Hs) as (s1 & Hs1 & Hq1). unfold mbind, txm_bind.
  rewrite Hs1. by apply Hf.
Qed.
Lemma qfails_fail {A} q e : qfails (A := A) (tfail e) q e.
Proof. by intros s Hs. Qed.
Lemma qruns_eq {A} (m : txm Kv A) q a q1 q2 : qruns m q a q1 → q1 = q2 → qruns m q a q2.
Proof. by intros H <-. Qed.
Lemma qruns_asks_now q : qruns (asks kv_now) q (q_now q) q.
Proof. intros s <-. by exists s. Qed.
Lemma qruns_lift {A} (a : A) r q : r = Ok a → qruns (lift r) q a q.
Proof. intros ->. apply qruns_ret. Qed.

Lemma qruns_get_queue k q : qruns (get_raw CF_QUEUE k) q (q_map q !! k) q.
Proof. intros s <-. by exists s. Qed.
Lemma qruns_get_seq q : qruns (get_raw CF_META META_QUEUE_SEQ_KEY) q (q_seq q) q.
Proof. intros s <-. by exists s. Qed.
Lemma qruns_get_count q : qruns (get_raw CF_META META_QUEUE_COUNT_KEY) q (q_count q) q.
Proof. intros s <-. by exists s. Qed.
Lemma qruns_put_seq v q :
  qruns (put_raw CF_META META_QUEUE_SEQ_KEY (encode_record (Counter v))) q tt (with_seq q v).
Proof.
  intros s <-. eexists. split; [reflexivity|]. unfold qview, with_seq. cbn.
  rewrite !cf_map_upd. f_equal; [by rewrite decide_True, lookup_insert_eq|].
  by rewrite decide_True, lookup_insert_ne.
Qed.
Lemma qruns_put_count v q :
  qruns (put_raw CF_META META_QUEUE_COUNT_KEY (encode_record (Counter v))) q tt (with_count q v).
Proof.
  intros s <-. eexists. split; [reflexivity|]. unfold qview, with_count. cbn.
  rewrite !cf_map_upd. f_equal; [by rewrite decide_True, lookup_insert_ne|].
  by rewrite decide_True, lookup_insert_eq.
Qed.
Lemma qruns_del k q : qruns (del CF_QUEUE k) q tt (with_map q (delete k (q_map q))).
Proof.
  intros s <-. eexists. split; [reflexivity|]. unfold qview, with_map. cbn.
  by rewrite !cf_map_upd.
Qed.
Lemma qruns_put_ttl k mk ttl q :
  qruns (put_expiring kv_now kv_put_raw CF_QUEUE k mk ttl) q tt
    (with_map q (<[k := encode_record (mk (expiry_at (q_now q) ttl))]> (q_map q))).
Proof.
  intros s <-. unfold put_expiring, write_expiry, mbind, txm_bind, asks, kv_put_raw. simpl.
  destruct (0 <? ttl); (eexists; split; [reflexivity|]); unfold qview, with_map; cbn;
    by rewrite !cf_map_upd.
Qed.
Lemma qruns_scan {S : Type} lo hi (visit : visitor S) s0 s1 q :
  visit_all visit s0 (btree_range lo hi (q_map q)) = Ok s1 →
  qruns (scan_merged CF_QUEUE lo hi visit s0) q s1 q.
Proof.
  intros H s <-. exists s. split; [|done]. cbn. unfold kv_scan, kv_range.
  cbn in H. by rewrite H.
Qed.

(** ** Counters *)

Definition numbers (q : qst) (n : Z) : Prop :=
  0 ≤ n < i64_max ∧ seq_value q = n ∧
  (q_seq q = None ∨ q_seq q = Some (encode_record (Counter (seq_value q)))).

Lemma queue_ok_numbers q : queue_ok q → seq_value q < i64_max → numbers q (seq_value q).
Proof. intros Hq Hlt. destruct (qo_seq q Hq) as (Hv & Hs & _). split_and!; [lia..|done|done]. Qed.

Lemma next_seq_run q n : numbers q n → qruns next_seq q (n + 1) (with_seq q (n + 1)).
Proof.
  intros (Hv & <- & Hs). unfold next_seq.
  assert (saturating_add (seq_value q) 1 = seq_value q + 1) as Hadd
    by (unfold saturating_add, u64_max, i64_max in *; lia).
  assert (as_i64 (seq_value q + 1) = seq_value q + 1) as Has.
  { unfold as_i64, i64_max in *. rewrite Z.mod_small by lia. destruct (Z.ltb_spec (seq_value q + 1) (2 ^ 63)); lia. }
  eapply qruns_bind; [apply qruns_get_seq|]. eapply (qruns_bind _ _ _ (seq_value q)).
  - destruct Hs as [Hs|Hs]; rewrite Hs.
    + replace (seq_value q) with 0 by (unfold seq_value; by rewrite Hs). apply qruns_ret.
    + eapply qruns_bind; [apply qruns_lift, decode_encode|]. cbv beta iota.
      rewrite (proj2 (Z.leb_le _ _)) by lia. apply qruns_ret.
  - cbv beta zeta. rewrite Hadd, Has. eapply qruns_bind; [apply qruns_put_seq|apply qruns_ret].
Qed.

(** The counter reads [c]. *)
Definition counts (q : qst) (c : Z) : Prop :=
  0 ≤ c ≤ QUEUE_SCAN_LIMIT ∧
  (q_count q = Some (encode_record (Counter c)) ∨
   q_count q = None ∧ units_total (q_map q) = 0 ∧ c = 0).

Lemma queue_ok_counts q : queue_ok q → counts q (units_total (q_map q)).
Proof.
  intros Hq. split; [split; [apply units_total_nonneg|apply Hq]|].
  destruct (qo_count q Hq) as [?|[? ?]]; auto.
Qed.

Lemma no_entries m k b : units_total m = 0 → m !! k = Some b → is_entry_key k = false.
Proof.
  intros Ht Hk. destruct (is_entry_key k) eqn:He; [|done].
  rewrite (units_total_delete m k b He Hk) in Ht. pose proof (stored_units_pos b).
  pose proof (units_total_nonneg (delete k m)). lia.
Qed.

Lemma count_visit_zero l c :
  (∀ k b, (k, b) ∈ l → is_entry_key k = false) → visit_all count_visit c l = Ok c.
Proof.
  induction l as [|[k b] l IH]; intros H; [done|]. simpl. unfold count_visit at 1.
  specialize (H k b ltac:(by left)) as Hk. unfold is_entry_key in Hk.
  destruct (decode_queue_entry_seq k); [done|]. apply IH. intros k' b' Hin. eapply H. by right.
Qed.

Lemma set_queue_count_run q c :
  c ≤ QUEUE_SCAN_LIMIT → qruns (set_queue_count c) q tt (with_count q c).
Proof.
  intros Hc. unfold set_queue_count.
  replace (Z.min c i64_max) with c by (unfold i64_max, QUEUE_SCAN_LIMIT in *; lia).
  apply qruns_put_count.
Qed.

Lemma queue_count_run q c : counts q c → qruns queue_count q c (with_count q c).
Proof.
  intros [Hc Hq]. unfold queue_count. eapply qruns_bind; [apply qruns_get_count|].
  destruct Hq as [Hq|(Hq & Ht & ->)]; rewrite Hq.
  - eapply qruns_bind.
    { eapply qruns_bind; [apply qruns_lift, decode_encode|apply qruns_ret]. }
    cbv beta iota. rewrite Z.max_l by lia. replace (with_count q c) with q; [apply qruns_ret|].
    destruct q; unfold with_count; simpl in *. by rewrite Hq.
  - eapply qruns_bind; [apply qruns_ret|]. cbv beta iota.
    eapply qruns_bind; [apply qruns_scan, count_visit_zero|].
    + intros k b [Hk _]%btree_range_elem. by eapply no_entries.
    + eapply qruns_bind; [by apply set_queue_count_run|apply qruns_ret].
Qed.

Lemma release_units_run q c u :
  counts q c → 0 ≤ u ≤ c → qruns (release_queue_units u) q tt (with_count q (c - u)).
Proof.
  intros Hc Hu. unfold release_queue_units. eapply qruns_bind; [by apply queue_count_run|].
  cbv beta. unfold saturating_sub. rewrite Z.max_l by lia.
  change (with_count q (c - u)) with (with_count (with_count q c) (c - u)).
  apply set_queue_count_run. destruct Hc. lia.
Qed.

Lemma reserve_units_run q c old u :
  counts q c → 0 ≤ old ≤ c → 0 ≤ u → c - old + u ≤ QUEUE_SCAN_LIMIT →
  qruns (reserve_queue_units old u) q tt (with_count q (c - old + u)).
Proof.
  intros Hc Hold Hu Hlim. unfold reserve_queue_units.
  eapply qruns_bind; [by apply queue_count_run|]. cbv beta zeta.
  replace (saturating_add (saturating_sub c old) u) with (c - old + u)
    by (unfold saturating_add, saturating_sub, u64_max, QUEUE_SCAN_LIMIT in *; lia).
  rewrite (proj2 (Z.ltb_ge _ _)) by lia.
  change (with_count q (c - old + u)) with (with_count (with_count q c) (c - old + u)).
  by apply set_queue_count_run.
Qed.

Lemma reserve_units_fails q c old u :
  counts q c → 0 ≤ old ≤ c → 0 ≤ u → QUEUE_SCAN_LIMIT < c - old + u →
  qfails (reserve_queue_units old u) q (SetScanLimitExceeded "enqueue" QUEUE_SCAN_LIMIT).
Proof.
  intros Hc Hold Hu Hlim. unfold reserve_queue_units.
  eapply qfails_bind; [by apply queue_count_run|]. cbv beta zeta.
  rewrite (proj2 (Z.ltb_lt _ _)); [apply qfails_fail|].
  unfold saturating_add, saturating_sub, u64_max, QUEUE_SCAN_LIMIT in *. lia.
Qed.

(** ** Reading records *)

Lemma owner_rec_of q o b :
  queue_ok q → q_map q !! queue_owner_key o = Some b → ∃ n exp, b = owner_rec n exp ∧ is_u64 n.
Proof.
  intros Hq H. destruct (qo_shape q Hq _ b H) as [(e & x & Hk & _)|[(o' & n & x & _ & -> & Hn)|
    (p & n & x & Hk & _)]]; [done|eauto|done].
Qed.
Lemma entry_rec_of q n b :
  queue_ok q → is_u64 n → q_map q !! queue_entry_key n = Some b →
  ∃ e exp, b = entry_rec e exp ∧ qe_seq e = n ∧ stored (q_map q) e exp.
Proof.
  intros Hq Hn H. destruct (qo_shape q Hq _ b H) as [(e & x & Hk & -> & Hu)|[(o' & ? & x & Hk & _)|
    (p & ? & x & Hk & _)]]; [|done..].
  apply queue_entry_key_inj in Hk as ->; [|done..]. by exists e, x.
Qed.
Lemma path_rec_of q p n b :
  queue_ok q → q_map q !! queue_path_key p n = Some b → ∃ exp, b = path_rec exp.
Proof.
  intros Hq H. destruct (qo_shape q Hq _ b H) as [(e & x & Hk & _)|[(o' & ? & x & Hk & _)|
    (p' & ? & x & _ & -> & _)]]; [done..|eauto].
Qed.

Lemma qruns_get_str k q v exp :
  q_map q !! k = Some (encode_record (Str v exp)) →
  qruns (get_str CF_QUEUE k) q (if expired exp (q_now q) then None else Some v) q.
Proof.
  intros Hk. cbn [get_str raw_store kv_raw kv_store]. unfold w_get_str.
  eapply qruns_bind; [apply qruns_asks_now|]. eapply qruns_bind; [apply qruns_get_queue|].
  rewrite Hk. eapply qruns_bind; [apply qruns_lift, decode_encode|]. apply qruns_ret.
Qed.
Lemma qruns_get_str_None k q : q_map q !! k = None → qruns (get_str CF_QUEUE k) q None q.
Proof.
  intros Hk. cbn [get_str raw_store kv_raw kv_store]. unfold w_get_str.
  eapply qruns_bind; [apply qruns_asks_now|]. eapply qruns_bind; [apply qruns_get_queue|].
  rewrite Hk. apply qruns_ret.
Qed.

(** A live waiter of [o], or no live entry of [o]. *)
Lemma waiter_of_cases q o :
  queue_ok q →
  (∃ e exp, waiter_of o (waiters q) = Some e ∧ stored (q_map q) e exp ∧ qe_owner e = o ∧
     expired exp (q_now q) = false ∧ q_map q !! queue_owner_key o = Some (owner_rec (qe_seq e) exp)) ∨
  (waiter_of o (waiters q) = None ∧
   (∀ e x, stored (q_map q) e x → expired x (q_now q) = false → qe_owner e ≠ o) ∧
   ∀ n x, is_u64 n → q_map q !! queue_owner_key o = Some (owner_rec n x) → expired x (q_now q) = true).
Proof.
  intros Hq. destruct (waiter_of o (waiters q)) as [e|] eqn:Hw.
  - left. apply head_filter_Some in Hw as [Hin Ho].
    apply elem_waiters in Hin as (x & Hs & Hx); [|done]. exists e, x. split_and!; [done..|].
    rewrite <- Ho. by apply (qo_entry q Hq).
  - right. split; [done|].
    assert (∀ e x, stored (q_map q) e x → expired x (q_now q) = false → qe_owner e ≠ o) as Hno.
    { intros e x Hs Hx. eapply head_filter_None in Hw; [exact Hw|]. apply elem_waiters; eauto. }
    split; [done|]. intros n x Hn Hk. destruct (expired x (q_now q)) eqn:Hx; [done|].
    destruct (qo_owner q Hq o n x Hn Hk Hx) as (e & Hs & _ & Ho). by destruct (Hno e x).
Qed.

Lemma with_map_id q : with_map q (q_map q) = q.
Proof. by destruct q. Qed.

(** Other records may have changed since [queue_ok] held. *)
Lemma owner_seq_run_map q m o :
  queue_ok q → m !! queue_owner_key o = q_map q !! queue_owner_key o →
  qruns (owner_seq o) (with_map q m) (qe_seq <$> waiter_of o (waiters q)) (with_map q m).
Proof.
  intros Hq Hm. unfold owner_seq.
  destruct (waiter_of_cases q o Hq) as [(e & x & -> & Hs & _ & Hx & Hk)|(-> & Hno & Hdead)].
  - eapply qruns_bind; [apply qruns_get_str; simpl; by rewrite Hm|]. cbn [with_map q_now].
    rewrite Hx. simpl. rewrite parse_u64_to_string by apply Hs. apply qruns_ret.
  - destruct (q_map q !! queue_owner_key o) as [b|] eqn:Hk.
    + destruct (owner_rec_of q o b Hq Hk) as (n & x & -> & Hn).
      eapply qruns_bind; [by apply qruns_get_str|]. cbn [with_map q_now].
      rewrite (Hdead n x) by done. apply qruns_ret.
    + eapply qruns_bind; [by apply qruns_get_str_None|]. apply qruns_ret.
Qed.
Lemma owner_seq_run q o :
  queue_ok q → qruns (owner_seq o) q (qe_seq <$> waiter_of o (waiters q)) q.
Proof. intros Hq. rewrite <- (with_map_id q) at 1 3. by apply owner_seq_run_map. Qed.

Lemma qruns_get_bytes k q v exp :
  q_map q !! k = Some (encode_record (BytesRec v exp)) →
  qruns (get_bytes CF_QUEUE k) q (if expired exp (q_now q) then None else Some v) q.
Proof.
  intros Hk. unfold get_bytes, w_get_bytes.
  eapply qruns_bind; [apply qruns_asks_now|]. eapply qruns_bind; [apply qruns_get_queue|].
  rewrite Hk. eapply qruns_bind; [apply qruns_lift, decode_encode|]. apply qruns_ret.
Qed.
Lemma qruns_get_bytes_None k q : q_map q !! k = None → qruns (get_bytes CF_QUEUE k) q None q.
Proof.
  intros Hk. unfold get_bytes, w_get_bytes.
  eapply qruns_bind; [apply qruns_asks_now|]. eapply qruns_bind; [apply qruns_get_queue|].
  rewrite Hk. apply qruns_ret.
Qed.

Lemma waiter_at_None q n :
  queue_ok q → (∀ e x, stored (q_map q) e x → qe_seq e = n → expired x (q_now q) = true) →
  waiter_at n (waiters q) = None.
Proof.
  intros Hq Hno. destruct (waiter_at n (waiters q)) as [e|] eqn:Hw; [|done].
  apply head_filter_Some in Hw as [Hin He]. apply elem_waiters in Hin as (x & Hs & Hx); [|done].
  rewrite (Hno e x) in Hx; done.
Qed.

Lemma read_entry_run q n :
  queue_ok q → is_u64 n → qruns (read_entry n) q (waiter_at n (waiters q)) q.
Proof.
  intros Hq Hn. unfold read_entry. destruct (q_map q !! queue_entry_key n) as [b|] eqn:Hk.
  - destruct (entry_rec_of q n b Hq Hn Hk) as (e & x & -> & <- & Hs).
    eapply qruns_bind; [by apply qruns_get_bytes|]. destruct (expired x (q_now q)) eqn:Hx.
    + rewrite waiter_at_None; [apply qruns_ret|done|]. intros e' x' Hs' Heq.
      by destruct (stored_fun _ _ _ _ _ Hs' Hs Heq) as [-> ->].
    + rewrite waiter_at_unique; [|done|apply elem_waiters; eauto].
      unfold decode_queue_entry. rewrite bincode_decode_encode. apply qruns_ret.
  - eapply qruns_bind; [by apply qruns_get_bytes_None|].
    rewrite waiter_at_None; [apply qruns_ret|done|]. intros e x [_ He] Heq. subst n. congruence.
Qed.

(** ** Index records *)

Lemma delete_path_indexes_run e q :
  qruns (delete_path_indexes e) q tt (with_map q (del_entries (path_keys e) (q_map q))).
Proof.
  unfold delete_path_indexes, path_keys, wait_paths. revert q.
  induction (new_scoped_paths (qe_args e) (qe_namespace e)) as [|x l IH]; intros q; simpl.
  - destruct q. apply qruns_ret.
  - eapply qruns_bind; [apply qruns_del|]. apply IH.
Qed.

Lemma write_path_indexes_run e ttl q :
  qruns (write_path_indexes e ttl) q tt
    (with_map q (put_keys (path_rec (expiry_at (q_now q) ttl)) (path_keys e) (q_map q))).
Proof.
  unfold write_path_indexes, path_keys, wait_paths. revert q.
  induction (new_scoped_paths (qe_args e) (qe_namespace e)) as [|x l IH]; intros q; simpl.
  - destruct q. apply qruns_ret.
  - eapply qruns_bind; [apply qruns_put_ttl|]. apply IH.
Qed.

(** ** Dequeue *)

Lemma counts_with_map q c m : q_count q ≠ None → counts q c → counts (with_map q m) c.
Proof. intros Hn [Hc [H|[H _]]]; [|done]. split; [done|by left]. Qed.

Lemma stored_count q e exp : queue_ok q → stored (q_map q) e exp → q_count q ≠ None.
Proof.
  intros Hq [Hu Hs]. destruct (qo_count q Hq) as [->|[_ Ht]]; [done|].
  apply (no_entries _ _ _ Ht) in Hs. by rewrite is_entry_key_entry in Hs.
Qed.

Lemma units_le q e exp : stored (q_map q) e exp → queue_units (qe_args e) ≤ units_total (q_map q).
Proof.
  intros Hs. pose proof (units_drop_entry e exp _ Hs).
  pose proof (units_total_nonneg (drop_entry e (q_map q))). lia.
Qed.

Definition dequeued (o : str) (q : qst) : qst :=
  match waiter_of o (waiters q) with
  | Some e => with_count (with_map q (delete_owner true o (drop_entry e (q_map q))))
                (units_total (q_map q) - queue_units (qe_args e))
  | None => with_map q (delete (queue_owner_key o) (q_map q))
  end.

Lemma dequeue_run q o : queue_ok q → qruns (dequeue o) q tt (dequeued o q).
Proof.
  intros Hq. unfold dequeue, dequeued. pose proof (owner_seq_run q o Hq) as Hos.
  destruct (waiter_of_cases q o Hq) as [(e & x & Hw & Hs & Ho & Hx & _)|(Hw & _)];
    rewrite Hw in Hos |- *; (eapply qruns_bind; [apply Hos|]).
  - eapply qruns_eq.
    { eapply qruns_bind; [|apply qruns_del]. cbn [fmap option_fmap option_map].
      eapply qruns_bind; [apply qruns_get_queue|]. rewrite (proj2 Hs).
      eapply qruns_bind; [apply read_entry_run; [done|apply Hs]|].
      rewrite waiter_at_unique; [|done|apply elem_waiters; eauto].
      eapply qruns_bind; [apply delete_path_indexes_run|].
      eapply qruns_bind; [|apply qruns_del]. rewrite stored_units_entry.
      eapply (release_units_run _ (units_total (q_map q))).
      - apply counts_with_map; [by eapply stored_count|by apply queue_ok_counts].
      - pose proof (units_le _ _ _ Hs). pose proof (queue_units_pos (qe_args e)). lia. }
    done.
  - eapply qruns_bind; [apply qruns_ret|apply qruns_del].
Qed.

Lemma dequeued_ok q o : queue_ok q → queue_ok (dequeued o q).
Proof.
  intros Hq. unfold dequeued.
  destruct (waiter_of_cases q o Hq) as [(e & x & -> & Hs & <- & Hx & _)|(-> & Hno & _)].
  - eapply remove_ok; [done..|]. intros _ e' x' Hs' Hx' Ho. by eapply (waiter_unique q e' x' e x).
  - by apply delete_owner_ok.
Qed.

Lemma stored_dequeued q o e exp :
  queue_ok q → expired exp (q_now q) = false →
  stored (q_map (dequeued o q)) e exp ↔ stored (q_map q) e exp ∧ qe_owner e ≠ o.
Proof.
  intros Hq Hx. unfold dequeued.
  destruct (waiter_of_cases q o Hq) as [(e' & x' & -> & Hs & <- & Hx' & _)|(-> & Hno & _)];
    cbn [with_count with_map q_map].
  - rewrite stored_delete_owner, stored_drop_entry by apply Hs. split; intros [He Hne]; (split; [done|]).
    + intros Ho. destruct Hne. by destruct (waiter_unique q e exp e' x') as [-> _].
    + intros Hseq. destruct Hne. by destruct (stored_fun _ _ _ _ _ He Hs Hseq) as [-> _].
  - change (delete (queue_owner_key o) (q_map q)) with (delete_owner true o (q_map q)).
    rewrite stored_delete_owner. naive_solver.
Qed.

Lemma dequeued_now q o : q_now (dequeued o q) = q_now q.
Proof. unfold dequeued. by destruct (waiter_of o (waiters q)). Qed.
Lemma dequeued_seq q o : seq_value (dequeued o q) = seq_value q.
Proof. unfold dequeued. by destruct (waiter_of o (waiters q)). Qed.

Lemma dequeued_waiters q o :
  queue_ok q → waiters (dequeued o q) = filter (λ e, qe_owner e ≠ o) (waiters q).
Proof.
  intros Hq. pose proof (dequeued_ok q o Hq) as Hq'.
  apply seq_sorted_ext; [by apply waiters_sorted|by apply sorted_filter_seq, waiters_sorted|].
  intros e. rewrite list_elem_of_filter, !elem_waiters by done. rewrite dequeued_now. split.
  - intros (x & Hs & Hx). apply stored_dequeued in Hs as [Hs Hne]; eauto.
  - intros (Hne & x & Hs & Hx). exists x. split; [|done]. by apply stored_dequeued.
Qed.

(** ** Expiring an entry *)

Definition points_to (q : qst) (e : QueueEntry) : bool :=
  bool_decide (qe_seq <$> waiter_of (qe_owner e) (waiters q) = Some (qe_seq e)).
Definition expired_entry (e : QueueEntry) (q : qst) : qst :=
  with_count (with_map q (delete_owner (points_to q e) (qe_owner e) (drop_entry e (q_map q))))
    (units_total (q_map q) - queue_units (qe_args e)).

Lemma expire_entry_run q e exp :
  queue_ok q → stored (q_map q) e exp →
  qruns (expire_entry (queue_entry_key (qe_seq e))) q true (expired_entry e q).
Proof.
  intros Hq Hs. unfold expire_entry. rewrite decode_queue_entry_key by apply Hs.
  eapply qruns_eq.
  { eapply qruns_bind; [apply qruns_get_queue|]. rewrite (proj2 Hs). cbv beta iota.
    eapply qruns_bind.
    { unfold entry_rec. rewrite decode_encode. unfold decode_queue_entry.
      rewrite bincode_decode_encode. eapply qruns_bind; [apply delete_path_indexes_run|].
      eapply qruns_bind; [apply owner_seq_run_map; [done|]|].
      { rewrite lookup_del_entries, decide_False; [done|]. unfold path_keys.
        rewrite list_elem_of_fmap. by intros (p & ? & _). }
      instantiate (1 := with_map q (delete_owner (points_to q e) (qe_owner e)
                                     (del_entries (path_keys e) (q_map q)))).
      unfold points_to. case_bool_decide; [apply qruns_del|apply qruns_ret]. }
    eapply qruns_bind.
    { rewrite stored_units_entry. eapply (release_units_run _ (units_total (q_map q))).
      - apply counts_with_map; [by eapply stored_count|by apply queue_ok_counts].
      - pose proof (units_le _ _ _ Hs). pose proof (queue_units_pos (qe_args e)). lia. }
    eapply qruns_bind; [apply qruns_del|apply qruns_ret]. }
  unfold expired_entry, drop_entry, delete_owner, with_count, with_map. simpl. f_equal.
  destruct (points_to q e); [apply delete_delete|done].
Qed.

Lemma expired_entry_ok q e exp :
  queue_ok q → stored (q_map q) e exp → queue_ok (expired_entry e q).
Proof.
  intros Hq Hs. eapply remove_ok; [done..| |]; unfold points_to;
    destruct (waiter_of_cases q (qe_owner e) Hq)
      as [(e' & x' & -> & Hs' & Ho & Hx' & Hk)|(-> & Hno & Hdead)].
  - intros Hf%bool_decide_eq_false x Hx. rewrite Hk in Hx. injection Hx as [Hx _]%owner_rec_inj;
      [|apply Hs'|apply Hs]. destruct Hf. simpl. by rewrite Hx.
  - intros _ x Hx. eapply Hdead; [apply Hs|done].
  - intros [= Heq]%bool_decide_eq_true e2 x2 Hs2 Hx2 Ho2.
    destruct (stored_fun _ _ _ _ _ Hs' Hs Heq) as [-> _]. by eapply (waiter_unique q).
  - by intros Hf%bool_decide_eq_true.
Qed.

Lemma expired_entry_waiters q e exp :
  queue_ok q → stored (q_map q) e exp →
  waiters (expired_entry e q) = filter (λ e', qe_seq e' ≠ qe_seq e) (waiters q).
Proof.
  intros Hq Hs. pose proof (expired_entry_ok q e exp Hq Hs) as Hq'.
  apply seq_sorted_ext; [by apply waiters_sorted|by apply sorted_filter_seq, waiters_sorted|].
  intros e'. rewrite list_elem_of_filter, !elem_waiters by done.
  unfold expired_entry. cbn [with_count with_map q_map q_now].
  setoid_rewrite stored_delete_owner. setoid_rewrite stored_drop_entry; [|apply Hs]. naive_solver.
Qed.

Lemma expired_entry_same q e exp :
  queue_ok q → stored (q_map q) e exp → expired exp (q_now q) = true →
  waiters (expired_entry e q) = waiters q.
Proof.
  intros Hq Hs Hx. rewrite (expired_entry_waiters q e exp) by done.
  apply filter_all. intros e' (x' & Hs' & Hx')%elem_waiters Heq; [|done].
  destruct (stored_fun _ _ _ _ _ Hs' Hs Heq) as [-> ->]. congruence.
Qed.

(** ** Enqueue *)

Definition is_waiter (namespace : str) (args : AcquireArgs) (policy : LockPolicy) (e : QueueEntry)
    : bool :=
  bool_decide (qe_namespace e = namespace) && bool_decide (qe_args e = args)
  && bool_decide (qe_policy e = policy).

(** The unchanged waiter of the owner, if it has one. *)
Definition unchanged (namespace : str) (args : AcquireArgs) (policy : LockPolicy) (q : qst)
    : option QueueEntry :=
  match waiter_of (owner_id args) (waiters q) with
  | Some e => if is_waiter namespace args policy e then Some e else None
  | None => None
  end.

Definition ttl_of (args : AcquireArgs) : Z :=
  if 0 <? queue_ttl_ms args then queue_ttl_ms args else QUEUE_ENTRY_TTL_MS.
Definition new_entry (n : Z) (namespace : str) (args : AcquireArgs) (policy : LockPolicy)
    : QueueEntry :=
  {| qe_seq := n; qe_owner := owner_id args; qe_namespace := namespace; qe_args := args;
     qe_policy := policy |}.
Definition added (e : QueueEntry) (exp : Z) (q : qst) : qst :=
  with_count (with_map q (add_entry e exp (q_map q)))
    (units_total (q_map q) + queue_units (qe_args e)).

Definition enqueued_seq (namespace : str) (args : AcquireArgs) (policy : LockPolicy) (q : qst)
    : Z :=
  match unchanged namespace args policy q with
  | Some e => qe_seq e
  | None => seq_value q + 1
  end.
Definition vacated (namespace : str) (args : AcquireArgs) (policy : LockPolicy) (q : qst) : qst :=
  match unchanged namespace args policy q with
  | Some _ => dequeued (owner_id args) q
  | None => with_seq (dequeued (owner_id args) q) (seq_value q + 1)
  end.
Definition enqueued (namespace : str) (args : AcquireArgs) (policy : LockPolicy) (q : qst) : qst :=
  added (new_entry (enqueued_seq namespace args policy q) namespace args policy)
    (expiry_at (q_now q) (ttl_of args)) (vacated namespace args policy q).

(** Room for the waiter's units once its old entry is gone. *)
Definition room (args : AcquireArgs) (q : qst) : Prop :=
  units_total (q_map (dequeued (owner_id args) q)) + queue_units args ≤ QUEUE_SCAN_LIMIT.

Lemma is_waiter_spec namespace args policy e :
  is_waiter namespace args policy e = true → qe_owner e = owner_id args →
  e = new_entry (qe_seq e) namespace args policy.
Proof.
  unfold is_waiter. rewrite !andb_true_iff, !bool_decide_eq_true.
  intros [[<- <-] <-] Ho. unfold new_entry. rewrite <- Ho. by destruct e.
Qed.

Lemma units_dequeued q o :
  queue_ok q → units_total (q_map (dequeued o q)) =
  units_total (q_map q) -
  match waiter_of o (waiters q) with Some e => queue_units (qe_args e) | None => 0 end.
Proof.
  intros Hq. unfold dequeued.
  destruct (waiter_of_cases q o Hq) as [(e & x & -> & Hs & _)|(-> & _)];
    cbn [with_count with_map q_map].
  - by rewrite units_delete_owner, (units_drop_entry e x).
  - change (delete (queue_owner_key o) (q_map q)) with (delete_owner true o (q_map q)).
    rewrite units_delete_owner. lia.
Qed.

(** ** The state [enqueue] leaves *)
Section enqueued.
Context (namespace : str) (args : AcquireArgs) (policy : LockPolicy) (q : qst).
Context (Hq : queue_ok q) (Hmax : seq_value q < i64_max).

Lemma vacated_now : q_now (vacated namespace args policy q) = q_now q.
Proof.
  unfold vacated. destruct (unchanged namespace args policy q); simpl; apply dequeued_now.
Qed.
Lemma vacated_map : q_map (vacated namespace args policy q) = q_map (dequeued (owner_id args) q).
Proof. unfold vacated. by destruct (unchanged namespace args policy q). Qed.

Lemma vacated_ok : queue_ok (vacated namespace args policy q).
Proof.
  unfold vacated. pose proof (dequeued_ok q (owner_id args) Hq).
  destruct (unchanged namespace args policy q); [done|].
  apply with_seq_ok; [done|]. rewrite dequeued_seq. lia.
Qed.

Lemma unchanged_Some e :
  unchanged namespace args policy q = Some e →
  waiter_of (owner_id args) (waiters q) = Some e ∧ e ∈ waiters q ∧
  e = new_entry (qe_seq e) namespace args policy.
Proof.
  unfold unchanged. destruct (waiter_of _ _) as [e'|] eqn:Hw; [|done].
  destruct (is_waiter namespace args policy e') eqn:Hi; [|done]. intros [= ->].
  pose proof Hw as [Hin Ho]%head_filter_Some. split_and!; [done..|]. by apply is_waiter_spec.
Qed.

Lemma enqueued_seq_fresh :
  0 < enqueued_seq namespace args policy q ≤ seq_value (vacated namespace args policy q) ∧
  q_map (vacated namespace args policy q)
    !! queue_entry_key (enqueued_seq namespace args policy q) = None.
Proof.
  pose proof vacated_ok as Hv. destruct (qo_seq q Hq) as (Hrange & _ & Hseqs).
  rewrite vacated_map. unfold enqueued_seq, vacated.
  destruct (unchanged namespace args policy q) as [e|] eqn:Hu.
  - apply unchanged_Some in Hu as (Hw & (x & Hs & _)%elem_waiters & _); [|done].
    rewrite dequeued_seq. split; [by eapply Hseqs|]. unfold dequeued. rewrite Hw.
    cbn [with_count with_map q_map]. rewrite delete_owner_ne by done.
    rewrite drop_entry_entry by apply Hs. by rewrite decide_True.
  - rewrite seq_value_with_seq. split; [lia|].
    assert (is_u64 (seq_value q + 1)) as Hn by (unfold is_u64, u64_max, i64_max in *; lia).
    pose proof (dequeued_ok q (owner_id args) Hq) as Hd.
    destruct (q_map (dequeued (owner_id args) q) !! _) as [b|] eqn:Hb; [|done].
    destruct (entry_rec_of _ _ _ Hd Hn Hb) as (e & x & _ & He & Hs).
    destruct (qo_seq _ Hd) as (_ & _ & Hle). specialize (Hle _ _ Hs). rewrite dequeued_seq in Hle. lia.
Qed.

Lemma vacated_no_owner e x :
  stored (q_map (vacated namespace args policy q)) e x →
  expired x (q_now (vacated namespace args policy q)) = false → qe_owner e ≠ owner_id args.
Proof. rewrite vacated_now, vacated_map. intros Hs Hx. by apply stored_dequeued in Hs as [_ ?]. Qed.

Lemma enqueued_ok : room args q → queue_ok (enqueued namespace args policy q).
Proof.
  intros Hr. destruct enqueued_seq_fresh as [Hs Hf]. unfold enqueued, added. apply add_ok.
  - apply vacated_ok.
  - done.
  - done.
  - apply vacated_no_owner.
  - rewrite vacated_map. apply Hr.
Qed.

Lemma stored_enqueued e x :
  stored (q_map (enqueued namespace args policy q)) e x ↔
  (e = new_entry (enqueued_seq namespace args policy q) namespace args policy ∧
   x = expiry_at (q_now q) (ttl_of args)) ∨
  (stored (q_map (dequeued (owner_id args) q)) e x ∧ qe_seq e ≠ enqueued_seq namespace args policy q).
Proof using Hq Hmax.
  destruct enqueued_seq_fresh as [Hs _]. pose proof (qo_seq _ vacated_ok) as [Hv _].
  unfold enqueued, added. cbn [with_count with_map q_map]. rewrite stored_add_entry, vacated_map; [done|].
  unfold is_u64, u64_max, i64_max in *. simpl. lia.
Qed.

Lemma enqueued_now : q_now (enqueued namespace args policy q) = q_now q.
Proof. apply vacated_now. Qed.

Lemma elem_enqueued e :
  room args q → expired (expiry_at (q_now q) (ttl_of args)) (q_now q) = false →
  e ∈ waiters (enqueued namespace args policy q) ↔
  e = new_entry (enqueued_seq namespace args policy q) namespace args policy ∨
  (e ∈ waiters q ∧ qe_owner e ≠ owner_id args).
Proof using Hq Hmax.
  intros Hr Hx. rewrite !elem_waiters by (done || by apply enqueued_ok).
  rewrite enqueued_now. setoid_rewrite stored_enqueued. split.
  - intros (x & [[-> ->]|[Hs _]] & Hl); [by left|right].
    apply stored_dequeued in Hs as [Hs Hne]; eauto.
  - intros [->|[(x & Hs & Hl) Hne]]; [eauto 10|]. exists x. split; [|done]. right.
    assert (stored (q_map (dequeued (owner_id args) q)) e x) as Hd by by apply stored_dequeued.
    split; [done|]. intros Heq. destruct enqueued_seq_fresh as [_ Hf].
    rewrite vacated_map, <- Heq, (proj2 Hd) in Hf. done.
Qed.

(** Every waiter left has a smaller number than a new one. *)
Lemma new_seq_last e :
  unchanged namespace args policy q = None → e ∈ waiters q →
  qe_seq e < enqueued_seq namespace args policy q.
Proof using Hq.
  intros Hu (x & Hs & _)%elem_waiters; [|done]. unfold enqueued_seq. rewrite Hu.
  destruct (qo_seq q Hq) as (_ & _ & Hle). specialize (Hle _ _ Hs). lia.
Qed.

Lemma enqueued_waiters :
  room args q → expired (expiry_at (q_now q) (ttl_of args)) (q_now q) = false →
  waiters (enqueued namespace args policy q) =
  match unchanged namespace args policy q with
  | Some _ => waiters q
  | None => filter (λ e, qe_owner e ≠ owner_id args) (waiters q) ++
            [new_entry (seq_value q + 1) namespace args policy]
  end.
Proof using Hq Hmax.
  intros Hr Hx. pose proof (waiters_sorted _ Hq) as Hsort.
  destruct (unchanged namespace args policy q) as [e|] eqn:Hu;
    (apply seq_sorted_ext; [by apply waiters_sorted, enqueued_ok| |]).
  - done.
  - intros e'. rewrite elem_enqueued by done. unfold enqueued_seq. rewrite Hu.
    apply unchanged_Some in Hu as (Hw & Hin & He). rewrite <- He. split.
    + intros [->|[? _]]; done.
    + intros Hin'. destruct (decide (qe_owner e' = owner_id args)) as [Ho|Ho]; [left|by right].
      pose proof (waiter_of_unique q e' Hq Hin') as H. rewrite Ho, Hw in H. congruence.
  - apply StronglySorted_app_2; [| |by repeat constructor].
    + intros e e' [_ Hin]%list_elem_of_filter ->%list_elem_of_singleton.
      pose proof (new_seq_last e Hu Hin) as H. unfold enqueued_seq in H. by rewrite Hu in H.
    + by apply sorted_filter_seq.
  - intros e. rewrite elem_enqueued by done. unfold enqueued_seq. rewrite Hu.
    rewrite elem_of_app, list_elem_of_filter, list_elem_of_singleton. tauto.
Qed.
End enqueued.

Definition old_units (args : AcquireArgs) (q : qst) : Z :=
  match waiter_of (owner_id args) (waiters q) with
  | Some e => queue_units (qe_args e)
  | None => 0
  end.

(** What is left of the family after [enqueue_seq]. *)
Definition cleared (namespace : str) (args : AcquireArgs) (policy : LockPolicy) (q : qst) : qst :=
  match waiter_of (owner_id args) (waiters q) with
  | Some e =>
      if is_waiter namespace args policy e
      then with_map q (del_entries (path_keys e) (q_map q))
      else with_seq (with_map q (delete_owner true (owner_id args) (drop_entry e (q_map q))))
             (seq_value q + 1)
  | None => with_seq q (seq_value q + 1)
  end.

Lemma enqueue_seq_run namespace args policy q :
  queue_ok q → seq_value q < i64_max →
  qruns (enqueue_seq namespace args policy) q
    (enqueued_seq namespace args policy q, old_units args q) (cleared namespace args policy q).
Proof.
  intros Hq Hmax. unfold enqueue_seq, enqueued_seq, unchanged, old_units, cleared.
  pose proof (owner_seq_run q (owner_id args) Hq) as Hos.
  pose proof (queue_ok_numbers q Hq Hmax) as Hnum.
  destruct (waiter_of_cases q (owner_id args) Hq) as [(e & x & Hw & Hs & Ho & Hx & _)|(Hw & _)];
    rewrite Hw in Hos |- *; (eapply qruns_bind; [apply Hos|]); cbn [fmap option_fmap option_map].
  - eapply qruns_bind; [apply read_entry_run; [done|apply Hs]|].
    rewrite waiter_at_unique; [|done|apply elem_waiters; eauto]. cbv beta zeta iota.
    fold (is_waiter namespace args policy e). destruct (is_waiter namespace args policy e).
    + eapply qruns_bind; [apply delete_path_indexes_run|apply qruns_ret].
    + eapply qruns_bind; [apply delete_path_indexes_run|].
      eapply qruns_bind; [apply qruns_del|]. eapply qruns_bind; [apply qruns_del|].
      eapply qruns_bind; [|apply qruns_ret]. by apply next_seq_run.
  - eapply qruns_bind; [by apply next_seq_run|apply qruns_ret].
Qed.

Lemma reinsert (a b x y : bytes) (m : gmap bytes bytes) :
  a ≠ b → <[a := x]> (<[b := y]> (delete a (delete b m))) = <[a := x]> (<[b := y]> m).
Proof.
  intros Hne. apply map_eq. intros k. rewrite !lookup_insert, !lookup_delete.
  repeat case_decide; congruence.
Qed.

Lemma cleared_counts namespace args policy q :
  queue_ok q →
  counts (cleared namespace args policy q) (units_total (q_map q)) ∧
  0 ≤ old_units args q ≤ units_total (q_map q).
Proof.
  intros Hq. pose proof (queue_ok_counts q Hq) as Hc. unfold cleared, old_units.
  pose proof (units_total_nonneg (q_map q)).
  destruct (waiter_of_cases q (owner_id args) Hq) as [(e & x & -> & Hs & _)|(-> & _)]; [|done].
  pose proof (units_le q e x Hs). pose proof (queue_units_pos (qe_args e)).
  pose proof (stored_count q e x Hq Hs). split; [|lia].
  destruct (is_waiter namespace args policy e); [by apply counts_with_map|].
  by apply (counts_with_map (with_seq q (seq_value q + 1))).
Qed.

Lemma enqueued_alt namespace args policy q :
  queue_ok q →
  let e := new_entry (enqueued_seq namespace args policy q) namespace args policy in
  enqueued namespace args policy q =
  with_count (with_map (cleared namespace args policy q)
                (add_entry e (expiry_at (q_now q) (ttl_of args))
                   (q_map (cleared namespace args policy q))))
    (units_total (q_map q) - old_units args q + queue_units args).
Proof.
  intros Hq e. pose proof (units_dequeued q (owner_id args) Hq) as Hu.
  unfold enqueued, added, vacated, cleared, old_units, e in *. clear e.
  unfold enqueued_seq, unchanged in *. unfold dequeued in *. unfold with_map, with_count, with_seq.
  destruct (waiter_of_cases q (owner_id args) Hq) as [(e & x & Hw & Hs & Ho & _)|(Hw & _)];
    rewrite Hw in *; cbn [q_map q_now q_seq q_count with_map with_count] in *.
  - destruct (is_waiter namespace args policy e) eqn:Hi;
      cbn [q_map q_now q_seq q_count qe_args new_entry]; rewrite Hu; [|done].
    apply is_waiter_spec in Hi; [|done]. rewrite <- Hi. f_equal.
    unfold add_entry. f_equal. unfold delete_owner, drop_entry. rewrite <- Ho. by apply reinsert.
  - rewrite Hu. f_equal. unfold add_entry. f_equal. simpl.
    apply map_eq. intros k. rewrite !lookup_insert, !lookup_delete.
    repeat case_decide; congruence.
Qed.

Lemma cleared_now namespace args policy q : q_now (cleared namespace args policy q) = q_now q.
Proof. unfold cleared. by repeat case_match. Qed.

Lemma room_alt args q :
  queue_ok q →
  room args q ↔ units_total (q_map q) - old_units args q + queue_units args ≤ QUEUE_SCAN_LIMIT.
Proof. intros Hq. unfold room, old_units. by rewrite units_dequeued. Qed.

Lemma enqueue_run namespace args policy q :
  queue_ok q → seq_value q < i64_max → room args q →
  qruns (enqueue namespace args policy) q (enqueued_seq namespace args policy q)
    (enqueued namespace args policy q).
Proof.
  intros Hq Hmax Hr%room_alt; [|done]. rewrite enqueued_alt by done. unfold enqueue.
  destruct (cleared_counts namespace args policy q Hq) as [Hc Hold].
  pose proof (cleared_now namespace args policy q) as Hnow.
  eapply qruns_bind; [by apply enqueue_seq_run|]. cbv beta iota.
  eapply qruns_bind; [apply (reserve_units_run _ (units_total (q_map q))); [done|done| |done]|].
  { pose proof (queue_units_pos args). lia. }
  cbv beta zeta. eapply qruns_eq.
  { eapply qruns_bind; [apply qruns_put_ttl|]. eapply qruns_bind; [apply qruns_put_ttl|].
    eapply qruns_bind; [apply write_path_indexes_run|]. apply qruns_ret. }
  cbn [with_map with_count q_now q_map]. unfold with_map, with_count. cbn. by rewrite Hnow.
Qed.

Lemma enqueue_fails namespace args policy q :
  queue_ok q → seq_value q < i64_max → ¬ room args q →
  qfails (enqueue namespace args policy) q (SetScanLimitExceeded "enqueue" QUEUE_SCAN_LIMIT).
Proof.
  intros Hq Hmax Hr. rewrite room_alt in Hr by done. unfold enqueue.
  destruct (cleared_counts namespace args policy q Hq) as [Hc Hold].
  eapply qfails_bind; [by apply enqueue_seq_run|]. cbv beta iota.
  intros s Hs. unfold mbind, txm_bind.
  rewrite (reserve_units_fails _ (units_total (q_map q)) (old_units args q) (queue_units args) Hc Hold);
    [done| |lia|done].
  pose proof (queue_units_pos args). lia.
Qed.

(** An enqueued entry is live at once. *)
Lemma enqueue_live args now :
  0 ≤ now < u64_max → expired (expiry_at now (ttl_of args)) now = false.
Proof.
  intros Hn. apply expiry_at_live; [done|]. unfold ttl_of, QUEUE_ENTRY_TTL_MS.
  destruct (Z.ltb_spec 0 (queue_ttl_ms args)); lia.
Qed.
End queue_ops.
