(* ===== verification/QueueScans.v ===== *)
(** * What the wait queue's readers see ([src/queue.rs])

    The unit counter bounds the number of records, so no scan of the queue is cut
    short: [scan] is [scan_all], the candidate scans never fail, and the admission
    check that reads candidates through the path index answers what a walk over
    all waiters would. *)

From Stdlib Require Import ZArith NArith Lia Strings.Byte.
From stdpp Require Import sorting countable base numbers gmap strings list.
From S2P Require Import Prelude RustStd StoreKeys Store StoreScan StoreSim KvView EngineTypes.
From S2P Require Import Engine.
From S2P Require Import EngineInv EngineSafe Footprint Paths Placement Queue QueueSweep.
From S2P Require Import QueueState QueueOps.
Local Open Scope Z_scope.

Section queue_scans.
Context `{!Bincode StoredRecord, !Bincode QueueEntry}.

(** ** Counting records *)

Definition sum_units (l : list (bytes * bytes)) : Z :=
  foldr (λ kb acc, stored_queue_units kb.2 + acc) 0 l.

Lemma sum_units_le l m :
  NoDup l.*1 → (∀ k b, (k, b) ∈ l → m !! k = Some b ∧ is_entry_key k = true) →
  sum_units l ≤ units_total m.
Proof.
  revert m. induction l as [|[k b] l IH]; intros m Hnd Hl; [apply units_total_nonneg|].
  apply NoDup_cons in Hnd as [Hk Hnd]. destruct (Hl k b ltac:(by left)) as [Hkb He].
  cbn [sum_units foldr snd]. rewrite (units_total_delete m k b He Hkb).
  apply Z.add_le_mono_l, IH; [done|]. intros k' b' Hin.
  destruct (Hl k' b' ltac:(by right)) as [? ?]. split; [|done].
  rewrite lookup_delete_ne; [done|]. intros <-. apply Hk, list_elem_of_fmap. by exists (k, b').
Qed.

Lemma length_sum_units l : len l ≤ sum_units l.
Proof.
  unfold len. induction l as [|[k b] l IH]; [done|].
  cbn [sum_units foldr length snd]. pose proof (stored_units_pos b). fold (sum_units l). lia.
Qed.

Definition entry_range (m : gmap bytes bytes) : list (bytes * bytes) :=
  btree_range (Some queue_entry_lower) (Some queue_entry_upper) m.

Lemma entry_range_elem q k b :
  queue_ok q → (k, b) ∈ entry_range (q_map q) →
  ∃ e exp, k = queue_entry_key (qe_seq e) ∧ b = entry_rec e exp ∧ stored (q_map q) e exp.
Proof.
  intros Hq [Hk Hr]%btree_range_elem.
  apply (prefix_range [QUEUE_ENTRY_TAG]) in Hr as [r Hr].
  destruct (qo_shape q Hq k b Hk) as [(e & x & -> & -> & Hu)|[(o & n & x & -> & _)|
    (p & n & x & -> & _)]]; [by exists e, x|by inversion Hr..].
Qed.

Lemma sorted_keys_nodup {A} (l : list (bytes * A)) : StronglySorted key_lt l → NoDup l.*1.
Proof. apply sorted_nodup_keys. Qed.

Lemma entry_range_units q : queue_ok q → sum_units (entry_range (q_map q)) ≤ units_total (q_map q).
Proof.
  intros Hq. apply sum_units_le; [apply sorted_keys_nodup, btree_range_sorted|].
  intros k b Hin. destruct (entry_range_elem q k b Hq Hin) as (e & x & -> & -> & Hs).
  split; [apply Hs|]. apply is_entry_key_entry, Hs.
Qed.

Lemma entry_range_length q : queue_ok q → len (entry_range (q_map q)) ≤ QUEUE_SCAN_LIMIT.
Proof.
  intros Hq. pose proof (entry_range_units q Hq). pose proof (length_sum_units (entry_range (q_map q))).
  pose proof (qo_limit q Hq). lia.
Qed.

(** The index records of the stored entries. *)
Definition index_keys (kb : bytes * bytes) : list bytes :=
  match decode_record kb.2 with
  | Ok (BytesRec v _) => match decode_queue_entry v with Some e => path_keys e | None => [] end
  | _ => []
  end.

Lemma length_index_keys kb : len (index_keys kb) ≤ stored_queue_units kb.2.
Proof.
  unfold index_keys, stored_queue_units. repeat case_match; unfold len in *; simpl; try lia.
  unfold path_keys, wait_paths, new_scoped_paths, queue_units, len.
  rewrite !length_fmap. lia.
Qed.

Lemma length_all_index_keys l : len (mjoin (index_keys <$> l)) ≤ sum_units l.
Proof.
  induction l as [|kb l IH]; [done|]. pose proof (length_index_keys kb).
  rewrite fmap_cons. change (mjoin (index_keys kb :: (index_keys <$> l))) with (index_keys kb ++ mjoin (index_keys <$> l)).
  unfold len in *. rewrite length_app.
  change (sum_units (kb :: l)) with (stored_queue_units kb.2 + sum_units l). lia.
Qed.

Definition is_path_key (k : bytes) : Prop := ∃ r, k = QUEUE_PATH_TAG :: r.

Lemma path_records_length q (l : list (bytes * bytes)) :
  queue_ok q → NoDup l.*1 → (∀ k b, (k, b) ∈ l → q_map q !! k = Some b ∧ is_path_key k) →
  len l ≤ QUEUE_SCAN_LIMIT.
Proof.
  intros Hq Hnd Hl.
  assert (l.*1 ⊆+ mjoin (index_keys <$> entry_range (q_map q))) as Hsub.
  { apply NoDup_submseteq; [done|]. intros k ([k' b] & -> & Hin)%list_elem_of_fmap. simpl.
    destruct (Hl k' b Hin) as [Hk [r Hr]].
    destruct (qo_shape q Hq k' b Hk) as [(e & x & -> & _)|[(o & n & x & -> & _)|
      (p & n & x & -> & -> & Hn)]]; [by inversion Hr..|].
    destruct (qo_path q Hq p n x Hn Hk) as (e & Hs & <- & Hp).
    apply list_elem_of_join. exists (path_keys e). split; [apply elem_path_keys; [done|apply Hs|done]|].
    apply list_elem_of_fmap. exists (queue_entry_key (qe_seq e), entry_rec e x). split.
    - unfold index_keys, entry_rec. simpl. rewrite decode_encode. unfold decode_queue_entry.
      by rewrite bincode_decode_encode.
    - apply btree_range_elem. split; [apply Hs|]. eapply entry_key_range.
      apply decode_queue_entry_key, Hs. }
  apply submseteq_length in Hsub. rewrite length_fmap in Hsub.
  pose proof (length_all_index_keys (entry_range (q_map q))). pose proof (entry_range_units q Hq).
  pose proof (qo_limit q Hq). unfold len in *. lia.
Qed.

(** ** The entry scans *)

Lemma scan_all_visit_all now l out :
  visit_all (scan_all_visit now) out l =
  Ok (out ++ omap (λ kb : bytes * bytes, live_entry now kb.1 kb.2) l).
Proof.
  revert out. induction l as [|[k b] l IH]; intros out; simpl; [by rewrite app_nil_r|].
  rewrite IH. destruct (live_entry now k b); [|done]. by rewrite <- app_assoc.
Qed.

Lemma scan_all_run q : qruns scan_all q (waiters q) q.
Proof.
  unfold scan_all. eapply qruns_bind; [apply qruns_asks_now|].
  apply qruns_scan. apply scan_all_visit_all.
Qed.

Lemma scan_visit_all now l out raw :
  (∀ k b, (k, b) ∈ l → is_entry_key k = true) →
  len out ≤ raw → raw + len l ≤ QUEUE_SCAN_LIMIT →
  ∃ raw', visit_all (scan_visit now) (out, raw) l =
    Ok (out ++ omap (λ kb : bytes * bytes, live_entry now kb.1 kb.2) l, raw').
Proof.
  revert out raw. induction l as [|[k b] l IH]; intros out raw Hl Hout Hraw.
  { exists raw. simpl. by rewrite app_nil_r. }
  pose proof (Hl k b ltac:(by left)) as Hk. unfold is_entry_key in Hk.
  cbn [visit_all]. unfold scan_visit at 1. cbv zeta beta iota.
  destruct (decode_queue_entry_seq k) as [n|]; [|done]. clear Hk.
  set (out' := match live_entry now k b with Some e => out ++ [e] | None => out end).
  assert (out ++ omap (λ kb : bytes * bytes, live_entry now kb.1 kb.2) ((k, b) :: l) =
          out' ++ omap (λ kb : bytes * bytes, live_entry now kb.1 kb.2) l) as ->.
  { unfold out'. simpl. destruct (live_entry now k b); [by rewrite <- app_assoc|done]. }
  assert (len out' ≤ raw + 1) as Hout'.
  { unfold out', len in *. destruct (live_entry now k b); rewrite ?length_app; simpl; lia. }
  clearbody out'. unfold len in Hraw. cbn [length] in Hraw.
  destruct l as [|kb l].
  { exists (raw + 1). destruct (_ && _); simpl; by rewrite app_nil_r. }
  cbn [length] in Hraw. rewrite (proj2 (Z.ltb_lt (len out') _)) by lia.
  rewrite (proj2 (Z.ltb_lt (raw + 1) _)) by lia.
  apply IH; [|done|unfold len; cbn [length]; lia]. intros k' b' Hin. eapply Hl. by right.
Qed.

Lemma scan_run q : queue_ok q → qruns scan q (waiters q) q.
Proof.
  intros Hq. unfold scan. eapply qruns_bind; [apply qruns_asks_now|].
  destruct (scan_visit_all (q_now q) (entry_range (q_map q)) [] 0) as [raw Hv].
  - intros k b Hin. destruct (entry_range_elem q k b Hq Hin) as (e & x & -> & _ & Hs).
    apply is_entry_key_entry, Hs.
  - done.
  - by apply entry_range_length.
  - eapply qruns_bind; [by apply qruns_scan|]. apply qruns_ret.
Qed.

(** ** The index scans *)

Definition index_seq (now : Z) (kb : bytes * bytes) : option Z :=
  match decode_queue_path_seq kb.1 with
  | Some n => match decode_record kb.2 with
              | Ok (Str _ exp) => if expired exp now then None else Some n
              | _ => None
              end
  | None => None
  end.

(** The sequence numbers of the live index records in a range. *)
Definition indexed (q : qst) (lower : bytes) (upper : option bytes) : gset Z :=
  list_to_set (omap (index_seq (q_now q)) (btree_range (Some lower) upper (q_map q))).

Lemma seqs_visit_all now l out raw ex :
  raw + len l ≤ QUEUE_SCAN_LIMIT →
  ∃ raw', visit_all (seqs_visit now) (out, raw, ex) l =
    Ok (list_to_set (omap (index_seq now) l) ∪ out, raw', ex).
Proof.
  revert out raw. induction l as [|[k b] l IH]; intros out raw Hraw.
  { exists raw. simpl. by rewrite (left_id_L ∅ (∪)). }
  unfold len in Hraw. cbn [length] in Hraw. cbn [visit_all]. unfold seqs_visit at 1.
  rewrite (proj2 (Z.leb_gt _ _)) by lia. cbv zeta beta iota.
  match goal with
  | |- ∃ _, visit_all _ (?o, _, _) _ = _ => destruct (IH o (raw + 1)) as [raw' Hv]; [unfold len; lia|]
  end.
  exists raw'. etrans; [exact Hv|].
  do 3 f_equal. clear. cbn [omap list_omap]. unfold index_seq at 2. cbn [fst snd].
  repeat case_match; simpl; set_solver.
Qed.

Lemma collect_run op prefix out q :
  queue_ok q → is_path_key prefix →
  qruns (collect_path_seqs op prefix (prefix_upper_bound prefix) out) q
    (indexed q prefix (prefix_upper_bound prefix) ∪ out) q.
Proof.
  intros Hq [r Hr]. unfold collect_path_seqs. eapply qruns_bind; [apply qruns_asks_now|].
  destruct (seqs_visit_all (q_now q)
    (btree_range (Some prefix) (prefix_upper_bound prefix) (q_map q)) out 0 false) as [raw Hv].
  - rewrite Z.add_0_l. apply (path_records_length q); [done|apply sorted_keys_nodup, btree_range_sorted|].
    intros k b [Hk [r' ->]%prefix_range]%btree_range_elem. split; [done|]. subst prefix.
    by exists (r ++ r').
  - eapply qruns_bind; [by apply qruns_scan|]. apply qruns_ret.
Qed.

Lemma queue_path_upper_bound p : Some (queue_path_upper p) = prefix_upper_bound (queue_path_prefix p).
Proof.
  unfold queue_path_upper, bump_last, queue_path_prefix.
  change (QUEUE_PATH_TAG :: p ++ [NUL]) with ((QUEUE_PATH_TAG :: p) ++ [NUL]).
  rewrite upper_bound_rev_snoc, reverse_app. simpl. by rewrite reverse_cons, reverse_involutive.
Qed.

Lemma prefix_successor_from_bound p r :
  prefix_successor_from (p ++ r) (length p) = prefix_upper_bound p.
Proof.
  revert r. induction p as [|x p IH] using rev_ind; intros r; [done|].
  rewrite upper_bound_rev_snoc, length_app, Nat.add_1_r, <- app_assoc.
  cbn [prefix_successor_from app]. rewrite list_lookup_middle by done. rewrite (IH (x :: r)).
  destruct (Z.eqb_spec (byte_val x) 255) as [Hx|Hx].
  - by rewrite bool_decide_eq_true_2 by (apply byte_val_inj; by rewrite Hx).
  - rewrite bool_decide_eq_false_2 by (intros ->; by destruct Hx). by rewrite take_app_length.
Qed.
Lemma prefix_successor_bound p : prefix_successor p = prefix_upper_bound p.
Proof. unfold prefix_successor. by rewrite <- (prefix_successor_from_bound p []), app_nil_r. Qed.

Lemma collect_exact_run out p q :
  queue_ok q →
  qruns (collect_exact_path_seqs out p) q
    (indexed q (queue_path_prefix p) (Some (queue_path_upper p)) ∪ out) q.
Proof.
  intros Hq. unfold collect_exact_path_seqs. rewrite queue_path_upper_bound.
  apply collect_run; [done|]. by exists (p ++ [NUL]).
Qed.
Lemma collect_prefixed_run out p q :
  queue_ok q →
  qruns (collect_prefixed_path_seqs out p) q
    (indexed q (QUEUE_PATH_TAG :: p) (prefix_upper_bound (QUEUE_PATH_TAG :: p)) ∪ out) q.
Proof.
  intros Hq. unfold collect_prefixed_path_seqs, queue_index_prefix_range.
  rewrite prefix_successor_bound. apply collect_run; [done|]. by exists p.
Qed.

(** ** Candidates *)

Lemma elem_indexed q lower upper n :
  queue_ok q →
  n ∈ indexed q lower upper ↔
  ∃ e p, e ∈ waiters q ∧ qe_seq e = n ∧ p ∈ wait_paths e ∧
    in_range (Some lower) upper (queue_path_key p n) = true.
Proof.
  intros Hq. unfold indexed. rewrite elem_of_list_to_set, list_elem_of_omap. split.
  - intros ([k b] & [Hk Hr]%btree_range_elem & H). unfold index_seq in H. cbn [fst snd] in H.
    destruct (qo_shape q Hq k b Hk) as [(e & x & -> & -> & Hu)|[(o & m & x & -> & _)|
      (p & m & x & -> & -> & Hm)]].
    + unfold entry_rec in H. rewrite decode_encode in H. by destruct (decode_queue_path_seq _).
    + unfold queue_owner_key, decode_queue_path_seq in H. by rewrite orb_true_r in H.
    + rewrite decode_queue_path_key in H by done. unfold path_rec in H. rewrite decode_encode in H.
      destruct (expired x (q_now q)) eqn:Hx; [done|]. injection H as ->.
      destruct (qo_path q Hq p n x Hm Hk) as (e & Hs & <- & Hp).
      exists e, p. split_and!; [apply elem_waiters; eauto|done..].
  - intros (e & p & (x & Hs & Hx)%elem_waiters & <- & Hp & Hr); [|done].
    destruct (qo_entry q Hq e x Hs Hx) as [_ Hps].
    exists (queue_path_key p (qe_seq e), path_rec x). split; [apply btree_range_elem; auto|].
    unfold index_seq. cbn [fst snd]. rewrite decode_queue_path_key by apply Hs.
    unfold path_rec. by rewrite decode_encode, Hx.
Qed.

(** [a] may conflict with a request for [p]. *)
Definition related (descendants : bool) (p a : str) : Prop :=
  a = p ∨ a ∈ get_ancestors p ∨ (descendants = true ∧ descendant_index_prefix p `prefix_of` a).

(** [out'] adds to [out] numbers of waiters, all those on a related path among them. *)
Definition adds_candidates (q : qst) (rel : str → Prop) (out out' : gset Z) : Prop :=
  out ⊆ out' ∧ (∀ n, n ∈ out' → n ∈ out ∨ ∃ e, e ∈ waiters q ∧ qe_seq e = n) ∧
  ∀ e a, e ∈ waiters q → a ∈ wait_paths e → rel a → qe_seq e ∈ out'.

Lemma adds_indexed q lower upper (rel : str → Prop) out :
  queue_ok q →
  (∀ a n, rel a → in_range (Some lower) upper (queue_path_key a n) = true) →
  adds_candidates q rel out (indexed q lower upper ∪ out).
Proof.
  intros Hq Hrel. split_and!.
  - set_solver.
  - intros n [Hn|Hn]%elem_of_union; [right|by left].
    apply elem_indexed in Hn as (e & p & ? & ? & _); eauto.
  - intros e a He Ha Hra. apply elem_of_union_l, elem_indexed; [done|]. exists e, a. auto.
Qed.

Lemma adds_trans q rel1 rel2 out1 out2 out3 :
  adds_candidates q rel1 out1 out2 → adds_candidates q rel2 out2 out3 →
  adds_candidates q (λ a, rel1 a ∨ rel2 a) out1 out3.
Proof.
  intros (S1 & B1 & C1) (S2 & B2 & C2). split_and!.
  - set_solver.
  - intros n [Hn|?]%B2; [by apply B1|by right].
  - intros e a He Ha [Hr|Hr]; eauto.
Qed.

Lemma adds_weaken q (rel rel' : str → Prop) out out' :
  (∀ a, rel' a → rel a) → adds_candidates q rel out out' → adds_candidates q rel' out out'.
Proof. intros H (? & ? & ?). split_and!; [done..|]. eauto. Qed.

Lemma collect_exact_adds q out p :
  queue_ok q → ∃ out', qruns (collect_exact_path_seqs out p) q out' q ∧
    adds_candidates q (λ a, a = p) out out'.
Proof.
  intros Hq. eexists. split; [by apply collect_exact_run|]. apply adds_indexed; [done|].
  intros a n ->. rewrite queue_path_upper_bound. apply prefix_range. by exists (be_bytes 8 n).
Qed.

Lemma collect_ancestors_adds q out ps :
  queue_ok q → ∃ out', qruns (fold_txm collect_exact_path_seqs out ps) q out' q ∧
    adds_candidates q (λ a, a ∈ ps) out out'.
Proof.
  intros Hq. revert out. induction ps as [|p ps IH]; intros out; simpl.
  - exists out. split; [apply qruns_ret|]. split_and!; [done|by left|].
    by intros e a _ _ ?%not_elem_of_nil.
  - destruct (collect_exact_adds q out p Hq) as (out1 & Hr1 & H1).
    destruct (IH out1) as (out2 & Hr2 & H2). exists out2. split; [by eapply qruns_bind|].
    eapply adds_weaken; [|by eapply adds_trans]. simpl. intros a. by rewrite elem_of_cons.
Qed.

Lemma collect_candidates_adds q d out p :
  queue_ok q → ∃ out', qruns (collect_candidates d out p) q out' q ∧
    adds_candidates q (related d p) out out'.
Proof.
  intros Hq. unfold collect_candidates.
  destruct (collect_exact_adds q out p Hq) as (out1 & Hr1 & H1).
  destruct (collect_ancestors_adds q out1 (get_ancestors p) Hq) as (out2 & Hr2 & H2).
  pose proof (adds_trans _ _ _ _ _ _ H1 H2) as H12. destruct d.
  - eexists. split.
    { eapply qruns_bind; [done|]. eapply qruns_bind; [done|]. by apply collect_prefixed_run. }
    eapply adds_weaken; [|eapply adds_trans; [done|]].
    2: { apply (adds_indexed _ _ _ (λ a, descendant_index_prefix p `prefix_of` a)); [done|].
         intros a n [r ->]. apply prefix_range. unfold queue_path_key, queue_path_prefix.
         exists (r ++ [NUL] ++ be_bytes 8 n). simpl. by rewrite <- !app_assoc. }
    simpl. unfold related. tauto.
  - eexists. split.
    { eapply qruns_bind; [done|]. eapply qruns_bind; [done|]. apply qruns_ret. }
    eapply adds_weaken; [|done]. simpl. unfold related. naive_solver.
Qed.

(** ** Ascending candidate lists *)

#[local] Instance zle_total : Total Z.le.
Proof. intros x y. lia. Qed.

Lemma seq_sorted_le l : StronglySorted seq_lt l → StronglySorted Z.le (qe_seq <$> l).
Proof.
  induction 1 as [|x l Hl IH Hx]; [constructor|]. rewrite fmap_cons. constructor; [done|].
  apply Forall_fmap. eapply Forall_impl; [done|]. unfold seq_lt. simpl. lia.
Qed.
Lemma seq_sorted_nodup l : StronglySorted seq_lt l → NoDup (qe_seq <$> l).
Proof.
  induction 1 as [|x l Hl IH Hx]; [constructor|]. rewrite fmap_cons. constructor; [|done].
  intros (y & Hy & Hin)%list_elem_of_fmap. rewrite Forall_forall in Hx. specialize (Hx y Hin).
  unfold seq_lt in Hx. lia.
Qed.

Lemma ascending_waiters q (C : gset Z) :
  queue_ok q → (∀ n, n ∈ C → ∃ e, e ∈ waiters q ∧ qe_seq e = n) →
  ascending C = qe_seq <$> filter (λ e, qe_seq e ∈ C) (waiters q).
Proof.
  intros Hq HC. unfold ascending.
  pose proof (sorted_filter_seq (λ e, qe_seq e ∈ C) _ (waiters_sorted q Hq)) as Hs.
  apply (StronglySorted_unique Z.le).
  - apply (StronglySorted_merge_sort Z.le).
  - by apply seq_sorted_le.
  - rewrite merge_sort_Permutation. apply NoDup_Permutation.
    + apply NoDup_elements.
    + by apply seq_sorted_nodup.
    + intros n. rewrite elem_of_elements, list_elem_of_fmap. split.
      * intros Hn. destruct (HC n Hn) as (e & He & <-). exists e. split; [done|].
        by apply list_elem_of_filter.
      * intros (e & -> & [He _]%list_elem_of_filter). done.
Qed.

(** ** Admission *)

(** A computation that only reads [s] and returns [a]. *)
Definition returns {A} (m : txm Kv A) (s : Kv) (a : A) : Prop := m s = Ok (a, s).

Lemma returns_ret {A} (a : A) s : returns (mret a) s a.
Proof. done. Qed.
Lemma returns_bind {A B} (m : txm Kv A) (f : A → txm Kv B) s a b :
  returns m s a → returns (f a) s b → returns (m ≫= f) s b.
Proof. intros Hm Hf. unfold returns, mbind, txm_bind. by rewrite Hm. Qed.
Lemma qruns_returns {A} (m : txm Kv A) s a q' :
  reads m → qruns m (qview s) a q' → returns m s a.
Proof.
  intros Hr H. destruct (H s eq_refl) as (s' & Hm & _). specialize (Hr s). unfold returns.
  rewrite Hm in Hr |- *. by subst.
Qed.
Lemma returns_find_first {A B} (xs : list A) (f : A → txm Kv (option B)) (g : A → option B) s :
  (∀ x, x ∈ xs → returns (f x) s (g x)) → returns (find_first xs f) s (head (omap g xs)).
Proof.
  induction xs as [|x xs IH]; intros Hf; [done|]. simpl.
  eapply returns_bind; [apply Hf; by left|]. destruct (g x); [done|].
  apply IH. intros y Hy. apply Hf. by right.
Qed.

Lemma reads_owner_seq o : reads (owner_seq (T := Kv) o).
Proof. unfold owner_seq. apply reads_bind; [apply reads_get_str|solve_reads]. Qed.
Lemma reads_read_entry n : reads (read_entry (T := Kv) n).
Proof. unfold read_entry, get_bytes, w_get_bytes. simpl. solve_reads. Qed.
Lemma reads_collect_path_seqs op lo hi out : reads (collect_path_seqs (T := Kv) op lo hi out).
Proof. unfold collect_path_seqs. simpl. solve_reads. Qed.
Lemma reads_collect_candidates d out p : reads (collect_candidates (T := Kv) d out p).
Proof.
  unfold collect_candidates, collect_exact_path_seqs, collect_prefixed_path_seqs.
  apply reads_bind; [apply reads_collect_path_seqs|]. intros o1.
  apply reads_bind; [apply reads_fold; intros; apply reads_collect_path_seqs|]. intros o2.
  destruct d; [|apply reads_ret]. destruct (queue_index_prefix_range _).
  apply reads_collect_path_seqs.
Qed.

(** Whether the owner already has what it asks for at a path. *)
Definition covered (s : Kv) (owner : str) (alg : LockAlgorithm) (x : str * Mode) : bool :=
  match owner_holds_or_covers owner x.1 x.2 alg s with Ok (b, _) => b | Err _ => false end.

Lemma owner_holds_or_covers_returns s owner alg x :
  sane s → returns (owner_holds_or_covers owner x.1 x.2 alg) s (covered s owner alg x).
Proof.
  intros Hs. unfold returns, covered.
  assert (reads (owner_holds_or_covers (T := Kv) owner x.1 x.2 alg)) as Hr.
  { unfold owner_holds_or_covers. cbn [get_str sismember raw_store kv_raw kv_store].
    unfold w_get_str, w_sismember. solve_reads. }
  assert (stable (λ _, False) sane (owner_holds_or_covers (T := Kv) owner x.1 x.2 alg)) as Hst.
  { unfold owner_holds_or_covers.
    repeat first [apply stable_get_str; reflexivity | apply stable_sismember; reflexivity | stable_step]. }
  specialize (Hr s). specialize (Hst s Hs). unfold wp in Hst.
  destruct (owner_holds_or_covers owner x.1 x.2 alg s) as [[b s']|e]; [by subst|done].
Qed.

(** The new paths of a request the owner does not cover yet. *)
Definition uncovered (s : Kv) (namespace : str) (args : AcquireArgs) (policy : LockPolicy)
    : list (str * Mode * LockAlgorithm) :=
  (λ x, (x.1, x.2, algorithm policy)) <$>
    filter (λ x, covered s (owner_id args) (algorithm policy) x = false)
      (new_scoped_paths args namespace).

(** The conflict of waiter [e] with a request, when [e] came first. *)
Definition blocks (owner : str) (my_seq : option Z) (mine : list (str * Mode * LockAlgorithm))
    (e : QueueEntry) : option (str * str * Reason) :=
  if bool_decide (qe_owner e = owner) then None
  else if match my_seq with Some my => my <=? qe_seq e | None => false end then None
  else match args_conflicts_with (qe_args e) (qe_namespace e) (qe_policy e) mine with
       | Some path => Some (qe_owner e, public_path (qe_namespace e) path, Queued)
       | None => None
       end.

(** The first waiter, in queue order, that the request would overtake. *)
Definition first_blocker (s : Kv) (namespace : str) (args : AcquireArgs) (policy : LockPolicy)
    : option (str * str * Reason) :=
  let W := waiters (qview s) in
  let my_seq := qe_seq <$> waiter_of (owner_id args) W in
  head (omap (blocks (owner_id args) my_seq (uncovered s namespace args policy)) W).

Lemma conflict_related aa a ma ab b mb :
  requests_conflict aa a ma ab b mb = true → related (bool_decide (mb = Write) && recursive ab) b a.
Proof.
  unfold requests_conflict, locks_conflict, related, is_strict_ancestor.
  destruct (_ || _); [done|]. case_bool_decide as Hab; [by left|].
  case_bool_decide as Ha; [by right; left|]. case_bool_decide as Hb; [|done].
  intros H. right. right. split; [done|]. by apply ancestor_index_prefix.
Qed.

Lemma args_conflicts_Some args namespace policy paths p :
  args_conflicts_with args namespace policy paths = Some p →
  ∃ m y, (p, m) ∈ new_scoped_paths args namespace ∧ y ∈ paths ∧
    requests_conflict (algorithm policy) p m y.2 y.1.1 y.1.2 = true.
Proof.
  unfold args_conflicts_with. destruct (filter _ _) as [|[p' m] l] eqn:Hf; [done|].
  intros [= ->]. assert ((p, m) ∈ filter (λ a : str * Mode,
    existsb (λ b : str * Mode * LockAlgorithm,
      requests_conflict (algorithm policy) a.1 a.2 b.2 b.1.1 b.1.2) paths = true)
    (new_scoped_paths args namespace)) as [Hex Hin]%list_elem_of_filter by (rewrite Hf; by left).
  apply existsb_exists in Hex as (y & Hy & Hc).
  exists m, y. split_and!; [done|by apply list_elem_of_In|done].
Qed.

Lemma admission_returns s owner alg mine seqs xs :
  sane s → queue_ok (qview s) →
  let new := filter (λ x, covered s owner alg x = false) xs in
  ∃ seqs', returns (fold_txm (admission_step owner alg) (mine, seqs) xs) s
             (mine ++ ((λ x, (x.1, x.2, alg)) <$> new), seqs') ∧
    adds_candidates (qview s)
      (λ a, ∃ x, x ∈ new ∧ related (bool_decide (x.2 = Write) && recursive alg) x.1 a) seqs seqs'.
Proof.
  intros Hs Hq. cbv zeta. revert mine seqs. induction xs as [|x xs IH]; intros mine seqs.
  - exists seqs. rewrite app_nil_r. split; [done|]. split_and!; [done|by left|].
    by intros e a _ _ (x & ?%not_elem_of_nil & _).
  - cbn [fold_txm]. pose proof (owner_holds_or_covers_returns s owner alg x Hs) as Hc.
    rewrite filter_cons. destruct (covered s owner alg x) eqn:Hcov.
    + rewrite decide_False by done. destruct (IH mine seqs) as (seqs' & Hr & Ha).
      exists seqs'. split; [|done]. eapply returns_bind; [|apply Hr].
      unfold admission_step. eapply returns_bind; [apply Hc|done].
    + rewrite decide_True by done.
      destruct (collect_candidates_adds (qview s) (bool_decide (x.2 = Write) && recursive alg) seqs x.1 Hq)
        as (seqs1 & Hr1 & H1).
      destruct (IH (mine ++ [(x.1, x.2, alg)]) seqs1) as (seqs2 & Hr2 & H2).
      exists seqs2. split.
      * rewrite fmap_cons. rewrite (cons_middle (x.1, x.2, alg)), app_assoc.
        eapply returns_bind; [|apply Hr2]. unfold admission_step.
        eapply returns_bind; [apply Hc|]. eapply returns_bind; [|done].
        eapply qruns_returns; [apply reads_collect_candidates|done].
      * eapply adds_weaken; [|by eapply adds_trans]. simpl.
        intros a (y & [->|Hy]%elem_of_cons & Hrel); eauto.
Qed.

Lemma blocks_candidate s namespace args policy seqs' e my :
  let mine := uncovered s namespace args policy in
  adds_candidates (qview s)
    (λ a, ∃ x, x ∈ filter (λ x, covered s (owner_id args) (algorithm policy) x = false)
                 (new_scoped_paths args namespace) ∧
      related (bool_decide (x.2 = Write) && recursive (algorithm policy)) x.1 a) ∅ seqs' →
  e ∈ waiters (qview s) → qe_seq e ∉ seqs' → blocks (owner_id args) my mine e = None.
Proof.
  intros mine (_ & _ & Hcomp) He Hn. unfold blocks.
  destruct (bool_decide _); [done|]. destruct (match my with Some m => _ | None => _ end); [done|].
  destruct (args_conflicts_with _ _ _ mine) as [p|] eqn:Hc; [|done]. destruct Hn.
  apply args_conflicts_Some in Hc as (m & y & Hin & Hy & Hc).
  unfold mine, uncovered in Hy. apply list_elem_of_fmap in Hy as (x & -> & Hx). simpl in Hc.
  apply (Hcomp e p He); [|exists x; split; [done|by eapply conflict_related]].
  unfold wait_paths. apply list_elem_of_fmap. by exists (p, m).
Qed.

Lemma blocked_by_earlier_returns s namespace args policy :
  sane s → queue_ok (qview s) →
  returns (blocked_by_earlier namespace args policy) s (first_blocker s namespace args policy).
Proof.
  intros Hs Hq. unfold blocked_by_earlier, first_blocker.
  destruct (admission_returns s (owner_id args) (algorithm policy) [] ∅
              (new_scoped_paths args namespace) Hs Hq) as (C & Hr & HC).
  eapply returns_bind; [exact Hr|]. cbv beta iota. rewrite app_nil_l.
  fold (uncovered s namespace args policy).
  set (f := blocks _ _ _). assert (∀ e, e ∈ waiters (qview s) → qe_seq e ∉ C → f e = None) as Hnone
    by (intros; by eapply blocks_candidate).
  case_bool_decide as Hm.
  { rewrite omap_None; [done|]. intros e _. unfold f, blocks. rewrite Hm.
    destruct (args_conflicts_with _ _ _ []) as [p|] eqn:Hc; [|by repeat case_match].
    apply args_conflicts_Some in Hc as (? & ? & _ & ?%not_elem_of_nil & _). done. }
  case_bool_decide as HCe.
  { rewrite omap_None; [done|]. intros e He. apply Hnone; set_solver. }
  eapply returns_bind; [eapply qruns_returns; [apply reads_owner_seq|by apply owner_seq_run]|].
  rewrite <- (omap_filter_None _ (λ e, qe_seq e ∈ C)) by auto.
  rewrite (ascending_waiters (qview s) C Hq).
  2: { intros n Hn. destruct HC as (_ & HB & _). destruct (HB n Hn); [set_solver|done]. }
  rewrite (omap_fmap_ext f (λ n, match waiter_at n (waiters (qview s)) with
                                 | Some e => f e | None => None end) qe_seq).
  2: { intros e [_ He]%list_elem_of_filter. by rewrite waiter_at_unique. }
  apply returns_find_first. intros n (e & -> & [_ He]%list_elem_of_filter)%list_elem_of_fmap.
  eapply returns_bind; [eapply qruns_returns; [apply reads_read_entry|apply read_entry_run]|done].
  - done.
  - apply elem_waiters in He as (x & Hst & _); [apply Hst|done].
Qed.

(** ** Clearing a namespace *)

Definition cleared_by (namespace : str) (include_legacy_routes : bool) (preserved : gset str)
    (e : QueueEntry) : bool :=
  bool_decide (qe_namespace e = namespace) ||
  (include_legacy_routes && touches_namespace namespace (qe_args e)
   && negb (bool_decide (qe_namespace e ∈ preserved))).

Definition dequeued_all (os : list str) (q : qst) : qst := foldl (λ q o, dequeued o q) q os.

Lemma dequeued_all_cons o os q : dequeued_all (o :: os) q = dequeued_all os (dequeued o q).
Proof. done. Qed.
Lemma dequeued_all_ok os q : queue_ok q → queue_ok (dequeued_all os q).
Proof.
  revert q. induction os as [|o os IH]; intros q Hq; [done|]. by apply IH, dequeued_ok.
Qed.
Lemma dequeued_all_waiters os q :
  queue_ok q → waiters (dequeued_all os q) = filter (λ e, qe_owner e ∉ os) (waiters q).
Proof.
  revert q. induction os as [|o os IH]; intros q Hq.
  - symmetry. apply filter_all. intros e _. apply not_elem_of_nil.
  - cbn [dequeued_all foldl]. fold (dequeued_all os (dequeued o q)).
    rewrite IH by by apply dequeued_ok. rewrite dequeued_waiters by done.
    rewrite list_filter_filter. apply list_filter_iff. intros e. rewrite not_elem_of_cons. tauto.
Qed.
Lemma dequeued_all_frame os q :
  q_now (dequeued_all os q) = q_now q ∧ seq_value (dequeued_all os q) = seq_value q.
Proof.
  revert q. induction os as [|o os IH]; intros q; [done|]. cbn [dequeued_all foldl].
  destruct (IH (dequeued o q)) as [H1 H2]. split.
  - etrans; [exact H1|apply dequeued_now].
  - etrans; [exact H2|apply dequeued_seq].
Qed.

Lemma clear_fold_run namespace inc preserved es cleared q :
  queue_ok q →
  qruns (fold_txm (λ (cleared : list str) entry,
    let legacy_match := inc && touches_namespace namespace (qe_args entry)
                        && negb (bool_decide (qe_namespace entry ∈ preserved)) in
    if bool_decide (qe_namespace entry = namespace) || legacy_match
    then dequeue (qe_owner entry);; mret (cleared ++ [qe_owner entry])
    else mret cleared) cleared es) q
  (cleared ++ (qe_owner <$> filter (λ e, cleared_by namespace inc preserved e = true) es))
  (dequeued_all (qe_owner <$> filter (λ e, cleared_by namespace inc preserved e = true) es) q).
Proof.
  revert cleared q. induction es as [|e es IH]; intros cleared q Hq.
  - rewrite app_nil_r. apply qruns_ret.
  - cbn [fold_txm]. rewrite filter_cons. cbv zeta.
    fold (cleared_by namespace inc preserved e).
    destruct (decide (cleared_by namespace inc preserved e = true)) as [Hm|Hm].
    + rewrite Hm, !fmap_cons, dequeued_all_cons.
      specialize (IH (cleared ++ [qe_owner e]) _ (dequeued_ok q (qe_owner e) Hq)).
      rewrite <- app_assoc in IH.
      eapply qruns_bind; [eapply qruns_bind; [by apply dequeue_run|apply qruns_ret]|exact IH].
    + apply not_true_is_false in Hm as ->. eapply qruns_bind; [apply qruns_ret|]. by apply IH.
Qed.

Lemma clear_namespace_run namespace inc preserved q :
  queue_ok q →
  let gone := qe_owner <$> filter (λ e, cleared_by namespace inc preserved e = true) (waiters q) in
  qruns (clear_namespace namespace inc preserved) q gone (dequeued_all gone q).
Proof.
  intros Hq gone. unfold clear_namespace. eapply qruns_bind; [apply scan_all_run|].
  by apply clear_fold_run.
Qed.

Lemma cleared_waiters namespace inc preserved q :
  queue_ok q →
  let gone := qe_owner <$> filter (λ e, cleared_by namespace inc preserved e = true) (waiters q) in
  waiters (dequeued_all gone q) = filter (λ e, cleared_by namespace inc preserved e = false) (waiters q).
Proof.
  intros Hq gone. rewrite dequeued_all_waiters by done. unfold gone. clear gone.
  apply filter_ext_in. intros e He. rewrite <- not_true_iff_false. split.
  - intros Hn Hc. destruct Hn. apply list_elem_of_fmap. exists e. split; [done|].
    by apply list_elem_of_filter.
  - intros Hn (e' & Ho & [Hc He']%list_elem_of_filter)%list_elem_of_fmap. destruct Hn.
    pose proof (waiter_of_unique q e Hq He) as H. rewrite Ho, waiter_of_unique in H by done. congruence.
Qed.
End queue_scans.
