(* ===== verification/Command.v ===== *)
(** * Commands and responses ([src/raft/command.rs]), the cluster directory
      ([src/cluster/directory.rs])

    Every state change of a group is one of these commands, replicated in log
    order.  The directory is plain metadata of the system group. *)

From Stdlib Require Import ZArith NArith Lia Strings.Byte.
From stdpp Require Import sorting countable base numbers gmap strings list.
From S2P Require Import Prelude RustStd StoreKeys Store EngineTypes.
Local Open Scope Z_scope.

Record RequestId := { client_id : str; ri_seq : Z }.
#[export] Instance RequestId_eq_dec : EqDecision RequestId.
Proof. solve_decision. Defined.

#[export] Instance WaitEdgeMetadata_eq_dec : EqDecision WaitEdgeMetadata.
Proof. solve_decision. Defined.
#[export] Instance WaitEdge_eq_dec : EqDecision WaitEdge.
Proof. solve_decision. Defined.

Inductive Op :=
| Release (namespace owner : str) (reqs : list RelReq) (del_wait : bool)
| ReleaseAll (owner : str) (del_wait : bool)
| Renew (owner : str) (ttl_ms : Z)
| ForceRelease (victim : str)
| SetWaitEdge (owner : str) (edge : WaitEdge) (ttl_ms : Z)
| ClearWaitEdge (owner : str)
| RequestRevoke (owner : str) (ttl_ms : Z)
| GcSweep (now_ms batch : Z)
| IncrFence
| Noop
| DirectoryUpdate (group : Z) (voters learners : list Z) (leader : option Z)
| SetNodeDraining (node_id : Z) (draining : bool)
| SetNamespacePolicy (namespace : str) (alg : LockAlgorithm)
| DeleteNamespacePolicy (namespace : str)
| AcquireInNamespace (namespace : str) (policy : LockPolicy) (args : AcquireArgs).
#[export] Instance Op_eq_dec : EqDecision Op.
Proof. solve_decision. Defined.

Record Command := { request_id : option RequestId; cmd_now_ms : Z; cmd_op : Op }.

Inductive RejectKind := ScanLimit | IdempotencyMismatch | PolicyEpochStale | RoutingStale.
#[export] Instance RejectKind_eq_dec : EqDecision RejectKind.
Proof. solve_decision. Defined.

Inductive ApplyResponse :=
| RAcquire (o : AcquireOutcome)
| RRenew (o : RenewOutcome)
| RAssertFencing (o : AssertOutcome)
| RIncrFence (token : Z)
| RGc (scanned reclaimed : Z) (granted : list str)
| RUnit
| Rejected (kind : RejectKind) (detail : str)
| Granted (owners : list str)
| AcquireGranted (outcome : AcquireOutcome) (granted : list str)
| NamespaceCleared (owners : list str).
#[export] Instance ApplyResponse_eq_dec : EqDecision ApplyResponse.
Proof. solve_decision. Defined.

(** ** The cluster directory *)

Record GroupRecord := { voters : list Z; learners : list Z; leader : option Z }.

Definition group_record_key (group : GroupId) : bytes := bs "dir:" ++ be_bytes 4 group.
Definition draining_key (node_id : Z) : bytes := bs "draining:" ++ be_bytes 8 node_id.

Section directory_reads.
Context `{!Bincode GroupRecord} `{!RocksDb}.

Definition read_group_record (db : DB) (group : GroupId) : result (option GroupRecord) :=
  match get_cf db CF_META (group_key SYS_GROUP (group_record_key group)) with
  | Some b =>
      match bincode_decode b with
      | Some record => Ok (Some record)
      | None => Err (Anyhow "decode")
      end
  | None => Ok None
  end.

(** The iterator loop over the keys below the bound. *)
Fixpoint draining_loop (prefix : bytes) (l : list (bytes * bytes)) (draining : gset Z) : gset Z :=
  match l with
  | [] => draining
  | (key, value) :: l =>
      if negb (starts_with prefix key) then draining
      else
        let id_bytes := drop (length prefix) key in
        draining_loop prefix l
          (if bool_decide (length id_bytes = 8%nat) && bool_decide (value = bs "1")
           then {[ from_be id_bytes ]} ∪ draining else draining)
  end.

Definition read_draining (db : DB) : gset Z :=
  let prefix := group_key SYS_GROUP (bs "draining:") in
  draining_loop prefix (range_cf db CF_META (Some prefix) (prefix_upper_bound prefix)) ∅.
End directory_reads.

Section directory_writes.
Context `{!Bincode GroupRecord} {T : Type} `{!RawTxn T}.

Definition apply_directory_update (group : Z) (record : GroupRecord) : txm T unit :=
  put_raw CF_META (group_record_key group) (bincode_encode record).

Definition apply_set_draining (node_id : Z) (draining : bool) : txm T unit :=
  if draining then put_raw CF_META (draining_key node_id) (bs "1")
  else delete_raw CF_META (draining_key node_id).
End directory_writes.
