(* ===== verification/Codecs.v ===== *)
(** * Reference codecs for queue entries, commands and responses

    Instances of [Bincode] for the types the apply layer serialises, built
    from self-delimiting serialisers; theorems stated for every codec are
    evaluated on these at concrete inputs. *)

From Stdlib Require Import ZArith NArith Lia Strings.Byte.
From stdpp Require Import sorting countable base numbers gmap strings list.
From S2P Require Import Prelude RustStd StoreKeys Store StoreScan Instances EngineTypes Engine.
From S2P Require Import Paths Placement Queue Command.
Local Open Scope Z_scope.

(** ** Self-delimiting serialisers *)

Class Ser (A : Type) := {
  enc : A → bytes;
  dec : bytes → option (A * bytes);
  dec_enc a r : dec (enc a ++ r) = Some (a, r)
}.

#[export] Instance ser_z : Ser Z := {| enc := enc_z; dec := dec_z; dec_enc := dec_enc_z |}.
#[export] Instance ser_byte : Ser byte :=
  {| enc b := [b]; dec l := match l with b :: l => Some (b, l) | [] => None end;
     dec_enc _ _ := eq_refl |}.
#[export] Instance ser_unit : Ser unit :=
  {| enc _ := []; dec l := Some (tt, l);
     dec_enc a r := match a with tt => eq_refl end |}.
#[export] Instance ser_bool : Ser bool :=
  {| enc b := [if b : bool then x01 else x00];
     dec l := match l with x01 :: l => Some (true, l) | x00 :: l => Some (false, l) | _ => None end;
     dec_enc a r := match a with true => eq_refl | false => eq_refl end |}.

#[export] Instance ser_prod `{Ser A, Ser B} : Ser (A * B).
Proof.
  refine {| enc x := enc x.1 ++ enc x.2;
            dec l := match dec l with
                     | Some (a, l) => match dec l with Some (b, l) => Some ((a, b), l) | None => None end
                     | None => None
                     end |}.
  intros [a b] r. by rewrite <- app_assoc, !dec_enc.
Defined.
#[export] Instance ser_sum `{Ser A, Ser B} : Ser (A + B).
Proof.
  refine {| enc x := match x with inl a => x00 :: enc a | inr b => x01 :: enc b end;
            dec l := match l with
                     | x00 :: l => match dec l with Some (a, l) => Some (inl a, l) | None => None end
                     | x01 :: l => match dec l with Some (b, l) => Some (inr b, l) | None => None end
                     | _ => None
                     end |}.
  intros [a|b] r; cbn [app]; by rewrite dec_enc.
Defined.

(** An iterated decoder for the elements of a list. *)
Fixpoint dec_n `{Ser A} (n : nat) (l : bytes) : option (list A * bytes) :=
  match n with
  | O => Some ([], l)
  | S n => match dec l with
           | Some (a, l) => match dec_n n l with Some (xs, l) => Some (a :: xs, l) | None => None end
           | None => None
           end
  end.
Lemma dec_n_enc `{Ser A} (xs : list A) r : dec_n (length xs) (mjoin (enc <$> xs) ++ r) = Some (xs, r).
Proof.
  induction xs as [|x xs IH]; [done|]. cbn [length dec_n].
  change (mjoin (enc <$> x :: xs)) with (enc x ++ mjoin (enc <$> xs)).
  by rewrite <- app_assoc, dec_enc, IH.
Qed.
#[export] Instance ser_list `{Ser A} : Ser (list A).
Proof.
  refine {| enc xs := enc (Z.of_nat (length xs)) ++ mjoin (enc <$> xs);
            dec l := match dec (A := Z) l with Some (n, l) => dec_n (Z.to_nat n) l | None => None end |}.
  intros xs r. by rewrite <- app_assoc, dec_enc, Nat2Z.id, dec_n_enc.
Defined.
Definition ser_iso `{Ser B} {A} (f : A → B) (g : B → A) (Hgf : ∀ a, g (f a) = a) : Ser A.
Proof.
  refine {| enc a := enc (f a);
            dec l := match dec l with Some (b, l) => Some (g b, l) | None => None end |}.
  intros a r. by rewrite dec_enc, Hgf.
Defined.
#[export] Instance ser_option `{Ser A} : Ser (option A).
Proof.
  refine (ser_iso (λ o, match o with Some a => inl a | None => inr () end)
                  (λ x, match x with inl a => Some a | inr _ => None end) _). by intros [].
Defined.

Definition ref_codec `{Ser A} : Bincode A.
Proof.
  refine {| bincode_encode := enc;
            bincode_decode b := match dec b with Some (a, []) => Some a | _ => None end |}.
  intros a. by rewrite <- (app_nil_r (enc a)), dec_enc.
Defined.

(** ** The types *)

#[export] Instance ser_Mode : Ser Mode.
Proof.
  refine (ser_iso (λ m, match m with Write => true | Read => false end)
            (λ b : bool, if b then Write else Read) _). by intros [].
Defined.
#[export] Instance ser_State : Ser State.
Proof.
  refine (ser_iso (λ m, match m with New => true | Held => false end)
            (λ b : bool, if b then New else Held) _). by intros [].
Defined.
#[export] Instance ser_LockAlgorithm : Ser LockAlgorithm.
Proof.
  refine (ser_iso (λ a, match a with RecursiveRw => 0 | PointRw => 1
              | RecursiveWrite => 2 | PointWrite => 3 | Semaphore => 4 end)
            (λ n, match n with 0 => RecursiveRw | 1 => PointRw | 2 => RecursiveWrite
              | 3 => PointWrite | _ => Semaphore end) _). by intros [].
Defined.
Definition reasons : list Reason :=
  [AncestorLocked; WriteLocked; ReadLocked; DescendantWriteLocked; DescendantReadLocked;
   ReadLocksDisabled; StaleFencingToken; InvalidPermits; SemaphoreFull; MissingSemaphore;
   MissingWrite; MissingRead; MissingFence; MissingAlive; MissingOwnerSet; EmptyOwnerSet;
   Queued; StaleOwner].
#[export] Instance ser_Reason : Ser Reason.
Proof.
  refine (ser_iso (λ r, Z.of_nat (default 0%nat (fst <$> list_find (eq r) reasons)))
            (λ n, default StaleOwner (reasons !! Z.to_nat n)) _). by intros [].
Defined.
#[export] Instance ser_LockReq : Ser LockReq.
Proof.
  refine (ser_iso (λ r, (lr_path r, lr_mode r, lr_state r, lr_permits r))
    (λ '(p, m, s, n), {| lr_path := p; lr_mode := m; lr_state := s; lr_permits := n |}) _).
  by intros [].
Defined.
#[export] Instance ser_RelReq : Ser RelReq.
Proof.
  refine (ser_iso (λ r, (rel_path r, rel_mode r))
    (λ '(p, m), {| rel_path := p; rel_mode := m |}) _). by intros [].
Defined.
#[export] Instance ser_AcquireArgs : Ser AcquireArgs.
Proof.
  refine (ser_iso
    (λ a, (owner_id a, ttl_ms a, requests a, fencing_token a, release_requests a, queue_ttl_ms a))
    (λ '(o, t, r, f, l, q), {| owner_id := o; ttl_ms := t; requests := r; fencing_token := f;
                               release_requests := l; queue_ttl_ms := q |}) _). by intros [].
Defined.
#[export] Instance ser_LockPolicy : Ser LockPolicy.
Proof.
  refine (ser_iso (λ p, (algorithm p, epoch p))
    (λ '(a, e), {| algorithm := a; epoch := e |}) _). by intros [].
Defined.
#[export] Instance ser_QueueEntry : Ser QueueEntry.
Proof.
  refine (ser_iso (λ e, (qe_seq e, qe_owner e, qe_namespace e, qe_args e, qe_policy e))
    (λ '(n, o, ns, a, p), {| qe_seq := n; qe_owner := o; qe_namespace := ns; qe_args := a;
                             qe_policy := p |}) _). by intros [].
Defined.
#[export] Instance ser_GroupRecord : Ser GroupRecord.
Proof.
  refine (ser_iso (λ r, (voters r, learners r, leader r))
    (λ '(v, l, d), {| voters := v; learners := l; leader := d |}) _). by intros [].
Defined.
#[export] Instance ser_RejectKind : Ser RejectKind.
Proof.
  refine (ser_iso (λ k, match k with ScanLimit => 0 | IdempotencyMismatch => 1
              | PolicyEpochStale => 2 | RoutingStale => 3 end)
            (λ n, match n with 0 => ScanLimit | 1 => IdempotencyMismatch | 2 => PolicyEpochStale
              | _ => RoutingStale end) _). by intros [].
Defined.
#[export] Instance ser_AcquireOutcome : Ser AcquireOutcome.
Proof.
  refine (ser_iso
    (λ o, match o with
          | AcquireOk f => inl f
          | Conflict p o r => inr (inl (p, o, r))
          | Lost p r => inr (inr (inl (p, r)))
          | AcquireQueued p o r f => inr (inr (inr (p, o, r, f)))
          end)
    (λ x, match x with
          | inl f => AcquireOk f
          | inr (inl (p, o, r)) => Conflict p o r
          | inr (inr (inl (p, r))) => Lost p r
          | inr (inr (inr (p, o, r, f))) => AcquireQueued p o r f
          end) _). by intros [].
Defined.
#[export] Instance ser_RenewOutcome : Ser RenewOutcome.
Proof.
  refine (ser_iso (λ o, match o with RenewOk b => inl b | RenewLost p r => inr (p, r) end)
    (λ x, match x with inl b => RenewOk b | inr (p, r) => RenewLost p r end) _). by intros [].
Defined.
#[export] Instance ser_AssertOutcome : Ser AssertOutcome.
Proof.
  refine (ser_iso (λ o, match o with AssertOk => None | AssertFail p r => Some (p, r) end)
    (λ x, match x with None => AssertOk | Some (p, r) => AssertFail p r end) _). by intros [].
Defined.
#[export] Instance ser_ApplyResponse : Ser ApplyResponse.
Proof.
  refine (ser_iso
    (λ o, match o with
          | RAcquire o => inl (inl (inl o))
          | RRenew o => inl (inl (inr (inl o)))
          | RAssertFencing o => inl (inl (inr (inr o)))
          | RIncrFence t => inl (inr (inl t))
          | RGc a b l => inl (inr (inr (inl (a, b, l))))
          | RUnit => inl (inr (inr (inr ())))
          | Rejected k d => inr (inl (inl (k, d)))
          | Granted l => inr (inl (inr l))
          | AcquireGranted o l => inr (inr (inl (o, l)))
          | NamespaceCleared l => inr (inr (inr l))
          end)
    (λ x, match x with
          | inl (inl (inl o)) => RAcquire o
          | inl (inl (inr (inl o))) => RRenew o
          | inl (inl (inr (inr o))) => RAssertFencing o
          | inl (inr (inl t)) => RIncrFence t
          | inl (inr (inr (inl (a, b, l)))) => RGc a b l
          | inl (inr (inr (inr ()))) => RUnit
          | inr (inl (inl (k, d))) => Rejected k d
          | inr (inl (inr l)) => Granted l
          | inr (inr (inl (o, l))) => AcquireGranted o l
          | inr (inr (inr l)) => NamespaceCleared l
          end) _). by intros [].
Defined.
#[export] Instance ser_WaitEdgeMetadata : Ser WaitEdgeMetadata.
Proof.
  refine (ser_iso (λ m, (conflict_path m, reason m))
    (λ '(p, r), {| conflict_path := p; reason := r |}) _). by intros [].
Defined.
#[export] Instance ser_WaitEdge : Ser WaitEdge.
Proof.
  refine (ser_iso (λ e, (conflict_owner e, metadata e))
    (λ '(o, m), {| conflict_owner := o; metadata := m |}) _). by intros [].
Defined.
#[export] Instance ser_Op : Ser Op.
Proof.
  refine (ser_iso
    (λ o, match o with
          | Release ns o rs d => inl (inl (inl (ns, o, rs, d)))
          | ReleaseAll o d => inl (inl (inr (o, d)))
          | Renew o t => inl (inr (inl (o, t)))
          | ForceRelease v => inl (inr (inr v))
          | SetWaitEdge o e t => inr (inl (inl (o, e, t)))
          | ClearWaitEdge o => inr (inl (inr (inl o)))
          | RequestRevoke o t => inr (inl (inr (inr (o, t))))
          | GcSweep n b => inr (inr (inl (inl (n, b))))
          | IncrFence => inr (inr (inl (inr (inl ()))))
          | Noop => inr (inr (inl (inr (inr ()))))
          | DirectoryUpdate g v l d => inr (inr (inr (inl (inl (g, v, l, d)))))
          | SetNodeDraining n d => inr (inr (inr (inl (inr (n, d)))))
          | SetNamespacePolicy ns a => inr (inr (inr (inr (inl (ns, a)))))
          | DeleteNamespacePolicy ns => inr (inr (inr (inr (inr (inl ns)))))
          | AcquireInNamespace ns p a => inr (inr (inr (inr (inr (inr (ns, p, a))))))
          end)
    (λ x, match x with
          | inl (inl (inl (ns, o, rs, d))) => Release ns o rs d
          | inl (inl (inr (o, d))) => ReleaseAll o d
          | inl (inr (inl (o, t))) => Renew o t
          | inl (inr (inr v)) => ForceRelease v
          | inr (inl (inl (o, e, t))) => SetWaitEdge o e t
          | inr (inl (inr (inl o))) => ClearWaitEdge o
          | inr (inl (inr (inr (o, t)))) => RequestRevoke o t
          | inr (inr (inl (inl (n, b)))) => GcSweep n b
          | inr (inr (inl (inr (inl ())))) => IncrFence
          | inr (inr (inl (inr (inr ())))) => Noop
          | inr (inr (inr (inl (inl (g, v, l, d))))) => DirectoryUpdate g v l d
          | inr (inr (inr (inl (inr (n, d))))) => SetNodeDraining n d
          | inr (inr (inr (inr (inl (ns, a))))) => SetNamespacePolicy ns a
          | inr (inr (inr (inr (inr (inl ns))))) => DeleteNamespacePolicy ns
          | inr (inr (inr (inr (inr (inr (ns, p, a)))))) => AcquireInNamespace ns p a
          end) _). by intros [].
Defined.
