(* ===== verification/QueueTheorems.v ===== *)
(** * Correctness of the wait queue ([src/queue.rs])

    The queue's invariant holds in every state the operations can reach, and on
    such a state the operations implement a first-in first-out list of waiters. *)

From Stdlib Require Import ZArith NArith Lia Strings.Byte.
From stdpp Require Import sorting countable base numbers gmap strings list.
From S2P Require Import Prelude RustStd StoreKeys Store StoreScan StoreSim KvView Instances.
From S2P Require Import EngineTypes Engine EngineSafe Footprint Paths Placement Queue.
From S2P Require Import QueueState QueueOps QueueScans Command Codecs.
Local Open Scope Z_scope.

Section steps.
Context `{!Bincode StoredRecord, !Bincode QueueEntry}.

Lemma qruns_inv {A} (m : txm Kv A) s a q' b s' :
  qruns m (qview s) a q' → m s = Ok (b, s') → b = a ∧ qview s' = q'.
Proof. intros H Hm. destruct (H s eq_refl) as (s1 & H1 & H2). rewrite Hm in H1. by simplify_eq. Qed.

(** One change of the keyspace: a queue operation that succeeded, the collection
    of a dead index record, time passing, or a change elsewhere. *)
Inductive queue_step (s s' : Kv) : Prop :=
| qs_enqueue namespace args policy n :
    seq_value (qview s) < i64_max → enqueue namespace args policy s = Ok (n, s') → queue_step s s'
| qs_dequeue owner : dequeue owner s = Ok (tt, s') → queue_step s s'
| qs_expire key b : expire_entry key s = Ok (b, s') → queue_step s s'
| qs_clear namespace inc preserved owners :
    clear_namespace namespace inc preserved s = Ok (owners, s') → queue_step s s'
| qs_collect k b v exp :
    cf_map s CF_QUEUE !! k = Some b → decode_record b = Ok (Str v exp) →
    expired exp (kv_now s) = true → s' = kv_del s CF_QUEUE k → queue_step s s'
| qs_time now : kv_now s ≤ now → s' = {| kv_now := now; kv_data := kv_data s |} → queue_step s s'
| qs_other : qview s' = qview s → queue_step s s'.

Lemma enqueue_step_ok namespace args policy n s s' :
  queue_ok (qview s) → seq_value (qview s) < i64_max →
  enqueue namespace args policy s = Ok (n, s') → queue_ok (qview s').
Proof.
  intros Hq Hmax Hrun. destruct (decide (units_total (q_map (dequeued (owner_id args) (qview s)))
    + queue_units args ≤ QUEUE_SCAN_LIMIT)) as [Hr|Hr].
  - apply (qruns_inv _ _ _ _ _ _ (enqueue_run namespace args policy _ Hq Hmax Hr)) in Hrun as [_ ->].
    by apply enqueued_ok.
  - by rewrite (enqueue_fails namespace args policy _ Hq Hmax Hr s eq_refl) in Hrun.
Qed.

Lemma expire_step_ok key b s s' :
  queue_ok (qview s) → expire_entry key s = Ok (b, s') → queue_ok (qview s').
Proof.
  intros Hq Hrun. destruct (cf_map s CF_QUEUE !! key) as [raw|] eqn:Hk.
  - destruct (decode_queue_entry_seq key) as [n|] eqn:Hd.
    + destruct (entry_range_elem (qview s) key raw Hq) as (e & x & -> & -> & Hs).
      { apply btree_range_elem. split; [done|]. by eapply entry_key_range. }
      apply (qruns_inv _ _ _ _ _ _ (expire_entry_run _ e x Hq Hs)) in Hrun as [_ ->].
      by eapply expired_entry_ok.
    + unfold expire_entry in Hrun. rewrite Hd in Hrun. unfold mret, txm_ret in Hrun. by simplify_eq.
  - unfold expire_entry in Hrun. unfold mbind, txm_bind, mret, txm_ret in Hrun.
    destruct (decode_queue_entry_seq key); [|by simplify_eq]. cbn [get_raw kv_raw] in Hrun. unfold kv_get_raw in Hrun.
    rewrite Hk in Hrun. by simplify_eq.
Qed.

Lemma qview_del s k : qview (kv_del s CF_QUEUE k) = with_map (qview s) (delete k (q_map (qview s))).
Proof. unfold qview, with_map, kv_del. cbn. by rewrite !cf_map_upd. Qed.

Lemma collect_step_ok s k b v exp :
  queue_ok (qview s) → cf_map s CF_QUEUE !! k = Some b → decode_record b = Ok (Str v exp) →
  expired exp (kv_now s) = true → queue_ok (qview (kv_del s CF_QUEUE k)).
Proof.
  intros Hq Hk Hd Hx. rewrite qview_del.
  destruct (qo_shape _ Hq k b Hk) as [(e & x & -> & -> & Hu)|[(o & n & x & -> & -> & Hn)|
    (p & n & x & -> & -> & Hn)]].
  - unfold entry_rec in Hd. by rewrite decode_encode in Hd.
  - unfold owner_rec in Hd. rewrite decode_encode in Hd. injection Hd as _ ->.
    apply delete_owner_ok; [done|]. intros e x Hs Hlive <-.
    destruct (qo_entry _ Hq e x Hs Hlive) as [Ho _]. cbn [q_map qview] in Ho. rewrite Hk in Ho. injection Ho as Ho.
    apply owner_rec_inj in Ho as [_ ->]; [|done|apply Hs]. cbn [q_now qview] in Hlive. congruence.
  - unfold path_rec in Hd. rewrite decode_encode in Hd. injection Hd as _ ->.
    by eapply delete_dead_path_ok.
Qed.

Lemma queue_step_ok s s' : queue_step s s' → queue_ok (qview s) → queue_ok (qview s').
Proof.
  intros [namespace args policy n Hmax Hrun|owner Hrun|key b Hrun|namespace inc pres owners Hrun
         |k b v exp Hk Hd Hx ->|now Hnow ->|Hsame] Hq.
  - by eapply enqueue_step_ok.
  - apply (qruns_inv _ _ _ _ _ _ (dequeue_run _ owner Hq)) in Hrun as [_ ->]. by apply dequeued_ok.
  - by eapply expire_step_ok.
  - apply (qruns_inv _ _ _ _ _ _ (clear_namespace_run namespace inc pres _ Hq)) in Hrun as [_ ->].
    by apply dequeued_all_ok.
  - by eapply collect_step_ok.
  - by apply (with_now_ok (qview s)).
  - by rewrite Hsame.
Qed.

Lemma queue_ok_empty now : queue_ok (qview {| kv_now := now; kv_data := ∅ |}).
Proof.
  assert (qview {| kv_now := now; kv_data := ∅ |} =
          {| q_now := now; q_map := ∅; q_seq := None; q_count := None |}) as -> by done.
  split; cbn [q_map q_seq q_count q_now].
  - by intros k b H%lookup_empty_Some.
  - by intros p n exp _ H%lookup_empty_Some.
  - by intros o n exp _ H%lookup_empty_Some.
  - by intros e exp [_ H%lookup_empty_Some].
  - split_and!; [done|done|by left|]. by intros e exp [_ H%lookup_empty_Some].
  - by right.
  - done.
Qed.

Lemma queue_steps_ok s s' : rtc queue_step s s' → queue_ok (qview s) → queue_ok (qview s').
Proof. induction 1 as [|s1 s2 s3 H12 _ IH]; [done|]. intros Hq. by apply IH, (queue_step_ok s1). Qed.

(** C19: The queue is well formed in every reachable state.  Starting empty, after
    any sequence of enqueues, dequeues, namespace clears, expiries, collections of
    dead records, clock advances and changes outside the queue: every stored
    record is an entry, an owner record or a path index record; a live waiter has
    its owner record and one index record per path it waits for, all with its
    expiry; every index record belongs to a stored entry; sequence numbers do not
    exceed the counter; and the unit counter is the exact total of the stored
    entries, at most the scan limit. *)
Theorem queue_reachable_ok now s :
  rtc queue_step {| kv_now := now; kv_data := ∅ |} s → queue_ok (qview s).
Proof. intros H. eapply queue_steps_ok; [done|apply queue_ok_empty]. Qed.

(** C20: Enqueueing is first in, first out.  On a well-formed queue with room for
    the request's units [enqueue] succeeds: an unchanged request of a waiting
    owner keeps its place (and its number), any other request takes the owner's
    old entry out and goes behind every other waiter, with a number greater than
    all of theirs.  Without room it fails with the scan-limit error.  The queue
    stays well formed. *)
Theorem enqueue_fifo s namespace args policy :
  queue_ok (qview s) → seq_value (qview s) < i64_max → 0 ≤ kv_now s < u64_max →
  let W := waiters (qview s) in
  let others := filter (λ e, qe_owner e ≠ owner_id args) W in
  if units_total (q_map (dequeued (owner_id args) (qview s))) + queue_units args
       <=? QUEUE_SCAN_LIMIT
  then ∃ n s', enqueue namespace args policy s = Ok (n, s') ∧ queue_ok (qview s') ∧
    match waiter_of (owner_id args) W with
    | Some e =>
        if is_waiter namespace args policy e then n = qe_seq e ∧ waiters (qview s') = W
        else waiters (qview s') = others ++ [new_entry n namespace args policy] ∧
             ∀ e', e' ∈ W → qe_seq e' < n
    | None => waiters (qview s') = W ++ [new_entry n namespace args policy] ∧
              ∀ e', e' ∈ W → qe_seq e' < n
    end
  else enqueue namespace args policy s = Err (SetScanLimitExceeded "enqueue" QUEUE_SCAN_LIMIT).
Proof.
  intros Hq Hmax Hnow W others.
  destruct (Z.leb_spec (units_total (q_map (dequeued (owner_id args) (qview s))) + queue_units args)
              QUEUE_SCAN_LIMIT) as [Hr|Hr].
  2: { apply (enqueue_fails namespace args policy (qview s)); [done..|unfold room; lia|done]. }
  destruct (enqueue_run namespace args policy _ Hq Hmax Hr s eq_refl) as (s' & Hrun & Hview).
  exists (enqueued_seq namespace args policy (qview s)), s'. rewrite Hview.
  split; [done|]. split; [by apply enqueued_ok|].
  rewrite enqueued_waiters by (done || by apply enqueue_live).
  pose proof (λ e Hu, new_seq_last namespace args policy (qview s) Hq e Hu) as Hlast.
  unfold unchanged, enqueued_seq in *. fold W in Hlast |- *.
  destruct (waiter_of (owner_id args) W) as [e|] eqn:Hw.
  - unfold unchanged in Hlast |- *. fold W in Hlast |- *. rewrite Hw in Hlast |- *.
    destruct (is_waiter namespace args policy e); auto.
  - unfold unchanged in Hlast |- *. fold W in Hlast |- *. rewrite Hw in Hlast |- *.
    split; [|auto]. f_equal. apply filter_all. intros e He Ho.
    by eapply head_filter_None in Hw.
Qed.

(** Dequeueing is exact.  On a well-formed queue [dequeue] always succeeds,
    takes out the owner's waiter if it has one, leaves every other waiter in its
    place and keeps the queue well formed. *)
Theorem dequeue_exact s owner :
  queue_ok (qview s) →
  ∃ s', dequeue owner s = Ok (tt, s') ∧ queue_ok (qview s') ∧
    waiters (qview s') = filter (λ e, qe_owner e ≠ owner) (waiters (qview s)) ∧
    seq_value (qview s') = seq_value (qview s).
Proof.
  intros Hq. destruct (dequeue_run _ owner Hq s eq_refl) as (s' & Hrun & Hview).
  exists s'. rewrite Hview. split_and!; [done|by apply dequeued_ok|by apply dequeued_waiters|].
  apply dequeued_seq.
Qed.

(** Scans of a well-formed queue are complete.  The bounded [scan] of a grant
    sweep and the unbounded [scan_all] both return every live waiter, in sequence
    order, no owner twice: the scan limit never hides a waiter. *)
Theorem queue_scans_exact s :
  queue_ok (qview s) →
  scan s = Ok (waiters (qview s), s) ∧ scan_all s = Ok (waiters (qview s), s) ∧
  StronglySorted seq_lt (waiters (qview s)) ∧ NoDup (qe_owner <$> waiters (qview s)) ∧
  ∀ e, e ∈ waiters (qview s) ↔
    ∃ exp, stored (cf_map s CF_QUEUE) e exp ∧ expired exp (kv_now s) = false.
Proof.
  intros Hq. split_and!.
  - eapply qruns_returns; [|by apply scan_run]. unfold scan. simpl. solve_reads.
  - eapply qruns_returns; [|by apply scan_all_run]. unfold scan_all. simpl. solve_reads.
  - by apply waiters_sorted.
  - by apply waiter_owners_nodup.
  - intros e. by apply (elem_waiters (qview s)).
Qed.

(** C21: Admission is exact.  [blocked_by_earlier], which reads candidates through
    the path index (the exact path, its ancestors, and a prefix range for
    recursive writes), returns what a walk over all waiters in order would: the
    first waiter of another owner, ahead of the request, that conflicts with a
    path the owner does not cover yet.  It never fails and changes nothing. *)
Theorem admission_exact s namespace args policy :
  sane s → queue_ok (qview s) →
  blocked_by_earlier namespace args policy s = Ok (first_blocker s namespace args policy, s).
Proof. apply blocked_by_earlier_returns. Qed.

(** Clearing a namespace is exact.  [clear_namespace] dequeues exactly the
    waiters of the namespace (and, with legacy routes, those whose paths lie in it
    and whose namespace is not preserved), returns their owners in queue order,
    and keeps every other waiter and the queue well formed. *)
Theorem queue_clear_exact s namespace inc preserved :
  queue_ok (qview s) →
  ∃ s', clear_namespace namespace inc preserved s =
    Ok (qe_owner <$> filter (λ e, cleared_by namespace inc preserved e = true) (waiters (qview s)), s') ∧
    queue_ok (qview s') ∧
    waiters (qview s') =
      filter (λ e, cleared_by namespace inc preserved e = false) (waiters (qview s)).
Proof.
  intros Hq. destruct (clear_namespace_run namespace inc preserved _ Hq s eq_refl) as (s' & Hrun & Hview).
  exists s'. rewrite Hview. split_and!; [done|by apply dequeued_all_ok|by apply cleared_waiters].
Qed.
End steps.

(** ** Witnesses: a queue with two waiters *)
Module Witness.
#[local] Existing Instance ref_bincode.
#[local] Instance entry_codec : Bincode QueueEntry := ref_codec.

Definition empty : Kv := {| kv_now := 1000; kv_data := ∅ |}.
Definition args (owner path : string) : AcquireArgs :=
  {| owner_id := bs owner; ttl_ms := 5000; fencing_token := 0; release_requests := [];
     requests := [{| lr_path := bs path; lr_mode := Write; lr_state := New; lr_permits := 1 |}];
     queue_ttl_ms := 0 |}.
Definition policy : LockPolicy := from_algorithm RecursiveRw.
Definition ns : str := bs "fs".
Definition after {A} (m : txm Kv A) (s : Kv) : Kv :=
  match m s with Ok (_, s') => s' | Err _ => s end.
Definition one : Kv := after (enqueue ns (args "a" "fs:/x") policy) empty.
Definition two : Kv := after (enqueue ns (args "b" "fs:/x/y") policy) one.

Lemma one_step : queue_step empty one.
Proof.
  eapply (qs_enqueue _ _ ns (args "a" "fs:/x") policy 1); [done|]. vm_compute. reflexivity.
Defined.
Lemma two_step : queue_step one two.
Proof.
  eapply (qs_enqueue _ _ ns (args "b" "fs:/x/y") policy 2); [by vm_compute|]. vm_compute. reflexivity.
Defined.
Lemma two_ok : queue_ok (qview two).
Proof.
  eapply queue_step_ok; [apply two_step|]. eapply queue_step_ok; [apply one_step|apply queue_ok_empty].
Qed.

Lemma queue_reachable_ok_witness : queue_ok (qview two).
Proof.
  apply (queue_reachable_ok 1000). eapply rtc_l; [apply one_step|]. apply rtc_once, two_step.
Defined.

Lemma enqueue_fifo_witness :
  ∃ n s', enqueue ns (args "c" "fs:/x") policy two = Ok (n, s') ∧ queue_ok (qview s') ∧
    (waiters (qview s') = waiters (qview two) ++ [new_entry n ns (args "c" "fs:/x") policy] ∧
     ∀ e', e' ∈ waiters (qview two) → qe_seq e' < n).
Proof.
  exact (enqueue_fifo two ns (args "c" "fs:/x") policy two_ok ltac:(by vm_compute)
           ltac:(split; by vm_compute)).
Defined.

Lemma queue_scans_exact_witness : scan two = Ok (waiters (qview two), two).
Proof. exact (proj1 (queue_scans_exact two two_ok)). Defined.

Lemma two_sane : sane two.
Proof.
  intros c k b H. unfold cf_map in H.
  assert (c ∈ [CF_QUEUE; CF_META; CF_EXPIRY]) as Hc.
  { destruct c; vm_compute in H; (discriminate || set_solver). }
  intros Hr. destruct c; try discriminate Hr; try (by vm_compute in H).
  assert (map_Forall (λ k _, is_marker k || is_permits k = false) (cf_map two CF_META)) as Hm.
  { apply map_Forall_to_list. vm_compute map_to_list. repeat constructor. }
  apply Hm in H. simpl in Hr. congruence.
Qed.

(** The writer [b] of a subtree waits behind [a]. *)
Lemma admission_exact_witness :
  blocked_by_earlier ns (args "b" "fs:/x/y") policy two =
  Ok (Some (bs "a", bs "fs:/x", Queued), two).
Proof.
  refine (eq_trans (admission_exact two ns (args "b" "fs:/x/y") policy two_sane two_ok) _).
  vm_compute. reflexivity.
Defined.

Lemma queue_clear_exact_witness :
  ∃ s', clear_namespace ns false ∅ two = Ok ([bs "a"; bs "b"], s') ∧ queue_ok (qview s') ∧
    waiters (qview s') = [].
Proof. exact (queue_clear_exact two ns false ∅ two_ok). Defined.

(** A keyspace written before the unit counter existed has entries and no counter.
    Replacing a waiter's request there removes its entry before the counter is
    rebuilt by a scan, and then subtracts its units again: the counter ends one
    short of the two stored units. *)
Lemma missing_counter_undercounts :
  let legacy := kv_del two CF_META META_QUEUE_COUNT_KEY in
  let s' := after (enqueue ns (args "a" "fs:/z") policy) legacy in
  q_count (qview s') = Some (encode_record (Counter 1)) ∧ units_total (q_map (qview s')) = 2.
Proof. vm_compute. split; reflexivity. Qed.
End Witness.
