(* ===== verification/StateMachine.v ===== *)
(** * The replicated state machine ([src/raft/state_machine.rs])

    One committed command is applied to one group: the clock is clamped, retried
    commands are answered from the dedupe table, the operation runs in a
    transaction, and the transaction commits unless the outcome is a rejection.
    The operations are generic over the transaction; [apply_with_meta] runs them
    on a [WriteTxn] over a database. *)

From Stdlib Require Import ZArith NArith Lia Strings.Byte.
From stdpp Require Import sorting countable base numbers gmap strings list.
From S2P Require Import Prelude RustStd StoreKeys Store StoreScan StoreSim EngineTypes Engine.
From S2P Require Import Paths Placement Queue Command.
Local Open Scope Z_scope.

Definition DEDUPE_TTL_MS : Z := 300000.
Definition DEDUPE_RECORD : byte := xd1.

(** The display of the only error that is not fatal. *)
Definition scan_limit_message (operation : string) (limit : Z) : str :=
  bs operation ++ bs " on set would enumerate more than " ++ to_string limit
    ++ bs " live members".

Definition dedupe_key (id : RequestId) : bytes :=
  client_id id ++ [NUL] ++ be_bytes 8 (ri_seq id).

Section dedupe.
Context `{!Bincode Op, !Bincode (Z * ApplyResponse)} (xxh3_64 : bytes → Z).

Definition op_fingerprint (op : Op) : Z := xxh3_64 (bincode_encode op).
Definition encode_dedupe_record (fingerprint : Z) (resp : ApplyResponse) : bytes :=
  DEDUPE_RECORD :: bincode_encode (fingerprint, resp).
Definition decode_dedupe_record (b : bytes) : option (Z * ApplyResponse) :=
  match b with
  | version :: rest => if bool_decide (version = DEDUPE_RECORD) then bincode_decode rest else None
  | [] => None
  end.
End dedupe.

(** ** Collecting a namespace's holds ([collect_namespace_holds]) *)

(** [key.windows(2).position(|w| w == [0, 0])] *)
Fixpoint double_nul (k : bytes) : option nat :=
  match k with
  | a :: ((b :: _) as rest) =>
      if bool_decide (a = NUL) && bool_decide (b = NUL) then Some O else S <$> double_nul rest
  | _ => None
  end.

(** The owner and the hold behind a key of the owner-holds family. *)
Definition owner_hold `{!Bincode StoredRecord} (now : Z) (key value : bytes)
    : option (str * HeldLock) :=
  sep ← double_nul key;
  owner ← from_utf8 (take sep key);
  rec ← decode_record_lenient value;
  m ← live_str rec now;
  held ← parse_hold_member m;
  Some (owner, held).

Definition selects (namespace : str) (include_legacy_routes : bool) (preserved : gset str)
    (held : HeldLock) : bool :=
  bool_decide (hl_namespace held = namespace) ||
  (include_legacy_routes && namespace_contains_path namespace (hl_path held)
   && negb (bool_decide (hl_namespace held ∈ preserved))).

(** Ascending order of the keys of [by_owner] and of the elements of a
    [BTreeSet<String>]. *)
Definition pair_le (a b : str * str) : Prop :=
  bytes_ltb a.1 b.1 = true ∨ (a.1 = b.1 ∧ bytes_le a.2 b.2).
#[export] Instance pair_le_dec : RelDecision pair_le.
Proof. intros a b. unfold pair_le. apply _. Defined.
Definition owner_entry_le (a b : (str * str) * list RelReq) : Prop := pair_le a.1 b.1.
#[export] Instance owner_entry_le_dec : RelDecision owner_entry_le.
Proof. intros a b. unfold owner_entry_le. apply _. Defined.
Definition sorted_strings (s : gset str) : list str := merge_sort bytes_le (elements s).

(** [roots.sort_by(len descending, then lexicographic)] *)
Definition root_le (a b : str) : Prop :=
  len b < len a ∨ (len a = len b ∧ bytes_le a b).
#[export] Instance root_le_dec : RelDecision root_le.
Proof. intros a b. unfold root_le. apply _. Defined.

Definition static_cf_name (name : str) : option cf :=
  List.find (λ c, bool_decide (cf_name c = name)) ALL_CFS.

Section apply_layer.
Context `{!Bincode StoredRecord, !Bincode QueueEntry, !Bincode GroupRecord}.
Context {T : Type} `{!RawTxn T}.

Definition holds_visit (now : Z) (namespace : str) (legacy : bool) (preserved : gset str)
    : visitor (list (str * str * str * str)) := λ key value out,
  Ok (match owner_hold now key value with
      | Some (owner, held) =>
          if selects namespace legacy preserved held
          then out ++ [(owner, hl_namespace held, mode_as_str (hl_mode held), hl_path held)]
          else out
      | None => out
      end, true).

Definition collect_namespace_holds (namespace : str) (include_legacy_routes : bool)
    (preserved_namespaces : gset str) : txm T (list (str * str * str * str)) :=
  now ← asks now_ms;
  scan_merged CF_OWNER_HOLDS None None
    (holds_visit now namespace include_legacy_routes preserved_namespaces) [].

(** ** Grant sweeps *)

Definition sweep_try (namespace : str) (args : AcquireArgs) (policy : LockPolicy)
    : txm T AcquireOutcome := acquire_inner_in_namespace args policy namespace.
Definition sweep_grants : txm T (list str) := grant_sweep sweep_try.
Definition sweep_grants_for_paths (freed_scoped : list str) : txm T (list str) :=
  grant_sweep_for_paths sweep_try freed_scoped.

Definition granted_response (granted : list str) : ApplyResponse :=
  if bool_decide (granted = []) then RUnit else Granted granted.

Definition scoped_freed_paths (namespace : str) (reqs : list RelReq) : list str :=
  foldl (λ out req,
    let scoped := scoped_path namespace (rel_path req) in
    if bool_decide (scoped ∈ out) then out else out ++ [scoped]) [] reqs.

(** ** Fencing counter *)

Definition read_fence_counter : txm T Z :=
  r ← get_raw CF_META META_FENCE_COUNTER_KEY;
  match r with
  | Some b =>
      rec ← lift (decode_record b);
      mret (match rec with Counter v => v | _ => 0 end)
  | None => mret 0
  end.

Definition write_fence_counter (token : Z) : txm T unit :=
  put_raw CF_META META_FENCE_COUNTER_KEY (encode_record (Counter token)).

Definition incr_fence_inner : txm T Z :=
  current ← read_fence_counter;
  let next := saturating_add_i64 current 1 in
  write_fence_counter next;;
  mret next.

Definition is_write (r : LockReq) : bool := bool_decide (lr_mode r = Write).

Definition max_fence_step (namespace : str) (max_seen : Z) (req : LockReq) : txm T Z :=
  f ← get_str CF_FENCES (fence_key (scoped_path namespace (lr_path req)));
  mret (match parse_fence f with Some cur => Z.max max_seen cur | None => max_seen end).

Definition with_token (args : AcquireArgs) (token : Z) : AcquireArgs :=
  {| owner_id := owner_id args; ttl_ms := ttl_ms args; requests := requests args;
     fencing_token := token; release_requests := release_requests args;
     queue_ttl_ms := queue_ttl_ms args |}.

Definition mint_fence_if_needed (namespace : str) (args : AcquireArgs) (alg : LockAlgorithm)
    : txm T AcquireArgs :=
  if (0 <? fencing_token args) || is_semaphore alg then mret args
  else if negb (existsb is_write (requests args)) then mret args
  else
    counter ← read_fence_counter;
    max_seen ← fold_txm (max_fence_step namespace) counter
                 (filter (λ r, is_write r = true) (requests args));
    let token := saturating_add_i64 max_seen 1 in
    write_fence_counter token;;
    mret (with_token args token).

(** ** Acquire *)

(** What a granted acquire still does: leave the queue, and sweep what the
    acquire freed. *)
Definition acquire_granted (namespace : str) (args : AcquireArgs) (was_alive : bool)
    (fencing_token : Z) : txm T ApplyResponse :=
  dequeue (owner_id args);;
  let freed := scoped_freed_paths namespace (release_requests args) in
  granted ← (if negb was_alive && negb (bool_decide (requests args = [])) then sweep_grants
             else if negb (bool_decide (freed = [])) then sweep_grants_for_paths freed
             else mret []);
  mret (if bool_decide (granted = []) then RAcquire (AcquireOk fencing_token)
        else AcquireGranted (AcquireOk fencing_token) granted).

(** [execute_acquire] once the request carries its token. *)
Definition acquire_minted (namespace : str) (policy : LockPolicy) (args : AcquireArgs)
    : txm T ApplyResponse :=
  was_alive ← get_str CF_OWNER_ALIVE (alive_key (owner_id args));
  blocked ← blocked_by_earlier namespace args policy;
  match blocked with
  | Some (owner, path, reason) =>
      enqueue namespace args policy;;
      mret (RAcquire (AcquireQueued path owner reason (fencing_token args)))
  | None =>
      outcome ← acquire_inner_in_namespace args policy namespace;
      match outcome with
      | AcquireOk token => acquire_granted namespace args (is_some was_alive) token
      | Conflict path owner reason =>
          if is_queueable reason then
            enqueue namespace args policy;;
            mret (RAcquire (AcquireQueued path owner reason (fencing_token args)))
          else mret (RAcquire (Conflict path owner reason))
      | other => mret (RAcquire other)
      end
  end.

Definition execute_acquire (namespace : str) (args : AcquireArgs) (policy : LockPolicy)
    : txm T ApplyResponse :=
  args ← mint_fence_if_needed namespace args (algorithm policy);
  acquire_minted namespace policy args.

(** ** Namespace transitions *)

(** The live roots of the settings family, filtered. *)
Definition roots_visit (now : Z) (keep : str → bool) : visitor (list str) := λ key value roots,
  Ok (match decode_record value with
      | Ok (Str _ exp) =>
          if expired exp now then roots
          else match from_utf8 key with
               | Some root => if keep root then roots ++ [root] else roots
               | None => roots
               end
      | _ => roots
      end, true).

Definition preserved_roots (namespace : str) : txm T (gset str) :=
  now ← asks now_ms;
  roots ← scan_merged CF_NAMESPACE_SETTINGS None None
            (roots_visit now (λ root, negb (bool_decide (root = namespace))
                                      && namespace_contains_path namespace root)) [];
  mret (list_to_set roots).

Definition group_hold (by_owner : gmap (str * str) (list RelReq))
    (h : str * str * str * str) : gmap (str * str) (list RelReq) :=
  let '(owner, held_namespace, mode, path) := h in
  let mode := if bool_decide (mode = bs "read") then Read else Write in
  let key := (held_namespace, owner) in
  <[key := default [] (by_owner !! key) ++ [{| rel_path := path; rel_mode := mode |}]]> by_owner.

Definition clear_namespace (namespace : str) (include_legacy_routes : bool) : txm T (list str) :=
  preserved ← (if include_legacy_routes then preserved_roots namespace else mret ∅);
  holds ← collect_namespace_holds namespace include_legacy_routes preserved;
  let by_owner := foldl group_hold ∅ holds in
  affected ← fold_txm (λ (affected : gset str) (e : (str * str) * list RelReq),
      release_inner_in_namespace e.1.1 e.1.2 e.2 false;;
      mret ({[ e.1.2 ]} ∪ affected))
    ∅ (merge_sort owner_entry_le (map_to_list by_owner));
  cleared ← Queue.clear_namespace namespace include_legacy_routes preserved;
  mret (sorted_strings (list_to_set cleared ∪ affected)).

Definition namespace_cleared_response (cleared : list str) : ApplyResponse :=
  if bool_decide (cleared = []) then RUnit else NamespaceCleared cleared.

(** ** Stale commands *)

Definition routing_stale_detail (path stamped current : str) : str :=
  bs "routing namespace for " ++ path ++ bs " changed: stamped " ++ stamped
    ++ bs ", current " ++ current.

(** The loop over the request paths: the first one routed elsewhere. *)
Definition stale_path (roots : list str) (stamped : str) (path : str) : option str :=
  match List.find (λ root, namespace_contains_path root path) roots with
  | Some current => if bool_decide (current = stamped) then None else Some current
  | None => None
  end.
Fixpoint first_stale (roots : list str) (stamped : str) (paths : list str) : option ApplyResponse :=
  match paths with
  | [] => None
  | path :: paths =>
      match stale_path roots stamped path with
      | Some current =>
          Some (Rejected RoutingStale (routing_stale_detail path stamped current))
      | None => first_stale roots stamped paths
      end
  end.

Definition reject_stale_routing (stamped_namespace : str) (args : AcquireArgs)
    : txm T (option ApplyResponse) :=
  now ← asks now_ms;
  roots ← scan_merged CF_NAMESPACE_SETTINGS None None (roots_visit now (λ _, true)) [];
  mret (first_stale (merge_sort root_le roots) stamped_namespace
          ((lr_path <$> requests args) ++ (rel_path <$> release_requests args))).

Definition policy_stale_detail (namespace : str) (stamped current : LockPolicy) : str :=
  bs "namespace policy for " ++ namespace ++ bs " changed: stamped epoch "
    ++ to_string (epoch stamped) ++ bs " " ++ algorithm_as_str (algorithm stamped)
    ++ bs ", current epoch " ++ to_string (epoch current) ++ bs " "
    ++ algorithm_as_str (algorithm current).

Definition reject_stale_policy_epoch (namespace : str) (stamped : LockPolicy)
    (default_algorithm : LockAlgorithm) : txm T (option ApplyResponse) :=
  '(current, _) ← get_namespace_policy_record_inner namespace default_algorithm;
  mret (if bool_decide (current = stamped) then None
        else Some (Rejected PolicyEpochStale (policy_stale_detail namespace stamped current))).

(** ** GC sweep *)

Definition gc_keys_visit (batch : Z) : visitor (list bytes) := λ k _ keys,
  let keys := keys ++ [k] in Ok (keys, len keys <? batch).

(** A record's expiry, for the two kinds that carry one. *)
Definition record_expiry (b : bytes) : option Z :=
  match decode_record b with
  | Ok (Str _ exp) | Ok (BytesRec _ exp) => Some exp
  | _ => None
  end.

(** Reclaim one expired record. *)
Definition gc_reclaim (c : cf) (primary_key : bytes) : txm T unit :=
  (if bool_decide (c = CF_OWNER_ALIVE) && negb (bool_decide (NUL ∈ primary_key)) then
     match from_utf8 primary_key with
     | Some owner => force_release_inner owner
     | None => mret tt
     end
   else mret tt);;
  gone ← (if bool_decide (c = CF_QUEUE) then expire_entry primary_key else mret false);
  if gone : bool then mret tt else delete_raw c primary_key.

(** One index entry: [(reclaimed, may_unblock)] so far. *)
Definition gc_entry (now_ms : Z) (acc : Z * bool) (key : bytes) : txm T (Z * bool) :=
  let '(reclaimed, may_unblock) := acc in
  acc ← match decode_expiry_entry key with
        | Some (_, name, primary_key) =>
            match static_cf_name name with
            | Some c =>
                let may_unblock := may_unblock || bool_decide (c = CF_OWNER_ALIVE)
                                   || bool_decide (c = CF_QUEUE) in
                r ← get_raw c primary_key;
                match r ≫= record_expiry with
                | Some exp =>
                    if expired exp now_ms
                    then gc_reclaim c primary_key;; mret (reclaimed + 1, may_unblock)
                    else mret (reclaimed, may_unblock)
                | None => mret (reclaimed, may_unblock)
                end
            | None => mret (reclaimed, may_unblock)
            end
        | None => mret (reclaimed, may_unblock)
        end;
  delete_raw CF_EXPIRY key;;
  mret acc.

Definition gc_sweep (now_ms batch : Z) : txm T (Z * Z * bool) :=
  cursor ← get_raw CF_META META_GC_CURSOR_KEY;
  keys ← scan_merged CF_EXPIRY cursor (Some (expiry_scan_upper now_ms)) (gc_keys_visit batch) [];
  '(reclaimed, may_unblock) ← fold_txm (gc_entry now_ms) (0, false) keys;
  match last keys with
  | Some k => put_raw CF_META META_GC_CURSOR_KEY (key_successor k)
  | None => mret tt
  end;;
  mret (as_u32 (len keys), reclaimed, may_unblock).

(** ** One operation *)

Definition set_namespace_policy (namespace : str) (alg : LockAlgorithm)
    (default_algorithm : LockAlgorithm) : txm T ApplyResponse :=
  '(before, explicit) ← get_namespace_policy_record_inner namespace default_algorithm;
  set_namespace_policy_inner namespace alg;;
  if (explicit : bool) && bool_decide (alg = algorithm before) then mret RUnit
  else
    cleared ← clear_namespace namespace (negb explicit);
    mret (namespace_cleared_response cleared).

Definition delete_namespace_policy (namespace : str) (default_algorithm : LockAlgorithm)
    : txm T ApplyResponse :=
  '(_, explicit) ← get_namespace_policy_record_inner namespace default_algorithm;
  delete_namespace_policy_inner namespace;;
  if explicit : bool then
    cleared ← clear_namespace namespace false;
    mret (namespace_cleared_response cleared)
  else mret RUnit.

Definition acquire_in_namespace (has_request_id : bool) (namespace : str) (policy : LockPolicy)
    (args : AcquireArgs) (default_algorithm : LockAlgorithm) : txm T ApplyResponse :=
  stale ← reject_stale_routing namespace args;
  match stale with
  | Some resp => mret resp
  | None =>
      stale ← (if has_request_id
               then reject_stale_policy_epoch namespace policy default_algorithm
               else mret None);
      match stale with
      | Some resp => mret resp
      | None => execute_acquire namespace args policy
      end
  end.

Definition execute_op (cmd : Command) (now_eff : Z) (default_algorithm : LockAlgorithm)
    : txm T ApplyResponse :=
  match cmd_op cmd with
  | Release namespace owner reqs del_wait =>
      release_inner_in_namespace namespace owner reqs del_wait;;
      granted ← sweep_grants_for_paths (scoped_freed_paths namespace reqs);
      mret (granted_response granted)
  | ReleaseAll owner del_wait =>
      release_all_inner owner del_wait;;
      dequeue owner;;
      granted ← sweep_grants;
      mret (granted_response granted)
  | Renew owner ttl_ms =>
      outcome ← renew_inner owner ttl_ms;
      mret (RRenew outcome)
  | ForceRelease victim =>
      force_release_inner victim;;
      dequeue victim;;
      granted ← sweep_grants;
      mret (granted_response granted)
  | SetWaitEdge owner edge ttl_ms =>
      set_wait_edge_inner owner (conflict_owner edge) ttl_ms (metadata edge);;
      mret RUnit
  | ClearWaitEdge owner => clear_wait_edge_inner owner;; mret RUnit
  | RequestRevoke owner ttl_ms => request_revoke_inner owner ttl_ms;; mret RUnit
  | GcSweep _ batch =>
      '(scanned, reclaimed, may_unblock) ← gc_sweep now_eff batch;
      granted ← (if may_unblock : bool then sweep_grants else mret []);
      mret (RGc scanned reclaimed granted)
  | IncrFence => token ← incr_fence_inner; mret (RIncrFence token)
  | Noop => mret RUnit
  | DirectoryUpdate group voters learners leader =>
      apply_directory_update group
        {| voters := voters; learners := learners; leader := leader |};;
      mret RUnit
  | SetNodeDraining node_id draining => apply_set_draining node_id draining;; mret RUnit
  | SetNamespacePolicy namespace alg => set_namespace_policy namespace alg default_algorithm
  | DeleteNamespacePolicy namespace => delete_namespace_policy namespace default_algorithm
  | AcquireInNamespace namespace policy args =>
      acquire_in_namespace (is_some (request_id cmd)) namespace policy args default_algorithm
  end.
End apply_layer.

(** ** Applying a command *)

Definition commits (resp : ApplyResponse) : bool :=
  match resp with
  | RAcquire (Conflict _ _ _) | RAcquire (Lost _ _) | RRenew (RenewLost _ _) | Rejected _ _ => false
  | _ => true
  end.
Definition is_noop (op : Op) : bool := match op with Noop => true | _ => false end.

Definition mismatch_detail (id : RequestId) : str :=
  bs "request id " ++ client_id id ++ bs ":" ++ to_string (ri_seq id)
    ++ bs " was already used by a different command".

Section apply.
Context `{!Bincode StoredRecord, !Bincode QueueEntry, !Bincode GroupRecord}.
Context `{!Bincode Op, !Bincode (Z * ApplyResponse)} (xxh3_64 : bytes → Z).

(** The parts of [apply_with_meta] that run inside a transaction. *)
Section in_txn.
Context {T : Type} `{!RawTxn T}.

(** The answer of the dedupe table, if it has one. *)
Definition cached_response (cmd : Command) : txm T (option ApplyResponse) :=
  match request_id cmd with
  | None => mret None
  | Some id =>
      let fingerprint := op_fingerprint xxh3_64 (cmd_op cmd) in
      r ← get_bytes CF_DEDUPE (dedupe_key id);
      mret match r ≫= decode_dedupe_record with
           | Some (cached_fp, resp) =>
               Some (if bool_decide (cached_fp = fingerprint) then resp
                     else Rejected IdempotencyMismatch (mismatch_detail id))
           | None => None
           end
  end.

Definition remember_response (cmd : Command) (resp : ApplyResponse) : txm T unit :=
  match request_id cmd with
  | None => mret tt
  | Some id =>
      set_bytes CF_DEDUPE (dedupe_key id)
        (encode_dedupe_record (op_fingerprint xxh3_64 (cmd_op cmd)) resp) DEDUPE_TTL_MS
  end.

Definition write_meta (cmd : Command) (last_now now_eff : Z) (applied : option bytes)
    : txm T unit :=
  (if (last_now <? now_eff) && negb (is_noop (cmd_op cmd))
   then put_raw CF_META META_LAST_NOW_KEY (be_bytes 8 now_eff) else mret tt);;
  match applied with
  | Some a => put_raw CF_META META_LAST_APPLIED_KEY a
  | None => mret tt
  end.

(** The scan-limit error is the only one turned into a response. *)
Definition run_command (cmd : Command) (now_eff : Z) (default_algorithm : LockAlgorithm) (t : T)
    : result (ApplyResponse * T) :=
  match execute_op cmd now_eff default_algorithm t with
  | Ok r => Ok r
  | Err (SetScanLimitExceeded operation limit) =>
      Ok (Rejected ScanLimit (scan_limit_message operation limit), t)
  | Err e => Err e
  end.

(** The body of [apply_with_meta] from a fresh transaction [fresh]: the
    response, and the transaction to commit ([None] when the command returns
    before it).  A rejected command's writes are dropped: its metadata goes to a
    fresh transaction. *)
Definition apply_txn (cmd : Command) (last_now now_eff : Z) (applied_position : option bytes)
    (default_algorithm : LockAlgorithm) (fresh : T) : result (ApplyResponse * option T) :=
  match cached_response cmd fresh with
  | Err e => Err e
  | Ok (Some resp, _) => Ok (resp, None)
  | Ok (None, txn) =>
      match run_command cmd now_eff default_algorithm txn with
      | Err e => Err e
      | Ok (resp, txn) =>
          let final :=
            if commits resp
            then (remember_response cmd resp;; write_meta cmd last_now now_eff applied_position) txn
            else write_meta cmd last_now now_eff applied_position fresh in
          match final with
          | Err e => Err e
          | Ok (_, txn) => Ok (resp, Some txn)
          end
      end
  end.
End in_txn.

Context `{!RocksDb}.

Definition read_last_now (db : DB) (group : GroupId) : Z :=
  match get_cf db CF_META (group_key group META_LAST_NOW_KEY) with
  | Some v => if bool_decide (length v = 8%nat) then from_be v else 0
  | None => 0
  end.

(** The new database, the response, and whether anything was written. *)
Definition apply_with_meta (db : DB) (group : GroupId) (cmd : Command)
    (applied_position : option bytes) (default_algorithm : LockAlgorithm)
    : result (DB * ApplyResponse * bool) :=
  let last_now := read_last_now db group in
  let now_eff := Z.max (cmd_now_ms cmd) last_now in
  match apply_txn cmd last_now now_eff applied_position default_algorithm
          (new db group now_eff) with
  | Err e => Err e
  | Ok (resp, None) => Ok (db, resp, false)
  | Ok (resp, Some txn) => let (db', wrote) := commit txn in Ok (db', resp, wrote)
  end.

Definition apply_committing (db : DB) (group : GroupId) (cmd : Command)
    : result (DB * ApplyResponse * bool) :=
  apply_with_meta db group cmd None default_algorithm.

Definition apply_entry {LogId : Type} `{!Bincode LogId} (db : DB) (group : GroupId)
    (cmd : Command) (log_id : LogId) (default_algorithm : LockAlgorithm)
    : result (DB * ApplyResponse) :=
  match apply_with_meta db group cmd (Some (bincode_encode log_id)) default_algorithm with
  | Ok (db', resp, _) => Ok (db', resp)
  | Err e => Err e
  end.
End apply.
