(* ===== verification/Replica.v ===== *)
(** * A replica of a group ([src/raft/state_machine.rs], [src/raft/network.rs],
    [src/raft/server.rs])

    The state machine as openraft drives it: applying entries, building a
    snapshot, streaming it in chunks ([full_snapshot]), putting the chunks
    together ([SnapshotAssembler]) and installing it.  openraft's log ids,
    memberships and votes are parameters. *)

From Stdlib Require Import ZArith NArith Lia Strings.Byte.
From stdpp Require Import sorting countable base numbers gmap strings list.
From S2P Require Import Prelude RustStd StoreKeys Store StoreScan StoreSim Instances Snapshot.
From S2P Require Import Grpc EngineTypes Engine Queue Command StateMachine.
Local Open Scope Z_scope.

Section replica.
Context `{!Bincode StoredRecord, !Bincode QueueEntry, !Bincode GroupRecord, !Bincode Frame}.
Context `{!Bincode Op, !Bincode (Z * ApplyResponse)} (xxh3_64 : bytes → Z).
Context `{!RocksDb} {LogId StoredMembership Membership : Type}.
(** [StoredMembership::default()], [StoredMembership::new], [log_id.index]. *)
Context (default_membership : StoredMembership).
Context (new_membership : LogId → Membership → StoredMembership) (index : LogId → Z).

Record SnapshotMeta := {
  last_log_id : option LogId;
  last_membership : StoredMembership;
  snapshot_id : str
}.
Context `{!Bincode LogId, !Bincode StoredMembership, !Bincode SnapshotMeta}.

(** ** The state machine *)

Definition encode_meta {A} `{!Bincode A} (v : A) : bytes := bincode_encode v.
Definition decode_meta {A} `{!Bincode A} (b : bytes) : result A :=
  of_option "bincode decode" (bincode_decode b).
Definition get_meta_raw (db : DB) (group : GroupId) (key : bytes) : option bytes :=
  get_cf db CF_META (group_key group key).
Definition meta_put (group : GroupId) (key value : bytes) : batch_op :=
  BPut CF_META (group_key group key) value.

Definition put_applied (db : DB) (group : GroupId) (log_id : LogId) (membership : option StoredMembership)
    : DB :=
  write_opt db (meta_put group META_LAST_APPLIED_KEY (encode_meta log_id) ::
    match membership with
    | Some m => [meta_put group META_MEMBERSHIP_KEY (encode_meta m)]
    | None => []
    end).

Definition applied_state (db : DB) (group : GroupId) : result (option LogId * StoredMembership) :=
  applied ← match get_meta_raw db group META_LAST_APPLIED_KEY with
            | Some b => id ← decode_meta b; Ok (Some id)
            | None => Ok None
            end;
  membership ← match get_meta_raw db group META_MEMBERSHIP_KEY with
               | Some b => decode_meta b
               | None => Ok default_membership
               end;
  Ok (applied, membership).

Inductive EntryPayload :=
| Blank
| Normal (cmd : Command)
| MembershipChange (m : Membership).

Definition apply_payload (db : DB) (group : GroupId) (log_id : LogId) (payload : EntryPayload)
    (default_algorithm : LockAlgorithm) : result (DB * ApplyResponse) :=
  match payload with
  | Blank => Ok (put_applied db group log_id None, RUnit)
  | Normal cmd => apply_entry xxh3_64 db group cmd log_id default_algorithm
  | MembershipChange m =>
      Ok (put_applied db group log_id (Some (new_membership log_id m)), RUnit)
  end.

(** The [apply] loop: the responses sent to the waiting clients. *)
Fixpoint apply_entries (db : DB) (group : GroupId) (entries : list (LogId * EntryPayload))
    (default_algorithm : LockAlgorithm) : result (DB * list ApplyResponse) :=
  match entries with
  | [] => Ok (db, [])
  | (log_id, payload) :: entries =>
      '(db, resp) ← apply_payload db group log_id payload default_algorithm;
      '(db, resps) ← apply_entries db group entries default_algorithm;
      Ok (db, resp :: resps)
  end.

(** [build_snapshot] before its fsync barrier: the database with the snapshot
    stored, and the snapshot. *)
Definition snapshot_name (group : GroupId) (last_applied : option LogId) (now : Z) : str :=
  bs "g" ++ to_string group ++ bs "-" ++
  match last_applied with Some id => to_string (index id) | None => bs "0" end ++ bs "-" ++ to_string now.
Definition build_snapshot (db : DB) (group : GroupId) (snapshot_max_bytes now : Z)
    : result (DB * SnapshotMeta * bytes) :=
  '(last_applied, membership) ← applied_state db group;
  image ← build_group_image_from_snapshot_limited db group snapshot_max_bytes;
  let meta := {| last_log_id := last_applied; last_membership := membership;
                 snapshot_id := snapshot_name group last_applied now |} in
  Ok (write_opt db [meta_put group META_SNAPSHOT_META_KEY (encode_meta meta);
                    meta_put group META_SNAPSHOT_DATA_KEY image], meta, image).

Definition install_snapshot (db : DB) (group : GroupId) (meta : SnapshotMeta) (image : bytes) : result DB :=
  batch ← install_group_image db group image [];
  Ok (write_opt db (batch ++
    match last_log_id meta with
    | Some id => [meta_put group META_LAST_APPLIED_KEY (encode_meta id)]
    | None => []
    end ++
    [meta_put group META_MEMBERSHIP_KEY (encode_meta (last_membership meta));
     meta_put group META_SNAPSHOT_META_KEY (encode_meta meta);
     meta_put group META_SNAPSHOT_DATA_KEY image])).

Definition get_current_snapshot (db : DB) (group : GroupId) : result (option (SnapshotMeta * bytes)) :=
  match get_meta_raw db group META_SNAPSHOT_META_KEY, get_meta_raw db group META_SNAPSHOT_DATA_KEY with
  | Some meta_bytes, Some data => meta ← decode_meta meta_bytes; Ok (Some (meta, data))
  | _, _ => Ok None
  end.
End replica.

(** ** Streaming a snapshot *)

Record SnapshotChunk := { ck_group : Z; ck_vote : bytes; ck_meta : bytes; ck_data : bytes }.

Definition DEFAULT_SNAPSHOT_CHUNK : Z := 2 ^ 20.

(** The [loop] of the stream in [full_snapshot]; [fuel] bounds the chunks. *)
Fixpoint chunk_loop (fuel : nat) (group : Z) (vote meta image : bytes) (chunk_size : nat)
    (first : bool) (offset : nat) : list SnapshotChunk :=
  match fuel with
  | O => []
  | S fuel =>
      let fin := Nat.min (offset + chunk_size) (length image) in
      {| ck_group := group; ck_vote := if first then vote else [];
         ck_meta := if first then meta else [];
         ck_data := take (fin - offset) (drop offset image) |} ::
      (if (length image <=? fin)%nat then []
       else chunk_loop fuel group vote meta image chunk_size false fin)
  end.
Definition snapshot_chunks (group : Z) (vote meta image : bytes) (chunk_size : option Z)
    : list SnapshotChunk :=
  chunk_loop (S (length image)) group vote meta image
    (Z.to_nat (Z.max (default DEFAULT_SNAPSHOT_CHUNK chunk_size) 1)) true 0.

(** The sender refuses images over its limit. *)
Definition full_snapshot (group : Z) (vote meta image : bytes) (max_bytes : Z) (chunk_size : option Z)
    : option (list SnapshotChunk) :=
  if max_bytes <? len image then None else Some (snapshot_chunks group vote meta image chunk_size).

Record SnapshotAssembler := {
  sa_group : option Z;
  sa_vote_bytes : bytes;
  sa_meta_bytes : bytes;
  sa_image : bytes;
  sa_max_bytes : Z
}.
Definition sa_new (max_bytes : Z) : SnapshotAssembler :=
  {| sa_group := None; sa_vote_bytes := []; sa_meta_bytes := []; sa_image := [];
     sa_max_bytes := max_bytes |}.

Definition sa_push (a : SnapshotAssembler) (chunk : SnapshotChunk) : served SnapshotAssembler :=
  group ← match sa_group a with
          | Some group =>
              if negb (group =? ck_group chunk)
              then invalid_argument (bs "snapshot stream changed group from " ++ to_string group ++
                                       bs " to " ++ to_string (ck_group chunk))
              else Served group
          | None => Served (ck_group chunk)
          end;
  let vote := if bool_decide (ck_vote chunk = []) then sa_vote_bytes a else ck_vote chunk in
  let meta := if bool_decide (ck_meta chunk = []) then sa_meta_bytes a else ck_meta chunk in
  let next_len := len (sa_image a) + len (ck_data chunk) in
  if u64_max <? next_len then resource_exhausted (bs "snapshot image length overflow")
  else if sa_max_bytes a <? next_len
  then resource_exhausted (bs "snapshot image too large: " ++ to_string next_len ++ bs " bytes > " ++
                             to_string (sa_max_bytes a) ++ bs " bytes")
  else Served {| sa_group := Some group; sa_vote_bytes := vote; sa_meta_bytes := meta;
                 sa_image := sa_image a ++ ck_data chunk; sa_max_bytes := sa_max_bytes a |}.

Record IncomingSnapshot := {
  in_group : Z; in_vote_bytes : bytes; in_meta_bytes : bytes; in_image : bytes
}.
Definition sa_finish (a : SnapshotAssembler) : served IncomingSnapshot :=
  match sa_group a with
  | None => invalid_argument (bs "empty snapshot stream")
  | Some group =>
      if bool_decide (sa_vote_bytes a = []) || bool_decide (sa_meta_bytes a = [])
      then invalid_argument (bs "snapshot stream missing vote/meta header")
      else Served {| in_group := group; in_vote_bytes := sa_vote_bytes a;
                     in_meta_bytes := sa_meta_bytes a; in_image := sa_image a |}
  end.

Fixpoint sa_push_all (a : SnapshotAssembler) (chunks : list SnapshotChunk) : served SnapshotAssembler :=
  match chunks with [] => Served a | c :: chunks => a ← sa_push a c; sa_push_all a chunks end.
(** The receiving loop of the server's [install_snapshot]. *)
Definition assemble (max_bytes : Z) (chunks : list SnapshotChunk) : served IncomingSnapshot :=
  a ← sa_push_all (sa_new max_bytes) chunks; sa_finish a.

(** ** Streaming gives the image back *)

Lemma sa_push_data group vote meta cvote cmeta image max data g0 :
  len (image ++ data) ≤ max → max ≤ u64_max → g0 = None ∨ g0 = Some group →
  sa_push {| sa_group := g0; sa_vote_bytes := vote; sa_meta_bytes := meta; sa_image := image;
             sa_max_bytes := max |}
    {| ck_group := group; ck_vote := cvote; ck_meta := cmeta; ck_data := data |} =
  Served {| sa_group := Some group;
            sa_vote_bytes := if bool_decide (cvote = []) then vote else cvote;
            sa_meta_bytes := if bool_decide (cmeta = []) then meta else cmeta;
            sa_image := image ++ data; sa_max_bytes := max |}.
Proof.
  intros Hmax Hu Hg. unfold sa_push. cbn [sa_group ck_group sa_image ck_data sa_max_bytes].
  unfold len in *. rewrite length_app in Hmax.
  destruct (Z.ltb_spec u64_max (Z.of_nat (length image) + Z.of_nat (length data))); [lia|].
  destruct (Z.ltb_spec max (Z.of_nat (length image) + Z.of_nat (length data))); [lia|].
  destruct Hg as [->| ->]; [done|]. by rewrite Z.eqb_refl.
Qed.

(** What the assembler holds after the chunks before [offset]. *)
Definition sa_at (group : Z) (vote meta image : bytes) (max : Z) (first : bool) (offset : nat)
    : SnapshotAssembler :=
  if first then sa_new max
  else {| sa_group := Some group; sa_vote_bytes := vote; sa_meta_bytes := meta;
          sa_image := take offset image; sa_max_bytes := max |}.

Lemma take_drop_chunk (image : bytes) (offset fin : nat) :
  (offset ≤ fin)%nat → take offset image ++ take (fin - offset) (drop offset image) = take fin image.
Proof. intros. rewrite take_take_drop. f_equal. lia. Qed.

Lemma chunk_loop_assembles fuel group vote meta image size max first offset :
  vote ≠ [] → meta ≠ [] → len image ≤ max → max ≤ u64_max → (0 < size)%nat →
  (length image - offset < fuel)%nat → (offset ≤ length image)%nat → (first = true → offset = 0%nat) →
  sa_push_all (sa_at group vote meta image max first offset)
    (chunk_loop fuel group vote meta image size first offset) =
  Served (sa_at group vote meta image max false (length image)).
Proof.
  intros Hv Hm Hlen Hu Hsize. revert first offset.
  induction fuel as [|fuel IH]; intros first offset Hfuel Hoff Hfirst; [lia|].
  cbn [chunk_loop]. set (fin := Nat.min (offset + size) (length image)).
  assert (sa_push (sa_at group vote meta image max first offset)
    {| ck_group := group; ck_vote := if first then vote else []; ck_meta := if first then meta else [];
       ck_data := take (fin - offset) (drop offset image) |} =
    Served (sa_at group vote meta image max false fin)) as Hpush.
  { unfold sa_at, sa_new. destruct first; rewrite sa_push_data; auto.
    - rewrite !bool_decide_eq_false_2 by done. rewrite (Hfirst eq_refl).
      pose proof (take_drop_chunk image 0 fin) as Hc. rewrite take_0 in Hc. rewrite Hc by lia. done.
    - rewrite (Hfirst eq_refl), app_nil_l. unfold len in *. rewrite length_take, length_drop. lia.
    - by rewrite take_drop_chunk by lia.
    - rewrite take_drop_chunk by lia. unfold len in *. rewrite length_take. lia. }
  cbn [sa_push_all]. rewrite Hpush. unfold mbind, served_bind.
  destruct (Nat.leb_spec (length image) fin); [|apply IH; lia || done].
  by replace fin with (length image) by lia.
Qed.

Lemma snapshot_assembled group vote meta image max size :
  vote ≠ [] → meta ≠ [] → len image ≤ max → max ≤ u64_max →
  assemble max (snapshot_chunks group vote meta image size) =
  Served {| in_group := group; in_vote_bytes := vote; in_meta_bytes := meta; in_image := image |}.
Proof.
  intros Hv Hm Hlen Hu. unfold assemble, snapshot_chunks.
  change (sa_new max) with (sa_at group vote meta image max true 0).
  rewrite chunk_loop_assembles by (done || lia).
  unfold mbind, served_bind, sa_finish. cbn [sa_at sa_group sa_vote_bytes sa_meta_bytes sa_image].
  rewrite !bool_decide_eq_false_2 by done. by rewrite firstn_all.
Qed.

(** ** A snapshot makes the follower's state the leader's *)
Section transfer.
Context `{!Bincode Frame, !RocksDb} {LogId StoredMembership : Type}.
Context (default_membership : StoredMembership) (index : LogId → Z).
Context `{!Bincode LogId, !Bincode StoredMembership}.
Context `{!Bincode (@SnapshotMeta LogId StoredMembership)}.

Lemma decode_encode_meta {A} `{!Bincode A} (v : A) : decode_meta (encode_meta v) = Ok v.
Proof. unfold decode_meta, encode_meta. by rewrite bincode_decode_encode. Qed.

Lemma meta_puts_other (puts : list (bytes * bytes)) g c fk cur :
  (c = CF_META → ∀ k v, (k, v) ∈ puts → fk ≠ group_key g k) →
  foldl (batch_effect c fk) cur ((λ x, meta_put g x.1 x.2) <$> puts) = cur.
Proof.
  revert cur. induction puts as [|[k v] puts IH]; intros cur Hne; [done|].
  rewrite fmap_cons. cbn [foldl]. rewrite IH.
  - unfold meta_put. cbn [batch_effect fst snd]. rewrite decide_False; [done|].
    intros [<- Heq]. apply (Hne eq_refl k v); [by left|done].
  - intros Hc k' v' Hin. apply (Hne Hc k' v'). by right.
Qed.

(** The puts that [install_snapshot] appends to the image's operations. *)
Definition install_puts (meta : @SnapshotMeta LogId StoredMembership) (image : bytes)
    : list (bytes * bytes) :=
  match last_log_id meta with Some id => [(META_LAST_APPLIED_KEY, encode_meta id)] | None => [] end ++
  [(META_MEMBERSHIP_KEY, encode_meta (last_membership meta));
   (META_SNAPSHOT_META_KEY, encode_meta meta); (META_SNAPSHOT_DATA_KEY, image)].

Lemma install_snapshot_ops db g meta image ops :
  install_group_image db g image [] = Ok ops →
  install_snapshot db g meta image =
    Ok (write_opt db (ops ++ ((λ x, meta_put g x.1 x.2) <$> install_puts meta image))).
Proof.
  intros Hi. unfold install_snapshot, install_puts. rewrite Hi. unfold mbind, result_bind.
  by destruct (last_log_id meta).
Qed.

Lemma install_puts_raft meta image k v : (k, v) ∈ install_puts meta image → k ∈ RAFT_META_KEYS.
Proof.
  unfold install_puts, RAFT_META_KEYS. destruct (last_log_id meta); set_solver.
Qed.

Lemma put_lookup (puts : list (bytes * bytes)) g k v cur :
  NoDup puts.*1 → (k, v) ∈ puts →
  foldl (batch_effect CF_META (group_key g k)) cur ((λ x, meta_put g x.1 x.2) <$> puts) = Some v.
Proof.
  intros Hnd Hin. revert cur. induction puts as [|[k' v'] puts IH]; intros cur; [by apply not_elem_of_nil in Hin|].
  rewrite fmap_cons in Hnd. apply NoDup_cons in Hnd as [Hk' Hnd]. rewrite fmap_cons. cbn [foldl].
  apply elem_of_cons in Hin as [[= -> ->]|Hin]; [|by apply IH].
  rewrite meta_puts_other.
  - unfold meta_put. cbn [batch_effect fst snd]. by rewrite decide_True.
  - intros _ k v Hkv ->%group_key_inj_2. apply Hk'. apply list_elem_of_fmap. by exists (k, v).
Qed.

Lemma install_puts_nodup meta image : NoDup (install_puts meta image).*1.
Proof.
  apply (bool_decide_eq_true_1 _). unfold install_puts. destruct (last_log_id meta); vm_compute; reflexivity.
Qed.

Lemma install_puts_last_applied meta image id :
  last_log_id meta = Some id → (META_LAST_APPLIED_KEY, encode_meta id) ∈ install_puts meta image.
Proof. unfold install_puts. intros ->. by left. Qed.
Lemma install_puts_rest meta image x :
  x ∈ [(META_MEMBERSHIP_KEY, encode_meta (last_membership meta));
       (META_SNAPSHOT_META_KEY, encode_meta meta); (META_SNAPSHOT_DATA_KEY, image)] →
  x ∈ install_puts meta image.
Proof. intros. unfold install_puts. apply elem_of_app. by right. Qed.

(** The keys of a replica that a snapshot install leaves as they are: the log,
    and the vote, commit and purge marks. *)
Definition replica_owned (c : cf) (k : bytes) : Prop :=
  ¬ travels c k ∧ (c = CF_META → k ∈ [META_VOTE_KEY; META_COMMITTED_KEY; META_PURGED_KEY]).

Lemma replica_owned_not_put meta image k v :
  k ∈ [META_VOTE_KEY; META_COMMITTED_KEY; META_PURGED_KEY] → (k, v) ∉ install_puts meta image.
Proof.
  intros Hk Hin. assert (k ∈ [META_LAST_APPLIED_KEY; META_MEMBERSHIP_KEY; META_SNAPSHOT_META_KEY;
    META_SNAPSHOT_DATA_KEY]) as Hk'.
  { unfold install_puts in Hin. destruct (last_log_id meta); set_solver. }
  repeat (apply elem_of_cons in Hk as [->|Hk]; [by apply (bool_decide_eq_true_2 _) in Hk'|]).
  by apply not_elem_of_nil in Hk.
Qed.

(** The follower after an install. *)
Lemma install_snapshot_spec db g max image meta db' :
  build_group_image_from_snapshot_limited db g max = Ok image → wipeable db' g →
  ∃ db'', install_snapshot db' g meta image = Ok db'' ∧
    (∀ c k, travels c k → get_cf db'' c (group_key g k) = get_cf db c (group_key g k)) ∧
    (∀ k v, (k, v) ∈ install_puts meta image → get_meta_raw db'' g k = Some v) ∧
    (∀ c k, replica_owned c k → get_cf db'' c (group_key g k) = get_cf db' c (group_key g k)) ∧
    (∀ c fk, ¬ group_prefix g `prefix_of` fk → get_cf db'' c fk = get_cf db' c fk).
Proof.
  intros Hb Hw. destruct (install_built_image db g max image db' g Hb Hw) as (ops & Hi & Htr & Hraft & Hout).
  rewrite (install_snapshot_ops _ _ _ _ _ Hi). eexists. split; [reflexivity|].
  assert (∀ c fk, get_cf (write_opt db' (ops ++ ((λ x, meta_put g x.1 x.2) <$> install_puts meta image))) c fk =
    foldl (batch_effect c fk) (get_cf (write_opt db' ops) c fk)
      ((λ x, meta_put g x.1 x.2) <$> install_puts meta image)) as Hrun.
  { intros c fk. by rewrite !get_cf_write, foldl_app. }
  split_and!; intros c k Hk; unfold get_meta_raw; rewrite Hrun.
  - rewrite meta_puts_other; [by apply Htr|]. intros -> k' v Hin%install_puts_raft ->%group_key_inj_2.
    destruct Hk as [Hk|[_ Hk]]; [by apply meta_not_state in Hk|done].
  - apply put_lookup; [apply install_puts_nodup|done].
  - destruct Hk as [Ht Hk]. rewrite meta_puts_other; [by apply Hraft|].
    intros Hc k' v Hin ->%group_key_inj_2. eapply replica_owned_not_put; eauto.
  - rewrite meta_puts_other; [by apply Hout|]. intros _ k' v _ ->. apply Hk. by eexists.
Qed.

(** C7: a snapshot carries the state of the leader to the follower.  What [build_snapshot] builds is
    accepted by the sender, whatever the chunk size; the receiver puts the chunks together to the same
    vote, metadata and image; and installing it succeeds and gives the follower every state record of the
    leader and no other, the leader's applied log id and membership, and the snapshot itself as its current
    one, while its log, its vote and commit marks and the records of other groups are as before. *)
Theorem snapshot_transfers db g max now db1 meta image size vote db' id :
  build_snapshot default_membership index db g max now = Ok (db1, meta, image) →
  vote ≠ [] → encode_meta meta ≠ [] → len IMAGE_MAGIC ≤ max ≤ u64_max → wipeable db' g →
  last_log_id meta = Some id →
  ∃ chunks db'',
    full_snapshot g vote (encode_meta meta) image max size = Some chunks ∧
    assemble max chunks = Served {| in_group := g; in_vote_bytes := vote;
                                    in_meta_bytes := encode_meta meta; in_image := image |} ∧
    decode_meta (encode_meta meta) = Ok meta ∧
    install_snapshot db' g meta image = Ok db'' ∧
    (∀ c k, travels c k → get_cf db'' c (group_key g k) = get_cf db c (group_key g k)) ∧
    applied_state (LogId:=LogId) default_membership db'' g = applied_state default_membership db g ∧
    get_current_snapshot db'' g = Ok (Some (meta, image)) ∧
    (∀ c k, replica_owned c k → get_cf db'' c (group_key g k) = get_cf db' c (group_key g k)) ∧
    (∀ c fk, ¬ group_prefix g `prefix_of` fk → get_cf db'' c fk = get_cf db' c fk).
Proof.
  unfold build_snapshot, mbind, result_bind. intros Hbuild Hvote Hmeta [Hmagic Hu] Hw Hid.
  destruct (applied_state _ db g) as [[applied membership]|] eqn:Happ; [|done].
  destruct (build_group_image_from_snapshot_limited db g max) as [im|] eqn:Hb; [|done].
  injection Hbuild as <- <- <-. set (meta := {| last_log_id := applied |}) in *.
  assert (len im ≤ max) as Hlen.
  { apply build_image in Hb as (-> & _ & Hmax). destruct (group_frames db g); [done|by apply Hmax]. }
  destruct (install_snapshot_spec db g max im meta db' Hb Hw) as (db'' & Hi & Htr & Hput & Hown & Hout).
  exists (snapshot_chunks g vote (encode_meta meta) im size), db''.
  split_and!; auto using snapshot_assembled, decode_encode_meta.
  - unfold full_snapshot. by destruct (Z.ltb_spec max (len im)); [lia|].
  - unfold applied_state. rewrite (Hput _ _ (install_puts_last_applied _ _ _ Hid)).
    rewrite (Hput META_MEMBERSHIP_KEY (encode_meta membership)) by (apply install_puts_rest; set_solver).
    rewrite !decode_encode_meta. cbn in Hid. by rewrite Hid.
  - unfold get_current_snapshot.
    rewrite (Hput META_SNAPSHOT_META_KEY (encode_meta meta)) by (apply install_puts_rest; set_solver).
    rewrite (Hput META_SNAPSHOT_DATA_KEY im) by (apply install_puts_rest; set_solver).
    by rewrite decode_encode_meta.
Qed.
End transfer.

Module ReplicaWitness.
#[local] Existing Instance ref_rocksdb.
#[local] Existing Instance ref_z.

Definition enc_frame (f : Frame) : bytes :=
  enc_z (fr_cf f) ++ enc_z (len (fr_key f)) ++ fr_key f ++ fr_value f.
Definition dec_frame (b : bytes) : option Frame :=
  '(c, b) ← dec_z b; '(n, b) ← dec_z b;
  Some {| fr_cf := c; fr_key := take (Z.to_nat n) b; fr_value := drop (Z.to_nat n) b |}.
Lemma dec_enc_frame f : dec_frame (enc_frame f) = Some f.
Proof.
  destruct f as [c k v]. unfold dec_frame, enc_frame, len. cbn [fr_cf fr_key fr_value].
  rewrite dec_enc_z. cbn. rewrite dec_enc_z. cbn. by rewrite Nat2Z.id, take_app_length, drop_app_length.
Qed.
#[local] Instance frame_codec : Bincode Frame :=
  {| bincode_encode := enc_frame; bincode_decode := dec_frame; bincode_decode_encode := dec_enc_frame |}.

(** Log ids are their index, memberships a number. *)
Notation meta_t := (@SnapshotMeta Z Z).
Definition enc_snapshot_meta (m : meta_t) : bytes :=
  enc_z (match last_log_id m with Some _ => 1 | None => 0 end) ++
  enc_z (default 0 (last_log_id m)) ++ enc_z (last_membership m) ++ snapshot_id m.
Definition dec_snapshot_meta (b : bytes) : option meta_t :=
  '(tag, b) ← dec_z b; '(i, b) ← dec_z b; '(m, b) ← dec_z b;
  Some {| last_log_id := if tag =? 1 then Some i else None; last_membership := m; snapshot_id := b |}.
Lemma dec_enc_snapshot_meta m : dec_snapshot_meta (enc_snapshot_meta m) = Some m.
Proof.
  destruct m as [i m n]. unfold dec_snapshot_meta, enc_snapshot_meta. cbn [last_log_id last_membership snapshot_id].
  rewrite dec_enc_z. cbn. rewrite dec_enc_z. cbn. rewrite dec_enc_z. cbn. by destruct i.
Qed.
#[local] Instance snapshot_meta_codec : Bincode meta_t :=
  {| bincode_encode := enc_snapshot_meta; bincode_decode := dec_snapshot_meta;
     bincode_decode_encode := dec_enc_snapshot_meta |}.

(** A leader with one lock record and a follower with a stale one and a vote. *)
Definition leader : DB :=
  write_opt (∅ : gmap cf (gmap bytes bytes))
    [BPut CF_WRITE_LOCKS (group_key 3 (bs "a")) (bs "held"); meta_put 3 META_LAST_APPLIED_KEY (encode_meta 7);
     meta_put 3 META_MEMBERSHIP_KEY (encode_meta 2)].
Definition follower : DB :=
  write_opt (∅ : gmap cf (gmap bytes bytes))
    [BPut CF_WRITE_LOCKS (group_key 3 (bs "b")) (bs "stale"); meta_put 3 META_VOTE_KEY (bs "vote")].
Definition built : result (DB * meta_t * bytes) := build_snapshot 0 id leader 3 1000 5.
Definition built_db : DB := match built with Ok (db, _, _) => db | Err _ => leader end.
Definition built_meta : meta_t :=
  match built with Ok (_, m, _) => m
  | Err _ => {| last_log_id := None; last_membership := 0; snapshot_id := [] |} end.
Definition built_image : bytes := match built with Ok (_, _, i) => i | Err _ => [] end.

Lemma built_ok : build_snapshot 0 id leader 3 1000 5 = Ok (built_db, built_meta, built_image).
Proof.
  assert ((if built is Ok _ then true else false) = true) as Hok by (vm_compute; reflexivity).
  unfold built_db, built_meta, built_image. change (build_snapshot 0 id leader 3 1000 5) with built.
  by destruct built as [[[db m] i]|].
Qed.
Lemma meta_header : encode_meta built_meta ≠ [].
Proof. vm_compute. discriminate. Qed.
Lemma limit_ok : len IMAGE_MAGIC ≤ 1000 ≤ u64_max.
Proof. split; vm_compute; discriminate. Qed.
Lemma follower_wipeable : wipeable follower 3.
Proof. eapply wipeable_bounded. reflexivity. Qed.
Lemma vote_header : bs "vote" ≠ [].
Proof. discriminate. Qed.
Lemma leader_applied : last_log_id built_meta = Some 7.
Proof. vm_compute. reflexivity. Qed.
Lemma a_travels k : travels CF_WRITE_LOCKS k.
Proof. left. by apply (bool_decide_eq_true_1 (CF_WRITE_LOCKS ∈ STATE_CFS)). Qed.
Lemma vote_owned : replica_owned CF_META META_VOTE_KEY.
Proof.
  split; [|intros _; by left]. intros [Hin|[_ Hin]]; [by apply meta_not_state in Hin|].
  apply Hin. by left.
Qed.

Lemma snapshot_transfers_witness :
  ∃ db'', install_snapshot follower 3 built_meta built_image = Ok db'' ∧
    get_cf db'' CF_WRITE_LOCKS (group_key 3 (bs "a")) = Some (bs "held") ∧
    get_cf db'' CF_WRITE_LOCKS (group_key 3 (bs "b")) = None ∧
    get_cf db'' CF_META (group_key 3 META_VOTE_KEY) = Some (bs "vote").
Proof.
  destruct (snapshot_transfers 0 id leader 3 1000 5 built_db built_meta built_image (Some 16) (bs "vote")
    follower 7 built_ok vote_header meta_header limit_ok follower_wipeable leader_applied)
    as (chunks & db'' & _ & _ & _ & Hi & Htr & _ & _ & Hown & _).
  exists db''. split; [exact Hi|]. rewrite !Htr by apply a_travels. rewrite Hown by apply vote_owned.
  split_and!; vm_compute; reflexivity.
Defined.
End ReplicaWitness.
