(* ===== verification/Reads.v ===== *)
(** * Reads ([src/raft/types.rs], [src/raft/server.rs], [src/store_rocksdb.rs])

    The read operations of a group: the requests and results that nodes forward
    to each other, the scans behind the lock dump and the namespace listing, and
    [execute_read_blocking], which runs a request on one replica's copy of the
    group at a clock no earlier than the group's apply clock. *)

From Stdlib Require Import ZArith NArith Lia Strings.Byte.
From stdpp Require Import sorting countable base numbers gmap strings list.
From S2P Require Import Prelude RustStd StoreKeys Store StoreScan StoreSim Snapshot.
From S2P Require Import EngineTypes Engine.
From S2P Require Import Paths Placement Queue Command StateMachine.
Local Open Scope Z_scope.

Record NodeMeta := { name : str; raft_addr : str; public_addr : str; gossip_addr : str }.
#[export] Instance NodeMeta_eq_dec : EqDecision NodeMeta.
Proof. solve_decision. Defined.

Inductive ReadOp :=
| AssertFencing (namespace owner : str) (token : Z) (paths : list str)
| InspectPath (namespace path : str)
| IsBlocking (namespace path owner : str) (reason : Reason)
| IsOwnerAlive (owner : str)
| ListOwnerLocks (owner : str)
| DumpPage (cursor : option bytes) (page : Z)
| ReadWaitEdge (owner : str)
| GetNamespacePolicy (namespace : str)
| ListNamespaces
| NamespaceHasLocks (namespace : str).

Record LockEntry := { le_owner : str; le_path : str; le_mode : Mode; le_fence : option Z }.
Record LockDumpPage := { entries : list LockEntry; next_cursor : option bytes }.
Record NamespacePolicyEntry := { npe_namespace : str; npe_algorithm : LockAlgorithm; npe_epoch : Z }.
Definition npe_policy (e : NamespacePolicyEntry) : LockPolicy :=
  {| algorithm := npe_algorithm e; epoch := npe_epoch e |}.

Inductive ReadResult :=
| ReadAssertFencing (o : AssertOutcome)
| ReadInspectPath (info : PathInfo)
| ReadBool (b : bool)
| ReadOwnerLocks (alive : bool) (locks : list OwnedLock)
| ReadDumpPage (page : LockDumpPage)
| ReadEdge (edge : option WaitEdge)
| ReadNamespacePolicy (algorithm : LockAlgorithm) (explicit : bool) (epoch : Z)
| ReadNamespaceList (namespaces : list NamespacePolicyEntry).

Inductive ForwardError :=
| NotLeader (leader : option (Z * NodeMeta))
| NotHosted
| Unreachable (msg : str)
| ForwardOther (msg : str).

Section reads.
Context `{!Bincode StoredRecord, !RocksDb}.

(** ** The lock dump *)

Definition DUMP_RAW_SCAN_CAP : Z := 65536.

(** The memoized liveness probe of [dump_owner_holds] and
    [namespace_has_live_locks]. *)
Definition memo_alive (db : DB) (group : GroupId) (now_ms : Z) (owner : str) (memo : gmap str bool)
    : result (bool * gmap str bool) :=
  match memo !! owner with
  | Some alive => Ok (alive, memo)
  | None =>
      alive ← match get_cf db CF_OWNER_ALIVE (group_key group (alive_key owner)) with
              | Some raw => rec ← decode_record raw; Ok (is_some (live_str rec now_ms))
              | None => Ok false
              end;
      Ok (alive, <[owner := alive]> memo)
  end.

(** The fence of a write hold, read leniently. *)
Definition dump_fence (db : DB) (group : GroupId) (now_ms : Z) (held : HeldLock) : option Z :=
  match hl_mode held with
  | Write =>
      match get_cf db CF_FENCES (group_key group (fence_key (key_path held))) with
      | Some raw =>
          match decode_record raw with
          | Ok record => match live_str record now_ms with Some s => parse_i64 s | None => None end
          | Err _ => None
          end
      | None => None
      end
  | Read => None
  end.

Record dump_state := {
  ds_entries : list LockEntry;
  ds_memo : gmap str bool;
  ds_raw : Z;
  ds_next : option bytes
}.

Definition dump_visit (db : DB) (group : GroupId) (now_ms page : Z) : visitor dump_state :=
  λ full_key v st,
  let k := drop (length (group_prefix group)) full_key in
  if (page <=? len (ds_entries st)) || (DUMP_RAW_SCAN_CAP <=? ds_raw st)
  then Ok ({| ds_entries := ds_entries st; ds_memo := ds_memo st; ds_raw := ds_raw st;
              ds_next := Some k |}, false)
  else
    match owner_hold now_ms k v with
    | None => Ok ({| ds_entries := ds_entries st; ds_memo := ds_memo st; ds_raw := ds_raw st + 1;
                     ds_next := ds_next st |}, true)
    | Some (owner, held) =>
        '(alive, memo) ← memo_alive db group now_ms owner (ds_memo st);
        Ok ({| ds_entries :=
                 if (alive : bool)
                 then ds_entries st ++ [{| le_owner := owner; le_path := hl_path held;
                                           le_mode := hl_mode held;
                                           le_fence := dump_fence db group now_ms held |}]
                 else ds_entries st;
               ds_memo := memo; ds_raw := ds_raw st + 1; ds_next := ds_next st |}, true)
    end.

Definition dump_owner_holds (db : DB) (group : GroupId) (now_ms : Z) (cursor : option bytes) (page : Z)
    : result LockDumpPage :=
  let gp := group_prefix group in
  let start := match cursor with Some c => group_key group c | None => gp end in
  st ← scan_with_overlay db CF_OWNER_HOLDS None (Some start) (prefix_upper_bound gp)
         (dump_visit db group now_ms page)
         {| ds_entries := []; ds_memo := ∅; ds_raw := 0; ds_next := None |};
  Ok {| entries := ds_entries st; next_cursor := ds_next st |}.

(** ** Namespace settings *)

Definition settings_visit (group : GroupId) (now_ms : Z) : visitor (list NamespacePolicyEntry) :=
  λ full_key v namespaces,
  match r ← decode_record_lenient v; live_str r now_ms with
  | None => Ok (namespaces, true)
  | Some raw =>
      match from_utf8 (drop (length (group_prefix group)) full_key) with
      | Some namespace =>
          policy ← parse_namespace_policy_value raw;
          Ok (namespaces ++ [{| npe_namespace := namespace; npe_algorithm := algorithm policy;
                                npe_epoch := epoch policy |}], true)
      | None => Ok (namespaces, true)
      end
  end.

Definition entry_le (a b : NamespacePolicyEntry) : Prop := bytes_le (npe_namespace a) (npe_namespace b).
#[export] Instance entry_le_dec : RelDecision entry_le.
Proof. intros a b. unfold entry_le. apply _. Defined.

(** [dedup_by]: an entry with the namespace of the one kept before it goes. *)
Fixpoint dedup_entries (prev : option str) (l : list NamespacePolicyEntry) : list NamespacePolicyEntry :=
  match l with
  | [] => []
  | e :: l =>
      if bool_decide (prev = Some (npe_namespace e)) then dedup_entries prev l
      else e :: dedup_entries (Some (npe_namespace e)) l
  end.

Definition list_namespace_settings (db : DB) (group : GroupId) (now_ms : Z)
    : result (list NamespacePolicyEntry) :=
  let gp := group_prefix group in
  namespaces ← scan_with_overlay db CF_NAMESPACE_SETTINGS None (Some gp) (prefix_upper_bound gp)
                 (settings_visit group now_ms) [];
  Ok (dedup_entries None (merge_sort entry_le namespaces)).

(** ** Live locks of a namespace *)

Definition has_locks_visit (db : DB) (group : GroupId) (now_ms : Z) (namespace : str)
    : visitor (bool * gmap str bool) := λ full_key v '(found, memo),
  if (found : bool) then Ok ((found, memo), false)
  else
    let key := drop (length (group_prefix group)) full_key in
    match owner_hold now_ms key v with
    | None => Ok ((found, memo), true)
    | Some (owner, held) =>
        if negb (namespace_contains_path namespace (hl_path held)) then Ok ((found, memo), true)
        else
          '(alive, memo) ← memo_alive db group now_ms owner memo;
          if (alive : bool) then Ok ((true, memo), false) else Ok ((found, memo), true)
    end.

Definition namespace_has_live_locks (db : DB) (group : GroupId) (now_ms : Z) (namespace : str)
    : result bool :=
  let gp := group_prefix group in
  '(found, _) ← scan_with_overlay db CF_OWNER_HOLDS None (Some gp) (prefix_upper_bound gp)
                  (has_locks_visit db group now_ms namespace) (false, ∅);
  Ok found.

(** ** Dispatch *)

Definition run_read {A} (m : txm ReadTxn A) (txn : ReadTxn) : result A :=
  '(a, _) ← m txn; Ok a.

(** [wall] is the node's wall clock. *)
Definition execute_read_blocking (db : DB) (group : GroupId) (op : ReadOp)
    (default_algorithm : LockAlgorithm) (wall : Z) : result ReadResult :=
  let now_ms := Z.max wall (read_last_now db group) in
  let txn := {| rt_db := db; rt_group := group; rt_now_ms := now_ms |} in
  match op with
  | AssertFencing namespace owner token paths =>
      o ← run_read (assert_fencing_inner namespace owner token paths) txn; Ok (ReadAssertFencing o)
  | InspectPath namespace path =>
      info ← run_read (inspect_path_inner namespace path) txn; Ok (ReadInspectPath info)
  | IsBlocking namespace path owner reason =>
      b ← run_read (is_blocking_inner namespace path owner reason) txn; Ok (ReadBool b)
  | IsOwnerAlive owner => b ← run_read (is_owner_alive_inner owner) txn; Ok (ReadBool b)
  | ListOwnerLocks owner =>
      '(alive, locks) ← run_read (list_owner_locks_inner owner) txn; Ok (ReadOwnerLocks alive locks)
  | DumpPage cursor page => p ← dump_owner_holds db group now_ms cursor page; Ok (ReadDumpPage p)
  | ReadWaitEdge owner => e ← run_read (read_wait_edge owner) txn; Ok (ReadEdge e)
  | GetNamespacePolicy namespace =>
      '(policy, explicit) ←
        run_read (get_namespace_policy_record_inner namespace default_algorithm) txn;
      Ok (ReadNamespacePolicy (algorithm policy) explicit (epoch policy))
  | ListNamespaces => l ← list_namespace_settings db group now_ms; Ok (ReadNamespaceList l)
  | NamespaceHasLocks namespace =>
      b ← namespace_has_live_locks db group now_ms namespace; Ok (ReadBool b)
  end.
End reads.

(** ** What the scans find *)
Section scans.
Context `{!Bincode StoredRecord, !RocksDb} (db : DB) (g : GroupId) (now : Z).

Lemma group_scan {S} c cursor (visit visit' : visitor S) (st : S) :
  (∀ k v st, visit' (group_key g k) v st = visit k v st) →
  scan_with_overlay db c None
    (Some match cursor with Some k => group_key g k | None => group_prefix g end)
    (prefix_upper_bound (group_prefix g)) visit' st =
  visit_all visit st (btree_range cursor None (cf_map (kv_of_db db g now) c)).
Proof.
  intros Hv.
  assert (∀ k, cf_map (kv_of_db db g now) c !! k = view db c None (group_key g k)) as Hview.
  { intros k. rewrite kv_of_db_lookup. unfold view. simpl. by rewrite lookup_empty. }
  rewrite (scan_overlay_scoped db c None g _ Hview cursor None).
  - by apply visit_all_scoped.
  - intros fk. apply (scoped_range g cursor None).
Qed.

Lemma drop_prefix_key k : drop (length (group_prefix g)) (group_key g k) = k.
Proof. unfold group_key. apply drop_app_length. Qed.

(** Liveness as the stored record tells it. *)
Definition stored_alive (owner : str) : bool :=
  match get_cf db CF_OWNER_ALIVE (group_key g (alive_key owner)) with
  | Some raw => match decode_record raw with Ok rec => is_some (live_str rec now) | Err _ => false end
  | None => false
  end.
Definition alive_decodes : Prop :=
  ∀ owner raw, get_cf db CF_OWNER_ALIVE (group_key g (alive_key owner)) = Some raw →
    ∃ rec, decode_record raw = Ok rec.
Definition memo_ok (memo : gmap str bool) : Prop := ∀ o b, memo !! o = Some b → b = stored_alive o.

Lemma memo_alive_ok owner memo :
  alive_decodes → memo_ok memo →
  ∃ memo', memo_alive db g now owner memo = Ok (stored_alive owner, memo') ∧ memo_ok memo'.
Proof.
  intros Hd Hm. unfold memo_alive. destruct (memo !! owner) as [b|] eqn:Hb.
  { exists memo. by rewrite (Hm _ _ Hb). }
  exists (<[owner := stored_alive owner]> memo). split.
  - unfold stored_alive, mbind, result_bind.
    destruct (get_cf db CF_OWNER_ALIVE (group_key g (alive_key owner))) as [raw|] eqn:Hg; [|done].
    destruct (Hd _ _ Hg) as [rec ->]. done.
  - intros o b. rewrite lookup_insert. case_decide; [by intros [= <-]; subst|apply Hm].
Qed.

(** A row of the dump: the hold behind a key, when its owner is alive. *)
Definition dump_row (k v : bytes) : option LockEntry :=
  match owner_hold now k v with
  | Some (owner, held) =>
      if stored_alive owner
      then Some {| le_owner := owner; le_path := hl_path held; le_mode := hl_mode held;
                   le_fence := dump_fence db g now held |}
      else None
  | None => None
  end.
Definition dump_rows : list (bytes * option LockEntry) :=
  (λ x, (x.1, dump_row x.1 x.2)) <$> btree_range None None (cf_map (kv_of_db db g now) CF_OWNER_HOLDS).
End scans.

(** A page of at most [page] entries, starting at the cursor. *)
Fixpoint page_rows (page raw : Z) (rows : list (bytes * option LockEntry))
    : list LockEntry * option bytes :=
  match rows with
  | [] => ([], None)
  | (k, row) :: rows =>
      if (page <=? 0) || (DUMP_RAW_SCAN_CAP <=? raw) then ([], Some k)
      else
        let '(es, next) := page_rows (match row with Some _ => page - 1 | None => page end) (raw + 1) rows in
        (match row with Some e => e :: es | None => es end, next)
  end.
Definition from_cursor {A} (cursor : option bytes) (rows : list (bytes * A)) : list (bytes * A) :=
  filter (λ x, in_range cursor None x.1 = true) rows.
Definition dump_page (rows : list (bytes * option LockEntry)) (cursor : option bytes) (page : Z)
    : LockDumpPage :=
  let '(es, next) := page_rows page 0 (from_cursor cursor rows) in
  {| entries := es; next_cursor := next |}.

Section dump.
Context `{!Bincode StoredRecord, !RocksDb} (db : DB) (g : GroupId) (now : Z).

Definition dump_visit_rel (page : Z) : visitor dump_state := λ k v st,
  dump_visit db g now page (group_key g k) v st.

Lemma snoc_budget {A} page (es : list A) e : page - len (es ++ [e]) = page - len es - 1.
Proof. unfold len. rewrite length_app. simpl. lia. Qed.

#[local] Ltac rest st' := cbn [fst snd]; lazymatch goal with
  IH : ∀ _, _ |- context [visit_all _ ?st0 _] => destruct (IH st0) as (st' & -> & Hst'); [done|done|] end.

Lemma dump_visit_page page l st :
  alive_decodes db g → memo_ok db g now (ds_memo st) → ds_next st = None →
  ∃ st', visit_all (dump_visit_rel page) st l = Ok st' ∧
    let '(es, next) := page_rows (page - len (ds_entries st)) (ds_raw st)
      ((λ x, (x.1, dump_row db g now x.1 x.2)) <$> l) in
    ds_entries st' = ds_entries st ++ es ∧ ds_next st' = next.
Proof.
  intros Hd. revert st. induction l as [|[k v] l IH]; intros st Hm Hn.
  { exists st. cbn. by rewrite app_nil_r. }
  rewrite fmap_cons. cbn [visit_all fst snd page_rows]. unfold dump_visit_rel at 1, dump_visit.
  rewrite drop_prefix_key.
  replace (page <=? len (ds_entries st)) with (page - len (ds_entries st) <=? 0) by lia.
  destruct ((page - len (ds_entries st) <=? 0) || (DUMP_RAW_SCAN_CAP <=? ds_raw st)).
  { eexists. split; [reflexivity|]. cbn. by rewrite app_nil_r. }
  unfold dump_row at 1 3.
  destruct (owner_hold now k v) as [[owner held]|].
  - destruct (memo_alive_ok db g now owner (ds_memo st) Hd Hm) as (memo' & -> & Hm').
    unfold mbind, result_bind.
    destruct (stored_alive db g now owner); rest st'; exists st'; (split; [reflexivity|]);
      cbn [ds_entries ds_raw] in Hst'.
    + rewrite snoc_budget in Hst'. destruct (page_rows _ _ _) as [es next]. by rewrite <- app_assoc in Hst'.
    + by destruct (page_rows _ _ _) as [es next].
  - rest st'. exists st'. split; [reflexivity|].
    cbn [ds_entries ds_raw] in Hst'. by destruct (page_rows _ _ _) as [es next].
Qed.

Lemma from_cursor_range (cursor : option bytes) (m : gmap bytes bytes) :
  from_cursor cursor (btree_range None None m) = btree_range cursor None m.
Proof.
  unfold from_cursor, btree_range. rewrite list_filter_filter. apply list_filter_iff.
  intros [k v]. cbn. tauto.
Qed.

(** A page of the dump is the page of the group's rows. *)
Lemma dump_owner_holds_page cursor page :
  alive_decodes db g →
  dump_owner_holds db g now cursor page = Ok (dump_page (dump_rows db g now) cursor page).
Proof.
  intros Hd. unfold dump_owner_holds. cbv zeta.
  rewrite (group_scan db g now CF_OWNER_HOLDS cursor (dump_visit_rel page)) by done.
  edestruct (dump_visit_page page (btree_range cursor None (cf_map (kv_of_db db g now) CF_OWNER_HOLDS))
    {| ds_entries := []; ds_memo := ∅; ds_raw := 0; ds_next := None |}) as (st' & -> & Hst');
    [done|by intros o b|done|].
  unfold mbind, result_bind. cbn [ds_entries ds_raw] in Hst'. change (len []) with 0 in Hst'.
  rewrite Z.sub_0_r in Hst'. unfold dump_page, dump_rows.
  assert (∀ l, from_cursor cursor ((λ x, (x.1, dump_row db g now x.1 x.2)) <$> l) =
            (λ x, (x.1, dump_row db g now x.1 x.2)) <$> from_cursor cursor l) as Hf.
  { intros l. unfold from_cursor. induction l as [|x l IH]; [done|]. rewrite fmap_cons, !filter_cons.
    cbn [fst]. case_decide; rewrite ?fmap_cons; by rewrite IH. }
  rewrite Hf, from_cursor_range. destruct (page_rows _ _ _) as [es next]. destruct Hst' as [-> ->]. done.
Qed.
End dump.

(** ** Live locks in a namespace *)
Section live_locks.
Context `{!Bincode StoredRecord, !RocksDb} (db : DB) (g : GroupId) (now : Z).

(** The key holds a lock of a live owner inside the namespace. *)
Definition live_inside (namespace : str) (x : bytes * bytes) : bool :=
  match owner_hold now x.1 x.2 with
  | Some (owner, held) => namespace_contains_path namespace (hl_path held) && stored_alive db g now owner
  | None => false
  end.

Lemma has_locks_visit_all namespace l memo :
  alive_decodes db g → memo_ok db g now memo →
  ∃ memo', visit_all (λ k v st, has_locks_visit db g now namespace (group_key g k) v st) (false, memo) l =
    Ok (existsb (live_inside namespace) l, memo').
Proof.
  intros Hd. revert memo. induction l as [|[k v] l IH]; intros memo Hm; [by exists memo|].
  cbn [visit_all existsb]. unfold has_locks_visit at 1. rewrite drop_prefix_key.
  unfold live_inside at 1. cbn [fst snd].
  destruct (owner_hold now k v) as [[owner held]|]; [|by apply IH].
  destruct (namespace_contains_path namespace (hl_path held)); cbn [negb andb]; [|by apply IH].
  destruct (memo_alive_ok db g now owner memo Hd Hm) as (memo' & -> & Hm').
  unfold mbind, result_bind. destruct (stored_alive db g now owner); [by exists memo'|by apply IH].
Qed.

Lemma namespace_has_live_locks_run namespace :
  alive_decodes db g →
  namespace_has_live_locks db g now namespace =
  Ok (existsb (live_inside namespace) (btree_range None None (cf_map (kv_of_db db g now) CF_OWNER_HOLDS))).
Proof.
  intros Hd. unfold namespace_has_live_locks. cbv zeta.
  rewrite (group_scan db g now CF_OWNER_HOLDS None
    (λ k v st, has_locks_visit db g now namespace (group_key g k) v st)) by done.
  edestruct (has_locks_visit_all namespace (btree_range None None (cf_map (kv_of_db db g now) CF_OWNER_HOLDS)) ∅ Hd) as [memo ->]; [by intros o b|]. done.
Qed.
End live_locks.
