(* ===== verification/Gossip.v ===== *)
(** * The gossip layer ([src/cluster/gossip.rs])

    One task owns the SWIM instance of the [foca] library and drives it from
    datagrams, timers, manual ticks and resolved seeds.  After every input it
    carries out what the library asked for: datagrams to queue for the socket
    writer, timers to schedule, notifications that change the published catalog.
    The library is a parameter. *)

From Stdlib Require Import ZArith NArith Lia Strings.Byte.
From stdpp Require Import sorting countable base numbers gmap strings list.
From S2P Require Import Prelude RustStd Net Placement Reads.
Local Open Scope Z_scope.

(** ** Identities *)

Record NodeIdentity := { ni_node_id : Z; ni_meta : NodeMeta; incarnation : Z; config_fingerprint : Z }.
Definition addr (i : NodeIdentity) : str := gossip_addr (ni_meta i).
Definition win_addr_conflict (self adversary : NodeIdentity) : bool :=
  (ni_node_id self =? ni_node_id adversary) && (incarnation adversary <? incarnation self).
Definition renew (i : NodeIdentity) : option NodeIdentity :=
  Some {| ni_node_id := ni_node_id i; ni_meta := ni_meta i; incarnation := (incarnation i + 1) mod 2 ^ 64;
          config_fingerprint := config_fingerprint i |}.
Abbreviation MemberMap := (gmap Z NodeIdentity).

Record GossipOptions := {
  cluster_size : Z;
  max_packet_size : Z;
  seed_announce_interval : Z;
  manual_gossip_interval : option Z;
  foca_periodic : bool;
  opt_send_queue_depth : Z
}.
Definition default_gossip_options : GossipOptions :=
  {| cluster_size := 32; max_packet_size := 1400; seed_announce_interval := 5000;
     manual_gossip_interval := None; foca_periodic := true; opt_send_queue_depth := 1024 |}.
(** The checks of [start_gossip_with_options]. *)
Definition check_options (o : GossipOptions) : result unit :=
  if negb (0 <? opt_send_queue_depth o) then Err (Anyhow "gossip send_queue_depth must be > 0")
  else if seed_announce_interval o =? 0 then Err (Anyhow "gossip seed_announce_interval must be > 0")
  else match manual_gossip_interval o with
       | Some i => if i =? 0 then Err (Anyhow "gossip manual_gossip_interval must be > 0 when enabled") else Ok tt
       | None => Ok tt
       end.

(** ** The library *)

Inductive Notification :=
| MemberUp (id : NodeIdentity)
| MemberDown (id : NodeIdentity)
| Rename (old new : NodeIdentity)
| Rejoin (id : NodeIdentity)
| Idle
| Active
| Defunct.

(** A call of the library: whether it failed, the new instance, and what it asks
    of the runtime, in order. *)
Class Foca := {
  Swim : Type;
  Timer : Type;
  foca_new : NodeIdentity → Swim;
  Asks : Type := (list (NodeIdentity * bytes) * list (Z * Timer) * list Notification)%type;
  handle_data : bytes → Swim → bool * Swim * Asks;
  handle_timer : Timer → Swim → bool * Swim * Asks;
  foca_gossip : Swim → bool * Swim * Asks;
  foca_announce : NodeIdentity → Swim → bool * Swim * Asks;
  num_members : Swim → Z;
  iter_members : Swim → list NodeIdentity
}.

Record PendingTimer `{!Foca} := { fire_at : Z; timer : Timer; t_seq : Z }.
Record SeedTarget := { seed : str; s_addr : SocketAddr; s_target : NodeIdentity }.
Record OutboundDatagram := { dest : SocketAddr; data : bytes }.
(** The counters of [GossipMetrics]. *)
Inductive counter :=
| member_count | timer_backlog | send_queue_depth | bad_datagrams | member_up | member_down | renamed
| rejoins | idle | send_failures | send_dropped | seed_resolve_failures | unresolved_targets
| local_incarnation.
#[export] Instance counter_eq_dec : EqDecision counter.
Proof. solve_decision. Defined.
Definition GossipMetrics : Type := counter → Z.
Definition store (c : counter) (v : Z) (m : GossipMetrics) : GossipMetrics :=
  λ c', if decide (c' = c) then v else m c'.
Definition fetch_add (c : counter) (d : Z) (m : GossipMetrics) : GossipMetrics := store c (m c + d) m.

Lemma store_eq c v m : store c v m c = v.
Proof. unfold store. by rewrite decide_True. Qed.
Lemma store_ne c c' v m : c' ≠ c → store c v m c' = m c'.
Proof. intros. unfold store. by rewrite decide_False. Qed.
Lemma fetch_add_eq c d m : fetch_add c d m c = m c + d.
Proof. apply store_eq. Qed.
Lemma fetch_add_ne c c' d m : c' ≠ c → fetch_add c d m c' = m c'.
Proof. apply store_ne. Qed.
Ltac counters := repeat (rewrite fetch_add_eq || rewrite store_eq || rewrite fetch_add_ne by done || rewrite store_ne by done).

Section gossip.
Context `{!Foca} (xxh3_64 : bytes → Z).

(** ** Seeds *)

Definition seed_hash (seed : str) : Z := Z.shiftr (xxh3_64 seed) 16.
(** [lookup] is the DNS resolution. *)
Definition resolve_seed (lookup : str → option (list SocketAddr)) (seed : str) : option (SocketAddr * NodeIdentity) :=
  addrs ← lookup seed;
  addr ← head addrs;
  Some (addr, {| ni_node_id := Z.lxor u64_max (seed_hash seed);
                 ni_meta := {| name := bs "seed:" ++ seed; raft_addr := []; public_addr := [];
                               gossip_addr := display_socket_addr addr |};
                 incarnation := 0; config_fingerprint := 0 |}).
(** One round of the resolver task: the targets, and how many seeds failed. *)
Definition resolve_round (lookup : str → option (list SocketAddr)) (local_gossip_addr : str) (seeds : list str)
    : list SeedTarget * Z :=
  foldl (λ acc seed,
    match resolve_seed lookup seed with
    | Some (a, target) =>
        if bool_decide (display_socket_addr a = local_gossip_addr) then acc
        else (acc.1 ++ [{| seed := seed; s_addr := a; s_target := target |}], acc.2)
    | None => (acc.1, acc.2 + 1)
    end) ([], 0) seeds.

Definition is_placeholder (id : Z) (ident : NodeIdentity) : bool :=
  (u32_max <? id) && bool_decide (raft_addr (ni_meta ident) = []).

(** The advertised address; [probe] is the local address of an outbound socket. *)
Definition advertised_addr (bind : SocketAddr) (advertise_override : option str) (probe_target : option SocketAddr)
    (probe : SocketAddr → unit + SocketAddr) : result SocketAddr :=
  match advertise_override with
  | Some advertised => of_option "advertise addr" (parse_socket_addr advertised)
  | None =>
      if negb (is_unspecified (sa_ip bind)) then Ok bind
      else
        let target := default {| sa_ip := V4 [8; 8; 8; 8]; sa_port := 53; sa_scope := 0 |} probe_target in
        match probe target with
        | inl _ => Err (Anyhow "probing local address")
        | inr local => Ok {| sa_ip := sa_ip local; sa_port := sa_port bind; sa_scope := 0 |}
        end
  end.

(** ** Timers *)

(** [Ord for PendingTimer], reversed: what the heap yields first. *)
Definition earlier (a b : PendingTimer) : bool :=
  (fire_at a <? fire_at b) || ((fire_at a =? fire_at b) && (t_seq a <=? t_seq b)).
(** The heap's greatest element and the others. *)
Fixpoint heap_pop (h : list PendingTimer) : option (PendingTimer * list PendingTimer) :=
  match h with
  | [] => None
  | t :: h =>
      match heap_pop h with
      | Some (m, rest) => if earlier t m then Some (t, m :: rest) else Some (m, t :: rest)
      | None => Some (t, [])
      end
  end.
Definition pop_due_timer (h : list PendingTimer) (now : Z) : option (PendingTimer * list PendingTimer) :=
  match heap_pop h with
  | Some (t, rest) => if fire_at t <=? now then Some (t, rest) else None
  | None => None
  end.
Fixpoint due_timers (fuel : nat) (h : list PendingTimer) (now : Z) : list PendingTimer * list PendingTimer :=
  match fuel with
  | O => ([], h)
  | S fuel =>
      match pop_due_timer h now with
      | Some (t, rest) => let '(ts, h) := due_timers fuel rest now in (t :: ts, h)
      | None => ([], h)
      end
  end.

(** ** Addresses and the writer's queue *)

Definition resolve_member_addr (to : NodeIdentity) (book : gmap Z SocketAddr) : option SocketAddr * gmap Z SocketAddr :=
  match parse_socket_addr (gossip_addr (ni_meta to)) with
  | Some a => (Some a, <[ni_node_id to := a]> book)
  | None => (book !! ni_node_id to, book)
  end.

Record GossipLoop := {
  swim : Swim;
  timers : list PendingTimer;
  timer_seq : Z;
  addr_book : gmap Z SocketAddr;
  seed_targets : gmap str SeedTarget;
  local : NodeIdentity;
  catalog : MemberMap;
  send_queue : list OutboundDatagram;
  metrics : GossipMetrics
}.
(** The fields the steps below change. *)
Definition set_swim (x : Swim) (g : GossipLoop) : GossipLoop :=
  {| swim := x; timers := timers g; timer_seq := timer_seq g; addr_book := addr_book g;
     seed_targets := seed_targets g; local := local g; catalog := catalog g; send_queue := send_queue g;
     metrics := metrics g |}.
Definition set_timers (ts : list PendingTimer) (n : Z) (g : GossipLoop) : GossipLoop :=
  {| swim := swim g; timers := ts; timer_seq := n; addr_book := addr_book g;
     seed_targets := seed_targets g; local := local g; catalog := catalog g; send_queue := send_queue g;
     metrics := metrics g |}.
Definition set_book (b : gmap Z SocketAddr) (s : gmap str SeedTarget) (g : GossipLoop) : GossipLoop :=
  {| swim := swim g; timers := timers g; timer_seq := timer_seq g; addr_book := b;
     seed_targets := s; local := local g; catalog := catalog g; send_queue := send_queue g;
     metrics := metrics g |}.
Definition set_members (l : NodeIdentity) (c : MemberMap) (g : GossipLoop) : GossipLoop :=
  {| swim := swim g; timers := timers g; timer_seq := timer_seq g; addr_book := addr_book g;
     seed_targets := seed_targets g; local := l; catalog := c; send_queue := send_queue g;
     metrics := metrics g |}.
Definition set_queue (q : list OutboundDatagram) (g : GossipLoop) : GossipLoop :=
  {| swim := swim g; timers := timers g; timer_seq := timer_seq g; addr_book := addr_book g;
     seed_targets := seed_targets g; local := local g; catalog := catalog g; send_queue := q;
     metrics := metrics g |}.
Definition set_metrics (f : GossipMetrics → GossipMetrics) (g : GossipLoop) : GossipLoop :=
  {| swim := swim g; timers := timers g; timer_seq := timer_seq g; addr_book := addr_book g;
     seed_targets := seed_targets g; local := local g; catalog := catalog g; send_queue := send_queue g;
     metrics := f (metrics g) |}.

(** [depth] is the capacity of the writer's channel. *)
Definition enqueue_send (depth : Z) (d : OutboundDatagram) (g : GossipLoop) : GossipLoop :=
  let g := set_metrics (fetch_add send_queue_depth 1) g in
  if len (send_queue g) <? depth then set_queue (send_queue g ++ [d]) g
  else set_metrics (λ m, fetch_add send_dropped 1 (fetch_add send_queue_depth (-1) m)) g.
(** One datagram of the writer task; [sent] is what the socket answers. *)
Definition socket_writer (sent : bool) (g : GossipLoop) : GossipLoop :=
  match send_queue g with
  | [] => g
  | _ :: q =>
      let g := set_metrics (fetch_add send_queue_depth (-1)) (set_queue q g) in
      if sent then g else set_metrics (fetch_add send_failures 1) g
  end.

(** ** One iteration of the loop *)

Definition no_asks : Asks := ([], [], []).
Definition and_asks (a b : Asks) : Asks := (a.1.1 ++ b.1.1, a.1.2 ++ b.1.2, a.2 ++ b.2).

(** An input: a received datagram or a failed read, due timers, a manual tick,
    resolved seeds. *)
Inductive input :=
| Datagram (d : bytes)
| RecvFailed
| TimersDue (now : Z)
| GossipTick
| Seeds (targets : list SeedTarget).

Fixpoint handle_timers (ts : list PendingTimer) (x : Swim) : Swim * Asks :=
  match ts with
  | [] => (x, no_asks)
  | t :: ts =>
      let '(_, x, a) := handle_timer (timer t) x in
      let '(x, b) := handle_timers ts x in (x, and_asks a b)
  end.
Fixpoint announce_all (ts : list NodeIdentity) (x : Swim) : Swim * Asks :=
  match ts with
  | [] => (x, no_asks)
  | t :: ts =>
      let '(_, x, a) := foca_announce t x in
      let '(x, b) := announce_all ts x in (x, and_asks a b)
  end.
Definition seed_le (a b : str * SeedTarget) : Prop := bytes_le a.1 b.1.
#[local] Instance seed_le_dec a b : Decision (seed_le a b).
Proof. unfold seed_le, bytes_le. apply _. Defined.
(** The values of the [BTreeMap] in order. *)
Definition seed_values (m : gmap str SeedTarget) : list SeedTarget := snd <$> merge_sort seed_le (map_to_list m).

Definition take_input (i : input) (g : GossipLoop) : GossipLoop * Asks :=
  match i with
  | Datagram d =>
      let '(failed, x, a) := handle_data d (swim g) in
      ((if failed : bool then set_metrics (fetch_add bad_datagrams 1) else id) (set_swim x g), a)
  | RecvFailed => (g, no_asks)
  | TimersDue now =>
      let '(due, rest) := due_timers (length (timers g)) (timers g) now in
      let '(x, a) := handle_timers due (swim g) in (set_swim x (set_timers rest (timer_seq g) g), a)
  | GossipTick => let '(_, x, a) := foca_gossip (swim g) in (set_swim x g, a)
  | Seeds targets =>
      let g := foldl (λ g t, set_book (<[ni_node_id (s_target t) := s_addr t]> (addr_book g))
                                      (<[seed t := t]> (seed_targets g)) g) g targets in
      if num_members (swim g) <=? 1 then
        let '(x, a) := announce_all (s_target <$> seed_values (seed_targets g)) (swim g) in (set_swim x g, a)
      else (g, no_asks)
  end.

Definition send_one (depth : Z) (g : GossipLoop) (s : NodeIdentity * bytes) : GossipLoop :=
  let '(dest, book) := resolve_member_addr s.1 (addr_book g) in
  let g := set_book book (seed_targets g) g in
  match dest with
  | Some dest => enqueue_send depth {| dest := dest; data := s.2 |} g
  | None => set_metrics (fetch_add unresolved_targets 1) g
  end.
(** [now] gives the instant at which each timer is pushed. *)
Definition schedule_one (now : Z → Z) (g : GossipLoop) (s : Z * Timer) : GossipLoop :=
  let n := (timer_seq g + 1) mod 2 ^ 64 in
  set_timers (timers g ++ [{| fire_at := now n + s.1; timer := s.2; t_seq := n |}]) n g.
Definition handle_notification (g : GossipLoop) (n : Notification) : bool * GossipLoop :=
  match n with
  | MemberUp _ => (true, set_metrics (fetch_add member_up 1) g)
  | MemberDown _ => (true, set_metrics (fetch_add member_down 1) g)
  | Rename _ _ => (true, set_metrics (fetch_add renamed 1) g)
  | Rejoin new => (true, set_members new (catalog g)
                           (set_metrics (λ m, store local_incarnation (incarnation new) (fetch_add rejoins 1 m)) g))
  | Idle => (true, set_metrics (fetch_add idle 1) g)
  | Active | Defunct => (false, g)
  end.
Fixpoint notify_all (ns : list Notification) (g : GossipLoop) : bool * GossipLoop :=
  match ns with
  | [] => (false, g)
  | n :: ns => let '(c, g) := handle_notification g n in let '(c', g) := notify_all ns g in (c || c', g)
  end.
(** The catalog: the last of several members with one id counts. *)
Definition published (x : Swim) (local : NodeIdentity) : MemberMap :=
  <[ni_node_id local := local]>
    (foldl (λ m i, <[ni_node_id i := i]> m) ∅
      (List.filter (λ i, negb (is_placeholder (ni_node_id i) i)) (iter_members x))).
Definition publish (g : GossipLoop) : GossipLoop :=
  let members := published (swim g) (local g) in
  let book := map_fold (λ _ (m : NodeIdentity) b,
                match parse_socket_addr (gossip_addr (ni_meta m)) with
                | Some a => <[ni_node_id m := a]> b
                | None => b
                end) (addr_book g) members in
  set_metrics (store member_count (Z.of_nat (size members)))
    (set_members (local g) members (set_book book (seed_targets g) g)).

Definition iteration (depth : Z) (now : Z → Z) (i : input) (g : GossipLoop) : GossipLoop :=
  let '(g, asks) := take_input i g in
  let g := foldl (send_one depth) g asks.1.1 in
  let g := foldl (schedule_one now) g asks.1.2 in
  let g := set_metrics (store timer_backlog (len (timers g))) g in
  let '(membership_changed, g) := notify_all asks.2 g in
  if membership_changed : bool then publish g else g.

Definition start_gossip (local : NodeIdentity) : GossipLoop :=
  {| swim := foca_new local; timers := []; timer_seq := 0; addr_book := ∅; seed_targets := ∅; local := local;
     catalog := {[ni_node_id local := local]}; send_queue := [];
     metrics := store local_incarnation (incarnation local) (store member_count 1 (λ _, 0)) |}.
End gossip.

(** ** Facts *)

Section facts.
Context `{!Foca} (xxh3_64 : bytes → Z).

Lemma earlier_total (a b : PendingTimer) : earlier a b = false → earlier b a = true.
Proof.
  unfold earlier. intros [H1 H2]%orb_false_iff. apply andb_false_iff in H2.
  apply orb_true_iff. rewrite andb_true_iff, Z.ltb_lt, Z.eqb_eq, Z.leb_le in *.
  rewrite Z.ltb_ge in H1. rewrite Z.eqb_neq, Z.leb_gt in H2. lia.
Qed.
Lemma earlier_fires (a b : PendingTimer) : earlier a b = true → fire_at a ≤ fire_at b.
Proof. unfold earlier. rewrite orb_true_iff, andb_true_iff, Z.ltb_lt, Z.eqb_eq. lia. Qed.
Lemma earlier_refl (a : PendingTimer) : earlier a a = true.
Proof. unfold earlier. rewrite orb_true_iff, andb_true_iff, Z.eqb_eq, Z.leb_le. lia. Qed.
Lemma earlier_trans (a b c : PendingTimer) : earlier a b = true → earlier b c = true → earlier a c = true.
Proof. unfold earlier. rewrite !orb_true_iff, !andb_true_iff, !Z.ltb_lt, !Z.eqb_eq, !Z.leb_le. lia. Qed.

Lemma heap_pop_spec (h : list PendingTimer) :
  match heap_pop h with
  | Some (m, rest) => m :: rest ≡ₚ h ∧ Forall (λ t, earlier m t = true) rest
  | None => h = []
  end.
Proof.
  induction h as [|t h IH]; [done|]. cbn [heap_pop]. destruct (heap_pop h) as [[m rest]|].
  - destruct IH as [Hp Hm]. destruct (earlier t m) eqn:Ht.
    + split; [by constructor|]. constructor; [done|]. eapply Forall_impl; [exact Hm|]. cbn. eauto using earlier_trans.
    + split; [rewrite <- Hp; by apply perm_swap|]. constructor; [by apply earlier_total|done].
  - subst. done.
Qed.

(** The timers handled at an instant: all that are due and no other, in order. *)
Lemma due_timers_exact (h : list PendingTimer) now fuel :
  (length h ≤ fuel)%nat →
  let '(due, rest) := due_timers fuel h now in
  due ++ rest ≡ₚ h ∧ Forall (λ t, fire_at t ≤ now) due ∧ Forall (λ t, now < fire_at t) rest ∧
  StronglySorted (λ a b, earlier a b = true) due.
Proof.
  revert h. induction fuel as [|fuel IH]; intros h Hf; cbn [due_timers].
  - destruct h; [|cbn in Hf; lia]. repeat split; constructor.
  - unfold pop_due_timer. pose proof (heap_pop_spec h) as Hs. destruct (heap_pop h) as [[m rest]|].
    + destruct Hs as [Hp Hm]. destruct (Z.leb_spec (fire_at m) now) as [Hd|Hd].
      * pose proof (Permutation_length Hp) as Hl. cbn in Hl. specialize (IH rest ltac:(lia)).
        destruct (due_timers fuel rest now) as [due rest']. destruct IH as (Hp' & Hd' & Hr & Hs).
        split; [cbn; by rewrite Hp', Hp|]. split; [by constructor|]. split; [done|].
        constructor; [done|]. rewrite <- Hp' in Hm. by apply Forall_app in Hm as [? _].
      * split; [done|]. split; [constructor|]. split; [|constructor]. rewrite <- Hp. constructor; [done|].
        eapply Forall_impl; [exact Hm|]. intros t Ht%earlier_fires. lia.
    + subst. repeat split; constructor.
Qed.

Lemma high_bits q n : 0 ≤ q < 2 ^ 48 → 64 ≤ n → Z.testbit q n = false.
Proof.
  intros Hq Hn. destruct (decide (q = 0)) as [->|]; [apply Z.bits_0|].
  apply Z.bits_above_log2; [lia|]. apply Z.log2_lt_pow2; [lia|].
  apply Z.lt_le_trans with (2 ^ 48); [lia|]. apply Z.pow_le_mono_r; lia.
Qed.
Lemma lxor_max q : 0 ≤ q < 2 ^ 48 → Z.lxor u64_max q = u64_max - q.
Proof.
  intros Hq. change u64_max with (Z.ones 64). rewrite Z.sub_nocarry_ldiff.
  - apply Z.bits_inj'. intros n Hn. rewrite Z.lxor_spec, Z.ldiff_spec. destruct (decide (n < 64)).
    + rewrite Z.ones_spec_low by lia. by destruct (Z.testbit q n).
    + rewrite Z.ones_spec_high, high_bits by lia. done.
  - apply Z.bits_inj'. intros n Hn. rewrite Z.ldiff_spec, Z.bits_0. destruct (decide (n < 64)).
    + rewrite Z.ones_spec_low by lia. by rewrite andb_false_r.
    + by rewrite high_bits by lia.
Qed.
(** A seed's target is never published. *)
Lemma seeds_are_placeholders lookup s a target :
  (∀ b, 0 ≤ xxh3_64 b < 2 ^ 64) → resolve_seed xxh3_64 lookup s = Some (a, target) →
  is_placeholder (ni_node_id target) target = true.
Proof.
  intros Hx Hr. unfold resolve_seed in Hr. destruct (lookup s) as [l|]; [|done]. cbn in Hr.
  destruct (head l) as [a'|]; [|done]. cbn in Hr. injection Hr as <- <-.
  unfold is_placeholder, seed_hash. cbn [ni_node_id ni_meta raft_addr].
  rewrite bool_decide_true, andb_true_r, Z.shiftr_div_pow2 by done || lia. pose proof (Hx s).
  assert (0 ≤ xxh3_64 s / 2 ^ 16 < 2 ^ 48) by (split; [apply Z.div_pos|apply Z.div_lt_upper_bound]; lia).
  rewrite lxor_max by done. unfold u64_max, u32_max. apply Z.ltb_lt. lia.
Qed.

(** ** Runs *)

Inductive gossip_op := Iterate (now : Z → Z) (i : input) | Write (sent : bool).
Definition gossip_step (depth : Z) (g : GossipLoop) (op : gossip_op) : GossipLoop :=
  match op with
  | Iterate now i => iteration depth now i g
  | Write sent => socket_writer sent g
  end.
Definition gossip_run (depth : Z) (ops : list gossip_op) (g : GossipLoop) : GossipLoop :=
  foldl (gossip_step depth) g ops.

Definition members_ok (g : GossipLoop) : Prop :=
  catalog g !! ni_node_id (local g) = Some (local g) ∧
  metrics g member_count = Z.of_nat (size (catalog g)) ∧
  ∀ id m, catalog g !! id = Some m → ni_node_id m = id ∧ (is_placeholder id m = false ∨ m = local g).
Definition queue_ok (depth : Z) (g : GossipLoop) : Prop :=
  metrics g send_queue_depth = len (send_queue g) ∧ len (send_queue g) ≤ depth.
(** Nothing the published members or the queue are about changes. *)
Definition same_members (g g' : GossipLoop) : Prop :=
  catalog g' = catalog g ∧ local g' = local g ∧ metrics g' member_count = metrics g member_count.
Definition same_queue (g g' : GossipLoop) : Prop :=
  send_queue g' = send_queue g ∧ metrics g' send_queue_depth = metrics g send_queue_depth.

Lemma members_ok_same g g' : same_members g g' → members_ok g → members_ok g'.
Proof. intros (Hc & Hl & Hm). unfold members_ok. by rewrite Hc, Hl, Hm. Qed.
Lemma queue_ok_same depth g g' : same_queue g g' → queue_ok depth g → queue_ok depth g'.
Proof. intros (Hq & Hm). unfold queue_ok. by rewrite Hq, Hm. Qed.
Lemma same_members_trans g1 g2 g3 : same_members g1 g2 → same_members g2 g3 → same_members g1 g3.
Proof. intros (? & ? & ?) (? & ? & ?). repeat split; congruence. Qed.
Lemma same_queue_trans g1 g2 g3 : same_queue g1 g2 → same_queue g2 g3 → same_queue g1 g3.
Proof. intros (? & ?) (? & ?). split; congruence. Qed.

Lemma enqueue_ok depth d g : queue_ok depth g → queue_ok depth (enqueue_send depth d g).
Proof.
  intros [Hm Hl]. unfold enqueue_send. cbn [send_queue set_metrics]. unfold queue_ok, len in *.
  destruct (Z.ltb_spec (Z.of_nat (length (send_queue g))) depth) as [Hd|Hd]; cbn.
  - counters. rewrite length_app. cbn. lia.
  - counters. lia.
Qed.
Lemma send_ok depth g s : queue_ok depth g → queue_ok depth (send_one depth g s) ∧ same_members g (send_one depth g s).
Proof.
  intros Hq. unfold send_one. destruct (resolve_member_addr s.1 (addr_book g)) as [[a|] b].
  - split; [by apply enqueue_ok|]. unfold enqueue_send, same_members.
    destruct (_ <? _); cbn; by counters.
  - unfold queue_ok, same_members in *. cbn. by counters.
Qed.
Lemma sends_ok depth sends g :
  queue_ok depth g →
  queue_ok depth (foldl (send_one depth) g sends) ∧ same_members g (foldl (send_one depth) g sends).
Proof.
  revert g. induction sends as [|s sends IH]; intros g Hq; [done|]. cbn.
  destruct (send_ok depth g s Hq) as [Hq' Hs]. destruct (IH _ Hq') as [? ?]. eauto using same_members_trans.
Qed.
Lemma writes_ok depth sent g : queue_ok depth g → queue_ok depth (socket_writer sent g) ∧ same_members g (socket_writer sent g).
Proof.
  intros [Hm Hl]. unfold socket_writer. destruct (send_queue g) as [|d q] eqn:Hq.
  - by rewrite <- Hq in *.
  - unfold queue_ok, len in *. cbn in *. destruct sent; cbn; counters; (split; [lia|]); unfold same_members; cbn; by counters.
Qed.
Lemma schedules_same now ss g :
  same_members g (foldl (schedule_one now) g ss) ∧ same_queue g (foldl (schedule_one now) g ss).
Proof. revert g. induction ss as [|s ss IH]; intros g; [done|]. apply (IH (schedule_one now g s)). Qed.
Lemma seeds_same (ts : list SeedTarget) g :
  let g' := foldl (λ g t, set_book (<[ni_node_id (s_target t) := s_addr t]> (addr_book g))
                                   (<[seed t := t]> (seed_targets g)) g) g ts in
  same_members g g' ∧ same_queue g g'.
Proof. revert g. induction ts as [|t ts IH]; intros g; [done|]. cbn. apply (IH (set_book _ _ g)). Qed.
Lemma input_same i g : same_members g (take_input i g).1 ∧ same_queue g (take_input i g).1.
Proof.
  destruct i as [d| |now| |ts]; cbn [take_input].
  - destruct (handle_data d (swim g)) as [[[] x] a]; done.
  - done.
  - destruct (due_timers _ _ _) as [due rest]. destruct (handle_timers due _) as [x a]. done.
  - destruct (foca_gossip _) as [[f x] a]. done.
  - pose proof (seeds_same ts g) as Hs. cbn in Hs. destruct (foldl _ g ts) as [? ? ? ? ? ? ? ? ?] eqn:E. cbn in *.
    destruct (_ <=? 1); [destruct (announce_all _ _)|]; done.
Qed.
Lemma notify_same ns g :
  let '(changed, g') := notify_all ns g in
  same_queue g g' ∧ (if changed then True else same_members g g').
Proof.
  revert g. induction ns as [|n ns IH]; intros g; [done|]. cbn [notify_all].
  destruct (handle_notification g n) as [c g1] eqn:Hn. specialize (IH g1).
  destruct (notify_all ns g1) as [c' g2]. destruct IH as [Hq Hm].
  destruct n; cbn in Hn; injection Hn as <- <-; cbn [orb]; (split; [exact Hq|]); done || apply Hm.
Qed.
Lemma listed_ok (l : list NodeIdentity) (m : MemberMap) id i :
  (∀ id i, m !! id = Some i → ni_node_id i = id ∧ is_placeholder id i = false) →
  foldl (λ m i, <[ni_node_id i := i]> m) m (List.filter (λ i, negb (is_placeholder (ni_node_id i) i)) l) !! id = Some i →
  ni_node_id i = id ∧ is_placeholder id i = false.
Proof.
  revert m. induction l as [|x l IH]; intros m Hm; cbn; [apply Hm|].
  destruct (is_placeholder (ni_node_id x) x) eqn:Hx; cbn; [by apply IH|]. apply IH.
  intros id' i' Hi. apply lookup_insert_Some in Hi as [[<- <-]|[_ Hi]]; [done|by apply Hm].
Qed.
Lemma publish_ok depth g : queue_ok depth g → queue_ok depth (publish g) ∧ members_ok (publish g).
Proof.
  intros Hq. split.
  - apply queue_ok_same with g; [|done]. split; [done|]. cbn. by counters.
  - unfold members_ok, publish. cbn. counters. unfold published. rewrite lookup_insert_eq.
    split; [done|]. split; [done|]. intros id m Hm.
    apply lookup_insert_Some in Hm as [[<- <-]|[_ Hm]]; [by auto|].
    apply listed_ok in Hm; [naive_solver|]. intros ? ?. by rewrite lookup_empty.
Qed.
Lemma iteration_ok depth now i g :
  queue_ok depth g → members_ok g → queue_ok depth (iteration depth now i g) ∧ members_ok (iteration depth now i g).
Proof.
  intros Hq Hm. unfold iteration. pose proof (input_same i g) as [Hm1 Hq1].
  destruct (take_input i g) as [g1 asks]. cbn [fst] in *.
  destruct (sends_ok depth asks.1.1 g1 (queue_ok_same _ _ _ Hq1 Hq)) as [Hq2 Hm2].
  set (g2 := foldl (send_one depth) g1 asks.1.1) in *.
  destruct (schedules_same now asks.1.2 g2) as [Hm3 Hq3]. set (g3 := foldl (schedule_one now) g2 asks.1.2) in *.
  set (g4 := set_metrics (store timer_backlog (len (timers g3))) g3).
  assert (Hm4 : same_members g3 g4) by (unfold same_members; cbn; by counters).
  assert (Hq4 : same_queue g3 g4) by (unfold same_queue; cbn; by counters).
  pose proof (notify_same asks.2 g4) as Hn. destruct (notify_all asks.2 g4) as [[|] g5]; destruct Hn as [Hq5 Hm5].
  - apply publish_ok. eauto using queue_ok_same.
  - split; [by eauto using queue_ok_same|]. eauto using members_ok_same.
Qed.
Lemma gossip_run_ok depth ops g :
  queue_ok depth g → members_ok g → queue_ok depth (gossip_run depth ops g) ∧ members_ok (gossip_run depth ops g).
Proof.
  revert g. induction ops as [|op ops IH]; intros g Hq Hm; [done|]. cbn. destruct op as [now i|sent]; cbn [gossip_step].
  - apply IH; apply iteration_ok; done.
  - destruct (writes_ok depth sent g Hq) as [? ?]. apply IH; [done|]. by eapply members_ok_same.
Qed.
Lemma gossip_start_ok depth local : 0 ≤ depth → queue_ok depth (start_gossip local) ∧ members_ok (start_gossip local).
Proof.
  intros Hd. split; [done|]. split; [apply lookup_singleton_eq|]. split; [cbn; counters; by rewrite map_size_singleton|].
  cbn [start_gossip catalog Gossip.local]. intros id m Hi. apply lookup_singleton_Some in Hi as [<- <-]. auto.
Qed.
End facts.

(** C31: in any run of the gossip task and its socket writer, whatever the SWIM
    library asks for, the published catalog always holds the node's own current
    identity, lists every member under its own id, and never lists the
    placeholder of a seed; the member count is its size.  The queue-depth gauge
    is the number of datagrams waiting, which never exceeds the channel's
    capacity (a send or receive and its count are one step here).  When the timer branch runs at an instant, it takes out of the heap
    exactly the timers that are due then, in order of their deadlines and, among
    equal ones, in the order they were scheduled. *)
Theorem gossip_loop_sound `{!Foca} (xxh3_64 : bytes → Z) depth local ops now lookup s a target :
  0 ≤ depth → (∀ b, 0 ≤ xxh3_64 b < 2 ^ 64) →
  let g := gossip_run depth ops (start_gossip local) in
  catalog g !! ni_node_id (Gossip.local g) = Some (Gossip.local g) ∧
  metrics g member_count = Z.of_nat (size (catalog g)) ∧
  (∀ id m, catalog g !! id = Some m → ni_node_id m = id) ∧
  (resolve_seed xxh3_64 lookup s = Some (a, target) →
   ∀ id, catalog g !! id = Some target → target = Gossip.local g) ∧
  metrics g send_queue_depth = len (send_queue g) ∧ len (send_queue g) ≤ depth ∧
  let '(due, rest) := due_timers (length (timers g)) (timers g) now in
  due ++ rest ≡ₚ timers g ∧
  Forall (λ t, fire_at t ≤ now) due ∧ Forall (λ t, now < fire_at t) rest ∧
  StronglySorted (λ t t', earlier t t' = true) due.
Proof.
  intros Hd Hx g. destruct (gossip_start_ok depth local Hd) as [Hq Hm].
  destruct (gossip_run_ok depth ops (start_gossip local) Hq Hm) as [[? ?] (? & ? & Hc)].
  split; [done|]. split; [done|]. split; [intros id m Hi; by apply Hc in Hi as [? _]|]. split.
  - intros Hr id Hi. apply Hc in Hi as [<- [Hp|]]; [|done].
    by rewrite (seeds_are_placeholders xxh3_64 lookup s a target Hx Hr) in Hp.
  - split; [done|]. split; [done|]. by apply due_timers_exact.
Qed.

Module GossipWitness.

(** A library that takes the first byte of a datagram as the id of a member that
    came up, greets it, and schedules a timer for it. *)
Definition ident (n : Z) : NodeIdentity :=
  {| ni_node_id := n;
     ni_meta := {| name := bs "n"; raft_addr := bs "http://r"; public_addr := []; gossip_addr := bs "10.0.0.1:7946" |};
     incarnation := 1; config_fingerprint := 7 |}.
#[local] Instance mini : Foca := {|
  Swim := list NodeIdentity;
  Timer := Z;
  foca_new i := [];
  handle_data d x :=
    match d with
    | b :: _ => let i := ident (byte_val b) in (false, x ++ [i], ([(i, bs "hello")], [(byte_val b, byte_val b)], [MemberUp i]))
    | [] => (true, x, ([], [], []))
    end;
  handle_timer t x := (false, List.filter (λ i, negb (ni_node_id i =? t)) x, ([], [], [MemberDown (ident t)]));
  foca_gossip x := (false, x, ([], [], []));
  foca_announce i x := (false, x ++ [i], ([(i, bs "announce")], [], [MemberUp i]));
  num_members x := len x;
  iter_members x := x
|}.
Definition sum_hash (b : bytes) : Z := foldl (λ acc x, (acc * 31 + byte_val x) mod 2 ^ 64) 7 b.
Definition lookup (s : str) : option (list SocketAddr) := Some [{| sa_ip := V4 [10; 0; 0; 9]; sa_port := 7946; sa_scope := 0 |}].
Definition targets : list SeedTarget := (resolve_round sum_hash lookup (bs "10.0.0.1:7946") [bs "seed"]).1.
Definition ops : list gossip_op :=
  [Iterate (λ _, 0) (Seeds targets); Iterate (λ _, 10) (Datagram [x05]); Iterate (λ _, 11) (Datagram [x03]); Write true;
   Iterate (λ _, 12) (Datagram [x09]); Iterate (λ _, 14) (TimersDue 14)].
Definition final : GossipLoop := gossip_run 2 ops (start_gossip (ident 1)).

Lemma sum_hash_range b : 0 ≤ sum_hash b < 2 ^ 64.
Proof.
  unfold sum_hash. assert (∀ l acc, 0 ≤ acc < 2 ^ 64 →
    0 ≤ foldl (λ acc x, (acc * 31 + byte_val x) mod 2 ^ 64) acc l < 2 ^ 64) as H.
  { induction l as [|x l IH]; intros acc Ha; [done|]. cbn [foldl]. apply IH. apply Z.mod_pos_bound. lia. }
  apply H. lia.
Qed.
(** Members 5, 3 and 9 come up, then 3 leaves when its timer fires. *)
Lemma gossip_loop_sound_witness :
  0 ≤ 2 ∧ (∀ b, 0 ≤ sum_hash b < 2 ^ 64) ∧
  ni_node_id <$> catalog final !! 1 = Some 1 ∧
  merge_sort Z.le ((map_to_list (catalog final)).*1) = [1; 5; 9] ∧
  (length (send_queue final) = 2%nat) ∧ metrics final send_queue_depth = len (send_queue final) ∧
  t_seq <$> (due_timers 5 (timers final) 15).1 = [1].
Proof.
  split; [lia|]. split; [exact sum_hash_range|].
  pose proof (gossip_loop_sound sum_hash 2 (ident 1) ops 15 lookup (bs "seed")
                {| sa_ip := V4 [10; 0; 0; 9]; sa_port := 7946; sa_scope := 0 |} (ident 2)
                ltac:(lia) sum_hash_range) as (_ & _ & _ & _ & Hq & _).
  split; [|split; [vm_compute; reflexivity|split; [vm_compute; reflexivity|split; [exact Hq|vm_compute; reflexivity]]]].
  vm_compute. reflexivity.
Defined.

End GossipWitness.
