(* ===== verification/Router.v ===== *)
(** * The router ([src/cluster/router.rs]): state, routing, request ids

    A node routes every request to the group that owns the path.  Its state is a
    few caches: the last known leaders, placements, the explicit namespace roots
    and their policies.  Everything else it talks to is a [Cluster]: the Raft
    cores it hosts, the peers it forwards to, clocks, permits and gossip.

    Several requests run on one router at a time.  Where the code awaits, the
    cluster operation receives the router's state as well and may return it
    changed: whatever other requests did meanwhile. *)

From Stdlib Require Import ZArith NArith Lia Strings.Byte.
From stdpp Require Import sorting countable base numbers gmap strings list.
From S2P Require Import Prelude RustStd StoreKeys Store EngineTypes Engine Placement.
From S2P Require Import Queue Command StateMachine Reads.
Local Open Scope Z_scope.

(** ** Errors and options *)

Inductive RouterError :=
| WriteQueueFull
| WriterUnavailable
| MultiDomainUnsupported
| NamespaceDepthUnsupported (path : str)
| NamespaceResolverUnavailable
| NamespaceNotDrained (namespace : str)
| NamespacePolicyPartial (cleared : list str) (failed_groups : list GroupId)
| CommandRejected (kind : RejectKind) (detail : str)
(** an error of a local read *)
| LocalRead (e : error)
(** any other [anyhow] error *)
| RouterOther (msg : str)
(** a panic of the request's task *)
| Panicked (msg : str).

Definition MAX_FORWARD_HOPS : nat := 4.
Definition REVOKE_MARKER_TTL_MS : Z := 300000.
Definition DOMAIN_CACHE_MAX : Z := 16384.
Definition NAMESPACE_CACHE_REFRESH_MS : Z := 250.
Definition NAMESPACE_CACHE_FAILURE_BACKOFF_MS : Z := 5000.

Record RoutingOptions := {
  group_count : Z;
  routing_prefix_segments : Z;
  max_inflight_per_group : Z
}.
Definition default_routing_options : RoutingOptions :=
  {| group_count := 256; routing_prefix_segments := 1; max_inflight_per_group := 1024 |}.

Record NamespaceRoute := { nr_namespace : str; nr_explicit : bool; nr_policy : LockPolicy }.

Record Router := {
  leader_hints : gmap GroupId (Z * NodeMeta);
  domain_groups : gmap str GroupId;
  namespace_roots : list str;
  namespace_policies : gmap str NamespacePolicyEntry;
  namespace_cache_loaded_ms : Z;
  namespace_cache_retry_after_ms : Z;
  inflight_total : Z;
  seq_counter : Z
}.
Definition router_new : Router :=
  {| leader_hints := ∅; domain_groups := ∅; namespace_roots := []; namespace_policies := ∅;
     namespace_cache_loaded_ms := 0; namespace_cache_retry_after_ms := 0; inflight_total := 0;
     seq_counter := 0 |}.

Definition set_hints (f : gmap GroupId (Z * NodeMeta) → gmap GroupId (Z * NodeMeta)) (r : Router) : Router :=
  {| leader_hints := f (leader_hints r); domain_groups := domain_groups r;
     namespace_roots := namespace_roots r; namespace_policies := namespace_policies r;
     namespace_cache_loaded_ms := namespace_cache_loaded_ms r;
     namespace_cache_retry_after_ms := namespace_cache_retry_after_ms r;
     inflight_total := inflight_total r; seq_counter := seq_counter r |}.
Definition set_domains (f : gmap str GroupId → gmap str GroupId) (r : Router) : Router :=
  {| leader_hints := leader_hints r; domain_groups := f (domain_groups r);
     namespace_roots := namespace_roots r; namespace_policies := namespace_policies r;
     namespace_cache_loaded_ms := namespace_cache_loaded_ms r;
     namespace_cache_retry_after_ms := namespace_cache_retry_after_ms r;
     inflight_total := inflight_total r; seq_counter := seq_counter r |}.
Definition set_namespaces (f : list str → list str)
    (h : gmap str NamespacePolicyEntry → gmap str NamespacePolicyEntry) (r : Router) : Router :=
  {| leader_hints := leader_hints r; domain_groups := domain_groups r;
     namespace_roots := f (namespace_roots r); namespace_policies := h (namespace_policies r);
     namespace_cache_loaded_ms := namespace_cache_loaded_ms r;
     namespace_cache_retry_after_ms := namespace_cache_retry_after_ms r;
     inflight_total := inflight_total r; seq_counter := seq_counter r |}.
Definition set_cache_times (loaded retry_after : Z) (r : Router) : Router :=
  {| leader_hints := leader_hints r; domain_groups := domain_groups r;
     namespace_roots := namespace_roots r; namespace_policies := namespace_policies r;
     namespace_cache_loaded_ms := loaded; namespace_cache_retry_after_ms := retry_after;
     inflight_total := inflight_total r; seq_counter := seq_counter r |}.
Definition set_counters (inflight seq : Z) (r : Router) : Router :=
  {| leader_hints := leader_hints r; domain_groups := domain_groups r;
     namespace_roots := namespace_roots r; namespace_policies := namespace_policies r;
     namespace_cache_loaded_ms := namespace_cache_loaded_ms r;
     namespace_cache_retry_after_ms := namespace_cache_retry_after_ms r;
     inflight_total := inflight; seq_counter := seq |}.

(** ** The namespace cache *)

(** [roots.dedup()]: an element equal to the one kept before it goes. *)
Fixpoint dedup (l : list str) : list str :=
  match l with
  | a :: (b :: _) as l' => if bool_decide (a = b) then dedup l' else a :: dedup l'
  | _ => l
  end.
Definition sort_namespace_roots (roots : list str) : list str := dedup (merge_sort root_le roots).

Definition cache_namespace_root (namespace : str) : Router → Router :=
  set_namespaces (λ roots, sort_namespace_roots (roots ++ [namespace])) id.
Definition cache_namespace_entry (entry : NamespacePolicyEntry) (r : Router) : Router :=
  set_namespaces id (λ policies, <[npe_namespace entry := entry]> policies)
    (cache_namespace_root (npe_namespace entry) r).
Definition uncache_namespace_root (namespace : str) : Router → Router :=
  set_namespaces (filter (λ root, root ≠ namespace)) (delete namespace).
Definition invalidate_namespace_cache : Router → Router := set_cache_times 0 0.

(** The table a refresh stores: the last entry of a namespace wins. *)
Definition policies_of (entries : list NamespacePolicyEntry) : gmap str NamespacePolicyEntry :=
  foldl (λ m e, <[npe_namespace e := e]> m) ∅ entries.
Definition load_namespaces (entries : list NamespacePolicyEntry) (now_ms : Z) (r : Router) : Router :=
  let policies := policies_of entries in
  set_cache_times now_ms 0
    (set_namespaces (λ _, sort_namespace_roots (map_to_list policies).*1) (λ _, policies) r).

(** ** Routing *)
Section routing.
Context (xxh3_64 : bytes → Z) (routing : RoutingOptions) (dflt : LockAlgorithm).

Definition fallback_namespace (path : str) : str := routing_prefix path (routing_prefix_segments routing).

Definition resolve_namespace_cached (r : Router) (path : str) : NamespaceRoute :=
  match List.find (λ namespace, namespace_contains_path namespace path) (namespace_roots r) with
  | Some namespace =>
      {| nr_namespace := namespace; nr_explicit := true;
         nr_policy := match namespace_policies r !! namespace with
                      | Some e => npe_policy e
                      | None => from_algorithm dflt
                      end |}
  | None =>
      {| nr_namespace := fallback_namespace path; nr_explicit := false;
         nr_policy := from_algorithm dflt |}
  end.

Definition ensure_lockable_route (path : str) (route : NamespaceRoute) : option RouterError :=
  let min_depth := routing_prefix_segments routing in
  if negb (nr_explicit route) && (0 <? min_depth) && (path_depth path <? min_depth)
  then Some (NamespaceDepthUnsupported path) else None.

Definition namespace_route_would_change (r : Router) (namespace : str) (explicit : bool) : bool :=
  if explicit then false
  else
    let probe := if bool_decide (c_colon ∈ namespace) || (routing_prefix_segments routing =? 0)
                 then namespace else namespace ++ bs ":/" in
    negb (bool_decide (nr_namespace (resolve_namespace_cached r probe) = namespace)).

(** The placement of a namespace, memoized. *)
Definition group_of_domain (r : Router) (domain : str) : GroupId * Router :=
  match domain_groups r !! domain with
  | Some group => (group, r)
  | None =>
      let group := place_domain xxh3_64 domain (group_count routing) in
      (group, if Z.of_nat (size (domain_groups r)) <? DOMAIN_CACHE_MAX
              then set_domains (<[domain := group]>) r else r)
  end.
Definition group_of (r : Router) (path : str) : GroupId * Router :=
  group_of_domain r (nr_namespace (resolve_namespace_cached r path)).

Definition lock_groups : list GroupId := seqZ 0 (group_count routing).
Definition all_groups : list GroupId := lock_groups ++ [SYS_GROUP].
End routing.

(** ** Request ids *)
Section requests.
(** [self.client_id] and the wall clock. *)
Context (own_client_id : str).

(** [Router::new]: one per process incarnation. *)
Definition new_client_id (node_id pid now_ms : Z) : str :=
  to_string node_id ++ bs ":" ++ to_string pid ++ bs ":" ++ to_string now_ms.

Definition wrap_u64 (z : Z) : Z := z mod 2 ^ 64.
Definition next_request_id (r : Router) : RequestId * Router :=
  ({| client_id := own_client_id; ri_seq := seq_counter r |},
   set_counters (inflight_total r) (wrap_u64 (seq_counter r + 1)) r).
Definition request_id_for (idempotency_key : option str) (r : Router) : RequestId * Router :=
  match idempotency_key with
  | Some key => ({| client_id := bs "external:" ++ key; ri_seq := 0 |}, r)
  | None => next_request_id r
  end.
Definition scoped_request_id (idempotency_key : option str) (scope : str) (r : Router)
    : RequestId * Router :=
  match idempotency_key with
  | Some key =>
      ({| client_id := bs "external-scoped:" ++ to_string (len key) ++ bs ":" ++ key ++ bs ":" ++ scope;
          ri_seq := 0 |}, r)
  | None => next_request_id r
  end.

Definition command_with_idempotency (op : Op) (idempotency_key : option str) (now_ms : Z) (r : Router)
    : Command * Router :=
  let '(id, r) := request_id_for idempotency_key r in
  ({| request_id := Some id; cmd_now_ms := now_ms; cmd_op := op |}, r).
Definition command_with_scoped_idempotency (op : Op) (idempotency_key : option str) (scope : str)
    (now_ms : Z) (r : Router) : Command * Router :=
  let '(id, r) := scoped_request_id idempotency_key scope r in
  ({| request_id := Some id; cmd_now_ms := now_ms; cmd_op := op |}, r).
End requests.
