(* ===== verification/RouterOps.v ===== *)
(** * The router's operations ([src/cluster/router.rs])

    Proposing a command on a group's leader, reading from a group, fanning out
    over groups, and the operations of the service built from them. *)

From Stdlib Require Import ZArith NArith Lia Strings.Byte.
From stdpp Require Import sorting countable base numbers gmap strings list.
From S2P Require Import Prelude RustStd StoreKeys Store Snapshot EngineTypes Engine Placement.
From S2P Require Import Queue Command StateMachine Reads Router.
Local Open Scope Z_scope.

(** ** What the router runs on *)

(** What openraft answers: a rejection names the leader when it knows one. *)
Inductive raft_result (A : Type) :=
| RaftOk (a : A)
| ForwardToLeader (leader_id : option Z) (leader_node : option NodeMeta)
| RaftFailed (msg : str).
Arguments RaftOk {A} a.
Arguments ForwardToLeader {A} leader_id leader_node.
Arguments RaftFailed {A} msg.

(** Operations that await take and return the router's state together with the
    world. *)
Class Cluster `{!RocksDb} := {
  World : Type;
  (** the local node *)
  fsync_healthy : World → bool;
  hosts : World → GroupId → bool;
  is_leader : World → GroupId → bool;
  hosted : World → list GroupId;
  metrics_leader : World → GroupId → option (Z * NodeMeta);
  gossip_members : World → option (list (Z * NodeMeta));
  db_handle : World → DB;
  wall_ms : World → Z;
  cache_elapsed_ms : World → Z;
  permit_free : World → GroupId → bool;
  refresh_taken : World → bool;
  (** iteration order of a [HashMap], completion order of a fan-out *)
  hash_order : World → list str → list str;
  completion_order : World → nat → list nat;
  hash_order_perm w l : hash_order w l ≡ₚ l;
  completion_order_perm w n : completion_order w n ≡ₚ seq 0 n;
  (** awaits *)
  client_write : GroupId → Command → Router * World → raft_result ApplyResponse * (Router * World);
  ensure_linearizable : GroupId → Router * World → raft_result unit * (Router * World);
  spawn_blocking : Router * World → bool * (Router * World);
  channel_error : World → Z → str → option str;
  authorize_error : World → option str;
  forward_rpc : Z → NodeMeta → GroupId → bytes → Router * World → (str + bytes) * (Router * World);
  forward_read_rpc : Z → NodeMeta → GroupId → bytes → Router * World → (str + bytes) * (Router * World);
  sleep_ms : Z → Router * World → Router * World;
  lock_refresh : Router * World → Router * World;
  (** whether the deadline of a refresh passes first, and what is left then *)
  refresh_times_out : World → bool;
  abandon_refresh : Router * World → Router * World
}.

(** ** A monad for the router *)

(** What a request asked of groups: the proposals and reads it made, with their
    outcomes, in order.  It only records; no operation looks at it. *)
Inductive event :=
| Proposed (group : GroupId) (cmd : Command) (r : RouterError + ApplyResponse)
| Asked (group : GroupId) (op : ReadOp) (r : RouterError + ReadResult).

Record Node `{!RocksDb, !Cluster} := { router : Router; world : World; events : list event }.

Section monad.
Context `{!RocksDb, !Cluster}.

Definition rm (A : Type) : Type := Node → (RouterError + A) * Node.
#[export] Instance rm_ret : MRet rm := λ A a n, (inr a, n).
#[export] Instance rm_bind : MBind rm := λ A B f m n,
  match m n with
  | (inr a, n) => f a n
  | (inl e, n) => (inl e, n)
  end.
Definition fail {A} (e : RouterError) : rm A := λ n, (inl e, n).
Definition attempt {A} (m : rm A) : rm (RouterError + A) := λ n, let '(r, n) := m n in (inr r, n).
Definition of_sum {A} (r : RouterError + A) : rm A := λ n, (r, n).
Definition get_router : rm Router := λ n, (inr (router n), n).
Definition get_world : rm World := λ n, (inr (world n), n).
Definition set_router (r : Router) (n : Node) : Node :=
  {| router := r; world := world n; events := events n |}.
Definition modify (f : Router → Router) : rm unit := λ n, (inr tt, set_router (f (router n)) n).
Definition with_router {A} (f : Router → A * Router) : rm A := λ n,
  let '(a, r) := f (router n) in (inr a, set_router r n).
Definition await {A} (f : Router * World → A * (Router * World)) : rm A := λ n,
  let '(a, (r, w)) := f (router n, world n) in (inr a, {| router := r; world := w; events := events n |}).
Definition pause (f : Router * World → Router * World) : rm unit := await (λ x, (tt, f x)).
Definition record (e : event) : rm unit := λ n,
  (inr tt, {| router := router n; world := world n; events := events n ++ [e] |}).
End monad.

Fixpoint each {M : Type → Type} `{MRet M, MBind M} {A B} (f : A → M B) (xs : list A) : M (list B) :=
  match xs with [] => mret [] | x :: xs => y ← f x; ys ← each f xs; mret (y :: ys) end.

(** The elements of a list at the given positions. *)
Definition in_order {A} (order : list nat) (l : list A) : list A := omap (λ i, l !! i) order.

Section ops.
Context `{!Bincode StoredRecord, !RocksDb, !Cluster}.
Context `{!Bincode Command, !Bincode ReadOp}.
Context `{!Bincode (ForwardError + ApplyResponse), !Bincode (ForwardError + ReadResult)}.
Context (xxh3_64 : bytes → Z) (routing : RoutingOptions) (dflt : LockAlgorithm).
Context (node_id : Z) (own_client_id : str).

Definition the_command (op : Op) (idempotency_key : option str) : rm Command :=
  w ← get_world; with_router (command_with_idempotency own_client_id op idempotency_key (wall_ms w)).

(** ** Leaders *)

Definition note_leader (group : GroupId) (leader : option (Z * NodeMeta)) : rm unit :=
  modify (set_hints (λ hints,
    match leader with Some hint => <[group := hint]> hints | None => delete group hints end)).

Definition leader_of (r : Router) (w : World) (group : GroupId) : option (Z * NodeMeta) :=
  match leader_hints r !! group with
  | Some hint => Some hint
  | None => metrics_leader w group
  end.

Definition add_target (targets : list (Z * NodeMeta)) (m : Z * NodeMeta) : list (Z * NodeMeta) :=
  if (m.1 =? node_id) || existsb (λ t, t.1 =? m.1) targets then targets else targets ++ [m].
Definition targets_of (r : Router) (w : World) (group : GroupId) : list (Z * NodeMeta) :=
  let targets := match leader_of r w group with
                 | Some leader => if leader.1 =? node_id then [] else [leader]
                 | None => []
                 end in
  match gossip_members w with
  | Some members => foldl add_target targets members
  | None => targets
  end.
Definition forward_targets (group : GroupId) : rm (list (Z * NodeMeta)) :=
  r ← get_router; w ← get_world; mret (targets_of r w group).

(** ** Forwarding *)

Definition forward_via {A} `{!Bincode (ForwardError + A)}
    (rpc : Z → NodeMeta → GroupId → bytes → Router * World → (str + bytes) * (Router * World))
    (group : GroupId) (payload : bytes) (target : Z * NodeMeta) : rm (ForwardError + A) :=
  w ← get_world;
  match channel_error w target.1 (raft_addr target.2) with
  | Some e => mret (inl (Unreachable e))
  | None =>
      match authorize_error w with
      | Some e => mret (inl (ForwardOther e))
      | None =>
          resp ← await (rpc target.1 target.2 group payload);
          mret (match resp with
                | inl e => inl (Unreachable e)
                | inr b => match bincode_decode b with
                           | Some r => r
                           | None => inl (ForwardOther (bs "decode"))
                           end
                end)
      end
  end.
Definition forward_command (group : GroupId) (cmd : Command) (target : Z * NodeMeta)
    : rm (ForwardError + ApplyResponse) := forward_via forward_rpc group (bincode_encode cmd) target.
Definition forward_read_to (group : GroupId) (op : ReadOp) (target : Z * NodeMeta)
    : rm (ForwardError + ReadResult) := forward_via forward_read_rpc group (bincode_encode op) target.

(** How a hop ends: with an answer, with a fresh leader hint, or with no target left. *)
Inductive chase (A : Type) :=
| Answered (a : A)
| Chased
| Exhausted.
Arguments Answered {A} a.
Arguments Chased {A}.
Arguments Exhausted {A}.

(** The loop over the targets of one hop. *)
Fixpoint try_targets {A} (what : str) (send : Z * NodeMeta → rm (ForwardError + A)) (group : GroupId)
    (targets : list (Z * NodeMeta)) : rm (chase A) :=
  match targets with
  | [] => mret Exhausted
  | target :: targets =>
      r ← send target;
      match r with
      | inr a => mret (Answered a)
      | inl (NotLeader leader) => note_leader group leader;; mret Chased
      | inl NotHosted | inl (Unreachable _) =>
          r ← get_router; w ← get_world;
          (if match leader_of r w group with Some l => l.1 =? target.1 | None => false end
           then note_leader group None else mret tt);;
          try_targets what send group targets
      | inl (ForwardOther e) =>
          fail (RouterOther (bs "group " ++ to_string group ++ bs " " ++ what ++ bs ": " ++ e))
      end
  end.

(** The forwarding half of a hop; [None] to go on with the next one. *)
Definition forward_hop {A} (what : str) (send : Z * NodeMeta → rm (ForwardError + A)) (group : GroupId)
    : rm (option A) :=
  targets ← forward_targets group;
  if bool_decide (targets = []) then pause (sleep_ms 200);; mret None
  else
    c ← try_targets what send group targets;
    match c with
    | Answered a => mret (Some a)
    | Chased => mret None
    | Exhausted => pause (sleep_ms 200);; mret None
    end.

Definition hint_of (leader_id : option Z) (leader_node : option NodeMeta) : option (Z * NodeMeta) :=
  match leader_id, leader_node with Some id, Some node => Some (id, node) | _, _ => None end.

(** ** Writes *)

Fixpoint apply_hops (hops : nat) (group : GroupId) (cmd : Command) : rm ApplyResponse :=
  match hops with
  | O => fail WriterUnavailable
  | S hops =>
      w ← get_world;
      let forward :=
        a ← forward_hop (bs "forward") (forward_command group cmd) group;
        match a with Some resp => mret resp | None => apply_hops hops group cmd end in
      if hosts w group then
        r ← await (client_write group cmd);
        match r with
        | RaftOk resp => mret resp
        | ForwardToLeader id node =>
            let hint := hint_of id node in
            note_leader group hint;;
            match hint with
            | None => pause (sleep_ms 200);; apply_hops hops group cmd
            | Some _ => forward
            end
        | RaftFailed e => fail (RouterOther (bs "group " ++ to_string group ++ bs " write: " ++ e))
        end
      else forward
  end.
Definition apply_inner (group : GroupId) (cmd : Command) : rm ApplyResponse :=
  apply_hops MAX_FORWARD_HOPS group cmd.

Definition known_group (group : GroupId) : bool :=
  bool_decide (group ∈ all_groups routing).

(** [InflightGauge]: counted while the write is in flight. *)
Definition gauge (delta : Z) : rm unit :=
  modify (λ r, set_counters (inflight_total r + delta) (seq_counter r) r).

Definition apply_admitted (group : GroupId) (cmd : Command) : rm ApplyResponse :=
  w ← get_world;
  if negb (fsync_healthy w) then fail WriterUnavailable
  else if negb (known_group group) then fail (RouterOther (bs "unknown group " ++ to_string group))
  else if negb (permit_free w group) then fail WriteQueueFull
  else
    gauge 1;;
    r ← attempt (apply_inner group cmd);
    gauge (-1);;
    resp ← of_sum r;
    match resp with
    | Rejected kind detail => fail (CommandRejected kind detail)
    | resp => mret resp
    end.
Definition apply_to (group : GroupId) (cmd : Command) : rm ApplyResponse :=
  r ← attempt (apply_admitted group cmd);
  record (Proposed group cmd r);;
  of_sum r.

(** ** Reads *)

Definition local_read (group : GroupId) (op : ReadOp) : rm ReadResult :=
  ran ← await spawn_blocking;
  if (ran : bool) then
    w ← get_world;
    match execute_read_blocking (db_handle w) group op dflt (wall_ms w) with
    | Ok r => mret r
    | Err e => fail (LocalRead e)
    end
  else fail (RouterOther (bs "read task failed")).

Fixpoint read_hops (hops : nat) (group : GroupId) (op : ReadOp) : rm ReadResult :=
  match hops with
  | O => fail WriterUnavailable
  | S hops =>
      a ← forward_hop (bs "read") (forward_read_to group op) group;
      match a with Some r => mret r | None => read_hops hops group op end
  end.
Definition read_forwarded (group : GroupId) (op : ReadOp) : rm ReadResult :=
  read_hops MAX_FORWARD_HOPS group op.

Definition asked (group : GroupId) (op : ReadOp) (m : rm ReadResult) : rm ReadResult :=
  r ← attempt m; record (Asked group op r);; of_sum r.

Definition read_on (group : GroupId) (op : ReadOp) : rm ReadResult :=
  asked group op (w ← get_world; if hosts w group then local_read group op else read_forwarded group op).

Definition read_linearizable (group : GroupId) (op : ReadOp) : rm ReadResult :=
  asked group op
    (w ← get_world;
     if hosts w group then
       r ← await (ensure_linearizable group);
       match r with
       | RaftOk _ => local_read group op
       | ForwardToLeader id node => note_leader group (hint_of id node);; read_forwarded group op
       | RaftFailed e =>
           fail (RouterOther (bs "group " ++ to_string group ++ bs " read barrier: " ++ e))
       end
     else read_forwarded group op).
End ops.
Arguments Answered {A} a.
Arguments Chased {A}.
Arguments Exhausted {A}.
