(* ===== verification/RouterApi.v ===== *)
(** * The router's public operations ([src/cluster/router.rs])

    Keeping the namespace cache fresh, and the operations the service calls:
    acquire, release, renew, the deadlock graph, namespace policies, and reads. *)

From Stdlib Require Import ZArith NArith Lia Strings.Byte.
From stdpp Require Import sorting countable base numbers gmap strings list.
From S2P Require Import Prelude RustStd StoreKeys Store Snapshot EngineTypes Engine Placement.
From S2P Require Import Queue Command StateMachine Reads Router RouterOps.
Local Open Scope Z_scope.

Inductive CycleOutcome :=
| NoCycle
| Cycle (owners : list str)
| Truncated (owners : list str).

Definition unexpected_response {A} `{!RocksDb, !Cluster} : rm A :=
  fail (RouterOther (bs "unexpected response type")).
Definition unexpected_read {A} `{!RocksDb, !Cluster} : rm A :=
  fail (RouterOther (bs "unexpected read result")).

(** [by_namespace]: the items of each namespace, in the order they came. *)
Fixpoint add_to_namespace {A} (namespace : str) (group : GroupId) (x : A)
    (m : list (str * (GroupId * list A))) : list (str * (GroupId * list A)) :=
  match m with
  | [] => [(namespace, (group, [x]))]
  | (ns, (g, xs)) :: m =>
      if bool_decide (ns = namespace) then (ns, (g, xs ++ [x])) :: m
      else (ns, (g, xs)) :: add_to_namespace namespace group x m
  end.
(** Iteration over the map in the given order of its keys. *)
Definition iterate {A} (order : list str) (m : list (str * A)) : list (str * A) :=
  omap (λ ns, List.find (λ e, bool_decide (e.1 = ns)) m) order.

(** [into.extend(owners)] of [collect_cleared]. *)
Definition collect_cleared (resp : ApplyResponse) (into : gset str) : option (gset str) :=
  match resp with
  | RUnit => Some into
  | NamespaceCleared owners => Some (list_to_set owners ∪ into)
  | _ => None
  end.
Fixpoint collect_all_cleared (resps : list ApplyResponse) (into : gset str) : option (gset str) :=
  match resps with
  | [] => Some into
  | resp :: resps =>
      match collect_cleared resp into with
      | Some into => collect_all_cleared resps into
      | None => None
      end
  end.
Definition collect_granted (resps : list ApplyResponse) : list str :=
  concat ((λ r, match r with Granted g => g | _ => [] end) <$> resps).

Section api.
Context `{!Bincode StoredRecord, !RocksDb, !Cluster}.
Context `{!Bincode Command, !Bincode ReadOp}.
Context `{!Bincode (ForwardError + ApplyResponse), !Bincode (ForwardError + ReadResult)}.
Context (xxh3_64 : bytes → Z) (routing : RoutingOptions) (dflt : LockAlgorithm).
Context (node_id : Z) (own_client_id : str).

Local Abbreviation apply_to := (apply_to routing node_id).
Local Abbreviation read_on := (read_on dflt node_id).
Local Abbreviation read_linearizable := (read_linearizable dflt node_id).
Local Abbreviation resolve := (resolve_namespace_cached routing dflt).
Local Abbreviation the_command := (the_command own_client_id).

(** ** The namespace cache *)

Definition cache_now : rm Z :=
  w ← get_world;
  let ms := cache_elapsed_ms w in
  mret (saturating_add (if ms <=? u64_max then ms else u64_max - 1) 1).

(** The checks made before and again under the refresh lock: [Some] to return. *)
Definition cache_fresh (now_ms : Z) (r : Router) : option (option RouterError) :=
  let loaded := namespace_cache_loaded_ms r in
  if negb (loaded =? 0) && (saturating_sub now_ms loaded <? NAMESPACE_CACHE_REFRESH_MS) then Some None
  else
    let retry_after := namespace_cache_retry_after_ms r in
    if negb (retry_after =? 0) && (now_ms <? retry_after)
    then Some (if loaded =? 0 then Some NamespaceResolverUnavailable else None)
    else None.
Definition cache_answer (a : option RouterError) : rm unit :=
  match a with Some e => fail e | None => mret tt end.

Definition refresh_failed (loaded now_ms : Z) : rm unit :=
  modify (λ r, set_cache_times (namespace_cache_loaded_ms r)
                 (saturating_add now_ms NAMESPACE_CACHE_FAILURE_BACKOFF_MS) r);;
  if loaded =? 0 then fail NamespaceResolverUnavailable else mret tt.

(** Under the refresh lock. *)
Definition refresh_locked : rm unit :=
  now_ms ← cache_now;
  r ← get_router;
  match cache_fresh now_ms r with
  | Some a => cache_answer a
  | None =>
      let loaded := namespace_cache_loaded_ms r in
      w ← get_world;
      if refresh_times_out w then pause abandon_refresh;; refresh_failed loaded now_ms
      else
        res ← attempt (read_linearizable SYS_GROUP ListNamespaces);
        match res with
        | inr (ReadNamespaceList entries) => modify (load_namespaces entries now_ms)
        | _ => refresh_failed loaded now_ms
        end
  end.

Definition refresh_namespace_cache_if_stale : rm unit :=
  now_ms ← cache_now;
  r ← get_router;
  match cache_fresh now_ms r with
  | Some a => cache_answer a
  | None =>
      if namespace_cache_loaded_ms r =? 0 then pause lock_refresh;; refresh_locked
      else
        w ← get_world;
        if refresh_taken w then mret tt else refresh_locked
  end.

(** ** Fan-out *)

(** [buffer_unordered], as the stream yields: in order of completion.  What is
    still in flight when the consumer stops is part of the world. *)
Definition unordered {A B} (f : A → rm B) (xs : list A) : rm (list B) :=
  w ← get_world; each f (in_order (completion_order w (length xs)) xs).

Definition fanout_apply (cmds : list (GroupId * Command)) : rm (list ApplyResponse) :=
  unordered (λ c, apply_to c.1 c.2) cmds.

Definition MAX_RETRIES : nat := 3.
Fixpoint resilient_rounds (rounds : nat) (first : bool) (build : GroupId → rm Command)
    (remaining : list GroupId) (responses : list ApplyResponse)
    : rm (list ApplyResponse * list GroupId) :=
  match rounds with
  | O => mret (responses, remaining)
  | S rounds =>
      if bool_decide (remaining = []) then mret (responses, remaining)
      else
        (if first then mret tt else pause (sleep_ms 250));;
        results ← unordered (λ group,
                    r ← attempt (cmd ← build group; apply_to group cmd);
                    mret (group, r)) remaining;
        resilient_rounds rounds false build
          (omap (λ x, match x.2 with inl _ => Some x.1 | inr _ => None end) results)
          (responses ++ omap (λ x, match x.2 with inr resp => Some resp | inl _ => None end) results)
  end.
Definition fanout_apply_resilient (groups : list GroupId) (build : GroupId → rm Command)
    : rm (list ApplyResponse * list GroupId) :=
  resilient_rounds (S MAX_RETRIES) true build groups [].

(** [any] over a fan-out of boolean reads. *)
Fixpoint any_read (reads : list (rm ReadResult)) : rm bool :=
  match reads with
  | [] => mret false
  | m :: reads =>
      r ← m;
      match r with
      | ReadBool true => mret true
      | ReadBool false => any_read reads
      | _ => unexpected_read
      end
  end.
Definition any_unordered {A} (f : A → rm ReadResult) (xs : list A) : rm bool :=
  w ← get_world; any_read (f <$> in_order (completion_order w (length xs)) xs).

(** ** Namespace guards *)

Definition namespace_has_locks_anywhere (namespace : str) : rm bool :=
  any_unordered (λ group, read_linearizable group (NamespaceHasLocks namespace)) (lock_groups routing).

Definition ensure_drained (namespace : str) : rm unit :=
  busy ← namespace_has_locks_anywhere namespace;
  if (busy : bool) then fail (NamespaceNotDrained namespace) else mret tt.
Definition ensure_namespace_drained_if_route_changes (namespace : str) (explicit : bool) : rm unit :=
  r ← get_router;
  if negb (namespace_route_would_change routing dflt r namespace explicit) then mret tt
  else ensure_drained namespace.
Definition ensure_namespace_drained_before_delete (namespace : str) (explicit : bool) : rm unit :=
  if negb explicit then mret tt else ensure_drained namespace.

(** ** Acquire *)

Definition add_route (routes : list NamespaceRoute) (route : NamespaceRoute) : list NamespaceRoute :=
  if existsb (λ r, bool_decide (nr_namespace r = nr_namespace route)) routes then routes
  else routes ++ [route].
Fixpoint acquire_routes (r : Router) (reqs : list LockReq) (routes : list NamespaceRoute)
    : RouterError + list NamespaceRoute :=
  match reqs with
  | [] => inr routes
  | req :: reqs =>
      let route := resolve r (lr_path req) in
      match (match lr_state req with New => ensure_lockable_route routing (lr_path req) route
             | Held => None end) with
      | Some e => inl e
      | None => acquire_routes r reqs (add_route routes route)
      end
  end.
Definition release_routes (r : Router) (reqs : list RelReq) (routes : list NamespaceRoute)
    : list NamespaceRoute :=
  foldl (λ routes req, add_route routes (resolve r (rel_path req))) routes reqs.

Definition stale_rejection (e : RouterError) : bool :=
  match e with
  | CommandRejected PolicyEpochStale _ | CommandRejected RoutingStale _ => true
  | _ => false
  end.

(** [first] is [attempt == 0]. *)
Fixpoint acquire_attempts (attempts : nat) (first : bool) (args : AcquireArgs)
    (idempotency_key : option str) : rm (AcquireOutcome * list str * option str) :=
  match attempts with
  | O => fail (Panicked (bs "unreachable"))
  | S attempts =>
      refresh_namespace_cache_if_stale;;
      r ← get_router;
      routes ← of_sum (acquire_routes r (requests args) []);
      let routes := release_routes r (release_requests args) routes in
      if 1 <? len routes then fail MultiDomainUnsupported
      else
        match routes with
        | [] => mret (AcquireOk 0, [], None)
        | route :: _ =>
            let namespace := nr_namespace route in
            group ← with_router (λ r, group_of_domain xxh3_64 routing r namespace);
            cmd ← the_command (AcquireInNamespace namespace (nr_policy route) args) idempotency_key;
            response ← attempt (apply_to group cmd);
            match response with
            | inr (RAcquire outcome) => mret (outcome, [], Some namespace)
            | inr (AcquireGranted outcome granted) => mret (outcome, granted, Some namespace)
            | inr _ => unexpected_response
            | inl e =>
                if first && stale_rejection e then
                  modify invalidate_namespace_cache;;
                  refresh_namespace_cache_if_stale;;
                  acquire_attempts attempts false args idempotency_key
                else fail e
            end
        end
  end.
Definition acquire_with_idempotency (args : AcquireArgs) (idempotency_key : option str)
    : rm (AcquireOutcome * list str * option str) := acquire_attempts 2 true args idempotency_key.
Definition acquire (args : AcquireArgs) : rm (AcquireOutcome * list str) :=
  '(outcome, granted, _) ← acquire_with_idempotency args None; mret (outcome, granted).

(** ** The wait graph and the fencing counter *)

Definition set_wait_edge_with_idempotency (owner conflict_owner : str) (ttl_ms : Z)
    (metadata : option WaitEdgeMetadata) (idempotency_key : option str) : rm unit :=
  cmd ← the_command (SetWaitEdge owner {| conflict_owner := conflict_owner; metadata := metadata |} ttl_ms)
          idempotency_key;
  apply_to SYS_GROUP cmd;; mret tt.
Definition clear_wait_edge_with_idempotency (owner : str) (idempotency_key : option str) : rm unit :=
  cmd ← the_command (ClearWaitEdge owner) idempotency_key;
  apply_to SYS_GROUP cmd;; mret tt.
Definition clear_wait_edge (owner : str) : rm unit := clear_wait_edge_with_idempotency owner None.

Definition propose_sys (op : Op) : rm ApplyResponse :=
  cmd ← the_command op None; apply_to SYS_GROUP cmd.
Definition incr_fencing_token_with_idempotency (idempotency_key : option str) : rm Z :=
  cmd ← the_command IncrFence idempotency_key;
  resp ← apply_to SYS_GROUP cmd;
  match resp with RIncrFence token => mret token | _ => unexpected_response end.

(** ** Release *)

(** [for req in reqs]: the requests of each namespace with its group. *)
Fixpoint by_namespace {A} (path : A → str) (xs : list A) (m : list (str * (GroupId * list A)))
    : rm (list (str * (GroupId * list A))) :=
  match xs with
  | [] => mret m
  | x :: xs =>
      r ← get_router;
      let namespace := nr_namespace (resolve r (path x)) in
      group ← with_router (λ r, group_of_domain xxh3_64 routing r namespace);
      by_namespace path xs (add_to_namespace namespace group x m)
  end.

Definition release_command (owner : str) (del_wait : bool) (idempotency_key : option str)
    (e : str * (GroupId * list RelReq)) : rm (GroupId * Command) :=
  w ← get_world;
  cmd ← with_router (command_with_scoped_idempotency own_client_id
          (Release e.1 owner e.2.2 del_wait) idempotency_key e.1 (wall_ms w));
  mret (e.2.1, cmd).

Definition release_with_idempotency (owner : str) (reqs : list RelReq) (del_wait : bool)
    (idempotency_key : option str) : rm (list str) :=
  if bool_decide (reqs = []) then mret []
  else
    refresh_namespace_cache_if_stale;;
    m ← by_namespace rel_path reqs [];
    w ← get_world;
    cmds ← each (release_command owner del_wait idempotency_key) (iterate (hash_order w m.*1) m);
    resps ← fanout_apply cmds;
    (if del_wait then clear_wait_edge_with_idempotency owner idempotency_key else mret tt);;
    mret (collect_granted resps).

(** ** Owner-wide operations *)

Definition sorted_groups (s : gset GroupId) : list GroupId := merge_sort Z.le (elements s).

(** [None]: the domains cannot be pinned to groups. *)
Fixpoint pin_domains (r : Router) (domains : list str) (seen : gset str) (set : gset GroupId)
    : option (gset GroupId) :=
  match domains with
  | [] => Some set
  | domain :: domains =>
      if bool_decide (domain ∈ seen) then pin_domains r domains seen set
      else
        let seen := {[ domain ]} ∪ seen in
        let set' := {[ place_domain xxh3_64 domain (group_count routing) ]} ∪ set in
        if bool_decide (c_colon ∈ domain) || (routing_prefix_segments routing =? 0)
        then pin_domains r domains seen set'
        else
          let route := resolve r (domain ++ bs ":/") in
          if nr_explicit route && bool_decide (nr_namespace route = domain)
          then pin_domains r domains seen set'
          else None
  end.
Definition resolve_domains_to_groups (domains : list str) : rm (list GroupId * bool) :=
  if bool_decide (domains = []) then mret (lock_groups routing, true)
  else
    attempt refresh_namespace_cache_if_stale;;
    r ← get_router;
    mret (match pin_domains r domains ∅ ∅ with
          | Some set => (sorted_groups set, false)
          | None => (lock_groups routing, true)
          end).

(** One command per group. *)
Definition commands_for (op : Op) (idempotency_key : option str) (groups : list GroupId)
    : rm (list (GroupId * Command)) :=
  each (λ group, cmd ← the_command op idempotency_key; mret (group, cmd)) groups.

Definition release_all_with_idempotency (owner : str) (del_wait : bool) (domains : list str)
    (idempotency_key : option str) : rm (list str) :=
  '(groups, _) ← resolve_domains_to_groups domains;
  cmds ← commands_for (ReleaseAll owner del_wait) idempotency_key groups;
  resps ← fanout_apply cmds;
  (if del_wait then clear_wait_edge_with_idempotency owner idempotency_key else mret tt);;
  mret (collect_granted resps).

(** The loop over the responses of a renew. *)
Fixpoint renew_outcome (strict : bool) (renewed_any revoke_requested : bool) (resps : list ApplyResponse)
    : option RenewOutcome :=
  match resps with
  | [] => Some (if renewed_any then RenewOk revoke_requested else RenewLost [] MissingAlive)
  | RRenew (RenewOk r) :: resps => renew_outcome strict true (revoke_requested || r) resps
  | RRenew (RenewLost path reason) :: resps =>
      if negb (bool_decide (path = [])) || strict then Some (RenewLost path reason)
      else renew_outcome strict renewed_any revoke_requested resps
  | _ => None
  end.
Definition renew_with_idempotency (owner : str) (ttl_ms : Z) (domains : list str)
    (idempotency_key : option str) : rm RenewOutcome :=
  let declared := negb (bool_decide (domains = [])) in
  '(groups, broadcast) ← resolve_domains_to_groups domains;
  cmds ← commands_for (Renew owner ttl_ms) idempotency_key groups;
  resps ← fanout_apply cmds;
  match renew_outcome (declared && negb broadcast) false false resps with
  | Some o => mret o
  | None => unexpected_response
  end.

Definition force_release_with_idempotency (victim : str) (idempotency_key : option str) : rm (list str) :=
  cmds ← commands_for (ForceRelease victim) idempotency_key (lock_groups routing);
  resps ← fanout_apply cmds;
  clear_wait_edge_with_idempotency victim idempotency_key;;
  mret (collect_granted resps).
Definition request_revoke (owner : str) : rm unit :=
  cmds ← commands_for (RequestRevoke owner REVOKE_MARKER_TTL_MS) None (lock_groups routing);
  fanout_apply cmds;; mret tt.

(** ** Namespace policies *)

Definition namespace_policy_record (namespace : str) : rm (LockPolicy * bool) :=
  r ← read_linearizable SYS_GROUP (GetNamespacePolicy namespace);
  match r with
  | ReadNamespacePolicy alg explicit ep => mret ({| algorithm := alg; epoch := ep |}, explicit)
  | _ => unexpected_read
  end.

(** Every lock group, then the system group; the owners cleared on the way. *)
Definition apply_policy_everywhere (op : Op) (idempotency_key : option str) : rm (gset str) :=
  '(responses, failed) ← fanout_apply_resilient (lock_groups routing)
                           (λ _, the_command op idempotency_key);
  match collect_all_cleared responses ∅ with
  | None => unexpected_response
  | Some cleared =>
      if negb (bool_decide (failed = []))
      then fail (NamespacePolicyPartial (sorted_strings cleared) failed)
      else
        cmd ← the_command op idempotency_key;
        resp ← apply_to SYS_GROUP cmd;
        match collect_cleared resp cleared with
        | Some cleared => mret cleared
        | None => unexpected_response
        end
  end.

Definition set_namespace_policy (namespace : str) (algorithm : LockAlgorithm)
    (idempotency_key : option str) : rm (list str) :=
  modify invalidate_namespace_cache;;
  refresh_namespace_cache_if_stale;;
  '(_, explicit) ← namespace_policy_record namespace;
  r ← get_router;
  let route_changes := namespace_route_would_change routing dflt r namespace explicit in
  (if route_changes then ensure_namespace_drained_if_route_changes namespace explicit else mret tt);;
  cleared ← apply_policy_everywhere (SetNamespacePolicy namespace algorithm) idempotency_key;
  '(policy, _) ← namespace_policy_record namespace;
  modify (cache_namespace_entry {| npe_namespace := namespace;
            npe_algorithm := EngineTypes.algorithm policy; npe_epoch := epoch policy |});;
  (if route_changes then pause (sleep_ms NAMESPACE_CACHE_REFRESH_MS) else mret tt);;
  mret (sorted_strings cleared).

Definition delete_namespace_policy (namespace : str) (idempotency_key : option str) : rm (list str) :=
  modify invalidate_namespace_cache;;
  refresh_namespace_cache_if_stale;;
  '(_, explicit) ← namespace_policy_record namespace;
  (if (explicit : bool) then ensure_namespace_drained_before_delete namespace explicit else mret tt);;
  cleared ← apply_policy_everywhere (DeleteNamespacePolicy namespace) idempotency_key;
  modify (uncache_namespace_root namespace);;
  (if (explicit : bool) then pause (sleep_ms NAMESPACE_CACHE_REFRESH_MS) else mret tt);;
  mret (sorted_strings cleared).
End api.
