(* ===== verification/RouterReads.v ===== *)
(** * The router's reads ([src/cluster/router.rs])

    Fencing assertions, the walk of the wait graph, liveness, listings and the
    lock dump over all groups; the garbage collection sweep. *)

From Stdlib Require Import ZArith NArith Lia Strings.Byte.
From stdpp Require Import sorting countable base numbers gmap strings list.
From S2P Require Import Prelude RustStd StoreKeys Store Snapshot EngineTypes Engine Placement.
From S2P Require Import Queue Command StateMachine Reads Router RouterOps RouterApi.
Local Open Scope Z_scope.

Section reads.
Context `{!Bincode StoredRecord, !RocksDb, !Cluster}.
Context `{!Bincode Command, !Bincode ReadOp}.
Context `{!Bincode (ForwardError + ApplyResponse), !Bincode (ForwardError + ReadResult)}.
Context (xxh3_64 : bytes → Z) (routing : RoutingOptions) (dflt : LockAlgorithm).
Context (node_id : Z) (own_client_id : str).

Local Abbreviation apply_to := (apply_to routing node_id).
Local Abbreviation read_on := (read_on dflt node_id).
Local Abbreviation read_linearizable := (read_linearizable dflt node_id).
Local Abbreviation resolve := (resolve_namespace_cached routing dflt).
Local Abbreviation refresh := (refresh_namespace_cache_if_stale dflt node_id).
Local Abbreviation clear_edge := (clear_wait_edge routing node_id own_client_id).

(** ** Fencing *)

Fixpoint assert_each (owner : str) (token : Z) (l : list (str * (GroupId * list str))) : rm AssertOutcome :=
  match l with
  | [] => mret AssertOk
  | (namespace, (group, paths)) :: l =>
      r ← read_linearizable group (AssertFencing namespace owner token paths);
      match r with
      | ReadAssertFencing AssertOk => assert_each owner token l
      | ReadAssertFencing fail => mret fail
      | _ => unexpected_read
      end
  end.
Definition assert_fencing (owner : str) (token : Z) (paths : list str) : rm AssertOutcome :=
  refresh;;
  m ← by_namespace xxh3_64 routing dflt id paths [];
  w ← get_world;
  assert_each owner token (iterate (hash_order w m.*1) m).

(** ** Liveness and blocking *)

(** The namespace and group of a path, after a refresh. *)
Definition route_path (path : str) : rm (str * GroupId) :=
  refresh;;
  r ← get_router;
  let namespace := nr_namespace (resolve r path) in
  group ← with_router (λ r, group_of_domain xxh3_64 routing r namespace);
  mret (namespace, group).

Definition is_blocking (path owner : str) (reason : Reason) : rm bool :=
  '(namespace, group) ← route_path path;
  r ← read_on group (IsBlocking namespace path owner reason);
  match r with ReadBool blocking => mret blocking | _ => unexpected_read end.

Definition is_owner_alive (owner : str) (domains : list str) : rm bool :=
  '(groups, _) ← resolve_domains_to_groups xxh3_64 routing dflt node_id domains;
  any_unordered (λ group, read_on group (IsOwnerAlive owner)) groups.

Definition inspect_path (path : str) : rm PathInfo :=
  '(namespace, group) ← route_path path;
  r ← read_on group (InspectPath namespace path);
  match r with ReadInspectPath info => mret info | _ => unexpected_read end.

Definition list_owner_locks (owner : str) (domains : list str) : rm (bool * list OwnedLock) :=
  '(groups, _) ← resolve_domains_to_groups xxh3_64 routing dflt node_id domains;
  rs ← unordered (λ group,
         r ← read_on group (ListOwnerLocks owner);
         match r with ReadOwnerLocks alive locks => mret (alive, locks) | _ => unexpected_read end) groups;
  mret (existsb fst rs, concat rs.*2).

(** ** The wait graph *)

(** Whether the edge still blocks [current]; stale edges are pruned best-effort. *)
Definition edge_blocks (current : str) (edge : WaitEdge) : rm bool :=
  let next := conflict_owner edge in
  match metadata edge with
  | Some meta =>
      blocking ← is_blocking (conflict_path meta) next (reason meta);
      if (blocking : bool) then mret true
      else attempt (clear_edge current);; mret false
  | None =>
      alive ← is_owner_alive next [];
      if (alive : bool) then mret true
      else attempt (clear_edge current);; attempt (clear_edge next);; mret false
  end.

(** The loop of [detect_cycle]; [visited] and [chain] as there. *)
Fixpoint cycle_walk (fuel : nat) (start current : str) (visited : gset str) (chain : list str)
    : rm CycleOutcome :=
  match fuel with
  | O => mret (Truncated chain)
  | S fuel =>
      if bool_decide (current ∈ visited) then
        match list_find (current =.) chain with
        | Some (pos, _) => mret (Cycle (drop pos chain))
        | None => fail (Panicked (bs "revisited owner is in the chain"))
        end
      else
        let visited := {[ current ]} ∪ visited in
        let chain := chain ++ [current] in
        r ← read_on SYS_GROUP (ReadWaitEdge current);
        match r with
        | ReadEdge None => mret NoCycle
        | ReadEdge (Some edge) =>
            let next := conflict_owner edge in
            blocks ← edge_blocks current edge;
            if negb blocks then mret NoCycle
            else if bool_decide (next = start) then mret (Cycle chain)
            else cycle_walk fuel start next visited chain
        | _ => unexpected_read
        end
  end.
(** [max_depth] is a [u32]; the loop runs [0..=max_depth]. *)
Definition detect_cycle (start : str) (max_depth : Z) : rm CycleOutcome :=
  cycle_walk (S (Z.to_nat max_depth)) start start ∅ [].

(** ** The lock dump *)

Definition encode_cursor (group : GroupId) (rel : option bytes) : bytes :=
  be_bytes 4 group ++ default [] rel.
Definition decode_cursor (cursor : option bytes) : RouterError + (GroupId * option bytes) :=
  match cursor with
  | None => inr (0, None)
  | Some c =>
      if len c <? 4 then inl (RouterOther (bs "malformed dump cursor"))
      else
        let g := from_be (take 4 c) in
        if group_count routing <=? g then inl (RouterOther (bs "dump cursor group out of range"))
        else
          let rest := drop 4 c in
          inr (g, if bool_decide (rest = []) then None else Some rest)
  end.

(** The [loop]: every pass returns or goes to the next group. *)
Fixpoint dump_loop (fuel : nat) (owner_page : Z) (group : GroupId) (rel_cursor : option bytes)
    (es : list LockEntry) : rm LockDumpPage :=
  match fuel with
  | O => fail (RouterOther (bs "out of fuel"))
  | S fuel =>
      let remaining := saturating_sub owner_page (len es) in
      if remaining =? 0
      then mret {| entries := es; next_cursor := Some (encode_cursor group rel_cursor) |}
      else
        r ← read_on group (DumpPage rel_cursor remaining);
        match r with
        | ReadDumpPage page =>
            let es := es ++ entries page in
            match next_cursor page with
            | Some rel => mret {| entries := es; next_cursor := Some (encode_cursor group (Some rel)) |}
            | None =>
                if group_count routing <=? group + 1 then mret {| entries := es; next_cursor := None |}
                else dump_loop fuel owner_page (group + 1) None es
            end
        | _ => unexpected_read
        end
  end.
Definition dump_locks (cursor : option bytes) (owner_page : Z) : rm LockDumpPage :=
  '(group, rel_cursor) ← of_sum (decode_cursor cursor);
  dump_loop (S (Z.to_nat (group_count routing - group))) owner_page group rel_cursor [].

(** ** Garbage collection *)

Definition led_groups (w : World) : list GroupId := filter (λ g, is_leader w g = true) (hosted w).

Definition gc_sweep (group : GroupId) (batch : Z) : rm (Z * Z * list str) :=
  w ← get_world;
  let now_ms := wall_ms w in
  ran ← await spawn_blocking;
  if negb ran then fail (RouterOther (bs "expiry check task failed"))
  else
    w ← get_world;
    if negb (group_has_expiry_due (db_handle w) group now_ms) then mret (0, 0, [])
    else
      resp ← apply_to group {| request_id := None; cmd_now_ms := now_ms; cmd_op := GcSweep now_ms batch |};
      match resp with
      | RGc scanned reclaimed granted => mret (scanned, reclaimed, granted)
      | _ => unexpected_response
      end.
End reads.
