(* ===== verification/MiniCluster.v ===== *)
(** * A small reference cluster

    An instance of [Cluster] over the in-memory store: one node's view of a
    cluster of four.  Node 2 leads every group and applies commands to the
    database, node 3 is a replica that names the leader, node 4 cannot be reached.
    The local node is 1; it hosts the groups, as their leader, or none of them.
    Theorems about the router are evaluated on it. *)

From Stdlib Require Import ZArith NArith Lia Strings.Byte.
From stdpp Require Import sorting countable base numbers gmap strings list.
From S2P Require Import Prelude RustStd StoreKeys Store Instances Snapshot EngineTypes Engine.
From S2P Require Import Placement Queue Command Codecs StateMachine Reads Router RouterOps.
Local Open Scope Z_scope.

(** ** Codecs of the forwarded messages *)

#[export] Instance ser_RequestId : Ser RequestId.
Proof.
  refine (ser_iso (λ r, (client_id r, ri_seq r)) (λ '(c, s), {| client_id := c; ri_seq := s |}) _).
  by intros [].
Defined.
#[export] Instance ser_Command : Ser Command.
Proof.
  refine (ser_iso (λ c, (request_id c, cmd_now_ms c, cmd_op c))
    (λ '(r, n, o), {| request_id := r; cmd_now_ms := n; cmd_op := o |}) _). by intros [].
Defined.
#[export] Instance ser_ReadOp : Ser ReadOp.
Proof.
  refine (ser_iso
    (λ o, match o with
          | AssertFencing ns o t ps => inl (inl (inl (ns, o, t, ps)))
          | InspectPath ns p => inl (inl (inr (ns, p)))
          | IsBlocking ns p o r => inl (inr (inl (ns, p, o, r)))
          | IsOwnerAlive o => inl (inr (inr o))
          | ListOwnerLocks o => inr (inl (inl o))
          | DumpPage c p => inr (inl (inr (c, p)))
          | ReadWaitEdge o => inr (inr (inl (inl o)))
          | GetNamespacePolicy ns => inr (inr (inl (inr ns)))
          | ListNamespaces => inr (inr (inr (inl ())))
          | NamespaceHasLocks ns => inr (inr (inr (inr ns)))
          end)
    (λ x, match x with
          | inl (inl (inl (ns, o, t, ps))) => AssertFencing ns o t ps
          | inl (inl (inr (ns, p))) => InspectPath ns p
          | inl (inr (inl (ns, p, o, r))) => IsBlocking ns p o r
          | inl (inr (inr o)) => IsOwnerAlive o
          | inr (inl (inl o)) => ListOwnerLocks o
          | inr (inl (inr (c, p))) => DumpPage c p
          | inr (inr (inl (inl o))) => ReadWaitEdge o
          | inr (inr (inl (inr ns))) => GetNamespacePolicy ns
          | inr (inr (inr (inl _))) => ListNamespaces
          | inr (inr (inr (inr ns))) => NamespaceHasLocks ns
          end) _). by intros [].
Defined.
#[export] Instance ser_NodeMeta : Ser NodeMeta.
Proof.
  refine (ser_iso (λ m, (name m, raft_addr m, public_addr m, gossip_addr m))
    (λ '(a, b, c, d), {| name := a; raft_addr := b; public_addr := c; gossip_addr := d |}) _).
  by intros [].
Defined.
#[export] Instance ser_ForwardError : Ser ForwardError.
Proof.
  refine (ser_iso
    (λ e, match e with NotLeader l => inl (inl l) | NotHosted => inl (inr ())
          | Unreachable m => inr (inl m) | ForwardOther m => inr (inr m) end)
    (λ x, match x with inl (inl l) => NotLeader l | inl (inr _) => NotHosted
          | inr (inl m) => Unreachable m | inr (inr m) => ForwardOther m end) _). by intros [].
Defined.
#[export] Instance ser_PathInfo : Ser PathInfo.
Proof.
  refine (ser_iso
    (λ p, (pi_write_owner p, pi_read_owners p, pi_fence p, pi_claim_owner p, pi_semaphore_owners p))
    (λ '(w, r, f, c, s), {| pi_write_owner := w; pi_read_owners := r; pi_fence := f;
                            pi_claim_owner := c; pi_semaphore_owners := s |}) _). by intros [].
Defined.
#[export] Instance ser_OwnedLock : Ser OwnedLock.
Proof.
  refine (ser_iso (λ l, (ol_path l, ol_mode l)) (λ '(p, m), {| ol_path := p; ol_mode := m |}) _).
  by intros [].
Defined.
#[export] Instance ser_LockEntry : Ser LockEntry.
Proof.
  refine (ser_iso (λ e, (le_owner e, le_path e, le_mode e, le_fence e))
    (λ '(o, p, m, f), {| le_owner := o; le_path := p; le_mode := m; le_fence := f |}) _). by intros [].
Defined.
#[export] Instance ser_LockDumpPage : Ser LockDumpPage.
Proof.
  refine (ser_iso (λ p, (entries p, next_cursor p)) (λ '(e, n), {| entries := e; next_cursor := n |}) _).
  by intros [].
Defined.
#[export] Instance ser_NamespacePolicyEntry : Ser NamespacePolicyEntry.
Proof.
  refine (ser_iso (λ e, (npe_namespace e, npe_algorithm e, npe_epoch e))
    (λ '(n, a, e), {| npe_namespace := n; npe_algorithm := a; npe_epoch := e |}) _). by intros [].
Defined.
#[export] Instance ser_ReadResult : Ser ReadResult.
Proof.
  refine (ser_iso
    (λ r, match r with
          | ReadAssertFencing o => inl (inl (inl o))
          | ReadInspectPath i => inl (inl (inr i))
          | ReadBool b => inl (inr (inl b))
          | ReadOwnerLocks a l => inl (inr (inr (a, l)))
          | ReadDumpPage p => inr (inl (inl p))
          | ReadEdge e => inr (inl (inr e))
          | ReadNamespacePolicy a e p => inr (inr (inl (a, e, p)))
          | ReadNamespaceList l => inr (inr (inr l))
          end)
    (λ x, match x with
          | inl (inl (inl o)) => ReadAssertFencing o
          | inl (inl (inr i)) => ReadInspectPath i
          | inl (inr (inl b)) => ReadBool b
          | inl (inr (inr (a, l))) => ReadOwnerLocks a l
          | inr (inl (inl p)) => ReadDumpPage p
          | inr (inl (inr e)) => ReadEdge e
          | inr (inr (inl (a, e, p))) => ReadNamespacePolicy a e p
          | inr (inr (inr l)) => ReadNamespaceList l
          end) _). by intros [].
Defined.

(** ** The cluster *)
Module Mini.
#[local] Existing Instance ref_bincode.
#[local] Existing Instance ref_rocksdb.
#[export] Instance entry_codec : Bincode QueueEntry := ref_codec.
#[export] Instance group_codec : Bincode GroupRecord := ref_codec.
#[export] Instance op_codec : Bincode Op := ref_codec.
#[export] Instance response_codec : Bincode (Z * ApplyResponse) := ref_codec.
#[export] Instance command_codec : Bincode Command := ref_codec.
#[export] Instance read_codec : Bincode ReadOp := ref_codec.
#[export] Instance apply_codec : Bincode (ForwardError + ApplyResponse) := ref_codec.
#[export] Instance result_codec : Bincode (ForwardError + ReadResult) := ref_codec.

Definition hash (b : bytes) : Z := from_be b mod 2 ^ 64.
Definition dflt : LockAlgorithm := RecursiveRw.
Definition meta (n : string) : NodeMeta :=
  {| name := bs n; raft_addr := bs n; public_addr := []; gossip_addr := [] |}.
Definition leader_node : Z * NodeMeta := (2, meta "n2").

(** The database the leader has, and the clock. *)
Record state := { st_db : DB; st_now : Z }.

(** Apply a command as the leader does. *)
Definition propose (g : GroupId) (cmd : Command) (w : state) : raft_result ApplyResponse * state :=
  match apply_with_meta hash (st_db w) g cmd None dflt with
  | Ok (db', resp, _) => (RaftOk resp, {| st_db := db'; st_now := st_now w |})
  | Err _ => (RaftFailed (bs "apply"), w)
  end.

Definition deliver (id : Z) (g : GroupId) (payload : bytes) (w : state) : (str + bytes) * state :=
  if id =? 2 then
    match bincode_decode payload with
    | Some cmd =>
        let '(r, w) := propose g cmd w in
        (inr (bincode_encode (A := ForwardError + ApplyResponse)
                match r with RaftOk resp => inr resp | _ => inl (ForwardOther (bs "apply")) end), w)
    | None => (inl (bs "decode"), w)
    end
  else if id =? 3 then
    (inr (bincode_encode (A := ForwardError + ApplyResponse) (inl (NotLeader (Some leader_node)))), w)
  else (inl (bs "connection refused"), w).

Definition deliver_read (id : Z) (g : GroupId) (payload : bytes) (w : state) : (str + bytes) * state :=
  if id =? 2 then
    match bincode_decode payload with
    | Some op =>
        (inr (bincode_encode (A := ForwardError + ReadResult)
                match execute_read_blocking (st_db w) g op dflt (st_now w) with
                | Ok r => inr r
                | Err _ => inl (ForwardOther (bs "read"))
                end), w)
    | None => (inl (bs "decode"), w)
    end
  else if id =? 3 then
    (inr (bincode_encode (A := ForwardError + ReadResult) (inl (NotLeader (Some leader_node)))), w)
  else (inl (bs "connection refused"), w).

Definition at_world {A} (f : state → A * state) (x : Router * state) : A * (Router * state) :=
  let '(a, w) := f x.2 in (a, (x.1, w)).

Lemma reverse_order n : reverse (seq 0 n) ≡ₚ seq 0 n.
Proof. apply reverse_Permutation. Qed.

(** [here]: the node hosts every group and leads it. *)
Definition mini (here : bool) : Cluster := {|
  World := state;
  fsync_healthy _ := true;
  hosts _ _ := here;
  is_leader _ _ := here;
  hosted _ := if here then [0] else [];
  metrics_leader _ _ := None;
  gossip_members _ := Some [(1, meta "n1"); (4, meta "n4"); (3, meta "n3"); (2, meta "n2")];
  db_handle := st_db;
  wall_ms w := wrap_u64 (st_now w);
  cache_elapsed_ms := st_now;
  permit_free _ _ := true;
  refresh_taken _ := false;
  hash_order _ l := reverse l;
  completion_order _ n := reverse (seq 0 n);
  hash_order_perm _ l := reverse_Permutation l;
  completion_order_perm _ n := reverse_order n;
  client_write g cmd := at_world (propose g cmd);
  ensure_linearizable _ x := (RaftOk tt, x);
  spawn_blocking x := (true, x);
  channel_error _ _ _ := None;
  authorize_error _ := None;
  forward_rpc id _ g b := at_world (deliver id g b);
  forward_read_rpc id _ g b := at_world (deliver_read id g b);
  sleep_ms t x := (x.1, {| st_db := st_db x.2; st_now := st_now x.2 + t |});
  lock_refresh x := x;
  refresh_times_out _ := false;
  abandon_refresh x := x
|}.
End Mini.
