(* ===== verification/Controller.v ===== *)
(** * The membership controller ([src/cluster/controller.rs])

    Every node reconciles the groups it leads: it adds the voters a group should
    have as learners, moves the voter set when that is safe, lets leadership
    drift to the preferred voter, and refreshes the directory.  Times are in
    milliseconds.  openraft's membership calls are parameters; what the
    controller asked of them is recorded. *)

From Stdlib Require Import ZArith NArith Lia Strings.Byte.
From stdpp Require Import sorting countable base numbers gmap strings list.
From S2P Require Import Prelude RustStd StoreKeys Store Snapshot EngineTypes Engine Placement.
From S2P Require Import Queue Command Codecs StateMachine Reads Gossip Router RouterOps.
From S2P Require Import RouterApi Instances MiniCluster.
Local Open Scope Z_scope.

Definition LEARNER_CATCH_UP_WAIT : Z := 3000.

Record ControllerOptions := {
  co_group_count : Z;
  replication_factor : Z;
  stability_window : Z;
  eviction_window : Z;
  reconcile_interval : Z;
  leader_balance_interval : Z;
  max_concurrent_reconciles : Z
}.
Definition default_controller_options : ControllerOptions :=
  {| co_group_count := 256; replication_factor := 3; stability_window := 30000; eviction_window := 60000;
     reconcile_interval := 5000; leader_balance_interval := 60000; max_concurrent_reconciles := 4 |}.

(** ** Presence *)

Record Presence := { started : Z; first_seen : gmap Z Z; last_seen : gmap Z Z }.
Definition presence_new (now : Z) : Presence := {| started := now; first_seen := ∅; last_seen := ∅ |}.

(** [Instant::duration_since], which saturates at zero. *)
Definition duration_since (now t : Z) : Z := Z.max (now - t) 0.
(** The largest [Duration]. *)
Definition DURATION_MAX : Z := u64_max * 1000 + 999.

Definition observe (members : MemberMap) (now : Z) (p : Presence) : Presence :=
  let seen := (λ _, now) <$> members in
  {| started := started p;
     first_seen := filter (λ x, is_Some (members !! x.1)) (first_seen p ∪ seen);
     last_seen := seen ∪ last_seen p |}.
Definition prune (keep now : Z) (p : Presence) : Presence :=
  {| started := started p; first_seen := first_seen p;
     last_seen := filter (λ x, duration_since now x.2 < keep) (last_seen p) |}.
Definition stays (p : Presence) (window now : Z) (id : Z) : bool :=
  match first_seen p !! id with Some t => window <=? duration_since now t | None => false end.
Definition stable_nodes (p : Presence) (members : MemberMap) (window now : Z) : gmap Z NodeMeta :=
  ni_meta <$> filter (λ x, stays p window now x.1 = true) members.
Definition evictable (p : Presence) (node window now : Z) : bool :=
  window <=? duration_since now (default (started p) (last_seen p !! node)).

(** ** Replication lag *)

(** The membership and progress openraft reports; log ids by their index. *)
Record RaftMetrics := {
  voter_ids : gset Z;
  member_nodes : gset Z;
  replication : option (gmap Z (option Z));
  last_log_index : option Z
}.
Definition replication_lag (matched last : option Z) : Z :=
  let next i := match i with Some i => saturating_add i 1 | None => 0 end in
  saturating_sub (next last) (next matched).
Definition learner_replication_lag (m : RaftMetrics) (node : Z) (last : option Z) : option Z :=
  r ← replication m; matched ← r !! node; Some (replication_lag matched last).

(** ** What the controller runs on *)

#[local] Instance GroupRecord_eq_dec : EqDecision GroupRecord.
Proof. solve_decision. Defined.

Inductive learner_result := LearnerAdded | LearnerFailed | LearnerTimedOut.

Class Membership `{!RocksDb, !Cluster} := {
  metrics : World → GroupId → option RaftMetrics;
  replication_lag_threshold : Z;
  add_learner : GroupId → Z → NodeMeta → bool → option Z → Router * World → learner_result * (Router * World);
  change_membership : GroupId → gset Z → bool → Router * World → bool * (Router * World);
  transfer_leader : GroupId → Z → Router * World → Router * World
}.

(** What was asked of a group; a change of voters with the metrics it was decided
    on. *)
Inductive action :=
| AddedLearner (group : GroupId) (node : Z) (blocking : bool) (r : learner_result)
| ChangedMembership (group : GroupId) (read : RaftMetrics) (to : gset Z) (ok : bool)
| TransferredLeader (group : GroupId) (to : Z)
| UpdatedDirectory (group : GroupId) (record : GroupRecord).

Record Controller `{!RocksDb, !Cluster} := { node : Node; actions : list action }.

Definition by_id (a b : Z * NodeMeta) : Prop := a.1 ≤ b.1.
#[local] Instance by_id_dec a b : Decision (by_id a b).
Proof. unfold by_id. apply _. Defined.

Section controller.
Context `{!Bincode StoredRecord, !RocksDb, !Cluster, !Membership}.
Context `{!Bincode Command, !Bincode ReadOp, !Bincode GroupRecord}.
Context `{!Bincode (ForwardError + ApplyResponse), !Bincode (ForwardError + ReadResult)}.
Context (xxh3_64 : bytes → Z) (routing : RoutingOptions) (node_id : Z) (own_client_id : str).

(** A failed step ends a reconcile. *)
Definition cm (A : Type) : Type := Controller → option A * Controller.
#[export] Instance cm_ret : MRet cm := λ A a c, (Some a, c).
#[export] Instance cm_bind : MBind cm := λ A B f m c,
  match m c with (Some a, c) => f a c | (None, c) => (None, c) end.
Definition failed {A} : cm A := λ c, (None, c).
Definition tell (a : action) : cm unit := λ c, (Some tt, {| node := node c; actions := actions c ++ [a] |}).
Definition routed {A} (m : rm A) : cm (RouterError + A) := λ c,
  let '(r, n) := m (node c) in (Some r, {| node := n; actions := actions c |}).
Definition raft {A} (f : Router * World → A * (Router * World)) : cm A := λ c,
  let '(r, n) := await f (node c) in
  (match r with inr a => Some a | inl _ => None end, {| node := n; actions := actions c |}).
Definition the_world : cm World := λ c, (Some (world (node c)), c).

(** ** Reconciling one group *)

Definition desired_list (opts : ControllerOptions) (group : GroupId) (stable : gmap Z NodeMeta) : list Z :=
  let stable_ids := ascending (dom stable) in
  select_voters xxh3_64 group stable_ids (rf_effective (replication_factor opts) (len stable_ids)).
Definition desired_set (opts : ControllerOptions) (group : GroupId) (stable : gmap Z NodeMeta) : gset Z :=
  list_to_set (desired_list opts group stable).

(** Phase 1: whether anything changed, and who caught up. *)
Fixpoint add_voters (group : GroupId) (m : RaftMetrics) (stable : gmap Z NodeMeta) (nodes : list Z)
    (changed : bool) (caught : gset Z) : cm (bool * gset Z) :=
  match nodes with
  | [] => mret (changed, caught)
  | n :: nodes =>
      if bool_decide (n ∈ member_nodes m) then add_voters group m stable nodes changed caught
      else match stable !! n with
           | None => add_voters group m stable nodes changed caught
           | Some meta =>
               r ← raft (add_learner group n meta true (Some LEARNER_CATCH_UP_WAIT));
               tell (AddedLearner group n true r);;
               match r with
               | LearnerAdded => add_voters group m stable nodes true ({[n]} ∪ caught)
               | LearnerFailed => failed
               | LearnerTimedOut => add_voters group m stable nodes true caught
               end
           end
  end.
(** The system group's extra learners. *)
Fixpoint add_sys_learners (m : RaftMetrics) (desired : gset Z) (nodes : list (Z * NodeMeta)) (changed : bool) : cm bool :=
  match nodes with
  | [] => mret changed
  | (n, meta) :: nodes =>
      if bool_decide (n ∈ member_nodes m) || bool_decide (n ∈ desired) then add_sys_learners m desired nodes changed
      else
        r ← raft (add_learner SYS_GROUP n meta false None);
        tell (AddedLearner SYS_GROUP n false r);;
        match r with
        | LearnerAdded => add_sys_learners m desired nodes true
        | _ => failed
        end
  end.

Definition promotion_blockers (m : RaftMetrics) (desired caught : gset Z) : list Z :=
  List.filter (λ n,
      negb (bool_decide (n ∈ caught)) &&
      match learner_replication_lag m n (last_log_index m) with
      | Some lag => replication_lag_threshold <? lag
      | None => true
      end) (ascending (desired ∖ voter_ids m)).
(** Phase 2, past the blockers. *)
Definition move_voters (group : GroupId) (m : RaftMetrics) (stable : gmap Z NodeMeta) (p : Presence)
    (opts : ControllerOptions) (desired : gset Z) (now : Z) (changed : bool) : cm bool :=
  let live_new := Z.of_nat (size (filter (λ n, is_Some (stable !! n)) desired)) in
  if live_new <=? Z.of_nat (size desired) / 2 then mret changed
  else
    let departing_dead := List.filter (λ n, negb (bool_decide (is_Some (stable !! n)))) (ascending (voter_ids m ∖ desired)) in
    if forallb (λ n, evictable p n (eviction_window opts) now) departing_dead then
      ok ← raft (change_membership group desired false);
      tell (ChangedMembership group m desired ok);;
      if ok : bool then mret true else failed
    else mret changed.

(** Phase 3. *)
Definition balance (opts : ControllerOptions) (group : GroupId) (m : RaftMetrics) (stable : gmap Z NodeMeta)
    (desired : gset Z) (balance_due changed : bool) : cm unit :=
  if balance_due && negb changed then
    match head (List.filter (λ n, bool_decide (n ∈ desired) && bool_decide (n ∈ voter_ids m)) (desired_list opts group stable)) with
    | Some preferred =>
        if preferred =? node_id then mret tt
        else raft (λ x, (tt, transfer_leader group preferred x));; tell (TransferredLeader group preferred)
    | None => mret tt
    end
  else mret tt.
(** Phase 4. *)
Definition refresh_directory (group : GroupId) (m : RaftMetrics) (desired : gset Z) : cm unit :=
  w ← the_world;
  let record := {| voters := ascending desired; learners := ascending (member_nodes m ∖ desired); leader := Some node_id |} in
  let already_published :=
    match read_group_record (db_handle w) group with
    | Ok (Some current) => bool_decide (current = record)
    | _ => false
    end in
  if already_published then mret tt
  else
    _ ← routed (propose_sys routing node_id own_client_id
                  (DirectoryUpdate group (voters record) (learners record) (leader record)));
    tell (UpdatedDirectory group record).

Definition reconcile_group (group : GroupId) (stable : gmap Z NodeMeta) (p : Presence) (opts : ControllerOptions)
    (balance_due : bool) (now : Z) : cm bool :=
  w ← the_world;
  if negb (hosts w group) then mret false
  else match metrics w group with
  | None => mret false
  | Some m =>
      let desired := desired_set opts group stable in
      if bool_decide (desired = ∅) then mret false
      else
        '(changed, caught) ← add_voters group m stable (ascending desired) false ∅;
        changed ← (if group =? SYS_GROUP
                   then add_sys_learners m desired (merge_sort by_id (map_to_list stable)) changed
                   else mret changed);
        let finish changed :=
          balance opts group m stable desired balance_due changed;;
          refresh_directory group m desired;;
          mret changed in
        if bool_decide (desired = voter_ids m) then finish changed
        else match promotion_blockers m desired caught with
             | _ :: _ => mret changed
             | [] => changed ← move_voters group m stable p opts desired now changed; finish changed
             end
  end.

(** ** One tick of the loop *)

Record Tick := { t_presence : Presence; last_balance : Z }.

(** The groups hosted, in turn; a failed reconcile is tried again next tick. *)
Fixpoint reconcile_groups (gs : list GroupId) (reconciled : Z) (stable : gmap Z NodeMeta) (p : Presence)
    (opts : ControllerOptions) (balance_due : bool) (now : Z) : cm unit :=
  match gs with
  | [] => mret tt
  | g :: gs =>
      w ← the_world;
      if negb (is_leader w g) then reconcile_groups gs reconciled stable p opts balance_due now
      else if max_concurrent_reconciles opts <=? reconciled then mret tt
      else λ c,
        let '(r, c) := reconcile_group g stable p opts balance_due now c in
        let reconciled := match r with Some true => reconciled + 1 | _ => reconciled end in
        reconcile_groups gs reconciled stable p opts balance_due now c
  end.

Definition compatible (local : NodeIdentity) (catalog : MemberMap) : MemberMap :=
  filter (λ x, config_fingerprint x.2 = config_fingerprint local) catalog.
(** The nodes that count as stable: continuously up, or the node itself, and not
    draining. *)
Definition stable_set (p : Presence) (members : MemberMap) (local : NodeIdentity) (draining : gset Z)
    (opts : ControllerOptions) (now : Z) : gmap Z NodeMeta :=
  filter (λ x, x.1 ∉ draining)
    (<[ni_node_id local := ni_meta local]> (stable_nodes p members (stability_window opts) now)).
Definition next_presence (opts : ControllerOptions) (members : MemberMap) (now : Z) (p : Presence) : Presence :=
  prune (Z.min (eviction_window opts * 2) DURATION_MAX) now (observe members now p).

Definition tick (opts : ControllerOptions) (catalog : MemberMap) (local : NodeIdentity) (now : Z) (t : Tick)
    : Controller → Tick * Controller := λ c,
  let members := compatible local catalog in
  let p := next_presence opts members now (t_presence t) in
  let stable := stable_set p members local (read_draining (db_handle (world (node c)))) opts now in
  let balance_due := leader_balance_interval opts <=? duration_since now (last_balance t) in
  let '(_, c') := reconcile_groups (hosted (world (node c))) 0 stable p opts balance_due now c in
  ({| t_presence := p; last_balance := if balance_due then now else last_balance t |}, c').
End controller.

(** ** Presence over a run *)

(** The instants of the past ticks with the compatible members seen at each. *)
Definition watched (opts : ControllerOptions) (t0 : Z) (ticks : list (Z * MemberMap)) : Presence :=
  foldl (λ p x, next_presence opts x.2 x.1 p) (presence_new t0) ticks.
(** The clock never goes back. *)
Definition in_time (t0 : Z) (ticks : list (Z * MemberMap)) (now : Z) : Prop :=
  StronglySorted Z.le (t0 :: ticks.*1 ++ [now]).
Definition seen_at (x : Z * MemberMap) (id : Z) : Prop := is_Some (x.2 !! id).

Section presence.
Context (opts : ControllerOptions) (t0 : Z).
Hypothesis window_range : 0 ≤ eviction_window opts ≤ DURATION_MAX.

Lemma in_time_snoc ticks x now :
  in_time t0 (ticks ++ [x]) now → in_time t0 ticks x.1 ∧ x.1 ≤ now ∧ t0 ≤ x.1 ∧ ∀ y, y ∈ ticks → y.1 ≤ x.1.
Proof.
  unfold in_time. rewrite fmap_app. cbn [fmap list_fmap]. intros Hs.
  change (t0 :: (ticks.*1 ++ [x.1]) ++ [now]) with ((t0 :: ticks.*1 ++ [x.1]) ++ [now]) in Hs.
  apply StronglySorted_app in Hs as (Hc & Hl & _). split; [done|].
  split; [apply Hc; [|by left]; set_solver|].
  change (t0 :: ticks.*1 ++ [x.1]) with ((t0 :: ticks.*1) ++ [x.1]) in Hl.
  apply StronglySorted_app in Hl as (Hl & _ & _).
  split; [apply Hl; by left|]. intros y Hy. apply Hl; [right|by left]. by apply list_elem_of_fmap_2.
Qed.
Lemma in_time_now ticks now : in_time t0 ticks now → t0 ≤ now ∧ ∀ y, y ∈ ticks → y.1 ≤ now.
Proof.
  unfold in_time. change (t0 :: ticks.*1 ++ [now]) with ((t0 :: ticks.*1) ++ [now]).
  intros (Hl & _ & _)%StronglySorted_app. split; [apply Hl; by left|].
  intros y Hy. apply Hl; [right|by left]. by apply list_elem_of_fmap_2.
Qed.
Lemma watched_snoc ticks x : watched opts t0 (ticks ++ [x]) = next_presence opts x.2 x.1 (watched opts t0 ticks).
Proof. unfold watched. by rewrite foldl_app. Qed.
Lemma watched_started ticks : started (watched opts t0 ticks) = t0.
Proof. induction ticks as [|x ticks IH] using rev_ind; [done|]. by rewrite watched_snoc. Qed.

Definition keep : Z := Z.min (eviction_window opts * 2) DURATION_MAX.
Lemma next_last_seen p members now id :
  last_seen (next_presence opts members now p) !! id =
    match (if members !! id then Some now else last_seen p !! id) with
    | Some t => if decide (duration_since now t < keep) then Some t else None
    | None => None
    end.
Proof.
  cbn. rewrite map_lookup_filter, lookup_union, lookup_fmap.
  destruct (members !! id); cbn.
  - rewrite union_Some_l. cbn. fold keep. destruct (decide _); [by rewrite option_guard_True|by rewrite option_guard_False].
  - rewrite (left_id_L None _). destruct (last_seen p !! id); [|done]. cbn. fold keep.
    destruct (decide _); [by rewrite option_guard_True|by rewrite option_guard_False].
Qed.
Lemma next_first_seen p members now id :
  first_seen (next_presence opts members now p) !! id =
    if members !! id then Some (default now (first_seen p !! id)) else None.
Proof.
  cbn. rewrite map_lookup_filter, lookup_union, lookup_fmap. destruct (members !! id) eqn:Hm; cbn.
  - destruct (first_seen p !! id); cbn; by rewrite Hm.
  - destruct (first_seen p !! id); cbn; by rewrite ?Hm.
Qed.
(** What the last sightings tell of the past. *)
Lemma last_seen_spec ticks now id :
  in_time t0 ticks now →
  match last_seen (watched opts t0 ticks) !! id with
  | Some t => t0 ≤ t ∧ (∃ x, x ∈ ticks ∧ x.1 = t ∧ seen_at x id) ∧ ∀ x, x ∈ ticks → seen_at x id → x.1 ≤ t
  | None => ∀ x, x ∈ ticks → seen_at x id → x.1 + keep ≤ now
  end.
Proof.
  revert now. induction ticks as [|x ticks IH] using rev_ind; intros now Ht.
  { cbn. rewrite lookup_empty. intros x Hx. by apply not_elem_of_nil in Hx. }
  apply in_time_snoc in Ht as (Ht & Hn & H0 & Hle). specialize (IH _ Ht).
  rewrite watched_snoc, next_last_seen. destruct (x.2 !! id) eqn:Hx.
  - assert (seen_at x id) by (unfold seen_at; by rewrite Hx). unfold duration_since.
    destruct (decide _) as [Hk|Hk].
    + split; [done|]. split; [exists x; set_solver|]. intros y [Hy|Hy]%elem_of_app Hs; [by apply Hle|].
      by apply list_elem_of_singleton in Hy as ->.
    + intros y [Hy|Hy]%elem_of_app Hs; [specialize (Hle y Hy)|apply list_elem_of_singleton in Hy as ->]; lia.
  - assert (¬ seen_at x id) as Hns by (unfold seen_at; rewrite Hx; by intros [? ?]).
    destruct (last_seen (watched opts t0 ticks) !! id) as [t|].
    + destruct IH as (H0' & (z & Hz & Hzt & Hzs) & Hmax). unfold duration_since. destruct (decide _) as [Hk|Hk].
      * split; [done|]. split; [exists z; set_solver|]. intros y [Hy|Hy]%elem_of_app Hs; [by apply Hmax|].
        by apply list_elem_of_singleton in Hy as ->.
      * intros y [Hy|Hy]%elem_of_app Hs; [|by apply list_elem_of_singleton in Hy as ->].
        specialize (Hmax y Hy Hs). specialize (Hle z Hz). lia.
    + intros y [Hy|Hy]%elem_of_app Hs; [|by apply list_elem_of_singleton in Hy as ->]. specialize (IH y Hy Hs). lia.
Qed.
(** A node is evictable when it was not seen within the window, by a tracker that
    has watched that long. *)
Lemma evictable_spec ticks now id :
  in_time t0 ticks now →
  evictable (watched opts t0 ticks) id (eviction_window opts) now = true ↔
  t0 ≤ now - eviction_window opts ∧ ∀ x, x ∈ ticks → seen_at x id → x.1 ≤ now - eviction_window opts.
Proof.
  intros Ht. pose proof (last_seen_spec ticks now id Ht) as Hl. apply in_time_now in Ht as [H0 Hle].
  unfold evictable, duration_since. rewrite watched_started, Z.leb_le.
  assert (eviction_window opts ≤ keep) by (unfold keep; lia).
  destruct (last_seen (watched opts t0 ticks) !! id) as [t|]; cbn [default Datatypes.id].
  - destruct Hl as (H0' & (z & Hz & Hzt & Hzs) & Hmax). specialize (Hle z Hz). split.
    + intros Hw. split; [lia|]. intros x Hx Hs. specialize (Hmax x Hx Hs). lia.
    + intros [_ Hall]. specialize (Hall z Hz Hzs). lia.
  - split; [|lia]. intros Hw. split; [lia|]. intros x Hx Hs. specialize (Hl x Hx Hs). lia.
Qed.

(** The tail of the past ticks, from [x] on, at each of which the node was seen. *)
Definition up_from (ticks : list (Z * MemberMap)) (id : Z) (x : Z * MemberMap) : Prop :=
  ∃ pre run, ticks = pre ++ x :: run ∧ Forall (λ y, seen_at y id) (x :: run).
Lemma up_from_snoc ticks y id x :
  up_from (ticks ++ [y]) id x ↔ seen_at y id ∧ (x = y ∨ up_from ticks id x).
Proof.
  split.
  - intros (pre & run & Heq & Hf). destruct run as [|z run _] using rev_ind.
    + apply app_inj_tail in Heq as [-> ->]. apply Forall_cons in Hf as [? _]. auto.
    + rewrite app_comm_cons, app_assoc in Heq. apply app_inj_tail in Heq as [-> ->].
      rewrite app_comm_cons in Hf. apply Forall_app in Hf as [Hf Hz]. apply Forall_cons in Hz as [Hz _].
      split; [done|]. right. by exists pre, run.
  - intros [Hy [->|(pre & run & -> & Hf)]].
    + exists ticks, []. split; [done|]. by constructor.
    + exists pre, (run ++ [y]). rewrite <- app_assoc. split; [done|]. rewrite app_comm_cons. apply Forall_app.
      split; [done|]. by constructor.
Qed.
Lemma first_seen_spec ticks now id :
  in_time t0 ticks now →
  (∀ t, first_seen (watched opts t0 ticks) !! id = Some t → ∃ x, up_from ticks id x ∧ x.1 = t) ∧
  (∀ x, up_from ticks id x → ∃ t, first_seen (watched opts t0 ticks) !! id = Some t ∧ t ≤ x.1).
Proof.
  revert now. induction ticks as [|y ticks IH] using rev_ind; intros now Ht.
  { split; [by intros t; cbn; rewrite lookup_empty|]. intros x (pre & run & Heq & _). by destruct pre. }
  apply in_time_snoc in Ht as (Ht & _ & _ & Hle). destruct (IH _ Ht) as [IH1 IH2].
  rewrite watched_snoc, next_first_seen. destruct (y.2 !! id) eqn:Hy.
  - assert (Hs : seen_at y id) by (unfold seen_at; by rewrite Hy). split.
    + intros t [= <-]. destruct (first_seen (watched opts t0 ticks) !! id) as [t|]; cbn.
      * destruct (IH1 t eq_refl) as (x & Hx & <-). exists x. rewrite up_from_snoc. auto.
      * exists y. rewrite up_from_snoc. auto.
    + intros x. rewrite up_from_snoc. intros [_ [->|Hx]]; (eexists; split; [done|]).
      * destruct (first_seen (watched opts t0 ticks) !! id) as [t|]; cbn; [|lia].
        destruct (IH1 t eq_refl) as (x & (pre & run & -> & _) & <-). apply Hle. set_solver.
      * destruct (IH2 x Hx) as (t & -> & ?). done.
  - assert (Hns : ¬ seen_at y id) by (unfold seen_at; rewrite Hy; by intros [? ?]). split; [done|].
    intros x. rewrite up_from_snoc. by intros [? _].
Qed.
Lemma stays_spec ticks now window id :
  in_time t0 ticks now → 0 ≤ window →
  stays (watched opts t0 ticks) window now id = true ↔ ∃ x, up_from ticks id x ∧ x.1 ≤ now - window.
Proof.
  intros Ht Hw. destruct (first_seen_spec ticks now id Ht) as [H1 H2]. apply in_time_now in Ht as [_ Hle].
  unfold stays, duration_since. split.
  - destruct (first_seen _ !! id) as [t|] eqn:Hf; [|done]. rewrite Z.leb_le. intros Hd.
    destruct (H1 t eq_refl) as (x & Hx & <-). exists x. split; [done|].
    assert (x ∈ ticks) as Hin by (destruct Hx as (pre & run & -> & _); set_solver). specialize (Hle x Hin). lia.
  - intros (x & Hx & Hd). destruct (H2 x Hx) as (t & -> & ?). apply Z.leb_le. lia.
Qed.
End presence.

(** ** What a reconcile asks of openraft *)

Definition is_change (a : action) : bool := match a with ChangedMembership _ _ _ _ => true | _ => false end.
Definition is_ok_change (a : action) : bool := match a with ChangedMembership _ _ _ ok => ok | _ => false end.
Definition ok_changes (new : list action) : Z := len (List.filter is_ok_change new).
Definition no_change (new : list action) : Prop := Forall (λ a, is_change a = false) new.

Lemma ok_changes_app l1 l2 : ok_changes (l1 ++ l2) = ok_changes l1 + ok_changes l2.
Proof. unfold ok_changes, len. rewrite List.filter_app, length_app. lia. Qed.
Lemma no_change_ok l : no_change l → ok_changes l = 0.
Proof. intros H. induction H as [|a l Ha Hl IH]; [done|]. unfold ok_changes in *. cbn. by destruct a. Qed.

Section guards.
Context `{!Bincode StoredRecord, !RocksDb, !Cluster, !Membership}.
Context `{!Bincode Command, !Bincode ReadOp, !Bincode GroupRecord}.
Context `{!Bincode (ForwardError + ApplyResponse), !Bincode (ForwardError + ReadResult)}.
Context (xxh3_64 : bytes → Z) (routing : RoutingOptions) (node_id : Z) (own_client_id : str).

(** The actions a computation adds, with its result. *)
Definition adds {A} (Q : option A → list action → Prop) (m : cm A) : Prop :=
  ∀ c, ∃ new, actions (m c).2 = actions c ++ new ∧ Q (m c).1 new.

Lemma adds_ret {A} (Q : option A → list action → Prop) (a : A) : Q (Some a) [] → adds Q (mret a).
Proof. intros HQ c. exists []. by rewrite app_nil_r. Qed.
Lemma adds_failed {A} (Q : option A → list action → Prop) : Q None [] → adds Q failed.
Proof. intros HQ c. exists []. by rewrite app_nil_r. Qed.
Lemma adds_tell (Q : option unit → list action → Prop) a : Q (Some tt) [a] → adds Q (tell a).
Proof. intros HQ c. by exists [a]. Qed.
Lemma adds_quiet {A} (Q : option A → list action → Prop) (m : cm A) :
  (∀ c, actions (m c).2 = actions c ∧ Q (m c).1 []) → adds Q m.
Proof. intros HQ c. exists []. rewrite app_nil_r. apply HQ. Qed.
Lemma adds_bind {A B} (Q1 : option A → list action → Prop) (Q : option B → list action → Prop) m (f : A → cm B) :
  adds Q1 m → (∀ l, Q1 None l → Q None l) →
  (∀ a l, Q1 (Some a) l → adds (λ r l', Q r (l ++ l')) (f a)) → adds Q (m ≫= f).
Proof.
  intros Hm Hn Hf c. destruct (Hm c) as (l & Hl & HQ). unfold mbind, cm_bind.
  destruct (m c) as [[a|] c1]; cbn in *; [|by exists l; auto].
  destruct (Hf a l HQ c1) as (l' & Hl' & HQ'). exists (l ++ l'). by rewrite Hl', Hl, <- app_assoc.
Qed.
Lemma adds_mono {A} (Q Q' : option A → list action → Prop) m :
  adds Q m → (∀ r l, Q r l → Q' r l) → adds Q' m.
Proof. intros Hm HQ c. destruct (Hm c) as (l & ? & ?). eauto. Qed.
Lemma adds_world {A} (Q : option A → list action → Prop) (f : World → cm A) :
  (∀ w, adds Q (f w)) → adds Q (the_world ≫= f).
Proof. intros Hf c. apply (Hf (world (node c)) c). Qed.
Lemma adds_raft {A B} (Q : option B → list action → Prop) f (k : A → cm B) :
  (∀ a, adds Q (k a)) → adds Q (raft f ≫= k).
Proof.
  intros Hk c. unfold mbind, cm_bind, raft, await. destruct (f _) as [a [r w]]. cbn.
  destruct (Hk a {| node := {| router := r; world := w; events := events (node c) |}; actions := actions c |}) as (l & Hl & HQ).
  by exists l.
Qed.
Lemma adds_routed {A B} (Q : option B → list action → Prop) (m : rm A) (k : RouterError + A → cm B) :
  (∀ a, adds Q (k a)) → adds Q (routed m ≫= k).
Proof.
  intros Hk c. unfold mbind, cm_bind, routed. destruct (m (node c)) as [r n].
  destruct (Hk r {| node := n; actions := actions c |}) as (l & Hl & HQ). by exists l.
Qed.

Lemma adds_tell_then {B} (Q : option B → list action → Prop) a (k : cm B) :
  adds (λ r l, Q r (a :: l)) k → adds Q (tell a ;; k).
Proof.
  intros Hk c. destruct (Hk {| node := node c; actions := actions c ++ [a] |}) as (l & Hl & HQ).
  exists (a :: l). split; [|done]. cbn in Hl. by rewrite <- app_assoc in Hl.
Qed.

Lemma add_voters_adds group m stable nodes changed caught :
  adds (λ r l, no_change l ∧
          match r with
          | Some (_, caught') => ∀ n, n ∈ caught' → n ∈ caught ∨ AddedLearner group n true LearnerAdded ∈ l
          | None => True
          end) (add_voters group m stable nodes changed caught).
Proof.
  revert changed caught. induction nodes as [|n nodes IH]; intros changed caught; cbn [add_voters].
  { apply adds_ret. split; [constructor|]. auto. }
  destruct (bool_decide _); [apply IH|]. destruct (stable !! n) as [meta|]; [|apply IH].
  apply adds_raft. intros r. apply adds_tell_then. destruct r.
  - eapply adds_mono; [apply IH|]. intros r l [Hl Hr]. split; [by constructor|]. destruct r as [[? c']|]; [|done].
    intros n' Hn'. apply Hr in Hn' as [Hn'|Hn']; [|right; by right].
    apply elem_of_union in Hn' as [->%elem_of_singleton|]; [right; left|by left].
  - apply adds_failed. by split; [repeat constructor|].
  - eapply adds_mono; [apply IH|]. intros r l [Hl Hr]. split; [by constructor|]. destruct r as [[? c']|]; [|done].
    intros n' [|]%Hr; [by left|right; by right].
Qed.
Lemma add_sys_learners_adds m desired nodes changed :
  adds (λ _ l, no_change l) (add_sys_learners m desired nodes changed).
Proof.
  revert changed. induction nodes as [|[n meta] nodes IH]; intros changed; cbn [add_sys_learners].
  { apply adds_ret. constructor. }
  destruct (_ || _); [apply IH|]. apply adds_raft. intros r. apply adds_tell_then.
  destruct r; [eapply adds_mono; [apply IH|]; intros; by constructor|apply adds_failed|apply adds_failed];
    repeat constructor.
Qed.
Lemma balance_adds opts group m stable desired due changed :
  adds (λ r l, no_change l ∧ r = Some tt) (balance xxh3_64 node_id opts group m stable desired due changed).
Proof.
  unfold balance. destruct (_ && _); [|by apply adds_ret; split; [constructor|]].
  destruct (head _) as [preferred|]; [|by apply adds_ret; split; [constructor|]].
  destruct (_ =? _); [by apply adds_ret; split; [constructor|]|].
  apply adds_raft. intros _. apply adds_tell. by repeat constructor.
Qed.
Lemma refresh_directory_adds group m desired :
  adds (λ r l, no_change l ∧ r = Some tt) (refresh_directory routing node_id own_client_id group m desired).
Proof.
  unfold refresh_directory. apply adds_world. intros w. destruct (match read_group_record _ _ with Ok _ => _ | Err _ => _ end).
  - by apply adds_ret; split; [constructor|].
  - apply adds_routed. intros _. apply adds_tell. by repeat constructor.
Qed.

Section one_tick.
Context (stable : gmap Z NodeMeta) (p : Presence) (opts : ControllerOptions) (now : Z).

(** When the voters of a group may change: to what the stable nodes give, with
    every new voter caught up and every dead one that leaves past the window. *)
Definition may_change (l : list action) (g : GroupId) (m : RaftMetrics) (to : gset Z) : Prop :=
  to = desired_set xxh3_64 opts g stable ∧ to ≠ ∅ ∧
  (∀ n, n ∈ to → n ∉ voter_ids m →
     AddedLearner g n true LearnerAdded ∈ l ∨
     ∃ lag, learner_replication_lag m n (last_log_index m) = Some lag ∧ lag ≤ replication_lag_threshold) ∧
  (∀ n, n ∈ voter_ids m → n ∉ to → is_Some (stable !! n) ∨ evictable p n (eviction_window opts) now = true).
Definition guarded (l : list action) (a : action) : Prop :=
  match a with ChangedMembership g m to _ => may_change l g m to | _ => True end.
Definition all_guarded (l : list action) : Prop := ∀ a, a ∈ l → guarded l a.

Lemma guarded_sub l l' a : (∀ x, x ∈ l → x ∈ l') → guarded l a → guarded l' a.
Proof.
  intros Hs. destruct a as [| g m to ok | |]; cbn; try done. intros (? & ? & Hc & ?).
  split; [done|]. split; [done|]. split; [|done]. intros n Hn Hv. destruct (Hc n Hn Hv) as [?|?]; auto.
Qed.
Lemma all_guarded_app l1 l2 : all_guarded l1 → (∀ a, a ∈ l2 → guarded (l1 ++ l2) a) → all_guarded (l1 ++ l2).
Proof.
  intros Hl1 Hl2 a [Ha|Ha]%elem_of_app; [|by apply Hl2]. apply guarded_sub with l1; [set_solver|by apply Hl1].
Qed.
Lemma no_change_guarded l l' : no_change l → ∀ a, a ∈ l → guarded l' a.
Proof. unfold no_change. rewrite Forall_forall. intros Hl a Ha%Hl. by destruct a. Qed.

Lemma elem_of_ascending (s : gset Z) n : n ∈ ascending s ↔ n ∈ s.
Proof. unfold ascending. by rewrite merge_sort_Permutation, elem_of_elements. Qed.
Lemma no_blockers m desired caught n :
  promotion_blockers m desired caught = [] → n ∈ desired → n ∉ voter_ids m →
  n ∈ caught ∨ ∃ lag, learner_replication_lag m n (last_log_index m) = Some lag ∧ lag ≤ replication_lag_threshold.
Proof.
  intros Hb Hn Hv. destruct (decide (n ∈ caught)) as [|Hc]; [by left|]. right.
  assert (¬ In n (promotion_blockers m desired caught)) as Hin by (rewrite Hb; intros []).
  unfold promotion_blockers in Hin. rewrite filter_In, <- list_elem_of_In, elem_of_ascending in Hin.
  rewrite bool_decide_false in Hin by done. cbn in Hin.
  destruct (learner_replication_lag m n (last_log_index m)) as [lag|]; [|exfalso; apply Hin; set_solver].
  exists lag. split; [done|]. apply Z.nlt_ge. intros Hlt. apply Hin. split; [set_solver|by apply Z.ltb_lt].
Qed.
Lemma all_dead_evictable m desired n :
  forallb (λ n, evictable p n (eviction_window opts) now)
    (List.filter (λ n, negb (bool_decide (is_Some (stable !! n)))) (ascending (voter_ids m ∖ desired))) = true →
  n ∈ voter_ids m → n ∉ desired → is_Some (stable !! n) ∨ evictable p n (eviction_window opts) now = true.
Proof.
  intros Hf Hv Hd. destruct (decide (is_Some (stable !! n))) as [|Hs]; [by left|]. right.
  rewrite forallb_forall in Hf. apply Hf. apply filter_In. rewrite <- list_elem_of_In, elem_of_ascending.
  split; [set_solver|]. by rewrite bool_decide_false.
Qed.
Lemma move_voters_adds group m caught l0 changed :
  let desired := desired_set xxh3_64 opts group stable in
  desired ≠ ∅ → promotion_blockers m desired caught = [] → no_change l0 →
  (∀ n, n ∈ caught → AddedLearner group n true LearnerAdded ∈ l0) →
  adds (λ (r : option bool) l, all_guarded (l0 ++ l) ∧
               match r with
               | Some changed' => ok_changes (l0 ++ l) ≤ (if changed' then 1 else 0)
               | None => ok_changes (l0 ++ l) = 0
               end) (move_voters group m stable p opts desired now changed).
Proof.
  intros desired Hne Hb Hl0 Hc. pose proof (no_change_ok l0 Hl0) as Hok.
  assert (Hg : all_guarded (l0 ++ [])) by (rewrite app_nil_r; intros a Ha; by eapply no_change_guarded).
  unfold move_voters. destruct (_ <=? _).
  { apply adds_ret. split; [done|]. rewrite app_nil_r, Hok. by destruct changed. }
  destruct (forallb _ _) eqn:Hf; [|apply adds_ret; split; [done|]; rewrite app_nil_r, Hok; by destruct changed].
  apply adds_raft. intros ok. apply adds_tell_then.
  assert (Hall : all_guarded (l0 ++ [ChangedMembership group m desired ok])).
  { apply all_guarded_app; [by rewrite app_nil_r in Hg|]. intros a ->%list_elem_of_singleton. cbn.
    split; [done|]. split; [done|]. split; [|intros n; by apply all_dead_evictable].
    intros n Hn Hv. destruct (no_blockers m desired caught n Hb Hn Hv) as [?|?]; [left; set_solver|by right]. }
  destruct ok; [apply adds_ret|apply adds_failed]; (split; [done|]); rewrite ok_changes_app, Hok; done.
Qed.

(** The outcome of a reconcile: guarded, and counted when it changed voters. *)
Definition reconciled_ok (r : option bool) (l : list action) : Prop :=
  all_guarded l ∧ ok_changes l ≤ match r with Some true => 1 | _ => 0 end.
Lemma no_change_ok' r l : no_change l → reconciled_ok r l.
Proof.
  intros Hl. split; [intros a Ha; by eapply no_change_guarded|]. rewrite no_change_ok by done. by destruct r as [[]|].
Qed.
Lemma finish_adds group m desired due l0 changed :
  reconciled_ok (Some changed) l0 →
  adds (λ r l, reconciled_ok r (l0 ++ l))
    (balance xxh3_64 node_id opts group m stable desired due changed;;
     refresh_directory routing node_id own_client_id group m desired;;
     mret changed).
Proof.
  intros [Hg Hok]. eapply adds_bind; [apply balance_adds|by intros l [_ ?]|]. intros _ l1 [Hl1 _].
  eapply adds_bind; [apply refresh_directory_adds|by intros l [_ ?]|]. intros _ l2 [Hl2 _]. apply adds_ret.
  rewrite app_nil_r. split.
  - apply all_guarded_app; [done|]. intros a Ha.
    apply elem_of_app in Ha as [Ha|Ha]; by eapply no_change_guarded; [|exact Ha].
  - rewrite !ok_changes_app, (no_change_ok l1), (no_change_ok l2) by done. lia.
Qed.
Lemma reconcile_group_adds group due :
  adds reconciled_ok (reconcile_group xxh3_64 routing node_id own_client_id group stable p opts due now).
Proof.
  unfold reconcile_group. apply adds_world. intros w.
  destruct (hosts w group); cbn [negb]; [|apply adds_ret; apply no_change_ok'; constructor].
  destruct (metrics w group) as [m|]; [|apply adds_ret; apply no_change_ok'; constructor].
  destruct (bool_decide _) eqn:Hne; [apply adds_ret; apply no_change_ok'; constructor|].
  apply bool_decide_eq_false in Hne.
  eapply adds_bind; [apply add_voters_adds|intros l [? _]; by apply no_change_ok'|].
  intros [changed caught] l1 [Hl1 Hc].
  eapply adds_bind with (Q1 := λ _ l, no_change l).
  { destruct (_ =? _); [apply add_sys_learners_adds|apply adds_ret; constructor]. }
  { intros l Hl. apply no_change_ok', Forall_app. done. }
  intros changed' l2 Hl2. assert (Hl : no_change (l1 ++ l2)) by (by apply Forall_app).
  destruct (bool_decide _).
  - eapply adds_mono; [apply (finish_adds _ _ _ _ (l1 ++ l2)); by apply no_change_ok'|].
    intros r l. by rewrite app_assoc.
  - destruct (promotion_blockers _ _ _) as [|b bs] eqn:Hb.
    + eapply adds_bind.
      * apply (move_voters_adds group m caught (l1 ++ l2) changed'); [done|done|done|].
        intros n [Hn|Hn]%Hc; [set_solver|]. apply elem_of_app. by left.
      * intros l [Hg Hok]. rewrite app_assoc. split; [done|]. cbn. lia.
      * intros ch l3 [Hg Hok]. eapply adds_mono; [apply (finish_adds _ _ _ _ ((l1 ++ l2) ++ l3))|].
        -- by split; [|destruct ch].
        -- intros r l. by rewrite !app_assoc.
    + apply adds_ret. rewrite app_nil_r. by apply no_change_ok'.
Qed.
Lemma reconcile_groups_adds gs k due :
  k ≤ max_concurrent_reconciles opts →
  adds (λ _ l, all_guarded l ∧ k + ok_changes l ≤ max_concurrent_reconciles opts)
    (reconcile_groups xxh3_64 routing node_id own_client_id gs k stable p opts due now).
Proof.
  revert k. induction gs as [|g gs IH]; intros k Hk; cbn [reconcile_groups].
  { apply adds_ret. split; [by intros a ?%not_elem_of_nil|]. unfold ok_changes, len. cbn. lia. }
  apply adds_world. intros w. destruct (is_leader w g); cbn [negb]; [|by apply IH].
  destruct (Z.leb_spec (max_concurrent_reconciles opts) k).
  { apply adds_ret. split; [by intros a ?%not_elem_of_nil|]. unfold ok_changes, len. cbn. lia. }
  intros c. destruct (reconcile_group_adds g due c) as (l1 & Hl1 & Hg & Hok).
  destruct (reconcile_group _ _ _ _ _ _ _ _ _ _ c) as [r c1]. cbn [fst snd] in *.
  set (k' := match r with Some true => k + 1 | _ => k end).
  assert (k' ≤ max_concurrent_reconciles opts) as Hk' by (unfold k'; destruct r as [[]|]; lia).
  destruct (IH k' Hk' c1) as (l2 & Hl2 & Hg2 & Hok2). exists (l1 ++ l2).
  split; [by rewrite Hl2, Hl1, <- app_assoc|]. split.
  - apply all_guarded_app; [done|]. intros a Ha. apply guarded_sub with l2; [set_solver|by apply Hg2].
  - rewrite ok_changes_app. unfold k' in *. destruct r as [[]|]; lia.
Qed.
End one_tick.

(** ** One tick *)

Section ticks.
Context (opts : ControllerOptions) (t0 : Z) (ticks : list (Z * MemberMap)).
Context (catalog : MemberMap) (local : NodeIdentity) (now : Z) (draining : gset Z).

(** The ticks up to this one. *)
Definition past : list (Z * MemberMap) := ticks ++ [(now, compatible local catalog)].
(** A node that may vote: not draining, and the node itself or one seen at every
    tick for the whole stability window. *)
Definition eligible (n : Z) : Prop :=
  n ∉ draining ∧
  (n = ni_node_id local ∨ ∃ x, up_from past n x ∧ x.1 ≤ now - stability_window opts).
(** A node not seen within the eviction window, by a tracker that old. *)
Definition gone (n : Z) : Prop :=
  t0 ≤ now - eviction_window opts ∧ ∀ x, x ∈ past → seen_at x n → x.1 ≤ now - eviction_window opts.

Hypothesis windows : 0 ≤ eviction_window opts ≤ DURATION_MAX ∧ 0 ≤ stability_window opts.
Hypothesis clock : in_time t0 past now.

Lemma eligible_stable n :
  is_Some (stable_set (watched opts t0 past) (compatible local catalog) local draining opts now !! n) → eligible n.
Proof.
  intros [meta Hm]. unfold stable_set in Hm. apply map_lookup_filter_Some in Hm as [Hm Hd]. split; [exact Hd|].
  apply lookup_insert_Some in Hm as [[<- _]|[_ Hm]]; [by left|right].
  unfold stable_nodes in Hm. rewrite lookup_fmap in Hm.
  apply fmap_Some in Hm as (i & Hi & _). apply map_lookup_filter_Some in Hi as [_ Hi].
  by apply (stays_spec opts t0 (proj1 windows) past now (stability_window opts) n clock (proj2 windows)).
Qed.
(** The voters asked for are as many as the replication factor allows. *)
Lemma desired_spec g stable :
  0 ≤ replication_factor opts → Z.of_nat (size stable) < 2 ^ 32 →
  let to := desired_set xxh3_64 opts g stable in
  to ≠ ∅ →
  (∀ n, n ∈ to → is_Some (stable !! n)) ∧ Z.odd (Z.of_nat (size to)) = true ∧
  Z.of_nat (size to) ≤ Z.max 1 (replication_factor opts).
Proof.
  intros Hrf Hsz to Hne. unfold to, desired_set, desired_list in *.
  set (ids := ascending (dom stable)) in *. set (rf := rf_effective _ _) in *.
  assert (Hlen : len ids = Z.of_nat (size stable)).
  { unfold len, ids, ascending. rewrite merge_sort_Permutation, <- size_dom. done. }
  assert (Hnd : NoDup ids) by (unfold ids, ascending; rewrite merge_sort_Permutation; apply NoDup_elements).
  destruct (rf_effective_spec (replication_factor opts) (len ids)) as (Hodd & Hb & Hm);
    [done|unfold is_u32, u32_max; lia|]. fold rf in Hodd, Hb, Hm.
  destruct (voters_are_heaviest xxh3_64 g ids rf Hnd ltac:(lia)) as (Hv & Hin & Hl & _).
  set (vs := select_voters xxh3_64 g ids rf) in *.
  assert (Hsize : Z.of_nat (size (list_to_set vs : gset Z)) = len vs) by (unfold len; by rewrite size_list_to_set).
  assert (len ids ≠ 0).
  { intros H0'. assert (vs = []) as Hnil by (destruct vs; [done|unfold len in *; cbn in *; lia]).
    apply Hne. by rewrite Hnil. }
  split.
  - intros n Hn. apply elem_of_list_to_set, Hin in Hn. unfold ids in Hn. rewrite elem_of_ascending in Hn.
    by apply elem_of_dom.
  - rewrite Hsize, Hl. replace (Z.min rf (len ids)) with rf by lia. split; [done|lia].
Qed.
End ticks.

Section tick.
Context (opts : ControllerOptions) (t0 : Z) (ticks : list (Z * MemberMap)).
Context (catalog : MemberMap) (local : NodeIdentity) (now last : Z) (c : Controller).
Hypothesis windows : 0 ≤ eviction_window opts ≤ DURATION_MAX ∧ 0 ≤ stability_window opts.
Hypothesis sizes :
  0 ≤ replication_factor opts ∧ 0 ≤ max_concurrent_reconciles opts ∧ Z.of_nat (size catalog) < 2 ^ 32 - 1.
Hypothesis clock : in_time t0 (past ticks catalog local now) now.

Definition after_tick : Tick * Controller :=
  tick xxh3_64 routing node_id own_client_id opts catalog local now
    {| t_presence := watched opts t0 ticks; last_balance := last |} c.
Definition is_draining : gset Z := read_draining (db_handle (world (node c))).

Lemma stable_size p : Z.of_nat (size (stable_set p (compatible local catalog) local is_draining opts now)) < 2 ^ 32.
Proof.
  unfold stable_set. assert (Hle : ∀ (m : gmap Z NodeMeta) P `{∀ x, Decision (P x)}, (size (filter P m) ≤ size m)%nat).
  { intros m P HP. rewrite <- !size_dom. apply subseteq_size, dom_filter_subseteq. }
  eapply Z.le_lt_trans; [apply inj_le, Hle|].
  assert (size (stable_nodes p (compatible local catalog) (stability_window opts) now) ≤ size catalog)%nat as Hs.
  { unfold stable_nodes, compatible. rewrite map_size_fmap, <- !size_dom. apply subseteq_size.
    etrans; [apply dom_filter_subseteq|apply dom_filter_subseteq]. }
  rewrite map_size_insert. destruct (_ !! _); cbn; lia.
Qed.
Lemma tick_guarded :
  t_presence after_tick.1 = watched opts t0 (past ticks catalog local now) ∧
  ∃ new, actions after_tick.2 = actions c ++ new ∧ ok_changes new ≤ max_concurrent_reconciles opts ∧
  ∀ g m to ok, ChangedMembership g m to ok ∈ new →
    Z.odd (Z.of_nat (size to)) = true ∧ Z.of_nat (size to) ≤ Z.max 1 (replication_factor opts) ∧
    (∀ n, n ∈ to → eligible opts ticks catalog local now is_draining n) ∧
    (∀ n, n ∈ to → n ∉ voter_ids m →
       AddedLearner g n true LearnerAdded ∈ new ∨
       ∃ lag, learner_replication_lag m n (last_log_index m) = Some lag ∧ lag ≤ replication_lag_threshold) ∧
    (∀ n, n ∈ voter_ids m → n ∉ to →
       eligible opts ticks catalog local now is_draining n ∨ gone opts t0 ticks catalog local now n).
Proof.
  unfold after_tick, tick. cbn [t_presence].
  assert (Hp : next_presence opts (compatible local catalog) now (watched opts t0 ticks)
               = watched opts t0 (past ticks catalog local now)) by (unfold past; by rewrite watched_snoc).
  rewrite Hp. fold is_draining. set (p := watched opts t0 (past ticks catalog local now)) in *.
  set (stable := stable_set p (compatible local catalog) local is_draining opts now).
  pose proof (reconcile_groups_adds stable p opts now (hosted (world (node c))) 0
    (leader_balance_interval opts <=? duration_since now last) ltac:(lia) c) as (new & Hnew & Hg & Hok).
  cbn [last_balance]. destruct (reconcile_groups _ _ _ _ _ _ _ _ _ _ _ c) as [r c']. cbn [fst snd t_presence] in *.
  split; [done|]. exists new. split; [done|]. split; [lia|].
  intros g m to ok Ha. apply Hg in Ha as (-> & Hne & Hcu & Hd).
  destruct (desired_spec opts g stable ltac:(lia) (stable_size p) Hne) as (Hst & Hodd & Hsz).
  split; [done|]. split; [done|]. split; [intros n Hn; eapply eligible_stable; eauto|]. split; [done|].
  intros n Hn Ht. destruct (Hd n Hn Ht) as [Hs|He]; [left; eapply eligible_stable; eauto|right].
  by apply (evictable_spec opts t0) in He; [|apply windows|done].
Qed.

(** A draining node that is up keeps its votes: no group it votes in changes. *)
Lemma draining_voter_stays n :
  0 < eviction_window opts → n ∈ is_draining → is_Some (compatible local catalog !! n) →
  ∃ new, actions after_tick.2 = actions c ++ new ∧
  ∀ g m to ok, ChangedMembership g m to ok ∈ new → n ∉ voter_ids m.
Proof.
  intros Hw Hn Hup. destruct tick_guarded as (_ & new & Hnew & _ & Hg). exists new. split; [done|].
  intros g m to ok (_ & _ & Hto & _ & Hd)%Hg Hv. destruct (decide (n ∈ to)) as [Hin|Hin].
  - by apply Hto in Hin as [? _].
  - destruct (Hd n Hv Hin) as [[? _]|[_ Hgone]]; [done|].
    assert (now ≤ now - eviction_window opts); [|lia].
    apply (Hgone (now, compatible local catalog)); [unfold past; set_solver|done].
Qed.
End tick.
End guards.

(** C11: a tick of the controller changes the voters of a group only when that is
    safe, whatever happened before.  The new voters are an odd number, at most
    the replication factor; each is the node itself or was seen at every tick of
    the whole stability window, and none is draining.  A node that becomes a
    voter has caught up: it was added as a learner in this tick and the call
    waited for it, or its replication lag is within the threshold.  A voter that
    leaves is such a steady node, or was not seen at any tick of the eviction
    window by a tracker at least that old.  At most [max_concurrent_reconciles]
    groups change per tick. *)
Theorem membership_changes_are_guarded
    `{!Bincode StoredRecord, !RocksDb, !Cluster, !Membership}
    `{!Bincode Command, !Bincode ReadOp, !Bincode GroupRecord}
    `{!Bincode (ForwardError + ApplyResponse), !Bincode (ForwardError + ReadResult)}
    (xxh3_64 : bytes → Z) routing node_id own_client_id opts t0 ticks catalog local now last c :
  0 ≤ eviction_window opts ≤ DURATION_MAX ∧ 0 ≤ stability_window opts →
  0 ≤ replication_factor opts ∧ 0 ≤ max_concurrent_reconciles opts ∧ Z.of_nat (size catalog) < 2 ^ 32 - 1 →
  let past := ticks ++ [(now, compatible local catalog)] in
  in_time t0 past now →
  let draining := read_draining (db_handle (world (node c))) in
  let '(t', c') := tick xxh3_64 routing node_id own_client_id opts catalog local now
                     {| t_presence := watched opts t0 ticks; last_balance := last |} c in
  t_presence t' = watched opts t0 past ∧
  ∃ new, actions c' = actions c ++ new ∧ ok_changes new ≤ max_concurrent_reconciles opts ∧
  ∀ g m to ok, ChangedMembership g m to ok ∈ new →
    let steady n := n ∉ draining ∧
      (n = ni_node_id local ∨ ∃ x, up_from past n x ∧ x.1 ≤ now - stability_window opts) in
    Z.odd (Z.of_nat (size to)) = true ∧ Z.of_nat (size to) ≤ Z.max 1 (replication_factor opts) ∧
    (∀ n, n ∈ to → steady n) ∧
    (∀ n, n ∈ to → n ∉ voter_ids m →
       AddedLearner g n true LearnerAdded ∈ new ∨
       ∃ lag, learner_replication_lag m n (last_log_index m) = Some lag ∧ lag ≤ replication_lag_threshold) ∧
    (∀ n, n ∈ voter_ids m → n ∉ to →
       steady n ∨ (t0 ≤ now - eviction_window opts ∧
                   ∀ x, x ∈ past → seen_at x n → x.1 ≤ now - eviction_window opts)).
Proof.
  intros Hw Hs past Ht draining.
  pose proof (tick_guarded xxh3_64 routing node_id own_client_id opts t0 ticks catalog local now last c Hw Hs Ht) as Hg.
  unfold after_tick in Hg. destruct (tick _ _ _ _ _ _ _ _ _ c) as [t' c']. exact Hg.
Qed.

Module ControllerWitness.
Import Mini.
#[local] Existing Instance ref_bincode.
#[local] Existing Instance ref_rocksdb.
#[local] Instance here : Cluster := mini true.
(** Node 1 is the only voter of group 0; learners catch up at once. *)
#[local] Instance alone : Membership := {|
  metrics _ _ := Some {| voter_ids := {[1]}; member_nodes := {[1]}; replication := None; last_log_index := Some 3 |};
  replication_lag_threshold := 5000;
  add_learner _ _ _ _ _ x := (LearnerAdded, x);
  change_membership _ _ _ x := (true, x);
  transfer_leader _ _ x := x
|}.
Definition ident (n : Z) : NodeIdentity :=
  {| ni_node_id := n; ni_meta := meta "n"; incarnation := 1; config_fingerprint := 7 |}.
Definition three : MemberMap := <[1 := ident 1]> (<[2 := ident 2]> {[3 := ident 3]}).
Definition opts : ControllerOptions := default_controller_options.
Definition ticks : list (Z * MemberMap) := [(1000, three); (6000, three)].
Definition c0 : Controller :=
  {| node := {| router := router_new; world := ({| st_db := ∅; st_now := 40000 |} : World); events := [] |};
     actions := [] |}.
Definition routing : RoutingOptions := {| group_count := 1; routing_prefix_segments := 1; max_inflight_per_group := 8 |}.
Definition last_tick : Tick * Controller :=
  tick hash routing 1 (bs "1:7:1000") opts three (ident 1) 40000
    {| t_presence := watched opts 500 ticks; last_balance := 0 |} c0.

Lemma windows : 0 ≤ eviction_window opts ≤ DURATION_MAX ∧ 0 ≤ stability_window opts.
Proof. vm_compute. repeat split; discriminate. Qed.
Lemma sizes :
  0 ≤ replication_factor opts ∧ 0 ≤ max_concurrent_reconciles opts ∧ Z.of_nat (size three) < 2 ^ 32 - 1.
Proof. vm_compute. repeat split; discriminate. Qed.
Lemma ticks_in_time : in_time 500 (ticks ++ [(40000, compatible (ident 1) three)]) 40000.
Proof. unfold in_time. cbn. repeat constructor; discriminate. Qed.

(** Nodes 2 and 3 have been up for the window: the group gets three voters. *)
Lemma membership_changes_are_guarded_witness :
  existsb is_ok_change (actions last_tick.2) = true ∧
  ∃ g m to ok, ChangedMembership g m to ok ∈ actions last_tick.2 ∧ Z.odd (Z.of_nat (size to)) = true.
Proof.
  assert (Hc : existsb is_ok_change (actions last_tick.2) = true) by (vm_compute; reflexivity).
  split; [exact Hc|]. apply existsb_exists in Hc as (a & Ha & Hok). apply list_elem_of_In in Ha.
  destruct a as [| g m to ok | |]; try discriminate Hok. exists g, m, to, ok. split; [exact Ha|].
  pose proof (membership_changes_are_guarded hash routing 1 (bs "1:7:1000") opts 500 ticks three (ident 1) 40000 0 c0
    windows sizes ticks_in_time) as H.
  unfold last_tick in Ha. destruct (tick _ _ _ _ _ _ _ _ _ c0) as [t' c'].
  destruct H as (_ & new & Hnew & _ & H). cbn [fst snd] in Ha. rewrite Hnew in Ha. cbn [c0 actions app] in Ha.
  apply (H g m to ok Ha).
Defined.

End ControllerWitness.
