(* ===== verification/Config.v ===== *)
(** * The configuration ([src/config.rs])

    Defaults, overlaid by a TOML file and by environment variables, then checked.
    Reading files, the TOML parser and the header check of the token are
    parameters; the process environment is a function. *)

From Stdlib Require Import ZArith NArith Lia Strings.Byte.
From stdpp Require Import sorting countable base numbers gmap strings list.
From S2P Require Import Prelude RustStd EngineTypes Net Events Reads Gossip Controller Router.
Local Open Scope Z_scope.

Definition MAX_EVENT_BUFFER : Z := 1000000.

Module Config.
Record Config := {
  listen : str; node_id : str; data_dir : str; public_addr : str; raft_addr : str; gossip_addr : str;
  gossip_advertise_addr : option str; gossip_cluster_size : Z; gossip_max_packet_size : Z;
  gossip_seed_announce_interval_ms : Z; gossip_manual_gossip_interval_ms : Z; gossip_foca_periodic : bool;
  gossip_send_queue_depth : Z; seed_nodes : list str; group_count : Z; routing_prefix_segments : Z;
  default_lock_algorithm : LockAlgorithm; replication_factor : Z; group_gc_interval_secs : Z;
  group_gc_batch : Z; event_buffer : Z; peers : list str; internal_auth_token : str;
  request_timeout_ms : Z; max_concurrent_requests_per_connection : Z; bootstrap : bool;
  force_bootstrap : bool; raft_snapshot_interval_entries : Z; raft_snapshot_min_log_entries : Z;
  raft_snapshot_max_bytes : Z; raft_max_inflight : Z; raft_election_timeout_min_ms : Z;
  raft_election_timeout_max_ms : Z; raft_heartbeat_interval_ms : Z; max_inflight_per_group : Z;
  stability_window_secs : Z; eviction_window_secs : Z; leader_balance_interval_secs : Z;
  max_concurrent_reconciles : Z; gc_compact_interval_secs : Z; rocksdb_wal_sync : bool;
  rocksdb_max_open_files : Z; rocksdb_max_total_wal_size_mb : Z; rocksdb_max_background_jobs : Z;
  rocksdb_block_cache_mb : Z; rocksdb_write_buffer_mb : Z; rocksdb_write_buffer_manager_mb : Z;
  rocksdb_max_write_buffers : Z; rocksdb_enable_pipelined_write : bool; log_level : str;
  log_file : option str; web_listen : str; h3_listen : str; tls_cert_path : option str;
  tls_key_path : option str; web_zero_rtt : bool; web_event_log_capacity : Z
}.
(** [impl Default for Config] *)
Definition default_config : Config := {|
  listen := bs "0.0.0.0:50051"; node_id := bs "pathlockd-0"; data_dir := bs "/var/lib/pathlockd";
  public_addr := bs "http://localhost:50051"; raft_addr := bs "http://localhost:50052";
  gossip_addr := bs "0.0.0.0:7946"; gossip_advertise_addr := None; gossip_cluster_size := 32;
  gossip_max_packet_size := 1400; gossip_seed_announce_interval_ms := 5000;
  gossip_manual_gossip_interval_ms := 0; gossip_foca_periodic := true; gossip_send_queue_depth := 1024;
  seed_nodes := []; group_count := 256; routing_prefix_segments := 1;
  default_lock_algorithm := RecursiveRw; replication_factor := 3; group_gc_interval_secs := 1;
  group_gc_batch := 1024; event_buffer := 8192; peers := []; internal_auth_token := [];
  request_timeout_ms := 30000; max_concurrent_requests_per_connection := 256; bootstrap := false;
  force_bootstrap := false; raft_snapshot_interval_entries := 10000; raft_snapshot_min_log_entries := 5000;
  raft_snapshot_max_bytes := 512 * 1024 * 1024; raft_max_inflight := 256;
  raft_election_timeout_min_ms := 1500; raft_election_timeout_max_ms := 3000;
  raft_heartbeat_interval_ms := 500; max_inflight_per_group := 1024; stability_window_secs := 30;
  eviction_window_secs := 60; leader_balance_interval_secs := 60; max_concurrent_reconciles := 4;
  gc_compact_interval_secs := 600; rocksdb_wal_sync := true; rocksdb_max_open_files := 4096;
  rocksdb_max_total_wal_size_mb := 512; rocksdb_max_background_jobs := 4; rocksdb_block_cache_mb := 128;
  rocksdb_write_buffer_mb := 16; rocksdb_write_buffer_manager_mb := 256; rocksdb_max_write_buffers := 3;
  rocksdb_enable_pipelined_write := true; log_level := bs "info"; log_file := None; web_listen := [];
  h3_listen := []; tls_cert_path := None; tls_key_path := None; web_zero_rtt := true;
  web_event_log_capacity := 1024
|}.
End Config.

Module FileConfig.
Record FileConfig := {
  listen : option str; node_id : option str; data_dir : option str; public_addr : option str;
  raft_addr : option str; gossip_addr : option str; gossip_advertise_addr : option str;
  gossip_cluster_size : option Z; gossip_max_packet_size : option Z;
  gossip_seed_announce_interval_ms : option Z; gossip_manual_gossip_interval_ms : option Z;
  gossip_foca_periodic : option bool; gossip_send_queue_depth : option Z; seed_nodes : option (list str);
  group_count : option Z; routing_prefix_segments : option Z;
  default_lock_algorithm : option LockAlgorithm; replication_factor : option Z;
  group_gc_interval_secs : option Z; group_gc_batch : option Z; event_buffer : option Z;
  peers : option (list str); internal_auth_token : option str; request_timeout_ms : option Z;
  max_concurrent_requests_per_connection : option Z; bootstrap : option bool;
  force_bootstrap : option bool; raft_snapshot_interval_entries : option Z;
  raft_snapshot_min_log_entries : option Z; raft_snapshot_max_bytes : option Z;
  raft_max_inflight : option Z; raft_election_timeout_min_ms : option Z;
  raft_election_timeout_max_ms : option Z; raft_heartbeat_interval_ms : option Z;
  max_inflight_per_group : option Z; stability_window_secs : option Z; eviction_window_secs : option Z;
  leader_balance_interval_secs : option Z; max_concurrent_reconciles : option Z;
  gc_compact_interval_secs : option Z; rocksdb_wal_sync : option bool; rocksdb_max_open_files : option Z;
  rocksdb_max_total_wal_size_mb : option Z; rocksdb_max_background_jobs : option Z;
  rocksdb_block_cache_mb : option Z; rocksdb_write_buffer_mb : option Z;
  rocksdb_write_buffer_manager_mb : option Z; rocksdb_max_write_buffers : option Z;
  rocksdb_enable_pipelined_write : option bool; log_level : option str; log_file : option str;
  web_listen : option str; h3_listen : option str; tls_cert_path : option str; tls_key_path : option str;
  web_zero_rtt : option bool; web_event_log_capacity : option Z
}.
End FileConfig.

(** ** Overlaying *)

Definition apply_file (cfg : Config.Config) (file : FileConfig.FileConfig) : Config.Config := {|
  Config.listen := default (Config.listen cfg) (FileConfig.listen file);
  Config.node_id := default (Config.node_id cfg) (FileConfig.node_id file);
  Config.data_dir := default (Config.data_dir cfg) (FileConfig.data_dir file);
  Config.public_addr := default (Config.public_addr cfg) (FileConfig.public_addr file);
  Config.raft_addr := default (Config.raft_addr cfg) (FileConfig.raft_addr file);
  Config.gossip_addr := default (Config.gossip_addr cfg) (FileConfig.gossip_addr file);
  Config.gossip_advertise_addr := match FileConfig.gossip_advertise_addr file with Some v => Some v | None => Config.gossip_advertise_addr cfg end;
  Config.gossip_cluster_size := default (Config.gossip_cluster_size cfg) (FileConfig.gossip_cluster_size file);
  Config.gossip_max_packet_size := default (Config.gossip_max_packet_size cfg) (FileConfig.gossip_max_packet_size file);
  Config.gossip_seed_announce_interval_ms := default (Config.gossip_seed_announce_interval_ms cfg) (FileConfig.gossip_seed_announce_interval_ms file);
  Config.gossip_manual_gossip_interval_ms := default (Config.gossip_manual_gossip_interval_ms cfg) (FileConfig.gossip_manual_gossip_interval_ms file);
  Config.gossip_foca_periodic := default (Config.gossip_foca_periodic cfg) (FileConfig.gossip_foca_periodic file);
  Config.gossip_send_queue_depth := default (Config.gossip_send_queue_depth cfg) (FileConfig.gossip_send_queue_depth file);
  Config.seed_nodes := default (Config.seed_nodes cfg) (FileConfig.seed_nodes file);
  Config.group_count := default (Config.group_count cfg) (FileConfig.group_count file);
  Config.routing_prefix_segments := default (Config.routing_prefix_segments cfg) (FileConfig.routing_prefix_segments file);
  Config.default_lock_algorithm := default (Config.default_lock_algorithm cfg) (FileConfig.default_lock_algorithm file);
  Config.replication_factor := default (Config.replication_factor cfg) (FileConfig.replication_factor file);
  Config.group_gc_interval_secs := default (Config.group_gc_interval_secs cfg) (FileConfig.group_gc_interval_secs file);
  Config.group_gc_batch := default (Config.group_gc_batch cfg) (FileConfig.group_gc_batch file);
  Config.event_buffer := default (Config.event_buffer cfg) (FileConfig.event_buffer file);
  Config.peers := default (Config.peers cfg) (FileConfig.peers file);
  Config.internal_auth_token := default (Config.internal_auth_token cfg) (FileConfig.internal_auth_token file);
  Config.request_timeout_ms := default (Config.request_timeout_ms cfg) (FileConfig.request_timeout_ms file);
  Config.max_concurrent_requests_per_connection := default (Config.max_concurrent_requests_per_connection cfg) (FileConfig.max_concurrent_requests_per_connection file);
  Config.bootstrap := default (Config.bootstrap cfg) (FileConfig.bootstrap file);
  Config.force_bootstrap := default (Config.force_bootstrap cfg) (FileConfig.force_bootstrap file);
  Config.raft_snapshot_interval_entries := default (Config.raft_snapshot_interval_entries cfg) (FileConfig.raft_snapshot_interval_entries file);
  Config.raft_snapshot_min_log_entries := default (Config.raft_snapshot_min_log_entries cfg) (FileConfig.raft_snapshot_min_log_entries file);
  Config.raft_snapshot_max_bytes := default (Config.raft_snapshot_max_bytes cfg) (FileConfig.raft_snapshot_max_bytes file);
  Config.raft_max_inflight := default (Config.raft_max_inflight cfg) (FileConfig.raft_max_inflight file);
  Config.raft_election_timeout_min_ms := default (Config.raft_election_timeout_min_ms cfg) (FileConfig.raft_election_timeout_min_ms file);
  Config.raft_election_timeout_max_ms := default (Config.raft_election_timeout_max_ms cfg) (FileConfig.raft_election_timeout_max_ms file);
  Config.raft_heartbeat_interval_ms := default (Config.raft_heartbeat_interval_ms cfg) (FileConfig.raft_heartbeat_interval_ms file);
  Config.max_inflight_per_group := default (Config.max_inflight_per_group cfg) (FileConfig.max_inflight_per_group file);
  Config.stability_window_secs := default (Config.stability_window_secs cfg) (FileConfig.stability_window_secs file);
  Config.eviction_window_secs := default (Config.eviction_window_secs cfg) (FileConfig.eviction_window_secs file);
  Config.leader_balance_interval_secs := default (Config.leader_balance_interval_secs cfg) (FileConfig.leader_balance_interval_secs file);
  Config.max_concurrent_reconciles := default (Config.max_concurrent_reconciles cfg) (FileConfig.max_concurrent_reconciles file);
  Config.gc_compact_interval_secs := default (Config.gc_compact_interval_secs cfg) (FileConfig.gc_compact_interval_secs file);
  Config.rocksdb_wal_sync := default (Config.rocksdb_wal_sync cfg) (FileConfig.rocksdb_wal_sync file);
  Config.rocksdb_max_open_files := default (Config.rocksdb_max_open_files cfg) (FileConfig.rocksdb_max_open_files file);
  Config.rocksdb_max_total_wal_size_mb := default (Config.rocksdb_max_total_wal_size_mb cfg) (FileConfig.rocksdb_max_total_wal_size_mb file);
  Config.rocksdb_max_background_jobs := default (Config.rocksdb_max_background_jobs cfg) (FileConfig.rocksdb_max_background_jobs file);
  Config.rocksdb_block_cache_mb := default (Config.rocksdb_block_cache_mb cfg) (FileConfig.rocksdb_block_cache_mb file);
  Config.rocksdb_write_buffer_mb := default (Config.rocksdb_write_buffer_mb cfg) (FileConfig.rocksdb_write_buffer_mb file);
  Config.rocksdb_write_buffer_manager_mb := default (Config.rocksdb_write_buffer_manager_mb cfg) (FileConfig.rocksdb_write_buffer_manager_mb file);
  Config.rocksdb_max_write_buffers := default (Config.rocksdb_max_write_buffers cfg) (FileConfig.rocksdb_max_write_buffers file);
  Config.rocksdb_enable_pipelined_write := default (Config.rocksdb_enable_pipelined_write cfg) (FileConfig.rocksdb_enable_pipelined_write file);
  Config.log_level := default (Config.log_level cfg) (FileConfig.log_level file);
  Config.log_file := match FileConfig.log_file file with Some v => Some v | None => Config.log_file cfg end;
  Config.web_listen := default (Config.web_listen cfg) (FileConfig.web_listen file);
  Config.h3_listen := default (Config.h3_listen cfg) (FileConfig.h3_listen file);
  Config.tls_cert_path := match FileConfig.tls_cert_path file with Some v => Some v | None => Config.tls_cert_path cfg end;
  Config.tls_key_path := match FileConfig.tls_key_path file with Some v => Some v | None => Config.tls_key_path cfg end;
  Config.web_zero_rtt := default (Config.web_zero_rtt cfg) (FileConfig.web_zero_rtt file);
  Config.web_event_log_capacity := default (Config.web_event_log_capacity cfg) (FileConfig.web_event_log_capacity file)
|}.

(** The environment: [std::env::var(key).ok()]. *)
Section env.
Context (env : str → option str).

Definition env_string (key : string) : option str :=
  match env (bs key) with Some s => if bool_decide (s = []) then None else Some s | None => None end.
Definition c_comma : byte := x2c.
Definition env_list (key : string) : option (list str) :=
  (λ s, List.filter (λ p, negb (bool_decide (p = []))) (trim <$> split c_comma s)) <$> env_string key.
Definition env_parse {A} (parse : str → option A) (key : string) : result (option A) :=
  match env_string key with
  | None => Ok None
  | Some s => match parse s with Some v => Ok (Some v) | None => Err (Anyhow ("invalid " ++ key)) end
  end.
Definition parse_bool (s : str) : option bool :=
  if bool_decide (s = bs "true") then Some true else if bool_decide (s = bs "false") then Some false else None.
Definition parse_i32 (s : str) : option Z := parse_i64 s ≫= in_bounds (- 2 ^ 31) (2 ^ 31 - 1).
Definition parse_algorithm (s : str) : option LockAlgorithm :=
  match algorithm_from_str s with Ok a => Some a | Err _ => None end.

#[local] Instance result_bind : MBind result := λ A B f r, match r with Ok a => f a | Err e => Err e end.

Definition apply_env (cfg : Config.Config) : result Config.Config :=
  gossip_cluster_size ← env_parse parse_u32 "PATHLOCKD_GOSSIP_CLUSTER_SIZE";
  gossip_max_packet_size ← env_parse parse_usize "PATHLOCKD_GOSSIP_MAX_PACKET_SIZE";
  gossip_seed_announce_interval_ms ← env_parse parse_u64 "PATHLOCKD_GOSSIP_SEED_ANNOUNCE_INTERVAL_MS";
  gossip_manual_gossip_interval_ms ← env_parse parse_u64 "PATHLOCKD_GOSSIP_MANUAL_GOSSIP_INTERVAL_MS";
  gossip_foca_periodic ← env_parse parse_bool "PATHLOCKD_GOSSIP_FOCA_PERIODIC";
  gossip_send_queue_depth ← env_parse parse_usize "PATHLOCKD_GOSSIP_SEND_QUEUE_DEPTH";
  group_count ← env_parse parse_u32 "PATHLOCKD_GROUP_COUNT";
  routing_prefix_segments ← env_parse parse_u32 "PATHLOCKD_ROUTING_PREFIX_SEGMENTS";
  default_lock_algorithm ← env_parse parse_algorithm "PATHLOCKD_DEFAULT_LOCK_ALGORITHM";
  replication_factor ← env_parse parse_u32 "PATHLOCKD_REPLICATION_FACTOR";
  group_gc_interval_secs ← env_parse parse_u64 "PATHLOCKD_GROUP_GC_INTERVAL_SECS";
  group_gc_batch ← env_parse parse_u32 "PATHLOCKD_GROUP_GC_BATCH";
  event_buffer ← env_parse parse_usize "PATHLOCKD_EVENT_BUFFER";
  request_timeout_ms ← env_parse parse_u64 "PATHLOCKD_REQUEST_TIMEOUT_MS";
  max_concurrent_requests_per_connection ← env_parse parse_usize "PATHLOCKD_MAX_CONCURRENT_REQUESTS_PER_CONNECTION";
  bootstrap ← env_parse parse_bool "PATHLOCKD_BOOTSTRAP";
  force_bootstrap ← env_parse parse_bool "PATHLOCKD_FORCE_BOOTSTRAP";
  raft_snapshot_interval_entries ← env_parse parse_u64 "PATHLOCKD_RAFT_SNAPSHOT_INTERVAL_ENTRIES";
  raft_snapshot_min_log_entries ← env_parse parse_u64 "PATHLOCKD_RAFT_SNAPSHOT_MIN_LOG_ENTRIES";
  raft_snapshot_max_bytes ← env_parse parse_u64 "PATHLOCKD_RAFT_SNAPSHOT_MAX_BYTES";
  raft_max_inflight ← env_parse parse_usize "PATHLOCKD_RAFT_MAX_INFLIGHT";
  max_inflight_per_group ← env_parse parse_usize "PATHLOCKD_MAX_INFLIGHT_PER_GROUP";
  stability_window_secs ← env_parse parse_u64 "PATHLOCKD_STABILITY_WINDOW_SECS";
  eviction_window_secs ← env_parse parse_u64 "PATHLOCKD_EVICTION_WINDOW_SECS";
  leader_balance_interval_secs ← env_parse parse_u64 "PATHLOCKD_LEADER_BALANCE_INTERVAL_SECS";
  max_concurrent_reconciles ← env_parse parse_usize "PATHLOCKD_MAX_CONCURRENT_RECONCILES";
  gc_compact_interval_secs ← env_parse parse_u64 "PATHLOCKD_GC_COMPACT_INTERVAL_SECS";
  rocksdb_wal_sync ← env_parse parse_bool "PATHLOCKD_ROCKSDB_WAL_SYNC";
  rocksdb_max_open_files ← env_parse parse_i32 "PATHLOCKD_ROCKSDB_MAX_OPEN_FILES";
  rocksdb_max_total_wal_size_mb ← env_parse parse_u64 "PATHLOCKD_ROCKSDB_MAX_TOTAL_WAL_SIZE_MB";
  rocksdb_max_background_jobs ← env_parse parse_i32 "PATHLOCKD_ROCKSDB_MAX_BACKGROUND_JOBS";
  rocksdb_block_cache_mb ← env_parse parse_u64 "PATHLOCKD_ROCKSDB_BLOCK_CACHE_MB";
  rocksdb_write_buffer_mb ← env_parse parse_u64 "PATHLOCKD_ROCKSDB_WRITE_BUFFER_MB";
  rocksdb_write_buffer_manager_mb ← env_parse parse_u64 "PATHLOCKD_ROCKSDB_WRITE_BUFFER_MANAGER_MB";
  rocksdb_max_write_buffers ← env_parse parse_i32 "PATHLOCKD_ROCKSDB_MAX_WRITE_BUFFERS";
  rocksdb_enable_pipelined_write ← env_parse parse_bool "PATHLOCKD_ROCKSDB_ENABLE_PIPELINED_WRITE";
  web_zero_rtt ← env_parse parse_bool "PATHLOCKD_WEB_ZERO_RTT";
  web_event_log_capacity ← env_parse parse_usize "PATHLOCKD_WEB_EVENT_LOG_CAPACITY";
  Ok {|
    Config.listen := default (Config.listen cfg) (env_string "PATHLOCKD_LISTEN");
    Config.node_id := default (Config.node_id cfg) (env_string "PATHLOCKD_NODE_ID");
    Config.data_dir := default (Config.data_dir cfg) (env_string "PATHLOCKD_DATA_DIR");
    Config.public_addr := default (Config.public_addr cfg) (env_string "PATHLOCKD_PUBLIC_ADDR");
    Config.raft_addr := default (Config.raft_addr cfg) (env_string "PATHLOCKD_RAFT_ADDR");
    Config.gossip_addr := default (Config.gossip_addr cfg) (env_string "PATHLOCKD_GOSSIP_ADDR");
    Config.gossip_advertise_addr := match (env_string "PATHLOCKD_GOSSIP_ADVERTISE_ADDR") with Some v => Some v | None => Config.gossip_advertise_addr cfg end;
    Config.gossip_cluster_size := default (Config.gossip_cluster_size cfg) gossip_cluster_size;
    Config.gossip_max_packet_size := default (Config.gossip_max_packet_size cfg) gossip_max_packet_size;
    Config.gossip_seed_announce_interval_ms := default (Config.gossip_seed_announce_interval_ms cfg) gossip_seed_announce_interval_ms;
    Config.gossip_manual_gossip_interval_ms := default (Config.gossip_manual_gossip_interval_ms cfg) gossip_manual_gossip_interval_ms;
    Config.gossip_foca_periodic := default (Config.gossip_foca_periodic cfg) gossip_foca_periodic;
    Config.gossip_send_queue_depth := default (Config.gossip_send_queue_depth cfg) gossip_send_queue_depth;
    Config.seed_nodes := default (Config.seed_nodes cfg) (env_list "PATHLOCKD_SEED_NODES");
    Config.group_count := default (Config.group_count cfg) group_count;
    Config.routing_prefix_segments := default (Config.routing_prefix_segments cfg) routing_prefix_segments;
    Config.default_lock_algorithm := default (Config.default_lock_algorithm cfg) default_lock_algorithm;
    Config.replication_factor := default (Config.replication_factor cfg) replication_factor;
    Config.group_gc_interval_secs := default (Config.group_gc_interval_secs cfg) group_gc_interval_secs;
    Config.group_gc_batch := default (Config.group_gc_batch cfg) group_gc_batch;
    Config.event_buffer := default (Config.event_buffer cfg) event_buffer;
    Config.peers := default (Config.peers cfg) (env_list "PATHLOCKD_PEERS");
    Config.internal_auth_token := default (Config.internal_auth_token cfg) (env_string "PATHLOCKD_INTERNAL_AUTH_TOKEN");
    Config.request_timeout_ms := default (Config.request_timeout_ms cfg) request_timeout_ms;
    Config.max_concurrent_requests_per_connection := default (Config.max_concurrent_requests_per_connection cfg) max_concurrent_requests_per_connection;
    Config.bootstrap := default (Config.bootstrap cfg) bootstrap;
    Config.force_bootstrap := default (Config.force_bootstrap cfg) force_bootstrap;
    Config.raft_snapshot_interval_entries := default (Config.raft_snapshot_interval_entries cfg) raft_snapshot_interval_entries;
    Config.raft_snapshot_min_log_entries := default (Config.raft_snapshot_min_log_entries cfg) raft_snapshot_min_log_entries;
    Config.raft_snapshot_max_bytes := default (Config.raft_snapshot_max_bytes cfg) raft_snapshot_max_bytes;
    Config.raft_max_inflight := default (Config.raft_max_inflight cfg) raft_max_inflight;
    Config.raft_election_timeout_min_ms := Config.raft_election_timeout_min_ms cfg;
    Config.raft_election_timeout_max_ms := Config.raft_election_timeout_max_ms cfg;
    Config.raft_heartbeat_interval_ms := Config.raft_heartbeat_interval_ms cfg;
    Config.max_inflight_per_group := default (Config.max_inflight_per_group cfg) max_inflight_per_group;
    Config.stability_window_secs := default (Config.stability_window_secs cfg) stability_window_secs;
    Config.eviction_window_secs := default (Config.eviction_window_secs cfg) eviction_window_secs;
    Config.leader_balance_interval_secs := default (Config.leader_balance_interval_secs cfg) leader_balance_interval_secs;
    Config.max_concurrent_reconciles := default (Config.max_concurrent_reconciles cfg) max_concurrent_reconciles;
    Config.gc_compact_interval_secs := default (Config.gc_compact_interval_secs cfg) gc_compact_interval_secs;
    Config.rocksdb_wal_sync := default (Config.rocksdb_wal_sync cfg) rocksdb_wal_sync;
    Config.rocksdb_max_open_files := default (Config.rocksdb_max_open_files cfg) rocksdb_max_open_files;
    Config.rocksdb_max_total_wal_size_mb := default (Config.rocksdb_max_total_wal_size_mb cfg) rocksdb_max_total_wal_size_mb;
    Config.rocksdb_max_background_jobs := default (Config.rocksdb_max_background_jobs cfg) rocksdb_max_background_jobs;
    Config.rocksdb_block_cache_mb := default (Config.rocksdb_block_cache_mb cfg) rocksdb_block_cache_mb;
    Config.rocksdb_write_buffer_mb := default (Config.rocksdb_write_buffer_mb cfg) rocksdb_write_buffer_mb;
    Config.rocksdb_write_buffer_manager_mb := default (Config.rocksdb_write_buffer_manager_mb cfg) rocksdb_write_buffer_manager_mb;
    Config.rocksdb_max_write_buffers := default (Config.rocksdb_max_write_buffers cfg) rocksdb_max_write_buffers;
    Config.rocksdb_enable_pipelined_write := default (Config.rocksdb_enable_pipelined_write cfg) rocksdb_enable_pipelined_write;
    Config.log_level := default (Config.log_level cfg) (env_string "PATHLOCKD_LOG_LEVEL");
    Config.log_file := match (env_string "PATHLOCKD_LOG_FILE") with Some v => Some v | None => Config.log_file cfg end;
    Config.web_listen := default (Config.web_listen cfg) (env_string "PATHLOCKD_WEB_LISTEN");
    Config.h3_listen := default (Config.h3_listen cfg) (env_string "PATHLOCKD_H3_LISTEN");
    Config.tls_cert_path := match (env_string "PATHLOCKD_TLS_CERT_PATH") with Some v => Some v | None => Config.tls_cert_path cfg end;
    Config.tls_key_path := match (env_string "PATHLOCKD_TLS_KEY_PATH") with Some v => Some v | None => Config.tls_key_path cfg end;
    Config.web_zero_rtt := default (Config.web_zero_rtt cfg) web_zero_rtt;
    Config.web_event_log_capacity := default (Config.web_event_log_capacity cfg) web_event_log_capacity
  |}.
End env.

(** ** Checking *)

Definition is_ascii_digit (b : byte) : bool := in_rangeb 48 57 b.
Fixpoint take_while (p : byte → bool) (s : str) : str :=
  match s with b :: s => if p b then b :: take_while p s else [] | [] => [] end.
(** The sum wraps, as in a release build. *)
Definition numeric_node_id (cfg : Config.Config) : result Z :=
  let digits := reverse (take_while is_ascii_digit (reverse (Config.node_id cfg))) in
  if bool_decide (digits = []) then Err (Anyhow "node_id must end in a unique integer")
  else match parse_u64 digits with
       | Some ordinal => Ok ((ordinal + 1) mod 2 ^ 64)
       | None => Err (Anyhow "node_id ordinal")
       end.
(** [s.rsplit_once(c)] *)
Definition rsplit_once (c : byte) (s : str) : option (str * str) :=
  (λ x, (reverse x.2, reverse x.1)) <$> split_once c (reverse s).
Definition parse_u16 : str → option Z := parse_unsigned 65535.
Definition is_host_port (s : str) : bool :=
  match rsplit_once c_colon s with
  | Some (host, port) =>
      negb (bool_decide (host = [])) && match parse_u16 port with Some p => 0 <? p | None => false end
  | None => false
  end.
Definition web_enabled (cfg : Config.Config) : bool := negb (bool_decide (Config.web_listen cfg = [])).
Definition h3_enabled (cfg : Config.Config) : bool :=
  web_enabled cfg && negb (bool_decide (Config.h3_listen cfg = [])).
Definition node_meta (cfg : Config.Config) : NodeMeta :=
  {| name := Config.node_id cfg; raft_addr := Config.raft_addr cfg; public_addr := Config.public_addr cfg;
     gossip_addr := Config.gossip_addr cfg |}.

Definition is_err {A} (r : result A) : bool := match r with Ok _ => false | Err _ => true end.
Definition is_none {A} (o : option A) : bool := match o with Some _ => false | None => true end.
(** The first check that fails. *)
Fixpoint first_bad (checks : list (bool * string)) : result unit :=
  match checks with
  | [] => Ok tt
  | (bad, msg) :: checks => if bad then Err (Anyhow msg) else first_bad checks
  end.

Section load.
(** [MetadataValue::try_from(token)] succeeds *)
Context (metadata_valid : str → bool).

Definition web_checks (cfg : Config.Config) : list (bool * string) :=
  if web_enabled cfg then
    [(is_none (parse_socket_addr (Config.web_listen cfg)), "invalid web_listen address");
     (negb (bool_decide (Config.h3_listen cfg = [])) && is_none (parse_socket_addr (Config.h3_listen cfg)),
      "invalid h3_listen address");
     (xorb (is_none (Config.tls_cert_path cfg)) (is_none (Config.tls_key_path cfg)),
      "tls_cert_path and tls_key_path must be set together");
     (Config.web_event_log_capacity cfg =? 0, "web_event_log_capacity must be > 0")]
  else [].
Definition checks (cfg : Config.Config) : list (bool * string) :=
  [(Config.request_timeout_ms cfg =? 0, "request_timeout_ms must be > 0");
   (Config.max_concurrent_requests_per_connection cfg =? 0, "max_concurrent_requests_per_connection must be > 0");
   ((Config.event_buffer cfg =? 0) || (MAX_EVENT_BUFFER <? Config.event_buffer cfg),
    "event_buffer must be > 0 and <= 1000000");
   (len (Config.internal_auth_token cfg) <? 32, "internal_auth_token must be at least 32 bytes");
   (negb (metadata_valid (Config.internal_auth_token cfg)), "internal_auth_token is not valid header data");
   (Config.replication_factor cfg mod 2 =? 0, "replication_factor must be odd");
   (Config.group_count cfg =? 0, "group_count must be > 0");
   (Config.group_count cfg =? u32_max, "group_count must be < u32::MAX (reserved for the system group)");
   (65536 <? Config.group_count cfg, "group_count must be <= 65536");
   (256 <? Config.routing_prefix_segments cfg, "routing_prefix_segments must be <= 256");
   (Config.raft_snapshot_max_bytes cfg =? 0, "raft_snapshot_max_bytes must be > 0");
   (Config.raft_snapshot_interval_entries cfg =? 0, "raft_snapshot_interval_entries must be > 0");
   (Config.raft_max_inflight cfg =? 0, "raft_max_inflight must be > 0");
   (bool_decide (Config.node_id cfg = []), "node_id must not be empty");
   (Config.gossip_cluster_size cfg =? 0, "gossip_cluster_size must be > 0");
   (Config.gossip_max_packet_size cfg <? 256, "gossip_max_packet_size must be >= 256");
   (Config.gossip_seed_announce_interval_ms cfg =? 0, "gossip_seed_announce_interval_ms must be > 0");
   (Config.gossip_send_queue_depth cfg =? 0, "gossip_send_queue_depth must be > 0");
   ((Config.raft_heartbeat_interval_ms cfg =? 0)
      || (Config.raft_election_timeout_min_ms cfg <=? Config.raft_heartbeat_interval_ms cfg)
      || (Config.raft_election_timeout_max_ms cfg <=? Config.raft_election_timeout_min_ms cfg),
    "raft timing must satisfy heartbeat < election_min < election_max");
   (is_err (numeric_node_id cfg), "node_id must end in a unique integer");
   (negb (Config.bootstrap cfg) && bool_decide (Config.seed_nodes cfg = []),
    "a non-bootstrap node needs seed_nodes to find its cluster");
   (negb (forallb is_host_port (Config.seed_nodes cfg)), "seed_nodes entries must be host:port");
   (Config.max_inflight_per_group cfg =? 0, "max_inflight_per_group must be > 0");
   (Config.max_concurrent_reconciles cfg =? 0, "max_concurrent_reconciles must be > 0");
   (Config.group_gc_batch cfg =? 0, "group_gc_batch must be > 0");
   (Config.rocksdb_max_total_wal_size_mb cfg =? 0, "rocksdb_max_total_wal_size_mb must be > 0");
   (Config.rocksdb_max_background_jobs cfg <=? 0, "rocksdb_max_background_jobs must be > 0");
   (Config.rocksdb_write_buffer_mb cfg =? 0, "rocksdb_write_buffer_mb must be > 0");
   (Config.rocksdb_write_buffer_manager_mb cfg =? 0, "rocksdb_write_buffer_manager_mb must be > 0");
   (Config.rocksdb_max_write_buffers cfg <? 2, "rocksdb_max_write_buffers must be >= 2")] ++ web_checks cfg.
Definition validate (cfg : Config.Config) : result unit := first_bad (checks cfg).

(** ** Loading *)

Context (read_to_string : str → option str) (toml : str → option FileConfig.FileConfig) (env : str → option str).

Definition load_unvalidated (config_path : option str) : result Config.Config :=
  match config_path with
  | Some path =>
      match read_to_string path with
      | None => Err (Anyhow "reading config")
      | Some raw =>
          match toml raw with
          | None => Err (Anyhow "parsing config")
          | Some file => apply_env env (apply_file Config.default_config file)
          end
      end
  | None => apply_env env Config.default_config
  end.
Definition load_from (config_path : option str) : result Config.Config :=
  match load_unvalidated config_path with
  | Ok cfg => match validate cfg with Ok _ => Ok cfg | Err e => Err e end
  | Err e => Err e
  end.
End load.

(** ** The fingerprint *)

Definition fingerprint_value (cfg : Config.Config) : str :=
  bs "v1:" ++ to_string (Config.group_count cfg) ++ c_colon ::
  to_string (Config.routing_prefix_segments cfg) ++ c_colon ::
  algorithm_as_str (Config.default_lock_algorithm cfg) ++ c_colon ::
  to_string (Config.replication_factor cfg).
Definition cluster_config_fingerprint (xxh3_64 : bytes → Z) (cfg : Config.Config) : Z :=
  xxh3_64 (fingerprint_value cfg).
