(* ===== verification/RouterLogic.v ===== *)
(** * Reasoning about the router

    [emits m Q n]: running [m] from [n] ends with a result, events and a state
    that satisfy [Q].  The rules follow the monad; the basic operations emit the
    one event that describes them. *)

From Stdlib Require Import ZArith NArith Lia Strings.Byte.
From stdpp Require Import sorting countable base numbers gmap strings list.
From S2P Require Import Prelude RustStd StoreKeys Store Snapshot EngineTypes Engine Placement.
From S2P Require Import Queue Command StateMachine Reads Router RouterOps RouterApi.
From S2P Require Import RouterReads.
Local Open Scope Z_scope.

Section logic.
Context `{!RocksDb, !Cluster}.

Definition emits {A} (m : rm A) (Q : RouterError + A → list event → Node → Prop) (n : Node) : Prop :=
  let '(r, n') := m n in ∃ l, events n' = events n ++ l ∧ Q r l n'.

(** The rest of a run after a prefix [l] of its events. *)
Definition after (l : list event) {A} (Q : RouterError + A → list event → Node → Prop)
    (r : RouterError + A) (l' : list event) (n : Node) : Prop := Q r (l ++ l') n.

Lemma emits_mono {A} (m : rm A) (Q Q' : RouterError + A → list event → Node → Prop) n :
  emits m Q n → (∀ r l n', Q r l n' → Q' r l n') → emits m Q' n.
Proof. unfold emits. destruct (m n) as [r n']. intros (l & ? & ?) H'. exists l. auto. Qed.
Lemma emits_ret {A} (a : A) Q n : Q (inr a) [] n → emits (mret a) Q n.
Proof. intros ?. exists []. by rewrite app_nil_r. Qed.
Lemma emits_fail {A} e (Q : RouterError + A → list event → Node → Prop) n : Q (inl e) [] n → emits (fail e) Q n.
Proof. intros ?. exists []. by rewrite app_nil_r. Qed.
Lemma emits_of_sum {A} (r : RouterError + A) Q n : Q r [] n → emits (of_sum r) Q n.
Proof. intros ?. exists []. by rewrite app_nil_r. Qed.
Lemma emits_bind {A B} (m : rm A) (f : A → rm B) Q n :
  emits m (λ r l n', match r with
                     | inr a => emits (f a) (after l Q) n'
                     | inl e => Q (inl e) l n'
                     end) n →
  emits (m ≫= f) Q n.
Proof.
  unfold emits, mbind, rm_bind, after. destruct (m n) as [[e|a] n'].
  - intros (l & ? & ?). by exists l.
  - intros (l & Hl & H'). destruct (f a n') as [r n'']. destruct H' as (l' & Hl' & HQ).
    exists (l ++ l'). split; [|done]. by rewrite Hl', Hl, app_assoc.
Qed.
Lemma emits_attempt {A} (m : rm A) Q n :
  emits m (λ r l n', Q (inr r) l n') n → emits (attempt m) Q n.
Proof. unfold emits, attempt. by destruct (m n) as [r n']. Qed.
Lemma emits_get_router (Q : RouterError + Router → list event → Node → Prop) n :
  Q (inr (router n)) [] n → emits get_router Q n.
Proof. intros ?. exists []. by rewrite app_nil_r. Qed.
Lemma emits_get_world (Q : RouterError + World → list event → Node → Prop) n :
  Q (inr (world n)) [] n → emits get_world Q n.
Proof. intros ?. exists []. by rewrite app_nil_r. Qed.
Lemma emits_modify f (Q : RouterError + unit → list event → Node → Prop) n :
  Q (inr tt) [] (set_router (f (router n)) n) → emits (modify f) Q n.
Proof. intros ?. exists []. by rewrite app_nil_r. Qed.
Lemma emits_with_router {A} (f : Router → A * Router) Q n :
  Q (inr (f (router n)).1) [] (set_router (f (router n)).2 n) → emits (with_router f) Q n.
Proof.
  unfold emits, with_router. destruct (f (router n)) as [a r]. intros ?. exists [].
  by rewrite app_nil_r.
Qed.
Lemma emits_record e (Q : RouterError + unit → list event → Node → Prop) n :
  Q (inr tt) [e] {| router := router n; world := world n; events := events n ++ [e] |} →
  emits (record e) Q n.
Proof. intros ?. by exists [e]. Qed.
Lemma emits_after {A} (m : rm A) Q l n :
  emits m (λ r l' n', Q r (l ++ l') n') n → emits m (after l Q) n.
Proof. done. Qed.

(** ** State kept through the awaits *)

(** A property of the router's state that whatever else runs on it keeps. *)
Record kept (P : Router → Prop) : Prop := {
  kept_client_write g c r w : P r → P (client_write g c (r, w)).2.1;
  kept_linearizable g r w : P r → P (ensure_linearizable g (r, w)).2.1;
  kept_spawn r w : P r → P (spawn_blocking (r, w)).2.1;
  kept_forward i m g b r w : P r → P (forward_rpc i m g b (r, w)).2.1;
  kept_forward_read i m g b r w : P r → P (forward_read_rpc i m g b (r, w)).2.1;
  kept_sleep t r w : P r → P (sleep_ms t (r, w)).1;
  kept_lock r w : P r → P (lock_refresh (r, w)).1;
  kept_abandon r w : P r → P (abandon_refresh (r, w)).1
}.

Lemma kept_true : kept (λ _, True).
Proof. done. Qed.

(** [m] keeps [P] and emits nothing. *)
Definition quiet (P : Router → Prop) {A} (m : rm A) : Prop :=
  ∀ n, P (router n) → emits m (λ _ l n', l = [] ∧ P (router n')) n.

Lemma quiet_ret P {A} (a : A) : quiet P (mret a).
Proof. intros n Hn. by apply emits_ret. Qed.
Lemma quiet_fail P {A} e : quiet P (fail e : rm A).
Proof. intros n Hn. by apply emits_fail. Qed.
Lemma quiet_of_sum P {A} (r : RouterError + A) : quiet P (of_sum r).
Proof. intros n Hn. by apply emits_of_sum. Qed.
Lemma quiet_bind P {A B} (m : rm A) (f : A → rm B) : quiet P m → (∀ a, quiet P (f a)) → quiet P (m ≫= f).
Proof.
  intros Hm Hf n Hn. apply emits_bind. eapply emits_mono; [by apply Hm|].
  intros [e|a] l n' [-> HP]; [done|]. by apply Hf.
Qed.
Lemma quiet_attempt P {A} (m : rm A) : quiet P m → quiet P (attempt m).
Proof. intros Hm n Hn. by apply emits_attempt, Hm. Qed.
Lemma quiet_get_router P : quiet P get_router.
Proof. intros n Hn. by apply emits_get_router. Qed.
Lemma quiet_get_world P : quiet P get_world.
Proof. intros n Hn. by apply emits_get_world. Qed.
Lemma quiet_modify (P : Router → Prop) f : (∀ r, P r → P (f r)) → quiet P (modify f).
Proof. intros Hf n Hn. apply emits_modify. split; [done|]. by apply Hf. Qed.
Lemma quiet_with_router (P : Router → Prop) {A} (f : Router → A * Router) :
  (∀ r, P r → P (f r).2) → quiet P (with_router f).
Proof. intros Hf n Hn. apply emits_with_router. split; [done|]. by apply Hf. Qed.
Lemma quiet_await (P : Router → Prop) {A} (f : Router * World → A * (Router * World)) :
  (∀ r w, P r → P (f (r, w)).2.1) → quiet P (await f).
Proof.
  intros Hf n Hn. unfold emits, await. specialize (Hf (router n) (world n) Hn).
  destruct (f (router n, world n)) as [a [r w]]. exists []. by rewrite app_nil_r.
Qed.
Lemma quiet_pause (P : Router → Prop) f : (∀ r w, P r → P (f (r, w)).1) → quiet P (pause f).
Proof. intros Hf. apply quiet_await. intros r w. apply Hf. Qed.
End logic.

#[export] Hint Resolve quiet_ret quiet_fail quiet_of_sum quiet_attempt quiet_get_router quiet_get_world
  quiet_modify quiet_with_router quiet_await quiet_pause : quiet.

(** Follows the structure of a program. *)
Ltac quiet_step :=
  match goal with
  | |- quiet _ (_ ≫= _) => apply quiet_bind; [|intros ?]
  | |- quiet _ (match ?x with _ => _ end) => destruct x
  | |- _ => solve [eauto with quiet]
  end.
Ltac solve_quiet := repeat quiet_step.

(** ** The operations *)
Section basics.
Context `{!Bincode StoredRecord, !RocksDb, !Cluster}.
Context `{!Bincode Command, !Bincode ReadOp}.
Context `{!Bincode (ForwardError + ApplyResponse), !Bincode (ForwardError + ReadResult)}.
Context (routing : RoutingOptions) (dflt : LockAlgorithm).
Context (node_id : Z) (own_client_id : str).

Local Abbreviation apply_to := (apply_to routing node_id).
Local Abbreviation read_on := (read_on dflt node_id).
Local Abbreviation read_linearizable := (read_linearizable dflt node_id).
Local Abbreviation the_command := (the_command own_client_id).

(** A property of the router's state that single reads and writes keep. *)
Record basic (P : Router → Prop) : Prop := {
  basic_kept : kept P;
  basic_hints f r : P r → P (set_hints f r);
  basic_inflight i r : P r → P (set_counters i (seq_counter r) r)
}.

Context (P : Router → Prop) (HP : basic P).

#[local] Ltac keeps := apply basic_kept, HP.
Lemma keep_write g c r w : P r → P (client_write g c (r, w)).2.1.
Proof. apply kept_client_write. keeps. Qed.
Lemma keep_linearizable g r w : P r → P (ensure_linearizable g (r, w)).2.1.
Proof. apply kept_linearizable. keeps. Qed.
Lemma keep_spawn r w : P r → P (spawn_blocking (r, w)).2.1.
Proof. apply kept_spawn. keeps. Qed.
Lemma keep_forward i m g b r w : P r → P (forward_rpc i m g b (r, w)).2.1.
Proof. apply kept_forward. keeps. Qed.
Lemma keep_forward_read i m g b r w : P r → P (forward_read_rpc i m g b (r, w)).2.1.
Proof. apply kept_forward_read. keeps. Qed.
Lemma keep_sleep t r w : P r → P (sleep_ms t (r, w)).1.
Proof. apply kept_sleep. keeps. Qed.
Lemma keep_lock r w : P r → P (lock_refresh (r, w)).1.
Proof. apply kept_lock. keeps. Qed.
Lemma keep_abandon r w : P r → P (abandon_refresh (r, w)).1.
Proof. apply kept_abandon. keeps. Qed.
Lemma keep_hints f r : P r → P (set_hints f r).
Proof. apply HP. Qed.
Lemma keep_inflight i r : P r → P (set_counters i (seq_counter r) r).
Proof. apply HP. Qed.
#[local] Hint Resolve keep_write keep_linearizable keep_spawn keep_forward keep_forward_read keep_sleep
  keep_lock keep_abandon keep_hints keep_inflight : quiet.

Lemma quiet_note_leader g l : quiet P (note_leader g l).
Proof. apply quiet_modify. intros r. by apply basic_hints. Qed.
Lemma quiet_forward_via {A} `{!Bincode (ForwardError + A)} rpc g b t :
  (∀ i m r w, P r → P (rpc i m g b (r, w)).2.1) → quiet P (forward_via (A := A) rpc g b t).
Proof. intros Hrpc. unfold forward_via. solve_quiet. Qed.
Lemma quiet_forward_command g c t : quiet P (forward_command g c t).
Proof. apply quiet_forward_via. eauto with quiet. Qed.
Lemma quiet_forward_read_to g op t : quiet P (forward_read_to g op t).
Proof. apply quiet_forward_via. eauto with quiet. Qed.
#[local] Hint Resolve quiet_note_leader quiet_forward_command quiet_forward_read_to : quiet.
Lemma quiet_try_targets {A} what (send : Z * NodeMeta → rm (ForwardError + A)) g ts :
  (∀ t, quiet P (send t)) → quiet P (try_targets what send g ts).
Proof. intros Hs. induction ts as [|t ts IH]; cbn [try_targets]; solve_quiet. Qed.
Lemma quiet_forward_hop {A} what (send : Z * NodeMeta → rm (ForwardError + A)) g :
  (∀ t, quiet P (send t)) → quiet P (forward_hop node_id what send g).
Proof.
  intros Hs. pose proof (quiet_try_targets what send g). unfold forward_hop, forward_targets. solve_quiet.
Qed.
#[local] Hint Resolve quiet_forward_hop : quiet.
Lemma quiet_apply_hops hops g c : quiet P (apply_hops node_id hops g c).
Proof. induction hops as [|hops IH]; cbn [apply_hops]; cbv zeta; solve_quiet. Qed.
Lemma quiet_read_hops hops g op : quiet P (read_hops node_id hops g op).
Proof. induction hops as [|hops IH]; cbn [read_hops]; solve_quiet. Qed.
Lemma quiet_apply_admitted g c : quiet P (apply_admitted routing node_id g c).
Proof.
  pose proof (quiet_apply_hops MAX_FORWARD_HOPS g c). unfold apply_admitted, gauge, apply_inner.
  solve_quiet.
Qed.
Lemma quiet_local_read g op : quiet P (local_read dflt g op).
Proof. unfold local_read. solve_quiet. Qed.

(** A write is one [Proposed] event. *)
Lemma basic_apply_to g c Q n :
  P (router n) → (∀ r n', P (router n') → Q r [Proposed g c r] n') → emits (apply_to g c) Q n.
Proof.
  intros Hn HQ. unfold RouterOps.apply_to. apply emits_bind, emits_attempt.
  eapply emits_mono; [by apply quiet_apply_admitted|]. intros r l n' [-> HP'].
  apply emits_bind, emits_record, emits_of_sum. unfold after. cbn. by apply HQ.
Qed.
Lemma emits_asked g op (m : rm ReadResult) Q n :
  quiet P m → P (router n) → (∀ r n', P (router n') → Q r [Asked g op r] n') → emits (asked g op m) Q n.
Proof.
  intros Hm Hn HQ. unfold asked. apply emits_bind, emits_attempt.
  eapply emits_mono; [by apply Hm|]. intros r l n' [-> HP'].
  apply emits_bind, emits_record, emits_of_sum. unfold after. cbn. by apply HQ.
Qed.
(** A read is one [Asked] event. *)
Lemma basic_read_on g op Q n :
  P (router n) → (∀ r n', P (router n') → Q r [Asked g op r] n') → emits (read_on g op) Q n.
Proof.
  apply emits_asked. pose proof (quiet_read_hops MAX_FORWARD_HOPS g op). pose proof (quiet_local_read g op).
  unfold read_forwarded. solve_quiet.
Qed.
Lemma basic_read_linearizable g op Q n :
  P (router n) → (∀ r n', P (router n') → Q r [Asked g op r] n') → emits (read_linearizable g op) Q n.
Proof.
  apply emits_asked. pose proof (quiet_read_hops MAX_FORWARD_HOPS g op). pose proof (quiet_local_read g op).
  unfold read_forwarded. solve_quiet.
Qed.

End basics.

Section operations.
Context `{!Bincode StoredRecord, !RocksDb, !Cluster}.
Context `{!Bincode Command, !Bincode ReadOp}.
Context `{!Bincode (ForwardError + ApplyResponse), !Bincode (ForwardError + ReadResult)}.
Context (xxh3_64 : bytes → Z) (routing : RoutingOptions) (dflt : LockAlgorithm).
Context (node_id : Z) (own_client_id : str).

Local Abbreviation apply_to := (apply_to routing node_id).
Local Abbreviation read_on := (read_on dflt node_id).
Local Abbreviation read_linearizable := (read_linearizable dflt node_id).
Local Abbreviation the_command := (the_command own_client_id).

(** A property of the router's state that every operation keeps. *)
Record steady (P : Router → Prop) : Prop := {
  steady_kept : kept P;
  steady_hints f r : P r → P (set_hints f r);
  steady_counters i s r : P r → P (set_counters i s r);
  steady_times a b r : P r → P (set_cache_times a b r);
  steady_load es t r : P r → P (load_namespaces es t r);
  steady_cache e r : P r → P (cache_namespace_entry e r);
  steady_uncache ns r : P r → P (uncache_namespace_root ns r);
  steady_domain d r : P r → P (group_of_domain xxh3_64 routing r d).2
}.

Lemma steady_true : steady (λ _, True).
Proof. split; [apply kept_true|done..]. Qed.

Lemma steady_basic P : steady P → basic P.
Proof. intros HP. split; [apply HP..|]. intros i r. apply HP. Qed.

Context (P : Router → Prop) (HP : steady P).

Lemma emits_apply_to g c Q n :
  P (router n) → (∀ r n', P (router n') → Q r [Proposed g c r] n') → emits (apply_to g c) Q n.
Proof. apply basic_apply_to. by apply steady_basic. Qed.
Lemma emits_read_on g op Q n :
  P (router n) → (∀ r n', P (router n') → Q r [Asked g op r] n') → emits (read_on g op) Q n.
Proof. apply basic_read_on. by apply steady_basic. Qed.
Lemma emits_read_linearizable g op Q n :
  P (router n) → (∀ r n', P (router n') → Q r [Asked g op r] n') → emits (read_linearizable g op) Q n.
Proof. apply basic_read_linearizable. by apply steady_basic. Qed.

#[local] Ltac keeps := first [apply steady_kept, HP | apply HP].
Lemma steady_sleep t r w : P r → P (sleep_ms t (r, w)).1.
Proof. apply kept_sleep. keeps. Qed.
Lemma steady_lock r w : P r → P (lock_refresh (r, w)).1.
Proof. apply kept_lock. keeps. Qed.
Lemma steady_abandon r w : P r → P (abandon_refresh (r, w)).1.
Proof. apply kept_abandon. keeps. Qed.
Lemma keep_times a b r : P r → P (set_cache_times a b r).
Proof. apply HP. Qed.
Lemma keep_load es t r : P r → P (load_namespaces es t r).
Proof. apply HP. Qed.
#[local] Hint Resolve steady_sleep steady_lock steady_abandon keep_times keep_load : quiet.

(** Operations that propose nothing. *)
Definition proposal (e : event) : option (GroupId * Command * (RouterError + ApplyResponse)) :=
  match e with Proposed g c r => Some (g, c, r) | Asked _ _ _ => None end.
Definition proposals (l : list event) : list (GroupId * Command * (RouterError + ApplyResponse)) :=
  omap proposal l.
Lemma proposals_app l l' : proposals (l ++ l') = proposals l ++ proposals l'.
Proof. apply omap_app. Qed.

Definition silent {A} (m : rm A) : Prop :=
  ∀ n, P (router n) → emits m (λ _ l n', proposals l = [] ∧ P (router n')) n.

Lemma quiet_silent {A} (m : rm A) : quiet P m → silent m.
Proof. intros Hm n Hn. eapply emits_mono; [by apply Hm|]. by intros r l n' [-> ?]. Qed.
Lemma silent_bind {A B} (m : rm A) (f : A → rm B) : silent m → (∀ a, silent (f a)) → silent (m ≫= f).
Proof.
  intros Hm Hf n Hn. apply emits_bind. eapply emits_mono; [by apply Hm|].
  intros [e|a] l n' [Hl HP']; [done|]. eapply emits_mono; [by apply Hf|].
  intros r l' n'' [Hl' ?]. unfold after. by rewrite proposals_app, Hl, Hl'.
Qed.
Lemma silent_attempt {A} (m : rm A) : silent m → silent (attempt m).
Proof. intros Hm n Hn. by apply emits_attempt, Hm. Qed.
Lemma silent_read_on g op : silent (read_on g op).
Proof. intros n Hn. by apply emits_read_on. Qed.
Lemma silent_read_linearizable g op : silent (read_linearizable g op).
Proof. intros n Hn. by apply emits_read_linearizable. Qed.

#[local] Ltac silent_step :=
  match goal with
  | H : silent ?m |- silent ?m => exact H
  | |- silent (_ ≫= _) => apply silent_bind; [|intros ?]
  | |- silent (match ?x with _ => _ end) => destruct x
  | |- silent (RouterOps.read_on _ _ _ _) => apply silent_read_on
  | |- silent (RouterOps.read_linearizable _ _ _ _) => apply silent_read_linearizable
  | |- silent (attempt _) => apply silent_attempt
  | |- silent _ => apply quiet_silent; solve [eauto with quiet]
  end.
Lemma silent_refresh_locked : silent (refresh_locked dflt node_id).
Proof. unfold refresh_locked, cache_now, refresh_failed, cache_answer. repeat silent_step. Qed.
Lemma silent_refresh : silent (refresh_namespace_cache_if_stale dflt node_id).
Proof.
  pose proof silent_refresh_locked. unfold refresh_namespace_cache_if_stale, cache_now, cache_answer.
  repeat silent_step.
Qed.
Lemma quiet_the_command op k : quiet P (the_command op k).
Proof.
  unfold RouterOps.the_command. apply quiet_bind; [eauto with quiet|]. intros w.
  apply quiet_with_router. intros r Hr. unfold command_with_idempotency, request_id_for.
  destruct k; [done|]. cbn. by apply steady_counters.
Qed.

End operations.

(** ** Errors a request does not end with

    A panic, or a partially applied policy, are reported by nothing else than the
    operations that say so. *)
Section calm.
Context `{!RocksDb, !Cluster}.

Definition exceptional (e : RouterError) : bool :=
  match e with NamespacePolicyPartial _ _ | Panicked _ => true | _ => false end.
Definition calm {A} (m : rm A) : Prop := ∀ n e, (m n).1 = inl e → exceptional e = false.

Lemma calm_ret {A} (a : A) : calm (mret a).
Proof. done. Qed.
Lemma calm_fail {A} e : exceptional e = false → calm (fail e : rm A).
Proof. by intros He n e' [= <-]. Qed.
Lemma calm_bind {A B} (m : rm A) (f : A → rm B) : calm m → (∀ a, calm (f a)) → calm (m ≫= f).
Proof.
  intros Hm Hf n e. unfold mbind, rm_bind. specialize (Hm n). destruct (m n) as [[e'|a] n']; [|apply Hf].
  intros [= <-]. by apply Hm.
Qed.
Lemma calm_attempt {A} (m : rm A) : calm (attempt m).
Proof. intros n e. unfold attempt. by destruct (m n). Qed.
Lemma calm_get_router : calm get_router.
Proof. done. Qed.
Lemma calm_get_world : calm get_world.
Proof. done. Qed.
Lemma calm_modify f : calm (modify f).
Proof. done. Qed.
Lemma calm_with_router {A} (f : Router → A * Router) : calm (with_router f).
Proof. intros n e. unfold with_router. by destruct (f (router n)). Qed.
Lemma calm_await {A} (f : Router * World → A * (Router * World)) : calm (await f).
Proof. intros n e. unfold await. by destruct (f _) as [a [r w]]. Qed.
Lemma calm_pause f : calm (pause f).
Proof. apply calm_await. Qed.
Lemma calm_asked g op m : calm m → calm (asked g op m).
Proof.
  intros Hm n e. unfold asked, mbind, rm_bind, attempt, record, of_sum. specialize (Hm n).
  destruct (m n) as [r n']. apply Hm.
Qed.
End calm.
#[export] Hint Resolve calm_ret calm_attempt calm_get_router calm_get_world calm_modify
  calm_with_router calm_await calm_pause : calm.
Ltac solve_calm := repeat match goal with
  | H : ∀ _, calm _ |- calm _ => apply H
  | |- calm (_ ≫= _) => apply calm_bind; [|intros ?]
  | |- calm (match ?x with _ => _ end) => destruct x
  | |- calm (fail _) => by apply calm_fail
  | |- calm _ => solve [eauto with calm]
  end.

Section errors.
Context `{!Bincode StoredRecord, !RocksDb, !Cluster}.
Context `{!Bincode Command, !Bincode ReadOp}.
Context `{!Bincode (ForwardError + ApplyResponse), !Bincode (ForwardError + ReadResult)}.
Context (xxh3_64 : bytes → Z) (routing : RoutingOptions) (dflt : LockAlgorithm).
Context (node_id : Z) (own_client_id : str).

Lemma calm_try_targets {A} what (send : Z * NodeMeta → rm (ForwardError + A)) g ts :
  (∀ t, calm (send t)) → calm (try_targets what send g ts).
Proof.
  intros Hs. induction ts as [|t ts IH]; cbn [try_targets]; unfold note_leader; solve_calm.
Qed.
Lemma calm_forward_read_to g op t : calm (forward_read_to g op t).
Proof. unfold forward_read_to, forward_via. solve_calm. Qed.
Lemma calm_read_forwarded g op : calm (read_forwarded node_id g op).
Proof.
  unfold read_forwarded. generalize MAX_FORWARD_HOPS. intros hops.
  pose proof (λ ts, calm_try_targets (bs "read") (forward_read_to g op) g ts (calm_forward_read_to g op)).
  induction hops as [|hops IH]; cbn [read_hops]; unfold forward_hop, forward_targets; solve_calm.
Qed.
Lemma calm_local_read g op : calm (local_read dflt g op).
Proof. unfold local_read. solve_calm. Qed.
Lemma calm_read_on g op : calm (read_on dflt node_id g op).
Proof.
  apply calm_asked. pose proof (calm_read_forwarded g op). pose proof (calm_local_read g op). solve_calm.
Qed.
Lemma calm_read_linearizable g op : calm (read_linearizable dflt node_id g op).
Proof.
  apply calm_asked. pose proof (calm_read_forwarded g op). unfold local_read, note_leader. solve_calm.
Qed.
Lemma calm_cache_now : calm cache_now.
Proof. unfold cache_now. solve_calm. Qed.
#[local] Hint Resolve calm_cache_now : calm.
Lemma calm_fresh now_ms r (k : rm unit) :
  calm k → calm (match cache_fresh now_ms r with Some a => cache_answer a | None => k end).
Proof.
  intros Hk. unfold cache_fresh, cache_answer. cbv zeta. destruct (_ && _); [apply calm_ret|].
  destruct (_ && _); [|done]. destruct (_ =? 0); [by apply calm_fail|apply calm_ret].
Qed.
Lemma calm_refresh : calm (refresh_namespace_cache_if_stale dflt node_id).
Proof.
  assert (calm (refresh_locked dflt node_id)) as Hl.
  { unfold refresh_locked. repeat (apply calm_bind; [eauto with calm|intros ?]).
    apply calm_fresh. unfold refresh_failed. solve_calm. }
  unfold refresh_namespace_cache_if_stale. repeat (apply calm_bind; [eauto with calm|intros ?]).
  apply calm_fresh. solve_calm.
Qed.
Lemma calm_policy_record ns : calm (namespace_policy_record dflt node_id ns).
Proof.
  pose proof calm_read_linearizable. unfold namespace_policy_record, unexpected_read. solve_calm.
Qed.
Lemma calm_drained ns : calm (ensure_drained routing dflt node_id ns).
Proof.
  unfold ensure_drained, namespace_has_locks_anywhere, any_unordered.
  assert (∀ gs, calm (any_read ((λ g, read_linearizable dflt node_id g (NamespaceHasLocks ns)) <$> gs))) as Hall.
  { pose proof calm_read_linearizable. intros gs. induction gs as [|g gs IH]; cbn; unfold unexpected_read; solve_calm. }
  solve_calm.
Qed.

Lemma calm_apply_to g c : calm (apply_to routing node_id g c).
Proof.
  intros n e. unfold RouterOps.apply_to, mbind, rm_bind, attempt, record, of_sum.
  assert (calm (apply_admitted routing node_id g c)) as Hc; [|specialize (Hc n e);
    by destruct (apply_admitted routing node_id g c n)].
  clear n e. intros n e. unfold apply_admitted, mbind, rm_bind, attempt, of_sum, get_world, gauge, modify.
  destruct (negb (fsync_healthy _)); [by intros [= <-]|]. destruct (negb (known_group _ _)); [by intros [= <-]|].
  destruct (negb (permit_free _ _)); [by intros [= <-]|].
  assert (calm (apply_inner node_id g c)) as Hi.
  { unfold apply_inner. generalize MAX_FORWARD_HOPS. intros hops.
    pose proof (λ ts Hs, calm_try_targets (bs "forward") (forward_command g c) g ts Hs) as Ht.
    assert (∀ t, calm (forward_command g c t)) as Hf by (intros t; unfold forward_command, forward_via; solve_calm).
    induction hops as [|hops IH]; cbn [apply_hops]; unfold forward_hop, forward_targets, note_leader; cbv zeta;
      solve_calm. }
  destruct (apply_inner node_id g c _) as [[e'|resp] n'] eqn:Hrun.
  - intros [= <-]. eapply Hi. by rewrite Hrun.
  - by destruct resp; intros [= <-].
Qed.

End errors.
