(* ===== verification/RouterClaims.v ===== *)
(** * What the router guarantees: routing, acquires

    Every theorem holds whatever the rest of the cluster and the requests running
    beside this one do at the awaits, unless it says otherwise. *)

From Stdlib Require Import ZArith NArith Lia Strings.Byte.
From stdpp Require Import sorting countable base numbers gmap strings list.
From S2P Require Import Prelude RustStd StoreKeys Store Instances Snapshot EngineTypes Engine.
From S2P Require Import Placement Queue Command Codecs StateMachine Reads Router RouterOps.
From S2P Require Import RouterApi RouterReads MiniCluster RouterLogic.
Local Open Scope Z_scope.

(** ** The caches *)
Section caches.
Context `{!RocksDb, !Cluster} (xxh3_64 : bytes → Z) (routing : RoutingOptions).

(** The placement cache agrees with the placement. *)
Definition domains_ok (r : Router) : Prop :=
  ∀ d g, domain_groups r !! d = Some g → g = place_domain xxh3_64 d (group_count routing).

Lemma group_of_domain_place r d :
  domains_ok r →
  (group_of_domain xxh3_64 routing r d).1 = place_domain xxh3_64 d (group_count routing) ∧
  domains_ok (group_of_domain xxh3_64 routing r d).2.
Proof.
  intros Hr. unfold group_of_domain. destruct (domain_groups r !! d) as [g|] eqn:Hd.
  { split; [by apply Hr|done]. }
  split; [done|]. cbn [snd]. destruct (_ <? _); [|done].
  intros d' g'. cbn. rewrite lookup_insert. case_decide; [by intros [= <-]; subst|apply Hr].
Qed.

Lemma steady_domains : kept domains_ok → steady xxh3_64 routing domains_ok.
Proof. intros Hk. split; [done| |done|done|done|done|done|]; [done|]. intros. by apply group_of_domain_place. Qed.
End caches.

Lemma emits_the_command_op `{!RocksDb, !Cluster} (xxh3_64 : bytes → Z) (routing : RoutingOptions)
    (own_client_id : str) (P : Router → Prop) op key n :
  steady xxh3_64 routing P → P (router n) →
  emits (the_command own_client_id op key)
    (λ res l n', l = [] ∧ P (router n') ∧ ∀ cmd, res = inr cmd → cmd_op cmd = op) n.
Proof.
  intros HP Hn. unfold the_command. apply emits_bind, emits_get_world, emits_with_router.
  unfold after, command_with_idempotency, request_id_for. destruct key as [key|]; cbn.
  - split_and!; [done|done|by intros cmd [= <-]].
  - split_and!; [done|by apply HP|by intros cmd [= <-]].
Qed.

(** ** Acquires *)
Section acquires.
Context `{!Bincode StoredRecord, !RocksDb, !Cluster}.
Context `{!Bincode Command, !Bincode ReadOp}.
Context `{!Bincode (ForwardError + ApplyResponse), !Bincode (ForwardError + ReadResult)}.
Context (xxh3_64 : bytes → Z) (routing : RoutingOptions) (dflt : LockAlgorithm).
Context (node_id : Z) (own_client_id : str).
Local Abbreviation resolve := (resolve_namespace_cached routing dflt).
Local Abbreviation place ns := (place_domain xxh3_64 ns (group_count routing)).

(** All paths of the request route to the namespace. *)
Definition routed_to (r : Router) (args : AcquireArgs) (namespace : str) : Prop :=
  (∀ req, req ∈ requests args → nr_namespace (resolve r (lr_path req)) = namespace) ∧
  (∀ rel, rel ∈ release_requests args → nr_namespace (resolve r (rel_path rel)) = namespace).

Lemma add_route_spec routes route :
  nr_namespace route ∈ nr_namespace <$> add_route routes route ∧
  (∀ ns, ns ∈ nr_namespace <$> routes → ns ∈ nr_namespace <$> add_route routes route).
Proof.
  unfold add_route. destruct (existsb _ routes) eqn:He.
  - split; [|done]. apply existsb_exists in He as (x & Hx%list_elem_of_In & Heq%bool_decide_eq_true_1).
    rewrite <- Heq. by apply list_elem_of_fmap_2.
  - rewrite fmap_app. split; [apply elem_of_app; right; by left|]. intros ns ?. apply elem_of_app. by left.
Qed.
Lemma acquire_routes_spec r reqs routes routes' :
  acquire_routes routing dflt r reqs routes = inr routes' →
  (∀ req, req ∈ reqs → nr_namespace (resolve r (lr_path req)) ∈ nr_namespace <$> routes') ∧
  (∀ ns, ns ∈ nr_namespace <$> routes → ns ∈ nr_namespace <$> routes').
Proof.
  revert routes. induction reqs as [|req reqs IH]; intros routes; cbn [acquire_routes].
  { intros [= ->]. split; [by intros ? ?%not_elem_of_nil|done]. }
  destruct (match lr_state req with New => _ | Held => _ end); [done|]. intros [H1 H2]%IH.
  destruct (add_route_spec routes (resolve r (lr_path req))) as [H3 H4]. split; [|auto].
  intros req' [->|Hin]%elem_of_cons; auto.
Qed.
Lemma release_routes_spec r reqs routes :
  (∀ req, req ∈ reqs →
     nr_namespace (resolve r (rel_path req)) ∈ nr_namespace <$> release_routes routing dflt r reqs routes) ∧
  (∀ ns, ns ∈ nr_namespace <$> routes → ns ∈ nr_namespace <$> release_routes routing dflt r reqs routes).
Proof.
  unfold release_routes. revert routes. induction reqs as [|req reqs IH]; intros routes; cbn [foldl].
  { split; [by intros ? ?%not_elem_of_nil|done]. }
  destruct (IH (add_route routes (resolve r (rel_path req)))) as [H1 H2].
  destruct (add_route_spec routes (resolve r (rel_path req))) as [H3 H4]. split; [|auto].
  intros req' [->|Hin]%elem_of_cons; auto.
Qed.

(** One route left: all paths take it; none: there are no paths. *)
Lemma routes_single r args routes :
  acquire_routes routing dflt r (requests args) [] = inr routes →
  match release_routes routing dflt r (release_requests args) routes with
  | [] => requests args = [] ∧ release_requests args = []
  | [route] => routed_to r args (nr_namespace route)
  | _ => True
  end.
Proof.
  intros [H1 _]%acquire_routes_spec.
  destruct (release_routes_spec r (release_requests args) routes) as [H2 H3].
  destruct (release_routes _ _ _ _ _) as [|route [|route' rest]]; [| |done].
  - split.
    + destruct (requests args) as [|req reqs]; [done|]. destruct (not_elem_of_nil (nr_namespace (resolve r (lr_path req)))).
      apply H3, H1. by left.
    + destruct (release_requests args) as [|req reqs]; [done|]. destruct (not_elem_of_nil (nr_namespace (resolve r (rel_path req)))).
      apply H2. by left.
  - split; intros req Hin; apply list_elem_of_singleton; [by apply H3, H1|by apply H2].
Qed.

(** A proposal of this acquire, on the group of the namespace it names. *)
Definition acquire_proposal (args : AcquireArgs) (p : GroupId * Command * (RouterError + ApplyResponse)) : Prop :=
  ∃ r namespace policy, routed_to r args namespace ∧ p.1.1 = place namespace ∧
    cmd_op p.1.2 = AcquireInNamespace namespace policy args.
(** The outcome is the response of the last proposal. *)
Definition acquire_answers (args : AcquireArgs) (res : AcquireOutcome * list str * option str)
    (ps : list (GroupId * Command * (RouterError + ApplyResponse))) : Prop :=
  let '(outcome, granted, namespace) := res in
  match namespace with
  | Some ns => ∃ ps' cmd policy resp, ps = ps' ++ [(place ns, cmd, inr resp)] ∧
      cmd_op cmd = AcquireInNamespace ns policy args ∧
      (resp = RAcquire outcome ∧ granted = [] ∨ resp = AcquireGranted outcome granted)
  | None => requests args = [] ∧ release_requests args = [] ∧ outcome = AcquireOk 0 ∧ granted = []
  end.
(** A second proposal follows only a stale rejection of the first. *)
Definition retried (ps : list (GroupId * Command * (RouterError + ApplyResponse))) : Prop :=
  match ps with
  | [] | [_] => True
  | [p; _] => ∃ e, p.2 = inl e ∧ stale_rejection e = true
  | _ => False
  end.

Context (Hkept : kept (domains_ok xxh3_64 routing)).
Local Abbreviation ok := (domains_ok xxh3_64 routing).
Local Abbreviation Hst := (steady_domains xxh3_64 routing Hkept).

(** What follows the response of a proposal. *)
Definition acquire_rest (a : nat) (first : bool) (args : AcquireArgs) (key : option str) (namespace : str)
    (response : RouterError + ApplyResponse) : rm (AcquireOutcome * list str * option str) :=
  match response with
  | inr (RAcquire outcome) => mret (outcome, [], Some namespace)
  | inr (AcquireGranted outcome granted) => mret (outcome, granted, Some namespace)
  | inr _ => unexpected_response
  | inl e =>
      if first && stale_rejection e then
        modify invalidate_namespace_cache;;
        refresh_namespace_cache_if_stale dflt node_id;;
        acquire_attempts xxh3_64 routing dflt node_id own_client_id a false args key
      else fail e
  end.

Lemma emits_acquire_attempt a first args key Q n :
  ok (router n) →
  (∀ e l n', proposals l = [] → Q (inl e) l n') →
  (∀ l n', proposals l = [] → requests args = [] → release_requests args = [] →
     Q (inr (AcquireOk 0, [], None)) l n') →
  (∀ l n' r ns policy cmd resp, proposals l = [] → ok (router n') → routed_to r args ns →
     cmd_op cmd = AcquireInNamespace ns policy args →
     emits (acquire_rest a first args key ns resp) (after (l ++ [Proposed (place ns) cmd resp]) Q) n') →
  emits (acquire_attempts xxh3_64 routing dflt node_id own_client_id (S a) first args key) Q n.
Proof.
  intros Hn Hfail Hnone Hrest. cbn [acquire_attempts].
  apply emits_bind. eapply emits_mono; [by apply (silent_refresh _ _ _ _ ok Hst)|].
  intros [e|[]] l1 n1 [Hl1 Hn1]; [by apply Hfail|].
  apply emits_bind, emits_get_router, emits_bind, emits_of_sum. unfold after.
  destruct (acquire_routes routing dflt (router n1) (requests args) []) as [e|routes] eqn:Hr.
  { apply Hfail. by rewrite app_nil_r, ?app_nil_r. }
  pose proof (routes_single (router n1) args routes Hr) as Hsingle. cbv zeta.
  destruct (Z.ltb_spec 1 (len (release_routes routing dflt (router n1) (release_requests args) routes))).
  { apply emits_fail, Hfail. by rewrite !app_nil_r. }
  destruct (release_routes _ _ _ _ _) as [|route [|route' rest]]; [| |unfold len in *; simpl in *; lia].
  { apply emits_ret. apply Hnone; [by rewrite !app_nil_r|apply Hsingle..]. }
  apply emits_bind, emits_with_router.
  destruct (group_of_domain_place xxh3_64 routing (router n1) (nr_namespace route) Hn1) as [-> Hn2].
  set (n2 := set_router _ n1). change (ok (router n2)) in Hn2. clearbody n2.
  apply emits_bind. eapply emits_mono.
  { exact (emits_the_command_op xxh3_64 routing own_client_id ok _ key n2 Hst Hn2). }
  intros [e|cmd] l2 n3 (-> & Hn3 & Hop); [apply Hfail; by rewrite ?app_nil_r|].
  apply emits_bind, emits_attempt. apply (emits_apply_to _ _ _ ok Hst); [done|]. intros resp n4 Hn4.
  specialize (Hrest l1 n4 (router n1) (nr_namespace route) (nr_policy route) cmd resp Hl1 Hn4 Hsingle (Hop cmd eq_refl)).
  eapply emits_mono; [exact Hrest|]. intros res l' n'. unfold after. by rewrite <- !app_assoc.
Qed.

Local Abbreviation proposed := (GroupId * Command * (RouterError + ApplyResponse))%type.
Definition acquire_post (args : AcquireArgs) (res : RouterError + (AcquireOutcome * list str * option str))
    (ps : list proposed) : Prop :=
  Forall (acquire_proposal args) ps ∧ match res with inr a => acquire_answers args a ps | inl _ => True end.

Lemma acquire_proposal_intro args r ns policy cmd resp :
  routed_to r args ns → cmd_op cmd = AcquireInNamespace ns policy args →
  acquire_proposal args (place ns, cmd, resp).
Proof. intros. by exists r, ns, policy. Qed.
Lemma acquire_post_fail args e ps :
  Forall (acquire_proposal args) ps → acquire_post args (inl e) ps.
Proof. done. Qed.
Lemma acquire_post_answer args outcome granted ns policy cmd resp :
  acquire_proposal args (place ns, cmd, inr resp) → cmd_op cmd = AcquireInNamespace ns policy args →
  resp = RAcquire outcome ∧ granted = [] ∨ resp = AcquireGranted outcome granted →
  acquire_post args (inr (outcome, granted, Some ns)) [(place ns, cmd, inr resp)].
Proof. intros Hp Hop Hr. split; [by constructor|]. by exists [], cmd, policy, resp. Qed.
Lemma acquire_post_cons args res p ps :
  acquire_proposal args p → acquire_post args res ps → acquire_post args res (p :: ps).
Proof.
  intros Hp [Hps Hr]. split; [by constructor|]. destruct res as [e|[[o gr] [ns|]]]; [done| |done].
  destruct Hr as (ps' & cmd & policy & resp & -> & ? & ?). by exists (p :: ps'), cmd, policy, resp.
Qed.

(** What follows a response that is not retried. *)
Lemma emits_acquire_final a first args key r ns policy cmd resp l n Q :
  routed_to r args ns → cmd_op cmd = AcquireInNamespace ns policy args →
  (∀ e, resp = inl e → first && stale_rejection e = false) →
  (∀ res, acquire_post args res [(place ns, cmd, resp)] → Q res l n) →
  emits (acquire_rest a first args key ns resp) (after l Q) n.
Proof.
  intros Hr Hop Hfinal HQ. pose proof (acquire_proposal_intro args r ns policy cmd resp Hr Hop) as Hp.
  unfold acquire_rest, unexpected_response.
  destruct resp as [e|resp].
  - rewrite (Hfinal e) by done. apply emits_fail. unfold after. rewrite app_nil_r.
    apply HQ, acquire_post_fail. by constructor.
  - destruct resp; first [apply emits_fail | apply emits_ret]; unfold after; rewrite app_nil_r; apply HQ;
      first [by apply acquire_post_fail; constructor | eapply acquire_post_answer; eauto].
Qed.

Lemma emits_acquire_last args key n :
  ok (router n) →
  emits (acquire_attempts xxh3_64 routing dflt node_id own_client_id 1 false args key)
    (λ res l _, acquire_post args res (proposals l) ∧ (length (proposals l) ≤ 1)%nat) n.
Proof.
  intros Hn. apply emits_acquire_attempt; [done|..].
  - intros e l n' ->. split; [done|simpl; lia].
  - intros l n' -> H1 H2. split; [|simpl; lia]. by split; [constructor|].
  - intros l n' r ns policy cmd resp Hl Hn' Hr Hop.
    eapply emits_acquire_final; [done|done|done|]. intros res Hres.
    rewrite proposals_app, Hl. by split.
Qed.

Lemma emits_acquire args key n :
  ok (router n) →
  emits (acquire_with_idempotency xxh3_64 routing dflt node_id own_client_id args key)
    (λ res l _, acquire_post args res (proposals l) ∧ retried (proposals l)) n.
Proof.
  intros Hn. unfold acquire_with_idempotency. apply emits_acquire_attempt; [done|..].
  - intros e l n' ->. by split.
  - intros l n' -> H1 H2. by split; [split; [constructor|]|].
  - intros l n' r ns policy cmd resp Hl Hn' Hr Hop.
    destruct (match resp with inl e => stale_rejection e | inr _ => false end) eqn:Hs.
    + destruct resp as [e|]; [|done]. unfold acquire_rest. rewrite Hs. cbn [andb].
      apply emits_bind, emits_modify. eapply emits_bind, emits_mono;
        [apply (silent_refresh xxh3_64 routing dflt node_id ok Hst); exact Hn'|].
      pose proof (acquire_proposal_intro args r ns policy cmd (inl e) Hr Hop) as Hp.
      intros [e'|[]] l2 n2 [Hl2 Hn2]; unfold after.
      { rewrite !proposals_app, Hl, Hl2. split; [|done]. apply acquire_post_fail. by constructor. }
      eapply emits_mono; [by apply emits_acquire_last|]. intros res l3 n3 [Hpost Hlen]. unfold after.
      rewrite !proposals_app, Hl, Hl2. cbn [app proposals omap]. split; [by apply acquire_post_cons|].
      destruct (proposals l3) as [|p [|]]; [done| |simpl in Hlen; lia]. by exists e.
    + eapply emits_acquire_final; [done|done| |].
      * intros e ->. by rewrite Hs.
      * intros res Hres. rewrite proposals_app, Hl. by split.
Qed.

(** C8: An acquire is one decision of one group.  Whatever else happens at its awaits (as long as the
    placement cache stays right), an acquire proposes at most twice, and only again after the first
    proposal was rejected for a stale policy epoch or routing table; every proposal carries the whole
    request, names one namespace that all paths of the request route to, and goes to the group that
    namespace is placed on.  A result that names a namespace is the response of the last proposal; one
    that names none means the request had no paths. *)
Theorem acquire_one_group args key n :
  domains_ok xxh3_64 routing (router n) →
  let '(res, n') := acquire_with_idempotency xxh3_64 routing dflt node_id own_client_id args key n in
  ∃ l, events n' = events n ++ l ∧
    (∀ g cmd r, (g, cmd, r) ∈ proposals l → ∃ rt ns policy, routed_to rt args ns ∧
       g = place ns ∧ cmd_op cmd = AcquireInNamespace ns policy args) ∧
    retried (proposals l) ∧
    match res with inr a => acquire_answers args a (proposals l) | inl _ => True end.
Proof.
  intros Hn. pose proof (emits_acquire args key n Hn) as He. unfold emits in He.
  destruct (acquire_with_idempotency _ _ _ _ _ _ _ n) as [res n'].
  destruct He as (l & Hl & [Hps Hans] & Hret). exists l. split_and!; [done| |done|done].
  intros g cmd r Hin. rewrite Forall_forall in Hps. apply (Hps _ Hin).
Qed.
End acquires.

Module RouterWitness.
Import Mini.
#[local] Existing Instance ref_bincode.
#[local] Existing Instance ref_rocksdb.
#[local] Instance cluster : Cluster := mini true.

Definition routing : RoutingOptions :=
  {| group_count := 4; routing_prefix_segments := 1; max_inflight_per_group := 8 |}.
Definition n0 : Node :=
  {| router := router_new; world := ({| st_db := (∅ : gmap cf (gmap bytes bytes)); st_now := 1000 |} : World);
     events := [] |}.
Definition args : AcquireArgs :=
  {| owner_id := bs "alice"; ttl_ms := 5000; fencing_token := 0; release_requests := [];
     requests := [{| lr_path := bs "fs:/a/x"; lr_mode := Write; lr_state := New; lr_permits := 1 |};
                  {| lr_path := bs "fs:/a/y"; lr_mode := Read; lr_state := New; lr_permits := 1 |}];
     queue_ttl_ms := 0 |}.
Definition run := acquire_with_idempotency hash routing dflt 1 (bs "1:7:1000") args None n0.

Lemma router_unchanged (P : Router → Prop) : kept P.
Proof.
  split; cbn; intros; try done; unfold at_world; cbn.
  - by destruct (propose g c w).
  - by destruct (deliver i g b w).
  - by destruct (deliver_read i g b w).
Qed.
Lemma n0_ok : domains_ok hash routing (router n0).
Proof. by intros d g. Qed.
Lemma run_ok : run.1 = inr (AcquireOk 1, [], Some (bs "fs:/a")).
Proof. vm_compute. reflexivity. Qed.

Lemma acquire_one_group_witness :
  ∃ l ps cmd policy resp, events run.2 = l ∧
    proposals l = ps ++ [(place_domain hash (bs "fs:/a") 4, cmd, inr resp)] ∧
    cmd_op cmd = AcquireInNamespace (bs "fs:/a") policy args ∧
    (resp = RAcquire (AcquireOk 1) ∨ resp = AcquireGranted (AcquireOk 1) []).
Proof.
  pose proof (acquire_one_group hash routing dflt 1 (bs "1:7:1000") (router_unchanged _) args None n0 n0_ok) as H.
  fold run in H. pose proof run_ok as Hr. destruct run as [res n']. cbn [fst] in Hr. subst res.
  destruct H as (l & Hl & _ & _ & ps & cmd & policy & resp & Hps & Hop & Hresp).
  exists l, ps, cmd, policy, resp. split_and!; [exact Hl|exact Hps|exact Hop|].
  destruct Hresp as [[Hresp _]|Hresp]; [left|right]; exact Hresp.
Defined.
End RouterWitness.
