(* ===== verification/RouterPolicy.v ===== *)
(** * Namespace policies reach every group

    A policy change is proposed on every lock group, retried where it failed, and
    committed in the system group last. *)

From Stdlib Require Import ZArith NArith Lia Strings.Byte.
From stdpp Require Import sorting countable base numbers gmap strings list.
From S2P Require Import Prelude RustStd StoreKeys Store Instances Snapshot EngineTypes Engine.
From S2P Require Import Placement Queue Command Codecs StateMachine Reads Router RouterOps.
From S2P Require Import RouterApi RouterReads MiniCluster RouterLogic RouterClaims.
Local Open Scope Z_scope.

(** ** Completion orders *)

Lemma in_order_from {A} (l : list A) m k :
  (k + m = length l)%nat → in_order (seq k m) l = drop k l.
Proof.
  unfold in_order. revert k. induction m as [|m IH]; intros k Hk; cbn [seq].
  { by rewrite drop_ge by lia. }
  destruct (lookup_lt_is_Some_2 l k) as [x Hx]; [lia|].
  cbn [omap list_omap]. rewrite Hx, (drop_S l x k Hx). f_equal. apply IH. lia.
Qed.
Lemma in_order_perm {A} (l : list A) order : order ≡ₚ seq 0 (length l) → in_order order l ≡ₚ l.
Proof.
  intros Hp. transitivity (in_order (seq 0 (length l)) l); [by apply omap_Permutation|].
  by rewrite in_order_from.
Qed.
Lemma unordered_perm `{!RocksDb, !Cluster} {A} (w : World) (l : list A) :
  in_order (completion_order w (length l)) l ≡ₚ l.
Proof. apply in_order_perm, completion_order_perm. Qed.

(** ** Proposals of a policy change *)

Local Abbreviation proposed := (GroupId * Command * (RouterError + ApplyResponse))%type.
Definition success (p : proposed) : option ApplyResponse :=
  match p.2 with inr resp => Some resp | inl _ => None end.
Definition applied_on (ps : list proposed) (g : GroupId) : Prop := ∃ cmd resp, (g, cmd, inr resp) ∈ ps.
(** The owners that the responses name as cleared. *)
Definition named_cleared (ps : list proposed) (o : str) : Prop :=
  ∃ g cmd owners, (g, cmd, inr (NamespaceCleared owners)) ∈ ps ∧ o ∈ owners.

#[export] Instance applied_on_dec ps g : Decision (applied_on ps g).
Proof.
  refine (cast_if (decide (Exists (λ p : proposed, p.1.1 = g ∧ is_Some (success p)) ps))).
  - apply Exists_exists in e as ([[g' cmd] r] & Hin & <- & [resp Hs]). unfold success in Hs. cbn in Hs.
    destruct r as [|resp']; [done|]. by exists cmd, resp'.
  - intros (cmd & resp & Hin). apply n, Exists_exists. exists (g, cmd, inr resp). by eauto.
Defined.
Lemma applied_on_app ps ps' g : applied_on (ps ++ ps') g ↔ applied_on ps g ∨ applied_on ps' g.
Proof. unfold applied_on. setoid_rewrite elem_of_app. naive_solver. Qed.
Lemma named_cleared_app ps ps' o : named_cleared (ps ++ ps') o ↔ named_cleared ps o ∨ named_cleared ps' o.
Proof. unfold named_cleared. setoid_rewrite elem_of_app. naive_solver. Qed.

Lemma collect_cleared_spec resps into cleared :
  collect_all_cleared resps into = Some cleared →
  ∀ o, o ∈ cleared ↔ o ∈ into ∨ ∃ owners, NamespaceCleared owners ∈ resps ∧ o ∈ owners.
Proof.
  revert into. induction resps as [|resp resps IH]; intros into; cbn [collect_all_cleared].
  { intros [= ->] o. set_solver. }
  unfold collect_cleared. destruct resp; try done.
  - intros Hc o. rewrite (IH _ Hc o). set_solver.
  - intros Hc o. rewrite (IH _ Hc o). rewrite elem_of_union, elem_of_list_to_set. set_solver.
Qed.
Lemma cleared_named ps cleared :
  collect_all_cleared (omap success ps) ∅ = Some cleared → ∀ o, o ∈ cleared ↔ named_cleared ps o.
Proof.
  intros Hc o. rewrite (collect_cleared_spec _ _ _ Hc). unfold named_cleared. split.
  - intros [?|(owners & Hin & Ho)]; [set_solver|].
    apply list_elem_of_omap in Hin as ([[g cmd] r] & Hin & Hs). unfold success in Hs. cbn in Hs.
    destruct r as [|resp]; [done|]. injection Hs as ->. by exists g, cmd, owners.
  - intros (g & cmd & owners & Hin & Ho). right. exists owners. split; [|done].
    apply list_elem_of_omap. by exists (g, cmd, inr (NamespaceCleared owners)).
Qed.

Section policies.
Context `{!Bincode StoredRecord, !RocksDb, !Cluster}.
Context `{!Bincode Command, !Bincode ReadOp}.
Context `{!Bincode (ForwardError + ApplyResponse), !Bincode (ForwardError + ReadResult)}.
Context (xxh3_64 : bytes → Z) (routing : RoutingOptions) (dflt : LockAlgorithm).
Context (node_id : Z) (own_client_id : str).
Local Abbreviation any := (λ _ : Router, True).
Local Abbreviation Hany := (steady_true xxh3_64 routing).
Local Abbreviation the_command := (the_command own_client_id).
Local Abbreviation apply_to := (apply_to routing node_id).

Definition of_op (op : Op) (groups : list GroupId) (p : proposed) : Prop :=
  p.1.1 ∈ groups ∧ cmd_op p.1.2 = op.

Lemma emits_the_command op key n Q :
  (∀ cmd n', cmd_op cmd = op → Q (inr cmd) [] n') → emits (the_command op key) Q n.
Proof.
  intros HQ. unfold RouterOps.the_command. apply emits_bind, emits_get_world, emits_with_router.
  unfold after, command_with_idempotency, request_id_for. by destruct key; apply HQ.
Qed.

(** One attempt on each group, in some order. *)
Definition attempt_on (op : Op) (key : option str) (group : GroupId)
    : rm (GroupId * (RouterError + ApplyResponse)) :=
  r ← attempt (cmd ← the_command op key; apply_to group cmd); mret (group, r).
Lemma emits_attempts op key groups n :
  emits (each (attempt_on op key) groups)
    (λ res l _, res = inr ((λ p : proposed, (p.1.1, p.2)) <$> proposals l) ∧
       (λ p : proposed, p.1.1) <$> proposals l = groups ∧
       ∀ p, p ∈ proposals l → cmd_op p.1.2 = op) n.
Proof.
  revert n. induction groups as [|g groups IH]; intros n; cbn [each].
  { apply emits_ret. split_and!; [done|done|]. by intros p ?%not_elem_of_nil. }
  apply emits_bind. unfold attempt_on at 1. apply emits_bind, emits_attempt, emits_bind, emits_the_command.
  intros cmd n1 Hop. apply (emits_apply_to _ _ _ _ Hany); [done|]. intros r n2 _.
  apply emits_ret. unfold after. cbn [app]. apply emits_bind. eapply emits_mono; [apply IH|].
  intros res l n3 (-> & Hg & Hops). apply emits_ret. unfold after. rewrite app_nil_r. cbn.
  split_and!; [done|by f_equal|]. intros p [->|Hp]%elem_of_cons; [done|by apply Hops].
Qed.

Lemma emits_pause f (Q : RouterError + unit → list event → Node → Prop) n :
  (∀ n', Q (inr tt) [] n') → emits (pause f) Q n.
Proof.
  intros HQ. unfold emits, pause, await. destruct (f (router n, world n)) as [r w]. exists [].
  by rewrite app_nil_r.
Qed.

(** The groups of the failed attempts. *)
Definition failures (ps : list proposed) : list GroupId :=
  omap (λ x : GroupId * (RouterError + ApplyResponse), match x.2 with inl _ => Some x.1 | inr _ => None end)
    ((λ p : proposed, (p.1.1, p.2)) <$> ps).
Lemma elem_failures ps g : g ∈ failures ps ↔ ∃ cmd e, (g, cmd, inl e) ∈ ps.
Proof.
  unfold failures. rewrite list_elem_of_omap. split.
  - intros ([g' r] & ([[g'' cmd] r'] & [= -> ->] & Hin)%list_elem_of_fmap & Hr). cbn in Hr.
    destruct r' as [e|]; [|done]. injection Hr as ->. by exists cmd, e.
  - intros (cmd & e & Hin). exists (g, inl e). split; [|done]. apply list_elem_of_fmap. by exists (g, cmd, inl e).
Qed.
Lemma nodup_failures ps : NoDup ((λ p : proposed, p.1.1) <$> ps) → NoDup (failures ps).
Proof.
  induction ps as [|[[g cmd] r] ps IH]; intros Hnd; [constructor|].
  rewrite fmap_cons in Hnd. apply NoDup_cons in Hnd as [Hg Hnd]. unfold failures. rewrite fmap_cons, omap_cons.
  cbn. destruct r as [e|]; [|by apply IH]. apply NoDup_cons. split; [|by apply IH].
  change (g ∉ failures ps). intros (cmd' & e' & Hin)%elem_failures. apply Hg, list_elem_of_fmap.
  by exists (g, cmd', inl e').
Qed.
(** Proposed once, a group failed exactly when it did not apply. *)
Lemma failed_or_applied ps g :
  NoDup ((λ p : proposed, p.1.1) <$> ps) →
  g ∈ failures ps ↔ g ∈ ((λ p : proposed, p.1.1) <$> ps) ∧ ¬ applied_on ps g.
Proof.
  intros Hnd. rewrite elem_failures. split.
  - intros (cmd & e & Hin). split; [apply list_elem_of_fmap; by exists (g, cmd, inl e)|].
    intros (cmd' & resp & Hin'). apply list_elem_of_lookup in Hin as [i Hi], Hin' as [j Hj].
    assert (i = j) as ->; [|congruence].
    eapply NoDup_lookup; [exact Hnd|rewrite list_lookup_fmap, Hi; done|rewrite list_lookup_fmap, Hj; done].
  - intros [([[g' cmd] r] & -> & Hin)%list_elem_of_fmap Hno]. destruct r as [e|resp]; [by exists cmd, e|].
    destruct Hno. by exists cmd, resp.
Qed.

Lemma responses_success (ps : list proposed) :
  omap (λ x : GroupId * (RouterError + ApplyResponse), match x.2 with inr resp => Some resp | inl _ => None end)
    ((λ p : proposed, (p.1.1, p.2)) <$> ps) = omap success ps.
Proof.
  induction ps as [|[[g c] [e|resp]] ps IH]; cbn; [done|exact IH|]. f_equal. exact IH.
Qed.

(** The retries. *)
Lemma emits_rounds rounds first op key remaining responses n :
  NoDup remaining →
  emits (resilient_rounds routing node_id rounds first (λ _, the_command op key) remaining responses)
    (λ res l _, ∃ failed, res = inr (responses ++ omap success (proposals l), failed) ∧
       (∀ p, p ∈ proposals l → of_op op remaining p) ∧
       (∀ g, g ∈ failed ↔ g ∈ remaining ∧ ¬ applied_on (proposals l) g)) n.
Proof.
  revert first remaining responses n. induction rounds as [|rounds IH]; intros first remaining responses n Hnd;
    cbn [resilient_rounds].
  { apply emits_ret. exists remaining. split_and!; [by rewrite app_nil_r|by intros p ?%not_elem_of_nil|].
    intros g. split; [intros ?; split; [done|]|by intros [? _]]. by intros (? & ? & ?%not_elem_of_nil). }
  case_bool_decide as Hr.
  { subst. apply emits_ret. exists []. split_and!; [by rewrite app_nil_r|by intros p ?%not_elem_of_nil|].
    intros g. split; [by intros ?%not_elem_of_nil|by intros [? _]]. }
  apply emits_bind, (emits_mono _ (λ r l _, r = inr tt ∧ l = [])).
  { destruct first; [by apply emits_ret|by apply emits_pause]. }
  intros r l0 n1 [-> ->]. apply emits_bind. unfold unordered. apply emits_bind, emits_get_world.
  eapply emits_mono; [apply (emits_attempts op key)|].
  intros res l1 n2 (-> & Hgs & Hops). unfold after. cbn [app].
  pose proof (unordered_perm (world n1) remaining) as Hperm. rewrite <- Hgs in Hperm.
  assert (NoDup ((λ p : proposed, p.1.1) <$> proposals l1)) as Hnd1 by by rewrite Hperm.
  fold (failures (proposals l1)).
  eapply emits_mono; [apply IH, nodup_failures, Hnd1|]. intros res l2 n3 (failed & -> & Hof & Hfailed).
  exists failed. rewrite proposals_app, omap_app, app_assoc. split_and!.
  - by rewrite responses_success.
  - intros p [Hp|Hp]%elem_of_app.
    + split; [|by apply Hops]. rewrite <- Hperm. apply list_elem_of_fmap. by exists p.
    + destruct (Hof p Hp) as [Hin ?]. split; [|done].
      apply failed_or_applied in Hin as [Hin _]; [|done]. by rewrite Hperm in Hin.
  - intros g. rewrite Hfailed, failed_or_applied, applied_on_app, Hperm by done. tauto.
Qed.

(** ** The change *)

(** What a result of the change says about its proposals [ps]. *)
Definition policy_post (res : RouterError + gset str) (ps : list proposed) : Prop :=
  match res with
  | inr cleared => ∃ ps' cmd resp, ps = ps' ++ [(SYS_GROUP, cmd, inr resp)] ∧
      (∀ g, g ∈ lock_groups routing → applied_on ps' g) ∧
      (∀ o, o ∈ cleared ↔ named_cleared ps o)
  | inl (NamespacePolicyPartial owners failed) =>
      failed ≠ [] ∧ (∀ g, g ∈ failed ↔ g ∈ lock_groups routing ∧ ¬ applied_on ps g) ∧
      (∀ p, p ∈ ps → p.1.1 ∈ lock_groups routing) ∧ (∀ o, o ∈ owners ↔ named_cleared ps o)
  | inl _ => True
  end.

Lemma elem_sorted_strings s o : o ∈ sorted_strings s ↔ o ∈ s.
Proof. unfold sorted_strings. by rewrite merge_sort_Permutation, elem_of_elements. Qed.
Lemma nodup_lock_groups : NoDup (lock_groups routing).
Proof. apply NoDup_seqZ. Qed.

(** The commit in the system group, after the lock groups. *)
Lemma policy_post_commit ps cleared cmd resp cleared' :
  (∀ g, g ∈ lock_groups routing → applied_on ps g) → (∀ o, o ∈ cleared ↔ named_cleared ps o) →
  collect_cleared resp cleared = Some cleared' →
  policy_post (inr cleared') (ps ++ [(SYS_GROUP, cmd, inr resp)]).
Proof.
  intros Happ Hcl Hc. exists ps, cmd, resp. split_and!; [done|done|].
  intros o. rewrite named_cleared_app, <- Hcl.
  assert (collect_all_cleared [resp] cleared = Some cleared') as Hc2 by by cbn; rewrite Hc.
  rewrite (collect_cleared_spec _ _ _ Hc2). unfold named_cleared. split.
  - intros [?|(owners & Heq%list_elem_of_singleton & Ho)]; [by left|]. right.
    exists SYS_GROUP, cmd, owners. rewrite Heq. split; [by left|done].
  - intros [?|(g & cmd' & owners & [= -> -> Heq]%list_elem_of_singleton & Ho)]; [by left|]. right.
    exists owners. rewrite Heq. split; [by left|done].
Qed.
Lemma emits_commit op key ps cleared n :
  (∀ g, g ∈ lock_groups routing → applied_on ps g) → (∀ o, o ∈ cleared ↔ named_cleared ps o) →
  (∀ p, p ∈ ps → of_op op (all_groups routing) p) →
  emits (cmd ← the_command op key;
         resp ← apply_to SYS_GROUP cmd;
         match collect_cleared resp cleared with
         | Some cleared => mret cleared
         | None => unexpected_response
         end)
    (λ res l _, policy_post res (ps ++ proposals l) ∧
       ∀ p, p ∈ ps ++ proposals l → of_op op (all_groups routing) p) n.
Proof.
  intros Happ Hcl Hof. apply emits_bind, emits_the_command. intros cmd n2 Hop. apply emits_bind.
  pose proof (calm_apply_to routing node_id SYS_GROUP cmd n2) as Hcalm. unfold emits at 1.
  pose proof (emits_apply_to xxh3_64 routing node_id any Hany SYS_GROUP cmd
    (λ r l' _, l' = [Proposed SYS_GROUP cmd r]) n2 I (λ _ _ _, eq_refl)) as Hem. unfold emits in Hem.
  destruct (apply_to SYS_GROUP cmd n2) as [r n3]. destruct Hem as (l' & Hl' & ->).
  exists [Proposed SYS_GROUP cmd r]. split; [exact Hl'|]. unfold after. cbn [app].
  assert (∀ p, p ∈ ps ++ [(SYS_GROUP, cmd, r)] → of_op op (all_groups routing) p) as Hof'.
  { intros p [Hp|Hp]%elem_of_app; [by apply Hof|]. apply list_elem_of_singleton in Hp as ->. split; [|done].
    apply elem_of_app. right. by left. }
  destruct r as [e|resp]; [split; [|exact Hof']; specialize (Hcalm e eq_refl); by destruct e|].
  destruct (collect_cleared resp cleared) as [cleared'|] eqn:Hc;
    [apply emits_ret|apply emits_fail]; unfold after; (split; [|exact Hof']); [|done].
  by eapply policy_post_commit.
Qed.

Lemma emits_policy_everywhere op key n :
  emits (apply_policy_everywhere routing node_id own_client_id op key)
    (λ res l _, policy_post res (proposals l) ∧
       ∀ p, p ∈ proposals l → of_op op (all_groups routing) p) n.
Proof.
  unfold apply_policy_everywhere. apply emits_bind. unfold fanout_apply_resilient.
  eapply emits_mono; [apply emits_rounds, nodup_lock_groups|].
  intros res l n1 (failed & -> & Hof & Hfailed). cbn [app].
  assert (∀ p, p ∈ proposals l → of_op op (all_groups routing) p) as Hall.
  { intros p Hp. destruct (Hof p Hp) as [Hg Ho]. split; [|done]. apply elem_of_app. by left. }
  destruct (collect_all_cleared (omap success (proposals l)) ∅) as [cleared|] eqn:Hc.
  2: { apply emits_fail. unfold after. by rewrite app_nil_r. }
  pose proof (cleared_named _ _ Hc) as Hcl. case_bool_decide as Hf; cbn [negb].
  - assert (∀ g, g ∈ lock_groups routing → applied_on (proposals l) g) as Happ.
    { intros g Hg. destruct (decide (applied_on (proposals l) g)) as [|Hno]; [done|].
      assert (g ∈ failed) as Hin by by apply Hfailed. subst. by apply not_elem_of_nil in Hin. }
    eapply emits_mono; [by apply (emits_commit op key (proposals l))|].
    intros res l' n' Hres. unfold after. by rewrite proposals_app.
  - apply emits_fail. unfold after. rewrite app_nil_r. split; [|done]. split_and!; [done|exact Hfailed| |].
    + intros p Hp. by destruct (Hof p Hp).
    + intros o. by rewrite elem_sorted_strings, Hcl.
Qed.

(** Steps around the change that propose nothing and report no partial change. *)
Definition aside {A} (m : rm A) : Prop := silent any m ∧ calm m.

Lemma aside_bind {A B} (m : rm A) (f : A → rm B) : aside m → (∀ a, aside (f a)) → aside (m ≫= f).
Proof. intros [? ?] Hf. split; [apply silent_bind|apply calm_bind]; try done; apply Hf. Qed.
Lemma aside_quiet {A} (m : rm A) : quiet any m → calm m → aside m.
Proof. intros. split; [by apply quiet_silent|done]. Qed.
Lemma aside_ret {A} (a : A) : aside (mret a).
Proof. apply aside_quiet; [apply quiet_ret|apply calm_ret]. Qed.
Lemma aside_modify f : aside (modify f).
Proof. apply aside_quiet; [by apply quiet_modify|apply calm_modify]. Qed.
Lemma aside_pause f : aside (pause f).
Proof. apply aside_quiet; [by apply quiet_pause|apply calm_pause]. Qed.
Lemma aside_get_router : aside get_router.
Proof. apply aside_quiet; [apply quiet_get_router|apply calm_get_router]. Qed.
Lemma aside_refresh : aside (refresh_namespace_cache_if_stale dflt node_id).
Proof. split; [exact (silent_refresh xxh3_64 routing dflt node_id any Hany)|apply calm_refresh]. Qed.
Lemma aside_read g op : aside (read_linearizable dflt node_id g op).
Proof.
  split; [exact (silent_read_linearizable xxh3_64 routing dflt node_id any Hany g op)|apply calm_read_linearizable].
Qed.
Lemma aside_fail {A} e : exceptional e = false → aside (fail e : rm A).
Proof. intros. apply aside_quiet; [apply quiet_fail|by apply calm_fail]. Qed.
Lemma aside_record ns : aside (namespace_policy_record dflt node_id ns).
Proof.
  apply aside_bind; [apply aside_read|]. intros r. destruct r; first [apply aside_ret|by apply aside_fail].
Qed.
Lemma aside_drained ns : aside (ensure_drained routing dflt node_id ns).
Proof.
  unfold ensure_drained, namespace_has_locks_anywhere, any_unordered. apply aside_bind.
  - apply aside_bind; [apply aside_quiet; [apply quiet_get_world|apply calm_get_world]|]. intros w.
    induction (in_order _ _) as [|g gs IH]; cbn; [apply aside_ret|]. apply aside_bind; [apply aside_read|].
    intros r. destruct r; try by apply aside_fail. destruct b; [apply aside_ret|exact IH].
  - intros b. destruct b; [by apply aside_fail|apply aside_ret].
Qed.

(** Outcomes as the callers see them. *)
Definition policy_result (op : Op) (res : RouterError + list str) (ps : list proposed) : Prop :=
  (∀ g cmd r, (g, cmd, r) ∈ ps → cmd_op cmd = op) ∧
  match res with
  | inr owners => ∃ ps' cmd resp, ps = ps' ++ [(SYS_GROUP, cmd, inr resp)] ∧
      (∀ g, g ∈ lock_groups routing → applied_on ps' g) ∧ (∀ o, o ∈ owners ↔ named_cleared ps o)
  | inl (NamespacePolicyPartial owners failed) =>
      failed ≠ [] ∧ (∀ g, g ∈ failed ↔ g ∈ lock_groups routing ∧ ¬ applied_on ps g) ∧
      (∀ g cmd r, (g, cmd, r) ∈ ps → g ∈ lock_groups routing) ∧ (∀ o, o ∈ owners ↔ named_cleared ps o)
  | inl _ => True
  end.

Lemma emits_aside {A B} (m : rm A) (k : A → rm B) (Q : RouterError + B → list proposed → Prop) n :
  aside m → (∀ e, exceptional e = false → Q (inl e) []) → (∀ a n', emits (k a) (λ r l _, Q r (proposals l)) n') →
  emits (m ≫= k) (λ r l _, Q r (proposals l)) n.
Proof.
  intros [Hm Hc] Hfail Hk. apply emits_bind. unfold emits at 1. specialize (Hm n I). unfold emits in Hm.
  specialize (Hc n). destruct (m n) as [[e|a] n']; destruct Hm as (l & Hl & Hp & _); exists l; (split; [done|]).
  - rewrite Hp. by apply Hfail, Hc.
  - eapply emits_mono; [apply Hk|]. intros r l' n''. unfold after. by rewrite proposals_app, Hp.
Qed.

(** Whatever [m] returns is [a]. *)
Definition ends {A} (m : rm A) (a : A) : Prop := ∀ n a', (m n).1 = inr a' → a' = a.
Lemma ends_ret {A} (a : A) : ends (mret a) a.
Proof. by intros n a' [= ->]. Qed.
Lemma ends_bind {A B} (m : rm A) (f : A → rm B) b : (∀ a, ends (f a) b) → ends (m ≫= f) b.
Proof.
  intros Hf n b'. unfold mbind, rm_bind. destruct (m n) as [[e|a] n']; [done|apply Hf].
Qed.

(** The change, then steps aside that end with the owners. *)
Lemma emits_change (op : Op) (key : option str) (k : gset str → rm (list str)) n :
  (∀ cleared, aside (k cleared)) →
  (∀ cleared, ends (k cleared) (sorted_strings cleared)) →
  emits (apply_policy_everywhere routing node_id own_client_id op key ≫= k)
    (λ r l _, policy_result op r (proposals l)) n.
Proof.
  intros Hk Howners. apply emits_bind. eapply emits_mono; [apply emits_policy_everywhere|].
  intros res l n1 [Hpost Hof].
  assert (∀ g cmd r, (g, cmd, r) ∈ proposals l → cmd_op cmd = op) as Hops
    by (intros g cmd r Hin; by destruct (Hof _ Hin)).
  destruct res as [e|cleared].
  - split; [done|]. destruct e; try done. destruct Hpost as (? & ? & Hg & ?). split_and!; auto.
    intros g cmd r Hin. exact (Hg _ Hin).
  - destruct (Hk cleared) as [Hs Hc]. specialize (Hs n1 I). specialize (Hc n1). specialize (Howners cleared n1).
    unfold emits in *. destruct (k cleared n1) as [[e|owners] n2]; destruct Hs as (l' & Hl' & Hp & _);
      exists l'; (split; [done|]); unfold after; rewrite proposals_app, Hp, app_nil_r; (split; [done|]).
    + specialize (Hc e eq_refl). by destruct e.
    + destruct Hpost as (ps' & cmd & resp & ? & ? & Ho). exists ps', cmd, resp. split_and!; [done|done|].
      intros o. rewrite (Howners owners eq_refl), elem_sorted_strings. apply Ho.
Qed.

(** C33: A policy change is committed everywhere or reported as partial.  Setting (or deleting) a
    namespace's policy proposes only that change.  When it succeeds, every lock group applied it before
    the system group did, which comes last, and the owners returned are exactly those the responses name
    as cleared.  When it reports a partial change, the system group was not asked, the failed groups are
    exactly the lock groups where no attempt succeeded, and the owners it carries are again exactly those
    cleared. *)
Theorem policy_change_commits_last namespace alg key n :
  (let '(res, n') := set_namespace_policy routing dflt node_id own_client_id namespace alg key n in
   ∃ l, events n' = events n ++ l ∧ policy_result (SetNamespacePolicy namespace alg) res (proposals l)) ∧
  (let '(res, n') := delete_namespace_policy routing dflt node_id own_client_id namespace key n in
   ∃ l, events n' = events n ++ l ∧ policy_result (DeleteNamespacePolicy namespace) res (proposals l)).
Proof.
  assert (∀ op e, exceptional e = false → policy_result op (inl e) []) as Hfail.
  { intros op e He. split; [by intros g cmd r ?%not_elem_of_nil|]. by destruct e. }
  split.
  - assert (emits (set_namespace_policy routing dflt node_id own_client_id namespace alg key)
      (λ r l _, policy_result (SetNamespacePolicy namespace alg) r (proposals l)) n) as He; [|exact He].
    unfold set_namespace_policy.
    apply emits_aside; [apply aside_modify|apply Hfail|intros [] n1].
    apply emits_aside; [apply aside_refresh|apply Hfail|intros [] n2].
    apply emits_aside; [apply aside_record|apply Hfail|intros [? explicit] n3].
    apply emits_aside; [apply aside_get_router|apply Hfail|intros r n4]. cbv zeta.
    apply emits_aside; [|apply Hfail|intros [] n5].
    { destruct (namespace_route_would_change _ _ _ _ _); [|apply aside_ret]. apply aside_bind;
        [apply aside_get_router|]. intros r'. destruct (negb _); [apply aside_ret|apply aside_drained]. }
    apply emits_change.
    + intros cleared. apply aside_bind; [apply aside_record|]. intros [policy ?].
      apply aside_bind; [apply aside_modify|]. intros _. apply aside_bind; [|intros _; apply aside_ret].
      destruct (namespace_route_would_change _ _ _ _ _); [apply aside_pause|apply aside_ret].
    + intros cleared. repeat (apply ends_bind; intros ?). destruct_and?. case_match. 
      repeat (apply ends_bind; intros ?). apply ends_ret.
  - assert (emits (delete_namespace_policy routing dflt node_id own_client_id namespace key)
      (λ r l _, policy_result (DeleteNamespacePolicy namespace) r (proposals l)) n) as He; [|exact He].
    unfold delete_namespace_policy.
    apply emits_aside; [apply aside_modify|apply Hfail|intros [] n1].
    apply emits_aside; [apply aside_refresh|apply Hfail|intros [] n2].
    apply emits_aside; [apply aside_record|apply Hfail|intros [? explicit] n3].
    apply emits_aside; [|apply Hfail|intros [] n5].
    { destruct explicit; [|apply aside_ret]. apply aside_drained. }
    apply emits_change.
    + intros cleared. apply aside_bind; [apply aside_modify|]. intros _.
      apply aside_bind; [|intros _; apply aside_ret]. destruct explicit; [apply aside_pause|apply aside_ret].
    + intros cleared. repeat (apply ends_bind; intros ?). apply ends_ret.
Qed.
End policies.

(** ** A change whose last write fails

    The owners cleared on the lock groups are lost when the write to the system
    group fails: the error is not a partial change and carries no owners. *)
Module LostOwners.
Import Mini.
#[local] Existing Instance ref_bincode.
#[local] Existing Instance ref_rocksdb.
(** The reference cluster, with the system group refusing writes. *)
Definition write (g : GroupId) (cmd : Command) (w : state) : raft_result ApplyResponse * state :=
  if g =? SYS_GROUP then (RaftFailed (bs "stopped"), w) else propose g cmd w.
#[local] Instance cluster : Cluster :=
  let m := mini true in {|
  World := state; fsync_healthy := @fsync_healthy _ m; hosts := @hosts _ m; is_leader := @is_leader _ m;
  hosted := @hosted _ m; metrics_leader := @metrics_leader _ m; gossip_members := @gossip_members _ m;
  db_handle := @db_handle _ m; wall_ms := @wall_ms _ m; cache_elapsed_ms := @cache_elapsed_ms _ m;
  permit_free := @permit_free _ m; refresh_taken := @refresh_taken _ m; hash_order := @hash_order _ m;
  completion_order := @completion_order _ m; hash_order_perm := @hash_order_perm _ m;
  completion_order_perm := @completion_order_perm _ m; client_write g cmd := at_world (write g cmd);
  ensure_linearizable := @ensure_linearizable _ m; spawn_blocking := @spawn_blocking _ m;
  channel_error := @channel_error _ m; authorize_error := @authorize_error _ m;
  forward_rpc := @forward_rpc _ m; forward_read_rpc := @forward_read_rpc _ m; sleep_ms := @sleep_ms _ m;
  lock_refresh := @lock_refresh _ m; refresh_times_out := @refresh_times_out _ m;
  abandon_refresh := @abandon_refresh _ m |}.

Definition routing : RoutingOptions := RouterWitness.routing.
Definition start : Node :=
  {| router := router_new; world := ({| st_db := (∅ : gmap cf (gmap bytes bytes)); st_now := 1000 |} : World);
     events := [] |}.
Definition held : Node :=
  (acquire_with_idempotency hash routing dflt 1 (bs "1:7:1000") RouterWitness.args None start).2.
Definition change := set_namespace_policy routing dflt 1 (bs "1:7:1000") (bs "fs:/a") Semaphore None held.

Definition names_alice (p : proposed) : bool :=
  match p.2 with inr (NamespaceCleared owners) => bool_decide (bs "alice" ∈ owners) | _ => false end.
Lemma lost_by {A} (x : (RouterError + A) * Node) :
  (match x.1 with inl e => negb (exceptional e) | inr _ => false end) = true →
  existsb names_alice (proposals (events x.2)) = true →
  (∃ e, x.1 = inl e ∧ exceptional e = false) ∧ named_cleared (proposals (events x.2)) (bs "alice").
Proof.
  intros Herr Hal. split; [destruct x.1 as [e|]; [exists e; by apply negb_true_iff in Herr|done]|].
  apply existsb_exists in Hal as ([[g cmd] r] & Hin%list_elem_of_In & Hr). unfold names_alice in Hr. cbn in Hr.
  destruct r as [|[]]; try done. apply bool_decide_eq_true_1 in Hr. by exists g, cmd, owners.
Qed.
Lemma cleared_owners_lost :
  (∃ e, change.1 = inl e ∧ exceptional e = false) ∧ named_cleared (proposals (events change.2)) (bs "alice").
Proof. apply lost_by; vm_compute; reflexivity. Qed.
End LostOwners.
