(* ===== verification/RouterCycle.v ===== *)
(** * Deadlock detection

    A cycle [detect_cycle] reports is a cycle of wait edges it read, each
    confirmed to block by a read of the lock's group. *)

From Stdlib Require Import ZArith NArith Lia Strings.Byte.
From stdpp Require Import sorting countable base numbers gmap strings list.
From S2P Require Import Prelude RustStd StoreKeys Store Instances Snapshot EngineTypes Engine.
From S2P Require Import Placement Queue Command Codecs StateMachine Reads Router RouterOps.
From S2P Require Import RouterApi RouterReads MiniCluster RouterLogic.
Local Open Scope Z_scope.

(** ** Observed waits *)

(** The read that confirms that [b] blocks the edge's owner. *)
Definition confirmed (l : list event) (edge : WaitEdge) : Prop :=
  match metadata edge with
  | Some meta => ∃ g ns, Asked g (IsBlocking ns (conflict_path meta) (conflict_owner edge) (reason meta))
                           (inr (ReadBool true)) ∈ l
  | None => ∃ g, Asked g (IsOwnerAlive (conflict_owner edge)) (inr (ReadBool true)) ∈ l
  end.
(** [a] was seen waiting for [b]. *)
Definition waits (l : list event) (a b : str) : Prop :=
  ∃ edge, Asked SYS_GROUP (ReadWaitEdge a) (inr (ReadEdge (Some edge))) ∈ l ∧
    conflict_owner edge = b ∧ confirmed l edge.
Fixpoint linked (l : list event) (owners : list str) : Prop :=
  match owners with
  | a :: (b :: _) as rest => waits l a b ∧ linked l rest
  | _ => True
  end.
(** Each owner waits for the next, and the last for the first. *)
Definition deadlock (l : list event) (owners : list str) : Prop :=
  ∃ first, head owners = Some first ∧ linked l (owners ++ [first]) ∧ NoDup owners.

Lemma confirmed_mono l l' edge : (∀ e, e ∈ l → e ∈ l') → confirmed l edge → confirmed l' edge.
Proof. unfold confirmed. intros Hl. destruct (metadata edge); naive_solver. Qed.
Lemma waits_mono l l' a b : (∀ e, e ∈ l → e ∈ l') → waits l a b → waits l' a b.
Proof. intros Hl (edge & ? & ? & ?). exists edge. eauto using confirmed_mono. Qed.
Lemma linked_mono l l' owners : (∀ e, e ∈ l → e ∈ l') → linked l owners → linked l' owners.
Proof.
  intros Hl. induction owners as [|a [|b rest] IH]; [done|done|]. intros [? ?].
  split; [by eapply waits_mono|by apply IH].
Qed.
Lemma linked_snoc l owners a b : linked l (owners ++ [a]) → waits l a b → linked l (owners ++ [a; b]).
Proof.
  intros Hl Hw. induction owners as [|x [|y rest] IH]; cbn in *; [done|naive_solver|].
  destruct Hl as [? Hl]. split; [done|]. by apply IH.
Qed.
Lemma linked_prefix l owners a : linked l (owners ++ [a]) → linked l owners.
Proof.
  induction owners as [|x [|y rest] IH]; [done|done|]. intros [? Hl]. split; [done|]. by apply IH.
Qed.
Lemma head_snoc_2 (owners : list str) a b : head ((owners ++ [a]) ++ [b]) = head (owners ++ [a]).
Proof. by destruct owners. Qed.
Lemma linked_drop l k owners : linked l owners → linked l (drop k owners).
Proof.
  revert owners. induction k as [|k IH]; intros owners Hl; [done|]. destruct owners as [|a rest]; [done|].
  cbn [drop]. apply IH. destruct rest; [done|]. apply Hl.
Qed.

Section cycle.
Context `{!Bincode StoredRecord, !RocksDb, !Cluster}.
Context `{!Bincode Command, !Bincode ReadOp}.
Context `{!Bincode (ForwardError + ApplyResponse), !Bincode (ForwardError + ReadResult)}.
Context (xxh3_64 : bytes → Z) (routing : RoutingOptions) (dflt : LockAlgorithm).
Context (node_id : Z) (own_client_id : str).
Local Abbreviation any := (λ _ : Router, True).
Local Abbreviation Hany := (steady_true xxh3_64 routing).

(** ** The reads of a hop *)

Lemma emits_read g op n (Q : RouterError + ReadResult → list event → Node → Prop) :
  (∀ r n', Q r [Asked g op r] n') → emits (read_on dflt node_id g op) Q n.
Proof. intros HQ. apply (emits_read_on xxh3_64 routing dflt node_id any Hany); auto. Qed.

Lemma emits_route_path path n :
  emits (route_path xxh3_64 routing dflt node_id path) (λ _ _ _, True) n.
Proof.
  unfold route_path. apply emits_bind.
  eapply emits_mono; [by apply (silent_refresh xxh3_64 routing dflt node_id any Hany)|].
  intros [e|[]] l n' _; [done|]. apply emits_bind, emits_get_router, emits_bind, emits_with_router.
  by apply emits_ret.
Qed.

Lemma emits_is_blocking path owner reason n :
  emits (is_blocking xxh3_64 routing dflt node_id path owner reason)
    (λ r l _, r = inr true →
       ∃ g ns, Asked g (IsBlocking ns path owner reason) (inr (ReadBool true)) ∈ l) n.
Proof.
  unfold is_blocking. apply emits_bind. eapply emits_mono; [apply emits_route_path|].
  intros [e|[ns g]] l n1 _; [done|]. apply emits_bind, emits_read. intros r n2. unfold after.
  destruct r as [e|[]]; try (by apply emits_fail); [done|].
  apply emits_ret. intros [= ->]. exists g, ns. rewrite app_nil_r. set_solver.
Qed.

Lemma emits_any_alive owner groups n :
  emits (any_read ((λ g, read_on dflt node_id g (IsOwnerAlive owner)) <$> groups))
    (λ r l _, r = inr true → ∃ g, Asked g (IsOwnerAlive owner) (inr (ReadBool true)) ∈ l) n.
Proof.
  revert n. induction groups as [|g groups IH]; intros n; cbn [fmap list_fmap any_read]; [by apply emits_ret|].
  apply emits_bind, emits_read. intros r n1. destruct r as [e|[]]; try (by apply emits_fail); [done|].
  destruct b.
  - apply emits_ret. intros _. exists g. by left.
  - eapply emits_mono; [apply IH|]. intros r l n2 Hr Htrue. destruct (Hr Htrue) as [g' Hg]. exists g'. by right.
Qed.
Lemma emits_is_owner_alive owner n :
  emits (is_owner_alive xxh3_64 routing dflt node_id owner [])
    (λ r l _, r = inr true → ∃ g, Asked g (IsOwnerAlive owner) (inr (ReadBool true)) ∈ l) n.
Proof.
  unfold is_owner_alive, resolve_domains_to_groups. rewrite bool_decide_eq_true_2 by done.
  apply emits_bind, emits_ret. unfold after, any_unordered. apply emits_bind, emits_get_world.
  eapply emits_mono; [apply emits_any_alive|]. done.
Qed.
Lemma emits_clear_edge owner n :
  emits (attempt (clear_wait_edge routing node_id own_client_id owner)) (λ _ _ _, True) n.
Proof.
  apply emits_attempt. unfold clear_wait_edge, clear_wait_edge_with_idempotency. apply emits_bind.
  eapply emits_mono; [by apply (quiet_the_command xxh3_64 routing own_client_id any Hany)|].
  intros [e|cmd] l n1 _; [done|]. apply emits_bind.
  apply (emits_apply_to xxh3_64 routing node_id any Hany); [done|]. intros [e|r] n2 _; [done|]. by apply emits_ret.
Qed.

Lemma emits_edge_blocks current edge n :
  emits (edge_blocks xxh3_64 routing dflt node_id own_client_id current edge)
    (λ r l _, r = inr true → confirmed l edge) n.
Proof.
  unfold edge_blocks, confirmed. destruct (metadata edge) as [meta|]; apply emits_bind.
  - eapply emits_mono; [apply emits_is_blocking|]. intros [e|[]] l n1 Hb; [done| |].
    + apply emits_ret. unfold after. rewrite app_nil_r. auto.
    + apply emits_bind. eapply emits_mono; [apply emits_clear_edge|]. intros [e|r] l' n2 _; [done|].
      by apply emits_ret.
  - eapply emits_mono; [apply emits_is_owner_alive|]. intros [e|[]] l n1 Hb; [done| |].
    + apply emits_ret. unfold after. rewrite app_nil_r. auto.
    + apply emits_bind. eapply emits_mono; [apply emits_clear_edge|]. intros [e|r] l' n2 _; [done|].
      apply emits_bind. eapply emits_mono; [apply emits_clear_edge|]. intros [e|r'] l'' n3 _; [done|].
      by apply emits_ret.
Qed.

(** ** The walk *)

(** What the walk reports of all reads made so far. *)
Definition walk_post (l : list event) (depth : nat) (r : RouterError + CycleOutcome) : Prop :=
  match r with
  | inr (Cycle owners) => deadlock l owners
  | inr (Truncated owners) => linked l owners ∧ NoDup owners ∧ length owners = depth
  | _ => True
  end.

Lemma revisit_cycle l chain current pos x :
  list_find (current =.) chain = Some (pos, x) → NoDup chain → linked l (chain ++ [current]) →
  deadlock l (drop pos chain).
Proof.
  intros (Hpos & <- & _)%list_find_Some Hnd Hl. exists current.
  pose proof (lookup_lt_Some _ _ _ Hpos). rewrite (drop_S _ _ _ Hpos). split_and!; [done| |].
  - rewrite <- (drop_S _ _ _ Hpos). rewrite <- drop_app_le by lia. by apply linked_drop.
  - rewrite <- (drop_S _ _ _ Hpos). eapply sublist_NoDup; [exact Hnd|]. apply sublist_drop.
Qed.

Lemma emits_walk fuel start current visited chain l0 n :
  (∀ o, o ∈ visited ↔ o ∈ chain) → NoDup chain → linked l0 (chain ++ [current]) →
  head (chain ++ [current]) = Some start →
  emits (cycle_walk xxh3_64 routing dflt node_id own_client_id fuel start current visited chain)
    (λ r l _, walk_post (l0 ++ l) (length chain + fuel) r) n.
Proof.
  revert current visited chain l0 n. induction fuel as [|fuel IH]; intros current visited chain l0 n Hv Hnd Hl Hh;
    cbn [cycle_walk].
  { apply emits_ret. rewrite app_nil_r. split_and!; [by eapply linked_prefix|done|lia]. }
  case_bool_decide as Hin.
  - destruct (list_find (current =.) chain) as [[pos x]|] eqn:Hf; [|by apply emits_fail].
    apply emits_ret. rewrite app_nil_r. by eapply revisit_cycle.
  - cbv zeta. apply emits_bind, emits_read. intros r n1. destruct r as [e|[]]; try (by apply emits_fail); [done|].
    destruct edge as [edge|]; [|by apply emits_ret]. apply emits_bind.
    eapply emits_mono; [apply emits_edge_blocks|]. intros [e|[]] l n2 Hb; [done| |by apply emits_ret].
    set (l1 := l0 ++ [Asked SYS_GROUP (ReadWaitEdge current) (inr (ReadEdge (Some edge)))] ++ l).
    assert (waits l1 current (conflict_owner edge)) as Hw.
    { exists edge. split_and!; [set_solver|done|]. apply (confirmed_mono l); [set_solver|auto]. }
    assert (linked l1 ((chain ++ [current]) ++ [conflict_owner edge])) as Hl1.
    { rewrite <- app_assoc. apply linked_snoc; [|done]. eapply linked_mono; [|exact Hl]. set_solver. }
    assert (NoDup (chain ++ [current])) as Hnd1.
    { apply NoDup_app. split_and!; [done| |apply NoDup_singleton].
      intros o Ho ->%list_elem_of_singleton. apply Hin. by apply Hv. }
    cbn [negb]. case_bool_decide as Hstart.
    + apply emits_ret. unfold after. cbn [app]. rewrite app_nil_r. exists start. by rewrite <- Hstart at 2.
    + eapply emits_mono; [apply (IH (conflict_owner edge) _ (chain ++ [current]) l1)|].
      * intros o. rewrite elem_of_union, elem_of_singleton, Hv, elem_of_app, list_elem_of_singleton. tauto.
      * done.
      * done.
      * rewrite head_snoc_2. exact Hh.
      * intros r l' n3. unfold after, l1. rewrite <- !app_assoc, length_app. cbn [length app].
        by replace (length chain + 1 + fuel)%nat with (length chain + S fuel)%nat by lia.
Qed.

(** ** Never a panic *)

Lemma calm_route_path path : calm (route_path xxh3_64 routing dflt node_id path).
Proof. pose proof (calm_refresh dflt node_id). unfold route_path. solve_calm. Qed.
Lemma calm_clear_edges current edge : calm (edge_blocks xxh3_64 routing dflt node_id own_client_id current edge).
Proof.
  pose proof calm_route_path. pose proof (calm_read_on dflt node_id) as Hread.
  assert (∀ o, calm (is_owner_alive xxh3_64 routing dflt node_id o [])) as Halive.
  { intros o. unfold is_owner_alive, resolve_domains_to_groups, any_unordered, unexpected_read.
    rewrite bool_decide_eq_true_2 by done. apply calm_bind; [apply calm_ret|]. intros [gs b].
    apply calm_bind; [apply calm_get_world|]. intros w. induction (in_order _ _) as [|g gs' IH]; [apply calm_ret|].
    cbn. apply calm_bind; [apply Hread|]. intros r. destruct r; try by apply calm_fail.
    destruct b0; [apply calm_ret|exact IH]. }
  unfold edge_blocks, is_blocking, unexpected_read. cbv zeta. solve_calm.
Qed.
Lemma walk_no_panic fuel start current visited chain :
  (∀ o, o ∈ visited → o ∈ chain) →
  calm (cycle_walk xxh3_64 routing dflt node_id own_client_id fuel start current visited chain).
Proof.
  revert current visited chain. induction fuel as [|fuel IH]; intros current visited chain Hv; cbn [cycle_walk];
    [apply calm_ret|]. case_bool_decide as Hin.
  - destruct (list_find (current =.) chain) as [[pos x]|] eqn:Hf; [apply calm_ret|].
    apply list_find_None in Hf. rewrite Forall_forall in Hf. by destruct (Hf current (Hv _ Hin)).
  - cbv zeta. apply calm_bind; [apply calm_read_on|]. intros r. destruct r; try by apply calm_fail.
    destruct edge as [edge|]; [|apply calm_ret]. apply calm_bind; [apply calm_clear_edges|].
    intros b. destruct b; cbn [negb]; [|apply calm_ret]. case_bool_decide; [apply calm_ret|].
    apply IH. intros o. rewrite elem_of_union, elem_of_singleton, elem_of_app, list_elem_of_singleton.
    intros [->|?]; auto.
Qed.

(** C35: Deadlock detection reports only deadlocks it saw.  Whatever the cluster does meanwhile, a reported
    cycle is a list of distinct owners such that for each of them, and the next (the first after the last),
    the walk read the wait edge from the one to the other in the system group and had it confirmed by a read
    of the blocking lock's group.  A truncated walk reports [max_depth + 1] distinct owners, each seen to wait
    for the next; and the walk never panics. *)
Theorem detected_cycles_are_deadlocks start max_depth n :
  let '(res, n') := detect_cycle xxh3_64 routing dflt node_id own_client_id start max_depth n in
  ∃ l, events n' = events n ++ l ∧
    match res with
    | inr (Cycle owners) => deadlock l owners
    | inr (Truncated owners) => linked l owners ∧ NoDup owners ∧ length owners = S (Z.to_nat max_depth)
    | inr NoCycle => True
    | inl e => exceptional e = false
    end.
Proof.
  unfold detect_cycle. set (fuel := S (Z.to_nat max_depth)).
  pose proof (emits_walk fuel start start ∅ [] [] n) as He.
  pose proof (walk_no_panic fuel start start ∅ []) as Hp. unfold emits in He.
  assert (∀ o : str, o ∈ (∅ : gset str) → o ∈ ([] : list str)) as Hempty by set_solver.
  specialize (Hp Hempty n). destruct (cycle_walk _ _ _ _ _ fuel start start ∅ [] n) as [res n'].
  destruct He as (l & Hl & Hpost); [set_solver|constructor|done|done|]. exists l. split; [done|].
  destruct res as [e|[]]; [by apply Hp|done..].
Qed.
End cycle.
