(* ===== verification/RouterLeader.v ===== *)
(** * Chasing the leader

    In a settled cluster (a leader that answers, and gossip that knows at least
    one replica) a write is answered within the hops the router allows itself,
    whatever stale leader hint it starts from. *)

From Stdlib Require Import ZArith NArith Lia Strings.Byte.
From stdpp Require Import sorting countable base numbers gmap strings list.
From S2P Require Import Prelude RustStd StoreKeys Store Instances Snapshot EngineTypes Engine.
From S2P Require Import Placement Queue Command Codecs StateMachine Reads Router RouterOps.
From S2P Require Import RouterApi RouterReads MiniCluster RouterLogic.
Local Open Scope Z_scope.

Section leader.
Context `{!Bincode StoredRecord, !RocksDb, !Cluster}.
Context `{!Bincode Command, !Bincode (ForwardError + ApplyResponse)}.
Context (node_id : Z) (g : GroupId) (cmd : Command) (lead : Z * NodeMeta) (resp : ApplyResponse).

(** What a peer answers to the forwarded command. *)
Definition answers (r : Router) (w : World) (t : Z * NodeMeta) (a : ForwardError + ApplyResponse) (w' : World)
    : Prop :=
  channel_error w t.1 (raft_addr t.2) = None ∧ authorize_error w = None ∧
  forward_rpc t.1 t.2 g (bincode_encode cmd) (r, w) = (inr (bincode_encode a), (r, w')).
(** The peer does not answer. *)
Definition silent_peer (r : Router) (w : World) (t : Z * NodeMeta) (w' : World) : Prop :=
  (∃ e, channel_error w t.1 (raft_addr t.2) = Some e) ∧ w' = w ∨
  channel_error w t.1 (raft_addr t.2) = None ∧ authorize_error w = None ∧
    ∃ e, forward_rpc t.1 t.2 g (bincode_encode cmd) (r, w) = (inl e, (r, w')).
(** A replica: it leads, or names the leader. *)
Definition helpful (Inv : World → Prop) (t : Z * NodeMeta) : Prop :=
  ∀ r w, Inv w → ∃ w', answers r w t (inr resp) w' ∨ Inv w' ∧ answers r w t (inl (NotLeader (Some lead))) w'.

(** Worlds of a settled cluster: [lead] answers the command with [resp], every
    other peer is a replica, does not host the group, or is down; the local core,
    where there is one, is the leader or knows it; the local metrics name no other
    leader; gossip knows a replica.  Nothing else runs on the router. *)
Record settled (Inv : World → Prop) : Prop := {
  settled_lead r w : Inv w → ∃ w', answers r w lead (inr resp) w';
  settled_peer t r w : Inv w → ∃ w', answers r w t (inr resp) w' ∨
    Inv w' ∧ (answers r w t (inl (NotLeader (Some lead))) w' ∨
              answers r w t (inl NotHosted) w' ∨ silent_peer r w t w');
  settled_local r w : Inv w → hosts w g = true → ∃ w',
    client_write g cmd (r, w) = (RaftOk resp, (r, w')) ∨
    Inv w' ∧ client_write g cmd (r, w) = (ForwardToLeader (Some lead.1) (Some lead.2), (r, w'));
  settled_metrics w : Inv w → metrics_leader w g = None ∨ metrics_leader w g = Some lead;
  settled_members w : Inv w → ∃ ms t, gossip_members w = Some ms ∧ NoDup ms.*1 ∧ t ∈ ms ∧
    t.1 ≠ node_id ∧ helpful Inv t;
  settled_sleep t r w : Inv w → ∃ w', Inv w' ∧ sleep_ms t (r, w) = (r, w');
  settled_remote : lead.1 ≠ node_id
}.

Context (Inv : World → Prop) (Hset : settled Inv).
Local Abbreviation hint n := (leader_hints (router n) !! g).
Local Abbreviation send := (forward_command g cmd).

(** What one forwarded command does. *)
Lemma send_answers t n a w' :
  answers (router n) (world n) t a w' →
  send t n = (inr a, {| router := router n; world := w'; events := events n |}).
Proof.
  intros (Hc & Ha & Hr). unfold forward_command, forward_via, mbind, rm_bind, get_world, await.
  rewrite Hc, Ha, Hr, bincode_decode_encode. done.
Qed.
Lemma send_silent t n w' :
  silent_peer (router n) (world n) t w' →
  ∃ e, send t n = (inr (inl (Unreachable e)), {| router := router n; world := w'; events := events n |}).
Proof.
  unfold forward_command, forward_via, mbind, rm_bind, get_world, await.
  intros [[[e Hc] ->]|(Hc & Ha & e & Hr)]; exists e.
  - rewrite Hc. by destruct n.
  - by rewrite Hc, Ha, Hr.
Qed.
Lemma peer_send t n :
  Inv (world n) → ∃ a w', send t n = (inr a, {| router := router n; world := w'; events := events n |}) ∧
    (a = inr resp ∨
     Inv w' ∧ (a = inl (NotLeader (Some lead)) ∨ a = inl NotHosted ∨ ∃ e, a = inl (Unreachable e))).
Proof.
  intros Hn. destruct (settled_peer _ Hset t (router n) (world n) Hn) as (w' & Ha).
  destruct Ha as [Ha|[Hw' [Ha|[Ha|Ha]]]].
  1-3: (eexists _, w'; split; [by apply send_answers|auto]).
  apply send_silent in Ha as [e Ha]. exists (inl (Unreachable e)), w'. eauto 10.
Qed.

(** ** The targets of a hop *)

Lemma add_targets_keep ms init t : t ∈ init → t ∈ foldl (add_target node_id) init ms.
Proof.
  revert init. induction ms as [|m ms IH]; intros init Hin; [done|]. cbn [foldl]. apply IH.
  unfold add_target. destruct (_ || _); [done|]. apply elem_of_app. by left.
Qed.
Lemma add_targets_member ms init t :
  NoDup ms.*1 → t ∈ ms → t.1 ≠ node_id → t.1 ∉ init.*1 → t ∈ foldl (add_target node_id) init ms.
Proof.
  revert init. induction ms as [|m ms IH]; intros init Hnd Hin Hself Hinit; [by apply not_elem_of_nil in Hin|].
  rewrite fmap_cons in Hnd. apply NoDup_cons in Hnd as [Hm Hnd]. cbn [foldl].
  apply elem_of_cons in Hin as [->|Hin].
  - apply add_targets_keep. unfold add_target.
    destruct (Z.eqb_spec m.1 node_id); [done|]. cbn [orb].
    destruct (existsb _ init) eqn:He; [|apply elem_of_app; right; by left].
    apply existsb_exists in He as (x & Hx%list_elem_of_In & Heq%Z.eqb_eq). destruct Hinit.
    apply list_elem_of_fmap. exists x. by rewrite Heq.
  - apply IH; [done|done|done|]. unfold add_target. destruct (_ || _); [done|].
    rewrite fmap_app. intros [?|Heq%list_elem_of_singleton]%elem_of_app; [done|]. apply Hm. rewrite <- Heq.
    apply list_elem_of_fmap. by exists t.
Qed.
Lemma add_targets_first ms t init : ∃ rest, foldl (add_target node_id) (t :: init) ms = t :: rest.
Proof.
  revert init. induction ms as [|m ms IH]; intros init; [by exists init|]. cbn [foldl]. unfold add_target at 2.
  destruct (_ || _); [apply IH|]. apply (IH (init ++ [m])).
Qed.

Lemma targets_lead n :
  leader_of (router n) (world n) g = Some lead → ∃ rest, targets_of node_id (router n) (world n) g = lead :: rest.
Proof.
  intros Hl. unfold targets_of. rewrite Hl. destruct (Z.eqb_spec lead.1 node_id) as [He|He].
  { by destruct (settled_remote _ Hset). }
  destruct (gossip_members (world n)); [apply add_targets_first|by eexists].
Qed.
(** A hop without a usable hint asks a replica. *)
Lemma targets_helpful n :
  Inv (world n) → (∀ h, leader_of (router n) (world n) g = Some h → h.1 = node_id) →
  ∃ t, t ∈ targets_of node_id (router n) (world n) g ∧ helpful Inv t.
Proof.
  intros Hn Hl. destruct (settled_members _ Hset _ Hn) as (ms & t & Hms & Hnd & Hin & Hself & Hh).
  exists t. split; [|done]. unfold targets_of. rewrite Hms.
  apply add_targets_member; [done|done|done|].
  destruct (leader_of _ _ _) as [h|]; [|by apply not_elem_of_nil].
  rewrite (Hl h eq_refl), Z.eqb_refl. by apply not_elem_of_nil.
Qed.
Lemma targets_hint n h :
  leader_of (router n) (world n) g = Some h → h.1 ≠ node_id →
  h ∈ targets_of node_id (router n) (world n) g.
Proof.
  intros Hl Hs. unfold targets_of. rewrite Hl. destruct (Z.eqb_spec h.1 node_id); [done|].
  destruct (gossip_members (world n)); [apply add_targets_keep|]; by left.
Qed.

(** ** One hop *)

Lemma try_targets_run what ts n :
  Inv (world n) → ∃ c n', try_targets what send g ts n = (inr c, n') ∧
    match c with
    | Answered a => a = resp
    | Chased => Inv (world n') ∧ hint n' = Some lead
    | Exhausted => Inv (world n') ∧ (∀ t, t ∈ ts → ¬ helpful Inv t) ∧ (hint n' = hint n ∨ hint n' = None) ∧
        (∀ h, hint n = Some h → h.1 ∈ ts.*1 → hint n' = None)
    end.
Proof.
  revert n. induction ts as [|t ts IH]; intros n Hn; cbn [try_targets].
  { exists Exhausted, n. split_and!; [done|done|by intros t ?%not_elem_of_nil|by left|].
    by intros h _ ?%not_elem_of_nil. }
  destruct (peer_send t n Hn) as (a & w' & Hrun & Ha). unfold mbind at 1, rm_bind at 1. rewrite Hrun.
  set (n1 := {| router := router n; world := w'; events := events n |}) in *.
  destruct Ha as [->|[Hw' [->|Ha]]]; [by exists (Answered resp), n1| |].
  { eexists Chased, _. split; [reflexivity|]. split; [done|]. cbn. by rewrite lookup_insert_eq. }
  assert (¬ helpful Inv t) as Hno.
  { intros Hh. destruct (Hh (router n) (world n) Hn) as (w2 & [H2|[_ H2]]); apply send_answers in H2;
      rewrite Hrun in H2; injection H2 as -> _; destruct Ha as [|[]]; congruence. }
  set (clears := match leader_of (router n1) (world n1) g with Some l => l.1 =? t.1 | None => false end).
  assert (∃ n2, (if clears then note_leader g None else mret tt) n1 = (inr tt, n2) ∧ world n2 = w' ∧
    hint n2 = if clears then None else hint n) as (n2 & Hn2 & Hw2 & Hh2).
  { destruct clears; eexists; (split; [reflexivity|]); split; [done| |done|done]. cbn. by rewrite lookup_delete_eq. }
  destruct (IH n2) as (c & n3 & Hrun3 & Hc); [by rewrite Hw2|].
  exists c, n3. split.
  { destruct Ha as [->|[e ->]]; unfold mbind, rm_bind, get_router, get_world; fold clears; by rewrite Hn2. }
  destruct c as [| |]; [done|done|]. destruct Hc as (Hn3 & Hnone & Hk & Hclear). rewrite Hh2 in Hk, Hclear.
  split_and!; [done|..].
  - intros t' [->|Ht']%elem_of_cons; auto.
  - destruct clears; [destruct Hk; auto|done].
  - intros h Hh [Heq|Hin]%elem_of_cons.
    + assert (clears = true) as Hcl. { unfold clears, leader_of. cbn. rewrite Hh. by apply Z.eqb_eq. }
      rewrite Hcl in Hk. by destruct Hk.
    + destruct clears; [by destruct Hk|]. by apply (Hclear h).
Qed.

(** How many hops a node is away from the leader, at most. *)
Definition rank (n : Node) : nat :=
  if decide (leader_of (router n) (world n) g = Some lead) then 1
  else match hint n with None => 2 | Some _ => 3 end.

Lemma rank_lead n : hint n = Some lead → rank n = 1%nat.
Proof. intros Hh. unfold rank, leader_of. rewrite Hh. by rewrite decide_True. Qed.
Lemma rank_none n : hint n = None → (rank n ≤ 2)%nat.
Proof. intros Hh. unfold rank. rewrite Hh. case_decide; lia. Qed.

Lemma hop_lead what n :
  Inv (world n) → rank n = 1%nat →
  ∃ n', forward_hop node_id what send g n = (inr (Some resp), n').
Proof.
  intros Hn Hr. unfold rank in Hr. case_decide as Hl; [|by destruct (hint n)].
  destruct (targets_lead n Hl) as [rest Ht]. unfold forward_hop, forward_targets, mbind, rm_bind, get_router, get_world.
  cbn. rewrite Ht. rewrite bool_decide_eq_false_2 by done. cbn [try_targets]. unfold mbind, rm_bind.
  destruct (settled_lead _ Hset (router n) (world n) Hn) as (w' & Ha).
  rewrite (send_answers _ _ _ _ Ha). cbn. by eexists.
Qed.

(** Away from the leader, the targets hold a replica or the stale hint. *)
Lemma targets_far n :
  Inv (world n) → rank n ≠ 1%nat →
  let ts := targets_of node_id (router n) (world n) g in
  (∃ t, t ∈ ts ∧ helpful Inv t) ∨ ∃ h, hint n = Some h ∧ h ∈ ts ∧ rank n = 3%nat.
Proof.
  intros Hn. unfold rank. case_decide as Hl; [done|]. intros _.
  destruct (hint n) as [h|] eqn:Hh.
  - assert (leader_of (router n) (world n) g = Some h) as Hlh by by unfold leader_of; rewrite Hh.
    destruct (decide (h.1 = node_id)) as [Hs|Hs].
    + left. apply targets_helpful; [done|]. intros h'. rewrite Hlh. by intros [= <-].
    + right. exists h. split_and!; [done|by apply targets_hint|done].
  - left. apply targets_helpful; [done|]. intros h' Hl'. unfold leader_of in Hl', Hl. rewrite Hh in Hl', Hl.
    destruct (settled_metrics _ Hset _ Hn); congruence.
Qed.

(** A hop from there answers or comes closer. *)
Lemma hop_far what n :
  Inv (world n) → rank n ≠ 1%nat →
  ∃ o n', forward_hop node_id what send g n = (inr o, n') ∧
    match o with Some a => a = resp | None => Inv (world n') ∧ (rank n' < rank n)%nat end.
Proof.
  intros Hn Hr. pose proof (targets_far n Hn Hr) as Hts. cbv zeta in Hts.
  assert (1 < rank n)%nat as Hr1 by (unfold rank in *; case_decide; [done|]; destruct (hint n); lia).
  unfold forward_hop, forward_targets, mbind, rm_bind, get_router, get_world. cbn.
  set (ts := targets_of node_id (router n) (world n) g) in *.
  rewrite bool_decide_eq_false_2 by (intros Hnil; rewrite Hnil in Hts; set_solver).
  destruct (try_targets_run what ts n Hn) as (c & n' & Hrun & Hc). rewrite Hrun.
  destruct c as [a| |].
  - by exists (Some a), n'.
  - destruct Hc. exists None, n'. split_and!; [done|done|]. by rewrite rank_lead.
  - destruct Hc as (Hn' & Hno & _ & Hclear). destruct Hts as [(t & Ht & Hh)|(h & Hh & Ht & Hr3)]; [by destruct (Hno t)|].
    destruct (settled_sleep _ Hset 200 (router n') (world n') Hn') as (w' & Hw' & Hsl).
    unfold pause, await. rewrite Hsl. eexists None, _. split_and!; [reflexivity|done|]. rewrite Hr3.
    apply Nat.lt_succ_r, rank_none. cbn. apply (Hclear h Hh). apply list_elem_of_fmap. by exists h.
Qed.

(** Enough hops reach the leader. *)
Lemma apply_hops_run hops n :
  Inv (world n) → (rank n ≤ hops)%nat → ∃ n', apply_hops node_id hops g cmd n = (inr resp, n').
Proof.
  revert n. induction hops as [|hops IH]; intros n Hn Hr.
  { unfold rank in Hr. case_decide; [lia|]. destruct (hint n); lia. }
  cbn [apply_hops]. cbv zeta.
  set (forward := a ← forward_hop node_id (bs "forward") send g;
                  match a with Some resp => mret resp | None => apply_hops node_id hops g cmd end).
  assert (∀ n, Inv (world n) → (rank n ≤ S hops)%nat → ∃ n', forward n = (inr resp, n')) as Hf.
  { clear n Hn Hr. intros n Hn Hr. unfold forward, mbind, rm_bind. destruct (decide (rank n = 1%nat)) as [H1|H1].
    - destruct (hop_lead (bs "forward") n Hn H1) as [n' ->]. by exists n'.
    - destruct (hop_far (bs "forward") n Hn H1) as (o & n' & -> & Ho).
      destruct o as [a|]; [subst; by exists n'|]. destruct Ho. apply IH; [done|lia]. }
  unfold mbind at 1, rm_bind at 1, get_world. destruct (hosts (world n) g) eqn:Hh; [|by apply Hf].
  destruct (settled_local _ Hset (router n) (world n) Hn Hh) as (w' & Hrun).
  unfold mbind at 1, rm_bind at 1, await. destruct Hrun as [->|[Hw' Hrun]]; [by eexists|]. rewrite Hrun.
  cbn [hint_of]. unfold mbind at 1, rm_bind at 1, note_leader, modify. apply Hf; [done|].
  rewrite rank_lead; [lia|]. cbn. rewrite lookup_insert_eq. by destruct lead.
Qed.

Lemma rank_bound n : (rank n ≤ 3)%nat.
Proof. unfold rank. case_decide; [lia|]. destruct (hint n); lia. Qed.

Lemma apply_inner_run n :
  Inv (world n) → ∃ n', apply_inner node_id g cmd n = (inr resp, n').
Proof.
  intros Hn. apply apply_hops_run; [done|]. pose proof (rank_bound n). unfold MAX_FORWARD_HOPS. lia.
Qed.
End leader.

(** C34: A write reaches the leader.  In a settled cluster, a write to a group is answered with the leader's
    response, within the hops the router allows, from any state of its leader hints: none, one that names a
    dead or wrong node, an outdated address, or the node itself. *)
Theorem leader_is_reached `{!Bincode StoredRecord, !RocksDb, !Cluster}
    `{!Bincode Command, !Bincode (ForwardError + ApplyResponse)}
    routing node_id g cmd lead resp (Inv : World → Prop) n :
  settled node_id g cmd lead resp Inv → Inv (world n) →
  (∃ n', apply_inner node_id g cmd n = (inr resp, n')) ∧
  (fsync_healthy (world n) = true → permit_free (world n) g = true → g ∈ all_groups routing →
   (∀ kind detail, resp ≠ Rejected kind detail) → (apply_to routing node_id g cmd n).1 = inr resp).
Proof.
  intros Hset Hn. split; [by eapply apply_inner_run|]. intros Hf Hp Hg Hresp.
  assert ((apply_admitted routing node_id g cmd n).1 = inr resp) as Ha.
  { unfold apply_admitted, mbind, rm_bind, get_world. rewrite Hf, Hp. cbn [negb]. unfold known_group.
    rewrite bool_decide_eq_true_2 by done. cbn [negb]. unfold gauge, modify, attempt, of_sum.
    destruct (apply_inner_run node_id g cmd lead resp Inv Hset
      (set_router (set_counters (inflight_total (router n) + 1) (seq_counter (router n)) (router n)) n) Hn)
      as [n' ->]. destruct resp; try done. by destruct (Hresp kind detail). }
  unfold apply_to, mbind, rm_bind, attempt, record, of_sum.
  destruct (apply_admitted routing node_id g cmd n) as [r n']. exact Ha.
Qed.

Module LeaderWitness.
Import Mini.
#[local] Existing Instance ref_bincode.
#[local] Existing Instance ref_rocksdb.
#[local] Instance cluster : Cluster := mini false.

Definition w0 : World := {| st_db := (∅ : gmap cf (gmap bytes bytes)); st_now := 1000 |}.
Definition cmd : Command :=
  {| request_id := Some {| client_id := bs "1:7:1000"; ri_seq := 0 |}; cmd_now_ms := 1000;
     cmd_op := AcquireInNamespace (bs "fs:/a") (from_algorithm RecursiveRw)
       {| owner_id := bs "alice"; ttl_ms := 5000; fencing_token := 0; release_requests := [];
          requests := [{| lr_path := bs "fs:/a/x"; lr_mode := Write; lr_state := New; lr_permits := 1 |}];
          queue_ttl_ms := 0 |} |}.
Definition resp : ApplyResponse := RAcquire (AcquireOk 1).
(** The hint names a node that is down. *)
Definition n0 : Node :=
  {| router := set_hints (λ _, {[ 3 := (4, meta "n4") ]}) router_new; world := w0; events := [] |}.

(** Nothing was applied yet; the clock may have moved. *)
Definition fresh (w : World) : Prop := st_db w = (∅ : gmap cf (gmap bytes bytes)).
Lemma leader_proposes w : fresh w → ∃ w1, propose 3 cmd w = (RaftOk resp, w1).
Proof.
  assert ((match (propose 3 cmd w0).1 with RaftOk r => bool_decide (r = resp) | _ => false end) = true) as Hr
    by (vm_compute; reflexivity).
  intros Hw. unfold propose in *. rewrite Hw. cbn [st_db w0] in Hr.
  destruct (apply_with_meta _ _ _ _ _ _) as [[[db' r] ?]|]; [|done]. cbn in Hr.
  apply bool_decide_eq_true_1 in Hr as ->. by eexists.
Qed.
Lemma lead_answers r w t : fresh w → t.1 = 2 → ∃ w', answers 3 cmd r w t (inr resp) w'.
Proof.
  intros Hw Ht. destruct (leader_proposes w Hw) as [w1 Hp]. exists w1. split_and!; [done|done|].
  cbn [forward_rpc cluster mini]. unfold at_world, deliver. cbn [fst snd]. rewrite Ht. cbn [Z.eqb Pos.eqb].
  rewrite bincode_decode_encode, Hp. done.
Qed.
Lemma replica_answers r w t : t.1 = 3 → answers 3 cmd r w t (inl (NotLeader (Some leader_node))) w.
Proof.
  intros Ht. split_and!; [done|done|]. cbn [forward_rpc cluster mini]. unfold at_world, deliver. cbn [fst snd].
  by rewrite Ht.
Qed.
Lemma others_silent r w t : t.1 ≠ 2 → t.1 ≠ 3 → silent_peer 3 cmd r w t w.
Proof.
  intros H2 H3. right. split_and!; [done|done|]. exists (bs "connection refused").
  cbn [forward_rpc cluster mini]. unfold at_world, deliver. cbn [fst snd].
  by destruct (Z.eqb_spec t.1 2), (Z.eqb_spec t.1 3).
Qed.

Lemma mini_settled : settled 1 3 cmd leader_node resp fresh.
Proof.
  split.
  - intros r w Hw. by apply lead_answers.
  - intros t r w Hw. destruct (decide (t.1 = 2)); [destruct (lead_answers r w t) as [w' ?]; eauto|].
    exists w. right. split; [done|]. destruct (decide (t.1 = 3)); [left; by apply replica_answers|].
    right; right. by apply others_silent.
  - done.
  - intros w _. by left.
  - intros w _. eexists _, (3, meta "n3"). split_and!; [reflexivity|by apply (bool_decide_eq_true_1 _)|set_solver|done|].
    intros r w' Hw'. exists w'. right. split; [done|]. by apply replica_answers.
  - intros t r w Hw. by exists (sleep_ms t (r, w)).2.
  - done.
Qed.
Lemma n0_world : fresh (world n0).
Proof. done. Qed.

Lemma leader_is_reached_witness :
  leader_hints (router n0) !! 3 = Some (4, meta "n4") ∧
  (apply_to {| group_count := 4; routing_prefix_segments := 1; max_inflight_per_group := 8 |} 1 3 cmd n0).1 =
    inr resp.
Proof.
  split; [reflexivity|].
  pose proof (leader_is_reached {| group_count := 4; routing_prefix_segments := 1; max_inflight_per_group := 8 |}
    1 3 cmd leader_node resp fresh n0 mini_settled n0_world) as [_ H].
  apply H; [reflexivity|reflexivity|by apply (bool_decide_eq_true_1 (_ ∈ _))|discriminate].
Defined.
End LeaderWitness.
