(* ===== verification/RouterDump.v ===== *)
(** * The lock dump visits every lock once

    A client that follows the cursor of [dump_locks] from the first page until
    there is none gets the live holds of every group, in order, and stops. *)

From Stdlib Require Import ZArith NArith Lia Strings.Byte.
From stdpp Require Import sorting countable base numbers gmap strings list.
From S2P Require Import Prelude RustStd StoreKeys Store StoreScan StoreSim Instances Snapshot.
From S2P Require Import EngineTypes.
From S2P Require Import Engine Placement Queue Command Codecs StateMachine Reads Router.
From S2P Require Import RouterOps RouterApi RouterReads MiniCluster RouterLogic.
Local Open Scope Z_scope.

Local Abbreviation rows_t := (list (bytes * option LockEntry)).

(** ** Pages of one group *)

Lemma page_rows_split page raw (rows : rows_t) es next :
  page_rows page raw rows = (es, next) → 0 ≤ page →
  ∃ rows1 rows2, rows = rows1 ++ rows2 ∧ es = omap snd rows1 ∧ len es ≤ page ∧
    match next with
    | None => rows2 = []
    | Some k => (∃ row rest, rows2 = (k, row) :: rest) ∧ (0 < page → raw < DUMP_RAW_SCAN_CAP → rows1 ≠ [])
    end.
Proof.
  revert page raw es next. induction rows as [|[k row] rows IH]; intros page raw es next; cbn [page_rows].
  { intros [= <- <-] ?. exists [], []. by split_and!. }
  destruct ((page <=? 0) || (DUMP_RAW_SCAN_CAP <=? raw)) eqn:Hstop.
  { intros [= <- <-] ?. exists [], ((k, row) :: rows). split_and!; [done|done|unfold len; simpl; lia|eauto|].
    intros ? ?. apply orb_true_iff in Hstop. lia. }
  apply orb_false_iff in Hstop as [Hp Hr].
  destruct (page_rows _ (raw + 1) rows) as [es' next'] eqn:Hrun. intros [= <- <-] Hpage.
  apply IH in Hrun as (rows1 & rows2 & -> & -> & Hlen & Hnext); [|destruct row; lia].
  exists ((k, row) :: rows1), rows2. split_and!; [done|by destruct row|..].
  - destruct row; [|done]. unfold len in *. simpl. lia.
  - destruct next'; [|done]. destruct Hnext as [? _]. by split.
Qed.

Lemma filter_none {A} (P : A → Prop) `{!∀ x, Decision (P x)} (l : list A) : (∀ x, x ∈ l → ¬ P x) → filter P l = [].
Proof.
  induction l as [|x l IH]; intros Hl; [done|]. rewrite filter_cons_False by (apply Hl; by left).
  apply IH. intros y Hy. apply Hl. by right.
Qed.

(** The cursor of a page is where the rest starts. *)
Lemma from_cursor_none {A} (rows : list (bytes * A)) : from_cursor None rows = rows.
Proof. unfold from_cursor. induction rows as [|x rows IH]; [done|]. rewrite filter_cons_True by done. by f_equal. Qed.
Lemma from_cursor_nil {A} (rows : list (bytes * A)) : from_cursor (Some []) rows = rows.
Proof.
  unfold from_cursor. induction rows as [|x rows IH]; [done|]. rewrite filter_cons_True; [by f_equal|].
  unfold in_range. rewrite andb_true_r. apply (bytes_leb_extend [] x.1).
Qed.
Lemma from_cursor_at {A} (rows1 rest : list (bytes * A)) k (a : A) :
  StronglySorted key_lt (rows1 ++ (k, a) :: rest) →
  from_cursor (Some k) (rows1 ++ (k, a) :: rest) = (k, a) :: rest.
Proof.
  unfold from_cursor. intros Hs. apply StronglySorted_app in Hs as (Hlt & _ & Hs). rewrite filter_app.
  assert (∀ x, x ∈ (k, a) :: rest → in_range (Some k) None x.1 = true) as Hrest.
  { intros x Hx. unfold in_range. rewrite andb_true_r. apply bytes_leb_spec.
    apply elem_of_cons in Hx as [->|Hx]; [by left|right].
    apply StronglySorted_inv in Hs as [_ Hs]. rewrite Forall_forall in Hs. exact (Hs _ Hx). }
  rewrite (filter_all _ ((k, a) :: rest) Hrest).
  rewrite filter_none; [done|].
  intros [k' a'] Hin. cbn. unfold in_range, bytes_leb. rewrite andb_true_r.
  pose proof (Hlt (k', a') (k, a) Hin ltac:(by left)) as Hl. unfold key_lt in Hl. cbn in Hl. by rewrite Hl.
Qed.

(** ** All groups *)
Section dump.
Context `{!Bincode StoredRecord, !RocksDb, !Cluster}.
Context `{!Bincode ReadOp, !Bincode (ForwardError + ReadResult)}.
Context (routing : RoutingOptions) (dflt : LockAlgorithm) (node_id : Z).
Context (rows : GroupId → rows_t) (Inv : Node → Prop).
Local Abbreviation count := (group_count routing).

(** The groups' rows, as the reads show them; they do not change meanwhile. *)
Record steady_rows : Prop := {
  sr_sorted g : 0 ≤ g < count → StronglySorted key_lt (rows g);
  sr_read g cursor page n : Inv n → 0 ≤ g < count →
    ∃ n', read_on dflt node_id g (DumpPage cursor page) n =
            (inr (ReadDumpPage (dump_page (rows g) cursor page)), n') ∧ Inv n'
}.
Context (Hrows : steady_rows) (Hcount : 0 < count ≤ u32_max).

(** A position: a group and a suffix of its rows. *)
Definition at_cursor (g : GroupId) (rel : option bytes) : Prop :=
  0 ≤ g < count ∧ ∃ pre, rows g = pre ++ from_cursor rel (rows g).
Definition later (g : GroupId) : list GroupId := seqZ (g + 1) (count - (g + 1)).
Definition remaining (g : GroupId) (rel : option bytes) : list LockEntry :=
  omap snd (from_cursor rel (rows g)) ++ concat ((λ g, omap snd (rows g)) <$> later g).
Definition left_to_read (g : GroupId) (rel : option bytes) : nat :=
  length (from_cursor rel (rows g)) + length (concat (rows <$> later g)) + Z.to_nat (count - g)%Z.

Lemma later_next g : 0 ≤ g → g + 1 < count → later g = (g + 1) :: later (g + 1).
Proof. intros. unfold later. rewrite seqZ_cons by lia. f_equal. f_equal; lia. Qed.
Lemma later_last g : count ≤ g + 1 → later g = [].
Proof. intros. unfold later. apply seqZ_nil. lia. Qed.

(** The next group. *)
Lemma next_group g rel :
  at_cursor g rel → g + 1 < count →
  at_cursor (g + 1) None ∧
  concat ((λ g, omap snd (rows g)) <$> later g) = remaining (g + 1) None ∧
  (left_to_read (g + 1)%Z None < left_to_read g rel)%nat.
Proof.
  intros [[? ?] _] Hg. split_and!.
  - split; [lia|]. exists []. by rewrite from_cursor_none.
  - unfold remaining. rewrite from_cursor_none, later_next by lia. done.
  - unfold left_to_read. rewrite from_cursor_none, (later_next g) by lia. rewrite fmap_cons. cbn [concat].
    rewrite length_app. lia.
Qed.

(** ** Cursors *)

Lemma cursor_roundtrip g rel :
  0 ≤ g < count →
  ∃ rel', decode_cursor routing (Some (encode_cursor g rel)) = inr (g, rel') ∧
    ∀ l : rows_t, from_cursor rel' l = from_cursor rel l.
Proof.
  intros Hg. unfold decode_cursor, encode_cursor.
  assert (length (be_bytes 4 g) = 4%nat) as Hlen by apply length_be_bytes.
  destruct (Z.ltb_spec (len (be_bytes 4 g ++ default [] rel)) 4) as [Hl|_].
  { unfold len in Hl. rewrite length_app in Hl. lia. }
  rewrite take_app_length', drop_app_length' by done.
  rewrite from_be_be_bytes by (unfold u32_max in *; lia).
  destruct (Z.leb_spec count g); [lia|]. eexists. split; [reflexivity|]. intros l.
  destruct rel as [[|b rel]|]; cbn; [by rewrite from_cursor_none, from_cursor_nil|done|done].
Qed.

(** What a run of the loop adds to the entries it started with. *)
Definition loop_post (g : GroupId) (rel : option bytes) (es : list LockEntry) (page : LockDumpPage) : Prop :=
  ∃ es', entries page = es ++ es' ∧
    match next_cursor page with
    | None => es' = remaining g rel
    | Some c => ∃ g' rel', c = encode_cursor g' rel' ∧ at_cursor g' rel' ∧
        remaining g rel = es' ++ remaining g' rel' ∧ (left_to_read g' rel' ≤ left_to_read g rel)%nat ∧
        (es = [] → (left_to_read g' rel' < left_to_read g rel)%nat)
    end.

(** One read: a page that ends inside the group, or the rest of the group. *)
Lemma page_of_group g rel page :
  at_cursor g rel → 0 < page →
  let p := dump_page (rows g) rel page in
  match next_cursor p with
  | Some k => at_cursor g (Some k) ∧ remaining g rel = entries p ++ remaining g (Some k) ∧
      (left_to_read g (Some k) < left_to_read g rel)%nat
  | None => entries p = omap snd (from_cursor rel (rows g))
  end.
Proof.
  intros [Hg [pre Hpre]] Hpage. unfold dump_page. destruct (page_rows page 0 _) as [es next] eqn:Hrun.
  cbn [next_cursor entries]. apply page_rows_split in Hrun as (rows1 & rows2 & Hsplit & -> & _ & Hnext); [|lia].
  destruct next as [k|]; [|subst rows2; by rewrite app_nil_r in Hsplit; rewrite Hsplit].
  destruct Hnext as [(row & rest & ->) Hne]. specialize (Hne Hpage ltac:(done)).
  rewrite Hsplit, app_assoc in Hpre.
  assert (from_cursor (Some k) (rows g) = (k, row) :: rest) as Hk.
  { rewrite Hpre. apply from_cursor_at. rewrite <- Hpre. by apply (sr_sorted Hrows). }
  split_and!.
  - split; [done|]. exists (pre ++ rows1). by rewrite Hk.
  - unfold remaining. by rewrite Hk, Hsplit, omap_app, app_assoc.
  - unfold left_to_read. rewrite Hk, Hsplit, length_app. destruct rows1; [done|]. simpl. lia.
Qed.

Lemma dump_loop_run fuel owner_page g rel es n :
  Inv n → at_cursor g rel → 0 < owner_page → (Z.to_nat (count - g)%Z < fuel)%nat →
  ∃ p n', dump_loop routing dflt node_id fuel owner_page g rel es n = (inr p, n') ∧ Inv n' ∧
    loop_post g rel es p.
Proof.
  intros Hn Hat Hpage. revert g rel es n Hn Hat. induction fuel as [|fuel IH]; intros g rel es n Hn Hat Hfuel; [lia|].
  cbn [dump_loop]. cbv zeta. destruct (Z.eqb_spec (saturating_sub owner_page (len es)) 0) as [Hz|Hz].
  { eexists _, n. split_and!; [reflexivity|done|]. exists []. split; [by rewrite app_nil_r|]. cbn.
    exists g, rel. split_and!; [done|done|done|done|]. intros ->. unfold saturating_sub, len in Hz. simpl in Hz. lia. }
  assert (0 < saturating_sub owner_page (len es)) as Hrem by (unfold saturating_sub in *; lia).
  destruct (sr_read Hrows g rel (saturating_sub owner_page (len es)) n Hn (proj1 Hat)) as (n1 & Hread & Hn1).
  unfold mbind at 1, rm_bind at 1. rewrite Hread.
  pose proof (page_of_group g rel _ Hat Hrem) as Hp. cbv zeta in Hp.
  set (p := dump_page (rows g) rel _) in *. destruct (next_cursor p) as [k|] eqn:Hk.
  { destruct Hp as (Hat' & Hr & Hl). eexists _, n1. split_and!; [reflexivity|done|]. exists (entries p).
    split; [done|]. cbn. exists g, (Some k). split_and!; [done|done|done|lia|done]. }
  destruct (Z.leb_spec count (g + 1)) as [Hlast|Hnext].
  { eexists _, n1. split_and!; [reflexivity|done|]. exists (entries p). split; [done|]. cbn.
    unfold remaining. rewrite later_last by done. by rewrite app_nil_r. }
  destruct (next_group g rel Hat Hnext) as (Hat' & Hr & Hl).
  destruct (IH (g + 1) None (es ++ entries p) n1 Hn1 Hat') as (p' & n2 & Hrun & Hn2 & es' & He & Hpost); [lia|].
  exists p', n2. split_and!; [done|done|]. exists (entries p ++ es'). split; [by rewrite He, app_assoc|].
  assert (remaining g rel = entries p ++ remaining (g + 1) None) as Hrem'.
  { unfold remaining at 1. by rewrite Hr, Hp. }
  destruct (next_cursor p') as [c|]; [|by rewrite Hrem', Hpost].
  destruct Hpost as (g' & rel' & -> & ? & Hr' & ? & _). exists g', rel'. rewrite Hrem', Hr', app_assoc.
  split_and!; [done|done|done|lia|lia].
Qed.

Lemma dump_locks_run cursor owner_page g rel n :
  Inv n → at_cursor g rel → 0 < owner_page →
  (cursor = None ∧ g = 0 ∧ rel = None ∨ cursor = Some (encode_cursor g rel)) →
  ∃ p n', dump_locks routing dflt node_id cursor owner_page n = (inr p, n') ∧ Inv n' ∧
    loop_post g rel [] p.
Proof.
  intros Hn Hat Hpage Hc. unfold dump_locks.
  assert (∃ rel', decode_cursor routing cursor = inr (g, rel') ∧
    ∀ l : rows_t, from_cursor rel' l = from_cursor rel l) as (rel' & Hd & Heq).
  { destruct Hc as [(-> & -> & ->)| ->]; [by exists None|]. by apply cursor_roundtrip, Hat. }
  rewrite Hd. unfold mbind, rm_bind, of_sum.
  destruct (dump_loop_run (S (Z.to_nat (count - g))) owner_page g rel' [] n) as (p & n' & Hrun & Hn' & Hp);
    [done| |done|lia|].
  { destruct Hat as [? [pre Hpre]]. split; [done|]. exists pre. by rewrite Heq. }
  exists p, n'. split_and!; [done|done|]. unfold loop_post, remaining, left_to_read in *. rewrite Heq in Hp. done.
Qed.
End dump.

(** ** A client that follows the cursor *)
Section all.
Context `{!Bincode StoredRecord, !RocksDb, !Cluster}.
Context `{!Bincode ReadOp, !Bincode (ForwardError + ReadResult)}.
Context (routing : RoutingOptions) (dflt : LockAlgorithm) (node_id : Z).

Fixpoint dump_all (fuel : nat) (cursor : option bytes) (owner_page : Z) : rm (list LockEntry) :=
  match fuel with
  | O => fail (RouterOther (bs "out of fuel"))
  | S fuel =>
      p ← dump_locks routing dflt node_id cursor owner_page;
      match next_cursor p with
      | None => mret (entries p)
      | Some c => rest ← dump_all fuel (Some c) owner_page; mret (entries p ++ rest)
      end
  end.

Lemma dump_all_run rows Inv fuel cursor owner_page g rel n :
  steady_rows routing dflt node_id rows Inv → 0 < group_count routing ≤ u32_max →
  Inv n → at_cursor routing rows g rel → 0 < owner_page → (left_to_read routing rows g rel < fuel)%nat →
  (cursor = None ∧ g = 0 ∧ rel = None ∨ cursor = Some (encode_cursor g rel)) →
  ∃ n', dump_all fuel cursor owner_page n = (inr (remaining routing rows g rel), n') ∧ Inv n'.
Proof.
  intros Hrows Hcount. revert cursor g rel n.
  induction fuel as [|fuel IH]; intros cursor g rel n Hn Hat Hpage Hfuel Hc; [lia|].
  destruct (dump_locks_run _ _ _ _ _ Hrows Hcount cursor owner_page g rel n Hn Hat Hpage Hc)
    as (p & n1 & Hrun & Hn1 & es & He & Hp).
  cbn [dump_all]. unfold mbind at 1, rm_bind at 1. rewrite Hrun. cbn [app] in He. rewrite He.
  destruct (next_cursor p) as [c|]; [|exists n1; by rewrite Hp].
  destruct Hp as (g' & rel' & -> & Hat' & Hr & _ & Hl). specialize (Hl eq_refl).
  destruct (IH (Some (encode_cursor g' rel')) g' rel' n1 Hn1 Hat' Hpage ltac:(lia) ltac:(by right)) as (n2 & Hrec & Hn2).
  exists n2. unfold mbind, rm_bind. by rewrite Hrec, Hr.
Qed.

(** Every read of a lock group is answered from the database [db], at the clock [wall]. *)
Definition serves (db : DB) (wall : Z) (Inv : Node → Prop) : Prop :=
  ∀ g op n, Inv n → g ∈ lock_groups routing →
    ∃ n', read_on dflt node_id g op n =
            (match execute_read_blocking db g op dflt wall with Ok r => inr r | Err e => inl (LocalRead e) end, n')
      ∧ Inv n'.
(** The rows of a group's holds at the instant its reads use. *)
Definition group_rows (db : DB) (wall : Z) (g : GroupId) : rows_t :=
  dump_rows db g (Z.max wall (read_last_now db g)).

Lemma elem_of_lock_groups g : g ∈ lock_groups routing ↔ 0 ≤ g < group_count routing.
Proof. unfold lock_groups. rewrite elem_of_seqZ. lia. Qed.

Lemma dump_rows_sorted db g now : StronglySorted key_lt (dump_rows db g now).
Proof.
  unfold dump_rows. pose proof (btree_range_sorted None None (cf_map (kv_of_db db g now) CF_OWNER_HOLDS)) as Hs.
  induction Hs as [|x l _ IH Hall]; [constructor|]. rewrite fmap_cons. constructor; [done|].
  rewrite Forall_fmap. exact Hall.
Qed.

Lemma serves_steady db wall Inv :
  serves db wall Inv → (∀ g, g ∈ lock_groups routing → alive_decodes db g) →
  steady_rows routing dflt node_id (group_rows db wall) Inv.
Proof.
  intros Hs Hd. split; [intros; apply dump_rows_sorted|]. intros g cursor page n Hn Hg.
  apply elem_of_lock_groups in Hg. destruct (Hs g (DumpPage cursor page) n Hn Hg) as (n' & Hrun & ?).
  exists n'. split; [|done]. rewrite Hrun. unfold execute_read_blocking, run_read.
  by rewrite dump_owner_holds_page by by apply Hd.
Qed.
End all.

(** C36: The lock dump visits every lock exactly once.  When the groups' data do not change meanwhile, a client
    that asks for pages of any size from 1 up and follows the cursor until there is none gets an answer to every
    request, reaches the end after at most [left_to_read] pages, and has then the live holds of every lock
    group, each once, in the order of the groups and of their keys. *)
Theorem dump_is_complete `{!Bincode StoredRecord, !RocksDb, !Cluster}
    `{!Bincode ReadOp, !Bincode (ForwardError + ReadResult)}
    routing dflt node_id db wall (Inv : Node → Prop) owner_page n :
  serves routing dflt node_id db wall Inv → (∀ g, g ∈ lock_groups routing → alive_decodes db g) →
  0 < group_count routing ≤ u32_max → 1 ≤ owner_page → Inv n →
  ∀ fuel, (left_to_read routing (group_rows db wall) 0%Z None < fuel)%nat →
    (dump_all routing dflt node_id fuel None owner_page n).1 =
      inr (concat ((λ g, omap snd (group_rows db wall g)) <$> lock_groups routing)).
Proof.
  intros Hs Hd Hcount Hpage Hn fuel Hfuel.
  destruct (dump_all_run routing dflt node_id (group_rows db wall) Inv fuel None owner_page 0 None n)
    as (n' & -> & _); [by apply serves_steady|done|done| |lia|done|by left|].
  { split; [lia|]. exists []. by rewrite from_cursor_none. }
  unfold remaining, lock_groups, later. rewrite from_cursor_none, (seqZ_cons 0) by lia.
  done.
Qed.

Module DumpWitness.
Import Mini.
#[local] Existing Instance ref_bincode.
#[local] Existing Instance ref_rocksdb.
#[local] Instance cluster : Cluster := mini true.

Definition routing : RoutingOptions :=
  {| group_count := 4; routing_prefix_segments := 1; max_inflight_per_group := 8 |}.
Definition lock (owner path : string) : Command :=
  {| request_id := None; cmd_now_ms := 1000;
     cmd_op := AcquireInNamespace (bs "fs:/a") (from_algorithm RecursiveRw)
       {| owner_id := bs owner; ttl_ms := 5000; fencing_token := 0; release_requests := [];
          requests := [{| lr_path := bs path; lr_mode := Write; lr_state := New; lr_permits := 1 |}];
          queue_ttl_ms := 0 |} |}.
Definition w0 : World := {| st_db := (∅ : gmap cf (gmap bytes bytes)); st_now := 1000 |}.
Definition w1 : World :=
  (propose 3 (lock "bob" "fs:/a/z") (propose 1 (lock "bob" "fs:/a/y") (propose 1 (lock "alice" "fs:/a/x") w0).2).2).2.
Definition n1 : Node := {| router := router_new; world := w1; events := [] |}.

Lemma served_here (w : World) : serves routing dflt 1 (st_db w) (wall_ms w) (λ n, world n = w).
Proof.
  intros g op n Hn _. unfold read_on, asked, mbind, rm_bind, attempt, get_world, record, of_sum, modify.
  cbn [hosts cluster mini]. unfold local_read, mbind, rm_bind, await, get_world. cbn [spawn_blocking cluster mini].
  cbn [world]. rewrite Hn. cbn [db_handle wall_ms cluster mini].
  destruct (execute_read_blocking _ _ _ _ _); eexists; split; [reflexivity|done|reflexivity|done].
Qed.
Lemma all_decode (m : gmap bytes bytes) :
  forallb (λ kv, if decode_record kv.2 is Ok _ then true else false) (map_to_list m) = true →
  ∀ k raw, m !! k = Some raw → ∃ rec, decode_record raw = Ok rec.
Proof.
  intros Hall k raw Hk. rewrite forallb_forall in Hall.
  specialize (Hall (k, raw) ltac:(by apply list_elem_of_In, elem_of_map_to_list)). cbn in Hall.
  destruct (decode_record raw) as [rec|]; [by exists rec|done].
Qed.
Lemma decodes g : alive_decodes (st_db w1) g.
Proof.
  intros owner raw. apply (all_decode (default ∅ ((st_db w1 : gmap cf (gmap bytes bytes)) !! CF_OWNER_ALIVE))).
  vm_compute. reflexivity.
Qed.
Definition entry (owner path : string) (fence : Z) : LockEntry :=
  {| le_owner := bs owner; le_path := bs path; le_mode := Write; le_fence := Some fence |}.
Definition held : list LockEntry :=
  [entry "alice" "fs:/a/x" 1; entry "bob" "fs:/a/y" 2; entry "bob" "fs:/a/z" 1].
Lemma rows_held :
  concat ((λ g, omap snd (group_rows (st_db w1) (wall_ms w1) g)) <$> lock_groups routing) = held.
Proof. vm_compute. reflexivity. Qed.
Lemma few_rows : (left_to_read routing (group_rows (st_db w1) (wall_ms w1)) 0%Z None < 10)%nat.
Proof. apply (bool_decide_eq_true_1 _). vm_compute. reflexivity. Qed.

(** Three locks in two of four groups, dumped one at a time. *)
Lemma dump_is_complete_witness : (dump_all routing dflt 1 10 None 1 n1).1 = inr held.
Proof.
  rewrite <- rows_held.
  apply (dump_is_complete routing dflt 1 (st_db w1) (wall_ms w1) (λ n, world n = w1) 1 n1);
    [apply served_here|intros; apply decodes|split; [reflexivity|discriminate]|lia|reflexivity|exact few_rows].
Defined.
End DumpWitness.
