(* ===== verification/Service.v ===== *)
(** * The gRPC service ([src/service.rs]): the [PathLock] handlers

    A handler validates its request, calls the router, publishes lifecycle events
    and builds the response.  It is a program of [sm]: it reads and changes the
    node as the router does, and returns a response or a status together with the
    events it hands to the broadcaster, in order.  [None] is a panicked task. *)

From Stdlib Require Import ZArith NArith Lia Strings.Byte.
From stdpp Require Import sorting countable base numbers gmap strings list.
From S2P Require Import Prelude RustStd StoreKeys Store Snapshot Grpc Proto EngineTypes.
From S2P Require Import Validate Engine.
From S2P Require Import Placement Queue Command StateMachine Reads Router RouterOps RouterApi.
From S2P Require Import RouterReads.
Local Open Scope Z_scope.

(** ** Errors *)

(** [{failed_groups:?}] *)
Fixpoint comma_separated (l : list str) : str :=
  match l with [] => [] | [x] => x | x :: l => x ++ bs ", " ++ comma_separated l end.
Definition debug_groups (gs : list GroupId) : str := bs "[" ++ comma_separated (to_string <$> gs) ++ bs "]".

(** The status of an error, with the error's display text where it is shown.
    [None]: a panic is not an error value. *)
Definition engine_err (e : RouterError) : option Status :=
  let status code msg := Some {| st_code := code; st_message := msg |} in
  match e with
  | LocalRead (SetScanLimitExceeded _ _) => status ResourceExhausted (bs "lock set too large for one request")
  | CommandRejected ScanLimit detail => status ResourceExhausted detail
  | CommandRejected IdempotencyMismatch detail => status InvalidArgument detail
  | CommandRejected PolicyEpochStale detail | CommandRejected RoutingStale detail => status Aborted detail
  | MultiDomainUnsupported =>
      status InvalidArgument (bs "all paths in one request must share a routing namespace")
  | NamespaceDepthUnsupported path =>
      status InvalidArgument
        (bs "locks above the fallback routing namespace are not supported unless an explicit namespace exists: "
         ++ path)
  | NamespaceResolverUnavailable => status Unavailable (bs "namespace routing table unavailable")
  | NamespaceNotDrained namespace =>
      status FailedPrecondition
        (bs "namespace " ++ namespace ++ bs " has live locks; drain it before changing its routing root")
  | NamespacePolicyPartial _ failed_groups =>
      status Unavailable
        (bs "namespace policy partially applied; retry to converge failed groups " ++ debug_groups failed_groups)
  | WriteQueueFull => status Unavailable (bs "write queue full")
  | WriterUnavailable => status Unavailable (bs "raft group unavailable (no reachable leader)")
  | LocalRead _ | RouterOther _ => status Internal (bs "internal error")
  | Panicked _ => None
  end.

(** ** Events *)

Definition killed (owner : str) : Proto.Event :=
  {| Proto.ev_type := Proto.event_type_i32 Proto.Killed; Proto.ev_owner_id := owner |}.
Definition revoke (owner : str) : Proto.Event :=
  {| Proto.ev_type := Proto.event_type_i32 Proto.Revoke; Proto.ev_owner_id := owner |}.
Definition grant (owner : str) : Proto.Event :=
  {| Proto.ev_type := Proto.event_type_i32 Proto.Grant; Proto.ev_owner_id := owner |}.

(** ** Streamed acquires *)

(** A scalar field of a chunk; [unset] is the proto3 default. *)
Definition merge_field {A} `{EqDecision A} (unset base chunk : A) (msg : str) : served A :=
  if bool_decide (chunk = unset) then Served base
  else if bool_decide (base = unset) then Served chunk
  else if bool_decide (base = chunk) then Served base
  else invalid_argument msg.
Definition merge_acquire_stream_chunk (base chunk : Proto.AcquireRequest) : served Proto.AcquireRequest :=
  owner_id ← merge_field [] (Proto.aq_owner_id base) (Proto.aq_owner_id chunk)
               (bs "acquire stream owner_id changed between chunks");
  ttl_ms ← merge_field 0 (Proto.aq_ttl_ms base) (Proto.aq_ttl_ms chunk)
               (bs "acquire stream ttl_ms changed between chunks");
  fencing_token ← merge_field 0 (Proto.aq_fencing_token base) (Proto.aq_fencing_token chunk)
               (bs "acquire stream fencing_token changed between chunks");
  queue_ttl_ms ← merge_field 0 (Proto.aq_queue_ttl_ms base) (Proto.aq_queue_ttl_ms chunk)
               (bs "acquire stream queue_ttl_ms changed between chunks");
  key ← merge_field [] (Proto.aq_idempotency_key base) (Proto.aq_idempotency_key chunk)
               (bs "acquire stream idempotency_key changed between chunks");
  Served {| Proto.aq_owner_id := owner_id; Proto.aq_ttl_ms := ttl_ms;
            Proto.aq_requests := Proto.aq_requests base ++ Proto.aq_requests chunk;
            Proto.aq_fencing_token := fencing_token;
            Proto.aq_release_requests := Proto.aq_release_requests base ++ Proto.aq_release_requests chunk;
            Proto.aq_idempotency_key := key; Proto.aq_queue_ttl_ms := queue_ttl_ms |}.

Definition checked_add (a b : Z) : option Z := if a + b <=? u64_max then Some (a + b) else None.

(** What the [while] loop carries.  [encoded_len] is prost's size of a message. *)
Record stream_state := { ss_merged : option Proto.AcquireRequest; ss_paths : Z; ss_bytes : Z }.
Definition stream_start : stream_state := {| ss_merged := None; ss_paths := 0; ss_bytes := 0 |}.

Section stream.
Context (encoded_len : Proto.AcquireRequest → Z).

(** One chunk, or the error the stream yields in its place. *)
Definition stream_chunk (st : stream_state) (chunk : served Proto.AcquireRequest) : served stream_state :=
  chunk ← chunk;
  total_bytes ← match checked_add (ss_bytes st) (encoded_len chunk) with
                | Some n => Served n
                | None => resource_exhausted (bs "acquire stream too large")
                end;
  if MAX_STREAMED_ACQUIRE_BYTES <? total_bytes
  then resource_exhausted (bs "acquire stream too large (max " ++ to_string MAX_STREAMED_ACQUIRE_BYTES
         ++ bs " encoded bytes)")
  else
    let chunk_paths := len (Proto.aq_requests chunk) + len (Proto.aq_release_requests chunk) in
    if MAX_PATHS_PER_REQUEST <? chunk_paths
    then invalid_argument (bs "too many paths in one streamed chunk (max " ++ to_string MAX_PATHS_PER_REQUEST
           ++ bs ")")
    else
      total_paths ← match checked_add (ss_paths st) chunk_paths with
                    | Some n => Served n
                    | None => invalid_argument (bs "too many paths in acquire stream")
                    end;
      if MAX_PATHS_PER_STREAMED_ACQUIRE <? total_paths
      then invalid_argument (bs "too many paths in acquire stream (max "
             ++ to_string MAX_PATHS_PER_STREAMED_ACQUIRE ++ bs ")")
      else
        merged ← match ss_merged st with
                 | Some base => merge_acquire_stream_chunk base chunk
                 | None => Served chunk
                 end;
        Served {| ss_merged := Some merged; ss_paths := total_paths; ss_bytes := total_bytes |}.
Fixpoint stream_chunks (st : stream_state) (chunks : list (served Proto.AcquireRequest)) : served stream_state :=
  match chunks with [] => Served st | chunk :: chunks => st ← stream_chunk st chunk; stream_chunks st chunks end.
Definition merge_stream (chunks : list (served Proto.AcquireRequest)) : served Proto.AcquireRequest :=
  st ← stream_chunks stream_start chunks;
  match ss_merged st with
  | Some req => Served req
  | None => invalid_argument (bs "empty acquire stream")
  end.
End stream.

(** ** Handlers *)
Section service.
Context `{!Bincode StoredRecord, !RocksDb, !Cluster}.
Context `{!Bincode Command, !Bincode ReadOp}.
Context `{!Bincode (ForwardError + ApplyResponse), !Bincode (ForwardError + ReadResult)}.
Context (xxh3_64 : bytes → Z) (routing : RoutingOptions) (dflt : LockAlgorithm).
Context (node_id : Z) (own_client_id : str).

Definition sm (A : Type) : Type := Node → option (served A) * list Proto.Event * Node.
#[global] Instance sm_ret : MRet sm := λ A a n, (Some (Served a), [], n).
#[global] Instance sm_bind : MBind sm := λ A B f m n,
  match m n with
  | (Some (Served a), evs, n) => let '(r, evs', n) := f a n in (r, evs ++ evs', n)
  | (Some (Refused s), evs, n) => (Some (Refused s), evs, n)
  | (None, evs, n) => (None, evs, n)
  end.
(** [check(..)?] *)
Definition check {A} (r : served A) : sm A := λ n, (Some r, [], n).
(** [router.op(..).await], as a value *)
Definition run {A} (m : rm A) : sm (RouterError + A) := λ n, let '(r, n) := m n in (Some (Served r), [], n).
(** [.map_err(engine_err)?] *)
Definition served_by {A} (r : RouterError + A) : sm A := λ n,
  (match r with
   | inr a => Some (Served a)
   | inl e => match engine_err e with Some s => Some (Refused s) | None => None end
   end, [], n).
Definition call {A} (m : rm A) : sm A := r ← run m; served_by r.
(** [for owner in owners { self.broadcaster.f(owner); }] *)
Definition publish (evs : list Proto.Event) : sm unit := λ n, (Some (Served tt), evs, n).

Definition too_many_paths {A} (max_paths : Z) : sm A :=
  check (invalid_argument (bs "too many paths in one request (max " ++ to_string max_paths ++ bs ")")).

Definition acquire_outcome (outcome : AcquireOutcome) (namespace : option str) : Proto.AcquireResponse :=
  match outcome with
  | AcquireOk fencing_token =>
      {| Proto.ap_status := Proto.acquire_status_i32 Proto.AcquireOk; Proto.ap_path := []; Proto.ap_owner := [];
         Proto.ap_reason := 0; Proto.ap_fencing_token := fencing_token; Proto.ap_current_fencing_token := 0;
         Proto.ap_namespace := default [] namespace |}
  | Conflict path owner reason =>
      let stale := bool_decide (reason = StaleFencingToken) in
      {| Proto.ap_status := Proto.acquire_status_i32 Proto.AcquireConflict; Proto.ap_path := path;
         Proto.ap_owner := if stale then [] else owner; Proto.ap_reason := reason_to_proto reason;
         Proto.ap_fencing_token := 0;
         Proto.ap_current_fencing_token := if stale then default 0 (parse_i64 owner) else 0;
         Proto.ap_namespace := [] |}
  | AcquireQueued path owner reason fencing_token =>
      {| Proto.ap_status := Proto.acquire_status_i32 Proto.AcquireQueued; Proto.ap_path := path;
         Proto.ap_owner := owner; Proto.ap_reason := reason_to_proto reason;
         Proto.ap_fencing_token := fencing_token; Proto.ap_current_fencing_token := 0; Proto.ap_namespace := [] |}
  | Lost path reason =>
      {| Proto.ap_status := Proto.acquire_status_i32 Proto.AcquireLost; Proto.ap_path := path;
         Proto.ap_owner := []; Proto.ap_reason := reason_to_proto reason; Proto.ap_fencing_token := 0;
         Proto.ap_current_fencing_token := 0; Proto.ap_namespace := [] |}
  end.

Definition handle_acquire_request (req : Proto.AcquireRequest) (max_paths : Z) : sm Proto.AcquireResponse :=
  check (check_id (bs "owner_id") (Proto.aq_owner_id req));;
  check (check_ttl (Proto.aq_ttl_ms req));;
  check (check_queue_ttl (Proto.aq_queue_ttl_ms req));;
  key ← check (idempotency_key (Proto.aq_idempotency_key req));
  if max_paths <? len (Proto.aq_requests req) + len (Proto.aq_release_requests req)
  then too_many_paths max_paths
  else
    check (check_each (λ r, check_path (Proto.lq_path r)) (Proto.aq_requests req));;
    check (check_each (λ r, check_path (Proto.rq_path r)) (Proto.aq_release_requests req));;
    reqs ← check (collect to_lock_req (Proto.aq_requests req));
    release_reqs ← check (collect to_rel_req (Proto.aq_release_requests req));
    '(outcome, granted, namespace) ←
      call (acquire_with_idempotency xxh3_64 routing dflt node_id own_client_id
              {| owner_id := Proto.aq_owner_id req; ttl_ms := Proto.aq_ttl_ms req; requests := reqs;
                 fencing_token := Proto.aq_fencing_token req; release_requests := release_reqs;
                 queue_ttl_ms := Proto.aq_queue_ttl_ms req |} key);
    publish (grant <$> granted);;
    mret (acquire_outcome outcome namespace).

(** The clearing of a policy change; the owners it cleared are told even when
    only some of the groups changed. *)
Definition policy_change {A} (m : rm (list str)) (response : A) : sm A :=
  killed_owners ← run m;
  (match killed_owners with
   | inl (NamespacePolicyPartial cleared _) => publish (killed <$> cleared)
   | _ => mret tt
   end);;
  owners ← served_by killed_owners;
  publish (killed <$> owners);;
  mret response.

End service.

(** [impl PathLock for PathLockService] *)
Module PathLock.
Section handlers.
Context `{!Bincode StoredRecord, !RocksDb, !Cluster}.
Context `{!Bincode Command, !Bincode ReadOp}.
Context `{!Bincode (ForwardError + ApplyResponse), !Bincode (ForwardError + ReadResult)}.
Context (encoded_len : Proto.AcquireRequest → Z).
Context (xxh3_64 : bytes → Z) (routing : RoutingOptions) (dflt : LockAlgorithm).
Context (node_id : Z) (own_client_id : str).

Local Abbreviation handle_acquire_request :=
  (handle_acquire_request xxh3_64 routing dflt node_id own_client_id).

Definition acquire (req : Proto.AcquireRequest) : sm Proto.AcquireResponse :=
  handle_acquire_request req MAX_PATHS_PER_REQUEST.

Definition acquire_stream (chunks : list (served Proto.AcquireRequest)) : sm Proto.AcquireResponse :=
  req ← check (merge_stream encoded_len chunks);
  handle_acquire_request req MAX_PATHS_PER_STREAMED_ACQUIRE.

Definition set_namespace_policy (req : Proto.SetNamespacePolicyRequest) : sm unit :=
  check (check_namespace (Proto.sq_namespace req));;
  algorithm ← check (to_algorithm (Proto.sq_algorithm req));
  key ← check (idempotency_key (Proto.sq_idempotency_key req));
  policy_change (RouterApi.set_namespace_policy routing dflt node_id own_client_id
                   (Proto.sq_namespace req) algorithm key) tt.

Definition get_namespace_policy (namespace : str) : sm Proto.GetNamespacePolicyResponse :=
  check (check_namespace namespace);;
  '(policy, explicit) ← call (namespace_policy_record dflt node_id namespace);
  mret {| Proto.gp_algorithm := algorithm_to_proto (algorithm policy); Proto.gp_explicit := explicit |}.

Definition delete_namespace_policy (req : Proto.DeleteNamespacePolicyRequest) : sm unit :=
  check (check_namespace (Proto.dq_namespace req));;
  key ← check (idempotency_key (Proto.dq_idempotency_key req));
  policy_change (RouterApi.delete_namespace_policy routing dflt node_id own_client_id
                   (Proto.dq_namespace req) key) tt.

Definition release (req : Proto.ReleaseLocksRequest) : sm unit :=
  check (check_id (bs "owner_id") (Proto.lk_owner_id req));;
  key ← check (idempotency_key (Proto.lk_idempotency_key req));
  if MAX_PATHS_PER_REQUEST <? len (Proto.lk_requests req) then too_many_paths MAX_PATHS_PER_REQUEST
  else
    check (check_each (λ r, check_path (Proto.rq_path r)) (Proto.lk_requests req));;
    reqs ← check (collect to_rel_req (Proto.lk_requests req));
    granted ← call (release_with_idempotency xxh3_64 routing dflt node_id own_client_id
                      (Proto.lk_owner_id req) reqs (Proto.lk_del_wait_key req) key);
    publish (grant <$> granted).

Definition release_all (req : Proto.ReleaseAllRequest) : sm unit :=
  check (check_id (bs "owner_id") (Proto.ra_owner_id req));;
  check (check_domains (Proto.ra_domains req));;
  key ← check (idempotency_key (Proto.ra_idempotency_key req));
  granted ← call (release_all_with_idempotency xxh3_64 routing dflt node_id own_client_id
                    (Proto.ra_owner_id req) (Proto.ra_del_wait_key req) (Proto.ra_domains req) key);
  publish (grant <$> granted).

Definition renew (req : Proto.RenewRequest) : sm Proto.RenewResponse :=
  check (check_id (bs "owner_id") (Proto.nq_owner_id req));;
  check (check_ttl (Proto.nq_ttl_ms req));;
  if MAX_RENEW_DOMAINS <? len (Proto.nq_domains req)
  then check (invalid_argument (bs "too many renew domains (max " ++ to_string MAX_RENEW_DOMAINS ++ bs ")"))
  else
    check (check_each check_namespace (Proto.nq_domains req));;
    key ← check (idempotency_key (Proto.nq_idempotency_key req));
    outcome ← call (renew_with_idempotency xxh3_64 routing dflt node_id own_client_id
                      (Proto.nq_owner_id req) (Proto.nq_ttl_ms req) (Proto.nq_domains req) key);
    mret match outcome with
         | RenewOk revoke_requested =>
             {| Proto.np_status := Proto.renew_status_i32 Proto.RenewOk; Proto.np_path := []; Proto.np_reason := 0;
                Proto.np_revoke_requested := revoke_requested |}
         | RenewLost path reason =>
             {| Proto.np_status := Proto.renew_status_i32 Proto.RenewLost; Proto.np_path := path;
                Proto.np_reason := reason_to_proto reason; Proto.np_revoke_requested := false |}
         end.

Definition force_release (req : Proto.ForceReleaseRequest) : sm unit :=
  check (check_id (bs "victim_id") (Proto.fq_victim_id req));;
  key ← check (idempotency_key (Proto.fq_idempotency_key req));
  granted ← call (force_release_with_idempotency routing node_id own_client_id (Proto.fq_victim_id req) key);
  publish [killed (Proto.fq_victim_id req)];;
  publish (grant <$> granted).

Definition assert_fencing (req : Proto.AssertFencingRequest) : sm Proto.AssertFencingResponse :=
  check (check_id (bs "owner_id") (Proto.tq_owner_id req));;
  if MAX_PATHS_PER_REQUEST <? len (Proto.tq_paths req)
  then check (invalid_argument (bs "too many paths (max " ++ to_string MAX_PATHS_PER_REQUEST ++ bs ")"))
  else
    check (check_each check_path (Proto.tq_paths req));;
    (if bool_decide (Proto.tq_paths req = []) then mret tt
     else check (check_write_fencing_token (Proto.tq_fencing_token req)));;
    outcome ← call (RouterReads.assert_fencing xxh3_64 routing dflt node_id
                      (Proto.tq_owner_id req) (Proto.tq_fencing_token req) (Proto.tq_paths req));
    mret match outcome with
         | AssertOk => {| Proto.tp_status := Proto.assert_status_i32 Proto.AssertOk; Proto.tp_path := [];
                          Proto.tp_reason := 0 |}
         | AssertFail path reason =>
             {| Proto.tp_status := Proto.assert_status_i32 Proto.AssertFail; Proto.tp_path := path;
                Proto.tp_reason := reason_to_proto reason |}
         end.

Definition detect_cycle (req : Proto.DetectCycleRequest) : sm Proto.DetectCycleResponse :=
  check (check_id (bs "start_owner_id") (Proto.cq_start_owner_id req));;
  outcome ← call (RouterReads.detect_cycle xxh3_64 routing dflt node_id own_client_id
                    (Proto.cq_start_owner_id req) (Z.min (Proto.cq_max_depth req) MAX_CYCLE_DEPTH));
  mret match outcome with
       | NoCycle => {| Proto.cp_kind := Proto.cycle_kind_i32 Proto.NoCycle; Proto.cp_chain := [] |}
       | Cycle chain => {| Proto.cp_kind := Proto.cycle_kind_i32 Proto.Found; Proto.cp_chain := chain |}
       | Truncated chain => {| Proto.cp_kind := Proto.cycle_kind_i32 Proto.Truncated; Proto.cp_chain := chain |}
       end.

Definition is_blocking (req : Proto.IsBlockingRequest) : sm bool :=
  check (check_path (Proto.bq_conflict_path req));;
  check (check_id (bs "conflict_owner") (Proto.bq_conflict_owner req));;
  reason ← check (to_reason (Proto.bq_reason req));
  check (check_blocking_reason reason);;
  call (RouterReads.is_blocking xxh3_64 routing dflt node_id
          (Proto.bq_conflict_path req) (Proto.bq_conflict_owner req) reason).

Definition incr_fencing_token (key : str) : sm Z :=
  key ← check (idempotency_key key);
  call (incr_fencing_token_with_idempotency routing node_id own_client_id key).

(** The metadata of a wait edge: both fields or none. *)
Definition edge_metadata (req : Proto.SetWaitEdgeRequest) : served (option WaitEdgeMetadata) :=
  let no_path := bool_decide (Proto.wq_conflict_path req = []) in
  let no_reason := Proto.wq_reason req =? Proto.reason_i32 Proto.Unspecified in
  if no_path && no_reason then Served None
  else if no_path || no_reason
  then invalid_argument (bs "conflict_path and reason must be provided together")
  else
    check_path (Proto.wq_conflict_path req);;
    reason ← to_reason (Proto.wq_reason req);
    check_blocking_reason reason;;
    Served (Some {| conflict_path := Proto.wq_conflict_path req; reason := reason |}).
Definition set_wait_edge (req : Proto.SetWaitEdgeRequest) : sm unit :=
  check (check_id (bs "owner_id") (Proto.wq_owner_id req));;
  check (check_id (bs "conflict_owner") (Proto.wq_conflict_owner req));;
  check (check_ttl (Proto.wq_ttl_ms req));;
  key ← check (idempotency_key (Proto.wq_idempotency_key req));
  metadata ← check (edge_metadata req);
  call (set_wait_edge_with_idempotency routing node_id own_client_id (Proto.wq_owner_id req)
          (Proto.wq_conflict_owner req) (Proto.wq_ttl_ms req) metadata key).

Definition clear_wait_edge (req : Proto.ClearWaitEdgeRequest) : sm unit :=
  check (check_id (bs "owner_id") (Proto.xq_owner_id req));;
  key ← check (idempotency_key (Proto.xq_idempotency_key req));
  call (clear_wait_edge_with_idempotency routing node_id own_client_id (Proto.xq_owner_id req) key).

Definition is_owner_alive (req : Proto.IsOwnerAliveRequest) : sm bool :=
  check (check_id (bs "owner_id") (Proto.vq_owner_id req));;
  check (check_domains (Proto.vq_domains req));;
  call (RouterReads.is_owner_alive xxh3_64 routing dflt node_id (Proto.vq_owner_id req) (Proto.vq_domains req)).

Definition request_revoke (owner : str) : sm unit :=
  check (check_id (bs "owner_id") owner);;
  call (RouterApi.request_revoke routing node_id own_client_id owner);;
  publish [revoke owner].

Definition inspect_path (path : str) : sm Proto.InspectPathResponse :=
  check (check_path path);;
  info ← call (RouterReads.inspect_path xxh3_64 routing dflt node_id path);
  mret {| Proto.ip_write_owner := default [] (pi_write_owner info); Proto.ip_read_owners := pi_read_owners info;
          Proto.ip_has_fence := is_some (pi_fence info); Proto.ip_fence := default 0 (pi_fence info);
          Proto.ip_claim_owner := []; Proto.ip_semaphore_owners := pi_semaphore_owners info |}.

Definition list_owner_locks (req : Proto.ListOwnerLocksRequest) : sm Proto.ListOwnerLocksResponse :=
  check (check_id (bs "owner_id") (Proto.oq_owner_id req));;
  check (check_domains (Proto.oq_domains req));;
  '(alive, locks) ← call (RouterReads.list_owner_locks xxh3_64 routing dflt node_id
                            (Proto.oq_owner_id req) (Proto.oq_domains req));
  mret {| Proto.op_alive := alive;
          Proto.op_locks := (λ l, {| Proto.op_path := ol_path l; Proto.op_mode := mode_to_proto (ol_mode l) |})
                              <$> locks |}.

Definition dump_locks (req : Proto.DumpLocksRequest) : sm Proto.DumpLocksResponse :=
  let owner_page := if Proto.uq_owner_page req =? 0 then DEFAULT_DUMP_OWNER_PAGE
                    else Z.min (Proto.uq_owner_page req) MAX_DUMP_OWNER_PAGE in
  let cursor := if bool_decide (Proto.uq_cursor req = []) then None else Some (Proto.uq_cursor req) in
  page ← call (RouterReads.dump_locks routing dflt node_id cursor owner_page);
  mret {| Proto.up_entries := (λ e, {| Proto.ue_owner := le_owner e; Proto.ue_path := le_path e;
                                       Proto.ue_mode := mode_to_proto (le_mode e);
                                       Proto.ue_has_fence := is_some (le_fence e);
                                       Proto.ue_fence := default 0 (le_fence e) |}) <$> entries page;
          Proto.up_next_cursor := default [] (next_cursor page);
          Proto.up_done := negb (is_some (next_cursor page)) |}.
End handlers.
End PathLock.

(** ** The methods of the service ([service PathLock])

    [Subscribe] and [Health] apart, which read no lock state. *)

Inductive Request :=
| Acquire (req : Proto.AcquireRequest)
| AcquireStream (chunks : list (served Proto.AcquireRequest))
| SetNamespacePolicyRpc (req : Proto.SetNamespacePolicyRequest)
| GetNamespacePolicyRpc (namespace : str)
| DeleteNamespacePolicyRpc (req : Proto.DeleteNamespacePolicyRequest)
| ReleaseRpc (req : Proto.ReleaseLocksRequest)
| ReleaseAllRpc (req : Proto.ReleaseAllRequest)
| RenewRpc (req : Proto.RenewRequest)
| ForceReleaseRpc (req : Proto.ForceReleaseRequest)
| AssertFencingRpc (req : Proto.AssertFencingRequest)
| DetectCycleRpc (req : Proto.DetectCycleRequest)
| IsBlockingRpc (req : Proto.IsBlockingRequest)
| IncrFencingTokenRpc (key : str)
| SetWaitEdgeRpc (req : Proto.SetWaitEdgeRequest)
| ClearWaitEdgeRpc (req : Proto.ClearWaitEdgeRequest)
| IsOwnerAliveRpc (req : Proto.IsOwnerAliveRequest)
| RequestRevokeRpc (owner : str)
| InspectPathRpc (path : str)
| ListOwnerLocksRpc (req : Proto.ListOwnerLocksRequest)
| DumpLocksRpc (req : Proto.DumpLocksRequest).

Inductive Reply :=
| AcquireReply (resp : Proto.AcquireResponse)
| PolicyReply (resp : Proto.GetNamespacePolicyResponse)
| RenewReply (resp : Proto.RenewResponse)
| AssertReply (resp : Proto.AssertFencingResponse)
| CycleReply (resp : Proto.DetectCycleResponse)
| BoolReply (b : bool)
| TokenReply (token : Z)
| PathReply (resp : Proto.InspectPathResponse)
| LocksReply (resp : Proto.ListOwnerLocksResponse)
| DumpReply (resp : Proto.DumpLocksResponse)
| EmptyReply.

Section methods.
Context `{!Bincode StoredRecord, !RocksDb, !Cluster}.
Context `{!Bincode Command, !Bincode ReadOp}.
Context `{!Bincode (ForwardError + ApplyResponse), !Bincode (ForwardError + ReadResult)}.
Context (encoded_len : Proto.AcquireRequest → Z).
Context (xxh3_64 : bytes → Z) (routing : RoutingOptions) (dflt : LockAlgorithm).
Context (node_id : Z) (own_client_id : str).

Definition replied {A} (f : A → Reply) (m : sm A) : sm Reply := a ← m; mret (f a).
Definition handle (req : Request) : sm Reply :=
  match req with
  | Acquire req => replied AcquireReply (PathLock.acquire xxh3_64 routing dflt node_id own_client_id req)
  | AcquireStream chunks =>
      replied AcquireReply (PathLock.acquire_stream encoded_len xxh3_64 routing dflt node_id own_client_id chunks)
  | SetNamespacePolicyRpc req =>
      replied (λ _, EmptyReply) (PathLock.set_namespace_policy routing dflt node_id own_client_id req)
  | GetNamespacePolicyRpc namespace => replied PolicyReply (PathLock.get_namespace_policy dflt node_id namespace)
  | DeleteNamespacePolicyRpc req =>
      replied (λ _, EmptyReply) (PathLock.delete_namespace_policy routing dflt node_id own_client_id req)
  | ReleaseRpc req =>
      replied (λ _, EmptyReply) (PathLock.release xxh3_64 routing dflt node_id own_client_id req)
  | ReleaseAllRpc req =>
      replied (λ _, EmptyReply) (PathLock.release_all xxh3_64 routing dflt node_id own_client_id req)
  | RenewRpc req => replied RenewReply (PathLock.renew xxh3_64 routing dflt node_id own_client_id req)
  | ForceReleaseRpc req =>
      replied (λ _, EmptyReply) (PathLock.force_release routing node_id own_client_id req)
  | AssertFencingRpc req => replied AssertReply (PathLock.assert_fencing xxh3_64 routing dflt node_id req)
  | DetectCycleRpc req =>
      replied CycleReply (PathLock.detect_cycle xxh3_64 routing dflt node_id own_client_id req)
  | IsBlockingRpc req => replied BoolReply (PathLock.is_blocking xxh3_64 routing dflt node_id req)
  | IncrFencingTokenRpc key => replied TokenReply (PathLock.incr_fencing_token routing node_id own_client_id key)
  | SetWaitEdgeRpc req => replied (λ _, EmptyReply) (PathLock.set_wait_edge routing node_id own_client_id req)
  | ClearWaitEdgeRpc req => replied (λ _, EmptyReply) (PathLock.clear_wait_edge routing node_id own_client_id req)
  | IsOwnerAliveRpc req => replied BoolReply (PathLock.is_owner_alive xxh3_64 routing dflt node_id req)
  | RequestRevokeRpc owner =>
      replied (λ _, EmptyReply) (PathLock.request_revoke routing node_id own_client_id owner)
  | InspectPathRpc path => replied PathReply (PathLock.inspect_path xxh3_64 routing dflt node_id path)
  | ListOwnerLocksRpc req => replied LocksReply (PathLock.list_owner_locks xxh3_64 routing dflt node_id req)
  | DumpLocksRpc req => replied DumpReply (PathLock.dump_locks routing dflt node_id req)
  end.
End methods.
