(* ===== verification/Health.v ===== *)
(** * Readiness and discovery probes ([src/cluster/health.rs], the probes of
    [src/cluster/router.rs], [Health] of [src/service.rs])

    Both probes retry until a deadline.  The class [Timers] is the clock of the
    runtime: no await turns it back, and a sleep lasts at least as long as asked.
    That bounds the number of rounds, and the budgets below are shown to be more
    than the loops ever use. *)

From Stdlib Require Import ZArith NArith Lia Strings.Byte.
From stdpp Require Import sorting countable base numbers gmap strings list.
From S2P Require Import Prelude RustStd StoreKeys Store Instances Snapshot Grpc Proto.
From S2P Require Import EngineTypes.
From S2P Require Import Engine Placement Queue Command Codecs StateMachine Reads Router.
From S2P Require Import RouterOps.
From S2P Require Import RouterApi RouterReads MiniCluster RouterLogic RouterClaims Service.
Local Open Scope Z_scope.

Class Timers `{!RocksDb, !Cluster} := {
  instant_ms : World → Z;
  (** whether the deadline passes before a read completes, and what the dropped
      read leaves behind *)
  read_times_out : Z → World → bool;
  abandon_read : Z → Router * World → Router * World;
  instant_linearizable g r w : instant_ms w ≤ instant_ms (ensure_linearizable g (r, w)).2.2;
  instant_spawn r w : instant_ms w ≤ instant_ms (spawn_blocking (r, w)).2.2;
  instant_forward i m g b r w : instant_ms w ≤ instant_ms (forward_rpc i m g b (r, w)).2.2;
  instant_forward_read i m g b r w : instant_ms w ≤ instant_ms (forward_read_rpc i m g b (r, w)).2.2;
  instant_sleep t r w : instant_ms w + t ≤ instant_ms (sleep_ms t (r, w)).2
}.

(** The display text of an error. *)
Definition display_error (e : RouterError) : str :=
  match e with
  | LocalRead (SetScanLimitExceeded operation limit) => scan_limit_message operation limit
  | LocalRead (Anyhow msg) => bs msg
  | LocalRead OutOfFuel => []
  | RouterOther msg | CommandRejected _ msg | Panicked msg => msg
  | e => match engine_err e with Some s => st_message s | None => [] end
  end.
(** [{:?}] of a [Duration] of whole milliseconds *)
Definition debug_millis (ms : Z) : str :=
  if ms =? 0 then bs "0ns"
  else if ms <? 1000 then to_string ms ++ bs "ms"
  else
    let frac := ms mod 1000 in
    let digits := drop 1 (to_string (1000 + frac)) in
    let digits := if frac mod 100 =? 0 then take 1 digits else if frac mod 10 =? 0 then take 2 digits else digits in
    to_string (ms / 1000) ++ (if frac =? 0 then [] else bs "." ++ digits) ++ bs "s".

Record HealthStatus := { ready : bool; detail : str }.
Definition CONSENSUS_PROBE_TIMEOUT : Z := 2000.

Section probes.
Context `{!Bincode StoredRecord, !RocksDb, !Cluster, !Timers}.
Context `{!Bincode Command, !Bincode ReadOp}.
Context `{!Bincode (ForwardError + ApplyResponse), !Bincode (ForwardError + ReadResult)}.
Context (dflt : LockAlgorithm) (node_id : Z).

(** [tokio::time::timeout_at]; [None]: the deadline passed first *)
Definition timeout_at (deadline : Z) (m : rm ReadResult) : rm (option (RouterError + ReadResult)) :=
  w ← get_world;
  if read_times_out deadline w then pause (abandon_read deadline);; mret None
  else r ← attempt m; mret (Some r).

Fixpoint probe_loop (fuel : nat) (timeout deadline : Z) : rm unit :=
  match fuel with
  | O => fail (RouterOther (bs "out of fuel"))
  | S fuel =>
      r ← timeout_at deadline (read_linearizable dflt node_id SYS_GROUP ListNamespaces);
      match r with
      | Some (inr _) => mret tt
      | Some (inl e) =>
          w ← get_world;
          if instant_ms w <? deadline then pause (sleep_ms 100);; probe_loop fuel timeout deadline
          else fail e
      | None =>
          fail (RouterOther (bs "consensus probe did not complete within " ++ debug_millis timeout))
      end
  end.
Definition probe_writer (timeout : Z) : rm unit :=
  w ← get_world; probe_loop (2 + Z.to_nat (timeout / 100)) timeout (instant_ms w + timeout).

Definition writer_healthy (w : World) : bool := fsync_healthy w.
Definition check_ready : rm HealthStatus :=
  w ← get_world;
  if negb (writer_healthy w)
  then mret {| ready := false; detail := bs "WAL fsync failure poisoned this node" |}
  else
    r ← attempt (probe_writer CONSENSUS_PROBE_TIMEOUT);
    mret match r with
         | inr _ => {| ready := true; detail := bs "ready" |}
         | inl e => {| ready := false; detail := bs "consensus probe failed: " ++ display_error e |}
         end.
Definition health : sm Proto.HealthResponse :=
  status ← call check_ready;
  mret {| Proto.hp_ok := ready status; Proto.hp_detail := detail status |}.

(** One round over the peers; a reply, or a rejection by a replica, proves that a
    cluster exists. *)
Fixpoint discover_round (probe : Command) (targets : list (Z * NodeMeta)) : rm bool :=
  match targets with
  | [] => mret false
  | t :: targets =>
      r ← forward_command SYS_GROUP probe t;
      match r with
      | inr _ | inl (NotLeader _) => mret true
      | inl _ => discover_round probe targets
      end
  end.
Fixpoint discover_loop (fuel : nat) (probe : Command) (deadline : Z) : rm bool :=
  match fuel with
  | O => fail (RouterOther (bs "out of fuel"))
  | S fuel =>
      targets ← forward_targets node_id SYS_GROUP;
      found ← discover_round probe targets;
      if (found : bool) then mret true
      else
        w ← get_world;
        if deadline <=? instant_ms w then mret false
        else pause (sleep_ms 300);; discover_loop fuel probe deadline
  end.
Definition discover_existing_cluster (wait : Z) : rm bool :=
  w ← get_world;
  discover_loop (2 + Z.to_nat (wait / 300))
    {| request_id := None; cmd_now_ms := wall_ms w; cmd_op := Noop |} (instant_ms w + wait).
End probes.

(** ** The clock does not go back *)
Section clock.
Context `{!RocksDb, !Cluster, !Timers}.

Definition clocked {A} (m : rm A) : Prop := ∀ n, instant_ms (world n) ≤ instant_ms (world (m n).2).

Lemma clocked_ret {A} (a : A) : clocked (mret a).
Proof. intros n. apply Z.le_refl. Qed.
Lemma clocked_fail {A} e : clocked (fail e : rm A).
Proof. intros n. apply Z.le_refl. Qed.
Lemma clocked_of_sum {A} (r : RouterError + A) : clocked (of_sum r).
Proof. intros n. apply Z.le_refl. Qed.
Lemma clocked_get_router : clocked get_router.
Proof. intros n. apply Z.le_refl. Qed.
Lemma clocked_get_world : clocked get_world.
Proof. intros n. apply Z.le_refl. Qed.
Lemma clocked_modify f : clocked (modify f).
Proof. intros n. apply Z.le_refl. Qed.
Lemma clocked_record e : clocked (record e).
Proof. intros n. apply Z.le_refl. Qed.
Lemma clocked_attempt {A} (m : rm A) : clocked m → clocked (attempt m).
Proof. intros Hm n. specialize (Hm n). unfold attempt. by destruct (m n). Qed.
Lemma clocked_bind {A B} (m : rm A) (f : A → rm B) : clocked m → (∀ a, clocked (f a)) → clocked (m ≫= f).
Proof.
  intros Hm Hf n. specialize (Hm n). unfold mbind, rm_bind. destruct (m n) as [[e|a] n']; [done|].
  etrans; [exact Hm|apply Hf].
Qed.
Lemma clocked_await {A} (f : Router * World → A * (Router * World)) :
  (∀ r w, instant_ms w ≤ instant_ms (f (r, w)).2.2) → clocked (await f).
Proof.
  intros Hf n. specialize (Hf (router n) (world n)). unfold await. by destruct (f _) as [a [r w]].
Qed.
Lemma clocked_sleep t : 0 ≤ t → clocked (pause (sleep_ms t)).
Proof.
  intros Ht. apply clocked_await. intros r w. cbn. pose proof (instant_sleep t r w). lia.
Qed.
End clock.
#[export] Hint Extern 1 (0 ≤ _) => lia : clocked.
#[export] Hint Resolve clocked_sleep clocked_ret clocked_fail clocked_of_sum clocked_get_router clocked_get_world
  clocked_modify clocked_record clocked_attempt clocked_await instant_linearizable instant_spawn
  instant_forward instant_forward_read : clocked.
Ltac solve_clocked := repeat match goal with
  | H : clocked _ |- clocked _ => exact H
  | H : ∀ _, clocked _ |- clocked _ => apply H
  | |- clocked (_ ≫= _) => apply clocked_bind; [|intros ?]
  | |- clocked (match ?x with _ => _ end) => destruct x
  | |- clocked _ => solve [eauto with clocked]
  end.

Section bounds.
Context `{!Bincode StoredRecord, !RocksDb, !Cluster, !Timers}.
Context `{!Bincode Command, !Bincode ReadOp}.
Context `{!Bincode (ForwardError + ApplyResponse), !Bincode (ForwardError + ReadResult)}.
Context (dflt : LockAlgorithm) (node_id : Z).

Lemma clocked_read_linearizable g op : clocked (read_linearizable dflt node_id g op).
Proof.
  assert (clocked (read_forwarded node_id g op)) as Hf.
  { unfold read_forwarded. generalize MAX_FORWARD_HOPS. intros hops.
    assert (∀ t, clocked (forward_read_to g op t)) by
      (intros t; unfold forward_read_to, forward_via; solve_clocked).
    assert (∀ ts, clocked (try_targets (bs "read") (forward_read_to g op) g ts)).
    { intros ts. induction ts as [|t ts IH]; cbn [try_targets]; unfold note_leader; solve_clocked. }
    induction hops as [|hops IH]; cbn [read_hops]; unfold forward_hop, forward_targets; solve_clocked. }
  unfold read_linearizable, asked, local_read, note_leader. apply clocked_bind; [|intros ?; solve_clocked].
  apply clocked_attempt. solve_clocked.
Qed.
Lemma clocked_forward_command g c t : clocked (forward_command g c t).
Proof. unfold forward_command, forward_via. solve_clocked. Qed.
Lemma clocked_discover_round probe ts : clocked (discover_round probe ts).
Proof.
  pose proof (clocked_forward_command SYS_GROUP probe).
  induction ts as [|t ts IH]; cbn [discover_round]; solve_clocked.
Qed.

(** More fuel than the time left allows rounds changes nothing. *)
Lemma probe_loop_enough timeout deadline f f' n :
  deadline - instant_ms (world n) + 100 ≤ 100 * Z.of_nat f → (0 < f ≤ f')%nat →
  probe_loop dflt node_id f' timeout deadline n = probe_loop dflt node_id f timeout deadline n.
Proof.
  revert f' n. induction f as [|f IH]; intros f' n Ht Hf; [lia|]. destruct f' as [|f']; [lia|].
  cbn [probe_loop]. unfold timeout_at, mbind, rm_bind, get_world, attempt, pause, await.
  destruct (read_times_out deadline (world n)); [by destruct (abandon_read _ _)|].
  pose proof (clocked_read_linearizable SYS_GROUP ListNamespaces n) as Hc.
  destruct (read_linearizable dflt node_id SYS_GROUP ListNamespaces n) as [[e|r] n1]; [|done]. cbn in Hc |- *.
  destruct (Z.ltb_spec (instant_ms (world n1)) deadline); [|done].
  pose proof (instant_sleep 100 (router n1) (world n1)) as Hs.
  destruct (sleep_ms 100 (router n1, world n1)) as [r w]. cbn in Hs. apply IH; cbn [world]; lia.
Qed.
Lemma discover_loop_enough probe deadline f f' n :
  deadline - instant_ms (world n) + 300 ≤ 300 * Z.of_nat f → (0 < f ≤ f')%nat →
  discover_loop node_id f' probe deadline n = discover_loop node_id f probe deadline n.
Proof.
  revert f' n. induction f as [|f IH]; intros f' n Ht Hf; [lia|]. destruct f' as [|f']; [lia|].
  cbn [discover_loop]. unfold forward_targets, mbind, rm_bind, get_router, get_world, mret, rm_ret, pause, await.
  set (targets := targets_of node_id (router n) (world n) SYS_GROUP).
  pose proof (clocked_discover_round probe targets n) as Hc.
  destruct (discover_round probe targets n) as [[e|found] n1]; [done|]. cbn in Hc |- *.
  destruct found; [done|]. destruct (Z.leb_spec deadline (instant_ms (world n1))); [done|].
  pose proof (instant_sleep 300 (router n1) (world n1)) as Hs.
  destruct (sleep_ms 300 (router n1, world n1)) as [r w]. cbn in Hs. apply IH; cbn [world]; lia.
Qed.

(** The probes end by themselves: their budgets are never used up. *)
Theorem probes_end timeout n fuel :
  0 ≤ timeout →
  ((2 + Z.to_nat (timeout / 100) ≤ fuel)%nat →
   probe_loop dflt node_id fuel timeout (instant_ms (world n) + timeout) n = probe_writer dflt node_id timeout n) ∧
  ((2 + Z.to_nat (timeout / 300) ≤ fuel)%nat →
   discover_loop node_id fuel {| request_id := None; cmd_now_ms := wall_ms (world n); cmd_op := Noop |}
     (instant_ms (world n) + timeout) n = discover_existing_cluster node_id timeout n).
Proof.
  intros Ht. split; intros Hf.
  - apply probe_loop_enough; [|lia]. pose proof (Z.mod_pos_bound timeout 100).
    pose proof (Z.div_mod timeout 100). pose proof (Z.div_pos timeout 100). lia.
  - apply discover_loop_enough; [|lia]. pose proof (Z.mod_pos_bound timeout 300).
    pose proof (Z.div_mod timeout 300). pose proof (Z.div_pos timeout 300). lia.
Qed.
End bounds.
