(* ===== verification/Process.v ===== *)
(** * The process ([src/main.rs], the lifecycle of [src/raft/manager.rs])

    What a node does when it starts (the check of its data directory, resuming
    groups, founding a cluster) and the background passes it runs. *)

From Stdlib Require Import ZArith NArith Lia Strings.Byte.
From stdpp Require Import sorting countable base numbers gmap strings list.
From S2P Require Import Prelude RustStd StoreKeys Store Instances Snapshot LogStore.
From S2P Require Import EngineTypes Engine Net Events.
From S2P Require Import Placement Queue Command Codecs StateMachine Reads Gossip Router.
From S2P Require Import RouterOps.
From S2P Require Import RouterApi RouterReads MiniCluster Controller Config Proto Service.
From S2P Require Import Health.
Local Open Scope Z_scope.

(** ** The data directory *)

Definition CLUSTER_CONFIG_FINGERPRINT_KEY : bytes := bs "pathlockd/cluster-config-fingerprint/v1".

Section data_dir.
Context `{!RocksDb}.

Definition ensure_local_cluster_config (db : DB) (expected : Z) : result DB :=
  match get_cf db CF_META CLUSTER_CONFIG_FINGERPRINT_KEY with
  | Some raw =>
      if negb (length raw =? 8)%nat then Err (Anyhow "invalid stored cluster configuration")
      else if from_be raw =? expected then Ok db
      else Err (Anyhow "cluster configuration differs from this data directory")
  | None => Ok (write_opt db [BPut CF_META CLUSTER_CONFIG_FINGERPRINT_KEY (be_bytes 8 expected)])
  end.

Definition all_groups (group_count : Z) : list GroupId := seqZ 0 group_count ++ [SYS_GROUP].
(** A persisted vote or membership. *)
Definition has_state (db : DB) (group : GroupId) : bool :=
  bool_decide (is_Some (get_cf db CF_META (group_key group META_VOTE_KEY)))
  || bool_decide (is_Some (get_cf db CF_META (group_key group META_MEMBERSHIP_KEY))).
End data_dir.

(** ** Cores *)

(** What openraft answers to [initialize]. *)
Inductive init_result := InitOk | InitNotAllowed | InitFailed.
Class Cores `{!RocksDb, !Cluster} := {
  (** [Raft::new] on the group's stores; whether it succeeds *)
  raft_new : GroupId → Router * World → bool * (Router * World);
  initialize : GroupId → gmap Z NodeMeta → Router * World → init_result * (Router * World)
}.

(** [running]: the groups with a core; [initialized]: the calls of [initialize]. *)
Record Process `{!RocksDb, !Cluster} := {
  p_node : Node;
  running : gset GroupId;
  initialized : list (GroupId * gmap Z NodeMeta)
}.

Section startup.
Context `{!Bincode StoredRecord, !RocksDb, !Cluster, !Timers, !Cores}.
Context `{!Bincode Command, !Bincode ReadOp}.
Context `{!Bincode (ForwardError + ApplyResponse), !Bincode (ForwardError + ReadResult)}.

(** A failed step ends the process. *)
Definition pm (A : Type) : Type := Process → option A * Process.
#[export] Instance pm_ret : MRet pm := λ A a p, (Some a, p).
#[export] Instance pm_bind : MBind pm := λ A B f m p,
  match m p with (Some a, p) => f a p | (None, p) => (None, p) end.
Definition exit {A} : pm A := λ p, (None, p).
Definition calls {A} (f : Router * World → A * (Router * World)) : pm A := λ p,
  let '(a, (r, w)) := f (router (p_node p), world (p_node p)) in
  (Some a, {| p_node := {| router := r; world := w; events := events (p_node p) |};
              running := running p; initialized := initialized p |}).
Definition add_core (group : GroupId) : pm unit := λ p,
  (Some tt, {| p_node := p_node p; running := {[group]} ∪ running p; initialized := initialized p |}).
Definition note_init (group : GroupId) (voters : gmap Z NodeMeta) : pm unit := λ p,
  (Some tt, {| p_node := p_node p; running := running p; initialized := initialized p ++ [(group, voters)] |}).

Definition start_group (group : GroupId) : pm unit := λ p,
  if bool_decide (group ∈ running p) then (Some tt, p)
  else (ok ← calls (raft_new group); if (ok : bool) then add_core group else exit) p.
Definition bootstrap_group (group : GroupId) (voters : gmap Z NodeMeta) : pm unit :=
  start_group group;;
  note_init group voters;;
  r ← calls (initialize group voters);
  match r with InitOk | InitNotAllowed => mret tt | InitFailed => exit end.

(** The number of groups resumed. *)
Fixpoint resume_groups (groups : list GroupId) (resumed : Z) : pm Z :=
  match groups with
  | [] => mret resumed
  | g :: groups => λ p,
      (if has_state (db_handle (world (p_node p))) g
       then start_group g;; resume_groups groups (resumed + 1)
       else resume_groups groups resumed) p
  end.
Definition resume_local_groups (group_count : Z) : pm Z := resume_groups (all_groups group_count) 0.

Fixpoint bootstrap_groups (groups : list GroupId) (voters : gmap Z NodeMeta) : pm unit :=
  match groups with
  | [] => mret tt
  | g :: groups => bootstrap_group g voters;; bootstrap_groups groups voters
  end.

Context (dflt : LockAlgorithm) (node_id : Z).

(** The probe of the seeds, which gives up after [wait]. *)
Definition discovered (wait : Z) : pm bool := λ p,
  let '(r, n) := discover_existing_cluster node_id wait (p_node p) in
  (Some match r with inr b => b | inl _ => false end,
   {| p_node := n; running := running p; initialized := initialized p |}).

Definition bootstrap (cfg : Config.Config) (resumed : Z) : pm unit :=
  if negb (Config.bootstrap cfg) then mret tt
  else if 0 <? resumed then mret tt
  else
    let seeded := negb (bool_decide (Config.seed_nodes cfg = [])) in
    found ← (if seeded then discovered 10000 else mret false);
    if (found : bool) then mret tt
    else if seeded && negb (Config.force_bootstrap cfg) then exit
    else bootstrap_groups (all_groups (Config.group_count cfg)) {[node_id := node_meta cfg]}.

(** The part of [main] that decides whether a cluster is founded. *)
Definition startup (cfg : Config.Config) : pm unit :=
  resumed ← resume_local_groups (Config.group_count cfg);
  bootstrap cfg resumed.
End startup.

(** ** Options *)

Definition routing_options (cfg : Config.Config) : RoutingOptions :=
  {| group_count := Config.group_count cfg; routing_prefix_segments := Config.routing_prefix_segments cfg;
     max_inflight_per_group := Config.max_inflight_per_group cfg |}.

Definition health_probe_url (listen : str) : result str :=
  match parse_socket_addr listen with
  | None => Err (Anyhow "invalid listen address")
  | Some a =>
      let ip := match sa_ip a with
                | V4 l => if is_unspecified (V4 l) then V4 [127; 0; 0; 1] else V4 l
                | V6 l => if is_unspecified (V6 l) then V6 [0; 0; 0; 0; 0; 0; 0; 1] else V6 l
                end in
      Ok (bs "http://" ++ match ip with V4 l => display_v4 l | V6 l => bs "[" ++ display_v6 l ++ bs "]" end
          ++ c_colon :: to_string (sa_port a))
  end.

(** *** What start-up makes of the configuration *)




(** ** Background passes *)

Definition by_member (a b : Z * NodeIdentity) : Prop := a.1 ≤ b.1.
#[local] Instance by_member_dec a b : Decision (by_member a b).
Proof. unfold by_member. apply _. Defined.
(** The endpoints events are fanned out to. *)
Definition event_peers (self_id : Z) (members : MemberMap) : list str :=
  (λ x, raft_addr (ni_meta x.2)) <$>
    List.filter (λ x, negb (ni_node_id x.2 =? self_id) && negb (bool_decide (raft_addr (ni_meta x.2) = [])))
      (merge_sort by_member (map_to_list members)).

Definition GC_PASS_BUDGET : Z := 250.
Inductive gc_end := CaughtUp | BudgetSpent | SweepFailed.

Section gc.
Context `{!Bincode StoredRecord, !RocksDb, !Cluster, !Timers}.
Context `{!Bincode Command, !Bincode ReadOp}.
Context `{!Bincode (ForwardError + ApplyResponse), !Bincode (ForwardError + ReadResult)}.
Context (routing : RoutingOptions) (node_id : Z) (batch : Z).

(** The sweeps of one group: how they end and the owners granted meanwhile; [None]
    when [fuel] sweeps were not enough. *)
Fixpoint gc_group (fuel : nat) (started : Z) (group : GroupId) (granted : list str) : rm (option gc_end * list str) :=
  match fuel with
  | O => mret (None, granted)
  | S fuel =>
      r ← attempt (gc_sweep routing node_id group batch);
      match r with
      | inl _ => mret (Some SweepFailed, granted)
      | inr (scanned, _, owners) =>
          let granted := granted ++ owners in
          if scanned <? batch then mret (Some CaughtUp, granted)
          else
            w ← get_world;
            if GC_PASS_BUDGET <=? instant_ms w - started then mret (Some BudgetSpent, granted)
            else gc_group fuel started group granted
      end
  end.
(** The groups from position [i] of the rotated list of [n]: the next offset. *)
Fixpoint gc_groups (fuel : nat) (started : Z) (groups : list GroupId) (i n offset next_offset : nat)
    (granted : list str) : rm (option nat * list str) :=
  match groups with
  | [] => mret (Some next_offset, granted)
  | g :: groups =>
      '(r, granted) ← gc_group fuel started g granted;
      match r with
      | None => mret (None, granted)
      | Some CaughtUp => gc_groups fuel started groups (S i) n offset ((offset + i + 1) mod n) granted
      | Some BudgetSpent => mret (Some ((offset + i + 1) mod n)%nat, granted)
      | Some SweepFailed => mret (Some next_offset, granted)
      end
  end.
Definition rotate_left {A} (k : nat) (l : list A) : list A := drop k l ++ take k l.
(** A pass from the stored offset: the offset it stores and the owners to notify. *)
Definition group_gc_pass (fuel : nat) (start : nat) : rm (option nat * list str) :=
  w ← get_world;
  let led := led_groups w in
  match led with
  | [] => mret (Some start, [])
  | _ =>
      let offset := (start mod length led)%nat in
      gc_groups fuel (instant_ms w) (rotate_left offset led) 0 (length led) offset offset []
  end.

(** The groups whose swept region is compacted, and the cursors remembered; [None]
    when a compaction fails. *)
Fixpoint expiry_maintenance_pass (compacts : GroupId → bool) (db : DB) (groups : list GroupId)
    (compacted : gmap GroupId bytes) : option (list GroupId * gmap GroupId bytes) :=
  match groups with
  | [] => Some ([], compacted)
  | g :: groups =>
      match expiry_gc_cursor db g with
      | None => expiry_maintenance_pass compacts db groups compacted
      | Some cursor =>
          if bool_decide (compacted !! g = Some cursor) then expiry_maintenance_pass compacts db groups compacted
          else if compacts g then
            '(l, m) ← expiry_maintenance_pass compacts db groups (<[g := cursor]> compacted); Some (g :: l, m)
          else None
      end
  end.
End gc.

(** ** Founding a cluster *)

Section founding.
Context `{!Bincode StoredRecord, !RocksDb, !Cluster, !Timers, !Cores}.
Context `{!Bincode Command, !Bincode ReadOp}.
Context `{!Bincode (ForwardError + ApplyResponse), !Bincode (ForwardError + ReadResult)}.

Definition inits_kept {A} (m : pm A) : Prop := ∀ p, initialized (m p).2 = initialized p.

Lemma start_group_inits g : inits_kept (start_group g).
Proof.
  intros p. unfold start_group. destruct (bool_decide _); [done|].
  unfold mbind, pm_bind, calls. destruct (raft_new g _) as [[] [r w]]; done.
Qed.
(** Nothing is resumed only if no group has state, and then nothing was done. *)
Lemma resume_groups_spec gs k p :
  let '(r, p') := resume_groups gs k p in
  initialized p' = initialized p ∧
  match r with
  | Some n => k ≤ n ∧ (n = k → p' = p ∧ ∀ g, g ∈ gs → has_state (db_handle (world (p_node p))) g = false)
  | None => True
  end.
Proof.
  revert k p. induction gs as [|g gs IH]; intros k p; cbn [resume_groups].
  { cbn. split; [done|]. split; [lia|]. intros _. split; [done|]. by intros g ?%not_elem_of_nil. }
  destruct (has_state _ g) eqn:Hg.
  - unfold mbind, pm_bind. pose proof (start_group_inits g p) as Hi.
    destruct (start_group g p) as [[[]|] p1]; cbn in Hi; [|done].
    specialize (IH (k + 1) p1). destruct (resume_groups gs (k + 1) p1) as [r p'].
    destruct IH as [IHi IH]. split; [congruence|]. destruct r as [n|]; [|done]. split; [lia|]. lia.
  - specialize (IH k p). destruct (resume_groups gs k p) as [r p']. destruct IH as [IHi IH]. split; [done|].
    destruct r as [n|]; [|done]. destruct IH as [Hk IH]. split; [done|]. intros Hn. destruct (IH Hn) as [-> Hall].
    split; [done|]. intros g' [->|Hg']%elem_of_cons; [done|by apply Hall].
Qed.
Lemma bootstrap_groups_spec gs voters p :
  let '(r, p') := bootstrap_groups gs voters p in
  ∃ new, initialized p' = initialized p ++ new ∧ new `prefix_of` ((λ g, (g, voters)) <$> gs) ∧
  (r = Some tt → new = (λ g, (g, voters)) <$> gs).
Proof.
  revert p. induction gs as [|g gs IH]; intros p; cbn [bootstrap_groups].
  { exists []. by rewrite app_nil_r. }
  unfold bootstrap_group, mbind, pm_bind. pose proof (start_group_inits g p) as Hi.
  destruct (start_group g p) as [[[]|] p1]; cbn in Hi; [|exists []; rewrite Hi, app_nil_r; split_and!; [done|apply prefix_nil|done]].
  cbn. unfold calls. cbn [p_node]. destruct (initialize g voters _) as [ir [r w]].
  set (p2 := {| p_node := _ |}). assert (Hp2 : initialized p2 = initialized p ++ [(g, voters)]) by (cbn; by rewrite Hi).
  assert (Hstep : let '(r, p') := bootstrap_groups gs voters p2 in
    ∃ new, initialized p' = initialized p ++ new ∧ new `prefix_of` (g, voters) :: ((λ g, (g, voters)) <$> gs) ∧
           (r = Some tt → new = (g, voters) :: ((λ g, (g, voters)) <$> gs))).
  { specialize (IH p2). destruct (bootstrap_groups gs voters p2) as [r' p']. destruct IH as (new & Hnew & Hpre & Hok).
    exists ((g, voters) :: new). rewrite Hnew, Hp2, <- app_assoc. split; [done|].
    split; [by apply prefix_cons|]. intros Hr. by rewrite (Hok Hr). }
  destruct ir; [exact Hstep|exact Hstep|]. exists [(g, voters)]. split; [done|].
  split; [|done]. apply prefix_cons, prefix_nil.
Qed.
Lemma resume_groups_none gs k p :
  (∀ g, g ∈ gs → has_state (db_handle (world (p_node p))) g = false) → resume_groups gs k p = (Some k, p).
Proof.
  induction gs as [|g gs IH]; intros Hall; [done|]. cbn [resume_groups]. rewrite Hall by left.
  apply IH. intros g' Hg'. apply Hall. by right.
Qed.

Context (node_id : Z) (cfg : Config.Config) (p : Process).
Definition sole : gmap Z NodeMeta := {[node_id := node_meta cfg]}.
Definition groups_of : list GroupId := all_groups (Config.group_count cfg).
(** Whether the configuration and the probe allow founding. *)
Definition founder : Prop :=
  Config.bootstrap cfg = true ∧
  (Config.seed_nodes cfg = [] ∨
   Config.force_bootstrap cfg = true ∧ (discover_existing_cluster node_id 10000 (p_node p)).1 ≠ inr true).
Definition founds (may : Prop) (x : option unit * Process) : Prop :=
  ∃ new, initialized x.2 = initialized p ++ new ∧ (new ≠ [] → may) ∧
  new `prefix_of` ((λ g, (g, sole)) <$> groups_of) ∧
  (x.1 = Some tt → new = [] ∨ new.*1 = groups_of) ∧ (may → x.1 = Some tt → new.*1 = groups_of).

Lemma founds_nothing (may : Prop) x : initialized x.2 = initialized p → x.1 = None ∨ ¬ may → founds may x.
Proof.
  intros Hi Hm. exists []. rewrite app_nil_r. split_and!; [done|done|apply prefix_nil|by left|].
  intros Hf Hx. rewrite Hx in Hm. by destruct Hm.
Qed.
Lemma founds_all (may : Prop) q : initialized q = initialized p → may → founds may (bootstrap_groups groups_of sole q).
Proof.
  intros Hi Hm. pose proof (bootstrap_groups_spec groups_of sole q) as Hb. unfold founds.
  destruct (bootstrap_groups groups_of sole q) as [r p']. destruct Hb as (new & Hnew & Hpre & Hok). exists new.
  assert (Hall : r = Some tt → new.*1 = groups_of).
  { intros Hr. rewrite (Hok Hr), <- list_fmap_compose. apply list_fmap_id. }
  cbn. rewrite Hnew, Hi. split_and!; try done. intros Hr. by right; apply Hall.
Qed.
Lemma bootstrap_founds : founds founder (bootstrap node_id cfg 0 p).
Proof.
  unfold bootstrap. destruct (Config.bootstrap cfg) eqn:Hb; cbn [negb Z.ltb Z.compare].
  2: { apply founds_nothing; [done|]. right. unfold founder. intros [? _]; congruence. }
  destruct (bool_decide (Config.seed_nodes cfg = [])) eqn:Hs; cbn [negb andb].
  - apply bool_decide_eq_true in Hs. apply founds_all; [done|]. split; auto.
  - apply bool_decide_eq_false in Hs. unfold mbind, pm_bind, discovered.
    destruct (discover_existing_cluster node_id 10000 (p_node p)) as [d n] eqn:Hd.
    destruct (match d with inr b => b | inl _ => false end) eqn:Hf.
    + apply founds_nothing; [done|]. right. unfold founder. rewrite Hd. cbn [fst].
      destruct d as [e|[]]; [done| |done]. intros [_ [?|[_ Hx]]]; [done|by apply Hx].
    + assert (Hne : d ≠ inr true) by (by intros ->).
      destruct (Config.force_bootstrap cfg) eqn:Hforce; cbn [negb].
      * apply founds_all; [done|]. split; [done|]. right. by rewrite Hd.
      * apply founds_nothing; [done|by left].
Qed.
End founding.

(** C12: a node founds a cluster only when it may.  At start-up [initialize] is
    called on a group only if bootstrapping is configured, no group has a vote
    or a membership in the data directory, and either no seeds are configured,
    or founding is forced and the probe of the seeds found no cluster.  Every
    call names this node as the only voter; the calls go through the groups and
    the system group in order, and a start-up that succeeds has initialized none
    or all of them, all of them when those conditions hold. *)
Theorem bootstrap_founds_one_cluster
    `{!Bincode StoredRecord, !RocksDb, !Cluster, !Timers, !Cores}
    `{!Bincode Command, !Bincode ReadOp}
    `{!Bincode (ForwardError + ApplyResponse), !Bincode (ForwardError + ReadResult)}
    node_id (cfg : Config.Config) (p : Process) :
  let '(r, p') := startup node_id cfg p in
  let groups := all_groups (Config.group_count cfg) in
  let found := (discover_existing_cluster node_id 10000 (p_node p)).1 in
  let may_found :=
    Config.bootstrap cfg = true ∧
    (∀ g, g ∈ groups → has_state (db_handle (world (p_node p))) g = false) ∧
    (Config.seed_nodes cfg = [] ∨ Config.force_bootstrap cfg = true ∧ found ≠ inr true) in
  ∃ new, initialized p' = initialized p ++ new ∧
  (new ≠ [] → may_found) ∧
  new `prefix_of` ((λ g, (g, {[node_id := node_meta cfg]})) <$> groups) ∧
  (r = Some tt → new = [] ∨ new.*1 = groups) ∧
  (may_found → r = Some tt → new.*1 = groups).
Proof.
  assert (Hmain : founds node_id cfg p
    (founder node_id cfg p ∧ ∀ g, g ∈ groups_of cfg → has_state (db_handle (world (p_node p))) g = false)
    (startup node_id cfg p)).
  { unfold startup, resume_local_groups. fold (groups_of cfg). unfold mbind, pm_bind.
    pose proof (resume_groups_spec (groups_of cfg) 0 p) as Hr. pose proof (resume_groups_none (groups_of cfg) 0 p) as Hn.
    destruct (resume_groups (groups_of cfg) 0 p) as [[n|] p1]; destruct Hr as [Hi Hr].
    2: { apply founds_nothing; [done|by left]. }
    destruct Hr as [Hle Hz]. destruct (decide (n = 0)) as [->|Hne].
    - destruct (Hz eq_refl) as [-> Hall]. destruct (bootstrap_founds node_id cfg p) as (new & ? & Hm & ? & ? & Ha).
      exists new. split_and!; try done; [auto|naive_solver].
    - assert (Hnot : ¬ ∀ g, g ∈ groups_of cfg → has_state (db_handle (world (p_node p))) g = false).
      { intros Hall. apply Hne. by injection (Hn Hall). }
      unfold bootstrap. destruct (Config.bootstrap cfg); cbn [negb]; [|apply founds_nothing; naive_solver].
      destruct (Z.ltb_spec 0 n); [apply founds_nothing; naive_solver|lia]. }
  destruct (startup node_id cfg p) as [r p']. destruct Hmain as (new & Hi & Hm & Hpre & Hor & Hall).
  exists new. unfold founder in *. cbn [fst snd] in *. split_and!; try done; [naive_solver|].
  intros (? & ? & ?). apply Hall. auto.
Qed.

(** ** What the checks of the configuration give *)







Module ConfigWitness.
Definition env (key : str) : option str :=
  if bool_decide (key = bs "PATHLOCKD_INTERNAL_AUTH_TOKEN") then Some (bs "0123456789abcdef0123456789abcdef")
  else if bool_decide (key = bs "PATHLOCKD_SEED_NODES") then Some (bs "a:7946, ,b:7946")
  else if bool_decide (key = bs "PATHLOCKD_WEB_LISTEN") then Some (bs "[::1]:8443")
  else None.
Definition visible (s : str) : bool := forallb (in_rangeb 32 126) s.
Definition loaded : result Config.Config := load_from visible (λ _, None) (λ _, None) env None.
Definition cfg : Config.Config := match loaded with Ok c => c | Err _ => Config.default_config end.
#[local] Existing Instance EventsWitness.mpsc.

End ConfigWitness.

(** ** The data directory keeps its settings *)

Section pinned.
Context `{!RocksDb} (xxh3_64 : bytes → Z).

Lemma stored_fingerprint db f :
  get_cf (write_opt db [BPut CF_META CLUSTER_CONFIG_FINGERPRINT_KEY f]) CF_META CLUSTER_CONFIG_FINGERPRINT_KEY = Some f.
Proof. rewrite get_cf_write. cbn. by rewrite !decide_True. Qed.
Lemma ensure_ok db f db' :
  0 ≤ f < 2 ^ 64 → ensure_local_cluster_config db f = Ok db' →
  ∃ raw, get_cf db' CF_META CLUSTER_CONFIG_FINGERPRINT_KEY = Some raw ∧ length raw = 8%nat ∧ from_be raw = f.
Proof.
  intros Hf. unfold ensure_local_cluster_config. destruct (get_cf db CF_META _) as [raw|] eqn:Hg.
  - destruct (Nat.eqb_spec (length raw) 8); cbn [negb]; [|done].
    destruct (Z.eqb_spec (from_be raw) f); [|done]. intros [= <-]. by exists raw.
  - intros [= <-]. exists (be_bytes 8 f). split; [apply stored_fingerprint|]. split; [apply length_be_bytes|].
    apply from_be_be_bytes. cbn. lia.
Qed.

(** A write of one of the groups: under its prefix, or the erasure of all of it. *)
Definition group_write (n : Z) (op : batch_op) : Prop :=
  match op with
  | BPut c k _ | BDelete c k => c = CF_META → ∃ g k', g ∈ all_groups n ∧ k = group_key g k'
  | BDeleteRange c lo hi => c = CF_META → ∃ g, g ∈ all_groups n ∧ group_range g = (lo, Some hi)
  end.
(** The first four bytes of the fingerprint's key, read as a group. *)
Definition fingerprint_group : Z := 1885434984.
Lemma fingerprint_key : CLUSTER_CONFIG_FINGERPRINT_KEY = group_key fingerprint_group (bs "lockd/cluster-config-fingerprint/v1").
Proof. vm_compute. reflexivity. Qed.
Lemma other_group n g : n ≤ 65536 → g ∈ all_groups n → is_u32 g ∧ g ≠ fingerprint_group.
Proof.
  intros Hn. unfold all_groups, SYS_GROUP, is_u32, u32_max, fingerprint_group.
  intros [Hg|Hg]%elem_of_app; [apply elem_of_seqZ in Hg|apply list_elem_of_singleton in Hg]; lia.
Qed.
Lemma fingerprint_outside n g lo hi :
  n ≤ 65536 → g ∈ all_groups n → group_range g = (lo, Some hi) →
  in_range (Some lo) (Some hi) CLUSTER_CONFIG_FINGERPRINT_KEY = false.
Proof.
  intros Hn Hg Hr. apply (other_group n) in Hg as [Hu Hne]; [|done]. unfold group_range in Hr.
  destruct (Z.leb_spec (g + 1) u32_max); [|done]. injection Hr as <- <-.
  rewrite <- (app_nil_r (be_bytes 4 g)), <- (app_nil_r (be_bytes 4 (g + 1))), fingerprint_key.
  fold (group_key g []). fold (group_key (g + 1) []). unfold in_range, bytes_leb.
  assert (is_u32 fingerprint_group) by done. assert (is_u32 (g + 1)) by (unfold is_u32 in *; lia).
  destruct (bytes_ltb (group_key fingerprint_group _) (group_key (g + 1) [])) eqn:Hlt; [|by rewrite andb_false_r].
  apply group_key_ltb in Hlt; [|done|done].
  rewrite (proj2 (group_key_ltb fingerprint_group g _ _ ltac:(done) Hu)); [done|].
  left. destruct Hlt as [?|[_ Hlt]]; [lia|]. done.
Qed.
Lemma fingerprint_kept n ops db :
  n ≤ 65536 → Forall (group_write n) ops →
  get_cf (write_opt db ops) CF_META CLUSTER_CONFIG_FINGERPRINT_KEY = get_cf db CF_META CLUSTER_CONFIG_FINGERPRINT_KEY.
Proof.
  intros Hn Hops. rewrite get_cf_write. generalize (get_cf db CF_META CLUSTER_CONFIG_FINGERPRINT_KEY).
  induction Hops as [|op ops Hop _ IH]; intros cur; [done|]. cbn [foldl]. rewrite IH.
  assert (Hkey : ∀ c k, (c = CF_META → ∃ g k', g ∈ all_groups n ∧ k = group_key g k') →
            ¬ (c = CF_META ∧ k = CLUSTER_CONFIG_FINGERPRINT_KEY)).
  { intros c k Hk [Hc ->]. destruct (Hk Hc) as (g & k' & Hg & He). apply (other_group n) in Hg as [Hu Hne]; [|done].
    rewrite fingerprint_key in He. apply group_key_inj in He as [? _]; [done|done|done]. }
  destruct op as [c k v|c k|c lo hi]; cbn [batch_effect group_write] in *.
  - by rewrite decide_False by (by apply Hkey).
  - by rewrite decide_False by (by apply Hkey).
  - destruct (decide (c = CF_META)) as [Hc|]; [|done]. destruct (Hop Hc) as (g & Hg & Hr).
    by rewrite (fingerprint_outside n g).
Qed.

Lemma no_colon z : c_colon ∉ to_string z.
Proof. apply to_string_no_byte; [|done]. unfold is_digit. apply (bool_decide_eq_true_1 (¬ _)). by vm_compute. Qed.
Lemma algorithm_no_colon a : c_colon ∉ algorithm_as_str a.
Proof. destruct a; apply (bool_decide_eq_true_1 (¬ _)); by vm_compute. Qed.
Lemma algorithm_as_str_inj a b : algorithm_as_str a = algorithm_as_str b → a = b.
Proof. destruct a, b; vm_compute; congruence. Qed.

(** The settings every node must share. *)
Definition settings (cfg : Config.Config) : Z * Z * LockAlgorithm * Z :=
  (Config.group_count cfg, Config.routing_prefix_segments cfg, Config.default_lock_algorithm cfg,
   Config.replication_factor cfg).
Definition settings_typed (cfg : Config.Config) : Prop :=
  is_u32 (Config.group_count cfg) ∧ is_u32 (Config.routing_prefix_segments cfg) ∧ is_u32 (Config.replication_factor cfg).
Lemma fingerprint_value_inj a b :
  settings_typed a → settings_typed b → fingerprint_value a = fingerprint_value b → settings a = settings b.
Proof.
  intros (Ha1 & Ha2 & Ha3) (Hb1 & Hb2 & Hb3) He. unfold fingerprint_value in He. apply app_inv_head in He.
  apply sep_inj in He as [H1' He]; [|apply no_colon..]. apply sep_inj in He as [H2' He]; [|apply no_colon..].
  apply sep_inj in He as [H3' H4']; [|apply algorithm_no_colon..].
  assert (Hi : ∀ z, is_u32 z → is_i64 z) by (unfold is_u32, is_i64, u32_max, i64_min, i64_max; lia).
  apply to_string_inj in H1', H2', H4'; [|by apply Hi..]. apply algorithm_as_str_inj in H3'.
  unfold settings. congruence.
Qed.
End pinned.

(** C30: a data directory keeps the cluster settings it was first used with.
    After a start-up check has passed with some configuration, and whatever the
    groups write or erase since then, the check passes with another
    configuration exactly when the group count, the routing prefix, the default
    algorithm and the replication factor are the same, provided the hash tells
    the two apart, and then it changes nothing. *)
Theorem data_dir_pins_settings `{!RocksDb} (xxh3_64 : bytes → Z) db a b db1 n ops :
  (∀ v, 0 ≤ xxh3_64 v < 2 ^ 64) → settings_typed a → settings_typed b →
  (xxh3_64 (fingerprint_value a) = xxh3_64 (fingerprint_value b) → fingerprint_value a = fingerprint_value b) →
  ensure_local_cluster_config db (cluster_config_fingerprint xxh3_64 a) = Ok db1 →
  n ≤ 65536 → Forall (group_write n) ops →
  let db2 := write_opt db1 ops in
  match ensure_local_cluster_config db2 (cluster_config_fingerprint xxh3_64 b) with
  | Ok db3 => settings b = settings a ∧ db3 = db2
  | Err _ => settings b ≠ settings a
  end.
Proof.
  intros Hx Ha Hb Hinj He Hn Hops db2. destruct (ensure_ok _ _ _ (Hx _) He) as (raw & Hg & Hl & Hf).
  unfold ensure_local_cluster_config. unfold db2. rewrite (fingerprint_kept n) by done. rewrite Hg, Hl. cbn [Nat.eqb negb].
  destruct (Z.eqb_spec (from_be raw) (cluster_config_fingerprint xxh3_64 b)) as [Hs|Hs].
  - split; [|done]. symmetry. apply fingerprint_value_inj; [done|done|]. apply Hinj.
    unfold cluster_config_fingerprint in *. congruence.
  - intros Heq. apply Hs. rewrite Hf. unfold cluster_config_fingerprint, fingerprint_value, settings in *.
    injection Heq as <- <- <- <-. done.
Qed.

Module DataDirWitness.
Import Mini.
#[local] Existing Instance ref_rocksdb.
Definition env (key : str) : option str :=
  if bool_decide (key = bs "PATHLOCKD_REPLICATION_FACTOR") then Some (bs "5") else None.
Definition other : Config.Config :=
  match apply_env env Config.default_config with Ok c => c | Err _ => Config.default_config end.
Definition db0 : DB := (∅ : gmap cf (gmap bytes bytes)).
Definition first : Z := cluster_config_fingerprint hash Config.default_config.
Definition db1 : DB := write_opt db0 [BPut CF_META CLUSTER_CONFIG_FINGERPRINT_KEY (be_bytes 8 first)].
Definition ops : list batch_op := [BPut CF_META (group_key 7 (bs "vote")) (bs "v"); BDeleteRange CF_META (be_bytes 4 7) (be_bytes 4 8)].

Lemma hash_range v : 0 ≤ hash v < 2 ^ 64.
Proof. apply Z.mod_pos_bound. lia. Qed.
Lemma settings_ok c : c = Config.default_config ∨ c = other → settings_typed c.
Proof. intros [->| ->]; vm_compute; repeat split; discriminate. Qed.
Lemma ops_ok : Forall (group_write 256) ops.
Proof.
  repeat constructor; cbn.
  - intros _. exists 7, (bs "vote"). split; [|done]. apply elem_of_app. left. apply elem_of_seqZ. lia.
  - intros _. exists 7. split; [|done]. apply elem_of_app. left. apply elem_of_seqZ. lia.
Qed.
Lemma db0_fresh : ensure_local_cluster_config db0 first = Ok db1.
Proof. reflexivity. Qed.

Lemma refused (r : result DB) (P Q : Prop) (db2 : DB) :
  match r with Ok db3 => P ∧ db3 = db2 | Err _ => Q end → ¬ P → is_err r = true.
Proof. destruct r; [|done]. by intros [? _]. Qed.

(** A node restarted with another replication factor is refused. *)
Lemma data_dir_pins_settings_witness :
  settings other ≠ settings Config.default_config ∧
  is_err (ensure_local_cluster_config (write_opt db1 ops) (cluster_config_fingerprint hash other)) = true.
Proof.
  assert (Hne : settings other ≠ settings Config.default_config) by (vm_compute; discriminate).
  split; [exact Hne|].
  assert (Hh : hash (fingerprint_value Config.default_config) = hash (fingerprint_value other) →
               fingerprint_value Config.default_config = fingerprint_value other) by (vm_compute; discriminate).
  apply (refused _ (settings other = settings Config.default_config)
           (settings other ≠ settings Config.default_config) (write_opt db1 ops)); [|exact Hne].
  exact (data_dir_pins_settings hash db0 Config.default_config other db1 256 ops hash_range
    (settings_ok _ (or_introl eq_refl)) (settings_ok _ (or_intror eq_refl)) Hh db0_fresh ltac:(done) ops_ok).
Defined.
End DataDirWitness.

(** ** Two corners *)

Section corners.
Context `{!Bincode StoredRecord, !RocksDb, !Cluster, !Timers}.
Context `{!Bincode Command, !Bincode ReadOp}.
Context `{!Bincode (ForwardError + ApplyResponse), !Bincode (ForwardError + ReadResult)}.

(** A group whose sweep fails at the head of a pass ends it and is the head of the
    next pass again: the groups behind it are not swept. *)
Lemma failing_group_stalls routing node_id batch fuel started g gs n offset m granted m' :
  gc_group routing node_id batch fuel started g [] m = (inr (Some SweepFailed, granted), m') →
  gc_groups routing node_id batch fuel started (g :: gs) 0 n offset offset [] m = (inr (Some offset, granted), m').
Proof. intros Hg. cbn [gc_groups]. unfold mbind, rm_bind. by rewrite Hg. Qed.
End corners.

(** The largest ordinal gives the id 0. *)
Lemma largest_ordinal_wraps :
  numeric_node_id
    (match apply_env (λ k, if bool_decide (k = bs "PATHLOCKD_NODE_ID") then Some (bs "n-18446744073709551615") else None)
             Config.default_config with Ok c => c | Err _ => Config.default_config end) = Ok 0.
Proof. vm_compute. reflexivity. Qed.
