(* ===== verification/Transport.v ===== *)
(** * The internal transport ([src/raft/network.rs], [src/raft/server.rs])

    Nodes reach each other's Raft cores over gRPC: the pool of channels and the
    calls of the client half, the handlers of the server half, and the check of
    the cluster token between them. *)

From Stdlib Require Import ZArith NArith Lia Strings.Byte.
From stdpp Require Import sorting countable base numbers gmap strings list.
From S2P Require Import Prelude RustStd StoreKeys Store Instances Snapshot Grpc EngineTypes.
From S2P Require Import Engine.
From S2P Require Import Placement Queue Command Codecs StateMachine Reads Replica Router.
From S2P Require Import RouterOps.
From S2P Require Import MiniCluster RouterLeader Health Process.
Local Open Scope Z_scope.

(** ** tonic and openraft *)

(** Header values, endpoints and statuses of tonic: a value made of a text gives
    the text back. *)
Class Tonic := {
  header_value : str → option str;
  to_str : str → option str;
  to_str_value t v : header_value t = Some v → to_str v = Some t;
  valid_endpoint : str → bool;
  show_status : Status → str
}.

(** The messages of openraft and the calls of a core, which answer or fail with a
    text.  An encoded vote or snapshot header is not empty. *)
Class Protocol `{!RocksDb, !Cluster} := {
  AppendEntriesRequest : Type;
  AppendEntriesResponse : Type;
  VoteRequest : Type;
  VoteResponse : Type;
  TransferLeaderRequest : Type;
  Vote : Type;
  Meta : Type;
  SnapshotResponse : Type;
  append_request_codec :: Bincode AppendEntriesRequest;
  append_response_codec :: Bincode AppendEntriesResponse;
  vote_request_codec :: Bincode VoteRequest;
  vote_response_codec :: Bincode VoteResponse;
  transfer_codec :: Bincode TransferLeaderRequest;
  vote_codec :: Bincode Vote;
  meta_codec :: Bincode Meta;
  snapshot_response_codec :: Bincode SnapshotResponse;
  vote_header (v : Vote) : bincode_encode v ≠ [];
  meta_header (m : Meta) : bincode_encode m ≠ [];
  raft_append_entries : GroupId → AppendEntriesRequest → Router * World → (str + AppendEntriesResponse) * (Router * World);
  raft_vote : GroupId → VoteRequest → Router * World → (str + VoteResponse) * (Router * World);
  raft_transfer_leader : GroupId → TransferLeaderRequest → Router * World → (str + unit) * (Router * World);
  raft_install_full_snapshot :
    GroupId → Vote → Meta → bytes → Router * World → (str + SnapshotResponse) * (Router * World)
}.

(** ** Credentials *)

Definition INTERNAL_AUTH_HEADER : str := bs "x-pathlockd-cluster-token".

Record Request (A : Type) := { metadata : gmap str str; message : A }.
Arguments metadata {A}.
Arguments message {A}.
Definition request_new {A} (a : A) : Request A := {| metadata := ∅; message := a |}.

Section auth.
Context `{!Tonic}.

Definition authorize_internal_request {A} (request : Request A) (token : str) : str + Request A :=
  match header_value token with
  | None => inl (bs "invalid internal auth token")
  | Some value => inr {| metadata := <[INTERNAL_AUTH_HEADER := value]> (metadata request); message := message request |}
  end.
Definition authenticate_internal_request {A} (request : Request A) (token : str) : served unit :=
  let authorized := match metadata request !! INTERNAL_AUTH_HEADER ≫= to_str with
                    | Some value => bool_decide (value = token)
                    | None => false
                    end in
  if authorized then Served tt
  else Refused {| st_code := Unauthenticated; st_message := bs "invalid cluster credentials" |}.

(** ** The channel pool *)

(** A channel connects to one address; [ch_no] tells channels apart. *)
Record Channel := { ch_addr : str; ch_no : Z }.
(** [opened]: how many channels were created. *)
Record PeerPool := { channels : gmap Z (str * Channel); auth_token : str; opened : Z }.
Definition pool_new (token : str) : PeerPool := {| channels := ∅; auth_token := token; opened := 0 |}.

Definition channel (node_id : Z) (addr : str) (pool : PeerPool) : (str + Channel) * PeerPool :=
  let connect :=
    if valid_endpoint addr then
      let ch := {| ch_addr := addr; ch_no := opened pool |} in
      (inr ch, {| channels := <[node_id := (addr, ch)]> (channels pool); auth_token := auth_token pool;
                  opened := opened pool + 1 |})
    else (inl (bs "invalid raft addr " ++ addr), pool) in
  match channels pool !! node_id with
  | Some (cached, ch) => if bool_decide (cached = addr) then (inr ch, pool) else connect
  | None => connect
  end.
Definition evict (node_id : Z) (pool : PeerPool) : PeerPool :=
  {| channels := delete node_id (channels pool); auth_token := auth_token pool; opened := opened pool |}.
Definition authorize {A} (pool : PeerPool) (request : Request A) : str + Request A :=
  authorize_internal_request request (auth_token pool).
End auth.

(** ** The server *)

Record RaftFrame := { rf_group : Z; rf_payload : bytes }.
Record ForwardRequest := { fw_group : Z; fw_command : bytes }.
Record ForwardReadRequest := { fr_group : Z; fr_read_op : bytes }.
Record SetDrainingRequest := { sd_node_id : Z; sd_draining : bool }.

(** What the service holds besides the node's cores. *)
Record RaftTransportService := {
  ts_group_count : Z;
  ts_snapshot_max_bytes : Z;
  ts_default_algorithm : LockAlgorithm
}.

Section server.
Context `{!Bincode StoredRecord, !RocksDb, !Cluster, !Cores, !Protocol}.
Context `{!Bincode Command, !Bincode ReadOp}.
Context `{!Bincode (ForwardError + ApplyResponse), !Bincode (ForwardError + ReadResult)}.

(** A handler answers or refuses, and may change the process. *)
Definition tm (A : Type) : Type := Process → served A * Process.
#[export] Instance tm_ret : MRet tm := λ A a p, (Served a, p).
#[export] Instance tm_bind : MBind tm := λ A B f m p,
  match m p with (Served a, p) => f a p | (Refused s, p) => (Refused s, p) end.
Definition refuse {A} (code : Code) (msg : str) : tm A := λ p, (Refused {| st_code := code; st_message := msg |}, p).
Definition of_served {A} (r : served A) : tm A := λ p, (r, p).
Definition on_node {A} (f : Router * World → A * (Router * World)) : tm A := λ p,
  let '(a, (r, w)) := f (router (p_node p), world (p_node p)) in
  (Served a, {| p_node := {| router := r; world := w; events := events (p_node p) |};
                running := running p; initialized := initialized p |}).
(** A call of a core whose failure is an internal error. *)
Definition on_core {A} (f : Router * World → (str + A) * (Router * World)) : tm A :=
  r ← on_node f;
  match r with inr a => mret a | inl e => refuse Internal e end.

Definition decode_arg {A} `{!Bincode A} (b : bytes) : tm A :=
  match bincode_decode b with Some a => mret a | None => refuse InvalidArgument (bs "decode") end.

Context (self : RaftTransportService).

Definition valid_group (group : GroupId) : served unit :=
  if (group <? ts_group_count self) || (group =? SYS_GROUP) then Served tt
  else invalid_argument (bs "unknown group " ++ to_string group).

Definition hosting (group : GroupId) : tm bool := λ p, (Served (bool_decide (group ∈ running p)), p).

Definition core (group : GroupId) : tm unit :=
  of_served (valid_group group);;
  here ← hosting group;
  if (here : bool) then mret tt
  else λ p,
    match start_group group p with
    | (Some _, p) => (Served tt, p)
    | (None, p) => refuse Internal (bs "starting group " ++ to_string group) p
    end.

Definition append_entries (frame : RaftFrame) : tm RaftFrame :=
  core (rf_group frame);;
  rpc ← decode_arg (rf_payload frame);
  resp ← on_core (raft_append_entries (rf_group frame) rpc);
  mret {| rf_group := rf_group frame; rf_payload := bincode_encode resp |}.

Definition vote (frame : RaftFrame) : tm RaftFrame :=
  core (rf_group frame);;
  rpc ← decode_arg (rf_payload frame);
  resp ← on_core (raft_vote (rf_group frame) rpc);
  mret {| rf_group := rf_group frame; rf_payload := bincode_encode resp |}.

Definition transfer_leader (frame : RaftFrame) : tm RaftFrame :=
  core (rf_group frame);;
  req ← decode_arg (rf_payload frame);
  on_core (raft_transfer_leader (rf_group frame) req);;
  mret {| rf_group := rf_group frame; rf_payload := [] |}.

(** The chunks as the stream yields them; a broken stream yields a status. *)
Fixpoint receive (a : SnapshotAssembler) (stream : list (served SnapshotChunk)) : served SnapshotAssembler :=
  match stream with
  | [] => Served a
  | chunk :: stream => chunk ← chunk; a ← sa_push a chunk; receive a stream
  end.
Definition install_snapshot (stream : list (served SnapshotChunk)) : tm RaftFrame :=
  assembler ← of_served (receive (sa_new (ts_snapshot_max_bytes self)) stream);
  incoming ← of_served (sa_finish assembler);
  core (in_group incoming);;
  vote ← decode_arg (in_vote_bytes incoming);
  meta ← decode_arg (in_meta_bytes incoming);
  resp ← on_core (raft_install_full_snapshot (in_group incoming) vote meta (in_image incoming));
  mret {| rf_group := in_group incoming; rf_payload := bincode_encode resp |}.

(** [forward_error] *)
Definition forward_error {A} (r : raft_result A) : ForwardError + A :=
  match r with
  | RaftOk a => inr a
  | ForwardToLeader id node => inl (NotLeader (hint_of id node))
  | RaftFailed e => inl (ForwardOther e)
  end.

Definition client_write_on (group : GroupId) (cmd : Command) : tm (ForwardError + ApplyResponse) :=
  here ← hosting group;
  if (here : bool) then r ← on_node (client_write group cmd); mret (forward_error r)
  else mret (inl NotHosted).
Definition forward (req : ForwardRequest) : tm bytes :=
  cmd ← decode_arg (fw_command req);
  result ← client_write_on (fw_group req) cmd;
  mret (bincode_encode result).

Definition execute_read (group : GroupId) (op : ReadOp) : tm (ForwardError + ReadResult) :=
  here ← hosting group;
  if negb (here : bool) then mret (inl NotHosted)
  else
    barrier ← on_node (ensure_linearizable group);
    match forward_error barrier with
    | inl e => mret (inl e)
    | inr _ =>
        ran ← on_node spawn_blocking;
        if negb (ran : bool) then mret (inl (ForwardOther (bs "read task failed")))
        else λ p,
          let w := world (p_node p) in
          (Served match execute_read_blocking (db_handle w) group op (ts_default_algorithm self) (wall_ms w) with
                  | Ok r => inr r
                  | Err e => inl (ForwardOther (display_error (LocalRead e)))
                  end, p)
    end.
Definition forward_read (req : ForwardReadRequest) : tm bytes :=
  op ← decode_arg (fr_read_op req);
  result ← execute_read (fr_group req) op;
  mret (bincode_encode result).

Definition set_draining (req : SetDrainingRequest) : tm unit := λ p,
  let cmd := {| request_id := None; cmd_now_ms := wall_ms (world (p_node p));
                cmd_op := SetNodeDraining (sd_node_id req) (sd_draining req) |} in
  (here ← hosting SYS_GROUP;
   if negb (here : bool) then refuse FailedPrecondition (bs "sys group not hosted")
   else
     r ← on_node (client_write SYS_GROUP cmd);
     match r with
     | RaftOk _ => mret tt
     | _ => refuse FailedPrecondition (bs "client write")
     end) p.
End server.

(** ** The client *)

(** A node that serves the transport. *)
Record Listener `{!RocksDb, !Cluster} := {
  service : RaftTransportService;
  token : str;
  process : Process
}.
(** What the network does to a call: a request can be lost before it is served and
    an answer after; deadlines, message limits and connection failures are such
    losses. *)
Inductive link := Delivered | RequestLost (s : Status) | ResponseLost (s : Status).

(** The pool of the calling node, and the nodes by address. *)
Record Net `{!RocksDb, !Cluster} := { pool : PeerPool; listeners : gmap str Listener }.

Record RaftClientConn := { cn_group : Z; cn_target : Z; cn_node : NodeMeta; cn_snapshot_max_bytes : Z }.
Record RaftClientFactory := { cf_group : Z; cf_snapshot_max_bytes : Z }.
Definition new_client (f : RaftClientFactory) (target : Z) (node : NodeMeta) : RaftClientConn :=
  {| cn_group := cf_group f; cn_target := target; cn_node := node;
     cn_snapshot_max_bytes := cf_snapshot_max_bytes f |}.

Section client.
Context `{!Tonic}.
Context `{!Bincode StoredRecord, !RocksDb, !Cluster, !Cores, !Protocol}.
Context `{!Bincode Command, !Bincode ReadOp}.
Context `{!Bincode (ForwardError + ApplyResponse), !Bincode (ForwardError + ReadResult)}.

Definition set_process (p : Process) (l : Listener) : Listener :=
  {| service := service l; token := token l; process := p |}.

(** Every failure of a call is [Unreachable] with a text. *)
Definition nm (A : Type) : Type := Net → (str + A) * Net.
#[export] Instance nm_ret : MRet nm := λ A a n, (inr a, n).
#[export] Instance nm_bind : MBind nm := λ A B f m n,
  match m n with (inr a, n) => f a n | (inl e, n) => (inl e, n) end.
Definition unreachable {A} (e : str) : nm A := λ n, (inl e, n).

(** The interceptor checks the credentials before the service sees the message. *)
Definition serve {A B} (handler : RaftTransportService → A → tm B) (l : Listener) (request : Request A)
    : served B * Listener :=
  match authenticate_internal_request request (token l) with
  | Refused s => (Refused s, l)
  | Served _ => let '(r, p) := handler (service l) (message request) (process l) in (r, set_process p l)
  end.
(** A call over a channel; tonic reports every failure as a status. *)
Definition call {A B} (handler : RaftTransportService → A → tm B) (ch : Channel) (request : Request A) (k : link)
    : nm B := λ n,
  match listeners n !! ch_addr ch, k with
  | _, RequestLost s => (inl (show_status s), n)
  | None, _ => (inl (show_status {| st_code := Unavailable; st_message := bs "connect" |}), n)
  | Some l, _ =>
      let '(r, l) := serve handler l request in
      let n := {| pool := pool n; listeners := <[ch_addr ch := l]> (listeners n) |} in
      match r, k with
      | Served b, Delivered => (inr b, n)
      | _, ResponseLost s | Refused s, _ => (inl (show_status s), n)
      | _, _ => (inl [], n)
      end
  end.

Definition client (c : RaftClientConn) : nm Channel := λ n,
  let '(r, p) := channel (cn_target c) (raft_addr (cn_node c)) (pool n) in
  (r, {| pool := p; listeners := listeners n |}).
Definition authorized {A} (request : Request A) : nm (Request A) := λ n, (authorize (pool n) request, n).
Definition decode_answer {A} `{!Bincode A} (b : bytes) : nm A :=
  match bincode_decode b with Some a => mret a | None => unreachable (bs "decode") end.
Definition frame {A} `{!Bincode A} (c : RaftClientConn) (payload : A) : RaftFrame :=
  {| rf_group := cn_group c; rf_payload := bincode_encode payload |}.

Definition conn_append_entries (c : RaftClientConn) (rpc : AppendEntriesRequest) (k : link)
    : nm AppendEntriesResponse :=
  client ← client c;
  request ← authorized (request_new (frame c rpc));
  resp ← call append_entries client request k;
  decode_answer (rf_payload resp).

Definition conn_vote (c : RaftClientConn) (rpc : VoteRequest) (k : link) : nm VoteResponse :=
  client ← client c;
  request ← authorized (request_new (frame c rpc));
  resp ← call vote client request k;
  decode_answer (rf_payload resp).

Definition conn_transfer_leader (c : RaftClientConn) (req : TransferLeaderRequest) (k : link) : nm unit :=
  client ← client c;
  request ← authorized (request_new (frame c req));
  call transfer_leader client request k;;
  mret tt.

(** [cancelled]: openraft gives the transfer up before the answer arrives. *)
Definition conn_full_snapshot (c : RaftClientConn) (v : Vote) (meta : Meta) (image : bytes)
    (chunk_size : option Z) (cancelled : bool) (k : link) : nm SnapshotResponse :=
  client ← client c;
  match full_snapshot (cn_group c) (bincode_encode v) (bincode_encode meta) image (cn_snapshot_max_bytes c) chunk_size with
  | None => unreachable (bs "snapshot image too large: " ++ to_string (len image) ++ bs " bytes > " ++
                           to_string (cn_snapshot_max_bytes c) ++ bs " bytes")
  | Some chunks =>
      request ← authorized (request_new (Served <$> chunks));
      resp ← λ n, let '(r, n) := call install_snapshot client request k n in
                  (if cancelled then inl (bs "snapshot replication cancelled") else r, n);
      decode_answer (rf_payload resp)
  end.
End client.

(** ** Calls are transparent *)

Section transparent.
Context `{!Tonic}.
Context `{!Bincode StoredRecord, !RocksDb, !Cluster, !Cores, !Protocol}.
Context `{!Bincode Command, !Bincode ReadOp}.
Context `{!Bincode (ForwardError + ApplyResponse), !Bincode (ForwardError + ReadResult)}.

(** The calls of the Raft protocol and their answers. *)
Inductive Rpc :=
| RpcAppend (rpc : AppendEntriesRequest)
| RpcVote (rpc : VoteRequest)
| RpcTransfer (req : TransferLeaderRequest)
| RpcSnapshot (v : Vote) (meta : Meta) (image : bytes) (chunk_size : option Z).
Inductive Answer :=
| AnsAppend (r : AppendEntriesResponse)
| AnsVote (r : VoteResponse)
| AnsTransfer
| AnsSnapshot (r : SnapshotResponse).

Definition send (c : RaftClientConn) (rpc : Rpc) (cancelled : bool) (k : link) : nm Answer :=
  match rpc with
  | RpcAppend q => r ← conn_append_entries c q k; mret (AnsAppend r)
  | RpcVote q => r ← conn_vote c q k; mret (AnsVote r)
  | RpcTransfer q => conn_transfer_leader c q k;; mret AnsTransfer
  | RpcSnapshot v meta image size => r ← conn_full_snapshot c v meta image size cancelled k; mret (AnsSnapshot r)
  end.

(** The call made on the core of the node that serves it. *)
Definition at_peer (svc : RaftTransportService) (g : GroupId) (rpc : Rpc) : tm Answer :=
  core svc g;;
  match rpc with
  | RpcAppend q => r ← on_core (raft_append_entries g q); mret (AnsAppend r)
  | RpcVote q => r ← on_core (raft_vote g q); mret (AnsVote r)
  | RpcTransfer q => on_core (raft_transfer_leader g q);; mret AnsTransfer
  | RpcSnapshot v meta image _ => r ← on_core (raft_install_full_snapshot g v meta image); mret (AnsSnapshot r)
  end.

(** Every cached channel connects to the address it is cached for. *)
Definition pool_ok (pool : PeerPool) : Prop :=
  ∀ id addr ch, channels pool !! id = Some (addr, ch) → ch_addr ch = addr.

Lemma channel_ok id addr p :
  pool_ok p → let '(r, p') := channel id addr p in
  pool_ok p' ∧ auth_token p' = auth_token p ∧
  (∀ ch, r = inr ch → ch_addr ch = addr) ∧ (valid_endpoint addr = true → is_Some (match r with inr ch => Some ch | _ => None end)).
Proof.
  intros Hp. unfold channel.
  assert (Hc : let '(r, p') := (if valid_endpoint addr then
      (inr {| ch_addr := addr; ch_no := opened p |},
       {| channels := <[id := (addr, {| ch_addr := addr; ch_no := opened p |})]> (channels p);
          auth_token := auth_token p; opened := opened p + 1 |})
    else (inl (bs "invalid raft addr " ++ addr), p)) in
    pool_ok p' ∧ auth_token p' = auth_token p ∧ (∀ ch, r = inr ch → ch_addr ch = addr) ∧
    (valid_endpoint addr = true → is_Some (match r with inr ch => Some ch | _ => None end))).
  { destruct (valid_endpoint addr); [|done]. split_and!; [|done|by intros ch [= <-]|by eexists].
    intros i a ch. cbn. intros [[_ [= <- <-]]|[_ ?]]%lookup_insert_Some; [done|]. by apply (Hp i). }
  destruct (channels p !! id) as [[a ch]|] eqn:Hl; [|exact Hc]. case_bool_decide; [|exact Hc]. subst a.
  split_and!; [done|done| |by eexists]. intros ch' [= <-]. by apply (Hp id).
Qed.
Lemma pool_evict_ok id p : pool_ok p → pool_ok (evict id p).
Proof. intros Hp i a ch. cbn. rewrite lookup_delete_Some. intros [_ ?]. by apply (Hp i). Qed.
(** A second call for the same address shares the channel. *)
Lemma channel_shared id addr p ch p' : channel id addr p = (inr ch, p') → channel id addr p' = (inr ch, p').
Proof.
  unfold channel. destruct (channels p !! id) as [[a c]|] eqn:Hl; [case_bool_decide as Ha|].
  - intros [= <- <-]. by rewrite Hl, bool_decide_eq_true_2.
  - destruct (valid_endpoint addr); [|done]. intros [= <- <-]. cbn.
    rewrite lookup_insert_eq. by rewrite bool_decide_eq_true_2.
  - destruct (valid_endpoint addr); [|done]. intros [= <- <-]. cbn.
    rewrite lookup_insert_eq. by rewrite bool_decide_eq_true_2.
Qed.

(** Exactly the requests of nodes with the same token are let through. *)
Lemma authenticate_authorized {A} (m : A) t t' rq :
  authorize_internal_request (request_new m) t = inr rq →
  message rq = m ∧ (authenticate_internal_request rq t' = Served tt ↔ t = t').
Proof.
  unfold authorize_internal_request, authenticate_internal_request.
  destruct (header_value t) as [v|] eqn:Hv; [|done]. intros [= <-]. cbn. split; [done|].
  rewrite lookup_insert_eq. cbn. rewrite (to_str_value _ _ Hv). case_bool_decide; by split.
Qed.

Definition answer {B} (a : served B) : str + B :=
  match a with Served b => inr b | Refused s => inl (show_status s) end.

(** A call that took [n] to [n'] with the result [r] did what [direct] does on the
    peer: nothing arrived and it failed, or the peer ran [direct] once and the
    result, if there is one, is the peer's; and it did run when nothing stood in
    its way. *)
Definition transparent {B} (c : RaftClientConn) (cancelled : bool) (k : link) (fits : Listener → Prop)
    (direct : RaftTransportService → tm B) (n : Net) (r : str + B) (n' : Net) : Prop :=
  let addr := raft_addr (cn_node c) in
  pool_ok (pool n') ∧
  match listeners n !! addr with
  | None => listeners n' = listeners n ∧ ∃ e, r = inl e
  | Some l =>
      let '(a, p') := direct (service l) (process l) in
      let ran := listeners n' = <[addr := set_process p' l]> (listeners n) in
      ((listeners n' = listeners n ∧ ∃ e, r = inl e) ∨
       (token l = auth_token (pool n) ∧ ran ∧ ∀ b, r = inr b → a = Served b)) ∧
      (valid_endpoint addr = true → is_Some (header_value (auth_token (pool n))) →
       token l = auth_token (pool n) → (∀ s, k ≠ RequestLost s) → fits l →
       ran ∧ (k = Delivered → cancelled = false → r = answer a))
  end.

Lemma conn_call {A B} (handler : RaftTransportService → A → tm B) c (m : A) k n :
  pool_ok (pool n) →
  let '(r, n') := (ch ← client c; rq ← authorized (request_new m); call handler ch rq k) n in
  transparent c false k (λ _, True) (λ svc, handler svc m) n r n'.
Proof.
  intros Hp. unfold mbind, nm_bind, client, authorized, authorize, transparent.
  set (addr := raft_addr (cn_node c)). pose proof (channel_ok (cn_target c) addr (pool n) Hp) as Hch.
  destruct (channel (cn_target c) addr (pool n)) as [rc p1]. destruct Hch as (Hp1 & Ht & Haddr & Hv).
  destruct rc as [e|ch].
  { cbn [pool listeners]. split; [done|]. destruct (listeners n !! addr) as [l|]; [|by eauto].
    destruct (handler _ _ _) as [a p']. split; [by left; eauto|]. intros Hval. by destruct (Hv Hval). }
  cbn [pool]. rewrite Ht. destruct (authorize_internal_request (request_new m) (auth_token (pool n))) as [e|rq] eqn:Hauth.
  { cbn [pool listeners]. split; [done|]. destruct (listeners n !! addr) as [l|]; [|by eauto].
    destruct (handler _ _ _) as [a p']. split; [by left; eauto|]. intros _ [v Hhv].
    unfold authorize_internal_request in Hauth. by rewrite Hhv in Hauth. }
  unfold call, serve. cbn [listeners pool]. rewrite (Haddr ch eq_refl).
  destruct (listeners n !! addr) as [l|] eqn:Hl.
  2: { destruct k; cbn [pool listeners]; split; eauto. }
  destruct (authenticate_authorized m _ (token l) rq Hauth) as [Hm Hok].
  destruct (authenticate_internal_request rq (token l)) as [[]|s].
  - rewrite Hm. pose proof (proj1 Hok eq_refl) as Htok. destruct (handler (service l) m (process l)) as [a p'].
    destruct k as [|s|s]; cbn [pool listeners].
    + destruct a as [b|s']; (split; [done|]; split; [right; split_and!; [done|done|congruence]|done]).
    + split; [done|]. split; [by left; eauto|]. intros _ _ _ Hk. by destruct (Hk s).
    + destruct a as [b|s']; (split; [done|]; split; [right; split_and!; [done|done|congruence]|done]).
  - destruct (handler _ _ _) as [a p'].
    assert (Hne : token l ≠ auth_token (pool n)) by (intros He; by specialize (proj2 Hok (eq_sym He))).
    rewrite (insert_id (listeners n)) by done.
    destruct k; cbn [pool listeners]; (split; [done|]; split; [by left; eauto|done]).
Qed.

(** [handler] is [direct] up to the encoding of the answer. *)
Definition encodes {X B} (enc : B → X) (handler : served X * Process) (direct : served B * Process) : Prop :=
  handler = (match direct.1 with Served b => Served (enc b) | Refused s => Refused s end, direct.2).

Lemma transparent_map {X B} c cancelled k fits (handler : RaftTransportService → tm X)
    (direct : RaftTransportService → tm B) (enc : B → X) (fin : X → str + B) msg n r n' :
  (∀ l, listeners n !! raft_addr (cn_node c) = Some l →
     encodes enc (handler (service l) (process l)) (direct (service l) (process l)) ∨
     ¬ fits l ∧ ∃ s, handler (service l) (process l) = (Refused s, process l)) →
  (∀ svc p b, (direct svc p).1 = Served b → fin (enc b) = inr b) →
  transparent c false k (λ _, True) handler n r n' →
  transparent c cancelled k fits direct n
    (if cancelled then inl msg else match r with inl e => inl e | inr x => fin x end) n'.
Proof.
  intros Hl Hfin [Hp Hcall]. split; [done|]. destruct (listeners n !! _) as [l|] eqn:Hat.
  2: { destruct Hcall as [? [e ->]]. split; [done|]. destruct cancelled; by eexists. }
  specialize (Hl l eq_refl). specialize (Hfin (service l) (process l)).
  destruct (direct (service l) (process l)) as [a p']. cbn [fst] in Hfin.
  destruct Hl as [Henc|[Hfit [s Href]]].
  - unfold encodes in Henc. cbn [fst snd] in Henc. rewrite Henc in Hcall. destruct Hcall as [Hone Hall]. split.
    + destruct Hone as [[? [e ->]]|(? & ? & Hb)]; [left; destruct cancelled; by eauto|]. right. split_and!; [done|done|].
      intros b. destruct cancelled; [done|]. destruct r as [e|x]; [done|].
      specialize (Hb x eq_refl). destruct a as [a|]; [|done]. injection Hb as <-. rewrite (Hfin a eq_refl). by intros [= <-].
    + intros Hv Hh Ht Hk _. destruct (Hall Hv Hh Ht Hk I) as [? Hans]. split; [done|]. intros Hd ->.
      rewrite (Hans Hd eq_refl). destruct a as [a|]; cbn; [by rewrite (Hfin a eq_refl)|done].
  - rewrite Href in Hcall. destruct Hcall as [Hone _]. split; [left|done].
    assert (Hs : listeners n' = listeners n ∧ ∃ e, r = inl e).
    { destruct Hone as [?|(_ & -> & Hb)]; [done|]. split; [|destruct r as [e|x]; [by exists e|by specialize (Hb x eq_refl)]].
      rewrite <- (insert_id _ _ _ Hat) at 2. by destruct l. }
    destruct Hs as [? [e ->]]. split; [done|]. destruct cancelled; by eexists.
Qed.

(** The frame an answer travels in, and what the client makes of a frame. *)
Definition answer_frame (g : GroupId) (a : Answer) : RaftFrame :=
  {| rf_group := g;
     rf_payload := match a with
                   | AnsAppend r => bincode_encode r
                   | AnsVote r => bincode_encode r
                   | AnsTransfer => []
                   | AnsSnapshot r => bincode_encode r
                   end |}.
Definition read_frame (rpc : Rpc) (x : RaftFrame) : str + Answer :=
  let read {A} `{!Bincode A} (f : A → Answer) :=
    match bincode_decode (rf_payload x) with Some a => inr (f a) | None => inl (bs "decode") end in
  match rpc with
  | RpcAppend _ => read AnsAppend
  | RpcVote _ => read AnsVote
  | RpcTransfer _ => inr AnsTransfer
  | RpcSnapshot _ _ _ _ => read AnsSnapshot
  end.
Lemma read_answer svc g rpc p b : (at_peer svc g rpc p).1 = Served b → read_frame rpc (answer_frame g b) = inr b.
Proof.
  unfold at_peer, on_core, on_node, mbind, tm_bind. destruct (core svc g p) as [[[]|s] p1]; [|done].
  destruct rpc; cbn; destruct (_ : (str + _) * (Router * World)) as [[e|a] [r w]]; cbn; try done;
    intros [= <-]; cbn; by rewrite ?bincode_decode_encode.
Qed.

Ltac frame_encodes :=
  unfold encodes, at_peer, decode_arg, mbind, tm_bind; cbn [frame rf_group rf_payload];
  match goal with |- context [core ?svc ?g ?p] => destruct (core svc g p) as [[[]|s] p1]; [|done] end;
  rewrite bincode_decode_encode; cbn;
  match goal with |- context [on_core ?f ?p] => by destruct (on_core f p) as [[]] end.
Lemma append_entries_encodes svc c q p :
  encodes (answer_frame (cn_group c)) (append_entries svc (frame c q) p) (at_peer svc (cn_group c) (RpcAppend q) p).
Proof. unfold append_entries. frame_encodes. Qed.
Lemma vote_encodes svc c q p :
  encodes (answer_frame (cn_group c)) (vote svc (frame c q) p) (at_peer svc (cn_group c) (RpcVote q) p).
Proof. unfold vote. frame_encodes. Qed.
Lemma transfer_encodes svc c q p :
  encodes (answer_frame (cn_group c)) (transfer_leader svc (frame c q) p) (at_peer svc (cn_group c) (RpcTransfer q) p).
Proof. unfold transfer_leader. frame_encodes. Qed.

(** ** Snapshots *)

Lemma receive_served a chunks : receive a (Served <$> chunks) = sa_push_all a chunks.
Proof.
  revert a. induction chunks as [|ck chunks IH]; intros a; [done|]. cbn. unfold mbind, served_bind.
  destruct (sa_push a ck); [apply IH|done].
Qed.
(** A stream that breaks off installs nothing. *)
Lemma broken_stream_refused svc stream s stream' p :
  ∃ s', install_snapshot svc (stream ++ Refused s :: stream') p = (Refused s', p).
Proof.
  assert (∀ a, ∃ s', receive a (stream ++ Refused s :: stream') = Refused s') as Hr.
  { induction stream as [|[ck|s0] stream IH]; intros a; cbn; [by eexists| |by eexists].
    unfold mbind, served_bind. destruct (sa_push a ck) as [a'|s0]; [apply IH|by eexists]. }
  destruct (Hr (sa_new (ts_snapshot_max_bytes svc))) as [s' Hs]. exists s'.
  unfold install_snapshot, mbind, tm_bind, of_served. by rewrite Hs.
Qed.

Lemma push_all_image a chunks a' :
  sa_push_all a chunks = Served a' → len (sa_image a) ≤ sa_max_bytes a →
  sa_image a' = sa_image a ++ concat (ck_data <$> chunks) ∧ len (sa_image a') ≤ sa_max_bytes a.
Proof.
  revert a. induction chunks as [|ck chunks IH]; intros a; cbn [sa_push_all].
  { intros [= <-]. cbn. by rewrite app_nil_r. }
  unfold mbind, served_bind. destruct (sa_push a ck) as [a1|] eqn:Hpush; [|done]. intros Hp Hlen.
  assert (sa_image a1 = sa_image a ++ ck_data ck ∧ sa_max_bytes a1 = sa_max_bytes a ∧ len (sa_image a1) ≤ sa_max_bytes a)
    as (Hi & Hmax & Hle).
  { unfold sa_push, mbind, served_bind in Hpush. destruct (match sa_group a with Some _ => _ | None => _ end); [|done].
    destruct (Z.ltb_spec u64_max (len (sa_image a) + len (ck_data ck))); [done|].
    destruct (Z.ltb_spec (sa_max_bytes a) (len (sa_image a) + len (ck_data ck))); [done|].
    injection Hpush as <-. cbn. split_and!; [done|done|]. unfold len in *. rewrite length_app. lia. }
  rewrite <- Hmax in Hle. destruct (IH a1 Hp Hle) as [-> Hle']. rewrite Hi, Hmax in *. split; [|done].
  cbn. by rewrite app_assoc.
Qed.
Lemma chunk_loop_data fuel g v m image size first offset :
  (0 < size)%nat → (length image - offset < fuel)%nat → (offset ≤ length image)%nat →
  concat (ck_data <$> chunk_loop fuel g v m image size first offset) = drop offset image.
Proof.
  intros Hs. revert first offset. induction fuel as [|fuel IH]; intros first offset Hf Ho; [lia|].
  cbn [chunk_loop]. rewrite fmap_cons. cbn [ck_data concat].
  set (fin := Nat.min (offset + size) (length image)).
  assert (Hd : drop offset image = take (fin - offset) (drop offset image) ++ drop fin image).
  { rewrite <- (take_drop (fin - offset) (drop offset image)) at 1. f_equal. rewrite drop_drop. f_equal. lia. }
  rewrite Hd at 2. f_equal. destruct (Nat.leb_spec (length image) fin).
  - cbn. by rewrite drop_ge.
  - apply IH; lia.
Qed.
Lemma oversized_snapshot_refused g v m image max size :
  0 ≤ max < len image → ∃ s, sa_push_all (sa_new max) (snapshot_chunks g v m image size) = Refused s.
Proof.
  intros Hmax. destruct (sa_push_all _ _) as [a'|s] eqn:Hp; [|by exists s].
  apply push_all_image in Hp as [Hi Hle]; [|unfold sa_new, len; cbn; lia]. unfold snapshot_chunks in Hi.
  rewrite chunk_loop_data in Hi by lia. cbn in Hi, Hle. rewrite drop_0 in Hi. rewrite Hi in Hle. lia.
Qed.

Lemma install_encodes svc g v meta image size p :
  0 ≤ ts_snapshot_max_bytes svc ≤ u64_max →
  let handler := install_snapshot svc (Served <$> snapshot_chunks g (bincode_encode v) (bincode_encode meta) image size) p in
  len image ≤ ts_snapshot_max_bytes svc ∧
    encodes (answer_frame g) handler (at_peer svc g (RpcSnapshot v meta image size) p) ∨
  ts_snapshot_max_bytes svc < len image ∧ ∃ s, handler = (Refused s, p).
Proof.
  intros [Hpos Hmax] handler. unfold handler, install_snapshot. rewrite receive_served.
  destruct (Z.le_gt_cases (len image) (ts_snapshot_max_bytes svc)) as [Hle|Hgt]; [left|right]; (split; [done|]).
  - pose proof (snapshot_assembled g _ _ image _ size (vote_header v) (meta_header meta) Hle Hmax) as Has.
    unfold assemble, mbind, served_bind in Has. destruct (sa_push_all _ _) as [a|]; [|done].
    unfold mbind at 1 2, tm_bind at 1 2, of_served. rewrite Has. cbn [in_group in_vote_bytes in_meta_bytes in_image].
    unfold encodes, at_peer, decode_arg, mbind, tm_bind. destruct (core svc g p) as [[[]|s] p1]; [|done].
    rewrite bincode_decode_encode. cbn. rewrite bincode_decode_encode. cbn. by destruct (on_core _ p1) as [[]].
  - destruct (oversized_snapshot_refused g (bincode_encode v) (bincode_encode meta) image (ts_snapshot_max_bytes svc) size)
      as [s Hs]; [lia|]. exists s. unfold mbind, tm_bind, of_served. by rewrite Hs.
Qed.

(** A call and what follows it, in one step. *)
Definition call_of {A B} (handler : RaftTransportService → A → tm B) (c : RaftClientConn) (m : A) (k : link) : nm B :=
  ch ← client c; rq ← authorized (request_new m); call handler ch rq k.
Definition finish (rpc : Rpc) (cancelled : bool) (x : (str + RaftFrame) * Net) : (str + Answer) * Net :=
  (if cancelled then inl (bs "snapshot replication cancelled")
   else match x.1 with inl e => inl e | inr f => read_frame rpc f end, x.2).

Ltac run_call :=
  unfold finish, call_of, mbind, nm_bind, decode_answer, read_frame; cbn [fst snd];
  match goal with |- context [client ?c ?n] => destruct (client c n) as [[e|ch] n1]; [done|] end;
  match goal with |- context [authorized ?r ?n] => destruct (authorized r n) as [[e|rq] n2]; [done|] end;
  match goal with |- context [call ?h ?ch ?r ?k ?n] => destruct (call h ch r k n) as [[e|f] n3]; [done|cbn [fst snd]] end;
  try match goal with |- context [bincode_decode ?b] => destruct (bincode_decode b) end; done.
Lemma send_append c q k n :
  send c (RpcAppend q) false k n = finish (RpcAppend q) false (call_of append_entries c (frame c q) k n).
Proof. unfold send, conn_append_entries. run_call. Qed.
Lemma send_vote c q k n :
  send c (RpcVote q) false k n = finish (RpcVote q) false (call_of vote c (frame c q) k n).
Proof. unfold send, conn_vote. run_call. Qed.
Lemma send_transfer c q k n :
  send c (RpcTransfer q) false k n = finish (RpcTransfer q) false (call_of transfer_leader c (frame c q) k n).
Proof. unfold send, conn_transfer_leader. run_call. Qed.

(** A snapshot is within the limits of both ends. *)
Definition fits (c : RaftClientConn) (rpc : Rpc) (l : Listener) : Prop :=
  match rpc with
  | RpcSnapshot _ _ image _ => len image ≤ cn_snapshot_max_bytes c ∧ len image ≤ ts_snapshot_max_bytes (service l)
  | _ => True
  end.

Lemma transparent_weaken {B} c cancelled k P (direct : RaftTransportService → tm B) n r n' :
  transparent c false k P direct n r n' → transparent c cancelled k P direct n r n'.
Proof.
  intros [Hp Hcall]. split; [done|]. destruct (listeners n !! _) as [l|]; [|done].
  destruct (direct (service l) (process l)) as [a p']. destruct Hcall as [? Hall]. split; [done|].
  intros Hv Hh Ht Hk Hf. destruct (Hall Hv Hh Ht Hk Hf) as [? Hans]. split; [done|]. intros Hd _. by apply Hans.
Qed.
Lemma finish_ok {A} (handler : RaftTransportService → A → tm RaftFrame) c (m : A) rpc cancelled k n :
  pool_ok (pool n) →
  (∀ l, listeners n !! raft_addr (cn_node c) = Some l →
     encodes (answer_frame (cn_group c)) (handler (service l) m (process l)) (at_peer (service l) (cn_group c) rpc (process l)) ∨
     ¬ fits c rpc l ∧ ∃ s, handler (service l) m (process l) = (Refused s, process l)) →
  let '(r, n') := finish rpc cancelled (call_of handler c m k n) in
  transparent c cancelled k (fits c rpc) (λ svc, at_peer svc (cn_group c) rpc) n r n'.
Proof.
  intros Hp Hl. pose proof (conn_call handler c m k n Hp) as Hcall. fold (call_of handler c m k) in Hcall.
  destruct (call_of handler c m k n) as [r n']. unfold finish. cbn [fst snd].
  apply (transparent_map c cancelled k _ (λ svc, handler svc m) _ (answer_frame (cn_group c)) (read_frame rpc)); [done| |done].
  intros svc p b. apply read_answer.
Qed.

Lemma send_snapshot c v meta image size cancelled k n :
  len image ≤ cn_snapshot_max_bytes c →
  let rpc := RpcSnapshot v meta image size in
  let '(r, n') := send c rpc cancelled k n in
  let chunks := snapshot_chunks (cn_group c) (bincode_encode v) (bincode_encode meta) image size in
  let '(r2, n2) := finish rpc cancelled (call_of install_snapshot c (Served <$> chunks) k n) in
  n' = n2 ∧ (r = r2 ∨ cancelled = true ∧ ∃ e e2, r = inl e ∧ r2 = inl e2).
Proof.
  intros Hle rpc. unfold rpc, send, conn_full_snapshot, full_snapshot.
  destruct (Z.ltb_spec (cn_snapshot_max_bytes c) (len image)); [lia|].
  unfold finish, call_of, mbind, nm_bind. cbn [fst snd].
  destruct (client c n) as [[e|ch] n1]; [split; [done|]; destruct cancelled; [right; by eauto|by left]|].
  destruct (authorized _ n1) as [[e|rq] n2]; [split; [done|]; destruct cancelled; [right; by eauto|by left]|].
  destruct (call install_snapshot ch rq k n2) as [[e|f] n3]; destruct cancelled; [by auto..|].
  unfold decode_answer, read_frame. cbn [fst snd]. destruct (bincode_decode (rf_payload f)); (split; [done|by left]).
Qed.
Lemma client_ok c n :
  pool_ok (pool n) → pool_ok (pool (client c n).2) ∧ listeners (client c n).2 = listeners n.
Proof.
  intros Hp. unfold client. pose proof (channel_ok (cn_target c) (raft_addr (cn_node c)) (pool n) Hp) as Hch.
  destruct (channel _ _ _) as [r p1]. by destruct Hch.
Qed.
(** A call that fails before it is sent. *)
Lemma unsent {B} c cancelled k (P : Listener → Prop) (direct : RaftTransportService → tm B) n e n' :
  pool_ok (pool n') → listeners n' = listeners n → (∀ l, ¬ P l) → transparent c cancelled k P direct n (inl e) n'.
Proof.
  intros Hp Hl HP. split; [done|]. destruct (listeners n !! _) as [l|]; [|by eauto].
  destruct (direct (service l) (process l)) as [a p']. split; [by left; eauto|]. intros _ _ _ _ Hf. by destruct (HP l).
Qed.
Lemma transparent_error {B} c k P (direct : RaftTransportService → tm B) n e e' n' :
  transparent c true k P direct n (inl e) n' → transparent c true k P direct n (inl e') n'.
Proof.
  intros [Hp Hcall]. split; [done|]. destruct (listeners n !! _) as [l|].
  2: { destruct Hcall. by eauto. }
  destruct (direct (service l) (process l)) as [a p']. destruct Hcall as [Hone Hall]. split.
  - destruct Hone as [[? _]|(? & ? & _)]; [left; by eauto|by right].
  - intros Hv Hh Ht Hk Hf. by destruct (Hall Hv Hh Ht Hk Hf).
Qed.

Lemma snapshot_transparent c v meta image size cancelled k n :
  pool_ok (pool n) → (∀ addr l, listeners n !! addr = Some l → 0 ≤ ts_snapshot_max_bytes (service l) ≤ u64_max) →
  let rpc := RpcSnapshot v meta image size in
  let '(r, n') := send c rpc cancelled k n in
  transparent c cancelled k (fits c rpc) (λ svc, at_peer svc (cn_group c) rpc) n r n'.
Proof.
  intros Hp Hmax rpc. destruct (Z.le_gt_cases (len image) (cn_snapshot_max_bytes c)) as [Hle|Hgt].
  - pose proof (send_snapshot c v meta image size cancelled k n Hle) as Hs. cbv zeta in Hs. fold rpc in Hs.
    destruct (send c rpc cancelled k n) as [r n'].
    set (chunks := snapshot_chunks _ _ _ _ _) in Hs.
    pose proof (finish_ok install_snapshot c (Served <$> chunks) rpc cancelled k n Hp) as Hf.
    destruct (finish rpc cancelled _) as [r2 n2]. destruct Hs as [-> Hr].
    assert (Ht : transparent c cancelled k (fits c rpc) (λ svc, at_peer svc (cn_group c) rpc) n r2 n2).
    { apply Hf. intros l Hl.
      destruct (install_encodes (service l) (cn_group c) v meta image size (process l) (Hmax _ _ Hl)) as [[_ ?]|[Hgt [s Hs]]].
      - by left.
      - right. split; [cbn; lia|by exists s]. }
    destruct Hr as [->|(-> & e & e2 & -> & ->)]; [done|]. by apply (transparent_error _ _ _ _ _ e2).
  - unfold rpc, send, conn_full_snapshot, full_snapshot, mbind, nm_bind.
    destruct (Z.ltb_spec (cn_snapshot_max_bytes c) (len image)); [|lia].
    destruct (client_ok c n Hp) as [Hp1 Hl1]. destruct (client c n) as [[e|ch] n1]; cbn in Hp1, Hl1;
      (apply unsent; [done|done|]; cbn; lia).
Qed.
End transparent.

(** C26: a protocol call between two nodes is the call on the peer's core.  Whatever
    the network does, either nothing changed at the peer and the caller sees a
    failure, or the two nodes have the same token, the peer started the group's
    core if it had none and made the call on it exactly once, and an answer the
    caller sees is the peer's.  The call goes through, and its answer comes back,
    when address and token are valid, the tokens agree, nothing is lost, and a
    snapshot, which travels in chunks, is within the limits of both ends.  No
    other node changes, and channels always connect to the address asked for. *)
Theorem calls_are_transparent
    `{!Tonic, !RocksDb, !Cluster, !Cores, !Protocol}
    (c : RaftClientConn) (rpc : Rpc) (cancelled : bool) (k : link) (n : Net) :
  pool_ok (pool n) → (∀ addr l, listeners n !! addr = Some l → 0 ≤ ts_snapshot_max_bytes (service l) ≤ u64_max) →
  let '(r, n') := send c rpc cancelled k n in
  transparent c cancelled k (fits c rpc) (λ svc, at_peer svc (cn_group c) rpc) n r n'.
Proof.
  intros Hp Hmax. destruct rpc as [q|q|q|v meta image size].
  - change (send c (RpcAppend q) cancelled k n) with (send c (RpcAppend q) false k n). rewrite send_append.
    pose proof (finish_ok append_entries c (frame c q) (RpcAppend q) false k n Hp) as Hf.
    destruct (finish _ _ _) as [r n']. apply transparent_weaken, Hf. intros l _. left. apply append_entries_encodes.
  - change (send c (RpcVote q) cancelled k n) with (send c (RpcVote q) false k n). rewrite send_vote.
    pose proof (finish_ok vote c (frame c q) (RpcVote q) false k n Hp) as Hf.
    destruct (finish _ _ _) as [r n']. apply transparent_weaken, Hf. intros l _. left. apply vote_encodes.
  - change (send c (RpcTransfer q) cancelled k n) with (send c (RpcTransfer q) false k n). rewrite send_transfer.
    pose proof (finish_ok transfer_leader c (frame c q) (RpcTransfer q) false k n Hp) as Hf.
    destruct (finish _ _ _) as [r n']. apply transparent_weaken, Hf. intros l _. left. apply transfer_encodes.
  - by apply snapshot_transparent.
Qed.

(** ** Forwarded commands and reads *)

Section forwarding.
Context `{!Tonic}.
Context `{!Bincode StoredRecord, !RocksDb, !Cluster, !Cores, !Protocol}.
Context `{!Bincode Command, !Bincode ReadOp}.
Context `{!Bincode (ForwardError + ApplyResponse), !Bincode (ForwardError + ReadResult)}.

Lemma forward_serves g cmd p :
  encodes bincode_encode (forward {| fw_group := g; fw_command := bincode_encode cmd |} p) (client_write_on g cmd p).
Proof.
  unfold encodes, forward, decode_arg, mbind, tm_bind. cbn [fw_group fw_command]. rewrite bincode_decode_encode. cbn.
  by destruct (client_write_on g cmd p) as [[]].
Qed.
Lemma forward_read_serves svc g op p :
  encodes bincode_encode (forward_read svc {| fr_group := g; fr_read_op := bincode_encode op |} p) (execute_read svc g op p).
Proof.
  unfold encodes, forward_read, decode_arg, mbind, tm_bind. cbn [fr_group fr_read_op]. rewrite bincode_decode_encode. cbn.
  by destruct (execute_read svc g op p) as [[]].
Qed.
Lemma client_write_on_served g cmd p : ∃ a, (client_write_on g cmd p).1 = Served a.
Proof.
  unfold client_write_on, hosting, on_node, mbind, tm_bind. case_bool_decide; [|by eexists].
  destruct (client_write g cmd _) as [r [rt w]]. by eexists.
Qed.

(** A listener whose node leads a group, or names the leader, is a peer as the
    chase for the leader wants it: what the router gets is the outcome of the
    write on the listener's core. *)
Lemma listener_answers g cmd t r w w' l pool rq a p' :
  channel_error w t.1 (raft_addr t.2) = None → authorize_error w = None →
  authorize pool (request_new {| fw_group := g; fw_command := bincode_encode cmd |}) = inr rq →
  token l = auth_token pool →
  forward_rpc t.1 t.2 g (bincode_encode cmd) (r, w) = (answer (serve (λ _, forward) l rq).1, (r, w')) →
  client_write_on g cmd (process l) = (Served a, p') →
  answers g cmd r w t a w' ∧ (serve (λ _, forward) l rq).2 = set_process p' l.
Proof.
  intros Hc Ha Hrq Ht Hrpc Hw. destruct (authenticate_authorized _ _ (token l) rq Hrq) as [Hm Hok].
  unfold serve in *. rewrite (proj2 Hok (eq_sym Ht)), Hm in *. pose proof (forward_serves g cmd (process l)) as Hf.
  unfold encodes in Hf. rewrite Hf, Hw in *. cbn in *. split; [|done]. by split_and!.
Qed.

(** A read served for another node is the read the router makes on its own core:
    the barrier, then the local state. *)
Lemma execute_read_reads svc g op p r w r1 w1 :
  g ∈ running p →
  ensure_linearizable g (router (p_node p), world (p_node p)) = (RaftOk tt, (r1, w1)) →
  spawn_blocking (r1, w1) = (true, (r, w)) →
  (execute_read svc g op p).1 =
    Served match execute_read_blocking (db_handle w) g op (ts_default_algorithm svc) (wall_ms w) with
           | Ok res => inr res
           | Err e => inl (ForwardOther (display_error (LocalRead e)))
           end.
Proof.
  intros Hg Hb Hs. unfold execute_read, hosting, on_node, mbind, tm_bind. rewrite bool_decide_eq_true_2 by done.
  cbn. rewrite Hb. cbn. rewrite Hs. done.
Qed.
End forwarding.

Module TransportWitness.
Import Mini.
#[local] Existing Instance ref_rocksdb.
#[local] Existing Instance ref_z.
#[local] Instance cluster : Cluster := mini true.
#[local] Instance cores : Cores := {| raft_new _ x := (true, x); initialize _ _ x := (InitOk, x) |}.
#[local] Instance tonic : Tonic :=
  {| header_value t := Some t; to_str v := Some v; to_str_value _ _ h := eq_sym h;
     valid_endpoint _ := true; show_status := st_message |}.

Lemma enc_z_header z : enc_z z ≠ [].
Proof. by destruct z. Qed.
(** Messages are numbers.  A core votes for the sender and takes every snapshot,
    which sets its clock; it answers with the length of the image. *)
#[local] Instance protocol : Protocol :=
  {| AppendEntriesRequest := Z; AppendEntriesResponse := Z; VoteRequest := Z; VoteResponse := Z;
     TransferLeaderRequest := Z; Vote := Z; Meta := Z; SnapshotResponse := Z;
     vote_header := enc_z_header; meta_header := enc_z_header;
     raft_append_entries _ q x := (inr q, x);
     raft_vote _ q x := (inr q, x);
     raft_transfer_leader _ _ x := (inl (bs "not a voter"), x);
     raft_install_full_snapshot _ v m image x :=
       (inr (len image), (x.1, {| st_db := st_db x.2; st_now := v + m |})) |}.

Definition svc : RaftTransportService :=
  {| ts_group_count := 4; ts_snapshot_max_bytes := 100; ts_default_algorithm := RecursiveRw |}.
Definition p0 : Process :=
  {| p_node := {| router := router_new; world := {| st_db := (∅ : gmap cf (gmap bytes bytes)); st_now := 0 |};
                  events := [] |}; running := ∅; initialized := [] |}.
Definition net0 : Net :=
  {| pool := pool_new (bs "secret");
     listeners := {[ bs "n2" := {| service := svc; token := bs "secret"; process := p0 |};
                     bs "n3" := {| service := svc; token := bs "other"; process := p0 |} ]} |}.
Definition conn (target : Z) (n : string) : RaftClientConn :=
  new_client {| cf_group := 3; cf_snapshot_max_bytes := 100 |} target (meta n).
(** An image that takes three chunks. *)
Definition snap : Rpc := RpcSnapshot 7 8 (bs "a large image") (Some 5).

Lemma pool_empty : pool_ok (pool net0).
Proof. intros id addr ch. cbn. by rewrite lookup_empty. Qed.
Lemma limits_ok addr l :
  listeners net0 !! addr = Some l → 0 ≤ ts_snapshot_max_bytes (service l) ≤ u64_max.
Proof.
  assert (Hs : 0 ≤ ts_snapshot_max_bytes svc ≤ u64_max) by (split; vm_compute; discriminate).
  unfold net0, listeners. intros [[_ <-]|[_ [_ <-]%lookup_singleton_Some]]%lookup_insert_Some; exact Hs.
Qed.

Definition accepted (x : (str + Answer) * Net) (addr : string) : bool :=
  match x.1 with inr (AnsSnapshot r) => (r : Z) =? 13 | _ => false end &&
  match listeners x.2 !! bs addr with Some l => bool_decide (3 ∈ running (process l)) | None => false end.
Definition untouched (x : (str + Answer) * Net) (addr : string) : bool :=
  match x.1 with inl _ => true | inr _ => false end &&
  match listeners x.2 !! bs addr with Some l => bool_decide (running (process l) = ∅) | None => false end.

(** The snapshot arrives at the node with the same token, which starts the group; the
    one with another token refuses it. *)
Lemma calls_are_transparent_witness :
  accepted (send (conn 2 "n2") snap false Delivered net0) "n2" = true ∧
  untouched (send (conn 3 "n3") snap false Delivered net0) "n3" = true ∧
  let x := send (conn 2 "n2") snap false Delivered net0 in
  transparent (conn 2 "n2") false Delivered (fits (conn 2 "n2") snap) (λ svc, at_peer svc 3 snap) net0 x.1 x.2.
Proof.
  split; [vm_compute; reflexivity|]. split; [vm_compute; reflexivity|]. intros x.
  pose proof (calls_are_transparent (conn 2 "n2") snap false Delivered net0 pool_empty limits_ok) as Ht.
  unfold x. destruct (send (conn 2 "n2") snap false Delivered net0) as [r n']. exact Ht.
Defined.
End TransportWitness.
