(* ===== verification/Web.v ===== *)
(** * The HTTP facade ([src/web/rest.rs], [src/web/h3.rs])

    Every endpoint decodes a request message from JSON, calls the same handler
    as the gRPC server and maps the outcome to an HTTP response.  Over HTTP/3 a
    request may arrive as replayable early data; [handle_request] lets only
    requests to the paths [is_read_only_path] lists run then.

    axum's router and JSON extractor are third-party code: [Axum].  JSON bodies of
    responses are kept as values. *)

From Stdlib Require Import ZArith NArith Lia Strings.Byte.
From stdpp Require Import sorting countable base numbers gmap strings list.
From S2P Require Import Prelude RustStd StoreKeys Store Instances Snapshot Grpc Proto.
From S2P Require Import EngineTypes.
From S2P Require Import Validate Engine Placement Queue Command Codecs StateMachine Reads.
From S2P Require Import Router.
From S2P Require Import RouterOps RouterApi RouterReads MiniCluster RouterLogic RouterClaims.
From S2P Require Import Service Health.
Local Open Scope Z_scope.

(** ** Routes *)

Inductive Method := GET | HEAD | POST | OtherMethod (name : str).

(** The handlers of [rest.rs] and [sse.rs]. *)
Inductive endpoint :=
| E_acquire | E_release | E_release_all | E_renew | E_force_release | E_assert_fencing | E_detect_cycle
| E_is_blocking | E_incr_fencing_token | E_set_wait_edge | E_clear_wait_edge | E_is_owner_alive
| E_request_revoke | E_set_namespace_policy | E_get_namespace_policy | E_delete_namespace_policy
| E_inspect_path | E_list_owner_locks | E_dump_locks | E_health_get | E_health_post | E_sse.

(** [post(h)], [get(h)], [get(h).post(h')] *)
Inductive MethodRouter := Post (h : endpoint) | Get (h : endpoint) | GetPost (h h' : endpoint).

Definition routes : list (str * MethodRouter) :=
  [(bs "/v1/acquire", Post E_acquire);
   (bs "/v1/release", Post E_release);
   (bs "/v1/releaseAll", Post E_release_all);
   (bs "/v1/renew", Post E_renew);
   (bs "/v1/forceRelease", Post E_force_release);
   (bs "/v1/assertFencing", Post E_assert_fencing);
   (bs "/v1/detectCycle", Post E_detect_cycle);
   (bs "/v1/isBlocking", Post E_is_blocking);
   (bs "/v1/incrFencingToken", Post E_incr_fencing_token);
   (bs "/v1/setWaitEdge", Post E_set_wait_edge);
   (bs "/v1/clearWaitEdge", Post E_clear_wait_edge);
   (bs "/v1/isOwnerAlive", Post E_is_owner_alive);
   (bs "/v1/requestRevoke", Post E_request_revoke);
   (bs "/v1/setNamespacePolicy", Post E_set_namespace_policy);
   (bs "/v1/getNamespacePolicy", Post E_get_namespace_policy);
   (bs "/v1/deleteNamespacePolicy", Post E_delete_namespace_policy);
   (bs "/v1/inspectPath", Post E_inspect_path);
   (bs "/v1/listOwnerLocks", Post E_list_owner_locks);
   (bs "/v1/dumpLocks", Post E_dump_locks);
   (bs "/v1/health", GetPost E_health_get E_health_post)].
(** [rest::routes().merge(sse::routes())] *)
Definition app_routes : list (str * MethodRouter) := routes ++ [(bs "/v1/events/sse", Get E_sse)].

Definition read_only_paths : list str :=
  [bs "/v1/assertFencing"; bs "/v1/detectCycle"; bs "/v1/isBlocking"; bs "/v1/isOwnerAlive";
   bs "/v1/getNamespacePolicy"; bs "/v1/inspectPath"; bs "/v1/listOwnerLocks"; bs "/v1/dumpLocks";
   bs "/v1/health"].
Definition is_read_only_path (method : Method) (path : str) : bool :=
  match method with
  | GET | HEAD => true
  | _ => bool_decide (path ∈ read_only_paths)
  end.

(** ** Responses *)

Definition map_code (code : Code) : Z :=
  match code with
  | CodeOk => 200
  | InvalidArgument | OutOfRange => 400
  | Unauthenticated => 401
  | PermissionDenied => 403
  | NotFound => 404
  | AlreadyExists | Aborted => 409
  | FailedPrecondition => 412
  | ResourceExhausted => 429
  | Cancelled => 499
  | Unimplemented => 501
  | Unavailable => 503
  | DeadlineExceeded => 504
  | _ => 500
  end.
Definition code_name (code : Code) : str :=
  match code with
  | CodeOk => bs "OK"
  | Cancelled => bs "CANCELLED"
  | Unknown => bs "UNKNOWN"
  | InvalidArgument => bs "INVALID_ARGUMENT"
  | DeadlineExceeded => bs "DEADLINE_EXCEEDED"
  | NotFound => bs "NOT_FOUND"
  | AlreadyExists => bs "ALREADY_EXISTS"
  | PermissionDenied => bs "PERMISSION_DENIED"
  | ResourceExhausted => bs "RESOURCE_EXHAUSTED"
  | FailedPrecondition => bs "FAILED_PRECONDITION"
  | Aborted => bs "ABORTED"
  | OutOfRange => bs "OUT_OF_RANGE"
  | Unimplemented => bs "UNIMPLEMENTED"
  | Internal => bs "INTERNAL"
  | Unavailable => bs "UNAVAILABLE"
  | DataLoss => bs "DATA_LOSS"
  | Unauthenticated => bs "UNAUTHENTICATED"
  end.

Inductive Payload :=
| JsonReply (r : Reply)
| JsonHealth (h : Proto.HealthResponse)
| JsonError (code message : str)
| EventStream (owner_id : str) (after : option Z)
| Text (s : str)
| NoBody.
Record Response := { rs_status : Z; rs_body : Payload }.
Definition bare (status : Z) : Response := {| rs_status := status; rs_body := NoBody |}.

Definition status_to_response (s : Status) : Response :=
  {| rs_status := map_code (st_code s); rs_body := JsonError (code_name (st_code s)) (st_message s) |}.
Definition unary {A} (f : A → Payload) (r : served A) : Response :=
  match r with
  | Served a => {| rs_status := 200; rs_body := f a |}
  | Refused s => status_to_response s
  end.

(** ** The application *)

(** The query string of the event stream. *)
Record SseQuery := { q_owner_id : str; q_after : option Z }.

(** The request type of a JSON handler. *)
Definition serves (h : endpoint) (r : Request) : bool :=
  match h, r with
  | E_acquire, Acquire _ | E_release, ReleaseRpc _ | E_release_all, ReleaseAllRpc _ | E_renew, RenewRpc _
  | E_force_release, ForceReleaseRpc _ | E_assert_fencing, AssertFencingRpc _ | E_detect_cycle, DetectCycleRpc _
  | E_is_blocking, IsBlockingRpc _ | E_incr_fencing_token, IncrFencingTokenRpc _
  | E_set_wait_edge, SetWaitEdgeRpc _ | E_clear_wait_edge, ClearWaitEdgeRpc _
  | E_is_owner_alive, IsOwnerAliveRpc _ | E_request_revoke, RequestRevokeRpc _
  | E_set_namespace_policy, SetNamespacePolicyRpc _ | E_get_namespace_policy, GetNamespacePolicyRpc _
  | E_delete_namespace_policy, DeleteNamespacePolicyRpc _ | E_inspect_path, InspectPathRpc _
  | E_list_owner_locks, ListOwnerLocksRpc _ | E_dump_locks, DumpLocksRpc _ => true
  | _, _ => false
  end.
(** A handler registered for [get] serves HEAD requests as well. *)
Definition accepts (mr : MethodRouter) (method : Method) (h : endpoint) : Prop :=
  match mr, method with
  | Post h', POST | Get h', GET | Get h', HEAD => h = h'
  | GetPost h' _, GET | GetPost h' _, HEAD => h = h'
  | GetPost _ h', POST => h = h'
  | _, _ => False
  end.

Class Axum := {
  (** the handler of a request, or the response when there is none *)
  dispatch : list (str * MethodRouter) → Method → str → Response + endpoint;
  (** [Json<T>]: the request message, or the response to a malformed body *)
  extract : endpoint → bytes → Response + Request;
  (** [Json<HealthRequest>]: the message has no fields *)
  extract_health : bytes → option Response;
  (** [Query<SseQuery>] *)
  extract_query : bytes → Response + SseQuery;
  dispatch_routed rs method path h :
    dispatch rs method path = inr h → ∃ mr, (path, mr) ∈ rs ∧ accepts mr method h;
  extract_serves h body r : extract h body = inr r → serves h r = true
}.

Section app.
Context `{!Bincode StoredRecord, !RocksDb, !Cluster, !Timers, !Axum}.
Context `{!Bincode Command, !Bincode ReadOp}.
Context `{!Bincode (ForwardError + ApplyResponse), !Bincode (ForwardError + ReadResult)}.
Context (encoded_len : Proto.AcquireRequest → Z).
Context (xxh3_64 : bytes → Z) (routing : RoutingOptions) (dflt : LockAlgorithm).
Context (node_id : Z) (own_client_id : str).

(** A response, the events published, the node; no response when the task
    panics. *)
Definition web : Type := Node → option Response * list Proto.Event * Node.
Definition respond (r : Response) : web := λ n, (Some r, [], n).
Definition unary_call {A} (f : A → Payload) (m : sm A) : web := λ n,
  let '(r, evs, n) := m n in (unary f <$> r, evs, n).

(** The head of [sse]: the stream that follows reads the event log only. *)
Definition sse_response (query : bytes) : Response :=
  match extract_query query with
  | inl r => r
  | inr q =>
      if bool_decide (q_owner_id q = []) then {| rs_status := 400; rs_body := Text (bs "owner_id is required") |}
      else {| rs_status := 200; rs_body := EventStream (q_owner_id q) (q_after q) |}
  end.

Definition endpoint_handler (h : endpoint) (query body : bytes) : web :=
  match h with
  | E_health_get => unary_call JsonHealth (health dflt node_id)
  | E_health_post =>
      match extract_health body with
      | Some r => respond r
      | None => unary_call JsonHealth (health dflt node_id)
      end
  | E_sse => respond (sse_response query)
  | h =>
      match extract h body with
      | inl r => respond r
      | inr req => unary_call JsonReply (handle encoded_len xxh3_64 routing dflt node_id own_client_id req)
      end
  end.
(** [app.oneshot(request)] *)
Definition app (method : Method) (path query body : bytes) : web :=
  match dispatch app_routes method path with
  | inl r => respond r
  | inr h => endpoint_handler h query body
  end.

(** ** HTTP/3 *)

Definition MAX_REQUEST_BODY_BYTES : Z := 4 * 1024 * 1024.
Definition TOO_EARLY : Z := 425.
Definition REQUEST_TIMEOUT : Z := 408.
Definition PAYLOAD_TOO_LARGE : Z := 413.

(** What [recv_data] delivers: the slices of a chunk, or an error. *)
Inductive recv := Chunk (slices : list bytes) | RecvError.

(** The slices of one chunk; [true]: the body got too large and the response was
    sent. *)
Fixpoint read_slices (body : bytes) (slices : list bytes) : bytes * bool :=
  match slices with
  | [] => (body, false)
  | slice :: slices =>
      if MAX_REQUEST_BODY_BYTES <? saturating_add (len body) (len slice) then (body, true)
      else read_slices (body ++ slice) slices
  end.
(** [body_read]: the body collected when the future ends, and the responses sent
    until then. *)
Fixpoint body_read (body : bytes) (chunks : list recv) : bytes * list Response :=
  match chunks with
  | [] => (body, [])
  | RecvError :: _ => (body, [])
  | Chunk slices :: chunks =>
      let '(body, too_large) := read_slices body slices in
      if too_large then (body, [bare PAYLOAD_TOO_LARGE]) else body_read body chunks
  end.

(** The responses handed to the stream, in order.  Whether the body was read in
    time ([timed_out]) is the only thing the code asks of [body_read]. *)
Definition handle_request (early_data : bool) (method : Method) (path query : bytes) (chunks : list recv)
    (timed_out : bool) : Node → option (list Response) * list Proto.Event * Node := λ n,
  if early_data && negb (is_read_only_path method path) then (Some [bare TOO_EARLY], [], n)
  else
    let '(body, sent) := body_read [] chunks in
    if timed_out then (Some [bare REQUEST_TIMEOUT], [], n)
    else
      let '(r, evs, n) := app method path query body n in
      ((λ r, sent ++ [r]) <$> r, evs, n).
End app.
