(* ===== verification/WebClaims.v ===== *)
(** * What early data may do

    [proposes ok m]: whatever [m] proposes satisfies [ok].  A request that arrives
    as early data, and may therefore be replayed, proposes nothing, with one
    exception: deadlock detection clears wait edges it finds stale. *)

From Stdlib Require Import ZArith NArith Lia Strings.Byte.
From stdpp Require Import sorting countable base numbers gmap strings list.
From S2P Require Import Prelude RustStd StoreKeys Store Instances Snapshot Grpc Proto.
From S2P Require Import EngineTypes.
From S2P Require Import Validate Engine Placement Queue Command Codecs StateMachine Reads.
From S2P Require Import Router.
From S2P Require Import RouterOps RouterApi RouterReads MiniCluster RouterLogic RouterClaims.
From S2P Require Import Service Health Web.
Local Open Scope Z_scope.

Section proposes.
Context `{!RocksDb, !Cluster}.
Context (ok : GroupId → Command → Prop).

Definition all_ok (l : list event) : Prop := ∀ g cmd r, Proposed g cmd r ∈ l → ok g cmd.
Definition proposes {A} (m : rm A) : Prop := ∀ n, emits m (λ _ l _, all_ok l) n.

Lemma all_ok_nil : all_ok [].
Proof. by intros g cmd r ?%not_elem_of_nil. Qed.
Lemma all_ok_app l l' : all_ok l → all_ok l' → all_ok (l ++ l').
Proof. intros Hl Hl' g cmd r [?|?]%elem_of_app; [by eapply Hl|by eapply Hl']. Qed.
Lemma all_ok_silent l : proposals l = [] → all_ok l.
Proof.
  intros Hl g cmd r Hin. assert ((g, cmd, r) ∈ proposals l) as Hp; [|rewrite Hl in Hp; by apply not_elem_of_nil in Hp].
  apply list_elem_of_omap. by exists (Proposed g cmd r).
Qed.

Lemma proposes_silent {A} (m : rm A) : silent (λ _, True) m → proposes m.
Proof. intros Hm n. eapply emits_mono; [by apply Hm|]. intros r l n' [? _]. by apply all_ok_silent. Qed.
Lemma proposes_ret {A} (a : A) : proposes (mret a).
Proof. intros n. apply emits_ret, all_ok_nil. Qed.
Lemma proposes_fail {A} e : proposes (fail e : rm A).
Proof. intros n. apply emits_fail, all_ok_nil. Qed.
Lemma proposes_of_sum {A} (r : RouterError + A) : proposes (of_sum r).
Proof. intros n. apply emits_of_sum, all_ok_nil. Qed.
Lemma proposes_get_router : proposes get_router.
Proof. intros n. apply emits_get_router, all_ok_nil. Qed.
Lemma proposes_get_world : proposes get_world.
Proof. intros n. apply emits_get_world, all_ok_nil. Qed.
Lemma proposes_modify f : proposes (modify f).
Proof. intros n. apply emits_modify, all_ok_nil. Qed.
Lemma proposes_with_router {A} (f : Router → A * Router) : proposes (with_router f).
Proof. intros n. apply emits_with_router, all_ok_nil. Qed.
Lemma proposes_await {A} (f : Router * World → A * (Router * World)) : proposes (await f).
Proof.
  intros n. unfold emits, await. destruct (f _) as [a [r w]]. exists []. rewrite app_nil_r.
  split; [done|apply all_ok_nil].
Qed.
Lemma proposes_attempt {A} (m : rm A) : proposes m → proposes (attempt m).
Proof. intros Hm n. by apply emits_attempt, Hm. Qed.
Lemma proposes_bind {A B} (m : rm A) (f : A → rm B) :
  proposes m → (∀ a, proposes (f a)) → proposes (m ≫= f).
Proof.
  intros Hm Hf n. apply emits_bind. eapply emits_mono; [by apply Hm|]. intros [e|a] l n' Hl; [done|].
  apply emits_after. eapply emits_mono; [by apply Hf|]. intros r l' n'' Hl'. by apply all_ok_app.
Qed.
Lemma proposes_each {A B} (f : A → rm B) xs : (∀ x, proposes (f x)) → proposes (each f xs).
Proof.
  intros Hf. induction xs as [|x xs IH]; cbn [each]; [apply proposes_ret|].
  apply proposes_bind; [done|]. intros y. apply proposes_bind; [done|]. intros ys. apply proposes_ret.
Qed.
End proposes.
#[export] Hint Resolve proposes_ret proposes_fail proposes_of_sum proposes_get_router proposes_get_world
  proposes_modify proposes_with_router proposes_await proposes_attempt : proposes.
Ltac solve_proposes := repeat match goal with
  | H : proposes _ _ |- proposes _ _ => exact H
  | H : ∀ _, proposes _ _ |- proposes _ _ => apply H
  | H : ∀ _ _, proposes _ _ |- proposes _ _ => apply H
  | |- proposes _ (_ ≫= _) => apply proposes_bind; [|intros ?]
  | |- proposes _ (attempt _) => apply proposes_attempt
  | |- proposes _ (match ?x with _ => _ end) => destruct x
  | |- proposes _ _ => solve [eauto with proposes]
  end.

(** ** The router's reads *)
Section reads.
Context `{!Bincode StoredRecord, !RocksDb, !Cluster, !Timers}.
Context `{!Bincode Command, !Bincode ReadOp}.
Context `{!Bincode (ForwardError + ApplyResponse), !Bincode (ForwardError + ReadResult)}.
Context (xxh3_64 : bytes → Z) (routing : RoutingOptions) (dflt : LockAlgorithm).
Context (node_id : Z) (own_client_id : str) (ok : GroupId → Command → Prop).
Local Abbreviation Hany := (steady_true xxh3_64 routing).

Lemma proposes_read_on g op : proposes ok (read_on dflt node_id g op).
Proof. apply proposes_silent. eapply silent_read_on, Hany. Qed.
Lemma proposes_read_linearizable g op : proposes ok (read_linearizable dflt node_id g op).
Proof. apply proposes_silent. eapply silent_read_linearizable, Hany. Qed.
Lemma proposes_refresh : proposes ok (refresh_namespace_cache_if_stale dflt node_id).
Proof. apply proposes_silent. eapply silent_refresh, Hany. Qed.
#[local] Hint Resolve proposes_read_on proposes_read_linearizable proposes_refresh : proposes.

Lemma proposes_by_namespace {A} (path : A → str) xs m :
  proposes ok (by_namespace xxh3_64 routing dflt path xs m).
Proof. revert m. induction xs as [|x xs IH]; intros m; cbn [by_namespace]; cbv zeta; solve_proposes. Qed.
Lemma proposes_assert_fencing owner token paths :
  proposes ok (assert_fencing xxh3_64 routing dflt node_id owner token paths).
Proof.
  pose proof (proposes_by_namespace (@id str) paths []).
  assert (∀ l, proposes ok (assert_each dflt node_id owner token l)).
  { induction l as [|[ns [g ps]] l IH]; cbn [assert_each]; unfold unexpected_read; solve_proposes. }
  unfold assert_fencing. solve_proposes.
Qed.
Lemma proposes_route_path path : proposes ok (route_path xxh3_64 routing dflt node_id path).
Proof. unfold route_path. cbv zeta. solve_proposes. Qed.
#[local] Hint Resolve proposes_route_path : proposes.
Lemma proposes_is_blocking path owner reason :
  proposes ok (is_blocking xxh3_64 routing dflt node_id path owner reason).
Proof. unfold is_blocking, unexpected_read. solve_proposes. Qed.
Lemma proposes_inspect_path path : proposes ok (inspect_path xxh3_64 routing dflt node_id path).
Proof. unfold inspect_path, unexpected_read. solve_proposes. Qed.
Lemma proposes_resolve domains :
  proposes ok (resolve_domains_to_groups xxh3_64 routing dflt node_id domains).
Proof. unfold resolve_domains_to_groups. cbv zeta. solve_proposes. Qed.
#[local] Hint Resolve proposes_resolve : proposes.
Lemma proposes_any_unordered {A} (f : A → rm ReadResult) xs :
  (∀ x, proposes ok (f x)) → proposes ok (any_unordered f xs).
Proof.
  intros Hf. assert (∀ ys, proposes ok (any_read (f <$> ys))).
  { induction ys as [|y ys IH]; cbn; unfold unexpected_read; solve_proposes. }
  unfold any_unordered. solve_proposes.
Qed.
Lemma proposes_is_owner_alive owner domains :
  proposes ok (is_owner_alive xxh3_64 routing dflt node_id owner domains).
Proof.
  pose proof (proposes_any_unordered (λ g, read_on dflt node_id g (IsOwnerAlive owner))) as Ha.
  unfold is_owner_alive. apply proposes_bind; [apply proposes_resolve|]. intros [gs ?]. apply Ha.
  intros g. apply proposes_read_on.
Qed.
Lemma proposes_list_owner_locks owner domains :
  proposes ok (list_owner_locks xxh3_64 routing dflt node_id owner domains).
Proof.
  unfold list_owner_locks, unordered. apply proposes_bind; [apply proposes_resolve|]. intros [gs ?].
  apply proposes_bind; [|intros ?; solve_proposes]. apply proposes_bind; [solve_proposes|]. intros w.
  apply proposes_each. intros g. unfold unexpected_read. solve_proposes.
Qed.
Lemma proposes_dump_locks cursor page : proposes ok (dump_locks routing dflt node_id cursor page).
Proof.
  assert (∀ fuel g rel es, proposes ok (dump_loop routing dflt node_id fuel page g rel es)) as Hl.
  { induction fuel as [|fuel IH]; intros g rel es; cbn [dump_loop]; cbv zeta; unfold unexpected_read;
      solve_proposes. }
  unfold dump_locks. apply proposes_bind; [solve_proposes|]. intros [g rel]. apply Hl.
Qed.
Lemma proposes_policy_record ns : proposes ok (namespace_policy_record dflt node_id ns).
Proof. unfold namespace_policy_record, unexpected_read. solve_proposes. Qed.
Lemma proposes_check_ready : proposes ok (check_ready dflt node_id).
Proof.
  assert (∀ fuel timeout deadline, proposes ok (probe_loop dflt node_id fuel timeout deadline)) as Hl.
  { induction fuel as [|fuel IH]; intros timeout deadline; cbn [probe_loop]; unfold timeout_at, pause;
      solve_proposes. }
  unfold check_ready, probe_writer. solve_proposes.
Qed.

(** Clearing a wait edge of the system group. *)
Definition clears_edge (g : GroupId) (cmd : Command) : Prop :=
  g = SYS_GROUP ∧ ∃ owner, cmd_op cmd = ClearWaitEdge owner.
Lemma proposes_clear_edge owner : proposes clears_edge (clear_wait_edge routing node_id own_client_id owner).
Proof.
  intros n. unfold clear_wait_edge, clear_wait_edge_with_idempotency, the_command.
  apply emits_bind, emits_bind, emits_get_world. unfold after. cbn [app].
  apply emits_with_router. unfold command_with_idempotency, request_id_for. cbn.
  apply emits_bind, (emits_apply_to _ _ _ _ Hany); [done|]. intros r n' _.
  destruct r; [|apply emits_ret]; unfold after; cbn;
    (intros g cmd r' [= -> -> ->]%list_elem_of_singleton; split; [done|by eexists]).
Qed.
Lemma proposes_detect_cycle (clears : ∀ g cmd, clears_edge g cmd → ok g cmd) start depth :
  proposes ok (detect_cycle xxh3_64 routing dflt node_id own_client_id start depth).
Proof.
  assert (∀ owner, proposes ok (clear_wait_edge routing node_id own_client_id owner)) as Hc.
  { intros owner n. eapply emits_mono; [apply proposes_clear_edge|]. intros r l n' Hl g cmd r' Hin.
    eapply clears, Hl, Hin. }
  assert (∀ cur edge, proposes ok (edge_blocks xxh3_64 routing dflt node_id own_client_id cur edge)) as He.
  { intros cur edge. unfold edge_blocks. destruct (metadata edge) as [meta|].
    - pose proof (proposes_is_blocking (conflict_path meta) (conflict_owner edge) (reason meta)). solve_proposes.
    - pose proof (proposes_is_owner_alive (conflict_owner edge) []). solve_proposes. }
  unfold detect_cycle. generalize (S (Z.to_nat depth)). intros fuel. generalize start at 2. revert start.
  generalize (∅ : gset str), ([] : list str).
  induction fuel as [|fuel IH]; intros visited chain start cur; cbn [cycle_walk]; cbv zeta; [solve_proposes|].
  destruct (bool_decide _); [solve_proposes|]. unfold unexpected_read.
  apply proposes_bind; [apply proposes_read_on|]. intros r. destruct r; try solve_proposes.
Qed.
End reads.

(** ** Handlers *)
Section handlers.
Context `{!Bincode StoredRecord, !RocksDb, !Cluster, !Timers, !Axum}.
Context `{!Bincode Command, !Bincode ReadOp}.
Context `{!Bincode (ForwardError + ApplyResponse), !Bincode (ForwardError + ReadResult)}.
Context (encoded_len : Proto.AcquireRequest → Z).
Context (xxh3_64 : bytes → Z) (routing : RoutingOptions) (dflt : LockAlgorithm).
Context (node_id : Z) (own_client_id : str).

(** No event is published, and all proposals satisfy [ok]. *)
Definition looks (ok : GroupId → Command → Prop) {R} (m : Node → R * list Proto.Event * Node) : Prop :=
  ∀ n, let '(_, evs, n') := m n in evs = [] ∧ ∃ l, events n' = events n ++ l ∧ all_ok ok l.

Lemma looks_still ok {R} (r : R) : looks ok (λ n, (r, [], n)).
Proof. intros n. split; [done|]. exists []. rewrite app_nil_r. split; [done|apply all_ok_nil]. Qed.
Lemma looks_bind ok {A B} (m : sm A) (f : A → sm B) : looks ok m → (∀ a, looks ok (f a)) → looks ok (m ≫= f).
Proof.
  intros Hm Hf n. specialize (Hm n). unfold mbind, sm_bind.
  destruct (m n) as [[[[a|s]|] evs] n']; [|done..]. destruct Hm as [-> (l & Hl & Hok)].
  specialize (Hf a n'). destruct (f a n') as [[r evs'] n'']. destruct Hf as [-> (l' & Hl' & Hok')].
  split; [done|]. exists (l ++ l'). split; [by rewrite Hl', Hl, app_assoc|by apply all_ok_app].
Qed.
Lemma looks_call ok {A} (m : rm A) : proposes ok m → looks ok (call m).
Proof.
  intros Hm. apply looks_bind; [|intros r; apply looks_still]. intros n. specialize (Hm n). unfold emits in Hm.
  unfold run. destruct (m n) as [r n']. by split.
Qed.
Lemma looks_replied ok {A} (f : A → Reply) (m : sm A) : looks ok m → looks ok (replied f m).
Proof. intros Hm. apply looks_bind; [done|]. intros a. apply looks_still. Qed.
Lemma looks_unary ok {A} (f : A → Payload) (m : sm A) : looks ok m → looks ok (unary_call f m).
Proof. intros Hm n. specialize (Hm n). unfold unary_call. by destruct (m n) as [[r evs] n']. Qed.
End handlers.

(** The handlers that only look. *)
Definition looker (h : endpoint) : bool :=
  match h with
  | E_assert_fencing | E_is_blocking | E_is_owner_alive | E_get_namespace_policy | E_inspect_path
  | E_list_owner_locks | E_dump_locks | E_health_get | E_health_post | E_sse => true
  | _ => false
  end.
Lemma early_endpoint method path mr h :
  is_read_only_path method path = true → (path, mr) ∈ app_routes → accepts mr method h →
  looker h = true ∨ path = bs "/v1/detectCycle" ∧ h = E_detect_cycle.
Proof.
  intros Hro Hin Hacc. apply elem_of_app in Hin. unfold routes in Hin. destruct Hin as [Hin|Hin];
  repeat match type of Hin with
  | _ ∈ _ :: _ => apply elem_of_cons in Hin as [[= -> ->]|Hin]
  | _ ∈ [] => by apply not_elem_of_nil in Hin
  end; destruct method; cbn in Hacc; try done; subst h; try (by left); try (by right);
    (exfalso; revert Hro; vm_compute; discriminate).
Qed.

Section early.
Context `{!Bincode StoredRecord, !RocksDb, !Cluster, !Timers, !Axum}.
Context `{!Bincode Command, !Bincode ReadOp}.
Context `{!Bincode (ForwardError + ApplyResponse), !Bincode (ForwardError + ReadResult)}.
Context (encoded_len : Proto.AcquireRequest → Z).
Context (xxh3_64 : bytes → Z) (routing : RoutingOptions) (dflt : LockAlgorithm).
Context (node_id : Z) (own_client_id : str).
Local Abbreviation handle := (handle encoded_len xxh3_64 routing dflt node_id own_client_id).
Local Abbreviation endpoint_handler := (endpoint_handler encoded_len xxh3_64 routing dflt node_id own_client_id).

Ltac look := repeat match goal with
  | |- looks _ (_ ≫= _) => apply looks_bind; [|intros ?]
  | |- looks _ (call _) => apply looks_call
  | |- looks _ (check _) => apply looks_still
  | |- looks _ (mret _) => apply looks_still
  | |- looks _ (match ?x with _ => _ end) => destruct x
  end.
Lemma handle_looks ok h req : serves h req = true → looker h = true → looks ok (handle req).
Proof.
  intros Hs Hl. destruct h; try discriminate Hl; destruct req; try discriminate Hs; cbn [Service.handle];
    apply looks_replied.
  - unfold PathLock.assert_fencing. look. apply proposes_assert_fencing.
  - unfold PathLock.is_blocking. look. apply proposes_is_blocking.
  - unfold PathLock.is_owner_alive. look. apply proposes_is_owner_alive.
  - unfold PathLock.get_namespace_policy. look. apply (proposes_policy_record xxh3_64 routing).
  - unfold PathLock.inspect_path. look. apply proposes_inspect_path.
  - unfold PathLock.list_owner_locks. look. apply proposes_list_owner_locks.
  - unfold PathLock.dump_locks. cbv zeta. look. apply (proposes_dump_locks xxh3_64).
Qed.
Lemma detect_looks req : looks clears_edge (handle (DetectCycleRpc req)).
Proof.
  cbn [Service.handle]. apply looks_replied. unfold PathLock.detect_cycle. look.
  by apply proposes_detect_cycle.
Qed.
Lemma health_looks ok : looks ok (health dflt node_id).
Proof. unfold health. look. apply (proposes_check_ready xxh3_64 routing). Qed.

Lemma looks_endpoint ok h query body :
  looker h = true → looks ok (endpoint_handler h query body).
Proof.
  intros Hl. pose proof (looks_unary ok JsonHealth _ (health_looks ok)) as Hh.
  destruct h; try discriminate Hl; cbn [Web.endpoint_handler];
    try apply Hh; try apply looks_still; try (destruct (extract_health body); [apply looks_still|apply Hh]);
    (destruct (extract _ body) as [r|req] eqn:He; [apply looks_still|]; apply extract_serves in He;
     by eapply looks_unary, handle_looks).
Qed.
Lemma looks_detect query body : looks clears_edge (endpoint_handler E_detect_cycle query body).
Proof.
  cbn [Web.endpoint_handler]. destruct (extract E_detect_cycle body) as [r|req] eqn:He; [apply looks_still|].
  apply extract_serves in He. destruct req; try discriminate He. apply looks_unary, detect_looks.
Qed.

Local Abbreviation handle_request := (handle_request encoded_len xxh3_64 routing dflt node_id own_client_id).

Lemma app_looks method path query body :
  is_read_only_path method path = true →
  looks (λ g cmd, path = bs "/v1/detectCycle" ∧ clears_edge g cmd)
    (app encoded_len xxh3_64 routing dflt node_id own_client_id method path query body).
Proof.
  intros Hro. unfold app. destruct (dispatch app_routes method path) as [r|h] eqn:Hd; [apply looks_still|].
  apply dispatch_routed in Hd as (mr & Hin & Hacc).
  destruct (early_endpoint method path mr h Hro Hin Hacc) as [Hl|[Hp ->]]; [by apply looks_endpoint|].
  intros n. pose proof (looks_detect query body n) as Hd.
  destruct (endpoint_handler E_detect_cycle query body n) as [[r evs] n'].
  destruct Hd as [-> (l & Hl & Hok)]. split; [done|]. exists l. split; [done|].
  intros g cmd r' Hin'. split; [done|by eapply Hok].
Qed.

(** C29: Early data is read-only, up to stale wait edges.  A request that arrives as replayable early data
    publishes no event, and the only commands its handling proposes are removals of wait edges from the system
    group, which deadlock detection makes.  A request that the list of read-only paths does not admit
    ([is_read_only_path]: any method but GET and HEAD, on a path that is not listed) is answered 425 and leaves
    the node as it was. *)
Theorem early_data_is_read_only method path query chunks timed_out n :
  let '(r, evs, n') := handle_request true method path query chunks timed_out n in
  evs = [] ∧
  (∃ l, events n' = events n ++ l ∧ ∀ g cmd res, Proposed g cmd res ∈ l →
     path = bs "/v1/detectCycle" ∧ g = SYS_GROUP ∧ ∃ owner, cmd_op cmd = ClearWaitEdge owner) ∧
  (is_read_only_path method path = false → r = Some [bare TOO_EARLY] ∧ n' = n).
Proof.
  unfold Web.handle_request. destruct (is_read_only_path method path) eqn:Hro; cbn [negb andb].
  - assert (∀ r : option (list Response), let '(r, evs, n') := (r, [] : list Proto.Event, n) in
      evs = [] ∧ (∃ l, events n' = events n ++ l ∧ ∀ g cmd res, Proposed g cmd res ∈ l →
        path = bs "/v1/detectCycle" ∧ g = SYS_GROUP ∧ ∃ owner, cmd_op cmd = ClearWaitEdge owner) ∧
      (true = false → r = Some [bare TOO_EARLY] ∧ n' = n)) as Hstill.
    { intros r. split_and!; [done| |done]. exists []. rewrite app_nil_r. split; [done|].
      by intros g cmd res ?%not_elem_of_nil. }
    destruct (body_read [] chunks) as [body sent]. destruct timed_out; [apply Hstill|].
    pose proof (app_looks method path query body Hro n) as Ha.
    destruct (app _ _ _ _ _ _ method path query body n) as [[r evs] n'].
    destruct Ha as [-> (l & Hl & Hok)]. split_and!; [done| |done]. exists l. split; [done|].
    intros g cmd res Hin. destruct (Hok g cmd res Hin) as (? & ? & ?). done.
  - split_and!; [done| |done]. exists []. rewrite app_nil_r. split; [done|]. by intros g cmd res ?%not_elem_of_nil.
Qed.

(** A body that grows too large is answered 413, and the request is handled all the same, with what was read
    before. *)
Lemma oversized_request_runs early method path query body slice rest n :
  (early = true → is_read_only_path method path = true) →
  len body ≤ MAX_REQUEST_BODY_BYTES → MAX_REQUEST_BODY_BYTES < len body + len slice →
  handle_request early method path query (Chunk [body] :: Chunk [slice] :: rest) false n =
  let '(r, evs, n') := app encoded_len xxh3_64 routing dflt node_id own_client_id method path query body n in
  ((λ r, [bare PAYLOAD_TOO_LARGE; r]) <$> r, evs, n').
Proof.
  intros He Hb Hs. unfold Web.handle_request.
  replace (early && negb (is_read_only_path method path)) with false
    by (destruct early; [by rewrite He|done]).
  assert (body_read [] (Chunk [body] :: Chunk [slice] :: rest) = (body, [bare PAYLOAD_TOO_LARGE])) as ->; [|done].
  cbn [body_read read_slices]. rewrite !app_nil_l. unfold saturating_add. change (len ([] : bytes)) with 0.
  unfold MAX_REQUEST_BODY_BYTES, u64_max in *.
  destruct (Z.ltb_spec (4 * 1024 * 1024) (Z.min (0 + len body) (2 ^ 64 - 1))); [lia|].
  destruct (Z.ltb_spec (4 * 1024 * 1024) (Z.min (len body + len slice) (2 ^ 64 - 1))); [done|lia].
Qed.
End early.

Module WebWitness.
Import Mini.
#[local] Existing Instance ref_bincode.
#[local] Existing Instance ref_rocksdb.
#[local] Instance cluster : Cluster := mini true.

#[local] Instance timers : Timers.
Proof.
  refine {| instant_ms := st_now; read_times_out _ _ := false; abandon_read _ x := x |}.
  - intros g r w. apply Z.le_refl.
  - intros r w. apply Z.le_refl.
  - intros i m g b r w. cbn. unfold at_world, deliver. cbn [fst snd]. destruct (i =? 2); [|by destruct (i =? 3)].
    destruct (bincode_decode b) as [cmd|]; [|done]. unfold propose.
    by destruct (apply_with_meta _ _ _ _ _ _) as [[[db' resp] ?]|].
  - intros i m g b r w. cbn. unfold at_world, deliver_read. cbn [fst snd].
    destruct (i =? 2); [|by destruct (i =? 3)]. by destruct (bincode_decode b).
  - intros t r w. apply Z.le_refl.
Defined.

(** Exact paths; a body is the owner a cycle is looked for from. *)
Definition method_handler (mr : MethodRouter) (method : Method) : option endpoint :=
  match mr, method with
  | Post h, POST | Get h, GET | Get h, HEAD | GetPost h _, GET | GetPost h _, HEAD | GetPost _ h, POST => Some h
  | _, _ => None
  end.
Definition find_route (rs : list (str * MethodRouter)) (method : Method) (path : str) : Response + endpoint :=
  match list_find (λ e, e.1 = path) rs with
  | Some (_, e) => match method_handler e.2 method with Some h => inr h | None => inl (bare 405) end
  | None => inl (bare 404)
  end.
Definition read_body (h : endpoint) (body : bytes) : Response + Request :=
  match h with
  | E_detect_cycle => inr (DetectCycleRpc {| Proto.cq_start_owner_id := body; Proto.cq_max_depth := 8 |})
  | _ => inl (bare 422)
  end.
#[local] Instance axum : Axum.
Proof.
  refine {| dispatch := find_route; extract := read_body; extract_health _ := None;
            extract_query q := inr {| q_owner_id := q; q_after := None |} |}.
  - intros rs method path h. unfold find_route.
    destruct (list_find _ rs) as [[i [p mr]]|] eqn:Hf; [|done]. apply list_find_Some in Hf as (Hi & <- & _).
    cbn. intros Hh. exists mr. split; [by eapply list_elem_of_lookup_2|].
    destruct mr, method; cbn in Hh |- *; try discriminate Hh; by injection Hh.
  - intros h body r Hr. destruct h; try discriminate Hr. by injection Hr as <-.
Defined.

Definition routing : RoutingOptions :=
  {| group_count := 2; routing_prefix_segments := 1; max_inflight_per_group := 8 |}.
(** Alice is recorded to wait for an owner that is gone. *)
Definition stale_edge : Command :=
  {| request_id := None; cmd_now_ms := 1000;
     cmd_op := SetWaitEdge (bs "alice") {| conflict_owner := bs "ghost"; metadata := None |} 60000 |}.
Definition n0 : Node :=
  {| router := router_new;
     world := (propose SYS_GROUP stale_edge {| st_db := (∅ : gmap cf (gmap bytes bytes)); st_now := 1000 |}).2
              : World;
     events := [] |}.
Definition early (path : string) : option (list Response) * list Proto.Event * Node :=
  handle_request (λ _, 0) hash routing dflt 1 (bs "1:7:1000") true POST (bs path) [] [Chunk [bs "alice"]] false n0.

Lemma early_data_is_read_only_witness :
  (early "/v1/detectCycle").1.2 = [] ∧ (early "/v1/acquire").1.1 = Some [bare TOO_EARLY].
Proof.
  pose proof (early_data_is_read_only (λ _, 0) hash routing dflt 1 (bs "1:7:1000") POST (bs "/v1/detectCycle") []
    [Chunk [bs "alice"]] false n0) as H1.
  pose proof (early_data_is_read_only (λ _, 0) hash routing dflt 1 (bs "1:7:1000") POST (bs "/v1/acquire") []
    [Chunk [bs "alice"]] false n0) as H2.
  unfold early. destruct (handle_request _ _ _ _ _ _ true POST (bs "/v1/detectCycle") _ _ _ _) as [[r evs] n'].
  destruct (handle_request _ _ _ _ _ _ true POST (bs "/v1/acquire") _ _ _ _) as [[r' evs'] n''].
  destruct H1 as [-> _]. destruct H2 as (_ & _ & H2). split; [reflexivity|]. by apply H2.
Defined.

Definition clears_alice (e : event) : bool :=
  match e with
  | Proposed g cmd (inr _) =>
      (g =? SYS_GROUP) && match cmd_op cmd with ClearWaitEdge o => bool_decide (o = bs "alice") | _ => false end
  | _ => false
  end.
Lemma clears_alice_spec l :
  existsb clears_alice l = true →
  ∃ cmd resp, Proposed SYS_GROUP cmd (inr resp) ∈ l ∧ cmd_op cmd = ClearWaitEdge (bs "alice").
Proof.
  intros ([g cmd r|] & Hin%list_elem_of_In & Hb)%existsb_exists; [|done]. cbn in Hb.
  destruct r as [|resp]; [done|]. apply andb_prop in Hb as [->%Z.eqb_eq Hb].
  destruct (cmd_op cmd) eqn:Ho; try done. apply bool_decide_eq_true_1 in Hb as ->. by exists cmd, resp.
Qed.
(** Early data does write: looking for a cycle clears the stale edge. *)
Lemma early_detect_cycle_writes :
  ∃ cmd resp, Proposed SYS_GROUP cmd (inr resp) ∈ events (early "/v1/detectCycle").2 ∧
    cmd_op cmd = ClearWaitEdge (bs "alice").
Proof. apply clears_alice_spec. vm_compute. reflexivity. Qed.
End WebWitness.
