(* ===== verification/ServiceStream.v ===== *)
(** * Streamed acquires ([AcquireStream] of [src/service.rs])

    The chunks of a stream are pieces of one request; the handler merges them and
    acquires once, or refuses without touching any lock. *)

From Stdlib Require Import ZArith NArith Lia Strings.Byte.
From stdpp Require Import sorting countable base numbers gmap strings list.
From S2P Require Import Prelude RustStd StoreKeys Store Snapshot Instances Grpc Proto.
From S2P Require Import EngineTypes Validate.
From S2P Require Import Engine Placement Queue Command Codecs StateMachine Reads Router.
From S2P Require Import RouterOps RouterApi.
From S2P Require Import RouterReads MiniCluster Service.
Local Open Scope Z_scope.

(** ** Pieces of a request *)

(** The values of a field over the chunks: unset or all the same. *)
Definition agrees {A} (unset : A) (xs : list A) (v : A) : Prop := (∀ x, x ∈ xs → x = unset ∨ x = v) ∧ v ∈ xs.
Record splits (chunks : list Proto.AcquireRequest) (req : Proto.AcquireRequest) : Prop := {
  sp_owner : agrees [] (Proto.aq_owner_id <$> chunks) (Proto.aq_owner_id req);
  sp_ttl : agrees 0 (Proto.aq_ttl_ms <$> chunks) (Proto.aq_ttl_ms req);
  sp_token : agrees 0 (Proto.aq_fencing_token <$> chunks) (Proto.aq_fencing_token req);
  sp_queue_ttl : agrees 0 (Proto.aq_queue_ttl_ms <$> chunks) (Proto.aq_queue_ttl_ms req);
  sp_key : agrees [] (Proto.aq_idempotency_key <$> chunks) (Proto.aq_idempotency_key req);
  sp_requests : Proto.aq_requests req = concat (Proto.aq_requests <$> chunks);
  sp_releases : Proto.aq_release_requests req = concat (Proto.aq_release_requests <$> chunks)
}.

Definition chunk_paths (chunk : Proto.AcquireRequest) : Z :=
  len (Proto.aq_requests chunk) + len (Proto.aq_release_requests chunk).
Definition total (f : Proto.AcquireRequest → Z) (chunks : list Proto.AcquireRequest) : Z :=
  foldr (λ c n, f c + n) 0 chunks.
Record within_limits (encoded_len : Proto.AcquireRequest → Z) (chunks : list Proto.AcquireRequest) : Prop := {
  wl_bytes : total encoded_len chunks ≤ MAX_STREAMED_ACQUIRE_BYTES;
  wl_chunk chunk : chunk ∈ chunks → chunk_paths chunk ≤ MAX_PATHS_PER_REQUEST;
  wl_paths : total chunk_paths chunks ≤ MAX_PATHS_PER_STREAMED_ACQUIRE
}.

(** ** Merging *)

Lemma merge_field_agrees {A} `{EqDecision A} (unset b c : A) msg xs v :
  agrees unset (b :: c :: xs) v ↔ ∃ b', merge_field unset b c msg = Served b' ∧ agrees unset (b' :: xs) v.
Proof.
  unfold agrees, merge_field. setoid_rewrite elem_of_cons. setoid_rewrite elem_of_cons.
  case_bool_decide as Hc; [subst|case_bool_decide as Hb; [subst|case_bool_decide as Hbc; [subst|]]]; split.
  - intros [Hall Hv]. exists b. split; [done|]. split; [naive_solver|].
    destruct (Hall b ltac:(by left)), Hv as [?|[?|?]]; naive_solver.
  - intros (b' & [= <-] & Hall & Hv). split; naive_solver.
  - intros [Hall Hv]. exists c. split; [done|]. split; [naive_solver|].
    destruct (Hall c ltac:(auto)), Hv as [?|[?|?]]; naive_solver.
  - intros (b' & [= <-] & Hall & Hv). split; naive_solver.
  - intros [Hall Hv]. exists c. split; [done|]. split; naive_solver.
  - intros (b' & [= <-] & Hall & Hv). split; naive_solver.
  - intros [Hall _]. destruct (Hall b), (Hall c); naive_solver.
  - by intros (b' & ? & _).
Qed.
Lemma splits_merge b c chunks req :
  splits (b :: c :: chunks) req ↔
  ∃ b', merge_acquire_stream_chunk b c = Served b' ∧ splits (b' :: chunks) req.
Proof.
  unfold merge_acquire_stream_chunk, mbind, served_bind. split.
  - intros [Ho Ht Hf Hq Hk Hr Hl]. rewrite !fmap_cons in *.
    apply (merge_field_agrees _ _ _ (bs "acquire stream owner_id changed between chunks")) in Ho as (o & -> & Ho).
    apply (merge_field_agrees _ _ _ (bs "acquire stream ttl_ms changed between chunks")) in Ht as (t & -> & Ht).
    apply (merge_field_agrees _ _ _ (bs "acquire stream fencing_token changed between chunks")) in Hf as (f & -> & Hf).
    apply (merge_field_agrees _ _ _ (bs "acquire stream queue_ttl_ms changed between chunks")) in Hq as (q & -> & Hq).
    apply (merge_field_agrees _ _ _ (bs "acquire stream idempotency_key changed between chunks")) in Hk as (k & -> & Hk).
    eexists. split; [reflexivity|]. split; rewrite ?fmap_cons; cbn; [done..| |].
    + by rewrite Hr, <- app_assoc.
    + by rewrite Hl, <- app_assoc.
  - intros (b' & Hm & [Ho Ht Hf Hq Hk Hr Hl]). rewrite !fmap_cons in *.
    do 5 (destruct (merge_field _ _ _ _) eqn:? in Hm; [|done]). injection Hm as <-. cbn in *.
    split; rewrite ?fmap_cons; try (eapply merge_field_agrees; by eexists).
    + cbn. by rewrite Hr, <- app_assoc.
    + cbn. by rewrite Hl, <- app_assoc.
Qed.
Lemma splits_one b req : splits [b] req ↔ req = b.
Proof.
  split.
  - intros [[_ Ho] [_ Ht] [_ Hf] [_ Hq] [_ Hk] Hr Hl]. cbn in *.
    apply list_elem_of_singleton in Ho, Ht, Hf, Hq, Hk. rewrite app_nil_r in Hr, Hl. destruct req, b. cbn in *. by subst.
  - intros ->. split; rewrite ?fmap_cons; try (split; [intros x ->%list_elem_of_singleton; by right|by left]);
      cbn; by rewrite app_nil_r.
Qed.

(** ** The loop *)
Section loop.
Context (encoded_len : Proto.AcquireRequest → Z) (Hlen : ∀ c, 0 ≤ encoded_len c).

Lemma chunk_paths_pos c : 0 ≤ chunk_paths c.
Proof. unfold chunk_paths, len. lia. Qed.
Lemma total_pos f cs : (∀ c, 0 ≤ f c) → 0 ≤ total f cs.
Proof. intros Hf. induction cs as [|c cs IH]; cbn; [done|]. specialize (Hf c). fold (total f cs). lia. Qed.
Lemma checked_add_small a b : a + b ≤ u64_max → checked_add a b = Some (a + b).
Proof. unfold checked_add. intros. by destruct (Z.leb_spec (a + b) u64_max); [|lia]. Qed.

(** Counters before a chunk; the bounds keep the sums far from overflow. *)
Definition counting (st : stream_state) : Prop :=
  0 ≤ ss_bytes st ≤ MAX_STREAMED_ACQUIRE_BYTES ∧ 0 ≤ ss_paths st ≤ MAX_PATHS_PER_STREAMED_ACQUIRE.

Definition counted (st : stream_state) (c merged : Proto.AcquireRequest) : stream_state :=
  {| ss_merged := Some merged; ss_paths := ss_paths st + chunk_paths c;
     ss_bytes := ss_bytes st + encoded_len c |}.
Lemma counting_next st c merged :
  counting st → ss_bytes st + encoded_len c ≤ MAX_STREAMED_ACQUIRE_BYTES →
  ss_paths st + chunk_paths c ≤ MAX_PATHS_PER_STREAMED_ACQUIRE → counting (counted st c merged).
Proof.
  intros [? ?] ? ?. pose proof (Hlen c). pose proof (chunk_paths_pos c).
  split; cbn [counted ss_bytes ss_paths]; lia.
Qed.

(** What a chunk is merged into. *)
Definition merged_with (st : stream_state) (c : Proto.AcquireRequest) : served Proto.AcquireRequest :=
  match ss_merged st with Some base => merge_acquire_stream_chunk base c | None => Served c end.

Lemma stream_chunk_ok st c st' :
  counting st → stream_chunk encoded_len st (Served c) = Served st' ↔
  ss_bytes st + encoded_len c ≤ MAX_STREAMED_ACQUIRE_BYTES ∧ chunk_paths c ≤ MAX_PATHS_PER_REQUEST ∧
  ss_paths st + chunk_paths c ≤ MAX_PATHS_PER_STREAMED_ACQUIRE ∧
  ∃ merged, merged_with st c = Served merged ∧
    st' = counted st c merged.
Proof.
  intros [Hb Hp]. unfold stream_chunk, mbind, served_bind. specialize (Hlen c). pose proof (chunk_paths_pos c).
  destruct (decide (ss_bytes st + encoded_len c ≤ MAX_STREAMED_ACQUIRE_BYTES)) as [Hle|Hgt].
  2: { split; [|naive_solver]. unfold checked_add. destruct (_ <=? u64_max); [|done].
       destruct (Z.ltb_spec MAX_STREAMED_ACQUIRE_BYTES (ss_bytes st + encoded_len c)); [done|lia]. }
  rewrite checked_add_small by (unfold u64_max, MAX_STREAMED_ACQUIRE_BYTES in *; lia).
  destruct (Z.ltb_spec MAX_STREAMED_ACQUIRE_BYTES (ss_bytes st + encoded_len c)); [lia|].
  fold (chunk_paths c). destruct (Z.ltb_spec MAX_PATHS_PER_REQUEST (chunk_paths c)); [split; [done|lia]|].
  rewrite checked_add_small
    by (unfold u64_max, MAX_PATHS_PER_STREAMED_ACQUIRE, MAX_PATHS_PER_REQUEST in *; lia).
  destruct (Z.ltb_spec MAX_PATHS_PER_STREAMED_ACQUIRE (ss_paths st + chunk_paths c)); [split; [done|lia]|].
  fold (merged_with st c). destruct (merged_with st c) as [m|]; split; naive_solver.
Qed.

Lemma stream_chunks_ok st base chunks req :
  counting st → ss_merged st = Some base →
  (∃ st', stream_chunks encoded_len st (Served <$> chunks) = Served st' ∧ ss_merged st' = Some req) ↔
  ss_bytes st + total encoded_len chunks ≤ MAX_STREAMED_ACQUIRE_BYTES ∧
  (∀ c, c ∈ chunks → chunk_paths c ≤ MAX_PATHS_PER_REQUEST) ∧
  ss_paths st + total chunk_paths chunks ≤ MAX_PATHS_PER_STREAMED_ACQUIRE ∧ splits (base :: chunks) req.
Proof.
  revert st base. induction chunks as [|c chunks IH]; intros st base Hc Hm.
  { cbn. rewrite splits_one. destruct Hc. split.
    - intros (st' & [= <-] & Hst). split_and!; [lia| |lia|congruence]. by intros c ?%not_elem_of_nil.
    - intros (_ & _ & _ & ->). by exists st. }
  pose proof (total_pos encoded_len chunks Hlen). pose proof (total_pos chunk_paths chunks chunk_paths_pos).
  pose proof (Hlen c). pose proof (chunk_paths_pos c).
  rewrite fmap_cons. cbn [stream_chunks total foldr]. fold (total encoded_len chunks) (total chunk_paths chunks).
  rewrite splits_merge. split.
  - intros (st' & Hrun & Hst). unfold mbind, served_bind in Hrun.
    destruct (stream_chunk encoded_len st (Served c)) as [st1|] eqn:Hst1; [|done].
    apply stream_chunk_ok in Hst1 as (Hb & Hp & Ht & b' & Hb' & ->); [|done].
    destruct (proj1 (IH (counted st c b') b' ltac:(by apply counting_next) eq_refl) ltac:(by exists st'))
      as (? & Hps & ? & ?).
    cbn [counted ss_bytes ss_paths] in *. split_and!; [lia| |lia|].
    + intros c' [->|?]%elem_of_cons; auto.
    + exists b'. split; [|done]. unfold merged_with in Hb'. by rewrite Hm in Hb'.
  - intros (Hb & Hps & Ht & b' & Hb' & Hs).
    assert (stream_chunk encoded_len st (Served c) = Served (counted st c b')) as ->.
    { apply stream_chunk_ok; [done|]. split_and!; [lia|apply Hps; by left|lia|]. exists b'. unfold merged_with. by rewrite Hm. }
    apply (IH (counted st c b') b'); [apply counting_next; [done|lia..]|done|]. cbn [counted ss_bytes ss_paths]. split_and!; [lia| |lia|done].
    intros c' ?. apply Hps. by right.
Qed.

Lemma merge_stream_exact chunks req :
  merge_stream encoded_len (Served <$> chunks) = Served req ↔ splits chunks req ∧ within_limits encoded_len chunks.
Proof.
  assert (merge_stream encoded_len (Served <$> chunks) = Served req ↔
    ∃ st', stream_chunks encoded_len stream_start (Served <$> chunks) = Served st' ∧ ss_merged st' = Some req) as ->.
  { unfold merge_stream, mbind, served_bind, invalid_argument. destruct (stream_chunks _ _ _) as [st|]; [|naive_solver].
    destruct (ss_merged st) eqn:Hm; naive_solver. }
  destruct chunks as [|c chunks].
  { split; [by intros (st' & [= <-] & ?)|]. intros [[[_ Ho%not_elem_of_nil]] _]. done. }
  assert (counting stream_start) as Hstart by done.
  pose proof (total_pos encoded_len chunks Hlen). pose proof (total_pos chunk_paths chunks chunk_paths_pos).
  pose proof (Hlen c). pose proof (chunk_paths_pos c).
  rewrite fmap_cons. cbn [stream_chunks].
  set (st1 := counted stream_start c c).
  pose proof (stream_chunk_ok stream_start c st1 Hstart) as [_ Hok]. cbn [ss_bytes ss_paths stream_start] in Hok. split.
  - intros (st' & Hrun & Hst). unfold mbind, served_bind in Hrun.
    destruct (stream_chunk encoded_len stream_start (Served c)) as [st|] eqn:Hst1; [|done].
    apply stream_chunk_ok in Hst1 as (Hb & Hp & Ht & b' & [= <-] & ->); [|done]. cbn in *.
    destruct (proj1 (stream_chunks_ok st1 c chunks req ltac:(by apply counting_next) eq_refl) ltac:(by exists st'))
      as (Hb2 & Hps & Hp2 & ?).
    split; [done|]. unfold st1 in *. cbn in *. split; [cbn; fold (total encoded_len chunks); lia| |cbn; fold (total chunk_paths chunks); lia].
    intros c' [->|?]%elem_of_cons; auto.
  - intros [Hs [Hb Hc Hp]]. cbn in Hb, Hp. fold (total encoded_len chunks) in Hb. fold (total chunk_paths chunks) in Hp.
    pose proof (Hc c ltac:(by left)). unfold mbind, served_bind. rewrite Hok.
    2: { split_and!; [lia|done|lia|]. by exists c. }
    apply (stream_chunks_ok st1 c); [apply counting_next; [done|cbn; lia..]|done|]. unfold st1. cbn. split_and!; [lia| |lia|done].
    intros c' ?. apply Hc. by right.
Qed.
End loop.

Lemma broken_stream encoded_len st items s0 :
  Refused s0 ∈ items → ∃ s, stream_chunks encoded_len st items = Refused s.
Proof.
  revert st. induction items as [|item items IH]; intros st; [by intros ?%not_elem_of_nil|].
  cbn [stream_chunks]. unfold mbind, served_bind at 1. intros [<-|Hin]%elem_of_cons; [by exists s0|].
  destruct (stream_chunk encoded_len st item) as [st1|s]; [by apply IH|by exists s].
Qed.

(** C28: A streamed acquire is one acquire.  When the chunks are the pieces of one request (every scalar field unset
    or the same in all of them, the path lists concatenated) within the limits, the stream behaves exactly as the
    acquire of that request; otherwise, or when the stream breaks off with an error, it is refused and the node is
    left as it was, with no event published: nothing is acquired chunk by chunk. *)
Theorem stream_is_one_acquire `{!Bincode StoredRecord, !RocksDb, !Cluster}
    `{!Bincode Command, !Bincode ReadOp}
    `{!Bincode (ForwardError + ApplyResponse), !Bincode (ForwardError + ReadResult)}
    encoded_len xxh3_64 routing dflt node_id own_client_id n :
  (∀ c, 0 ≤ encoded_len c) →
  let stream := λ items,
    PathLock.acquire_stream encoded_len xxh3_64 routing dflt node_id own_client_id items n in
  (∀ chunks req, splits chunks req → within_limits encoded_len chunks →
     stream (Served <$> chunks) =
     handle_acquire_request xxh3_64 routing dflt node_id own_client_id req MAX_PATHS_PER_STREAMED_ACQUIRE n) ∧
  (∀ chunks, ¬ (∃ req, splits chunks req ∧ within_limits encoded_len chunks) →
     ∃ s, stream (Served <$> chunks) = (Some (Refused s), [], n)) ∧
  (∀ items s0, Refused s0 ∈ items → ∃ s, stream items = (Some (Refused s), [], n)).
Proof.
  intros Hlen stream. unfold stream, PathLock.acquire_stream, mbind at 1, sm_bind at 1, check at 1. split_and!.
  - intros chunks req Hs Hl. rewrite (proj2 (merge_stream_exact encoded_len Hlen chunks req)) by done.
    by destruct (handle_acquire_request _ _ _ _ _ _ _ n) as [[r evs] n'].
  - intros chunks Hno. destruct (merge_stream encoded_len (Served <$> chunks)) as [req|s] eqn:Hm; [|by exists s].
    destruct Hno. exists req. by apply merge_stream_exact.
  - intros items s0 Hin. unfold merge_stream, mbind, served_bind.
    destruct (broken_stream encoded_len stream_start items s0 Hin) as [s ->]. by exists s.
Qed.

Module StreamWitness.
Import Mini.
#[local] Existing Instance ref_bincode.
#[local] Existing Instance ref_rocksdb.
#[local] Instance cluster : Cluster := mini true.

Definition routing : RoutingOptions :=
  {| group_count := 4; routing_prefix_segments := 1; max_inflight_per_group := 8 |}.
Definition piece (owner : string) (paths : list string) : Proto.AcquireRequest :=
  {| Proto.aq_owner_id := bs owner; Proto.aq_ttl_ms := 5000;
     Proto.aq_requests := (λ p, {| Proto.lq_path := bs p; Proto.lq_mode := 0; Proto.lq_state := 0;
                                   Proto.lq_permits := 0 |}) <$> paths;
     Proto.aq_fencing_token := 0; Proto.aq_release_requests := []; Proto.aq_idempotency_key := [];
     Proto.aq_queue_ttl_ms := 0 |}.
Definition pieces : list Proto.AcquireRequest := [piece "alice" ["fs:/a/x"]; piece "" ["fs:/a/y"; "fs:/a/z"]].
Definition whole : Proto.AcquireRequest := piece "alice" ["fs:/a/x"; "fs:/a/y"; "fs:/a/z"].
Definition n0 : Node :=
  {| router := router_new; world := ({| st_db := (∅ : gmap cf (gmap bytes bytes)); st_now := 1000 |} : World);
     events := [] |}.
Lemma pieces_split : splits pieces whole.
Proof.
  split; cbn [pieces fmap list_fmap]; try reflexivity.
  all: split; [|by left]; intros x Hx; repeat (apply elem_of_cons in Hx as [->|Hx]; [auto|]); by apply not_elem_of_nil in Hx.
Qed.
Lemma pieces_small : within_limits (λ _, 100) pieces.
Proof. split; [done| |done]. by intros c [-> | Hc%list_elem_of_singleton]%elem_of_cons; [|subst]. Qed.

(** Two chunks, the second without the scalar fields, are the acquire of three paths. *)
Lemma stream_is_one_acquire_witness :
  PathLock.acquire_stream (λ _, 100) hash routing dflt 1 (bs "1:7:1000") (Served <$> pieces) n0 =
  handle_acquire_request hash routing dflt 1 (bs "1:7:1000") whole MAX_PATHS_PER_STREAMED_ACQUIRE n0.
Proof.
  exact (proj1 (stream_is_one_acquire (λ _, 100) hash routing dflt 1 (bs "1:7:1000") n0 ltac:(intros; lia))
    pieces whole pieces_split pieces_small).
Defined.
End StreamWitness.
