(* ===== verification/ApplySim.v ===== *)
(** * The apply layer over related transactions

    Every queue and state-machine operation computes the same result over two
    transactions related by a [RawSim]; together with [write_txn_raw_sim] this
    moves reasoning from a [WriteTxn] over a database to one group's keyspace. *)

From Stdlib Require Import ZArith NArith Lia Strings.Byte.
From stdpp Require Import sorting countable base numbers gmap strings list.
From S2P Require Import Prelude RustStd StoreKeys Store StoreScan StoreSim EngineTypes Engine.
From S2P Require Import Paths Placement Queue Command StateMachine.
Local Open Scope Z_scope.

(** What the queue operations write. *)
Definition queue_write : footprint := λ c k w,
  match c, w with
  | CF_QUEUE, WSet _ | CF_QUEUE, WDel => true
  | CF_META, WRaw => bool_decide (k = META_QUEUE_SEQ_KEY ∨ k = META_QUEUE_COUNT_KEY)
  | _, _ => false
  end.

(** What the state machine writes besides: the GC cursor, the directory, and
    deletions from the expiry index.  Writes of the fence counter ([mint_fence_if_needed],
    [incr_fence_inner]) and deletions of the records the index names ([gc_sweep])
    are not included. *)
Definition is_dir (k : bytes) : bool := starts_with (bs "dir:") k.
Definition is_draining (k : bytes) : bool := starts_with (bs "draining:") k.
Definition meta_write : footprint := λ c k w,
  match c, w with
  | CF_META, WRaw => bool_decide (k = META_GC_CURSOR_KEY) || is_dir k || is_draining k
  | CF_META, WDel => is_draining k
  | CF_EXPIRY, WDel => true
  | _, _ => false
  end.
Definition apply_write : footprint := λ c k w,
  lock_write c k w || policy_write c k w || queue_write c k w || meta_write c k w.

Section apply_sims.
Context `{!Bincode StoredRecord, !Bincode QueueEntry, !Bincode GroupRecord}.
Context `{!RawTxn T, !RawTxn U} (R : T → U → Prop).

Section queue_sims.
Context `{!RawSim queue_write R}.

Lemma sim_now : sim R (asks now_ms) (asks now_ms).
Proof. apply sim_asks_now. apply _. Qed.
#[local] Hint Resolve sim_now : sim.

Lemma sim_next_seq : sim R next_seq next_seq.
Proof. unfold next_seq. solve_sim. Qed.
Lemma sim_set_queue_count n : sim R (set_queue_count n) (set_queue_count n).
Proof. unfold set_queue_count. solve_sim. Qed.
#[local] Hint Resolve sim_next_seq sim_set_queue_count : sim.
Lemma sim_queue_count : sim R queue_count queue_count.
Proof. unfold queue_count. solve_sim. Qed.
#[local] Hint Resolve sim_queue_count : sim.
Lemma sim_reserve_queue_units a b : sim R (reserve_queue_units a b) (reserve_queue_units a b).
Proof. unfold reserve_queue_units. solve_sim. Qed.
Lemma sim_release_queue_units a : sim R (release_queue_units a) (release_queue_units a).
Proof. unfold release_queue_units. solve_sim. Qed.
Lemma sim_owner_seq o : sim R (owner_seq o) (owner_seq o).
Proof. unfold owner_seq. solve_sim. Qed.
Lemma sim_read_entry n : sim R (read_entry n) (read_entry n).
Proof. unfold read_entry. solve_sim. Qed.
Lemma sim_write_path_indexes e ttl : sim R (write_path_indexes e ttl) (write_path_indexes e ttl).
Proof. unfold write_path_indexes. solve_sim. Qed.
Lemma sim_delete_path_indexes e : sim R (delete_path_indexes e) (delete_path_indexes e).
Proof. unfold delete_path_indexes. solve_sim. Qed.
#[local] Hint Resolve sim_reserve_queue_units sim_release_queue_units sim_owner_seq sim_read_entry
  sim_write_path_indexes sim_delete_path_indexes : sim.
Lemma sim_expire_entry k : sim R (expire_entry k) (expire_entry k).
Proof. unfold expire_entry. solve_sim. Qed.
#[local] Hint Resolve sim_expire_entry : sim.
Lemma sim_enqueue ns args pol : sim R (enqueue ns args pol) (enqueue ns args pol).
Proof. unfold enqueue, enqueue_seq. solve_sim. Qed.
Lemma sim_dequeue o : sim R (dequeue o) (dequeue o).
Proof. unfold dequeue. solve_sim. Qed.
Lemma sim_scan : sim R scan scan.
Proof. unfold scan. solve_sim. Qed.
Lemma sim_scan_all : sim R scan_all scan_all.
Proof. unfold scan_all. solve_sim. Qed.
#[local] Hint Resolve sim_enqueue sim_dequeue sim_scan sim_scan_all : sim.
Lemma sim_queue_clear_namespace ns l p :
  sim R (Queue.clear_namespace ns l p) (Queue.clear_namespace ns l p).
Proof. unfold Queue.clear_namespace. solve_sim. Qed.
Lemma sim_owner_holds_or_covers o p m a :
  sim R (owner_holds_or_covers o p m a) (owner_holds_or_covers o p m a).
Proof. unfold owner_holds_or_covers. solve_sim. Qed.
Lemma sim_collect_path_seqs op lo hi out :
  sim R (collect_path_seqs op lo hi out) (collect_path_seqs op lo hi out).
Proof. unfold collect_path_seqs. solve_sim. Qed.
#[local] Hint Resolve sim_queue_clear_namespace sim_owner_holds_or_covers sim_collect_path_seqs : sim.
Lemma sim_collect_exact out p : sim R (collect_exact_path_seqs out p) (collect_exact_path_seqs out p).
Proof. apply sim_collect_path_seqs. Qed.
Lemma sim_collect_prefixed out p :
  sim R (collect_prefixed_path_seqs out p) (collect_prefixed_path_seqs out p).
Proof. apply sim_collect_path_seqs. Qed.
#[local] Hint Resolve sim_collect_exact sim_collect_prefixed : sim.
Lemma sim_collect_candidates d out p : sim R (collect_candidates d out p) (collect_candidates d out p).
Proof. unfold collect_candidates. solve_sim. Qed.
#[local] Hint Resolve sim_collect_candidates : sim.
Lemma sim_blocked_by_earlier ns args pol :
  sim R (blocked_by_earlier ns args pol) (blocked_by_earlier ns args pol).
Proof. unfold blocked_by_earlier, admission_step. solve_sim. Qed.

Section sweeps.
Context (try_t : str → AcquireArgs → LockPolicy → txm T AcquireOutcome).
Context (try_u : str → AcquireArgs → LockPolicy → txm U AcquireOutcome).
Context (Htry : ∀ ns args pol, sim R (try_t ns args pol) (try_u ns args pol)).
Lemma sim_run_grant_sweep es : sim R (run_grant_sweep try_t es) (run_grant_sweep try_u es).
Proof. unfold run_grant_sweep, sweep_step. solve_sim. Qed.
#[local] Hint Resolve sim_run_grant_sweep : sim.
Lemma sim_grant_sweep : sim R (grant_sweep try_t) (grant_sweep try_u).
Proof. unfold grant_sweep. solve_sim. Qed.
Lemma sim_grant_sweep_for_paths ps :
  sim R (grant_sweep_for_paths try_t ps) (grant_sweep_for_paths try_u ps).
Proof. unfold grant_sweep_for_paths, read_entries. solve_sim. Qed.
End sweeps.
End queue_sims.

(** The operations of the state machine. *)
Context `{!RawSim apply_write R}.
#[local] Instance apply_lock_sim : StoreSim lock_write R.
Proof.
  apply (store_sim_sub R _ apply_write); [|apply _].
  intros c k w H. unfold apply_write. by rewrite H.
Qed.
#[local] Instance apply_policy_sim : StoreSim policy_write R.
Proof.
  apply (store_sim_sub R _ apply_write); [|apply _].
  intros c k w H. unfold apply_write. by rewrite H, orb_true_r.
Qed.
#[local] Instance apply_queue_sim : RawSim queue_write R.
Proof.
  apply (raw_sim_sub R _ apply_write); [|apply _].
  intros c k w H. unfold apply_write. by rewrite H, orb_true_r.
Qed.
#[local] Instance apply_meta_sim : RawSim meta_write R.
Proof.
  apply (raw_sim_sub R _ apply_write); [|apply _].
  intros c k w H. unfold apply_write. by rewrite H, !orb_true_r.
Qed.
#[local] Hint Resolve sim_now sim_enqueue sim_dequeue sim_scan sim_scan_all sim_expire_entry
  sim_queue_clear_namespace : sim.

Lemma sim_sweep_grants : sim R sweep_grants sweep_grants.
Proof. apply sim_grant_sweep. unfold sweep_try. solve_sim. Qed.
Lemma sim_sweep_grants_for_paths ps : sim R (sweep_grants_for_paths ps) (sweep_grants_for_paths ps).
Proof. apply sim_grant_sweep_for_paths. unfold sweep_try. solve_sim. Qed.
Lemma sim_read_fence_counter : sim R read_fence_counter read_fence_counter.
Proof. unfold read_fence_counter. solve_sim. Qed.
#[local] Hint Resolve sim_sweep_grants sim_sweep_grants_for_paths sim_read_fence_counter
  sim_blocked_by_earlier : sim.

(** Fencing tokens come from the group's counter. *)
Section fence.
Context (Hput : ∀ n, sim R (write_fence_counter n) (write_fence_counter n)).
Lemma sim_mint_fence_if_needed ns args alg :
  sim R (mint_fence_if_needed ns args alg) (mint_fence_if_needed ns args alg).
Proof. unfold mint_fence_if_needed, max_fence_step. solve_sim. Qed.
Lemma sim_incr_fence_inner : sim R incr_fence_inner incr_fence_inner.
Proof. unfold incr_fence_inner. solve_sim. Qed.
End fence.

Lemma sim_acquire_granted ns args a tok :
  sim R (acquire_granted ns args a tok) (acquire_granted ns args a tok).
Proof. unfold acquire_granted. solve_sim. Qed.
#[local] Hint Resolve sim_acquire_granted : sim.
Lemma sim_acquire_minted ns pol args :
  sim R (acquire_minted ns pol args) (acquire_minted ns pol args).
Proof. unfold acquire_minted. solve_sim. Qed.
#[local] Hint Resolve sim_acquire_minted : sim.

Section ops.
Context (Hmint : ∀ ns args alg,
  sim R (mint_fence_if_needed ns args alg) (mint_fence_if_needed ns args alg)).
Context (Hincr : sim R incr_fence_inner incr_fence_inner).

Lemma sim_execute_acquire ns args pol :
  sim R (execute_acquire ns args pol) (execute_acquire ns args pol).
Proof. unfold execute_acquire. solve_sim. Qed.
Lemma sim_collect_namespace_holds ns l p :
  sim R (collect_namespace_holds ns l p) (collect_namespace_holds ns l p).
Proof. unfold collect_namespace_holds. solve_sim. Qed.
Lemma sim_preserved_roots ns : sim R (preserved_roots ns) (preserved_roots ns).
Proof. unfold preserved_roots. solve_sim. Qed.
#[local] Hint Resolve sim_execute_acquire sim_collect_namespace_holds sim_preserved_roots : sim.
Lemma sim_clear_namespace ns l : sim R (clear_namespace ns l) (clear_namespace ns l).
Proof. unfold clear_namespace. solve_sim. Qed.
#[local] Hint Resolve sim_clear_namespace : sim.

(** A sweep deletes the records the expiry index names. *)
Section gc.
Context (Hdel : ∀ c k, sim R (delete_raw c k) (delete_raw c k)).
Lemma sim_gc_reclaim c k : sim R (gc_reclaim c k) (gc_reclaim c k).
Proof. unfold gc_reclaim, force_release_inner. solve_sim. Qed.
#[local] Hint Resolve sim_gc_reclaim : sim.
Lemma sim_gc_sweep now b : sim R (gc_sweep now b) (gc_sweep now b).
Proof. unfold gc_sweep, gc_entry. solve_sim. Qed.
End gc.

Context (now : Z) (Hgc : ∀ b, sim R (gc_sweep now b) (gc_sweep now b)).
Lemma sim_execute_op cmd d : sim R (execute_op cmd now d) (execute_op cmd now d).
Proof.
  unfold execute_op, set_namespace_policy, delete_namespace_policy, acquire_in_namespace,
    reject_stale_routing, reject_stale_policy_epoch, apply_directory_update,
    apply_set_draining, release_all_inner, force_release_inner.
  solve_sim.
Qed.
End ops.

End apply_sims.

(** ** Whole commands, over transactions that agree on every write *)
Section command_sims.
Context `{!Bincode StoredRecord, !Bincode QueueEntry, !Bincode GroupRecord}.
Context `{!RawTxn T, !RawTxn U} (R : T → U → Prop) `{!RawSim any_write R}.
#[local] Instance any_apply_sim : RawSim apply_write R.
Proof. by apply (raw_sim_sub R _ any_write). Qed.
#[local] Hint Resolve sim_now : sim.

Context `{!Bincode Op, !Bincode (Z * ApplyResponse)} (xxh3_64 : bytes → Z).
Lemma sim_cached_response cmd : sim R (cached_response xxh3_64 cmd) (cached_response xxh3_64 cmd).
Proof. unfold cached_response. solve_sim. Qed.
Lemma sim_remember_response cmd r :
  sim R (remember_response xxh3_64 cmd r) (remember_response xxh3_64 cmd r).
Proof. unfold remember_response. solve_sim. Qed.
Lemma sim_write_meta cmd a b c : sim R (write_meta cmd a b c) (write_meta cmd a b c).
Proof. unfold write_meta. solve_sim. Qed.

Lemma sim_run_command cmd now d : sim R (run_command cmd now d) (run_command cmd now d).
Proof.
  intros t u HR. unfold run_command. 
  assert (sim R (execute_op cmd now d) (execute_op cmd now d)) as Hop.
  { assert (∀ n, sim R (write_fence_counter n) (write_fence_counter n)) as Hput
      by (intros; by apply (sim_put_raw (W := any_write))).
    apply sim_execute_op; [apply _|..]; intros.
    - apply sim_mint_fence_if_needed; [apply _|done].
    - apply sim_incr_fence_inner; [apply _|done].
    - apply sim_gc_sweep; [apply _|]. intros. by apply (sim_delete_raw (W := any_write)). }
  pose proof (Hop t u HR) as H.
  destruct (execute_op cmd now d t) as [[a t']|e], (execute_op cmd now d u) as [[b u']|e'];
    try done.
  subst. by destruct e'.
Qed.

(** Related fresh transactions lead to the same response and related
    transactions to commit. *)
Lemma sim_apply_txn cmd last now ap d t u :
  R t u →
  match apply_txn xxh3_64 cmd last now ap d t, apply_txn xxh3_64 cmd last now ap d u with
  | Ok (r, Some t'), Ok (r', Some u') => r = r' ∧ R t' u'
  | Ok (r, None), Ok (r', None) => r = r'
  | Err e, Err e' => e = e'
  | _, _ => False
  end.
Proof.
  intros HR. unfold apply_txn. pose proof (sim_cached_response cmd t u HR) as Hc.
  destruct (cached_response xxh3_64 cmd t) as [[[r|] t1]|e],
    (cached_response xxh3_64 cmd u) as [[[r'|] u1]|e']; try (by destruct Hc); try done.
  { by destruct Hc as [[= ->] _]. }
  destruct Hc as [_ HR1]. pose proof (sim_run_command cmd now d t1 u1 HR1) as Hr.
  destruct (run_command cmd now d t1) as [[r t2]|e], (run_command cmd now d u1) as [[r' u2]|e'];
    try done.
  destruct Hr as [<- HR2]. simpl. destruct (commits r).
  - pose proof (sim_bind R _ _ _ _ (sim_remember_response cmd r)
      (λ _, sim_write_meta cmd last now ap) t2 u2 HR2) as Hf.
    destruct ((remember_response xxh3_64 cmd r;; write_meta cmd last now ap) t2) as [[??]|],
      ((remember_response xxh3_64 cmd r;; write_meta cmd last now ap) u2) as [[??]|];
      by destruct Hf.
  - pose proof (sim_write_meta cmd last now ap t u HR) as Hf.
    by destruct (write_meta cmd last now ap t) as [[??]|], (write_meta cmd last now ap u) as [[??]|];
      destruct Hf.
Qed.
End command_sims.
