(* ===== verification/ApplyKeeps.v ===== *)
(** * What applying a command leaves alone

    [execute_op_keeps]: an operation preserves every property of the keyspace that
    is kept by the writes of its footprint and by deletions of dead leased records
    (a GC sweep deletes what the expiry index names; [index_ok] says it names only
    leased families). *)

From Stdlib Require Import ZArith NArith Lia Strings.Byte.
From stdpp Require Import sorting countable base numbers gmap strings list.
From S2P Require Import Prelude RustStd StoreKeys Store StoreScan StoreSim KvView EngineTypes.
From S2P Require Import Engine.
From S2P Require Import EngineSafe Footprint Paths Placement Queue Command StateMachine.
From S2P Require Import ApplySim.
Local Open Scope Z_scope.

(** The families whose records carry an expiry. *)
Definition leased_family (c : cf) : bool :=
  match c with CF_OWNER_ALIVE | CF_WAIT_EDGES | CF_QUEUE | CF_DEDUPE => true | _ => false end.

Lemma apply_write_ttl c k ttl :
  apply_write c k (WSet ttl) = true → 0 < ttl → leased_family c = true.
Proof.
  unfold apply_write, lock_write, policy_write, queue_write, meta_write. intros H Ht.
  assert (ttl =? 0 = false) as H0 by (apply Z.eqb_neq; lia). rewrite H0 in H.
  destruct c; try done; simpl in H; rewrite ?andb_false_r in H; done.
Qed.
Lemma apply_write_index k w : apply_write CF_EXPIRY k w = true → w = WDel.
Proof.
  unfold apply_write, lock_write, policy_write, queue_write, meta_write.
  by destruct w.
Qed.

Section keeps.
Context `{!Bincode StoredRecord, !Bincode QueueEntry, !Bincode GroupRecord}.

(** Every entry of the expiry index that names a family names a leased one. *)
Definition index_names (ek : bytes) : option cf :=
  match decode_expiry_entry ek with Some (_, name, _) => static_cf_name name | None => None end.
Definition index_ok (s : Kv) : Prop :=
  ∀ ek c, is_Some (cf_map s CF_EXPIRY !! ek) → index_names ek = Some c → leased_family c = true.

(** Kept when a dead leased record is deleted. *)
Class GcClosed (I : Kv → Prop) : Prop :=
  gc_closed s c k b exp :
    leased_family c = true → cf_map s c !! k = Some b → record_expiry b = Some exp →
    expired exp (kv_now s) = true → I s → I (kv_del s c k).

Lemma static_cf_name_inv c : static_cf_name (cf_name c) = Some c.
Proof. by destruct c. Qed.

Lemma be_bytes_mod n m z : (n ≤ m)%nat → be_bytes n (z mod 256 ^ Z.of_nat m) = be_bytes n z.
Proof.
  induction n as [|n IH]; intros Hm; [done|].
  unfold be_bytes. fold be_bytes. rewrite IH by lia. f_equal.
  unfold byte_of. do 2 f_equal.
  replace (Z.of_nat m) with (Z.of_nat n + Z.of_nat (m - n)) by lia. rewrite Z.pow_add_r by lia.
  rewrite Z.rem_mul_r by lia. rewrite Z.add_comm, Z.mul_comm, Z.div_add_l by lia.
  rewrite (Z.div_small (z mod _)), Z.add_0_r by (apply Z.mod_pos_bound; lia).
  rewrite Z.mod_mod_divide; [done|].
  replace (Z.of_nat (m - n)) with (1 + Z.of_nat (m - n - 1)) by lia.
  rewrite Z.pow_add_r by lia. apply Z.divide_factor_l.
Qed.
Lemma index_names_key x c k : index_names (expiry_key x (cf_name c) k) = Some c.
Proof.
  unfold index_names, expiry_key. rewrite <- (be_bytes_mod 8 8) by lia.
  fold (expiry_key (x mod 256 ^ Z.of_nat 8) (cf_name c) k).
  rewrite decode_expiry_key; [apply static_cf_name_inv|].
  pose proof (Z.mod_pos_bound x (256 ^ Z.of_nat 8)) as H. unfold is_u64, u64_max.
  change (256 ^ Z.of_nat 8) with (2 ^ 64) in *. lia.
Qed.

(** ** Closed properties *)

Lemma cf_map_put_ttl_index s c k mk ttl ek :
  c ≠ CF_EXPIRY →
  cf_map (kv_put_ttl s c k mk ttl) CF_EXPIRY !! ek =
  if decide (0 < ttl ∧ index_key (kv_now s) c k ttl = ek)
  then Some (index_record (kv_now s) ttl) else cf_map s CF_EXPIRY !! ek.
Proof.
  intros Hc. unfold kv_put_ttl. destruct (Z.ltb_spec 0 ttl).
  - rewrite !cf_map_put. rewrite (decide_False (P := c = CF_EXPIRY ∧ _)) by tauto.
    repeat case_decide; tauto.
  - rewrite cf_map_put, !decide_False by (lia || tauto). done.
Qed.

#[export] Instance index_ok_closed : Closed apply_write index_ok.
Proof.
  split.
  - intros s c k mk ttl HW _ Hi ek c' Hek Hn.
    assert (c ≠ CF_EXPIRY) as Hc by (intros ->; by apply apply_write_index in HW).
    rewrite cf_map_put_ttl_index in Hek by done. case_decide as Hd; [|by eapply Hi].
    destruct Hd as [Ht <-]. unfold index_key in Hn. rewrite index_names_key in Hn.
    injection Hn as <-. by eapply apply_write_ttl.
  - intros s c k b HW Hi ek c' Hek Hn.
    assert (c ≠ CF_EXPIRY) as Hc by (intros ->; by apply apply_write_index in HW).
    rewrite cf_map_put, decide_False in Hek by naive_solver. by eapply Hi.
  - intros s c k HW Hi ek c' Hek Hn. rewrite cf_map_del in Hek. case_decide; [by destruct Hek|].
    by eapply Hi.
Qed.
#[export] Instance index_ok_gc : GcClosed index_ok.
Proof.
  intros s c k b exp Hl _ _ _ Hi ek c' Hek Hn. rewrite cf_map_del in Hek.
  case_decide; [by destruct Hek|]. by eapply Hi.
Qed.

#[export] Instance closed_and W (I J : Kv → Prop) : Closed W I → Closed W J → Closed W (λ s, I s ∧ J s).
Proof.
  intros [a1 a2 a3] [b1 b2 b3]. split; intros; destruct_and!; auto.
Qed.
#[export] Instance gc_and (I J : Kv → Prop) : GcClosed I → GcClosed J → GcClosed (λ s, I s ∧ J s).
Proof. intros HI HJ s c k b exp H1 H2 H3 H4 [H5 H6]. split; by eapply gc_closed. Qed.
#[export] Instance closed_now W now : Closed W (λ s, kv_now s = now).
Proof.
  split; [|done|done]. intros s c k mk ttl _ _ H. unfold kv_put_ttl. by destruct (0 <? ttl).
Qed.
#[export] Instance gc_now now : GcClosed (λ s, kv_now s = now).
Proof. by intros s c k b exp _ _ _ _ H. Qed.

(** A key no operation writes keeps its value. *)
Lemma key_closed_pred c k (P : option bytes → Prop) :
  c ≠ CF_EXPIRY → (∀ w, apply_write c k w = false) →
  Closed apply_write (λ s, P (cf_map s c !! k)).
Proof.
  intros Hc HW. split.
  - intros s c' k' mk ttl Hw _ HP. rewrite cf_map_put_ttl by done. case_decide as Hd; [|done].
    destruct Hd as [-> ->]. by rewrite HW in Hw.
  - intros s c' k' b Hw HP. rewrite cf_map_put. case_decide as Hd; [|done].
    destruct Hd as [-> ->]. by rewrite HW in Hw.
  - intros s c' k' Hw HP. rewrite cf_map_del. case_decide as Hd; [|done].
    destruct Hd as [-> ->]. by rewrite HW in Hw.
Qed.
Lemma key_gc_pred c k (P : option bytes → Prop) :
  leased_family c = false → GcClosed (λ s, P (cf_map s c !! k)).
Proof.
  intros Hc s c' k' b exp Hl _ _ _ HP. rewrite cf_map_del, decide_False; [done|].
  intros [-> _]. congruence.
Qed.
Lemma key_closed c k v :
  c ≠ CF_EXPIRY → (∀ w, apply_write c k w = false) →
  Closed apply_write (λ s, cf_map s c !! k = v).
Proof. apply (key_closed_pred c k (λ x, x = v)). Qed.
Lemma key_gc c k v : leased_family c = false → GcClosed (λ s, cf_map s c !! k = v).
Proof. apply (key_gc_pred c k (λ x, x = v)). Qed.

(** ** Keeping a property *)

Abbreviation keeps I m := (stable (λ _ : error, True) I m).

Lemma sim_keeps {A} (I : Kv → Prop) (m : txm Kv A) : sim (same I) m m → keeps I m.
Proof.
  intros H s Hs. specialize (H s s (conj eq_refl Hs)). unfold wp.
  destruct (m s) as [[a s']|e]; [apply H|done].
Qed.
Lemma keeps_sim {A} (I : Kv → Prop) (m : txm Kv A) : keeps I m → sim (same I) m m.
Proof.
  intros H. apply sim_same. intros s Hs. specialize (H s Hs). unfold wp in H.
  by destruct (m s) as [[a s']|e].
Qed.

Lemma keeps_run {A} (I : Kv → Prop) (m : txm Kv A) s a s' :
  keeps I m → I s → m s = Ok (a, s') → I s'.
Proof. intros H Hs Hm. specialize (H s Hs). unfold wp in H. by rewrite Hm in H. Qed.

Section op.
Context (I : Kv → Prop) `{!Closed apply_write I} `{!GcClosed I} (HI : ∀ s, I s → index_ok s).
Context (now : Z) (Hnow : ∀ s, I s → kv_now s = now).

Lemma keeps_delete_raw c k : apply_write c k WDel = true → keeps I (delete_raw c k).
Proof. intros H s Hs. by apply (closed_del (W := apply_write)). Qed.

#[local] Instance lock_closed : Closed lock_write I.
Proof.
  split; intros; [eapply (closed_ttl (W := apply_write))|eapply (closed_raw (W := apply_write))
    |eapply (closed_del (W := apply_write))]; try done; unfold apply_write; by rewrite H.
Qed.
#[local] Instance queue_closed : Closed queue_write I.
Proof.
  split; intros; [eapply (closed_ttl (W := apply_write))|eapply (closed_raw (W := apply_write))
    |eapply (closed_del (W := apply_write))]; try done; unfold apply_write;
    by rewrite H, orb_true_r.
Qed.

Lemma gc_reclaim_keeps c k s b exp :
  I s → leased_family c = true → cf_map s c !! k = Some b → record_expiry b = Some exp →
  expired exp now = true → wlp (gc_reclaim c k) (λ _, I) s.
Proof.
  intros Hs Hl Hk Hr Hx. unfold gc_reclaim. destruct (decide (c = CF_DEDUPE)) as [->|Hc].
  { apply wp_bind, wp_ret. apply wp_bind, wp_ret. cbn.
    eapply gc_closed; [done|done|done|by rewrite (Hnow s Hs)|done]. }
  assert (apply_write c k WDel = true) as Hw by (by destruct c).
  eapply stable_bind; [| |exact Hs].
  - destruct (_ && _); [|apply stable_ret]. destruct (from_utf8 k); [|apply stable_ret].
    apply sim_keeps. unfold force_release_inner. solve_sim.
  - intros _. eapply stable_bind; [destruct (bool_decide _); [|apply stable_ret]|].
    + apply sim_keeps, sim_expire_entry, _.
    + intros []; [apply stable_ret|by apply keeps_delete_raw].
Qed.

Lemma gc_entry_keeps acc key :
  (∀ c, index_names key = Some c → leased_family c = true) → keeps I (gc_entry now acc key).
Proof.
  intros Hk. unfold gc_entry. destruct acc as [n u]. unfold index_names in Hk.
  eapply stable_bind; [|intros a; apply stable_bind; [by apply keeps_delete_raw|intros ?; apply stable_ret]].
  destruct (decode_expiry_entry key) as [[[x name] pk]|]; [|apply stable_ret].
  destruct (static_cf_name name) as [c|]; [|apply stable_ret]. specialize (Hk c eq_refl).
  intros s Hs. cbv zeta. apply wp_bind. unfold wp at 1. cbn [get_raw kv_raw]. unfold kv_get_raw.
  destruct (cf_map s c !! pk) as [b|] eqn:Hb; [|done]. cbn [mbind option_bind].
  destruct (record_expiry b) as [exp|] eqn:Hr; [|done].
  destruct (expired exp now) eqn:Hx; [|done]. apply wp_bind.
  eapply wp_mono; [by eapply gc_reclaim_keeps|]. by intros [] s' Hs'.
Qed.

Lemma gc_keys_elem batch l keys :
  (∀ k b, (k, b) ∈ l → ∀ c, index_names k = Some c → leased_family c = true) →
  (∀ k, k ∈ keys → ∀ c, index_names k = Some c → leased_family c = true) →
  match visit_all (gc_keys_visit batch) keys l with
  | Ok keys' => ∀ k, k ∈ keys' → ∀ c, index_names k = Some c → leased_family c = true
  | Err _ => True
  end.
Proof.
  revert keys. induction l as [|[k b] l IH]; intros keys Hl Hkeys; [done|].
  cbn [visit_all]. unfold gc_keys_visit at 1. cbv zeta.
  assert (∀ k', k' ∈ keys ++ [k] → ∀ c, index_names k' = Some c → leased_family c = true) as Hkeys'.
  { intros k' [Hk'|Hk']%elem_of_app; [by apply Hkeys|]. apply list_elem_of_singleton in Hk' as ->.
    eapply Hl. by left. }
  destruct (_ <? _); [|done]. apply IH; [|done]. intros k' b' Hin. eapply Hl. by right.
Qed.

Lemma gc_sweep_keeps batch : keeps I (gc_sweep now batch).
Proof.
  intros s Hs. unfold gc_sweep. apply wp_bind. unfold wp at 1. cbn [get_raw kv_raw]. unfold kv_get_raw.
  apply wp_bind. unfold wp at 1. cbn [scan_merged kv_raw]. unfold kv_scan, lift.
  pose proof (gc_keys_elem batch (kv_range s CF_EXPIRY (cf_map s CF_META !! META_GC_CURSOR_KEY)
    (Some (expiry_scan_upper now))) []) as Hkeys.
  destruct (visit_all _ _ _) as [keys|e]; [|done].
  eapply stable_bind; [| |exact Hs].
  - apply stable_fold. intros acc k Hin. apply gc_entry_keeps. apply Hkeys; [|set_solver|done].
    intros k' b [Hk' _]%btree_range_elem c Hc. eapply HI; [exact Hs| |done]. by rewrite Hk'.
  - intros [n u]. apply stable_bind; [|intros ?; apply stable_ret].
    destruct (last keys); [|apply stable_ret]. intros s' Hs'. by apply (closed_raw (W := apply_write)).
Qed.

Lemma execute_op_keeps_with cmd d :
  (∀ ns args alg, keeps I (mint_fence_if_needed ns args alg)) → keeps I incr_fence_inner →
  keeps I (execute_op cmd now d).
Proof.
  intros Hm Hi. apply sim_keeps, sim_execute_op; [apply _|..]; intros; apply keeps_sim; auto.
  apply gc_sweep_keeps.
Qed.

Lemma execute_op_keeps cmd d :
  (∀ s b, I s → I (kv_put s CF_META META_FENCE_COUNTER_KEY b)) → keeps I (execute_op cmd now d).
Proof.
  intros Hput.
  assert (∀ n, sim (same I) (write_fence_counter n) (write_fence_counter n)) as Hsim.
  { intros n. apply sim_same. intros s Hs. by apply Hput. }
  apply execute_op_keeps_with; intros; apply sim_keeps;
    [apply sim_mint_fence_if_needed|apply sim_incr_fence_inner]; (apply _ || done).
Qed.
End op.

Lemma key_fence (c : cf) (k : bytes) (v : option bytes) s b :
  (c, k) ≠ (CF_META, META_FENCE_COUNTER_KEY) →
  cf_map s c !! k = v → cf_map (kv_put s CF_META META_FENCE_COUNTER_KEY b) c !! k = v.
Proof. intros Hne <-. rewrite cf_map_put, decide_False; [done|]. intros [<- <-]. done. Qed.
Lemma index_ok_fence s b : index_ok s → index_ok (kv_put s CF_META META_FENCE_COUNTER_KEY b).
Proof. intros Hi ek c Hek Hn. rewrite cf_map_put, decide_False in Hek by naive_solver. by eapply Hi. Qed.
End keeps.
