(* ===== verification/ApplyTheorems.v ===== *)
(** * Correctness of applying a command ([src/raft/state_machine.rs])

    [apply_kv] applies a command to one group's keyspace; [apply_refines] shows
    that [apply_with_meta] does the same to the group's part of the database and
    touches nothing else.  The remaining theorems are about [apply_kv]: rejected
    commands, retries, the clock and the applied position, fencing tokens. *)

From Stdlib Require Import ZArith NArith Lia Strings.Byte.
From stdpp Require Import sorting countable base numbers gmap strings list.
From S2P Require Import Prelude RustStd StoreKeys Store StoreScan StoreSim KvView Instances.
From S2P Require Import EngineTypes Engine EngineSafe Footprint Paths Placement Queue Command.
From S2P Require Import Codecs.
From S2P Require Import StateMachine ApplySim ApplyKeeps.
Local Open Scope Z_scope.

Section apply_kv.
Context `{!Bincode StoredRecord, !Bincode QueueEntry, !Bincode GroupRecord}.
Context `{!Bincode Op, !Bincode (Z * ApplyResponse)} (xxh3_64 : bytes → Z).

(** ** Applying a command to a keyspace *)

Definition kv_last_now (s : Kv) : Z :=
  match cf_map s CF_META !! META_LAST_NOW_KEY with
  | Some v => if bool_decide (length v = 8%nat) then from_be v else 0
  | None => 0
  end.
Definition at_time (s : Kv) (now : Z) : Kv := {| kv_now := now; kv_data := kv_data s |}.
Definition now_eff (s : Kv) (cmd : Command) : Z := Z.max (cmd_now_ms cmd) (kv_last_now s).

Definition apply_kv (s : Kv) (cmd : Command) (applied : option bytes) (d : LockAlgorithm)
    : result (Kv * ApplyResponse) :=
  match apply_txn xxh3_64 cmd (kv_last_now s) (now_eff s cmd) applied d
          (at_time s (now_eff s cmd)) with
  | Err e => Err e
  | Ok (resp, None) => Ok (s, resp)
  | Ok (resp, Some s') => Ok (s', resp)
  end.

Section refinement.
Context `{!RocksDb}.

(** The keyspace [s] is what group [g] of [db] holds. *)
Definition shows (db : DB) (g : GroupId) (s : Kv) : Prop :=
  ∀ c k, get_cf db c (group_key g k) = cf_map s c !! k.

Lemma shows_new db g s now : shows db g s → txn_rel db g (new db g now) (at_time s now).
Proof.
  intros Hs. split; simpl; try done. intros c k. rewrite wt_view_lookup2. simpl. symmetry. apply Hs.
Qed.

Lemma shows_last_now db g s : shows db g s → read_last_now db g = kv_last_now s.
Proof. intros Hs. unfold read_last_now, kv_last_now. by rewrite Hs. Qed.

Lemma apply_refines_aux db g s cmd applied d :
  shows db g s →
  match apply_with_meta xxh3_64 db g cmd applied d, apply_kv s cmd applied d with
  | Ok (db', resp, _), Ok (s', resp') =>
      resp = resp' ∧ shows db' g s' ∧
      ∀ c fk, ¬ group_prefix g `prefix_of` fk → get_cf db' c fk = get_cf db c fk
  | Err e, Err e' => e = e'
  | _, _ => False
  end.
Proof.
  intros Hs. unfold apply_with_meta, apply_kv. rewrite (shows_last_now _ _ _ Hs).
  fold (now_eff s cmd).
  pose proof (sim_apply_txn (txn_rel db g) xxh3_64 cmd (kv_last_now s) (now_eff s cmd) applied d
    _ _ (shows_new db g s (now_eff s cmd) Hs)) as Hsim.
  destruct (apply_txn _ _ _ _ _ _ (new db g _)) as [[r [t|]]|e],
    (apply_txn _ _ _ _ _ _ (at_time s _)) as [[r' [s'|]]|e']; try done.
  destruct Hsim as [-> Hrel]. pose proof (txn_rel_commit _ _ _ _ Hrel) as [H1 H2].
  by destruct (commit t) as [db' w].
Qed.
End refinement.

(** ** The cases of an application *)

Definition put_last_now (cmd : Command) (last now : Z) (s : Kv) : Kv :=
  if (last <? now) && negb (is_noop (cmd_op cmd))
  then kv_put s CF_META META_LAST_NOW_KEY (be_bytes 8 now) else s.
Definition put_applied (applied : option bytes) (s : Kv) : Kv :=
  match applied with Some a => kv_put s CF_META META_LAST_APPLIED_KEY a | None => s end.
Definition put_response (cmd : Command) (resp : ApplyResponse) (s : Kv) : Kv :=
  match request_id cmd with
  | None => s
  | Some id => kv_put_ttl s CF_DEDUPE (dedupe_key id)
                 (BytesRec (encode_dedupe_record (op_fingerprint xxh3_64 (cmd_op cmd)) resp))
                 DEDUPE_TTL_MS
  end.

Lemma write_meta_run cmd last now applied s :
  write_meta cmd last now applied s = Ok (tt, put_applied applied (put_last_now cmd last now s)).
Proof.
  unfold write_meta, put_applied, put_last_now, mbind, txm_bind, mret, txm_ret. cbn.
  unfold kv_put_raw, kv_put. by destruct (_ && _), applied.
Qed.
Lemma remember_response_run cmd resp s :
  remember_response xxh3_64 cmd resp s = Ok (tt, put_response cmd resp s).
Proof.
  unfold remember_response, put_response. destruct (request_id cmd) as [id|]; [|done].
  reflexivity.
Qed.
Lemma cached_response_reads cmd : reads (cached_response (T := Kv) xxh3_64 cmd).
Proof.
  unfold cached_response. destruct (request_id cmd); [|apply reads_ret].
  unfold get_bytes, w_get_bytes. simpl. solve_reads.
Qed.

(** An application either answers from the dedupe table and changes nothing, or
    runs the operation; a refused operation leaves only its bookkeeping. *)
Inductive applied_case (s : Kv) (cmd : Command) (applied : option bytes) (d : LockAlgorithm)
    : Kv → ApplyResponse → Prop :=
| ac_cached resp :
    cached_response xxh3_64 cmd (at_time s (now_eff s cmd)) =
      Ok (Some resp, at_time s (now_eff s cmd)) →
    applied_case s cmd applied d s resp
| ac_run resp s1 :
    cached_response xxh3_64 cmd (at_time s (now_eff s cmd)) = Ok (None, at_time s (now_eff s cmd)) →
    execute_op cmd (now_eff s cmd) d (at_time s (now_eff s cmd)) = Ok (resp, s1) →
    commits resp = true →
    applied_case s cmd applied d
      (put_applied applied (put_last_now cmd (kv_last_now s) (now_eff s cmd) (put_response cmd resp s1)))
      resp
| ac_refused resp :
    cached_response xxh3_64 cmd (at_time s (now_eff s cmd)) = Ok (None, at_time s (now_eff s cmd)) →
    commits resp = false →
    applied_case s cmd applied d
      (put_applied applied (put_last_now cmd (kv_last_now s) (now_eff s cmd)
                              (at_time s (now_eff s cmd)))) resp.

Lemma apply_kv_cases s cmd applied d s' resp :
  apply_kv s cmd applied d = Ok (s', resp) → applied_case s cmd applied d s' resp.
Proof.
  unfold apply_kv, apply_txn. set (s0 := at_time s (now_eff s cmd)).
  pose proof (cached_response_reads cmd s0) as Hr.
  destruct (cached_response xxh3_64 cmd s0) as [[[r|] sx]|e] eqn:Hc; [..|done]; subst sx.
  { intros [= <- <-]. by apply ac_cached. }
  unfold run_command. destruct (execute_op cmd (now_eff s cmd) d s0) as [[r s1]|e] eqn:He.
  - destruct (commits r) eqn:Hcm.
    + unfold mbind, txm_bind. rewrite remember_response_run, write_meta_run.
      intros [= <- <-]. by apply ac_run.
    + rewrite write_meta_run. intros [= <- <-]. by apply ac_refused.
  - destruct e as [op lim| |]; [|done..]. cbn [commits]. rewrite write_meta_run.
    intros [= <- <-]. by apply ac_refused.
Qed.

(** ** What survives an application *)

Lemma execute_op_index cmd d s resp s1 :
  index_ok s → execute_op cmd (kv_now s) d s = Ok (resp, s1) → index_ok s1 ∧ kv_now s1 = kv_now s.
Proof.
  intros Hi Hrun.
  pose proof (execute_op_keeps (λ t, index_ok t ∧ kv_now t = kv_now s) (λ _ H, proj1 H) (kv_now s)
    (λ _ H, proj2 H) cmd d) as Hk.
  refine (keeps_run _ _ _ _ _ (Hk _) (conj Hi eq_refl) Hrun).
  intros t b [? ?]. split; [by apply index_ok_fence|done].
Qed.

Lemma execute_op_key c k cmd d s resp s1 :
  index_ok s → c ≠ CF_EXPIRY → (∀ w, apply_write c k w = false) → leased_family c = false →
  (c, k) ≠ (CF_META, META_FENCE_COUNTER_KEY) →
  execute_op cmd (kv_now s) d s = Ok (resp, s1) → cf_map s1 c !! k = cf_map s c !! k.
Proof.
  intros Hi Hc Hw Hl Hne Hrun.
  set (I t := (cf_map t c !! k = cf_map s c !! k ∧ index_ok t) ∧ kv_now t = kv_now s).
  assert (Closed apply_write I) as HC.
  { apply closed_and; [apply closed_and; [by apply key_closed|apply _]|apply _]. }
  assert (GcClosed I) as HG by (apply gc_and; [apply gc_and; [by apply key_gc|apply _]|apply _]).
  pose proof (execute_op_keeps I (λ _ H, proj2 (proj1 H)) (kv_now s) (λ _ H, proj2 H) cmd d) as Hk.
  assert (I s1) as [[H1 _] _]; [|done].
  refine (keeps_run I _ _ _ _ (Hk _) _ Hrun); [|done].
  intros t b [[? ?] ?]. split; [|done]. split; [by apply key_fence|by apply index_ok_fence].
Qed.

(** A live dedupe record. *)
Lemma execute_op_dedupe k v exp cmd d s resp s1 :
  index_ok s → cf_map s CF_DEDUPE !! k = Some (encode_record (BytesRec v exp)) →
  expired exp (kv_now s) = false →
  execute_op cmd (kv_now s) d s = Ok (resp, s1) → cf_map s1 CF_DEDUPE !! k = cf_map s CF_DEDUPE !! k.
Proof.
  intros Hi Hk Hx Hrun.
  set (I t := (cf_map t CF_DEDUPE !! k = cf_map s CF_DEDUPE !! k ∧ index_ok t) ∧ kv_now t = kv_now s).
  assert (Closed apply_write I) as HC.
  { apply closed_and; [apply closed_and; [apply key_closed; [done|by intros []]|apply _]|apply _]. }
  assert (GcClosed I) as HG.
  { intros t c' k' b x Hl Hb Hr Hdead [[H1 H2] H3]. split; [|done]. split.
    - rewrite cf_map_del, decide_False; [done|]. intros [-> ->]. rewrite H1, Hk in Hb.
      injection Hb as <-. unfold record_expiry in Hr. rewrite decode_encode in Hr.
      injection Hr as <-. rewrite H3 in Hdead. congruence.
    - by eapply gc_closed. }
  pose proof (execute_op_keeps I (λ _ H, proj2 (proj1 H)) (kv_now s) (λ _ H, proj2 H) cmd d) as Hop.
  assert (I s1) as [[H1 _] _]; [|done].
  refine (keeps_run I _ _ _ _ (Hop _) _ Hrun); [|done].
  intros t b [[? ?] ?]. split; [|done]. split; [by apply key_fence|by apply index_ok_fence].
Qed.

(** Bookkeeping writes. *)
Lemma cf_map_put_meta c k applied cmd last now s :
  (c, k) ≠ (CF_META, META_LAST_NOW_KEY) → (c, k) ≠ (CF_META, META_LAST_APPLIED_KEY) →
  cf_map (put_applied applied (put_last_now cmd last now s)) c !! k = cf_map s c !! k.
Proof using Type.
  clear xxh3_64.
  intros H1 H2. unfold put_applied, put_last_now.
  destruct applied, (_ && _); rewrite ?cf_map_put, ?decide_False by naive_solver; done.
Qed.
Lemma cf_map_put_response c k cmd resp s :
  c ≠ CF_EXPIRY → c ≠ CF_DEDUPE → cf_map (put_response cmd resp s) c !! k = cf_map s c !! k.
Proof.
  intros H1 H2. unfold put_response. destruct (request_id cmd); [|done].
  rewrite cf_map_put_ttl by done. rewrite decide_False by naive_solver. done.
Qed.
Lemma index_ok_put_response cmd resp s : index_ok s → index_ok (put_response cmd resp s).
Proof.
  intros Hi. unfold put_response. destruct (request_id cmd); [|done].
  intros ek c Hek Hn. rewrite cf_map_put_ttl_index in Hek by done. case_decide as Hd; [|by eapply Hi].
  destruct Hd as [_ <-]. unfold index_key in Hn. rewrite index_names_key in Hn. by injection Hn as <-.
Qed.
Lemma index_ok_put_meta applied cmd last now s :
  index_ok s → index_ok (put_applied applied (put_last_now cmd last now s)).
Proof. intros Hi ek c Hek. rewrite cf_map_put_meta in Hek by done. by eapply Hi. Qed.

Lemma apply_kv_index s cmd applied d s' resp :
  index_ok s → apply_kv s cmd applied d = Ok (s', resp) → index_ok s'.
Proof.
  intros Hi H%apply_kv_cases. destruct H as [resp Hc|resp s1 Hc Hrun Hcm|resp Hc Hcm]; [done|..].
  - apply index_ok_put_meta, index_ok_put_response.
    by eapply (execute_op_index cmd d (at_time s (now_eff s cmd))).
  - by apply index_ok_put_meta.
Qed.

(** ** The clock *)

Lemma from_be_range l : 0 ≤ from_be l < 256 ^ Z.of_nat (length l).
Proof.
  induction l as [|b l IH] using rev_ind; [done|]. rewrite from_be_app, length_app, Nat2Z.inj_add.
  rewrite Z.pow_add_r by lia. pose proof (byte_val_range b).
  change (256 ^ Z.of_nat (length [b])) with 256. nia.
Qed.
Lemma kv_last_now_u64 s : is_u64 (kv_last_now s).
Proof.
  unfold kv_last_now. destruct (cf_map s CF_META !! META_LAST_NOW_KEY) as [v|]; [|done].
  case_bool_decide as Hl; [|done]. pose proof (from_be_range v) as H. rewrite Hl in H.
  unfold is_u64, u64_max. change (256 ^ Z.of_nat 8) with (2 ^ 64) in H. lia.
Qed.
Lemma now_eff_u64 s cmd : is_u64 (cmd_now_ms cmd) → is_u64 (now_eff s cmd).
Proof. pose proof (kv_last_now_u64 s). unfold now_eff, is_u64 in *. lia. Qed.

Lemma kv_last_now_put_meta applied cmd s s1 :
  is_u64 (cmd_now_ms cmd) →
  cf_map s1 CF_META !! META_LAST_NOW_KEY = cf_map s CF_META !! META_LAST_NOW_KEY →
  kv_last_now (put_applied applied (put_last_now cmd (kv_last_now s) (now_eff s cmd) s1)) =
  if is_noop (cmd_op cmd) then kv_last_now s else now_eff s cmd.
Proof.
  intros Hu Hs1. pose proof (now_eff_u64 s cmd Hu) as Hn.
  assert (kv_last_now (put_applied applied (put_last_now cmd (kv_last_now s) (now_eff s cmd) s1)) =
          kv_last_now (put_last_now cmd (kv_last_now s) (now_eff s cmd) s1)) as ->.
  { unfold put_applied. destruct applied; [|done]. unfold kv_last_now.
    by rewrite cf_map_put, decide_False by naive_solver. }
  assert (kv_last_now s1 = kv_last_now s) as Hl by (unfold kv_last_now; by rewrite Hs1).
  unfold put_last_now. destruct (Z.ltb_spec (kv_last_now s) (now_eff s cmd)) as [Hlt|Hge];
    destruct (is_noop (cmd_op cmd)); cbn [andb negb]; [done| |done|].
  - unfold kv_last_now at 1. rewrite cf_map_put, decide_True by done.
    rewrite length_be_bytes. by rewrite bool_decide_eq_true_2, from_be_u64.
  - unfold now_eff in *. lia.
Qed.

Definition cached (s : Kv) (cmd : Command) : bool :=
  match cached_response xxh3_64 cmd (at_time s (now_eff s cmd)) with
  | Ok (Some _, _) => true
  | _ => false
  end.

Lemma apply_kv_clock s cmd applied d s' resp :
  index_ok s → is_u64 (cmd_now_ms cmd) → apply_kv s cmd applied d = Ok (s', resp) →
  kv_last_now s' = if cached s cmd || is_noop (cmd_op cmd) then kv_last_now s else now_eff s cmd.
Proof.
  intros Hi Hu H%apply_kv_cases. unfold cached.
  destruct H as [resp Hc|resp s1 Hc Hrun Hcm|resp Hc Hcm]; rewrite Hc; [done|..].
  - apply kv_last_now_put_meta; [done|]. rewrite cf_map_put_response by done.
    by apply (execute_op_key CF_META META_LAST_NOW_KEY cmd d (at_time s (now_eff s cmd)) resp);
      [| |intros []| | |].
  - by apply kv_last_now_put_meta.
Qed.

Lemma apply_kv_clock_mono s cmd applied d s' resp :
  index_ok s → is_u64 (cmd_now_ms cmd) → apply_kv s cmd applied d = Ok (s', resp) →
  kv_last_now s ≤ kv_last_now s'.
Proof.
  intros Hi Hu H. rewrite (apply_kv_clock s cmd applied d s' resp Hi Hu H).
  destruct (_ || _); unfold now_eff; lia.
Qed.

(** ** The dedupe table *)

Lemma dedupe_key_inj id id' :
  is_u64 (ri_seq id) → is_u64 (ri_seq id') → dedupe_key id = dedupe_key id' → id = id'.
Proof.
  unfold dedupe_key. intros Hu Hu' H. rewrite !app_assoc in H.
  apply app_inj_2 in H as [H1 H2]; [|by rewrite !length_be_bytes].
  apply app_inj_2 in H1 as [H1 _]; [|done].
  apply be_bytes_inj in H2; [|by apply u64_pow..]. destruct id, id'. simpl in *. by subst.
Qed.

(** Commands as the cluster submits them: machine-width times and numbers, and no
    request id on a [Noop]. *)
Definition cmd_ok (cmd : Command) : Prop :=
  is_u64 (cmd_now_ms cmd) ∧ (∀ id, request_id cmd = Some id → is_u64 (ri_seq id)) ∧
  (is_noop (cmd_op cmd) = true → request_id cmd = None).

Definition kv_step (s s' : Kv) : Prop :=
  ∃ cmd applied d resp, cmd_ok cmd ∧ apply_kv s cmd applied d = Ok (s', resp).

Definition dedupe_rec (cmd : Command) (resp : ApplyResponse) (exp : Z) : bytes :=
  encode_record (BytesRec (encode_dedupe_record (op_fingerprint xxh3_64 (cmd_op cmd)) resp) exp).

Lemma cached_response_live cmd cmd' resp exp id s :
  request_id cmd' = Some id →
  cf_map s CF_DEDUPE !! dedupe_key id = Some (dedupe_rec cmd resp exp) →
  expired exp (kv_now s) = false →
  cached_response xxh3_64 cmd' s =
  Ok (Some (if bool_decide (op_fingerprint xxh3_64 (cmd_op cmd) = op_fingerprint xxh3_64 (cmd_op cmd'))
            then resp else Rejected IdempotencyMismatch (mismatch_detail id)), s).
Proof.
  intros Hid Hk Hx. unfold cached_response. rewrite Hid.
  unfold get_bytes, w_get_bytes, mbind, txm_bind, asks, lift. cbn. unfold kv_get_raw. rewrite Hk.
  unfold dedupe_rec. rewrite decode_encode, Hx. cbn.
  rewrite bincode_decode_encode. reflexivity.
Qed.

Lemma put_response_other cmd resp s id :
  (∀ id', request_id cmd = Some id' → dedupe_key id' ≠ dedupe_key id) →
  cf_map (put_response cmd resp s) CF_DEDUPE !! dedupe_key id = cf_map s CF_DEDUPE !! dedupe_key id.
Proof.
  intros Hne. unfold put_response. destruct (request_id cmd) as [id'|]; [|done].
  rewrite cf_map_put_ttl, decide_False by naive_solver. done.
Qed.

(** One step keeps a dedupe record the clock has not passed. *)
Lemma kv_step_dedupe s s' cmd resp exp id :
  kv_step s s' → index_ok s → is_u64 (ri_seq id) → exp ≠ 0 →
  cf_map s CF_DEDUPE !! dedupe_key id = Some (dedupe_rec cmd resp exp) → kv_last_now s' < exp →
  cf_map s' CF_DEDUPE !! dedupe_key id = Some (dedupe_rec cmd resp exp).
Proof.
  intros (cmd' & applied & d & resp' & (Hu & Hids & Hnoop) & Hrun) Hi Hid H0 Hk Hlt.
  pose proof (apply_kv_clock s cmd' applied d s' resp' Hi Hu Hrun) as Hclock.
  apply apply_kv_cases in Hrun. unfold cached in Hclock.
  destruct Hrun as [r Hc|r s1 Hc Hrun Hcm|r Hc Hcm]; [done|..]; rewrite cf_map_put_meta by done; [|done].
  rewrite Hc in Hclock. cbn [orb] in Hclock. destruct (is_noop (cmd_op cmd')) eqn:Hop.
  - rewrite put_response_other by (by rewrite Hnoop). destruct (cmd_op cmd') eqn:Ho; try done.
    unfold execute_op in Hrun. rewrite Ho in Hrun. by injection Hrun as _ <-.
  - assert (expired exp (now_eff s cmd') = false) as Hx.
    { unfold expired. apply andb_false_iff. right. apply Z.leb_gt. lia. }
    rewrite put_response_other.
    + rewrite <- Hk. exact (execute_op_dedupe _ _ exp cmd' d (at_time s _) _ s1 Hi Hk Hx Hrun).
    + intros id' Hid' Heq. apply dedupe_key_inj in Heq as ->; [|by auto|done].
      by rewrite (cached_response_live cmd cmd' resp exp id) in Hc.
Qed.

Lemma kv_step_mono s s' : kv_step s s' → index_ok s → index_ok s' ∧ kv_last_now s ≤ kv_last_now s'.
Proof.
  intros (cmd & applied & d & resp & (Hu & _) & Hrun) Hi. split.
  - by eapply apply_kv_index.
  - by eapply apply_kv_clock_mono.
Qed.

Lemma kv_steps_mono s s' :
  rtc kv_step s s' → index_ok s → index_ok s' ∧ kv_last_now s ≤ kv_last_now s'.
Proof.
  induction 1 as [|t1 t2 t3 H12 _ IH]; [done|]. intros Hi1.
  destruct (kv_step_mono _ _ H12 Hi1) as [Hi2 Hle]. destruct (IH Hi2). split; [done|lia].
Qed.

Lemma kv_steps_dedupe s s' cmd resp exp id :
  rtc kv_step s s' → index_ok s → is_u64 (ri_seq id) → exp ≠ 0 →
  cf_map s CF_DEDUPE !! dedupe_key id = Some (dedupe_rec cmd resp exp) → kv_last_now s' < exp →
  cf_map s' CF_DEDUPE !! dedupe_key id = Some (dedupe_rec cmd resp exp).
Proof.
  intros Hsteps Hi Hid H0 Hk Hlt.
  induction Hsteps as [|t1 t2 t3 H12 H23 IH]; [done|].
  destruct (kv_step_mono _ _ H12 Hi) as [Hi2 _]. apply IH; [done| |done].
  eapply kv_step_dedupe; [done..|]. destruct (kv_steps_mono _ _ H23 Hi2). lia.
Qed.

(** Nothing to time out in an empty keyspace. *)
Lemma index_ok_empty now : index_ok {| kv_now := now; kv_data := ∅ |}.
Proof. by intros ek c [b Hb]. Qed.

(** The clock of a group never runs backwards and the applied position is
    recorded.  When a command runs (it is not answered from the dedupe table), the
    persisted clock becomes the greater of the command's time and the old clock (a
    [Noop] leaves it), and the applied position, if given, is stored.  A command
    answered from the dedupe table leaves the keyspace as it was. *)
Theorem apply_bookkeeping s cmd applied d s' resp :
  index_ok s → is_u64 (cmd_now_ms cmd) → apply_kv s cmd applied d = Ok (s', resp) →
  if cached s cmd then s' = s
  else kv_last_now s' = (if is_noop (cmd_op cmd) then kv_last_now s
                         else Z.max (cmd_now_ms cmd) (kv_last_now s)) ∧
       cf_map s' CF_META !! META_LAST_APPLIED_KEY =
         match applied with Some a => Some a | None => cf_map s CF_META !! META_LAST_APPLIED_KEY end.
Proof.
  intros Hi Hu Hrun. pose proof (apply_kv_clock s cmd applied d s' resp Hi Hu Hrun) as Hclock.
  apply apply_kv_cases in Hrun. unfold cached in *.
  assert (∀ s1, cf_map s1 CF_META !! META_LAST_APPLIED_KEY = cf_map s CF_META !! META_LAST_APPLIED_KEY →
    cf_map (put_applied applied (put_last_now cmd (kv_last_now s) (now_eff s cmd) s1)) CF_META
      !! META_LAST_APPLIED_KEY =
    match applied with Some a => Some a | None => cf_map s CF_META !! META_LAST_APPLIED_KEY end) as Hap.
  { intros s1 Hs1. unfold put_applied, put_last_now.
    destruct applied; [by rewrite cf_map_put, decide_True|].
    destruct (_ && _); [|done]. by rewrite cf_map_put, decide_False by naive_solver. }
  destruct Hrun as [r Hc|r s1 Hc Hrun Hcm|r Hc Hcm]; rewrite Hc in *; [done|..]; (split; [done|]).
  - apply Hap. rewrite cf_map_put_response by done.
    by apply (execute_op_key CF_META META_LAST_APPLIED_KEY cmd d (at_time s (now_eff s cmd)) r);
      [| |intros []| | |].
  - by apply Hap.
Qed.

(** C38: A retried command is answered once.  Suppose a command with a request id
    ran and committed.  After any number of further commands, as long as the
    group's clock has not passed the record's expiry, a command with the same
    request id changes nothing: it is answered with the first response if it is
    the same operation, and rejected as an id reuse if its fingerprint differs. *)
Theorem retry_answered_from_cache s cmd applied d s1 resp s2 cmd2 applied2 d2 id :
  index_ok s → cmd_ok cmd → request_id cmd = Some id →
  cached s cmd = false → apply_kv s cmd applied d = Ok (s1, resp) → commits resp = true →
  rtc kv_step s1 s2 →
  cmd_ok cmd2 → request_id cmd2 = Some id →
  now_eff s2 cmd2 < expiry_at (now_eff s cmd) DEDUPE_TTL_MS →
  apply_kv s2 cmd2 applied2 d2 =
    Ok (s2, if bool_decide (op_fingerprint xxh3_64 (cmd_op cmd) = op_fingerprint xxh3_64 (cmd_op cmd2))
            then resp else Rejected IdempotencyMismatch (mismatch_detail id)).
Proof.
  intros Hi (Hu & Hids & _) Hid Hnc Hrun Hcm Hsteps _ Hid2 Hlt.
  set (exp := expiry_at (now_eff s cmd) DEDUPE_TTL_MS) in *.
  pose proof (apply_kv_index _ _ _ _ _ _ Hi Hrun) as Hi1.
  assert (cf_map s1 CF_DEDUPE !! dedupe_key id = Some (dedupe_rec cmd resp exp)) as Hk.
  { apply apply_kv_cases in Hrun. unfold cached in Hnc.
    destruct Hrun as [r Hc|r s' Hc Hop Hcm'|r Hc Hcm']; [by rewrite Hc in Hnc| |congruence].
    rewrite cf_map_put_meta by done. unfold put_response. rewrite Hid.
    rewrite cf_map_put_ttl, decide_True by done. unfold exp, dedupe_rec.
    by rewrite (proj2 (execute_op_index cmd d (at_time s (now_eff s cmd)) _ _ Hi Hop)). }
  assert (exp ≠ 0) as H0.
  { pose proof (now_eff_u64 s cmd Hu) as Hn. unfold exp, expiry_at, saturating_add.
    unfold is_u64, u64_max, DEDUPE_TTL_MS in *. simpl. lia. }
  assert (kv_last_now s2 < exp) as Hlt2 by (unfold now_eff at 1 in Hlt; lia).
  pose proof (kv_steps_dedupe s1 s2 cmd resp exp id Hsteps Hi1 (Hids id Hid) H0 Hk Hlt2) as Hk2.
  unfold apply_kv, apply_txn.
  rewrite (cached_response_live cmd cmd2 resp exp id (at_time s2 (now_eff s2 cmd2)) Hid2 Hk2); [done|].
  unfold expired. apply andb_false_iff. right. apply Z.leb_gt. exact Hlt.
Qed.

Section database.
Context `{!RocksDb}.

(** C24: The state machine refines a function on one group's keyspace.  Applying a
    command to group [g] of a database gives the response that [apply_kv] gives on
    the group's keyspace and leaves the resulting keyspace in the database; both
    fail together.  No key of another group changes. *)
Theorem apply_refines db g s cmd applied d :
  shows db g s →
  match apply_with_meta xxh3_64 db g cmd applied d, apply_kv s cmd applied d with
  | Ok (db', resp, _), Ok (s', resp') =>
      resp = resp' ∧ shows db' g s' ∧
      ∀ c fk, ¬ group_prefix g `prefix_of` fk → get_cf db' c fk = get_cf db c fk
  | Err e, Err e' => e = e'
  | _, _ => False
  end.
Proof. apply apply_refines_aux. Qed.

(** C39: A refused command changes nothing but the bookkeeping.  When the response
    is a conflict, a lost lock, a lost renewal or a rejection (the scan limit
    included), every key of every group keeps its value, except the group's
    persisted clock and applied position. *)
Theorem refused_changes_nothing db g cmd applied d db' resp wrote :
  apply_with_meta xxh3_64 db g cmd applied d = Ok (db', resp, wrote) → commits resp = false →
  ∀ c fk, (c, fk) ≠ (CF_META, group_key g META_LAST_NOW_KEY) →
    (c, fk) ≠ (CF_META, group_key g META_LAST_APPLIED_KEY) → get_cf db' c fk = get_cf db c fk.
Proof.
  intros Hrun Hcm c fk H1 H2.
  pose proof (apply_refines_aux db g (kv_of_db db g 0) cmd applied d) as Href.
  rewrite Hrun in Href. destruct (apply_kv (kv_of_db db g 0) cmd applied d) as [[s' r]|e] eqn:Hkv.
  2: { exfalso. apply Href. intros c' k. symmetry. apply kv_of_db_lookup. }
  destruct Href as (-> & Hshow & Hout); [intros c' k; symmetry; apply kv_of_db_lookup|].
  destruct (decide (group_prefix g `prefix_of` fk)) as [[k Hk]|Hn]; [|by apply Hout].
  change (fk = group_key g k) in Hk. subst fk. rewrite Hshow.
  rewrite <- (kv_of_db_lookup db g 0). apply apply_kv_cases in Hkv.
  destruct Hkv as [r Hc|r s1 Hc Hop Hcm'|r Hc Hcm']; [done|congruence|].
  rewrite cf_map_put_meta; [done|..]; congruence.
Qed.
End database.
End apply_kv.

(** ** Witnesses: an acquire, a contender, and a retry *)
Module Witness.
#[local] Existing Instance ref_bincode.
#[local] Existing Instance ref_rocksdb.
#[local] Instance entry_codec : Bincode QueueEntry := ref_codec.
#[local] Instance group_codec : Bincode GroupRecord := ref_codec.
#[local] Instance op_codec : Bincode Op := ref_codec.
#[local] Instance response_codec : Bincode (Z * ApplyResponse) := ref_codec.
Definition hash (b : bytes) : Z := from_be b mod 2 ^ 64.

Definition args (owner path : string) : AcquireArgs :=
  {| owner_id := bs owner; ttl_ms := 5000; fencing_token := 0; release_requests := [];
     requests := [{| lr_path := bs path; lr_mode := Write; lr_state := New; lr_permits := 1 |}];
     queue_ttl_ms := 0 |}.
Definition command (client owner path : string) (now : Z) : Command :=
  {| request_id := Some {| client_id := bs client; ri_seq := 1 |}; cmd_now_ms := now;
     cmd_op := AcquireInNamespace (bs "fs") (from_algorithm RecursiveRw) (args owner path) |}.
Definition stale_command : Command :=
  {| request_id := Some {| client_id := bs "c3"; ri_seq := 1 |}; cmd_now_ms := 1002;
     cmd_op := AcquireInNamespace (bs "fs") {| algorithm := RecursiveRw; epoch := 7 |}
                 (args "carol" "fs:/x") |}.
Definition d : LockAlgorithm := RecursiveRw.
Definition state_of (r : result (Kv * ApplyResponse)) : Kv :=
  match r with Ok (s, _) => s | Err _ => {| kv_now := 0; kv_data := ∅ |} end.
Definition response_of (r : result (Kv * ApplyResponse)) : option ApplyResponse :=
  match r with Ok (_, resp) => Some resp | Err _ => None end.

Definition s0 : Kv := {| kv_now := 0; kv_data := ∅ |}.
Definition run0 := apply_kv hash s0 (command "c1" "alice" "fs:/x" 1000) None d.
Definition s1 : Kv := state_of run0.
Definition run1 := apply_kv hash s1 (command "c2" "bob" "fs:/x/y" 1001) (Some (bs "p2")) d.
Definition s2 : Kv := state_of run1.

Lemma run_inv (r : result (Kv * ApplyResponse)) resp :
  response_of r = Some resp → r = Ok (state_of r, resp).
Proof. by destruct r as [[??]|]; intros [= ->]. Qed.
Lemma run0_ok : run0 = Ok (s1, RAcquire (AcquireOk 1)).
Proof. apply run_inv. vm_compute. reflexivity. Qed.
Lemma run1_ok : run1 = Ok (s2, RAcquire (AcquireQueued (bs "fs:/x") (bs "alice") AncestorLocked 2)).
Proof. apply run_inv. vm_compute. reflexivity. Qed.
Lemma command_ok client owner path now : is_u64 now → cmd_ok (command client owner path now).
Proof. intros Hn. split; [done|]. split; [by intros id [= <-]|done]. Qed.

Lemma apply_bookkeeping_witness :
  kv_last_now s2 = 1001 ∧ cf_map s2 CF_META !! META_LAST_APPLIED_KEY = Some (bs "p2").
Proof.
  pose proof (apply_bookkeeping hash s1 (command "c2" "bob" "fs:/x/y" 1001) (Some (bs "p2")) d s2 _
    (apply_kv_index hash _ _ _ _ _ _ (index_ok_empty 0) run0_ok) ltac:(done) run1_ok) as H.
  vm_compute in H. vm_compute. exact H.
Defined.

Lemma run0_first : cached hash s0 (command "c1" "alice" "fs:/x" 1000) = false.
Proof. vm_compute. reflexivity. Qed.
Lemma retry_in_time :
  now_eff s2 (command "c1" "alice" "fs:/x" 90000) <
  expiry_at (now_eff s0 (command "c1" "alice" "fs:/x" 1000)) DEDUPE_TTL_MS.
Proof. vm_compute. reflexivity. Qed.
Lemma steps12 : rtc (kv_step hash) s1 s2.
Proof.
  apply rtc_once. exists (command "c2" "bob" "fs:/x/y" 1001), (Some (bs "p2")), d. eexists.
  split; [by apply command_ok|exact run1_ok].
Qed.

Lemma retry_answered_from_cache_witness :
  apply_kv hash s2 (command "c1" "alice" "fs:/x" 90000) None d = Ok (s2, RAcquire (AcquireOk 1)).
Proof.
  pose proof (retry_answered_from_cache hash s0 (command "c1" "alice" "fs:/x" 1000) None d s1 _ s2
    (command "c1" "alice" "fs:/x" 90000) None d {| client_id := bs "c1"; ri_seq := 1 |}
    (index_ok_empty 0) (command_ok "c1" "alice" "fs:/x" 1000 ltac:(done)) eq_refl run0_first run0_ok
    eq_refl steps12 (command_ok "c1" "alice" "fs:/x" 90000 ltac:(done)) eq_refl retry_in_time) as H.
  rewrite H.
  change (cmd_op (command "c1" "alice" "fs:/x" 90000)) with (cmd_op (command "c1" "alice" "fs:/x" 1000)).
  rewrite bool_decide_eq_true_2 by reflexivity. reflexivity.
Defined.

(** A database that holds the same as group 7. *)
Definition db_of (r : result (DB * ApplyResponse * bool)) : DB :=
  match r with Ok (db, _, _) => db | Err _ => ∅ end.
Definition answer_of (r : result (DB * ApplyResponse * bool)) : option (ApplyResponse * bool) :=
  match r with Ok (_, resp, w) => Some (resp, w) | Err _ => None end.
Lemma db_run_inv (r : result (DB * ApplyResponse * bool)) resp w :
  answer_of r = Some (resp, w) → r = Ok (db_of r, resp, w).
Proof. by destruct r as [[[??]?]|]; intros [= -> ->]. Qed.

Definition db2 : DB :=
  db_of (apply_with_meta hash
    (db_of (apply_with_meta hash (∅ : gmap cf (gmap bytes bytes)) 7 (command "c1" "alice" "fs:/x" 1000) None d))
    7 (command "c2" "bob" "fs:/x/y" 1001) (Some (bs "p2")) d).
Definition run3 := apply_with_meta hash db2 7 (command "c3" "carol" "fs:/z" 1002) None d.
Lemma run3_ok : run3 = Ok (db_of run3, RAcquire (AcquireOk 3), true).
Proof. apply db_run_inv. vm_compute. reflexivity. Qed.
Definition run4 := apply_with_meta hash db2 7 stale_command None d.
Definition stale_response : ApplyResponse :=
  Rejected PolicyEpochStale (policy_stale_detail (bs "fs") {| algorithm := RecursiveRw; epoch := 7 |}
                               (from_algorithm RecursiveRw)).
Lemma run4_ok :
  apply_with_meta hash db2 7 stale_command None d = Ok (db_of run4, stale_response, true).
Proof. apply db_run_inv. vm_compute. reflexivity. Qed.

Lemma apply_refines_witness :
  ∃ s', shows (db_of run3) 7 s' ∧
    ∀ c fk, ¬ group_prefix 7 `prefix_of` fk → get_cf (db_of run3) c fk = get_cf db2 c fk.
Proof.
  pose proof (apply_refines hash db2 7 (kv_of_db db2 7 0) (command "c3" "carol" "fs:/z" 1002) None d
    (λ c k, eq_sym (kv_of_db_lookup db2 7 0 c k))) as H.
  fold run3 in H. rewrite run3_ok in H.
  destruct (apply_kv _ _ _ _ _) as [[s' r]|e]; [|done]. destruct H as (_ & Hs & Ho). by exists s'.
Defined.

Lemma refused_changes_nothing_witness :
  commits stale_response = false ∧
  ∀ c fk, (c, fk) ≠ (CF_META, group_key 7 META_LAST_NOW_KEY) →
    (c, fk) ≠ (CF_META, group_key 7 META_LAST_APPLIED_KEY) →
    get_cf (db_of run4) c fk = get_cf db2 c fk.
Proof.
  split; [reflexivity|].
  exact (refused_changes_nothing hash db2 7 stale_command None d (db_of run4) stale_response true
           run4_ok eq_refl).
Defined.
End Witness.
