(* ===== verification/FenceTheorems.v ===== *)
(** * Fencing tokens ([src/raft/state_machine.rs])

    Tokens come from a persisted counter of the group.  Every token a command
    issues is greater than all tokens issued before it in the group, and greater
    than the fence of every path it is issued for. *)

From Stdlib Require Import ZArith NArith Lia Strings.Byte.
From stdpp Require Import sorting countable base numbers gmap strings list.
From S2P Require Import Prelude RustStd StoreKeys Store StoreScan StoreSim KvView Instances.
From S2P Require Import EngineTypes Engine EngineGrant EngineSafe Footprint Paths Placement.
From S2P Require Import Queue.
From S2P Require Import Command Codecs StateMachine ApplySim ApplyKeeps ApplyTheorems.
Local Open Scope Z_scope.

Section fences.
Context `{!Bincode StoredRecord, !Bincode QueueEntry, !Bincode GroupRecord}.

(** ** The counter *)

Definition counter_value (b : option bytes) : Z :=
  match b with
  | Some b => match decode_record b with Ok (Counter v) => v | _ => 0 end
  | None => 0
  end.
Definition fence_counter (s : Kv) : Z := counter_value (cf_map s CF_META !! META_FENCE_COUNTER_KEY).

Lemma read_fence_counter_wlp (Q : Z → Kv → Prop) s :
  Q (fence_counter s) s → wlp read_fence_counter Q s.
Proof.
  intros HQ. unfold read_fence_counter, wp, mbind, txm_bind. cbn [get_raw kv_raw].
  unfold kv_get_raw, fence_counter, counter_value in *.
  destruct (cf_map s CF_META !! META_FENCE_COUNTER_KEY) as [b|]; [|done].
  unfold lift. by destruct (decode_record b) as [[]|].
Qed.

Lemma write_fence_counter_wlp t (Q : unit → Kv → Prop) s :
  (∀ s', fence_counter s' = t → kv_now s' = kv_now s →
     (∀ c k, (c, k) ≠ (CF_META, META_FENCE_COUNTER_KEY) → cf_map s' c !! k = cf_map s c !! k) → Q tt s') →
  wlp (write_fence_counter t) Q s.
Proof.
  intros HQ. unfold wp. apply (HQ (kv_put s CF_META META_FENCE_COUNTER_KEY (encode_record (Counter t)))).
  - unfold fence_counter. rewrite cf_map_put, decide_True by done. simpl. by rewrite decode_encode.
  - done.
  - intros c k Hne. rewrite cf_map_put, decide_False; [done|]. intros [<- <-]. done.
Qed.

(** ** Minting *)

Definition mints (args : AcquireArgs) (alg : LockAlgorithm) : bool :=
  negb ((0 <? fencing_token args) || is_semaphore alg) && existsb is_write (requests args).

(** The fence stored for a path of a namespace. *)
Definition stored_fence (s : Kv) (namespace path : str) : option Z :=
  parse_fence (KvView.view s !! (CF_FENCES, fence_key (scoped_path namespace path))).

Lemma get_str_wlp c k (Q : option str → Kv → Prop) s :
  c ≠ CF_EXPIRY → Q (KvView.view s !! (c, k)) s → wlp (get_str c k) Q s.
Proof.
  intros Hc HQ. cbn [get_str raw_store kv_raw kv_store]. unfold w_get_str.
  apply wp_bind. unfold asks, wp at 1. apply wp_bind. unfold kv_get_raw, wp at 1.
  rewrite view_lookup_live in HQ by done. unfold live_rec in HQ.
  destruct (cf_map s c !! k) as [b|]; simpl in *; [|by apply wp_ret].
  apply wp_bind, wp_lift; [|done]. intros rec Hr. rewrite Hr in HQ. by apply wp_ret.
Qed.

Lemma max_fence_wlp namespace reqs m0 s :
  wlp (fold_txm (max_fence_step namespace) m0 reqs)
    (λ m s', s' = s ∧ m0 ≤ m ∧
       ∀ r f, r ∈ reqs → stored_fence s namespace (lr_path r) = Some f → f ≤ m) s.
Proof.
  revert m0. induction reqs as [|r reqs IH]; intros m0.
  { simpl. apply wp_ret. split_and!; [done|lia|]. by intros ? ? ?%not_elem_of_nil. }
  cbn [fold_txm]. apply wp_bind. unfold max_fence_step at 1. apply wp_bind.
  apply get_str_wlp; [done|]. apply wp_ret. eapply wp_mono; [apply IH|].
  intros m s' (-> & Hm & Hall). fold (stored_fence s namespace (lr_path r)) in Hm. split; [done|].
  split; [destruct (stored_fence s namespace (lr_path r)); lia|].
  intros r' f [->|Hin]%elem_of_cons Hf; [|by eapply Hall]. rewrite Hf in Hm. lia.
Qed.

(** The state after minting [t] differs in the counter only. *)
Definition counter_set (s s' : Kv) (t : Z) : Prop :=
  fence_counter s' = t ∧ kv_now s' = kv_now s ∧
  ∀ c k, (c, k) ≠ (CF_META, META_FENCE_COUNTER_KEY) → cf_map s' c !! k = cf_map s c !! k.

Lemma mint_wlp namespace args alg s :
  wlp (mint_fence_if_needed namespace args alg)
    (λ args' s',
       if mints args alg then
         ∃ m, args' = with_token args (saturating_add_i64 m 1) ∧
           counter_set s s' (saturating_add_i64 m 1) ∧ fence_counter s ≤ m ∧
           ∀ r f, r ∈ requests args → is_write r = true →
             stored_fence s namespace (lr_path r) = Some f → f ≤ m
       else args' = args ∧ s' = s) s.
Proof.
  unfold mint_fence_if_needed, mints. destruct (_ || _); [by apply wp_ret|]. cbn [negb andb].
  destruct (existsb is_write (requests args)); cbn [negb]; [|by apply wp_ret].
  apply wp_bind, read_fence_counter_wlp. apply wp_bind.
  eapply wp_mono; [apply max_fence_wlp|]. intros m s' (-> & Hm & Hall). cbv zeta.
  apply wp_bind, write_fence_counter_wlp. intros s' Hc Hn Hk. apply wp_ret.
  exists m. split; [done|]. split; [done|]. split; [done|].
  intros r f Hr Hw. apply Hall. by apply list_elem_of_filter.
Qed.

Lemma incr_wlp s :
  wlp incr_fence_inner
    (λ t s', t = saturating_add_i64 (fence_counter s) 1 ∧ counter_set s s' t) s.
Proof.
  unfold incr_fence_inner. apply wp_bind, read_fence_counter_wlp. cbv zeta.
  apply wp_bind, write_fence_counter_wlp. intros s' Hc Hn Hk. by apply wp_ret.
Qed.

(** ** The counter never decreases *)

Definition counter_ge (c : Z) (s : Kv) : Prop := c ≤ fence_counter s ≤ i64_max.

Lemma counter_ge_op c cmd d s resp s1 :
  index_ok s → counter_ge c s → execute_op cmd (kv_now s) d s = Ok (resp, s1) → counter_ge c s1.
Proof.
  intros Hi Hc Hrun.
  set (I t := (counter_ge c t ∧ index_ok t) ∧ kv_now t = kv_now s).
  assert (Closed apply_write I) as HC.
  { apply closed_and; [apply closed_and; [|apply _]|apply _].
    apply (key_closed_pred CF_META META_FENCE_COUNTER_KEY (λ b, c ≤ counter_value b ≤ i64_max));
      [done|by intros []]. }
  assert (GcClosed I) as HG.
  { apply gc_and; [apply gc_and; [|apply _]|apply _].
    by apply (key_gc_pred CF_META META_FENCE_COUNTER_KEY (λ b, c ≤ counter_value b ≤ i64_max)). }
  assert (∀ t t' n, I t → counter_set t t' (saturating_add_i64 n 1) → fence_counter t ≤ n → I t') as Hset.
  { intros t t' n [[Hge Hix] Hnow] (H1 & H2 & H3) Hn. split; [|by rewrite H2]. split.
    - unfold counter_ge in *. rewrite H1. unfold saturating_add_i64, i64_min, i64_max in *. lia.
    - intros ek c' Hek. rewrite H3 in Hek by done. by eapply Hix. }
  assert (I s1) as [[? _] _]; [|done].
  refine (keeps_run I _ _ _ _ _ (conj (conj Hc Hi) eq_refl) Hrun).
  apply execute_op_keeps_with; [done|apply _|by intros t [[_ ?] _]|by intros t [_ ?]|..].
  - intros ns args alg t Ht. eapply wp_mono; [apply mint_wlp|]. intros args' t'.
    destruct (mints args alg); [|by intros [_ ->]]. intros (m & _ & Hs & Hm & _). by eapply Hset.
  - intros t Ht. eapply wp_mono; [apply incr_wlp|]. intros n t' [-> Hs]. by eapply Hset.
Qed.

(** ** The token of a response *)

Definition response_token (resp : ApplyResponse) : option Z :=
  match resp with
  | RIncrFence t | RAcquire (AcquireOk t) | RAcquire (AcquireQueued _ _ _ t)
  | AcquireGranted (AcquireOk t) _ => Some t
  | _ => None
  end.

(** The token a command issued: a fence increment, or an acquire that minted. *)
Definition issued (cmd : Command) (resp : ApplyResponse) : option Z :=
  match cmd_op cmd with
  | IncrFence => response_token resp
  | AcquireInNamespace _ policy args =>
      if mints args (algorithm policy) then response_token resp else None
  | _ => None
  end.

Lemma wlp_any {T A B} (m : txm T A) (f : A → txm T B) (Q : B → T → Prop) s :
  (∀ a s', wlp (f a) Q s') → wlp (m ≫= f) Q s.
Proof.
  intros H. apply wp_bind. unfold wp at 1. destruct (m s) as [[a s']|e]; [apply H|done].
Qed.
Lemma wlp_true {T A} (m : txm T A) (Q : A → T → Prop) s : (∀ a s', Q a s') → wlp m Q s.
Proof. intros H. unfold wp. by destruct (m s) as [[a s']|e]. Qed.

Lemma acquire_token_wlp args policy namespace s :
  wlp (acquire_inner_in_namespace (T := Kv) args policy namespace)
    (λ o _, (∀ t, o = AcquireOk t → 0 < fencing_token args → requests args ≠ [] →
       t = fencing_token args) ∧ ∀ p w q t, o ≠ AcquireQueued p w q t) s.
Proof.
  unfold acquire_inner_in_namespace. destruct (_ && _) eqn:Hr.
  { apply andb_true_iff in Hr as [Hr%bool_decide_eq_true _]. by apply wp_ret. }
  apply wlp_any. intros a s1. clear Hr. cbv zeta.
  destruct (existsb _ (requests args) && _); [by apply wp_ret|].
  apply wlp_any. intros [] s2. apply wp_bind.
  eapply wp_mono; [apply refuses_validate|]. intros [oc|] s3 [Hok Hq].
  { apply wp_ret. split; [intros t ->; by destruct (Hok t)|]. intros p w q t ->. by destruct (Hq p w q t). }
  apply wp_bind. eapply wp_mono; [apply refuses_find_first; intros ?; apply refuses_apply|].
  intros [oc|] s4 [Hok' Hq'].
  { apply wp_ret. split; [intros t ->; by destruct (Hok' t)|]. intros p w q t ->. by destruct (Hq' p w q t). }
  apply wlp_any. intros [] s5. apply wlp_any. intros [] s6. apply wp_ret. split; [|done].
  intros t [= <-] Ht _. by rewrite (proj2 (Z.ltb_lt _ _) Ht).
Qed.

#[local] Instance counter_ge_closed c : Closed apply_write (counter_ge c).
Proof.
  apply (key_closed_pred CF_META META_FENCE_COUNTER_KEY (λ b, c ≤ counter_value b ≤ i64_max));
    [done|by intros []].
Qed.

Lemma acquire_minted_token namespace policy args s :
  0 < fencing_token args → requests args ≠ [] →
  wlp (acquire_minted (T := Kv) namespace policy args)
    (λ resp _, ∀ t, response_token resp = Some t → t = fencing_token args) s.
Proof.
  intros Ht Hne. unfold acquire_minted. apply wlp_any. intros wa s2. apply wlp_any.
  intros [[[o p] r]|] s3.
  { apply wlp_any. intros n s4. apply wp_ret. by intros t [= <-]. }
  apply wp_bind. eapply wp_mono; [apply acquire_token_wlp|]. intros oc s4 [Hoc Hq].
  destruct oc as [t|p o r|p r|p o r t].
  - rewrite (Hoc t eq_refl Ht Hne). unfold acquire_granted.
    apply wlp_any. intros [] s5. apply wlp_any. intros granted s6. apply wp_ret.
    intros t'. by case_bool_decide; intros [= <-].
  - destruct (is_queueable r); [|by apply wp_ret].
    apply wlp_any. intros n s5. apply wp_ret. by intros t [= <-].
  - by apply wp_ret.
  - by destruct (Hq p o r t).
Qed.

(** An acquire that mints answers with a token above the counter and above the
    fences of its write paths, and leaves the counter at least there. *)
Lemma execute_acquire_issued namespace args policy s :
  0 ≤ fence_counter s < i64_max → mints args (algorithm policy) = true →
  wlp (execute_acquire namespace args policy)
    (λ resp s', ∀ t, response_token resp = Some t →
       fence_counter s < t ≤ fence_counter s' ∧
       ∀ r f, r ∈ requests args → is_write r = true →
         stored_fence s namespace (lr_path r) = Some f → f < i64_max → f < t) s.
Proof.
  intros Hc Hm. unfold execute_acquire. apply wp_bind. eapply wp_mono; [apply mint_wlp|].
  intros args' s1. rewrite Hm. intros (m & -> & (Hset & _) & Hle & Hall).
  set (tok := saturating_add_i64 m 1) in *.
  assert (fence_counter s < tok ≤ i64_max ∧ ∀ r f, r ∈ requests args → is_write r = true →
    stored_fence s namespace (lr_path r) = Some f → f < i64_max → f < tok) as [H1 H2].
  { unfold tok, saturating_add_i64, i64_max, i64_min in *. split; [lia|].
    intros r f Hr Hw Hf. specialize (Hall r f Hr Hw Hf). lia. }
  assert (requests (with_token args tok) ≠ []) as Hne.
  { unfold mints in Hm. apply andb_true_iff in Hm as [_ Hm]. simpl. by destruct (requests args). }
  assert (counter_ge tok s1) as Hge by (unfold counter_ge; lia).
  pose proof (sim_keeps (counter_ge tok) _
    (sim_acquire_minted (same (counter_ge tok)) namespace policy (with_token args tok)) s1 Hge) as Hk.
  pose proof (acquire_minted_token namespace policy (with_token args tok) s1) as Hk2.
  eapply wp_mono; [exact (wp_conj _ _ _ _ _ Hk (Hk2 ltac:(simpl; lia) Hne))|].
  intros resp s' [[Hge' _] Ht] t Htok. rewrite (Ht t Htok). cbn [with_token fencing_token].
  split; [lia|]. intros r f Hr Hw Hf Hmax. by apply (H2 r f).
Qed.

(** The staleness checks read, and answer with a rejection. *)
Definition rejection (r : option ApplyResponse) : Prop :=
  match r with Some resp => ∃ kind detail, resp = Rejected kind detail | None => True end.

Lemma first_stale_rejection roots stamped paths : rejection (first_stale roots stamped paths).
Proof.
  induction paths as [|p paths IH]; [done|]. simpl. destruct (stale_path roots stamped p); [|done].
  simpl. eauto.
Qed.
Lemma reject_stale_routing_wlp namespace args (s : Kv) :
  wlp (reject_stale_routing namespace args) (λ r s', s' = s ∧ rejection r) s.
Proof.
  unfold reject_stale_routing. apply wp_bind. unfold wp at 1. cbn. apply wp_bind.
  unfold kv_scan, lift, wp at 1. destruct (visit_all _ _ _); [|done].
  apply wp_ret. split; [done|apply first_stale_rejection].
Qed.
Lemma reject_stale_policy_epoch_wlp namespace stamped d (s : Kv) :
  wlp (reject_stale_policy_epoch namespace stamped d) (λ r s', s' = s ∧ rejection r) s.
Proof.
  unfold reject_stale_policy_epoch. apply wp_bind.
  eapply (wp_mono _ _ (λ _ s', s' = s)).
  - assert (reads (get_namespace_policy_record_inner (T := Kv) namespace d)) as Hr.
    { unfold get_namespace_policy_record_inner. cbn [get_str raw_store kv_raw kv_store].
      unfold w_get_str. solve_reads. }
    specialize (Hr s). unfold wp. by destruct (get_namespace_policy_record_inner namespace d s) as [[??]|].
  - intros [current explicit] s' ->. apply wp_ret. split; [done|]. case_bool_decide; simpl; eauto.
Qed.

Lemma stale_step_wlp (m : txm Kv (option ApplyResponse)) (f : txm Kv ApplyResponse)
    (Q : ApplyResponse → Kv → Prop) s :
  wlp m (λ r s', s' = s ∧ rejection r) s → (∀ kind detail, Q (Rejected kind detail) s) →
  wlp f Q s →
  wlp (stale ← m; match stale with Some resp => mret resp | None => f end) Q s.
Proof.
  intros Hm Hr Hf. apply wp_bind. eapply wp_mono; [exact Hm|].
  intros [r|] s1 [-> Hrej]; [|done]. destruct Hrej as (kind & detail & ->). apply wp_ret, Hr.
Qed.

Lemma execute_op_issued cmd d s resp s' t :
  0 ≤ fence_counter s < i64_max → execute_op cmd (kv_now s) d s = Ok (resp, s') →
  issued cmd resp = Some t → fence_counter s < t ≤ fence_counter s'.
Proof.
  intros Hc Hrun Hiss. unfold issued in Hiss. unfold execute_op in Hrun.
  set (Q := λ (resp : ApplyResponse) (s' : Kv),
    ∀ t, response_token resp = Some t → fence_counter s < t ≤ fence_counter s').
  destruct (cmd_op cmd) as [| | | | | | | | | | | | | |namespace policy args] eqn:Hop; try done.
  - assert (wlp (token ← incr_fence_inner; mret (RIncrFence token)) Q s) as Hw.
    { apply wp_bind. eapply wp_mono; [apply incr_wlp|]. intros n s1 [-> [Hset _]]. apply wp_ret.
      intros t' [= <-]. rewrite Hset. unfold saturating_add_i64, i64_max, i64_min in *. lia. }
    exact (wlp_run _ _ _ _ _ Hw Hrun t Hiss).
  - destruct (mints args (algorithm policy)) eqn:Hm; [|done].
    assert (wlp (acquire_in_namespace (is_some (request_id cmd)) namespace policy args d) Q s) as Hw.
    { unfold acquire_in_namespace. apply stale_step_wlp; [apply reject_stale_routing_wlp|done|].
      apply stale_step_wlp; [|done|].
      - destruct (is_some (request_id cmd)); [apply reject_stale_policy_epoch_wlp|by apply wp_ret].
      - eapply wp_mono; [by apply execute_acquire_issued|]. intros resp' s1 H t' Ht'. by apply H. }
    exact (wlp_run _ _ _ _ _ Hw Hrun t Hiss).
Qed.

(** ** Across commands *)
Section commands.
Context `{!Bincode Op, !Bincode (Z * ApplyResponse)} (xxh3_64 : bytes → Z).

Lemma fence_counter_bookkeeping applied cmd last now s :
  fence_counter (put_applied applied (put_last_now cmd last now s)) = fence_counter s.
Proof. unfold fence_counter. by rewrite cf_map_put_meta. Qed.
Lemma fence_counter_response cmd resp s :
  fence_counter (put_response xxh3_64 cmd resp s) = fence_counter s.
Proof. unfold fence_counter. by rewrite cf_map_put_response. Qed.

Lemma apply_kv_counter c s cmd applied d s' resp :
  index_ok s → counter_ge c s → apply_kv xxh3_64 s cmd applied d = Ok (s', resp) → counter_ge c s'.
Proof.
  intros Hi Hc H%apply_kv_cases. unfold counter_ge in *.
  destruct H as [r Hr|r s1 Hr Hrun Hcm|r Hr Hcm]; [done|..];
    rewrite fence_counter_bookkeeping; [|done]. rewrite fence_counter_response.
  by apply (counter_ge_op c cmd d (at_time s (now_eff s cmd)) r s1).
Qed.
Lemma kv_steps_counter c s s' :
  rtc (kv_step xxh3_64) s s' → index_ok s → counter_ge c s → index_ok s' ∧ counter_ge c s'.
Proof.
  induction 1 as [|s1 s2 s3 (cmd & applied & d & resp & _ & Hrun) _ IH]; [done|]. intros Hi Hc.
  apply IH; [by eapply apply_kv_index|by eapply apply_kv_counter].
Qed.

Lemma apply_kv_issued s cmd applied d s' resp t :
  index_ok s → 0 ≤ fence_counter s < i64_max → cached xxh3_64 s cmd = false →
  apply_kv xxh3_64 s cmd applied d = Ok (s', resp) → issued cmd resp = Some t →
  fence_counter s < t ≤ fence_counter s'.
Proof.
  intros Hi Hc Hnc H%apply_kv_cases Hiss. unfold cached in Hnc.
  destruct H as [r Hr|r s1 Hr Hrun Hcm|r Hr Hcm]; [by rewrite Hr in Hnc|..];
    rewrite fence_counter_bookkeeping.
  - rewrite fence_counter_response.
    by apply (execute_op_issued cmd d (at_time s (now_eff s cmd)) r s1).
  - unfold issued in Hiss. exfalso. destruct (cmd_op cmd); try done; [|destruct (mints _ _); [|done]];
      by destruct r as [[]|[]| | | | | | | |].
Qed.

(** C40: Fencing tokens of a group strictly increase.  A token a command issues (a
    fence increment, or an acquire that mints one, whether granted or queued) is
    smaller than every token issued by a later command of the group, whatever
    commands run in between. *)
Theorem tokens_strictly_increase s cmd applied d s1 resp t s2 cmd2 applied2 d2 s3 resp2 t2 :
  index_ok s → 0 ≤ fence_counter s < i64_max →
  cached xxh3_64 s cmd = false → apply_kv xxh3_64 s cmd applied d = Ok (s1, resp) →
  issued cmd resp = Some t →
  rtc (kv_step xxh3_64) s1 s2 → fence_counter s2 < i64_max →
  cached xxh3_64 s2 cmd2 = false → apply_kv xxh3_64 s2 cmd2 applied2 d2 = Ok (s3, resp2) →
  issued cmd2 resp2 = Some t2 → t < t2.
Proof.
  intros Hi Hc Hnc Hrun Hiss Hsteps Hmax Hnc2 Hrun2 Hiss2.
  pose proof (apply_kv_issued _ _ _ _ _ _ _ Hi Hc Hnc Hrun Hiss) as Ht.
  pose proof (apply_kv_index _ _ _ _ _ _ _ Hi Hrun) as Hi1.
  assert (counter_ge (fence_counter s) s) as Hge by (unfold counter_ge; lia).
  pose proof (apply_kv_counter _ _ _ _ _ _ _ Hi Hge Hrun) as [_ Hle].
  destruct (kv_steps_counter (fence_counter s1) s1 s2 Hsteps Hi1) as [Hi2 [Hge2 _]];
    [unfold counter_ge; lia|].
  pose proof (apply_kv_issued _ _ _ _ _ _ _ Hi2 ltac:(lia) Hnc2 Hrun2 Hiss2). lia.
Qed.
End commands.

(** A minted token beats the fences it will be checked against.  When an
    acquire asks the group for a token and is granted or queued, its token exceeds
    the group's counter and the fence stored for each path it wants to write, so a
    grant is never refused as stale on arrival. *)
Theorem minted_token_exceeds_fences namespace args policy s resp s' t :
  0 ≤ fence_counter s < i64_max → mints args (algorithm policy) = true →
  execute_acquire namespace args policy s = Ok (resp, s') → response_token resp = Some t →
  fence_counter s < t ≤ fence_counter s' ∧
  ∀ r f, r ∈ requests args → lr_mode r = Write →
    stored_fence s namespace (lr_path r) = Some f → f < i64_max → f < t.
Proof.
  intros Hc Hm Hrun Ht.
  destruct (wlp_run _ _ _ _ _ (execute_acquire_issued namespace args policy s Hc Hm) Hrun t Ht) as [H1 H2].
  split; [done|]. intros r f Hr Hw. apply H2; [done|]. by apply bool_decide_eq_true.
Qed.
End fences.

(** ** Witnesses *)
Module FenceWitness.
Import ApplyTheorems.Witness.
#[local] Existing Instance ref_bincode.
#[local] Existing Instances entry_codec group_codec op_codec response_codec.

Definition incr (now : Z) : Command :=
  {| request_id := None; cmd_now_ms := now; cmd_op := IncrFence |}.
Definition run5 := apply_kv hash s2 (incr 2000) None d.
Lemma run5_ok : apply_kv hash s2 (incr 2000) None d = Ok (state_of run5, RIncrFence 3).
Proof. apply run_inv. vm_compute. reflexivity. Qed.
Lemma counter2 : fence_counter s2 < i64_max.
Proof. vm_compute. reflexivity. Qed.
Lemma run0_ok' : apply_kv hash s0 (command "c1" "alice" "fs:/x" 1000) None d = Ok (s1, RAcquire (AcquireOk 1)).
Proof. exact run0_ok. Qed.

(** The acquire of [alice] got token 1, an increment after [bob] queued gets 3. *)
Lemma tokens_strictly_increase_witness : 1 < 3.
Proof.
  refine (tokens_strictly_increase hash s0 (command "c1" "alice" "fs:/x" 1000) None d s1
    (RAcquire (AcquireOk 1)) 1 s2 (incr 2000) None d (state_of run5) (RIncrFence 3) 3
    (index_ok_empty 0) _ run0_first run0_ok' eq_refl steps12 counter2 eq_refl run5_ok eq_refl).
  split; [done|]. vm_compute. reflexivity.
Defined.

Definition acquired3 := execute_acquire (bs "fs") (args "carol" "fs:/z") (from_algorithm RecursiveRw) s2.
Definition end_of (r : result (ApplyResponse * Kv)) : Kv :=
  match r with Ok (_, s) => s | Err _ => s0 end.
Lemma acquired3_ok :
  execute_acquire (bs "fs") (args "carol" "fs:/z") (from_algorithm RecursiveRw) s2 =
  Ok (RAcquire (AcquireOk 3), end_of acquired3).
Proof.
  assert (∀ r : result (ApplyResponse * Kv),
    match r with Ok (a, _) => Some a | Err _ => None end = Some (RAcquire (AcquireOk 3)) →
    r = Ok (RAcquire (AcquireOk 3), end_of r)) as H by (by intros [[??]|]; intros [= ->]).
  apply H. vm_compute. reflexivity.
Qed.

Lemma minted_token_exceeds_fences_witness : fence_counter s2 < 3 ≤ fence_counter (end_of acquired3).
Proof.
  refine (proj1 (minted_token_exceeds_fences (bs "fs") (args "carol" "fs:/z")
    (from_algorithm RecursiveRw) s2 (RAcquire (AcquireOk 3)) (end_of acquired3) 3 _ eq_refl
    acquired3_ok eq_refl)).
  split; [|apply counter2]. by vm_compute.
Defined.
End FenceWitness.
