(* ===== verification/GroupState.v ===== *)
(** * A group's lock tables and wait queue together

    [group_ok semp]: the store is [sane], the lock state is consistent
    ([good semp]), the queue is well formed ([queue_ok]) and every waiter's
    request is admissible under [semp], so that a grant sweep may run it.  The
    engine touches only the first half, the queue only the second. *)

From Stdlib Require Import ZArith NArith Lia Strings.Byte.
From stdpp Require Import sorting countable base numbers gmap strings list.
From S2P Require Import Prelude RustStd StoreKeys Store StoreScan StoreSim KvView EngineTypes.
From S2P Require Import Engine EngineView EngineInv EngineValidate EngineAcquire EngineApply.
From S2P Require Import EngineOps.
From S2P Require Import EngineRelease EngineGrant EngineRest EngineSafe EngineSteps.
From S2P Require Import EngineTotal Footprint Paths Placement.
From S2P Require Import Queue QueueState QueueOps QueueScans Command QueueTheorems.
From S2P Require Import StateMachine.
From S2P Require Import ApplySim ApplyKeeps.
Local Open Scope Z_scope.

(** The keys the queue's state is made of. *)
Definition queue_key (c : cf) (k : bytes) : bool :=
  match c with
  | CF_QUEUE => true
  | CF_META => bool_decide (k = META_QUEUE_SEQ_KEY ∨ k = META_QUEUE_COUNT_KEY)
  | _ => false
  end.

Lemma queue_key_readable c k : queue_key c k = true → readable c k = false.
Proof. destruct c; try done. simpl. by intros [->| ->]%bool_decide_eq_true. Qed.
Lemma queue_write_key c k w : queue_write c k w = true → queue_key c k = true.
Proof. destruct c, w; done. Qed.
Lemma lock_write_not_queue c k w : queue_key c k = true → lock_write c k w = false.
Proof.
  destruct c; try done; destruct w; try done; simpl; intros [->| ->]%bool_decide_eq_true; done.
Qed.
Lemma policy_write_not_queue c k w : queue_key c k = true → policy_write c k w = false.
Proof. by destruct c, w. Qed.

Section group.
Context `{!Bincode StoredRecord, !Bincode QueueEntry, !Bincode GroupRecord}.

(** ** What the two halves depend on *)

Lemma sane_ext s s' :
  (∀ c k, readable c k = true → cf_map s' c !! k = cf_map s c !! k) → sane s → sane s'.
Proof. intros H Hs c k b Hk Hr. apply (Hs c k); [|done]. by rewrite <- H. Qed.

Lemma view_ext s s' c k :
  kv_now s' = kv_now s → c ≠ CF_EXPIRY → cf_map s' c !! k = cf_map s c !! k →
  KvView.view s' !! (c, k) = KvView.view s !! (c, k).
Proof. intros Hn Hc Hk. by rewrite !view_lookup_live, Hn, Hk by done. Qed.

Lemma good_ext semp (V V' : View) :
  (∀ c k, lasting_key c k = true → c ≠ CF_NAMESPACE_SETTINGS → V' !! (c, k) = V !! (c, k)) →
  good semp V → good semp V'.
Proof.
  intros H [HI Hok]. split.
  - apply (Inv_ext semp V); [done|..].
    + intros [c k] Hi. apply H; destruct Hi as [Hi|[Hi|[Hi|[Hi|Hi]]]]; simpl in Hi; by subst.
    + intros o m p. by apply H.
    + intros p. by apply H.
  - apply (own_ok_ext V); [done|]. intros [c k] Hi. apply H;
    destruct Hi as [Hi|[[Hi|[Hi|[Hi|Hi]]]|Hi]]; simpl in Hi; by subst.
Qed.

Lemma lasting_readable c k : lasting_key c k = true → readable c k = true ∧ c ≠ CF_EXPIRY.
Proof. by destruct c. Qed.

(** The lock state depends on the lasting records only. *)
Lemma good_same semp s s' :
  kv_now s' = kv_now s →
  (∀ c k, lasting_key c k = true → c ≠ CF_NAMESPACE_SETTINGS →
     cf_map s' c !! k = cf_map s c !! k) →
  good semp (KvView.view s) → good semp (KvView.view s').
Proof.
  intros Hn H. apply good_ext. intros c k Hk Hne. apply view_ext; [done| |by apply H].
  by apply lasting_readable in Hk as [_ ?].
Qed.

Lemma qview_same s s' :
  kv_now s' = kv_now s →
  (∀ c k, queue_key c k = true → cf_map s' c !! k = cf_map s c !! k) → qview s' = qview s.
Proof.
  intros Hn H. unfold qview. rewrite Hn. f_equal; try by apply H.
  apply map_eq. intros k. by apply H.
Qed.

(** ** The invariant *)
Section ok.
Context (semp : str → bool).

Definition entry_ok (e : QueueEntry) : Prop :=
  acquire_ok semp (qe_args e) (qe_policy e) (qe_namespace e).
Record group_ok (s : Kv) : Prop := {
  go_sane : sane s;
  go_good : good semp (KvView.view s);
  go_queue : queue_ok (qview s);
  go_entries e : e ∈ waiters (qview s) → entry_ok e
}.

(** The keys the invariant depends on. *)
Lemma group_ok_same s s' :
  kv_now s' = kv_now s →
  (∀ c k, readable c k || queue_key c k = true → cf_map s' c !! k = cf_map s c !! k) →
  group_ok s → group_ok s'.
Proof.
  intros Hn H [Hs Hg Hq He].
  assert (qview s' = qview s) as Hqv.
  { apply qview_same; [done|]. intros c k Hk. apply H. by rewrite Hk, orb_true_r. }
  split; [| |by rewrite Hqv|by rewrite Hqv].
  - apply (sane_ext s); [|done]. intros c k Hk. apply H. by rewrite Hk.
  - apply (good_same semp s); [done| |done]. intros c k [Hk _]%lasting_readable _. apply H. by rewrite Hk.
Qed.

(** A change of the queue alone. *)
Lemma group_ok_queue s s' :
  kv_now s' = kv_now s →
  (∀ c k, readable c k = true → cf_map s' c !! k = cf_map s c !! k) →
  queue_ok (qview s') → (∀ e, e ∈ waiters (qview s') → e ∈ waiters (qview s) ∨ entry_ok e) →
  group_ok s → group_ok s'.
Proof.
  intros Hn H Hq' He' [Hs Hg Hq He]. split; [by apply (sane_ext s)| |done|].
  - apply (good_same semp s); [done| |done]. intros c k [Hk _]%lasting_readable _. by apply H.
  - intros e [?|?]%He'; auto.
Qed.

(** A change of the lock tables alone. *)
Lemma group_ok_locks s s' :
  qview s' = qview s → sane s' → good semp (KvView.view s') → group_ok s → group_ok s'.
Proof. intros Hq Hs Hg [_ _ Hqo He]. split; [done..| |]; by rewrite Hq. Qed.
End ok.
End group.
