(* ===== verification/GroupSteps.v ===== *)
(** * Every operation of the state machine keeps the group invariant

    The engine operations, the queue operations, the grant sweeps and a GC sweep
    keep [group_ok semp] and the namespace settings, and fail only by exceeding an
    enumeration limit ([limit_error]).  The number of hold-set members bounds the
    pages of an owner-wide release; [costs k] says an operation adds at most [k]. *)

From Stdlib Require Import ZArith NArith Lia Strings.Byte.
From stdpp Require Import sorting countable base numbers gmap strings list.
From S2P Require Import Prelude RustStd StoreKeys Store StoreScan StoreSim KvView EngineTypes.
From S2P Require Import Engine EngineView EngineInv EngineValidate EngineAcquire EngineApply.
From S2P Require Import EngineOps.
From S2P Require Import EngineRelease EngineGrant EngineRest EngineSafe EngineSteps.
From S2P Require Import EngineTotal EngineTheorems Footprint Paths Placement.
From S2P Require Import Queue QueueState QueueOps QueueScans Command QueueTheorems.
From S2P Require Import StateMachine.
From S2P Require Import ApplySim ApplyKeeps GroupState.
Local Open Scope Z_scope.

#[export] Instance queue_write_no_index : NoIndex queue_write.
Proof. by intros k [ttl| |]. Qed.

(** ** Which waiters a targeted sweep tries *)
Section targeted.
Context `{!Bincode StoredRecord, !Bincode QueueEntry}.

Lemma candidates_fold q d out ps :
  queue_ok q → ∃ out', qruns (fold_txm (collect_candidates d) out ps) q out' q ∧
    adds_candidates q (λ a, ∃ p, p ∈ ps ∧ related d p a) out out'.
Proof.
  intros Hq. revert out. induction ps as [|p ps IH]; intros out; simpl.
  - exists out. split; [apply qruns_ret|]. split_and!; [done|by left|].
    by intros e a _ _ (p & ?%not_elem_of_nil & _).
  - destruct (collect_candidates_adds q d out p Hq) as (o1 & Hr1 & H1).
    destruct (IH o1) as (o2 & Hr2 & H2). exists o2. split; [by eapply qruns_bind|].
    eapply adds_weaken; [|by eapply adds_trans]. intros a (p' & [->|Hp']%elem_of_cons & Hrel); [by left|].
    right. by exists p'.
Qed.

Lemma reads_read_entries l : reads (read_entries (T := Kv) l).
Proof.
  unfold read_entries. apply reads_fold. intros es x.
  apply reads_bind; [apply reads_read_entry|solve_reads].
Qed.

Lemma read_entries_run q l acc :
  queue_ok q → (∀ e, e ∈ l → e ∈ waiters q) →
  qruns (fold_txm (λ (entries : list QueueEntry) seq,
    e ← read_entry seq;
    mret match e with Some entry => entries ++ [entry] | None => entries end) acc (qe_seq <$> l))
    q (acc ++ l) q.
Proof.
  intros Hq. revert acc. induction l as [|e l IH]; intros acc Hl.
  - rewrite app_nil_r. apply qruns_ret.
  - rewrite fmap_cons. cbn [fold_txm]. assert (e ∈ waiters q) as He by (apply Hl; by left).
    eapply qruns_bind.
    + eapply qruns_bind; [apply read_entry_run; [done|]|].
      { apply elem_waiters in He as (x & [? _] & _); done. }
      rewrite waiter_at_unique by done. apply qruns_ret.
    + replace (acc ++ e :: l) with ((acc ++ [e]) ++ l) by by rewrite <- app_assoc.
      apply IH. intros e' He'. apply Hl. by right.
Qed.

(** The sweep for freed paths is the plain sweep over the waiters with a number
    among the candidates; every waiter on a related path is one of them. *)
Lemma targeted_sweep s freed :
  queue_ok (qview s) →
  ∃ (l : list QueueEntry) (C : gset Z), l = filter (λ e, qe_seq e ∈ C) (waiters (qview s)) ∧
    (∀ e a, e ∈ waiters (qview s) → a ∈ wait_paths e →
       (∃ p, p ∈ freed ∧ related true p a) → e ∈ l) ∧
    grant_sweep_for_paths sweep_try freed s = run_grant_sweep sweep_try l s.
Proof.
  intros Hq. destruct (candidates_fold (qview s) true ∅ freed Hq) as (C & Hr & _ & HC & Hin).
  exists (filter (λ e, qe_seq e ∈ C) (waiters (qview s))), C. split; [done|]. split.
  { intros e a He Ha Hrel. apply list_elem_of_filter. split; [by eapply Hin|done]. }
  assert (∀ n, n ∈ C → ∃ e, e ∈ waiters (qview s) ∧ qe_seq e = n) as HC'.
  { intros n [?|?]%HC; [set_solver|done]. }
  assert (returns (fold_txm (collect_candidates true) ∅ freed) s C) as Hc.
  { eapply qruns_returns; [|exact Hr]. apply reads_fold. intros. apply reads_collect_candidates. }
  assert (returns (read_entries (ascending C)) s (filter (λ e, qe_seq e ∈ C) (waiters (qview s)))) as He.
  { eapply qruns_returns; [apply reads_read_entries|]. rewrite (ascending_waiters _ _ Hq HC').
    apply (read_entries_run (qview s) _ []); [done|]. intros e [_ ?]%list_elem_of_filter. done. }
  assert (C = ∅ → filter (λ e, qe_seq e ∈ C) (waiters (qview s)) = []) as Hnil.
  { intros HC0. generalize (waiters (qview s)) as W. intros W. induction W as [|e W IH]; [done|].
    by rewrite filter_cons_False by set_solver. }
  unfold grant_sweep_for_paths. case_bool_decide as Hf.
  { subst freed. simpl in Hc. unfold returns, mret, txm_ret in Hc. injection Hc as Hc. by rewrite Hnil. }
  unfold mbind, txm_bind. rewrite Hc. case_bool_decide as HC0.
  { by rewrite Hnil. }
  by rewrite He.
Qed.
End targeted.

(** ** The cost of a sweep *)

Definition entry_cost (e : QueueEntry) : nat := length (requests (qe_args e)).
Fixpoint sweep_cost (es : list QueueEntry) : nat :=
  match es with [] => 0 | e :: es => entry_cost e + sweep_cost es end.

Lemma sweep_cost_filter (P : QueueEntry → Prop) `{!∀ e, Decision (P e)} es :
  (sweep_cost (filter P es) ≤ sweep_cost es)%nat.
Proof.
  induction es as [|e es IH]; [done|]. rewrite filter_cons. cbn [sweep_cost].
  case_decide; cbn [sweep_cost]; lia.
Qed.
Lemma sweep_cost_sub es es' : NoDup es → es ⊆ es' → (sweep_cost es ≤ sweep_cost es')%nat.
Proof.
  intros Hnd Hsub. assert (es ⊆+ es') as H by (apply NoDup_submseteq; [done|exact Hsub]). clear Hnd Hsub.
  induction H; cbn [sweep_cost] in *; lia.
Qed.

(** ** Growth of the hold sets *)
Section growth.
Context `{!Bincode StoredRecord}.

Definition own_le (B : nat) (s : Kv) : Prop := (size (cf_map s OWN_CF) ≤ B)%nat.

#[export] Instance own_le_closed B : Closed hold_write (own_le B).
Proof.
  unfold own_le. split.
  - intros s c k mk ttl HW _ H. assert (c ≠ OWN_CF) as Hc.
    { intros ->. unfold hold_write in HW. by rewrite andb_false_r in HW. }
    replace (cf_map (kv_put_ttl s c k mk ttl) OWN_CF) with (cf_map s OWN_CF); [done|].
    apply map_eq. intros k'. rewrite cf_map_put_ttl by done. by rewrite decide_False by naive_solver.
  - intros s c k b HW. unfold hold_write, lock_write in HW. done.
  - intros s c k _ H. destruct (decide (c = OWN_CF)) as [->|Hc].
    + unfold kv_del. rewrite cf_map_upd, decide_True by done.
      etrans; [apply map_subseteq_size, delete_subseteq|done].
    + unfold kv_del. by rewrite cf_map_upd, decide_False.
Qed.

Lemma own_le_sadd B k m ttl s :
  own_le B s → wlp (sadd OWN_CF k m ttl) (λ _, own_le (S B)) s.
Proof.
  unfold own_le. intros H. unfold wp. cbn [sadd kv_store].
  unfold w_sadd, put_expiring, write_expiry, mbind, txm_bind, asks, kv_put_raw. cbn.
  assert (∀ b, (size (<[member_key k m := b]> (cf_map s OWN_CF)) ≤ S B)%nat) as Hins.
  { intros b. rewrite map_size_insert. destruct (cf_map s OWN_CF !! member_key k m); simpl; lia. }
  unfold mret, txm_ret.
  destruct (0 <? ttl); rewrite ?cf_map_upd, ?decide_True, ?decide_False by done; apply Hins.
Qed.

Lemma own_le_apply_acquire B req ctx s :
  own_le B s → wlp (apply_acquire req ctx) (λ _, own_le (S B)) s.
Proof.
  intros H. unfold apply_acquire. cbv zeta. apply wp_bind.
  eapply wp_mono; [apply (sim_keeps (own_le B)); [solve_sim|done]|]. intros alg s1 H1. apply wp_bind.
  eapply wp_mono; [apply (sim_keeps (own_le B)); [|exact H1]|].
  { unfold apply_semaphore_acquire, apply_write_acquire, write_hold, apply_read_acquire.
    pose proof (sim_set_semaphore_capacity (same (own_le B))).
    pose proof (sim_add_descendant_indexes (same (own_le B))). solve_sim. }
  intros [o|] s2 H2; [apply wp_ret; unfold own_le in *; lia|]. apply wp_bind.
  eapply wp_mono; [apply (sim_keeps (own_le B)); [solve_sim|exact H2]|]. intros [] s3 H3. apply wp_bind.
  eapply wp_mono; [by apply own_le_sadd|]. intros [] s4 H4.
  apply (sim_keeps (own_le (S B))); [|done].
  pose proof (sim_set_hold_algorithm (same (own_le (S B)))). solve_sim.
Qed.

Lemma own_le_mono B B' s : (B ≤ B')%nat → own_le B s → own_le B' s.
Proof. unfold own_le. lia. Qed.

Lemma own_le_apply_loop B reqs ctx s :
  own_le B s → wlp (find_first reqs (λ req, apply_acquire req ctx)) (λ _, own_le (B + length reqs)) s.
Proof.
  revert B s. induction reqs as [|req reqs IH]; intros B s H; cbn [find_first length].
  { apply wp_ret. by eapply own_le_mono; [|exact H]; lia. }
  apply wp_bind. eapply wp_mono; [by apply own_le_apply_acquire|]. intros [o|] s1 H1.
  - apply wp_ret. eapply own_le_mono; [|exact H1]. lia.
  - eapply wp_mono; [by apply IH|]. intros r s2 H2. eapply own_le_mono; [|exact H2]. lia.
Qed.

Lemma own_le_acquire B args policy ns s :
  own_le B s →
  wlp (acquire_inner_in_namespace args policy ns) (λ _, own_le (B + length (requests args))) s.
Proof.
  intros H. unfold acquire_inner_in_namespace. cbv zeta.
  assert (∀ t, own_le B t → own_le (B + length (requests args)) t) as Hm
    by (intros t; apply own_le_mono; lia).
  destruct (_ && _); [apply wp_ret; auto|]. apply wp_bind.
  eapply wp_mono; [apply (sim_keeps (own_le B)); [solve_sim|exact H]|]. intros a s1 H1.
  destruct (_ && _); [apply wp_ret; auto|]. apply wp_bind.
  eapply wp_mono; [apply (sim_keeps (own_le B)); [solve_sim|exact H1]|]. intros [] s2 H2. apply wp_bind.
  eapply wp_mono; [apply (sim_keeps (own_le B)); [apply sim_validate_acquire; apply _|exact H2]|].
  intros [o|] s3 H3; [apply wp_ret; auto|]. apply wp_bind.
  eapply wp_mono; [by apply own_le_apply_loop|]. intros [o|] s4 H4; [by apply wp_ret|].
  apply (sim_keeps (own_le (B + length (requests args)))); [|done]. unfold refresh_portfolio.
  pose proof (sim_apply_releases (same (own_le (B + length (requests args))))). solve_sim.
Qed.
End growth.

Section steps.
Context `{!Bincode StoredRecord, !Bincode QueueEntry, !Bincode GroupRecord}.
Context (semp : str → bool) (now : Z) (M : gmap bytes bytes) (n : Z) (K : nat).

(** The invariant inside one command: the clock, the namespace settings and the
    last queue number do not change; there are at most [B] hold-set members, and the
    waiters ask for at most [K] more. *)
Record in_op (B : nat) (s : Kv) : Prop := {
  io_ok : group_ok semp s;
  io_now : kv_now s = now;
  io_settings : cf_map s CF_NAMESPACE_SETTINGS = M;
  io_seq : seq_value (qview s) = n;
  io_size : own_le B s;
  io_cost : (sweep_cost (waiters (qview s)) ≤ K)%nat
}.

Definition room_for (B : nat) : Prop := Z.of_nat B < 2 ^ 64.
Definition costs {A} (k : nat) (m : txm Kv A) : Prop :=
  ∀ B s, room_for (B + k) → in_op B s → wp limit_error m (λ _, in_op (B + k)) s.
Abbreviation holds m := (costs 0 m).

Lemma in_op_mono B B' s : (B ≤ B')%nat → in_op B s → in_op B' s.
Proof. intros Hle [H1 H2 H3 H4 H5 H6]. split; [done..|by eapply own_le_mono|done]. Qed.
Lemma in_op_add B s : in_op B s → in_op (B + 0) s.
Proof. by rewrite Nat.add_0_r. Qed.

Lemma costs_ret {A} (a : A) k : costs k (mret a).
Proof. intros B s _ Hs. apply wp_ret. eapply in_op_mono; [|done]. lia. Qed.
Lemma costs_bind {A C} k1 k2 k (m : txm Kv A) (f : A → txm Kv C) :
  (k1 + k2 ≤ k)%nat → costs k1 m → (∀ a, costs k2 (f a)) → costs k (m ≫= f).
Proof.
  intros Hk Hm Hf B s HB Hs. unfold room_for in HB. apply wp_bind.
  eapply wp_mono; [apply (Hm B); [unfold room_for; lia|done]|]. intros a s1 Hs1.
  eapply wp_mono; [apply (Hf a (B + k1)%nat); [unfold room_for; lia|done]|]. intros c s2 Hs2.
  eapply in_op_mono; [|exact Hs2]. lia.
Qed.
Lemma costs_mono {A} k k' (m : txm Kv A) : (k ≤ k')%nat → costs k m → costs k' m.
Proof.
  intros Hk Hm B s HB Hs. unfold room_for in HB.
  eapply wp_mono; [apply (Hm B); [unfold room_for; lia|done]|]. intros a s1 Hs1.
  eapply in_op_mono; [|exact Hs1]. lia.
Qed.
Lemma holds_bind {A C} (m : txm Kv A) (f : A → txm Kv C) :
  holds m → (∀ a, holds (f a)) → holds (m ≫= f).
Proof. by apply (costs_bind 0 0 0). Qed.
Lemma holds_fold {A S} (f : S → A → txm Kv S) xs s0 :
  (∀ acc x, x ∈ xs → holds (f acc x)) → holds (fold_txm f s0 xs).
Proof.
  revert s0. induction xs as [|x xs IH]; intros s0 Hf; cbn [fold_txm]; [apply costs_ret|].
  apply holds_bind; [apply Hf; by left|]. intros acc. apply IH. intros acc' y Hy. apply Hf. by right.
Qed.
Lemma wp_holds {A} (m : txm Kv A) B s :
  holds m → room_for B → in_op B s → wp limit_error m (λ _, in_op B) s.
Proof.
  intros Hm HB Hs. specialize (Hm B s). rewrite Nat.add_0_r in Hm. by apply Hm.
Qed.

(** ** Lifting the two halves *)

Lemma in_op_frame W s s' :
  frame W s s' → (∀ k w, W CF_NAMESPACE_SETTINGS k w = false) →
  kv_now s' = kv_now s ∧ cf_map s' CF_NAMESPACE_SETTINGS = cf_map s CF_NAMESPACE_SETTINGS.
Proof.
  intros [Hn Hk _ _] HW. split; [done|]. apply map_eq. intros k. by apply Hk.
Qed.

Lemma frame_qview s s' : frame lock_write s s' → qview s' = qview s.
Proof.
  intros [Hn Hk _ _]. apply qview_same; [done|]. intros c k Hq.
  apply Hk; [by intros ->|]. intros w. by apply lock_write_not_queue.
Qed.

Lemma frame_readable s s' :
  frame queue_write s s' → ∀ c k, readable c k = true → cf_map s' c !! k = cf_map s c !! k.
Proof.
  intros [_ Hk _ _] c k Hr. apply Hk; [by intros ->|]. intros w.
  destruct (queue_write c k w) eqn:Hw; [|done].
  by apply queue_write_key, queue_key_readable in Hw; rewrite Hw in Hr.
Qed.

Lemma wp_engine {A} (m : txm Kv A) B k s :
  in_op B s → wp limit_error m (λ _, sane) s →
  vwp now m (λ _, good semp) (KvView.view s) →
  sim (same (frame lock_write s)) m m → wlp m (λ _, own_le (B + k)) s →
  wp limit_error m (λ _, in_op (B + k)) s.
Proof.
  intros [Hok Hnow HM Hn HB HK] Hst Hv Hsim Hgr.
  specialize (Hv s Hnow eq_refl). unfold wp in *. destruct (m s) as [[a s']|e] eqn:Hm; [|done].
  pose proof (frame_run lock_write m s a s' Hsim Hm) as Hf.
  pose proof (frame_qview _ _ Hf) as Hq. destruct (in_op_frame _ _ _ Hf) as [Hnow' HM'].
  { by intros c [ttl| |]. }
  split; [|lia|congruence|by rewrite Hq|done|by rewrite Hq].
  apply (group_ok_locks semp s); [done|done|apply Hv|done].
Qed.

(** An operation that adds no hold. *)
Lemma holds_engine {A} (m : txm Kv A) :
  (∀ s, sane s → room_for (size (cf_map s OWN_CF)) → wp limit_error m (λ _, sane) s) →
  (∀ V, good semp V → vwp now m (λ _, good semp) V) →
  (∀ s, sim (same (frame lock_write s)) m m) → (∀ B, sim (same (own_le B)) m m) → holds m.
Proof.
  intros Hst Hv Hsim Hgr B s HB Hs. unfold room_for in HB. apply wp_engine; [done|..].
  - apply Hst; [apply Hs|]. pose proof (io_size _ _ Hs) as H. unfold own_le, room_for in *. lia.
  - apply Hv, Hs.
  - apply Hsim.
  - rewrite Nat.add_0_r. apply (sim_keeps (own_le B)); [done|apply Hs].
Qed.

(** The operations that neither acquire nor write policies. *)
Definition plain_op (x : op) : bool :=
  match x with OpAcquire _ _ _ | OpSetPolicy _ _ | OpDeletePolicy _ => false | _ => true end.

Lemma holds_op x : op_ok semp x → plain_op x = true → holds (run_op x).
Proof.
  intros Hx Hl. apply holds_engine.
  - intros s Hs HB. by apply (wp_op_errors semp).
  - intros V HV. by apply vwp_run_op.
  - intros s. destruct x; try done; unfold run_op, void, release_all_inner, force_release_inner; solve_sim.
  - intros B. destruct x; try done; unfold run_op, void, release_all_inner, force_release_inner; solve_sim.
Qed.

Lemma holds_void {A} (m : txm Kv A) : holds (void m) → holds m.
Proof.
  intros H B s HB Hs. specialize (H B s HB Hs). unfold void, wp, mbind, txm_bind in *.
  by destruct (m s) as [[a s']|e].
Qed.

Lemma costs_acquire args policy namespace :
  acquire_ok semp args policy namespace →
  costs (length (requests args)) (acquire_inner_in_namespace args policy namespace).
Proof.
  intros Ha B s HB Hs. unfold room_for in HB. apply wp_engine; [done|..].
  - apply wp_acquire_errors; [apply Hs| |].
    + pose proof (io_size _ _ Hs) as H. unfold own_le in H. lia.
    + intros req Hreq. by apply (aok_reqs _ _ _ _ Ha).
  - eapply vwp_mono; [apply vwp_acquire; [apply Hs|done]|]. intros a V' Hq. apply Hq.
  - solve_sim.
  - apply own_le_acquire, Hs.
Qed.
Lemma holds_release namespace o reqs w :
  nul_free o → (∀ req, req ∈ reqs → nul_free (scoped_path namespace (rel_path req))) →
  holds (release_inner_in_namespace namespace o reqs w).
Proof. intros Ho Hr. exact (holds_op (OpRelease namespace o reqs w) (conj Ho Hr) eq_refl). Qed.
Lemma holds_release_owner_wide o w : nul_free o → holds (release_owner_wide o w).
Proof.
  intros Ho. apply holds_engine; [..|intros; solve_sim|intros; solve_sim].
  - intros s Hs HB. by apply wp_release_owner_wide.
  - intros V HV. eapply vwp_mono; [by apply vwp_release_owner_wide|]. by intros [] V' (? & _).
Qed.

(** ** The queue *)

Lemma frame_own s s' B : frame queue_write s s' → own_le B s → own_le B s'.
Proof.
  intros Hf. unfold own_le. replace (cf_map s' OWN_CF) with (cf_map s OWN_CF); [done|].
  apply map_eq. intros k. symmetry. by apply (frame_readable s s' Hf).
Qed.

Lemma in_op_queue B s s' :
  in_op B s → frame queue_write s s' → queue_ok (qview s') →
  (∀ e, e ∈ waiters (qview s') → e ∈ waiters (qview s)) →
  seq_value (qview s') = n → in_op B s'.
Proof.
  intros [Hok Hnow HM Hn HB HK] Hf Hq He Hn'. destruct (in_op_frame _ _ _ Hf) as [Hnow' HM'].
  { by intros k [ttl| |]. }
  split; [|lia|congruence|done|by eapply frame_own|].
  - apply (group_ok_queue semp s); [done|by apply frame_readable|done| |done]. auto.
  - etrans; [|exact HK]. apply sweep_cost_sub; [|done].
    eapply NoDup_fmap_1, seq_sorted_nodup, waiters_sorted. done.
Qed.

Lemma holds_dequeue o : holds (dequeue o).
Proof.
  intros B s _ Hs. pose proof (go_queue _ _ (io_ok _ _ Hs)) as Hq.
  destruct (dequeue_run _ o Hq s eq_refl) as (s' & Hrun & Hq'). unfold wp. rewrite Hrun.
  apply in_op_add, (in_op_queue B s); [done|..].
  - eapply frame_run; [|exact Hrun]. apply sim_dequeue. apply _.
  - rewrite Hq'. by apply dequeued_ok.
  - intros e. rewrite Hq', dequeued_waiters by done. by intros [_ ?]%list_elem_of_filter.
  - rewrite Hq', dequeued_seq. apply Hs.
Qed.

(** Enqueueing ends a command, and moves the queue number. *)
Lemma wp_enqueue namespace args policy B s :
  in_op B s → n < i64_max → acquire_ok semp args policy namespace →
  wp limit_error (enqueue namespace args policy)
    (λ _ s', group_ok semp s' ∧ kv_now s' = now ∧ cf_map s' CF_NAMESPACE_SETTINGS = M ∧ own_le B s') s.
Proof.
  intros [Hok Hnow HM Hn HB _] Hmax Ha. pose proof (go_queue _ _ Hok) as Hq.
  assert (seq_value (qview s) < i64_max) as Hm by lia. unfold wp.
  destruct (decide (units_total (q_map (dequeued (owner_id args) (qview s)))
    + queue_units args ≤ QUEUE_SCAN_LIMIT)) as [Hr|Hr].
  - destruct (enqueue_run namespace args policy _ Hq Hm Hr s eq_refl) as (s' & Hrun & Hq').
    rewrite Hrun.
    assert (frame queue_write s s') as Hf.
    { eapply frame_run; [|exact Hrun]. apply sim_enqueue. apply _. }
    destruct (in_op_frame _ _ _ Hf) as [Hnow' HM']; [by intros k [ttl| |]|].
    split_and!; [|lia|congruence|by eapply frame_own].
    pose proof (enqueued_ok namespace args policy _ Hq Hm Hr) as Hqo.
    apply (group_ok_queue semp s); [done|by apply frame_readable|by rewrite Hq'| |done].
    intros e. rewrite Hq'. intros (x & Hs & Hx)%elem_waiters; [|done].
    rewrite enqueued_now in Hx.
    apply stored_enqueued in Hs; [|done..]. destruct Hs as [[-> _]|[Hs _]]; [by right|].
    apply stored_dequeued in Hs as [Hs _]; [|done..].
    left. apply elem_waiters; [done|]. by exists x.
  - rewrite (enqueue_fails namespace args policy _ Hq Hm Hr s eq_refl). by do 2 eexists.
Qed.

(** ** Grant sweeps *)

Lemma costs_sweep_step acc e : entry_ok semp e → costs (entry_cost e) (sweep_step sweep_try acc e).
Proof.
  intros He. unfold sweep_step. destruct acc as [notify reserved].
  destruct (reserved_conflicts _ _ _ _); [apply costs_ret|].
  assert (∀ r : list str * ReservedPaths, holds (dequeue (qe_owner e);; mret r)) as Hd.
  { intros r. apply holds_bind; [apply holds_dequeue|intros ?; apply costs_ret]. }
  apply (costs_bind (entry_cost e) 0); [lia|by apply costs_acquire|]. intros [tok|p o r|p r|p o r tok].
  - apply Hd.
  - destruct r; first [apply costs_ret|apply Hd].
  - apply Hd.
  - apply costs_ret.
Qed.

Lemma costs_run_grant_sweep es :
  (∀ e, e ∈ es → entry_ok semp e) → costs (sweep_cost es) (run_grant_sweep sweep_try es).
Proof.
  intros Hes. unfold run_grant_sweep.
  apply (costs_bind (sweep_cost es) 0); [lia| |intros [? ?]; apply costs_ret].
  generalize ([] : list str, ∅ : ReservedPaths). induction es as [|e es IH]; intros acc; [apply costs_ret|].
  cbn [fold_txm sweep_cost]. apply (costs_bind (entry_cost e) (sweep_cost es)); [lia|..].
  - apply costs_sweep_step, Hes. by left.
  - intros acc'. apply IH. intros e' He'. apply Hes. by right.
Qed.

Lemma costs_sweep_grants : costs K sweep_grants.
Proof.
  intros B s HB Hs. unfold sweep_grants, grant_sweep. pose proof (go_queue _ _ (io_ok _ _ Hs)) as Hq.
  destruct (scan_run _ Hq s eq_refl) as (s' & Hrun & Hq').
  assert (s' = s) as ->.
  { assert (reads scan) as Hr by (unfold scan; solve_reads). specialize (Hr s). by rewrite Hrun in Hr. }
  apply wp_bind. unfold wp at 1. rewrite Hrun.
  apply (costs_mono (sweep_cost (waiters (qview s)))); [apply Hs| |done|done].
  apply costs_run_grant_sweep. intros e He. by apply (go_entries _ _ (io_ok _ _ Hs)).
Qed.

(** A targeted sweep runs over waiters only. *)
Lemma costs_sweep_grants_for_paths freed : costs K (sweep_grants_for_paths freed).
Proof.
  intros B s HB Hs. pose proof (go_queue _ _ (io_ok _ _ Hs)) as Hq.
  destruct (targeted_sweep s freed Hq) as (l & C & Hl & _ & Hrun).
  unfold sweep_grants_for_paths, wp. rewrite Hrun.
  apply (costs_mono (sweep_cost l)); [| |done|done].
  - rewrite Hl. etrans; [apply sweep_cost_filter|apply Hs].
  - apply costs_run_grant_sweep. intros e He. apply (go_entries _ _ (io_ok _ _ Hs)). rewrite Hl in He.
    by apply list_elem_of_filter in He as [_ ?].
Qed.

(** ** Writes the invariant does not depend on *)

Lemma in_op_same B s s' :
  kv_now s' = kv_now s →
  (∀ c k, readable c k || queue_key c k = true → cf_map s' c !! k = cf_map s c !! k) →
  in_op B s → in_op B s'.
Proof.
  intros Hn H [Hok Hnow HM Hseq HB HK].
  assert (qview s' = qview s) as Hqv.
  { apply qview_same; [done|]. intros c k Hk. apply H. by rewrite Hk, orb_true_r. }
  split; [by apply (group_ok_same semp s)|lia|..].
  - rewrite <- HM. apply map_eq. intros k. by apply H.
  - by rewrite Hqv.
  - unfold own_le in *. replace (cf_map s' OWN_CF) with (cf_map s OWN_CF); [done|].
    apply map_eq. intros k. symmetry. by apply H.
  - by rewrite Hqv.
Qed.

Lemma in_op_put B c k b s :
  readable c k || queue_key c k = false → in_op B s → in_op B (kv_put s c k b).
Proof.
  intros Hk. apply in_op_same; [done|]. intros c' k' Hk'. rewrite cf_map_put, decide_False; [done|].
  intros [-> ->]. congruence.
Qed.
Lemma in_op_del B c k s :
  readable c k || queue_key c k = false → in_op B s → in_op B (kv_del s c k).
Proof.
  intros Hk. apply in_op_same; [done|]. intros c' k' Hk'. rewrite cf_map_del, decide_False; [done|].
  intros [-> ->]. congruence.
Qed.

(** The leases of the engine may go. *)
Lemma in_op_del_lease B c k s :
  leased_family c = true → c ≠ CF_QUEUE → in_op B s → in_op B (kv_del s c k).
Proof.
  intros Hl Hc [[Hs Hg Hq He] Hnow HM Hseq HB HK].
  assert (∀ c' k', c' ≠ c → cf_map (kv_del s c k) c' !! k' = cf_map s c' !! k') as Hother.
  { intros c' k' Hne. rewrite cf_map_del, decide_False; [done|]. by intros [-> _]. }
  assert (qview (kv_del s c k) = qview s) as Hqv.
  { apply qview_same; [done|]. intros c' k' Hk. apply Hother. intros ->. by destruct c. }
  split; [split|done|..].
  - by apply (stable_delete_raw (λ _, True) c k s).
  - apply (good_same semp s); [done| |done]. intros c' k' Hk _. apply Hother. intros ->. by destruct c.
  - by rewrite Hqv.
  - by rewrite Hqv.
  - rewrite <- HM. apply map_eq. intros k'. apply Hother. intros <-. done.
  - by rewrite Hqv.
  - unfold own_le in *. replace (cf_map (kv_del s c k) OWN_CF) with (cf_map s OWN_CF); [done|].
    apply map_eq. intros k'. symmetry. apply Hother. intros <-. done.
  - by rewrite Hqv.
Qed.

(** ** Collecting expired records *)

Lemma collect_waiters q k e :
  queue_ok q → queue_ok (with_map q (delete k (q_map q))) →
  e ∈ waiters (with_map q (delete k (q_map q))) → e ∈ waiters q.
Proof.
  intros Hq Hq' (x & [Hu Hs] & Hx)%elem_waiters; [|done]. apply elem_waiters; [done|]. exists x.
  split; [split; [done|]|done]. cbn [with_map q_map] in Hs. by apply lookup_delete_Some in Hs as [_ ?].
Qed.

Lemma wp_reclaim_queue B k b exp s :
  in_op B s → cf_map s CF_QUEUE !! k = Some b → record_expiry b = Some exp → expired exp now = true →
  wp limit_error (gone ← expire_entry k; if gone : bool then mret tt else delete_raw CF_QUEUE k)
    (λ _, in_op B) s.
Proof.
  intros Hs Hk Hr Hx. pose proof (go_queue _ _ (io_ok _ _ Hs)) as Hq. apply wp_bind.
  destruct (qo_shape _ Hq k b Hk) as [(e & x & -> & -> & Hu)|Hother].
  - assert (stored (q_map (qview s)) e x) as Hst by by split.
    destruct (expire_entry_run _ e x Hq Hst s eq_refl) as (s' & Hrun & Hq'). unfold wp at 1.
    rewrite Hrun. apply wp_ret. apply (in_op_queue B s); [done|..].
    + eapply frame_run; [|exact Hrun]. apply sim_expire_entry. apply _.
    + rewrite Hq'. by eapply expired_entry_ok.
    + intros e'. rewrite Hq', (expired_entry_waiters _ e x) by done.
      by intros [_ ?]%list_elem_of_filter.
    + rewrite Hq'. apply Hs.
  - assert (∃ v, decode_record b = Ok (Str v exp) ∧ decode_queue_entry_seq k = None) as (v & Hd & Hdec).
    { destruct Hother as [(o & m & x & -> & -> & _)|(p & m & x & -> & -> & _)];
        unfold record_expiry, owner_rec, path_rec in *; rewrite decode_encode in *;
        simplify_eq; eexists; (split; [done|]).
      - pose proof (not_entry_owner o) as H. unfold is_entry_key in H. by destruct (decode_queue_entry_seq _).
      - pose proof (not_entry_path p m) as H. unfold is_entry_key in H. by destruct (decode_queue_entry_seq _). }
    unfold expire_entry. rewrite Hdec. unfold wp at 1, mret, txm_ret. cbn.
    rewrite <- (io_now _ _ Hs) in Hx.
    pose proof (collect_step_ok s k b v exp Hq Hk Hd Hx) as Hq'.
    change (kv_upd s CF_QUEUE (delete k (cf_map s CF_QUEUE))) with (kv_del s CF_QUEUE k).
    unfold wp. cbn. change (in_op B (kv_del s CF_QUEUE k)). apply (in_op_queue B s); [done| |done|..].
    + apply frame_closed; [apply _|done|apply frame_refl].
    + intros e. rewrite qview_del in *. intros He. by eapply collect_waiters.
    + rewrite qview_del. apply Hs.
Qed.

(** The keys a sweep visits. *)
Lemma gc_keys_visit_ok batch l keys : ∃ keys', visit_all (gc_keys_visit batch) keys l = Ok keys'.
Proof.
  revert keys. induction l as [|[k b] l IH]; intros keys; [by exists keys|].
  cbn [visit_all]. unfold gc_keys_visit at 1. cbv zeta. destruct (_ <? _); [apply IH|by eexists].
Qed.

Lemma wp_gc_reclaim B c k b exp s :
  room_for B → in_op B s → leased_family c = true → cf_map s c !! k = Some b → record_expiry b = Some exp →
  expired exp now = true → wp limit_error (gc_reclaim c k) (λ _, in_op B) s.
Proof.
  intros HB Hs Hl Hk Hr Hx. unfold gc_reclaim. destruct (decide (c = CF_QUEUE)) as [->|Hc].
  { apply wp_bind, wp_ret. by eapply wp_reclaim_queue. }
  apply wp_holds; [|done..]. apply holds_bind.
  - destruct (bool_decide (c = CF_OWNER_ALIVE) && _) eqn:Ha; [|apply costs_ret].
    destruct (from_utf8 k) as [owner|] eqn:Hu; [|apply costs_ret].
    apply andb_true_iff in Ha as [_ Hnul]. apply holds_release_owner_wide.
    unfold from_utf8 in Hu. destruct (utf8_valid k); [injection Hu as <-|done].
    by apply negb_true_iff, bool_decide_eq_false in Hnul.
  - intros _. rewrite bool_decide_eq_false_2 by done. intros B' s' _ Hs'. apply wp_bind, wp_ret.
    unfold wp. cbn. by apply in_op_add, in_op_del_lease.
Qed.

Lemma holds_gc_entry acc key :
  (∀ c, index_names key = Some c → leased_family c = true) → holds (gc_entry now acc key).
Proof.
  intros Hk. unfold gc_entry. destruct acc as [m u]. unfold index_names in Hk.
  apply holds_bind; last first.
  { intros a. apply holds_bind; [|intros ?; apply costs_ret]. intros B s _ Hs. unfold wp. cbn.
    by apply in_op_add, in_op_del. }
  destruct (decode_expiry_entry key) as [[[x name] pk]|]; [|apply costs_ret].
  destruct (static_cf_name name) as [c|]; [|apply costs_ret]. specialize (Hk c eq_refl).
  intros B s HB Hs%in_op_add. cbv zeta. apply wp_bind. unfold wp at 1. cbn [get_raw kv_raw]. unfold kv_get_raw.
  destruct (cf_map s c !! pk) as [b|] eqn:Hb; [|done]. cbn [mbind option_bind].
  destruct (record_expiry b) as [exp|] eqn:Hr; [|done].
  destruct (expired exp now) eqn:Hx; [|done]. apply wp_bind.
  eapply wp_mono; [by eapply wp_gc_reclaim|]. by intros [] s' Hs'.
Qed.

Lemma wp_gc_sweep B batch s :
  room_for B → in_op B s → index_ok s → wp limit_error (gc_sweep now batch) (λ _, in_op B) s.
Proof.
  intros HB Hs Hi. unfold gc_sweep. apply wp_bind. unfold wp at 1. cbn [get_raw kv_raw]. unfold kv_get_raw.
  apply wp_bind. unfold wp at 1. cbn [scan_merged kv_raw]. unfold kv_scan, lift.
  pose proof (gc_keys_elem batch (kv_range s CF_EXPIRY (cf_map s CF_META !! META_GC_CURSOR_KEY)
    (Some (expiry_scan_upper now))) []) as Hkeys.
  destruct (visit_all _ _ _) as [keys|e] eqn:Hv.
  2: { destruct (gc_keys_visit_ok batch (kv_range s CF_EXPIRY (cf_map s CF_META !! META_GC_CURSOR_KEY)
         (Some (expiry_scan_upper now))) []) as [? H]. rewrite H in Hv. done. }
  apply wp_holds; [|done..]. apply holds_bind.
  - apply holds_fold. intros acc k Hin. apply holds_gc_entry. apply Hkeys; [|set_solver|done].
    intros k' b [Hk' _]%btree_range_elem c Hc. eapply Hi; [|done]. by rewrite Hk'.
  - intros [m u]. apply holds_bind; [|intros ?; apply costs_ret].
    destruct (last keys); [|apply costs_ret]. intros B' s' _ Hs'. unfold wp. cbn. by apply in_op_add, in_op_put.
Qed.

(** ** Minting a token *)

Lemma holds_write_fence_counter t : holds (write_fence_counter t).
Proof. intros B s _ Hs. unfold wp, write_fence_counter. cbn. by apply in_op_add, in_op_put. Qed.
End steps.
