(* ===== verification/GroupOps.v ===== *)
(** * Every command keeps the group invariant

    [wp_lock_op]: an operation that does not change a policy, run on a group whose
    waiters are admissible, keeps [group_ok] and the namespace settings. *)

From Stdlib Require Import ZArith NArith Lia Strings.Byte.
From stdpp Require Import sorting countable base numbers gmap strings list.
From S2P Require Import Prelude RustStd StoreKeys Store StoreScan StoreSim KvView EngineTypes.
From S2P Require Import Engine EngineView EngineInv EngineValidate EngineAcquire EngineApply.
From S2P Require Import EngineOps.
From S2P Require Import EngineRelease EngineGrant EngineRest EngineSafe EngineSteps.
From S2P Require Import EngineTotal EngineTheorems Footprint Paths Placement.
From S2P Require Import Queue QueueState QueueOps QueueScans Command QueueTheorems.
From S2P Require Import StateMachine.
From S2P Require Import ApplySim ApplyKeeps GroupState GroupSteps.
Local Open Scope Z_scope.

(** ** What the service lets through *)

Record args_ok (namespace : str) (args : AcquireArgs) : Prop := {
  ao_owner : nul_free (owner_id args) ∧ utf8_valid (owner_id args) = true;
  ao_namespace : sep_free namespace;
  ao_reqs req : req ∈ requests args →
    nul_free (scoped_path namespace (lr_path req)) ∧ is_u32 (lr_permits req);
  ao_rels rel : rel ∈ release_requests args → nul_free (scoped_path namespace (rel_path rel))
}.

(** The router stamps an id on every acquire it proposes. *)
Definition admissible (cmd : Command) : Prop :=
  match cmd_op cmd with
  | AcquireInNamespace namespace policy args => args_ok namespace args ∧ is_Some (request_id cmd)
  | Release namespace owner reqs _ =>
      nul_free owner ∧ ∀ req, req ∈ reqs → nul_free (scoped_path namespace (rel_path req))
  | ReleaseAll owner _ | ForceRelease owner | Renew owner _ => nul_free owner
  | SetNamespacePolicy namespace _ | DeleteNamespacePolicy namespace => sep_free namespace
  | _ => True
  end.

Section ops.
Context `{!Bincode StoredRecord, !Bincode QueueEntry, !Bincode GroupRecord}.

(** ** The policy in force *)

Definition stored_policy (d : LockAlgorithm) (M : gmap bytes bytes) (namespace : str) : LockPolicy :=
  match M !! namespace_policy_key namespace with
  | Some b =>
      match decode_record b with
      | Ok (Str v _) =>
          match parse_namespace_policy_value v with Ok p => p | Err _ => from_algorithm d end
      | _ => from_algorithm d
      end
  | None => from_algorithm d
  end.

(** The scoped paths whose namespace is a semaphore namespace. *)
Definition semaphore_paths (d : LockAlgorithm) (M : gmap bytes bytes) (p : str) : bool :=
  is_semaphore (algorithm (stored_policy d M (namespace_of p))).

Lemma policy_record_returns namespace d s :
  sane s →
  returns (get_namespace_policy_record_inner namespace d) s
    (stored_policy d (cf_map s CF_NAMESPACE_SETTINGS) namespace,
     is_some (cf_map s CF_NAMESPACE_SETTINGS !! namespace_policy_key namespace)).
Proof.
  intros Hs. unfold get_namespace_policy_record_inner, stored_policy, returns.
  cbn [get_str raw_store kv_raw kv_store]. unfold w_get_str, asks, mbind, txm_bind, kv_get_raw, lift, mret, txm_ret.
  destruct (cf_map s CF_NAMESPACE_SETTINGS !! namespace_policy_key namespace) as [b|] eqn:Hb; [|done].
  destruct (Hs _ _ b Hb eq_refl) as (v & exp & Hd & Hl & (p & Hp & ->)). rewrite Hl in Hd by done.
  rewrite Hd. cbn [live_str]. rewrite expired_zero. by rewrite policy_roundtrip.
Qed.

Lemma args_ok_acquire d M namespace args :
  args_ok namespace args →
  acquire_ok (semaphore_paths d M) args (stored_policy d M namespace) namespace.
Proof.
  intros [[Ho Hu] Hns Hr Hrel]. split; [done| |done|].
  - intros req [H1 H2]%Hr. by split_and!.
  - intros req _ _. unfold semaphore_paths. by rewrite namespace_of_scoped.
Qed.

Lemma acquire_ok_token semp args policy namespace t :
  acquire_ok semp args policy namespace → acquire_ok semp (with_token args t) policy namespace.
Proof. by intros [H1 H2 H3 H4]. Qed.

(** ** Minting *)

Definition fence_ok (s : Kv) : Prop :=
  ∀ b, cf_map s CF_META !! META_FENCE_COUNTER_KEY = Some b → ∃ v, decode_record b = Ok (Counter v).

Section in_op.
Context (semp : str → bool) (now : Z) (M : gmap bytes bytes) (n : Z) (K : nat).
Local Abbreviation in_op := (in_op semp now M n K).
Local Abbreviation costs := (costs semp now M n K).
Local Abbreviation holds m := (costs 0 m).

Lemma wp_read_fence_counter (Q : Z → Kv → Prop) s :
  fence_ok s → (∀ v, Q v s) → wp limit_error read_fence_counter Q s.
Proof.
  intros Hf HQ. unfold read_fence_counter. apply wp_bind. unfold wp at 1. cbn. unfold kv_get_raw.
  destruct (cf_map s CF_META !! META_FENCE_COUNTER_KEY) as [b|] eqn:Hb; [|by apply wp_ret].
  destruct (Hf b Hb) as [v Hv]. apply wp_bind, wp_lift.
  - intros r Hr. rewrite Hv in Hr. injection Hr as <-. by apply wp_ret.
  - intros e He. congruence.
Qed.

Lemma wp_get_lock c k (Q : option str → Kv → Prop) s :
  readable c k = true → sane s → (∀ v, Q v s) → wp limit_error (get_str c k) Q s.
Proof. intros Hk Hs HQ. apply (wp_sane_get_str limit_error c k Q s); auto. Qed.

Lemma wp_mint namespace args alg B s :
  room_for B → in_op B s → fence_ok s →
  wp limit_error (mint_fence_if_needed namespace args alg)
    (λ args' s', in_op B s' ∧ (args' = args ∨ ∃ t, args' = with_token args t)) s.
Proof.
  intros HB Hs Hf. unfold mint_fence_if_needed.
  destruct (_ || _); [apply wp_ret; auto|]. destruct (negb _); [apply wp_ret; auto|].
  apply wp_bind, wp_read_fence_counter; [done|]. intros v. apply wp_bind.
  apply (wp_mono _ _ (λ _ s', in_op B s')).
  { apply wp_holds; [|done..]. apply holds_fold. intros acc req _ B1 s1 _ Hs1. unfold max_fence_step.
    apply wp_bind. apply wp_get_lock; [done|apply Hs1|]. intros f. by apply wp_ret, in_op_add. }
  intros t s1 Hs1. apply wp_bind. eapply wp_mono; [apply wp_holds; [apply holds_write_fence_counter|done..]|].
  intros [] s2 Hs2. apply wp_ret. eauto.
Qed.

(** ** Acquire *)

(** What a command leaves. *)
Definition done_ok (s : Kv) : Prop :=
  group_ok semp s ∧ kv_now s = now ∧ cf_map s CF_NAMESPACE_SETTINGS = M.
Lemma in_op_done B s : in_op B s → done_ok s.
Proof. by intros [? ? ? ?]. Qed.
Lemma wp_done {A} (m : txm Kv A) k B s :
  costs k m → room_for (B + k) → in_op B s → wp limit_error m (λ _, done_ok) s.
Proof. intros H HB Hs. eapply wp_mono; [by apply (H B)|]. intros a s'. apply in_op_done. Qed.

Lemma costs_acquire_granted namespace args wa tok : costs K (acquire_granted namespace args wa tok).
Proof.
  unfold acquire_granted. apply (costs_bind _ _ _ _ _ 0 K); [lia|apply holds_dequeue|]. intros _. cbv zeta.
  apply (costs_bind _ _ _ _ _ K 0); [lia| |intros ?; apply costs_ret].
  destruct (_ && _); [apply costs_sweep_grants|].
  destruct (negb _); [apply costs_sweep_grants_for_paths|apply costs_ret].
Qed.

Lemma wp_acquire_minted namespace policy args B s :
  room_for (B + length (requests args) + K) → in_op B s → n < i64_max →
  acquire_ok semp args policy namespace →
  wp limit_error (acquire_minted namespace policy args) (λ _, done_ok) s.
Proof.
  intros HB Hs Hn Ha. unfold acquire_minted. apply wp_bind, wp_get_lock; [done|apply Hs|]. intros wa.
  apply wp_bind. unfold wp at 1.
  rewrite (blocked_by_earlier_returns s) by apply Hs.
  assert (∀ B1 s1 (r : ApplyResponse), in_op B1 s1 →
    wp limit_error (enqueue namespace args policy;; mret r) (λ _, done_ok) s1) as Henq.
  { intros B1 s1 r Hs1. apply wp_bind. eapply wp_mono; [by apply (wp_enqueue semp now M n K)|].
    intros m s2 (? & ? & ? & _). by apply wp_ret. }
  destruct (first_blocker _ _ _ _) as [[[o p] r]|]; [by eapply Henq|].
  apply wp_bind. eapply wp_mono; [apply (costs_acquire semp now M n K args policy namespace Ha B)|].
  { unfold room_for in *. lia. }
  { done. }
  intros [tok|p o r|p r|p o r tok] s1 Hs1.
  - by eapply wp_done; [apply costs_acquire_granted|..].
  - destruct (is_queueable r); [by eapply Henq|apply wp_ret; by eapply in_op_done].
  - apply wp_ret. by eapply in_op_done.
  - apply wp_ret. by eapply in_op_done.
Qed.

Lemma wp_execute_acquire namespace policy args B s :
  room_for (B + length (requests args) + K) → in_op B s → n < i64_max → fence_ok s →
  acquire_ok semp args policy namespace →
  wp limit_error (execute_acquire namespace args policy) (λ _, done_ok) s.
Proof.
  intros HB Hs Hn Hf Ha. unfold execute_acquire. apply wp_bind.
  eapply wp_mono; [apply (wp_mint namespace args _ B); [|done..]|].
  { unfold room_for in *. lia. }
  intros args' s1 [Hs1 [->|[t ->]]]; eapply wp_acquire_minted; eauto using acquire_ok_token.
Qed.

(** ** Reads of the settings *)

Lemma roots_visit_ok t keep l acc : ∃ roots, visit_all (roots_visit t keep) acc l = Ok roots.
Proof.
  revert acc. induction l as [|[k b] l IH]; intros acc; [by exists acc|].
  cbn [visit_all]. unfold roots_visit at 1. apply IH.
Qed.

Lemma reject_stale_routing_returns namespace args s :
  ∃ r, returns (reject_stale_routing (T := Kv) namespace args) s r.
Proof.
  unfold returns, reject_stale_routing, mbind, txm_bind, asks. cbn [scan_merged kv_raw]. unfold kv_scan, lift.
  match goal with |- context [visit_all (roots_visit ?t ?k) ?a ?l] =>
    destruct (roots_visit_ok t k l a) as [roots ->] end.
  by eexists.
Qed.

(** ** The operations that leave the policies alone *)

Definition sets_policy (x : Op) : bool :=
  match x with SetNamespacePolicy _ _ | DeleteNamespacePolicy _ => true | _ => false end.
Definition is_acquire (x : Op) : bool :=
  match x with AcquireInNamespace _ _ _ => true | _ => false end.

Lemma costs_then {A B} k (m : txm Kv A) (f : A → B) : costs k m → costs k (a ← m; mret (f a)).
Proof.
  intros H. apply (costs_bind _ _ _ _ _ k 0); [lia|done|]. intros a. apply costs_ret.
Qed.

Lemma wp_lock_op cmd d B s :
  room_for (B + K) → in_op B s → index_ok s → fence_ok s → admissible cmd →
  sets_policy (cmd_op cmd) = false → is_acquire (cmd_op cmd) = false →
  wp limit_error (execute_op cmd now d) (λ _, done_ok) s.
Proof.
  intros HB Hs Hi Hf Hc Hp Ha. unfold execute_op, admissible in *.
  assert (room_for B) as HB0 by (unfold room_for in *; lia).
  assert (∀ (A : Type) (m : txm Kv A) k, (k ≤ K)%nat → costs k m → wp limit_error m (λ _, done_ok) s) as Hop.
  { intros A m k Hk Hm. apply (wp_done _ K B); [by apply (costs_mono _ _ _ _ _ k)|done..]. }
  destruct (cmd_op cmd); try done.
  - destruct Hc as [Ho Hr]. apply (Hop _ _ K); [done|].
    apply (costs_bind _ _ _ _ _ 0 K); [done|by apply holds_release|]. intros _.
    by apply costs_then, costs_sweep_grants_for_paths.
  - apply (Hop _ _ K); [done|]. unfold release_all_inner.
    apply (costs_bind _ _ _ _ _ 0 K); [done|by apply holds_release_owner_wide|]. intros _.
    apply (costs_bind _ _ _ _ _ 0 K); [done|apply holds_dequeue|]. intros _.
    by apply costs_then, costs_sweep_grants.
  - apply (Hop _ _ 0%nat); [lia|]. apply costs_then, holds_void.
    exact (holds_op semp now M n K (OpRenew owner ttl_ms) Hc eq_refl).
  - apply (Hop _ _ K); [done|]. unfold force_release_inner.
    apply (costs_bind _ _ _ _ _ 0 K); [done|by apply holds_release_owner_wide|]. intros _.
    apply (costs_bind _ _ _ _ _ 0 K); [done|apply holds_dequeue|]. intros _.
    by apply costs_then, costs_sweep_grants.
  - apply (Hop _ _ 0%nat); [lia|]. apply costs_then. exact (holds_op semp now M n K (OpSetWait _ _ _ _) I eq_refl).
  - apply (Hop _ _ 0%nat); [lia|]. apply costs_then. exact (holds_op semp now M n K (OpClearWait _) I eq_refl).
  - apply (Hop _ _ 0%nat); [lia|]. apply costs_then. exact (holds_op semp now M n K (OpRevoke _ _) I eq_refl).
  - apply wp_bind. eapply wp_mono; [by apply (wp_gc_sweep semp now M n K B)|]. intros [[a b] u] s1 Hs1.
    apply (wp_done _ K B); [|done..]. apply costs_then.
    destruct u; [apply costs_sweep_grants|apply costs_ret].
  - unfold incr_fence_inner. apply wp_bind, wp_bind, wp_read_fence_counter; [done|]. intros v.
    apply wp_bind. eapply wp_mono; [apply (wp_holds semp now M n K); [apply holds_write_fence_counter|done..]|].
    intros [] s1 Hs1. by eapply wp_ret, wp_ret, in_op_done.
  - apply wp_ret. by eapply in_op_done.
  - apply wp_bind. unfold wp. cbn. eapply in_op_done. by apply (in_op_put semp now M n K B CF_META).
  - apply wp_bind. unfold apply_set_draining. destruct draining; unfold wp; cbn; eapply in_op_done;
      [by apply (in_op_put semp now M n K B CF_META)|by apply (in_op_del semp now M n K B CF_META)].
Qed.
End in_op.

(** An acquire runs under the policy in force. *)
Lemma wp_acquire_in_namespace d now M n K namespace policy args B s :
  room_for (B + length (requests args) + K) →
  in_op (semaphore_paths d M) now M n K B s → n < i64_max → fence_ok s → args_ok namespace args →
  wp limit_error (acquire_in_namespace true namespace policy args d)
    (λ _, done_ok (semaphore_paths d M) now M) s.
Proof.
  intros HB Hs Hn Hf Ha. unfold acquire_in_namespace.
  destruct (reject_stale_routing_returns namespace args s) as [r Hr].
  apply wp_bind. unfold wp at 1. rewrite Hr. destruct r as [resp|]; [apply wp_ret; by eapply in_op_done|].
  apply wp_bind. unfold reject_stale_policy_epoch. apply wp_bind. unfold wp at 1.
  change (@raw_store Kv kv_raw) with kv_store.
  rewrite (policy_record_returns namespace d s) by apply Hs. apply wp_ret.
  rewrite (io_settings _ _ _ _ _ _ _ Hs). case_bool_decide as Hp; [|apply wp_ret; by eapply in_op_done].
  subst policy. eapply wp_execute_acquire; [done..|]. by apply args_ok_acquire.
Qed.
End ops.
