(* ===== verification/GroupPolicy.v ===== *)
(** * Policy changes clear the namespace

    Changing the algorithm of a namespace releases every hold and dequeues every
    waiter of the namespace, so the group invariant holds again under the new
    policy. *)

From Stdlib Require Import ZArith NArith Lia Strings.Byte.
From stdpp Require Import sorting countable base numbers gmap strings list.
From S2P Require Import Prelude RustStd StoreKeys Store StoreScan StoreSim KvView EngineTypes.
From S2P Require Import Engine EngineView EngineInv EngineValidate EngineAcquire EngineApply.
From S2P Require Import EngineOps.
From S2P Require Import EngineRelease EngineGrant EngineRest EngineSafe EngineSteps.
From S2P Require Import EngineTotal EngineTheorems Footprint Paths Placement.
From S2P Require Import Queue QueueState QueueOps QueueScans Command QueueTheorems.
From S2P Require Import StateMachine.
From S2P Require Import ApplySim ApplyKeeps GroupState GroupSteps GroupOps.
Local Open Scope Z_scope.

(** ** The holds of a namespace *)

Lemma double_nul_own o m : nul_free o → double_nul (member_key (o ++ [NUL]) m) = Some (length o).
Proof.
  rewrite member_key_app. unfold nul_free. induction o as [|a o IH]; intros Ho; [done|].
  apply not_elem_of_cons in Ho as [Ha Ho]. specialize (IH Ho).
  destruct o as [|b o]; cbn [app length double_nul] in *;
    rewrite (bool_decide_eq_false_2 (a = NUL)) by done; cbn [andb]; by rewrite IH.
Qed.

Definition hold_tuple (x : str * HeldLock) : str * str * str * str :=
  (x.1, hl_namespace x.2, mode_as_str (hl_mode x.2), hl_path x.2).
Definition hold_req (h : str * str * str * str) : RelReq :=
  {| rel_path := h.2; rel_mode := if bool_decide (h.1.2 = bs "read") then Read else Write |}.
Lemma hold_req_tuple o held :
  hold_req (hold_tuple (o, held)) = {| rel_path := hl_path held; rel_mode := hl_mode held |}.
Proof. by destruct held as [ns [] path]. Qed.

Lemma group_holds_spec holds by_owner k req :
  (∃ reqs, foldl group_hold by_owner holds !! k = Some reqs ∧ req ∈ reqs) ↔
  (∃ reqs, by_owner !! k = Some reqs ∧ req ∈ reqs) ∨
  (∃ h, h ∈ holds ∧ k = (h.1.1.2, h.1.1.1) ∧ req = hold_req h).
Proof.
  revert by_owner. induction holds as [|h holds IH]; intros m; simpl; [set_solver|].
  rewrite IH. clear IH. destruct h as [[[o ns] mode] path]. cbn [group_hold].
  set (r := {| rel_path := path; rel_mode := _ |}).
  assert (r = hold_req (o, ns, mode, path)) as Hr by done.
  setoid_rewrite elem_of_cons. destruct (decide (k = (ns, o))) as [->|Hne].
  - rewrite lookup_insert_eq. split.
    + intros [(reqs & [= <-] & Hin)|(h & ? & ? & ?)]; [|by right; exists h; auto].
      apply elem_of_app in Hin as [Hin|Hin%list_elem_of_singleton].
      * left. destruct (m !! (ns, o)) as [reqs|]; [by exists reqs|by apply not_elem_of_nil in Hin].
      * right. exists (o, ns, mode, path). subst. auto.
    + intros [(reqs & Hl & Hin)|(h & [->|Hh] & Hk & ->)].
      * left. eexists. split; [done|]. rewrite Hl. apply elem_of_app. by left.
      * left. eexists. split; [done|]. apply elem_of_app. right. by left.
      * right. by exists h.
  - rewrite lookup_insert_ne by done. split.
    + intros [?|(h & ? & ? & ?)]; [by left|right; exists h; auto].
    + intros [?|(h & [->|Hh] & Hk & ->)]; [by left| |right; by exists h]. simpl in Hk. congruence.
Qed.

Lemma group_holds_nonempty holds k : foldl group_hold ∅ holds !! k ≠ Some [].
Proof.
  assert (∀ by_owner, (∀ k', by_owner !! k' ≠ Some []) →
            foldl group_hold by_owner holds !! k ≠ Some []) as H; [|by apply H].
  induction holds as [|[[[o ns] mode] path] holds IH]; intros m Hm; [apply Hm|].
  cbn [foldl group_hold]. apply IH. intros k'. destruct (decide (k' = (ns, o))) as [->|Hne].
  - rewrite lookup_insert_eq. intros [= H]. by apply app_eq_nil in H as [_ ?].
  - by rewrite lookup_insert_ne.
Qed.

Section policy.
Context `{!Bincode StoredRecord, !Bincode QueueEntry, !Bincode GroupRecord}.

Definition selected (t : Z) (ns : str) (inc : bool) (pres : gset str) (kb : bytes * bytes)
    : option (str * str * str * str) :=
  match owner_hold t kb.1 kb.2 with
  | Some x => if selects ns inc pres x.2 then Some (hold_tuple x) else None
  | None => None
  end.

Lemma holds_visit_all t ns inc pres l out :
  visit_all (holds_visit t ns inc pres) out l = Ok (out ++ omap (selected t ns inc pres) l).
Proof.
  revert out. induction l as [|[k b] l IH]; intros out; [by rewrite app_nil_r|].
  cbn [visit_all]. unfold holds_visit at 1. rewrite omap_cons, IH. unfold selected at 2. cbn [fst snd].
  destruct (owner_hold t k b) as [[o held]|]; [|done]. cbn [fst snd].
  destruct (selects ns inc pres held); [by rewrite <- app_assoc|done].
Qed.

Definition namespace_holds (ns : str) (inc : bool) (pres : gset str) (s : Kv)
    : list (str * str * str * str) :=
  omap (selected (kv_now s) ns inc pres) (btree_range None None (cf_map s CF_OWNER_HOLDS)).

Lemma collect_holds_returns ns inc pres s :
  returns (collect_namespace_holds ns inc pres) s (namespace_holds ns inc pres s).
Proof.
  unfold returns, collect_namespace_holds, mbind, txm_bind, asks. cbn [scan_merged kv_raw].
  unfold kv_scan, kv_range, lift. by rewrite holds_visit_all.
Qed.

Lemma lenient_decode b rec : decode_record_lenient b = Some rec ↔ decode_record b = Ok rec.
Proof. unfold decode_record_lenient, decode_record. destruct (bincode_decode b); naive_solver. Qed.

Lemma view_own s k m :
  KvView.view s !! (OWN_CF, k) = Some m ↔
  ∃ b rec, cf_map s CF_OWNER_HOLDS !! k = Some b ∧ decode_record b = Ok rec ∧
    live_str rec (kv_now s) = Some m.
Proof.
  rewrite view_lookup_live by done. unfold live_rec. split.
  - destruct (cf_map s OWN_CF !! k) as [b|] eqn:Hb; [|done]. cbn.
    destruct (decode_record b) as [rec|] eqn:Hd; [|done]. intros H. by exists b, rec.
  - intros (b & rec & Hb & Hd & Hl). rewrite Hb. cbn. by rewrite Hd.
Qed.

(** The collected tuples are the recorded holds of the namespace. *)
Lemma elem_namespace_holds ns inc pres s h :
  own_ok (KvView.view s) → h ∈ namespace_holds ns inc pres s →
  ∃ o held, h = hold_tuple (o, held) ∧ nul_free o ∧ nul_free (key_path held).
Proof.
  intros Hok. unfold namespace_holds. rewrite list_elem_of_omap.
  intros ([k b] & [Hk _]%btree_range_elem & Hsel). unfold selected in Hsel. cbn [fst snd] in Hsel.
  destruct (owner_hold (kv_now s) k b) as [[o held]|] eqn:Hh; [|done].
  destruct (selects _ _ _ _); [injection Hsel as <-|done].
  unfold owner_hold in Hh. cbn [fst snd].
  destruct (double_nul k) as [sep|] eqn:Hsep; [|done]. cbn in Hh.
  destruct (from_utf8 (take sep k)) as [o'|] eqn:Hu; [|done]. cbn in Hh.
  destruct (decode_record_lenient b) as [rec|] eqn:Hd; [|done]. cbn in Hh. apply lenient_decode in Hd.
  destruct (live_str rec (kv_now s)) as [m|] eqn:Hl; [|done]. cbn in Hh.
  destruct (parse_hold_member m) as [held'|] eqn:Hp; [|done]. cbn in Hh. injection Hh as <- <-.
  assert (KvView.view s !! (OWN_CF, k) = Some m) as Hv by (apply view_own; eauto).
  destruct (own_key _ Hok k m Hv) as [(o & Ho & _ & Heq) Hpath]. unfold sk in Heq.
  apply pair_eq in Heq as [_ ->]. rewrite double_nul_own in Hsep by done. injection Hsep as <-.
  rewrite member_key_app in Hu. rewrite take_app_length in Hu.
  unfold from_utf8 in Hu. destruct (utf8_valid o); [injection Hu as <-|done].
  exists o, held'. split_and!; [done|done|]. by destruct (Hpath held' Hp).
Qed.

Lemma namespace_holds_elem ns inc pres s o m path :
  own_ok (KvView.view s) → owns (KvView.view s) o (hold_member ns m path) → nul_free o → nul_free ns →
  hold_tuple (o, {| hl_namespace := ns; hl_mode := m; hl_path := path |}) ∈ namespace_holds ns inc pres s.
Proof.
  intros Hok [x Hx] Ho Hns. unfold sk in Hx.
  destruct (own_key _ Hok _ _ Hx) as [(o' & Ho' & Hu & Heq) _].
  apply (sk_inj OWN_CF OWN_CF) in Heq as (_ & <- & <-); [|done..].
  apply view_own in Hx as (b & rec & Hb & Hd & Hl). apply list_elem_of_omap.
  exists (member_key (o ++ [NUL]) (hold_member ns m path), b). split; [by apply btree_range_elem|].
  unfold selected, owner_hold. cbn [fst snd].
  rewrite double_nul_own by done. cbn. rewrite member_key_app, take_app_length.
  unfold from_utf8. rewrite Hu. cbn. apply lenient_decode in Hd. rewrite Hd. cbn. rewrite Hl. cbn.
  rewrite parse_hold_member_member by done. cbn. unfold selects. cbn [hl_namespace].
  by rewrite bool_decide_eq_true_2.
Qed.

(** ** Releasing them *)

Definition vacant (V : View) (q : str) : Prop :=
  (∀ o, writer V q ≠ Some o) ∧ (∀ o, ¬ EngineView.reads V o q) ∧ (∀ o, ¬ permit V o q).

Section clear.
Context (semp : str → bool) (now : Z) (M : gmap bytes bytes) (n : Z) (K B : nat) (HB : room_for B).
Local Abbreviation in_op := (in_op semp now M n K B).

Lemma wp_release_freed ns o reqs s :
  in_op s → nul_free o → (∀ req, req ∈ reqs → nul_free (scoped_path ns (rel_path req))) →
  wp limit_error (release_inner_in_namespace ns o reqs false)
    (λ _ s', in_op s' ∧ sub_view (KvView.view s) (KvView.view s') ∧
       ∀ m p, requested ns reqs m p → gone (KvView.view s') o m p) s.
Proof.
  intros Hs Ho Hr. eapply wp_mono.
  { apply wp_both; [apply (wp_holds semp now M n K); [by apply holds_release|done..]|].
    apply (vwp_release_inner_in_namespace semp now o Ho ns reqs false (KvView.view s));
      [apply Hs|done|apply Hs|done]. }
  intros [] s' [Hs' [_ (_ & Hf & Hg & _)]]. split_and!; [done|apply Hf|done].
Qed.

Lemma wp_release_groups (es : list ((str * str) * list RelReq)) affected s :
  in_op s →
  (∀ e, e ∈ es → nul_free e.1.2 ∧
     ∀ req, req ∈ e.2 → nul_free (scoped_path e.1.1 (rel_path req))) →
  wp limit_error
    (fold_txm (λ (affected : gset str) (e : (str * str) * list RelReq),
       release_inner_in_namespace e.1.1 e.1.2 e.2 false;; mret ({[ e.1.2 ]} ∪ affected)) affected es)
    (λ _ s', in_op s' ∧ sub_view (KvView.view s) (KvView.view s') ∧
       ∀ e, e ∈ es → ∀ m p, requested e.1.1 e.2 m p → gone (KvView.view s') e.1.2 m p) s.
Proof.
  revert affected s. induction es as [|e es IH]; intros affected s Hs Hes; cbn [fold_txm].
  { apply wp_ret. split_and!; [done|by left|]. by intros e ?%not_elem_of_nil. }
  destruct (Hes e) as [Ho Hr]; [by left|].
  apply wp_bind, wp_bind. eapply wp_mono; [by apply wp_release_freed|].
  intros [] s1 (Hs1 & Hsub1 & Hg1). apply wp_ret.
  eapply wp_mono; [apply IH; [done|]; intros e' He'; apply Hes; by right|].
  intros a s2 (Hs2 & Hsub2 & Hg2). split_and!; [done|by eapply sub_view_trans|].
  intros e' [->|He']%elem_of_cons m p Hreq; [|by eapply Hg2].
  eapply gone_sub; [exact Hsub2|]. by apply Hg1.
Qed.

Lemma preserved_returns (inc : bool) ns s :
  ∃ pres, returns (if inc then preserved_roots (T := Kv) ns else mret ∅) s pres.
Proof.
  destruct inc; [|by exists ∅].
  unfold returns, preserved_roots, mbind, txm_bind, asks. cbn [scan_merged kv_raw]. unfold kv_scan, lift.
  match goal with |- context [visit_all (roots_visit ?t ?k) ?a ?l] =>
    destruct (roots_visit_ok t k l a) as [roots ->] end.
  by eexists.
Qed.

(** A recorded hold at a path of the namespace was among the collected ones. *)
Lemma has_own_collected s o m q inc pres :
  group_ok semp s → nul_free o → nul_free q → has_own (KvView.view s) o m q →
  ∃ path, q = scoped_path (namespace_of q) path ∧
    hold_tuple (o, {| hl_namespace := namespace_of q; hl_mode := m; hl_path := path |})
      ∈ namespace_holds (namespace_of q) inc pres s.
Proof.
  intros Hok Ho Hq (ns & path & -> & Hown). pose proof (go_good _ _ Hok) as [_ Howk].
  assert (nul_free ns) as Hns by by apply (scoped_path_nul_free ns path).
  assert (sep_free ns) as Hsep.
  { destruct Hown as [x Hx]. pose proof (own_lookup_sk o Ho _ _ x Howk Hx) as ->.
    destruct (own_key _ Howk _ _ Hx) as [_ Hp].
    by apply (Hp {| hl_namespace := ns; hl_mode := m; hl_path := path |}), parse_hold_member_member. }
  exists path. rewrite namespace_of_scoped by done. split; [done|]. by apply namespace_holds_elem.
Qed.

(** ** Clearing a namespace *)

Lemma vacant_frame s s' q :
  frame queue_write s s' → vacant (KvView.view s) q → vacant (KvView.view s') q.
Proof.
  intros Hf. pose proof (frame_readable s s' Hf) as Hr.
  assert (∀ c k, lasting_key c k = true → KvView.view s' !! (c, k) = KvView.view s !! (c, k)) as Hv.
  { intros c k [Hk Hc]%lasting_readable. apply view_ext; [apply Hf|done|by apply Hr]. }
  unfold vacant, writer, EngineView.reads, permit, wk, sk. intros (H1 & H2 & H3).
  split_and!; intros o; rewrite Hv by done; auto.
Qed.

(** No hold of the namespace survives the release of the collected ones. *)
Lemma vacant_after s V' inc pres q :
  group_ok semp s → sub_view (KvView.view s) V' →
  (∀ o m path, hold_tuple (o, {| hl_namespace := namespace_of q; hl_mode := m; hl_path := path |})
      ∈ namespace_holds (namespace_of q) inc pres s → gone V' o m (scoped_path (namespace_of q) path)) →
  vacant V' q.
Proof.
  intros Hok Hsub Hgone. pose proof (go_good _ _ Hok) as [HI Hown].
  assert (∀ o m, nul_free o → nul_free q → has_own (KvView.view s) o m q → gone V' o m q) as Hg.
  { intros o m Ho Hq Hh. destruct (has_own_collected s o m q inc pres Hok Ho Hq Hh) as (path & Heq & Hin).
    rewrite Heq. by apply Hgone. }
  split_and!.
  - intros o Hw. pose proof (sub_view_Some _ _ _ _ Hsub Hw) as Hw0.
    destruct (inv_wr _ _ HI q o Hw0) as (Hq & Ho & _).
    destruct (Hg o Write Ho Hq (own_w _ Hown q o Hw0)) as [Hno _]. by apply Hno.
  - intros o [x Hx]. assert (EngineView.reads (KvView.view s) o q) as Hr
      by (eexists; by eapply sub_view_Some).
    destruct (reads_nul_free _ _ _ _ HI Hr) as [Hq Ho].
    apply (Hg o Read Ho Hq (own_r _ Hown q o Hr)). by eexists.
  - intros o [x Hx]. assert (permit (KvView.view s) o q) as Hp by (eexists; by eapply sub_view_Some).
    destruct (permit_nul_free _ _ _ _ HI Hp) as [Hq Ho].
    destruct (Hg o Write Ho Hq (own_s _ Hown q o Hp)) as [_ Hno]. apply Hno. by eexists.
Qed.

Lemma wp_clear_namespace ns inc s :
  in_op s →
  wp limit_error (clear_namespace ns inc)
    (λ _ s', in_op s' ∧ (∀ q, namespace_of q = ns → vacant (KvView.view s') q) ∧
       ∀ e, e ∈ waiters (qview s') → qe_namespace e ≠ ns) s.
Proof.
  intros Hs. unfold clear_namespace. destruct (preserved_returns inc ns s) as [pres Hpres].
  apply wp_bind. unfold wp at 1. rewrite Hpres. apply wp_bind. unfold wp at 1.
  rewrite (collect_holds_returns ns inc pres s). cbv zeta.
  set (by_owner := foldl group_hold ∅ (namespace_holds ns inc pres s)).
  set (es := merge_sort owner_entry_le (map_to_list by_owner)).
  assert (∀ k reqs, (k, reqs) ∈ es ↔ by_owner !! k = Some reqs) as Hes.
  { intros k reqs. unfold es. rewrite merge_sort_Permutation. apply elem_of_map_to_list. }
  pose proof (go_good _ _ (io_ok _ _ _ _ _ _ _ Hs)) as [HI Hown].
  apply wp_bind. eapply wp_mono.
  { apply wp_release_groups; [done|]. intros [[ns' o] reqs] He%Hes. cbn [fst snd].
    assert (∀ req, req ∈ reqs → nul_free o ∧ nul_free (scoped_path ns' (rel_path req))) as Hall.
    { intros req Hreq.
      destruct (proj1 (group_holds_spec (namespace_holds ns inc pres s) ∅ (ns', o) req))
        as [(x & Hx & _)|(h & Hh & Hk & ->)]; [by exists reqs|by rewrite lookup_empty in Hx|].
      destruct (elem_namespace_holds ns inc pres s h Hown Hh) as (o' & held & -> & Ho' & Hp).
      rewrite hold_req_tuple. cbn [hold_tuple fst snd rel_path] in Hk |- *. by simplify_eq. }
    split; [|intros req Hreq; by apply Hall].
    destruct reqs as [|req reqs]; [|by destruct (Hall req); [left|]].
    (* every group has a request *)
    exfalso. revert He. apply group_holds_nonempty. }
  intros affected s1 (Hs1 & Hsub & Hgone).
  apply wp_bind.
  destruct (clear_namespace_run ns inc pres _ (go_queue _ _ (io_ok _ _ _ _ _ _ _ Hs1)) s1 eq_refl)
    as (s2 & Hrun & Hq2).
  unfold wp at 1. rewrite Hrun. apply wp_ret.
  assert (frame queue_write s1 s2) as Hf.
  { eapply frame_run; [|exact Hrun]. apply sim_queue_clear_namespace. apply _. }
  split_and!.
  - apply (in_op_queue semp now M n K B s1); [done..| | |]; rewrite Hq2.
    + by apply dequeued_all_ok, Hs1.
    + intros e. rewrite cleared_waiters by apply Hs1. by intros [_ ?]%list_elem_of_filter.
    + etrans; [apply dequeued_all_frame|apply Hs1].
  - intros q Hq. subst ns. apply (vacant_frame s1); [done|].
    apply (vacant_after s _ inc pres); [apply Hs|done|]. intros o m path Hin.
    set (h := hold_tuple _) in Hin.
    destruct (proj2 (group_holds_spec (namespace_holds (namespace_of q) inc pres s) ∅
      (namespace_of q, o) (hold_req h))) as (reqs & Hl & Hreq); [right; by exists h|].
    apply (Hgone (namespace_of q, o, reqs)); [by apply Hes|]. exists (hold_req h).
    unfold h. rewrite hold_req_tuple. by destruct m.
  - intros e. rewrite Hq2, cleared_waiters by apply Hs1. intros [Hcl _]%list_elem_of_filter Hne.
    unfold cleared_by in Hcl. by rewrite bool_decide_eq_true_2 in Hcl.
Qed.
End clear.

(** ** Changing which paths are semaphores *)

Lemma Inv_change semp semp' V :
  Inv semp V → (∀ q, semp' q = semp q ∨ vacant V q) → Inv semp' V.
Proof.
  intros HI Hch. destruct HI as [I1 I2 I3 I4 I5 I6 I7 I8 I9 I10]. split; try done.
  - intros p o Hw. destruct (Hch p) as [->|(Hno & _)]; [by apply I2|]. by destruct (Hno o).
  - intros o p Hp. destruct (Hch p) as [->|(_ & _ & Hno)]; [by apply I3|]. by destruct (Hno o).
Qed.

Lemma group_ok_change semp semp' s :
  group_ok semp s → (∀ q, semp' q = semp q ∨ vacant (KvView.view s) q) →
  (∀ e req, e ∈ waiters (qview s) → req ∈ requests (qe_args e) →
     semp' (scoped_path (qe_namespace e) (lr_path req)) =
     semp (scoped_path (qe_namespace e) (lr_path req))) →
  group_ok semp' s.
Proof.
  intros [Hs [HI Hok] Hq He] Hch Hw. split; [done|split; [by apply (Inv_change semp)|done]|done|].
  intros e Hin. destruct (He e Hin) as [H1 H2 H3 H4]. split; [done..|].
  intros req Hreq Hst. rewrite Hw by done. by apply H4.
Qed.

(** After a clear the namespace may take any algorithm. *)
Lemma group_ok_cleared semp semp' ns s :
  group_ok semp s → (∀ q, namespace_of q ≠ ns → semp' q = semp q) →
  (∀ q, namespace_of q = ns → vacant (KvView.view s) q) →
  (∀ e, e ∈ waiters (qview s) → qe_namespace e ≠ ns) → group_ok semp' s.
Proof.
  intros Hok Hsame Hv Hw. apply (group_ok_change semp); [done|..].
  - intros q. destruct (decide (namespace_of q = ns)); auto.
  - intros e req Hin Hreq. apply Hsame.
    destruct (aok_reqs _ _ _ _ (go_entries _ _ Hok e Hin) req Hreq) as [(_ & Hsep & _) _].
    rewrite namespace_of_scoped by done. by apply Hw.
Qed.

(** ** Policy writes *)

Definition policy_record (p : LockPolicy) : bytes := encode_record (Str (namespace_policy_value p) 0).

Lemma stored_policy_insert d M ns p ns' :
  is_u64 (epoch p) →
  stored_policy d (<[namespace_policy_key ns := policy_record p]> M) ns' =
  if decide (ns' = ns) then p else stored_policy d M ns'.
Proof.
  intros Hp. unfold stored_policy, namespace_policy_key. case_decide as Hns.
  - subst. rewrite lookup_insert_eq. unfold policy_record. rewrite decode_encode.
    by rewrite policy_roundtrip.
  - by rewrite lookup_insert_ne.
Qed.
Lemma stored_policy_delete d M ns ns' :
  stored_policy d (delete (namespace_policy_key ns) M) ns' =
  if decide (ns' = ns) then from_algorithm d else stored_policy d M ns'.
Proof.
  unfold stored_policy, namespace_policy_key. case_decide as Hns.
  - subst. by rewrite lookup_delete_eq.
  - by rewrite lookup_delete_ne.
Qed.

Lemma set_policy_runs ns alg s :
  sane s → ∃ p, algorithm p = alg ∧ is_u64 (epoch p) ∧
    set_namespace_policy_inner ns alg s =
    Ok (epoch p, kv_put s CF_NAMESPACE_SETTINGS (namespace_policy_key ns) (policy_record p)).
Proof.
  intros Hs. unfold set_namespace_policy_inner.
  pose proof (policy_record_returns ns default_algorithm s Hs) as Hr.
  assert (is_u64 (epoch (stored_policy default_algorithm (cf_map s CF_NAMESPACE_SETTINGS) ns))) as Hu.
  { unfold stored_policy. destruct (_ !! _) as [b|] eqn:Hb; [|done].
    destruct (Hs _ _ b Hb eq_refl) as (v & exp & -> & _ & (p & Hp & ->)). by rewrite policy_roundtrip. }
  set (cur := stored_policy _ _ _) in *. set (ex := is_some _) in Hr.
  exists {| algorithm := alg; epoch := if ex && bool_decide (algorithm cur = alg)
                                      then epoch cur else saturating_add (epoch cur) 1 |}.
  split; [done|]. split.
  { cbn. destruct (_ && _); [done|]. unfold saturating_add, is_u64, u64_max in *. lia. }
  unfold mbind, txm_bind. rewrite Hr. done.
Qed.

Section writes.
Context (semp : str → bool) (now : Z) (M : gmap bytes bytes) (n : Z) (K B : nat).

Lemma in_op_settings s s' :
  in_op semp now M n K B s → kv_now s' = kv_now s → sane s' →
  (∀ c k, c ≠ CF_NAMESPACE_SETTINGS → cf_map s' c !! k = cf_map s c !! k) →
  in_op semp now (cf_map s' CF_NAMESPACE_SETTINGS) n K B s'.
Proof.
  intros [[Hs Hg Hq He] Hnow HM Hseq HB HK] Hn Hs' H.
  assert (qview s' = qview s) as Hqv.
  { apply qview_same; [done|]. intros c k Hk. apply H. by intros ->. }
  split; [split|lia|done|..].
  - done.
  - apply (good_same semp s); [done| |done]. intros c k _ Hc. by apply H.
  - by rewrite Hqv.
  - by rewrite Hqv.
  - by rewrite Hqv.
  - unfold own_le in *. replace (cf_map s' OWN_CF) with (cf_map s OWN_CF); [done|].
    apply map_eq. intros k. symmetry. by apply H.
  - by rewrite Hqv.
Qed.

Lemma in_op_set_policy ns p s :
  in_op semp now M n K B s → is_u64 (epoch p) →
  in_op semp now (<[namespace_policy_key ns := policy_record p]> M) n K B
    (kv_put s CF_NAMESPACE_SETTINGS (namespace_policy_key ns) (policy_record p)).
Proof.
  intros Hs Hp. set (s' := kv_put _ _ _ _).
  assert (cf_map s' CF_NAMESPACE_SETTINGS = <[namespace_policy_key ns := policy_record p]> M) as Hm.
  { unfold s', kv_put. rewrite cf_map_upd, decide_True by done. by rewrite (io_settings _ _ _ _ _ _ _ Hs). }
  rewrite <- Hm. apply (in_op_settings s); [done|done|..].
  - apply (stable_put_raw (λ _, True) CF_NAMESPACE_SETTINGS _ (policy_record p)); [|apply Hs].
    intros _. exists (namespace_policy_value p), 0. split; [apply decode_encode|]. split; [done|].
    by exists p.
  - intros c k Hc. unfold s'. rewrite cf_map_put, decide_False; [done|]. by intros [<- _].
Qed.

Lemma in_op_delete_policy ns s :
  in_op semp now M n K B s →
  in_op semp now (delete (namespace_policy_key ns) M) n K B
    (kv_del s CF_NAMESPACE_SETTINGS (namespace_policy_key ns)).
Proof.
  intros Hs. set (s' := kv_del _ _ _).
  assert (cf_map s' CF_NAMESPACE_SETTINGS = delete (namespace_policy_key ns) M) as Hm.
  { unfold s', kv_del. rewrite cf_map_upd, decide_True by done. by rewrite (io_settings _ _ _ _ _ _ _ Hs). }
  rewrite <- Hm. apply (in_op_settings s); [done|done|..].
  - apply (stable_delete_raw (λ _, True)). apply Hs.
  - intros c k Hc. unfold s'. rewrite cf_map_del, decide_False; [done|]. by intros [<- _].
Qed.
End writes.
End policy.
