(* ===== verification/GroupTheorems.v ===== *)
(** * The whole group: exclusion, and commands that always apply

    [group_inv] holds in every state a group reaches by applying admissible
    commands, so the exclusion properties of the lock tables hold there too, and
    no admissible command fails to apply. *)

From Stdlib Require Import ZArith NArith Lia Strings.Byte.
From stdpp Require Import sorting countable base numbers gmap strings list.
From S2P Require Import Prelude RustStd StoreKeys Store StoreScan StoreSim KvView EngineTypes.
From S2P Require Import Engine EngineView EngineInv EngineValidate EngineAcquire EngineApply.
From S2P Require Import EngineOps.
From S2P Require Import EngineRelease EngineGrant EngineRest EngineSafe EngineSteps.
From S2P Require Import EngineTotal Footprint Paths Placement.
From S2P Require Import Queue QueueState QueueOps QueueScans Command QueueTheorems.
From S2P Require Import StateMachine.
From S2P Require Import ApplySim ApplyKeeps ApplyTheorems EngineTheorems GroupState GroupSteps.
From S2P Require Import GroupOps GroupPolicy.
Local Open Scope Z_scope.

Section group.
Context `{!Bincode StoredRecord, !Bincode QueueEntry, !Bincode GroupRecord}.
Context (d : LockAlgorithm).

Definition settings (s : Kv) : gmap bytes bytes := cf_map s CF_NAMESPACE_SETTINGS.

(** The invariant, under the policies in force. *)
Definition group_inv (s : Kv) : Prop := group_ok (semaphore_paths d (settings s)) s.

(** The hold-set members there are, and those the waiters may add. *)
Definition hold_count (s : Kv) : nat := size (cf_map s OWN_CF).
Definition waiting_cost (s : Kv) : nat := sweep_cost (waiters (qview s)).

Lemma group_inv_in_op s :
  group_inv s →
  in_op (semaphore_paths d (settings s)) (kv_now s) (settings s) (seq_value (qview s))
    (waiting_cost s) (hold_count s) s.
Proof. intros H. split; try done; unfold own_le, hold_count, waiting_cost; lia. Qed.
Lemma done_group_inv now M s :
  done_ok (semaphore_paths d M) now M s → group_inv s ∧ kv_now s = now.
Proof. intros (Hok & Hn & HM). unfold group_inv, settings. by rewrite HM. Qed.

Lemma semaphore_paths_eq M M' q :
  algorithm (stored_policy d M' (namespace_of q)) = algorithm (stored_policy d M (namespace_of q)) →
  semaphore_paths d M' q = semaphore_paths d M q.
Proof. unfold semaphore_paths. by intros ->. Qed.

(** ** Policy commands *)

Lemma wp_cleared M M' now n K B ns inc s :
  room_for B → in_op (semaphore_paths d M) now M' n K B s →
  (∀ ns', ns' ≠ ns → stored_policy d M' ns' = stored_policy d M ns') →
  wp limit_error (clear_namespace ns inc) (λ _ s', group_inv s' ∧ kv_now s' = now) s.
Proof.
  intros HB Hs Hp. eapply wp_mono; [by eapply wp_clear_namespace|].
  intros cleared s' (Hs' & Hv & Hw). split; [|apply Hs'].
  unfold group_inv, settings. rewrite (io_settings _ _ _ _ _ _ _ Hs').
  apply (group_ok_cleared (semaphore_paths d M) _ ns); [apply Hs'| |done..].
  intros q Hq. apply semaphore_paths_eq. by rewrite Hp.
Qed.

Lemma wp_set_namespace_policy ns alg s :
  group_inv s → room_for (hold_count s) →
  wp limit_error (set_namespace_policy ns alg d) (λ _ s', group_inv s' ∧ kv_now s' = kv_now s) s.
Proof.
  intros Hg HB. pose proof (group_inv_in_op s Hg) as Hs. unfold set_namespace_policy.
  change (@raw_store Kv kv_raw) with kv_store.
  apply wp_bind. unfold wp at 1. rewrite (policy_record_returns ns d s) by apply Hg.
  set (before := stored_policy _ _ _). set (explicit := is_some _).
  destruct (set_policy_runs ns alg s (go_sane _ _ Hg)) as (p & Halg & Hu & Hrun).
  apply wp_bind. unfold wp at 1. rewrite Hrun.
  pose proof (in_op_set_policy _ _ _ _ _ _ ns p s Hs Hu) as Hs1. set (s1 := kv_put _ _ _ _) in *.
  destruct (explicit && bool_decide (alg = algorithm before)) eqn:Hsame.
  - apply andb_true_iff in Hsame as [_ Ha%bool_decide_eq_true]. apply wp_ret. split; [|done].
    unfold group_inv, settings. rewrite (io_settings _ _ _ _ _ _ _ Hs1).
    eapply group_ok_change; [apply Hs1|left|]; intros; apply semaphore_paths_eq;
      rewrite stored_policy_insert by done; case_decide as Hns; try done;
      rewrite Halg, Ha, Hns; done.
  - apply wp_bind. eapply wp_mono; [eapply (wp_cleared (settings s)); [exact HB|exact Hs1|]|].
    + intros ns' Hns. by rewrite stored_policy_insert, decide_False.
    + intros cleared s2 Hs2. by apply wp_ret.
Qed.

Lemma wp_delete_namespace_policy ns s :
  group_inv s → room_for (hold_count s) →
  wp limit_error (delete_namespace_policy ns d) (λ _ s', group_inv s' ∧ kv_now s' = kv_now s) s.
Proof.
  intros Hg HB. pose proof (group_inv_in_op s Hg) as Hs. unfold delete_namespace_policy.
  change (@raw_store Kv kv_raw) with kv_store.
  apply wp_bind. unfold wp at 1. rewrite (policy_record_returns ns d s) by apply Hg.
  pose proof (in_op_delete_policy _ _ _ _ _ _ ns s Hs) as Hs1.
  apply wp_bind. unfold delete_namespace_policy_inner, wp at 1. cbn [del kv_store].
  unfold kv_delete_raw. fold (kv_del s CF_NAMESPACE_SETTINGS (namespace_policy_key ns)).
  set (s1 := kv_del _ _ _) in *.
  destruct (is_some _) eqn:Hex.
  - change (wp limit_error (cleared ← clear_namespace ns false;
        mret (namespace_cleared_response cleared)) (λ _ s', group_inv s' ∧ kv_now s' = kv_now s) s1).
    apply wp_bind. eapply wp_mono; [eapply (wp_cleared (settings s)); [exact HB|exact Hs1|]|].
    + intros ns' Hns. by rewrite stored_policy_delete, decide_False.
    + intros cleared s2 Hs2. by apply wp_ret.
  - apply wp_ret. change (group_inv s1 ∧ kv_now s1 = kv_now s). split; [|done].
    unfold group_inv, settings. rewrite (io_settings _ _ _ _ _ _ _ Hs1).
    fold (settings s) in Hex |- *. destruct (settings s !! namespace_policy_key ns) eqn:Hl; [done|].
    rewrite delete_id by done. rewrite (delete_id (settings s)) in Hs1 by done. apply Hs1.
Qed.

(** ** Every command *)

(** The holds a command may add before it finishes. *)
Definition op_cost (x : Op) : nat :=
  match x with AcquireInNamespace _ _ args => length (requests args) | _ => 0 end.

Lemma wp_execute_op cmd s :
  group_inv s → room_for (hold_count s + op_cost (cmd_op cmd) + waiting_cost s) →
  seq_value (qview s) < i64_max → index_ok s → fence_ok s → admissible cmd →
  wp limit_error (execute_op cmd (kv_now s) d) (λ _ s', group_inv s' ∧ kv_now s' = kv_now s) s.
Proof.
  intros Hg HB Hn Hi Hf Hc. pose proof (group_inv_in_op s Hg) as Hs.
  assert (room_for (hold_count s)) as HB0 by (unfold room_for in *; lia).
  destruct (sets_policy (cmd_op cmd)) eqn:Hp.
  { unfold execute_op. destruct (cmd_op cmd); try done;
      [by apply wp_set_namespace_policy|by apply wp_delete_namespace_policy]. }
  apply (wp_mono _ _ (λ _, done_ok (semaphore_paths d (settings s)) (kv_now s) (settings s)));
    [|intros a s'; apply done_group_inv].
  destruct (is_acquire (cmd_op cmd)) eqn:Ha; [|eapply wp_lock_op; [|done..]; unfold room_for in *; lia].
  unfold execute_op. unfold admissible in Hc. destruct (cmd_op cmd); try done.
  destruct Hc as [Hargs [id Hid]]. rewrite Hid. by eapply wp_acquire_in_namespace.
Qed.

(** ** The passing of time *)

Lemma group_inv_at t now s :
  group_inv (at_time s t) → t ≤ now → group_inv (at_time s now).
Proof.
  intros [Hs Hg Hq He] Hle. unfold group_inv in *.
  change (settings (at_time s now)) with (settings (at_time s t)). split; [done|..].
  - exact (good_at _ now (at_time s t) Hs Hg).
  - exact (with_now_ok (qview (at_time s t)) now Hq Hle).
  - intros e (x & Hst & Hx)%elem_waiters; [|exact (with_now_ok (qview (at_time s t)) now Hq Hle)].
    apply He. apply elem_waiters; [done|]. exists x. split; [done|]. by eapply live_mono.
Qed.

(** ** One group *)
Context `{!Bincode Op, !Bincode (Z * ApplyResponse)} (xxh3_64 : bytes → Z).
Local Abbreviation apply_kv := (apply_kv xxh3_64).

Definition dedupe_ok (s : Kv) : Prop :=
  ∀ k b, cf_map s CF_DEDUPE !! k = Some b → ∃ rec, decode_record b = Ok rec.

(** The keyspace of a group between commands: the clock is the persisted one. *)
Record group_state (s : Kv) : Prop := {
  gs_inv : group_inv (at_time s (kv_last_now s));
  gs_index : index_ok s;
  gs_fence : fence_ok s;
  gs_dedupe : dedupe_ok s
}.

#[local] Instance dedupe_ok_closed : Closed apply_write dedupe_ok.
Proof.
  split.
  - intros s c k mk ttl HW _ H k' b Hb. rewrite cf_map_put_ttl in Hb by done.
    rewrite decide_False in Hb by (intros [-> _]; done). by eapply H.
  - intros s c k b HW H k' b' Hb. rewrite cf_map_put in Hb.
    rewrite decide_False in Hb by (intros [-> _]; done). by eapply H.
  - intros s c k HW H k' b Hb. rewrite cf_map_del in Hb. case_decide; [done|by eapply H].
Qed.
#[local] Instance dedupe_ok_gc : GcClosed dedupe_ok.
Proof.
  intros s c k b exp _ _ _ _ H k' b' Hb. rewrite cf_map_del in Hb. case_decide; [done|by eapply H].
Qed.

Lemma fence_key_unwritten w : apply_write CF_META META_FENCE_COUNTER_KEY w = false.
Proof. by destruct w. Qed.
#[local] Instance fence_ok_closed : Closed apply_write fence_ok.
Proof.
  apply (key_closed_pred CF_META META_FENCE_COUNTER_KEY
    (λ x, ∀ b, x = Some b → ∃ v, decode_record b = Ok (Counter v))); [done|apply fence_key_unwritten].
Qed.
#[local] Instance fence_ok_gc : GcClosed fence_ok.
Proof.
  by apply (key_gc_pred CF_META META_FENCE_COUNTER_KEY
    (λ x, ∀ b, x = Some b → ∃ v, decode_record b = Ok (Counter v))).
Qed.

(** The records of the state machine stay readable. *)
Lemma execute_op_readable cmd s resp s1 :
  index_ok s → fence_ok s → dedupe_ok s → execute_op cmd (kv_now s) d s = Ok (resp, s1) →
  index_ok s1 ∧ fence_ok s1 ∧ dedupe_ok s1.
Proof.
  intros Hi Hf Hd Hrun.
  set (I t := (fence_ok t ∧ dedupe_ok t ∧ index_ok t) ∧ kv_now t = kv_now s).
  assert (Closed apply_write I) as HC by (repeat apply closed_and; apply _).
  assert (GcClosed I) as HG by (repeat apply gc_and; apply _).
  assert (∀ n, sim (same I) (write_fence_counter n) (write_fence_counter n)) as Hsim.
  { intros n. apply sim_same. intros t [(H1 & H2 & H3) H4]. cbn. split; [split_and!|done].
    - intros b. fold (kv_put t CF_META META_FENCE_COUNTER_KEY (encode_record (Counter n))).
      rewrite cf_map_put, decide_True by done. intros [= <-]. exists n. apply decode_encode.
    - intros k b. fold (kv_put t CF_META META_FENCE_COUNTER_KEY (encode_record (Counter n))).
      rewrite cf_map_put, decide_False by naive_solver. apply H2.
    - by apply index_ok_fence. }
  pose proof (execute_op_keeps_with I (λ _ H, proj2 (proj2 (proj1 H))) (kv_now s) (λ _ H, proj2 H)
    cmd d) as Hk.
  assert (I s1) as [(H1 & H2 & H3) _]; [|done].
  refine (keeps_run I _ _ _ _ (Hk _ _) _ Hrun); [| |done].
  - intros. apply sim_keeps, sim_mint_fence_if_needed; [apply _|done].
  - apply sim_keeps, sim_incr_fence_inner; [apply _|done].
Qed.

(** ** The bookkeeping of an application *)

Definition bookkept (cmd : Command) (applied : option bytes) (last now : Z) (s1 : Kv) : Kv :=
  put_applied applied (put_last_now cmd last now s1).

Lemma bookkept_key c k cmd applied last now s1 :
  readable c k || queue_key c k = true →
  cf_map (bookkept cmd applied last now s1) c !! k = cf_map s1 c !! k.
Proof. intros Hk. apply cf_map_put_meta; intros [-> ->]%pair_eq; by vm_compute in Hk. Qed.
Lemma response_key c k cmd resp s1 :
  readable c k || queue_key c k = true →
  cf_map (put_response xxh3_64 cmd resp s1) c !! k = cf_map s1 c !! k.
Proof. intros Hk. apply cf_map_put_response; by intros ->. Qed.

Lemma settings_same s s' :
  (∀ c k, readable c k || queue_key c k = true → cf_map s' c !! k = cf_map s c !! k) →
  settings s' = settings s.
Proof. intros H. apply map_eq. intros k. by apply H. Qed.
Lemma group_inv_same s s' :
  kv_now s' = kv_now s →
  (∀ c k, readable c k || queue_key c k = true → cf_map s' c !! k = cf_map s c !! k) →
  group_inv s → group_inv s'.
Proof.
  intros Hn H. unfold group_inv. rewrite (settings_same s s' H). by apply group_ok_same.
Qed.

Lemma fence_ok_bookkept cmd applied last now s1 :
  fence_ok s1 → fence_ok (bookkept cmd applied last now s1).
Proof. intros H b. unfold bookkept. rewrite cf_map_put_meta by done. apply H. Qed.
Lemma dedupe_ok_bookkept cmd applied last now s1 :
  dedupe_ok s1 → dedupe_ok (bookkept cmd applied last now s1).
Proof. intros H k b. unfold bookkept. rewrite cf_map_put_meta by done. apply H. Qed.
Lemma fence_ok_response cmd resp s1 : fence_ok s1 → fence_ok (put_response xxh3_64 cmd resp s1).
Proof. intros H b. rewrite cf_map_put_response by done. apply H. Qed.
Lemma dedupe_ok_response cmd resp s1 : dedupe_ok s1 → dedupe_ok (put_response xxh3_64 cmd resp s1).
Proof.
  intros H k b. unfold put_response. destruct (request_id cmd); [|apply H].
  rewrite cf_map_put_ttl by done. case_decide; [|apply H]. intros [= <-].
  eexists. apply decode_encode.
Qed.

(** ** Applying commands *)

(** A command as the cluster submits it; fewer than [2^63] requests have queued,
    and there are fewer than [2^64] hold-set members, the waiters' included. *)
Definition submitted (s : Kv) (cmd : Command) : Prop :=
  cmd_ok cmd ∧ admissible cmd ∧ seq_value (qview s) < i64_max ∧
  room_for (hold_count s + op_cost (cmd_op cmd)
            + waiting_cost (at_time s (kv_last_now s))).

(** Waiters only time out. *)
Lemma room_at k s t now :
  group_inv (at_time s t) → t ≤ now →
  room_for (hold_count s + k + waiting_cost (at_time s t)) →
  room_for (hold_count (at_time s now) + k + waiting_cost (at_time s now)).
Proof.
  intros [_ _ Hq _] Hle HB. unfold room_for in *.
  change (hold_count (at_time s now)) with (hold_count s).
  assert (waiting_cost (at_time s now) ≤ waiting_cost (at_time s t))%nat; [|lia].
  pose proof (with_now_ok (qview (at_time s t)) now Hq Hle) as Hq'. apply sweep_cost_sub.
  - eapply NoDup_fmap_1, seq_sorted_nodup, waiters_sorted. exact Hq'.
  - intros e (x & Hst & Hx)%elem_waiters; [|exact Hq'].
    apply elem_waiters; [done|]. exists x. split; [done|]. by eapply live_mono.
Qed.

Lemma noop_runs cmd now s1 resp s2 :
  is_noop (cmd_op cmd) = true → execute_op cmd now d s1 = Ok (resp, s2) → s2 = s1.
Proof. unfold execute_op. destruct (cmd_op cmd); try done. intros _ H. by injection H as _ <-. Qed.

Lemma group_state_apply s cmd applied s' resp :
  group_state s → submitted s cmd → apply_kv s cmd applied d = Ok (s', resp) → group_state s'.
Proof.
  intros [Hinv Hi Hf Hd] ((Hu & Hids & Hnoop) & Hadm & Hseq & HB) Hrun.
  pose proof (apply_kv_index _ _ _ _ _ _ _ Hi Hrun) as Hi'.
  pose proof (apply_kv_clock _ s cmd applied d s' resp Hi Hu Hrun) as Hclock.
  assert (kv_last_now s ≤ now_eff s cmd) as Hle by (unfold now_eff; lia).
  pose proof (group_inv_at _ _ _ Hinv Hle) as Hinv0.
  apply apply_kv_cases in Hrun. unfold cached in Hclock.
  destruct Hrun as [r Hc|r s1 Hc Hrun Hcm|r Hc Hcm]; [done|..]; rewrite Hc in Hclock;
    cbn [orb] in Hclock; fold (bookkept cmd applied (kv_last_now s) (now_eff s cmd)) in *.
  - pose proof (wp_execute_op cmd (at_time s (now_eff s cmd)) Hinv0 (room_at _ _ _ _ Hinv Hle HB) Hseq Hi Hf Hadm) as Hwp.
    unfold wp in Hwp. cbn [kv_now at_time] in Hwp. rewrite Hrun in Hwp. destruct Hwp as [Hg1 Hn1].
    destruct (execute_op_readable cmd (at_time s (now_eff s cmd)) r s1 Hi Hf Hd Hrun) as (_ & Hf1 & Hd1).
    split; [|done|by apply fence_ok_bookkept, fence_ok_response
               |by apply dedupe_ok_bookkept, dedupe_ok_response].
    rewrite Hclock. destruct (is_noop (cmd_op cmd)) eqn:Hop.
    + pose proof (noop_runs _ _ _ _ _ Hop Hrun) as ->.
      apply (group_inv_same (at_time s (kv_last_now s))); [done| |done]. intros c k Hk.
      etrans; [exact (bookkept_key c k cmd applied _ _ _ Hk)|].
      exact (response_key c k cmd r (at_time s (now_eff s cmd)) Hk).
    + apply (group_inv_same s1); [by rewrite Hn1| |done]. intros c k Hk.
      etrans; [exact (bookkept_key c k cmd applied _ _ _ Hk)|]. by apply response_key.
  - split; [|done|by apply fence_ok_bookkept|by apply dedupe_ok_bookkept].
    rewrite Hclock. destruct (is_noop (cmd_op cmd)).
    + apply (group_inv_same (at_time s (kv_last_now s))); [done| |done]. intros c k Hk.
      exact (bookkept_key c k cmd applied _ _ (at_time s _) Hk).
    + apply (group_inv_same (at_time s (now_eff s cmd))); [done| |done]. intros c k Hk.
      exact (bookkept_key c k cmd applied _ _ (at_time s _) Hk).
Qed.

Lemma group_state_empty s : (∀ c k, cf_map s c !! k = None) → group_state s.
Proof.
  intros He. split.
  - set (s0 := at_time s (kv_last_now s)).
    apply (group_inv_same {| kv_now := kv_now s0; kv_data := ∅ |}); [done| |].
    { intros c k _. change (cf_map s0 c) with (cf_map s c). by rewrite He. }
    split.
    + intros c k b. change (cf_map {| kv_now := kv_now s0; kv_data := ∅ |} c) with (∅ : gmap bytes bytes).
      by rewrite lookup_empty.
    + assert (KvView.view {| kv_now := kv_now s0; kv_data := ∅ |} = ∅) as ->; [|apply good_empty].
      by apply map_eq; intros [c k]; rewrite view_lookup, lookup_empty.
    + apply queue_ok_empty.
    + intros e (x & [_ Hx] & _)%elem_waiters; [done|apply queue_ok_empty].
  - intros ek c [b Hb]. by rewrite He in Hb.
  - intros b Hb. by rewrite He in Hb.
  - intros k b Hb. by rewrite He in Hb.
Qed.

(** Commands applied one after the other. *)
Definition group_step (s s' : Kv) : Prop :=
  ∃ cmd applied resp, submitted s cmd ∧ apply_kv s cmd applied d = Ok (s', resp).

Lemma group_steps_state s s' : rtc group_step s s' → group_state s → group_state s'.
Proof.
  induction 1 as [|s1 s2 s3 (cmd & applied & resp & Hsub & Hrun) _ IH]; [done|].
  intros Hs. apply IH. by eapply group_state_apply.
Qed.

(** ** No command fails to apply *)

Lemma cached_response_total cmd s :
  dedupe_ok s → ∃ r, cached_response xxh3_64 cmd s = Ok (r, s).
Proof.
  intros Hd. unfold cached_response. destruct (request_id cmd) as [id|]; [|by eexists].
  unfold get_bytes, w_get_bytes, mbind, txm_bind, asks, lift, mret, txm_ret. cbn.
  unfold kv_get_raw. destruct (cf_map s CF_DEDUPE !! dedupe_key id) as [b|] eqn:Hb; [|by eexists].
  destruct (Hd _ _ Hb) as [[] ->]; by eexists.
Qed.

Lemma run_command_total cmd s :
  group_inv s → room_for (hold_count s + op_cost (cmd_op cmd) + waiting_cost s) →
  seq_value (qview s) < i64_max → index_ok s → fence_ok s → admissible cmd →
  ∃ resp s', run_command cmd (kv_now s) d s = Ok (resp, s').
Proof.
  intros Hg HB Hn Hi Hf Ha. pose proof (wp_execute_op cmd s Hg HB Hn Hi Hf Ha) as H.
  unfold run_command. unfold wp in H. destruct (execute_op _ _ _ s) as [[r s']|e]; [by eexists _, _|].
  destruct H as (op & n & ->). by eexists _, _.
Qed.

Lemma apply_kv_total s cmd applied :
  group_state s → submitted s cmd → ∃ s' resp, apply_kv s cmd applied d = Ok (s', resp).
Proof.
  intros [Hinv Hi Hf Hd] ((Hu & Hids & Hnoop) & Hadm & Hseq & HB).
  assert (kv_last_now s ≤ now_eff s cmd) as Hle by (unfold now_eff; lia).
  pose proof (group_inv_at _ _ _ Hinv Hle) as Hinv0.
  unfold ApplyTheorems.apply_kv, apply_txn. set (s0 := at_time s (now_eff s cmd)) in *.
  destruct (cached_response_total cmd s0 Hd) as [[r|] ->]; [by eexists _, _|].
  destruct (run_command_total cmd s0 Hinv0 (room_at _ _ _ _ Hinv Hle HB) Hseq Hi Hf Hadm)
    as (resp & s1 & Hrun).
  change (kv_now s0) with (now_eff s cmd) in Hrun. rewrite Hrun. destruct (commits resp).
  - unfold mbind, txm_bind. rewrite remember_response_run, write_meta_run. by eexists _, _.
  - rewrite write_meta_run. by eexists _, _.
Qed.

(** ** The database *)
Section database.
Context `{!RocksDb}.
Local Abbreviation apply_with_meta := (apply_with_meta xxh3_64).

(** What group [g] of the database holds, between commands. *)
Definition group_kv (db : DB) (g : GroupId) : Kv := kv_of_db db g 0.

(** One command applied: to group [g], as the cluster submits it, or any
    command to another group. *)
Inductive db_step (g : GroupId) (db : DB) : DB → Prop :=
| step_own cmd applied db' resp wrote :
    submitted (group_kv db g) cmd →
    apply_with_meta db g cmd applied d = Ok (db', resp, wrote) → db_step g db db'
| step_other g' cmd applied d' db' resp wrote :
    is_u32 g' → g' ≠ g →
    apply_with_meta db g' cmd applied d' = Ok (db', resp, wrote) → db_step g db db'.

Lemma group_kv_lookup db g c k : cf_map (group_kv db g) c !! k = get_cf db c (group_key g k).
Proof. apply kv_of_db_lookup. Qed.
Lemma group_kv_shows db g : shows db g (group_kv db g).
Proof. intros c k. symmetry. apply group_kv_lookup. Qed.

Lemma group_state_ext s s' :
  (∀ c k, cf_map s' c !! k = cf_map s c !! k) → group_state s → group_state s'.
Proof.
  intros He [Hinv Hi Hf Hd].
  assert (kv_last_now s' = kv_last_now s) as Hl by (unfold kv_last_now; by rewrite He).
  split.
  - rewrite Hl. apply (group_inv_same (at_time s (kv_last_now s))); [done| |done].
    intros c k _. apply He.
  - intros ek c [b Hb]. rewrite He in Hb. by apply Hi.
  - intros b Hb. rewrite He in Hb. by apply Hf.
  - intros k b Hb. rewrite He in Hb. by eapply Hd.
Qed.

Lemma db_step_state g db db' :
  is_u32 g → db_step g db db' → group_state (group_kv db g) → group_state (group_kv db' g).
Proof.
  intros Hg Hstep Hs.
  destruct Hstep as [cmd applied db' resp w Hsub Hrun|g' cmd applied d' db' resp w Hg' Hne Hrun].
  - pose proof (apply_refines_aux xxh3_64 db g _ cmd applied d (group_kv_shows db g)) as Href.
    rewrite Hrun in Href. destruct (apply_kv _ _ _ _) as [[s' r]|e] eqn:Hkv; [|done].
    destruct Href as (_ & Hshow & _). apply (group_state_ext s'); [|by eapply group_state_apply].
    intros c k. rewrite group_kv_lookup. apply Hshow.
  - pose proof (apply_refines_aux xxh3_64 db g' _ cmd applied d' (group_kv_shows db g')) as Href.
    rewrite Hrun in Href. destruct (apply_kv _ _ _ _) as [[s' r]|e]; [|done].
    destruct Href as (_ & _ & Hout). apply (group_state_ext (group_kv db g)); [|done].
    intros c k. rewrite !group_kv_lookup. apply Hout. intros [k' Hk'].
    change (group_key g k = group_key g' k') in Hk'.
    apply group_key_inj in Hk' as [-> _]; done.
Qed.

Lemma db_steps_state g db db' :
  is_u32 g → (∀ c k, get_cf db c (group_key g k) = None) → rtc (db_step g) db db' →
  group_state (group_kv db' g).
Proof.
  intros Hg He Hsteps.
  assert (group_state (group_kv db g)) as Hs.
  { apply group_state_empty. intros c k. rewrite group_kv_lookup. apply He. }
  clear He. induction Hsteps as [|db db1 db2 Hstep _ IH]; [done|].
  by apply IH, (db_step_state g db).
Qed.
End database.
End group.
