(* ===== verification/GroupClaims.v ===== *)
(** * What a group guarantees

    The theorems about a group of the database as commands are applied to it:
    exclusion, that no submitted command fails to apply, that a change of the
    algorithm empties the namespace, that a sweep serves its waiters in line and the
    oldest waiter first. *)

From Stdlib Require Import ZArith NArith Lia Strings.Byte.
From stdpp Require Import sorting countable base numbers gmap strings list.
From S2P Require Import Prelude RustStd StoreKeys Store StoreScan StoreSim KvView EngineTypes.
From S2P Require Import Instances Engine EngineView EngineInv EngineValidate EngineAcquire.
From S2P Require Import EngineApply EngineOps EngineRelease EngineGrant EngineRest EngineSafe.
From S2P Require Import EngineSteps EngineTotal Footprint Paths Placement Queue QueueSweep.
From S2P Require Import QueueState QueueOps QueueScans Command Codecs QueueTheorems.
From S2P Require Import StateMachine ApplySim ApplyKeeps ApplyTheorems EngineTheorems.
From S2P Require Import GroupState GroupSteps GroupOps GroupPolicy GroupTheorems.
Local Open Scope Z_scope.

(** ** Sweeps only take waiters away *)
Section sweeps.
Context `{!Bincode StoredRecord, !Bincode QueueEntry, !Bincode GroupRecord}.

Definition only_of (W : list QueueEntry) (s : Kv) : Prop :=
  queue_ok (qview s) ∧ ∀ e, e ∈ waiters (qview s) → e ∈ W.

Lemma only_of_acquire W args policy ns s :
  only_of W s → wlp (acquire_inner_in_namespace args policy ns) (λ _, only_of W) s.
Proof.
  intros H. unfold wp. destruct (acquire_inner_in_namespace args policy ns s) as [[r s']|] eqn:Hrun; [|done].
  assert (frame lock_write s s') as Hf by (eapply frame_run; [|exact Hrun]; solve_sim).
  unfold only_of. by rewrite (frame_qview _ _ Hf).
Qed.
Lemma dequeue_waiters o s (Q : unit → Kv → Prop) :
  queue_ok (qview s) →
  (∀ s', queue_ok (qview s') →
     waiters (qview s') = filter (λ e, qe_owner e ≠ o) (waiters (qview s)) → Q tt s') →
  wlp (dequeue o) Q s.
Proof.
  intros Hq HQ. destruct (dequeue_run _ o Hq s eq_refl) as (s' & Hrun & Hq'). unfold wp. rewrite Hrun.
  apply HQ; rewrite Hq'; [by apply dequeued_ok|by apply dequeued_waiters].
Qed.
Lemma only_of_dequeue W o s : only_of W s → wlp (dequeue o) (λ _, only_of W) s.
Proof.
  intros [Hq HW]. apply dequeue_waiters; [done|]. intros s' Hq' Hw. split; [done|].
  intros e. rewrite Hw. intros [_ ?]%list_elem_of_filter. auto.
Qed.
Lemma only_of_sweep W es s waiting :
  only_of W s → wlp (sweep_waiters sweep_try waiting es) (λ _, only_of W) s.
Proof.
  revert s waiting. induction es as [|e es IH]; intros s waiting H; cbn [sweep_waiters]; [by apply wp_ret|].
  destruct (existsb _ waiting); [by apply IH|]. apply wp_bind.
  eapply wp_mono; [by apply only_of_acquire|]. intros o s1 H1. apply wp_bind.
  apply (wp_mono _ _ (λ _, only_of W)).
  { destruct (stays o); [by apply wp_ret|by apply only_of_dequeue]. }
  intros [] s2 H2. apply wp_bind. eapply wp_mono; [by apply IH|]. intros ns s3 H3. by apply wp_ret.
Qed.

Lemma sweep_head e l t s s1 :
  queue_ok (qview s) → sweep_try (qe_namespace e) (qe_args e) (qe_policy e) s = Ok (AcquireOk t, s1) →
  wlp (run_grant_sweep sweep_try (e :: l))
    (λ notify s', (∃ more, notify = qe_owner e :: more) ∧
       ∀ e', e' ∈ waiters (qview s') → e' ∈ waiters (qview s) ∧ qe_owner e' ≠ qe_owner e) s.
Proof.
  intros Hq Htry. unfold wp. rewrite run_grant_sweep_waiters.
  lazymatch goal with |- match ?m s with Ok _ => _ | Err _ => _ end => change (wlp m
    (λ notify s', (∃ more, notify = qe_owner e :: more) ∧
       ∀ e', e' ∈ waiters (qview s') → e' ∈ waiters (qview s) ∧ qe_owner e' ≠ qe_owner e) s) end.
  cbn [sweep_waiters existsb]. apply wp_bind. unfold wp at 1. rewrite Htry. cbn [stays notifies].
  assert (frame lock_write s s1) as Hf by (eapply frame_run; [|exact Htry]; unfold sweep_try; solve_sim).
  pose proof (frame_qview _ _ Hf) as Hs1. apply wp_bind, dequeue_waiters; [by rewrite Hs1|].
  intros s2 Hq2 Hw. apply wp_bind.
  eapply wp_mono; [apply (only_of_sweep (waiters (qview s2))); by split|].
  intros more s3 [_ H3]. apply wp_ret. split; [by exists more|]. intros e' He'%H3.
  rewrite Hw, Hs1 in He'. by apply list_elem_of_filter in He' as [? ?].
Qed.

(** ** Sweeps serve waiters in line *)

Lemma waiter_by_owner s e e' :
  queue_ok (qview s) → e ∈ waiters (qview s) → e' ∈ waiters (qview s) → qe_owner e = qe_owner e' → e = e'.
Proof.
  intros Hq [i Hi]%list_elem_of_lookup [j Hj]%list_elem_of_lookup Ho.
  assert (i = j) as ->; [|congruence].
  eapply NoDup_lookup; [apply waiter_owners_nodup, Hq|..]; rewrite list_lookup_fmap; [by rewrite Hi|].
  rewrite Hj. cbn. by rewrite Ho.
Qed.

(** What the reference sweep over [l] leaves, when [waiting] wait ahead of [l]: the
    waiters outside [l] still wait, nobody new does, and a waiter of [l] that left
    the queue does not conflict with any that still waits ahead of it. *)
Definition line_kept (waiting l : list QueueEntry) (s s' : Kv) : Prop :=
  queue_ok (qview s') ∧ (∀ e, e ∈ waiters (qview s') → e ∈ waiters (qview s)) ∧
  (∀ e, e ∈ waiters (qview s) → e ∉ l → e ∈ waiters (qview s')) ∧
  ∀ l1 e l2 e1, l = l1 ++ e :: l2 → e ∉ waiters (qview s') →
    e1 ∈ waiting ++ l1 → e1 ∈ waiters (qview s') → waiters_conflict e e1 = false.

(** The first waiter stays in the queue. *)
Lemma line_kept_stays waiting w l s s1 s' :
  qview s1 = qview s → w ∈ waiters (qview s) → w ∉ l →
  line_kept (waiting ++ [w]) l s1 s' → line_kept waiting (w :: l) s s'.
Proof.
  intros Hs1 Hw Hl (Hq & Hsub & Hout & Hline). unfold line_kept. rewrite Hs1 in *. split_and!; [done|done|..].
  - intros e He Hne. apply Hout; [done|]. set_solver.
  - intros [|w' l1] e l2 e1; cbn [app]; intros [= <- ->] Hgone He1 Hstays; [by destruct Hgone; apply Hout|].
    eapply Hline; [reflexivity|done| |done]. rewrite <- app_assoc. exact He1.
Qed.
(** The first waiter leaves it, and does not conflict with those ahead. *)
Lemma line_kept_leaves waiting w l s s1 s' :
  queue_ok (qview s) → w ∈ waiters (qview s) → existsb (waiters_conflict w) waiting = false →
  waiters (qview s1) = filter (λ e, qe_owner e ≠ qe_owner w) (waiters (qview s)) →
  line_kept waiting l s1 s' → line_kept waiting (w :: l) s s'.
Proof.
  intros Hq Hw Hfree Hs1 (Hq' & Hsub & Hout & Hline).
  assert (∀ e, e ∈ waiters (qview s1) ↔ qe_owner e ≠ qe_owner w ∧ e ∈ waiters (qview s)) as Hin.
  { intros e. rewrite Hs1. by rewrite list_elem_of_filter. }
  split_and!; [done|..].
  - intros e He%Hsub%Hin. by destruct He.
  - intros e He Hne. apply Hout; [|set_solver]. apply Hin. split; [|done].
    intros Ho. apply Hne. rewrite (waiter_by_owner s e w) by done. by left.
  - intros [|w' l1] e l2 e1; cbn [app]; intros [= <- ->] Hgone He1 Hstays.
    + rewrite app_nil_r in He1. destruct (waiters_conflict w e1) eqn:Hc; [|done].
      assert (existsb (waiters_conflict w) waiting = true) by (apply existsb_exists; exists e1; by rewrite <- list_elem_of_In).
      congruence.
    + eapply Hline; [reflexivity|done| |done]. apply elem_of_app in He1 as [?|[->|?]%elem_of_cons];
        [by apply elem_of_app; left| |by apply elem_of_app; right].
      apply Hsub, Hin in Hstays. by destruct Hstays.
Qed.

Lemma sweep_line waiting l s :
  queue_ok (qview s) → NoDup (waiting ++ l) → (∀ e, e ∈ waiting ++ l → e ∈ waiters (qview s)) →
  wlp (sweep_waiters sweep_try waiting l) (λ _ s', line_kept waiting l s s') s.
Proof.
  revert waiting s. induction l as [|w l IH]; intros waiting s Hq Hnd Hin; cbn [sweep_waiters].
  { apply wp_ret. split_and!; [done|done|done|]. by intros []. }
  assert (w ∈ waiters (qview s)) as Hw by (apply Hin; set_solver).
  assert (w ∉ l) as Hwl by (apply NoDup_app in Hnd as (_ & _ & [? _]%NoDup_cons); done).
  assert (∀ s1, qview s1 = qview s →
    wlp (sweep_waiters sweep_try (waiting ++ [w]) l) (λ _ s', line_kept waiting (w :: l) s s') s1) as Hstay.
  { intros s1 Hs1. eapply wp_mono; [apply IH|].
    - by rewrite Hs1.
    - by rewrite <- app_assoc.
    - rewrite <- app_assoc, Hs1. exact Hin.
    - intros ns s' Hk. by eapply line_kept_stays. }
  destruct (existsb _ waiting) eqn:Hc; [by apply Hstay|]. apply wp_bind.
  unfold wp at 1. destruct (sweep_try _ _ _ s) as [[o s1]|] eqn:Htry; [|done].
  assert (frame lock_write s s1) as Hf by (eapply frame_run; [|exact Htry]; unfold sweep_try; solve_sim).
  pose proof (frame_qview _ _ Hf) as Hs1. apply wp_bind. destruct (stays o).
  { apply wp_ret, wp_bind. eapply wp_mono; [by apply Hstay|]. intros ns s' Hk. apply wp_ret. exact Hk. }
  apply dequeue_waiters; [by rewrite Hs1|]. intros s2 Hq2 Hw2. rewrite Hs1 in Hw2. apply wp_bind.
  eapply wp_mono; [apply IH; [done| |]|intros ns s' Hk; apply wp_ret; by eapply line_kept_leaves].
  - rewrite NoDup_app in Hnd |- *. destruct Hnd as (? & Hd & [_ ?]%NoDup_cons). split_and!; [done| |done]. set_solver.
  - intros e He. rewrite Hw2. apply list_elem_of_filter. assert (e ∈ waiters (qview s)) as Hes by (apply Hin; set_solver).
    split; [|done]. intros Ho. assert (e = w) as -> by by apply (waiter_by_owner s).
    apply NoDup_app in Hnd as (_ & Hd & _). apply elem_of_app in He as [He|]; [|done]. apply (Hd w He). by left.
Qed.

(** Nobody of [l] has overtaken anybody of [l] in conflict: whoever left the queue
    does not conflict with a waiter that came earlier and still waits. *)
Definition in_line (l : list QueueEntry) (s' : Kv) : Prop :=
  ∀ e1 e2, e1 ∈ l → e2 ∈ l → qe_seq e1 < qe_seq e2 →
    e1 ∈ waiters (qview s') → e2 ∉ waiters (qview s') → waiters_conflict e2 e1 = false.
(** A sweep of [s] that serves exactly the waiters [l], pairwise in line; the others
    stay where they are. *)
Definition serves_in_line (l : list QueueEntry) (sweep : txm Kv (list str)) (s : Kv) : Prop :=
  sweep s = sweep_waiters sweep_try [] l s ∧
  match sweep s with
  | Ok (_, s') => in_line l s' ∧ ∀ e, e ∈ waiters (qview s) → e ∉ l → e ∈ waiters (qview s')
  | Err err => limit_error err
  end.

Lemma sublist_seq_sorted l l' : l `sublist_of` l' → StronglySorted seq_lt l' → StronglySorted seq_lt l.
Proof.
  induction 1 as [|x l l' Hl IH|x l l' Hl IH]; [done|..]; intros [? Hx]%StronglySorted_inv; [|by apply IH].
  constructor; [by apply IH|]. rewrite Forall_forall in Hx |- *.
  intros y Hy. apply Hx. by eapply elem_of_sublist.
Qed.
Lemma sweep_serves (sweep : txm Kv (list str)) l s :
  queue_ok (qview s) → l `sublist_of` waiters (qview s) → sweep s = run_grant_sweep sweep_try l s →
  wp limit_error sweep (λ _ _, True) s → serves_in_line l sweep s.
Proof.
  intros Hq Hl Hrun Herr. rewrite run_grant_sweep_waiters in Hrun. split; [done|].
  assert (∀ e, e ∈ l → e ∈ waiters (qview s)) as Hin by (intros e He; by eapply elem_of_sublist).
  pose proof (waiters_sorted _ Hq) as Hsorted. assert (StronglySorted seq_lt l) as Hs by by eapply sublist_seq_sorted.
  assert (NoDup l) as Hnd by (eapply sublist_NoDup; [|exact Hl]; apply NoDup_fmap_1 with qe_owner, waiter_owners_nodup, Hq).
  pose proof (sweep_line [] l s Hq Hnd Hin) as Hline. unfold wp in Hline, Herr. rewrite Hrun in *.
  destruct (sweep_waiters sweep_try [] l s) as [[ns s']|err]; [|done]. destruct Hline as (_ & _ & Hout & Hkeep).
  split; [|done]. intros e1 e2 H1 [l1 [l2 ->]]%list_elem_of_split Hlt Hst Hgone.
  eapply Hkeep; [reflexivity|done| |done]. apply elem_of_app in H1 as [?|H1]; [done|].
  apply StronglySorted_app_1_r in Hs. apply StronglySorted_inv in Hs as [_ Hall]. rewrite Forall_forall in Hall.
  apply elem_of_cons in H1 as [->|H1]; [lia|]. apply Hall in H1. unfold seq_lt in H1. lia.
Qed.
End sweeps.

(** ** Changing a policy *)
Section policies.
Context `{!Bincode StoredRecord, !Bincode QueueEntry, !Bincode GroupRecord} (d : LockAlgorithm).

(** No lock of the namespace is held and nobody waits for one. *)
Definition emptied (ns : str) (s : Kv) : Prop :=
  (∀ q, namespace_of q = ns → vacant (KvView.view s) q) ∧
  ∀ e, e ∈ waiters (qview s) → qe_namespace e ≠ ns.

Lemma wp_set_policy_emptied ns alg s :
  group_inv d s → room_for (hold_count s) →
  alg ≠ algorithm (stored_policy d (settings s) ns) →
  wp limit_error (set_namespace_policy ns alg d)
    (λ _ s', emptied ns s' ∧ algorithm (stored_policy d (settings s') ns) = alg) s.
Proof.
  intros Hg HB Hne. pose proof (group_inv_in_op d s Hg) as Hs. unfold set_namespace_policy.
  change (@raw_store Kv kv_raw) with kv_store.
  apply wp_bind. unfold wp at 1. rewrite (policy_record_returns ns d s) by apply Hg.
  fold (settings s). destruct (set_policy_runs ns alg s (go_sane _ _ Hg)) as (p & Halg & Hu & Hrun).
  apply wp_bind. unfold wp at 1. rewrite Hrun.
  pose proof (in_op_set_policy _ _ _ _ _ _ ns p s Hs Hu) as Hs1. set (s1 := kv_put _ _ _ _) in *.
  rewrite (bool_decide_eq_false_2 _ Hne), andb_false_r. apply wp_bind.
  eapply wp_mono; [by eapply wp_clear_namespace|]. intros cleared s2 (Hs2 & Hv & Hw).
  apply wp_ret. split; [done|]. unfold settings at 1. rewrite (io_settings _ _ _ _ _ _ _ Hs2).
  by rewrite stored_policy_insert, decide_True.
Qed.
End policies.

(** ** Theorems *)
Section theorems.
Context `{!Bincode StoredRecord, !Bincode QueueEntry, !Bincode GroupRecord}.
Context `{!Bincode Op, !Bincode (Z * ApplyResponse)} (xxh3_64 : bytes → Z) (d : LockAlgorithm).

(** C1: Whatever commands are submitted to the groups of a database (well-formed
    ones, as the service's are, with the counters of the group below their machine
    limits: [submitted]), in group [g] (empty at first) the locks of two different owners never conflict, and the
    holders of a semaphore path stay within its capacity, at any time [now] from
    the group's clock on.  Acquires, releases, queue grants, renewals, policy
    changes, expiry and garbage collection are all included. *)
Theorem group_exclusion `{!RocksDb} g db0 db now :
  is_u32 g → (∀ c k, get_cf db0 c (group_key g k) = None) →
  rtc (db_step d xxh3_64 g) db0 db → read_last_now db g ≤ now →
  (∀ a b ma mb pa pb alga algb,
     lock_held (KvView.view (at_time (group_kv db g) now)) a ma pa alga →
     lock_held (KvView.view (at_time (group_kv db g) now)) b mb pb algb →
     a ≠ b → locks_conflict alga pa ma algb pb mb = false) ∧
  (∀ p holders, holders ≠ [] → NoDup holders →
     (∀ o, o ∈ holders → permit (KvView.view (at_time (group_kv db g) now)) o p) →
     ∃ n, capacity (KvView.view (at_time (group_kv db g) now)) p = Some n ∧ len holders ≤ n).
Proof.
  intros Hg He Hsteps Hnow.
  destruct (db_steps_state d xxh3_64 g db0 db Hg He Hsteps) as [Hinv _ _ _].
  rewrite (shows_last_now db g _ (group_kv_shows db g)) in Hnow.
  pose proof (go_good _ _ (group_inv_at d _ now _ Hinv Hnow)) as Hgood. split.
  - intros a b ma mb pa pb alga algb Ha Hb. by eapply locks_conflict_holds; [apply Hgood|..].
  - apply (inv_cap _ _ (good_inv _ _ Hgood)).
Qed.

(** C5: No command stops a group.  In every state a group reaches, applying a
    command the cluster submits returns a response: the only errors its operation
    can meet, enumeration limits, are answered as a rejection. *)
Theorem commands_always_apply `{!RocksDb} g db0 db cmd applied :
  is_u32 g → (∀ c k, get_cf db0 c (group_key g k) = None) →
  rtc (db_step d xxh3_64 g) db0 db → submitted (group_kv db g) cmd →
  ∃ db' resp wrote, apply_with_meta xxh3_64 db g cmd applied d = Ok (db', resp, wrote).
Proof.
  intros Hg He Hsteps Hsub. pose proof (db_steps_state d xxh3_64 g db0 db Hg He Hsteps) as Hs.
  destruct (apply_kv_total d xxh3_64 _ cmd applied Hs Hsub) as (s' & r & Hkv).
  pose proof (apply_refines_aux xxh3_64 db g _ cmd applied d (group_kv_shows db g)) as Href.
  rewrite Hkv in Href. destruct (apply_with_meta _ db g cmd applied d) as [[[db' r'] w]|e]; [|done].
  by exists db', r', w.
Qed.

(** C17: Giving a namespace another locking algorithm empties it: when the change
    commits, no lock of the namespace is held, nobody waits for one, and the
    namespace has the new algorithm, so locks taken under the old rules never
    meet requests judged by the new ones. *)
Theorem policy_change_empties s cmd ns alg resp s' :
  group_inv d s → room_for (hold_count s) → cmd_op cmd = SetNamespacePolicy ns alg →
  alg ≠ algorithm (stored_policy d (settings s) ns) →
  execute_op cmd (kv_now s) d s = Ok (resp, s') →
  (∀ q, namespace_of q = ns →
     (∀ o, writer (KvView.view s') q ≠ Some o) ∧ (∀ o, ¬ EngineView.reads (KvView.view s') o q) ∧
     ∀ o, ¬ permit (KvView.view s') o q) ∧
  (∀ e, e ∈ waiters (qview s') → qe_namespace e ≠ ns) ∧
  algorithm (stored_policy d (settings s') ns) = alg.
Proof.
  intros Hg HB Hop Hne Hrun. unfold execute_op in Hrun. rewrite Hop in Hrun.
  pose proof (wp_set_policy_emptied d ns alg s Hg HB Hne) as Hwp. unfold wp in Hwp.
  rewrite Hrun in Hwp. destruct Hwp as [[Hv Hw] Ha]. split; [exact Hv|]. by split.
Qed.

(** C4: A sweep does not barge among the waiters it serves.  The full sweep serves
    every waiter; the sweep after a release serves some of them, all those that
    wait for a path related to a freed one, and leaves the others in the queue.
    Either runs exactly as the reference sweep over the waiters it serves, which
    goes through them in order of arrival and compares them pairwise: one is tried
    unless it conflicts with an earlier one that stays, and one that was granted,
    lost, or can never be granted holds up nobody.  So whoever leaves the queue
    does not conflict with a waiter it serves that came earlier and still waits.
    A sweep fails only at an enumeration limit. *)
Theorem sweep_no_barging s freed :
  group_inv d s → room_for (hold_count s + waiting_cost s) →
  serves_in_line (waiters (qview s)) sweep_grants s ∧
  ∃ l, l `sublist_of` waiters (qview s) ∧
    (∀ e a p, e ∈ waiters (qview s) → a ∈ wait_paths e → p ∈ freed → related true p a → e ∈ l) ∧
    serves_in_line l (sweep_grants_for_paths freed) s.
Proof.
  intros Hg HB. pose proof (go_queue _ _ Hg) as Hq. pose proof (group_inv_in_op d s Hg) as Hop. split.
  - apply sweep_serves; [done|done| |].
    + unfold sweep_grants, grant_sweep, mbind, txm_bind. by rewrite (proj1 (queue_scans_exact s Hq)).
    + eapply wp_mono; [exact (costs_sweep_grants _ _ _ _ _ _ s HB Hop)|done].
  - destruct (targeted_sweep s freed Hq) as (l & C & Hl & Hin & Hrun). exists l.
    assert (l `sublist_of` waiters (qview s)) as Hsub by (rewrite Hl; apply sublist_filter). split_and!; [done|by eauto|].
    apply sweep_serves; [done|done|exact Hrun|].
    eapply wp_mono; [exact (costs_sweep_grants_for_paths _ _ _ _ _ freed _ s HB Hop)|done].
Qed.

(** C18: Waiters make progress.  If the oldest waiter waits for a path related to
    a freed one and its request can now be granted, the sweep after the release
    grants it: the sweep fails only at an enumeration limit, and otherwise the
    owner is the first to be notified and waits no more. *)
Theorem oldest_waiter_granted s freed e rest a p t s1 :
  group_inv d s → room_for (hold_count s + waiting_cost s) →
  waiters (qview s) = e :: rest → a ∈ wait_paths e → p ∈ freed → related true p a →
  acquire_inner_in_namespace (qe_args e) (qe_policy e) (qe_namespace e) s = Ok (AcquireOk t, s1) →
  match sweep_grants_for_paths freed s with
  | Ok (notify, s') => head notify = Some (qe_owner e) ∧
      ∀ e', e' ∈ waiters (qview s') → e' ∈ rest ∧ qe_owner e' ≠ qe_owner e
  | Err err => limit_error err
  end.
Proof.
  intros Hg HB Hw Ha Hp Hrel Htry. pose proof (go_queue _ _ Hg) as Hq.
  pose proof (costs_sweep_grants_for_paths _ _ _ _ _ freed _ s HB (group_inv_in_op d s Hg)) as Hc.
  unfold wp in Hc.
  destruct (targeted_sweep s freed Hq) as (l & C & Hl & Hin & Hrun).
  assert (e ∈ l) as Hel by (eapply Hin; [rewrite Hw; by left|exact Ha|by exists p]).
  rewrite Hw in Hl. rewrite Hl in Hel. apply list_elem_of_filter in Hel as [HC _].
  rewrite filter_cons_True in Hl by done.
  unfold sweep_grants_for_paths in *. rewrite Hrun in *. rewrite Hl in *.
  pose proof (sweep_head e (filter (λ e, qe_seq e ∈ C) rest) t s s1 Hq Htry) as Hh. unfold wp in Hh.
  destruct (run_grant_sweep _ _ s) as [[notify s']|err]; [|done].
  destruct Hh as [[more ->] Hrest]. split; [done|]. intros e' He'. destruct (Hrest e' He') as [Hin' Hne].
  split; [|done]. rewrite Hw in Hin'. apply elem_of_cons in Hin' as [->|]; done.
Qed.
End theorems.

(** ** Witnesses: alice holds a path, bob waits for one below it *)
Module GroupWitness.
Import ApplyTheorems.Witness.
#[local] Existing Instance ref_bincode.
#[local] Existing Instance ref_rocksdb.
#[local] Existing Instance entry_codec.
#[local] Existing Instance group_codec.
#[local] Existing Instance op_codec.
#[local] Existing Instance response_codec.

Definition alice : Command := command "c1" "alice" "fs:/x" 1000.
Definition bob : Command := command "c2" "bob" "fs:/x/y" 1001.
Definition carol : Command := command "c3" "carol" "fs:/z" 1002.
Definition db0 : DB := (∅ : gmap cf (gmap bytes bytes)).
Definition db1 : DB := db_of (apply_with_meta hash db0 7 alice None d).

Lemma db1_run : apply_with_meta hash db0 7 alice None d = Ok (db1, RAcquire (AcquireOk 1), true).
Proof. apply db_run_inv. vm_compute. reflexivity. Qed.
Lemma db2_run :
  apply_with_meta hash db1 7 bob (Some (bs "p2")) d =
  Ok (db2, RAcquire (AcquireQueued (bs "fs:/x") (bs "alice") AncestorLocked 2), true).
Proof. apply db_run_inv. vm_compute. reflexivity. Qed.

Lemma admissible_by client owner path now :
  bool_decide (nul_free (bs owner)) = true → utf8_valid (bs owner) = true →
  bool_decide (nul_free (scoped_path (bs "fs") (bs path))) = true →
  admissible (command client owner path now).
Proof.
  intros Ho%bool_decide_eq_true_1 Hu Hp%bool_decide_eq_true_1. split; [|by eexists]. split.
  - done.
  - by apply (bool_decide_unpack _).
  - intros req ->%list_elem_of_singleton. by split.
  - by intros rel ?%not_elem_of_nil.
Qed.

(** The submission hypotheses, evaluated. *)
Definition small (s : Kv) (cmd : Command) : bool :=
  (seq_value (qview s) <? i64_max) &&
  (Z.of_nat (hold_count s + op_cost (cmd_op cmd) + waiting_cost (at_time s (kv_last_now s))) <? 2 ^ 64).
Lemma submitted_by s client owner path now :
  is_u64 now → admissible (command client owner path now) →
  small s (command client owner path now) = true → submitted s (command client owner path now).
Proof.
  intros Hn Ha [H1%Z.ltb_lt H2%Z.ltb_lt]%andb_true_iff.
  split; [by apply command_ok|]. done.
Qed.

Lemma alice_submitted : submitted (group_kv db0 7) alice.
Proof. apply submitted_by; [done|by apply admissible_by|]. vm_compute. reflexivity. Qed.
Lemma bob_submitted : submitted (group_kv db1 7) bob.
Proof. apply submitted_by; [done|by apply admissible_by|]. vm_compute. reflexivity. Qed.
Lemma carol_submitted : submitted (group_kv db2 7) carol.
Proof. apply submitted_by; [done|by apply admissible_by|]. vm_compute. reflexivity. Qed.
Lemma db0_empty c k : get_cf db0 c (group_key 7 k) = None.
Proof. reflexivity. Qed.
Lemma db_steps : rtc (db_step d hash 7) db0 db2.
Proof.
  eapply rtc_l; [exact (step_own d hash 7 db0 alice None _ _ _ alice_submitted db1_run)|].
  apply rtc_once. exact (step_own d hash 7 db1 bob _ _ _ _ bob_submitted db2_run).
Qed.

Lemma u32_7 : is_u32 7.
Proof. by split. Qed.
Lemma db2_clock : read_last_now db2 7 = 1001.
Proof. vm_compute. reflexivity. Qed.
Lemma db2_time : read_last_now db2 7 ≤ 2000.
Proof. rewrite db2_clock. lia. Qed.
Definition view2 : View := KvView.view (at_time (group_kv db2 7) 2000).
Lemma alice_holds : lock_held view2 (bs "alice") Write (scoped_path (bs "fs") (bs "fs:/x")) RecursiveRw.
Proof. split; vm_compute; reflexivity. Qed.

Lemma group_exclusion_witness :
  read_last_now db2 7 ≤ 2000 ∧
  ∀ b mb pb algb, lock_held view2 b mb pb algb → bs "alice" ≠ b →
    locks_conflict RecursiveRw (scoped_path (bs "fs") (bs "fs:/x")) Write algb pb mb = false.
Proof.
  split; [exact db2_time|].
  pose proof (group_exclusion hash d 7 db0 db2 2000 u32_7 db0_empty db_steps db2_time) as [H _].
  intros b mb pb algb. exact (H _ _ _ _ _ _ _ _ alice_holds).
Defined.

Lemma commands_always_apply_witness :
  ∃ db' resp wrote, apply_with_meta hash db2 7 carol None d = Ok (db', resp, wrote).
Proof.
  exact (commands_always_apply hash d 7 db0 db2 carol None u32_7 db0_empty db_steps carol_submitted).
Defined.

Lemma db2_inv now : 1001 ≤ now → group_inv d (at_time (group_kv db2 7) now).
Proof.
  intros Hn. destruct (db_steps_state d hash 7 db0 db2 u32_7 db0_empty db_steps) as [H _ _ _].
  apply (group_inv_at d _ now _ H). by rewrite <- (shows_last_now db2 7 _ (group_kv_shows db2 7)), db2_clock.
Qed.

(** The namespace becomes a semaphore namespace. *)
Definition change_policy : Command :=
  {| request_id := None; cmd_now_ms := 2000; cmd_op := SetNamespacePolicy (bs "fs") Semaphore |}.
Definition s2000 : Kv := at_time (group_kv db2 7) 2000.
Definition changed := execute_op change_policy (kv_now s2000) d s2000.
Lemma changed_run :
  ∃ resp, execute_op change_policy (kv_now s2000) d s2000 = Ok (resp, end_state changed).
Proof.
  fold changed. assert (is_some (outcome_of changed) = true) as H by (vm_compute; reflexivity).
  destruct changed as [[r s']|]; [by exists r|done].
Qed.
Lemma s2000_room : room_for (hold_count s2000).
Proof. vm_compute. reflexivity. Qed.
Lemma s2000_inv : group_inv d s2000.
Proof. apply db2_inv. lia. Qed.
Lemma fs_x_namespace : namespace_of (scoped_path (bs "fs") (bs "fs:/x")) = bs "fs".
Proof. vm_compute. reflexivity. Qed.
Lemma s2000_policy : Semaphore ≠ algorithm (stored_policy d (settings s2000) (bs "fs")).
Proof. vm_compute. discriminate. Qed.

Lemma policy_change_empties_witness :
  writer (KvView.view (end_state changed)) (scoped_path (bs "fs") (bs "fs:/x")) ≠ Some (bs "alice").
Proof.
  destruct changed_run as [resp Hrun].
  pose proof (policy_change_empties d s2000 change_policy (bs "fs") Semaphore resp (end_state changed)
    s2000_inv s2000_room eq_refl s2000_policy Hrun) as [H _].
  exact (proj1 (H _ fs_x_namespace) (bs "alice")).
Defined.

(** Alice's lease has run out. *)
Definition s9000 : Kv := at_time (group_kv db2 7) 9000.
Definition bob_entry : QueueEntry :=
  {| qe_seq := 1; qe_owner := bs "bob"; qe_namespace := bs "fs";
     qe_args := with_token (args "bob" "fs:/x/y") 2; qe_policy := from_algorithm RecursiveRw |}.
Lemma s9000_waiters : waiters (qview s9000) = [bob_entry].
Proof. vm_compute. reflexivity. Qed.
Definition freed : list str := [scoped_path (bs "fs") (bs "fs:/x")].
Definition bob_path : str := scoped_path (bs "fs") (bs "fs:/x/y").
Definition tried :=
  acquire_inner_in_namespace (qe_args bob_entry) (qe_policy bob_entry) (qe_namespace bob_entry) s9000.
Lemma tried_run :
  acquire_inner_in_namespace (qe_args bob_entry) (qe_policy bob_entry) (qe_namespace bob_entry) s9000
  = Ok (AcquireOk 2, end_state tried).
Proof. fold tried. apply run_end. vm_compute. reflexivity. Qed.
Lemma s9000_inv : group_inv d s9000.
Proof. apply db2_inv. lia. Qed.
Lemma s9000_room : room_for (hold_count s9000 + waiting_cost s9000).
Proof. vm_compute. reflexivity. Qed.
Lemma bob_waits : bob_path ∈ wait_paths bob_entry.
Proof. apply (bool_decide_unpack _). vm_compute. exact I. Qed.
Lemma freed_related : related true (scoped_path (bs "fs") (bs "fs:/x")) bob_path.
Proof. right; right. split; [done|]. apply (bool_decide_unpack _). vm_compute. exact I. Qed.

Lemma oldest_waiter_granted_witness :
  match sweep_grants_for_paths freed s9000 with
  | Ok (notify, s') => head notify = Some (bs "bob") ∧
      ∀ e', e' ∈ waiters (qview s') → e' ∈ [] ∧ qe_owner e' ≠ bs "bob"
  | Err err => limit_error err
  end.
Proof.
  exact (oldest_waiter_granted d s9000 freed bob_entry [] bob_path _ 2 (end_state tried) s9000_inv
    s9000_room s9000_waiters bob_waits (list_elem_of_here _ _) freed_related tried_run).
Defined.

Lemma sweep_no_barging_witness :
  serves_in_line [bob_entry] sweep_grants s9000 ∧
  ∃ l, l `sublist_of` [bob_entry] ∧ bob_entry ∈ l ∧ serves_in_line l (sweep_grants_for_paths freed) s9000.
Proof.
  destruct (sweep_no_barging d s9000 freed s9000_inv s9000_room) as [Hfull (l & Hsub & Hin & Hl)].
  rewrite s9000_waiters in Hfull, Hsub, Hin. split; [exact Hfull|]. exists l. split; [exact Hsub|]. split; [|exact Hl].
  exact (Hin bob_entry bob_path _ (list_elem_of_here _ _) bob_waits (list_elem_of_here _ _) freed_related).
Defined.

(** ** A waiter outside the sweep is overtaken

    Xena holds [/a] and yuri [/c].  Walt waits for [/b] and [/c], then cleo for [/a]
    and [/b], behind walt.  Xena releases [/a]: walt waits for no path related to
    it, so the sweep does not see that it reserves [/b], and grants cleo both
    paths.  Walt still waits, and now for cleo. *)
Definition asks (client owner : string) (paths : list string) (now : Z) : Command :=
  {| request_id := Some {| client_id := bs client; ri_seq := 1 |}; cmd_now_ms := now;
     cmd_op := AcquireInNamespace (bs "fs") (from_algorithm RecursiveRw)
       {| owner_id := bs owner; ttl_ms := 5000; fencing_token := 0; release_requests := [];
          requests := (λ p, {| lr_path := bs p; lr_mode := Write; lr_state := New; lr_permits := 1 |}) <$> paths;
          queue_ttl_ms := 0 |} |}.
Definition releases (client owner path : string) (now : Z) : Command :=
  {| request_id := Some {| client_id := bs client; ri_seq := 1 |}; cmd_now_ms := now;
     cmd_op := Release (bs "fs") (bs owner) [{| rel_path := bs path; rel_mode := Write |}] false |}.
Fixpoint run_all (db : DB) (cmds : list Command) : DB * list ApplyResponse :=
  match cmds with
  | [] => (db, [])
  | cmd :: cmds =>
      match apply_with_meta hash db 7 cmd None d with
      | Ok (db, resp, _) => let '(db, resps) := run_all db cmds in (db, resp :: resps)
      | Err _ => (db, [])
      end
  end.
Definition overtaking : DB * list ApplyResponse :=
  run_all db0 [asks "c1" "xena" ["fs:/a"] 1000; asks "c2" "yuri" ["fs:/c"] 1001;
               asks "c3" "walt" ["fs:/b"; "fs:/c"] 1002; asks "c4" "cleo" ["fs:/a"; "fs:/b"] 1003;
               releases "c5" "xena" "fs:/a" 1004].
Lemma targeted_sweep_barges :
  overtaking.2 =
    [RAcquire (AcquireOk 1); RAcquire (AcquireOk 2);
     RAcquire (AcquireQueued (bs "fs:/c") (bs "yuri") WriteLocked 3);
     RAcquire (AcquireQueued (bs "fs:/b") (bs "walt") Queued 4); Granted [bs "cleo"]] ∧
  (qe_owner <$> waiters (qview (at_time (group_kv overtaking.1 7) 1004))) = [bs "walt"].
Proof. vm_compute. split; reflexivity. Qed.
End GroupWitness.
