(* ===== verification/ReadClaims.v ===== *)
(** * What reads report about a group

    On a replica, the liveness of an owner, the locks in a namespace and the
    entries of the lock dump are those of the group's state, at a clock no
    earlier than the one the group's commands run at. *)

From Stdlib Require Import ZArith NArith Lia Strings.Byte.
From stdpp Require Import sorting countable base numbers gmap strings list.
From S2P Require Import Prelude RustStd StoreKeys Store StoreScan StoreSim KvView EngineTypes.
From S2P Require Import Instances Engine EngineView EngineInv EngineApply EngineRelease.
From S2P Require Import EngineSafe.
From S2P Require Import Snapshot Paths Placement Queue QueueState Command Codecs StateMachine.
From S2P Require Import ApplyTheorems GroupState GroupPolicy GroupTheorems GroupClaims Reads.
Local Open Scope Z_scope.

Section read_state.
Context `{!Bincode StoredRecord, !RocksDb} (db : DB) (g : GroupId) (now : Z).
Local Abbreviation s := (kv_of_db db g now).
Local Abbreviation V := (KvView.view (kv_of_db db g now)).

Lemma sane_alive_decodes : sane s → alive_decodes db g.
Proof.
  intros Hs owner raw Hraw. rewrite <- (kv_of_db_lookup db g now) in Hraw.
  destruct (Hs _ _ _ Hraw) as (v & exp & Hd & _); [done|by exists (Str v exp)].
Qed.

Lemma stored_alive_spec owner : stored_alive db g now owner = true ↔ alive V owner.
Proof.
  unfold alive, ak. rewrite view_lookup_live, kv_of_db_lookup by done. unfold stored_alive, live_rec.
  destruct (get_cf db _ _) as [raw|]; cbn; [|split; [done|by intros [? ?]]].
  destruct (decode_record raw) as [rec|]; cbn; [|split; [done|by intros [? ?]]].
  destruct (live_str rec now); cbn; [by split|split; [done|by intros [? ?]]].
Qed.

(** The holds the scans go through are the recorded ones. *)
Lemma owner_hold_owns k b owner held :
  own_ok V → cf_map s CF_OWNER_HOLDS !! k = Some b → owner_hold now k b = Some (owner, held) →
  ∃ m, nul_free owner ∧ owns V owner m ∧ parse_hold_member m = Some held.
Proof.
  intros Hok Hk Hh. unfold owner_hold in Hh.
  destruct (double_nul k) as [sep|] eqn:Hsep; [|done]. cbn in Hh.
  destruct (from_utf8 (take sep k)) as [o'|] eqn:Hu; [|done]. cbn in Hh.
  destruct (decode_record_lenient b) as [rec|] eqn:Hd; [|done]. cbn in Hh. apply lenient_decode in Hd.
  destruct (live_str rec now) as [m|] eqn:Hl; [|done]. cbn in Hh.
  destruct (parse_hold_member m) as [held'|] eqn:Hp; [|done]. cbn in Hh. injection Hh as <- <-.
  assert (V !! (OWN_CF, k) = Some m) as Hv by (apply view_own; eauto).
  destruct (own_key _ Hok k m Hv) as [(o & Ho & _ & Heq) _]. pose proof Heq as Heq'. unfold sk in Heq.
  apply pair_eq in Heq as [_ ->]. rewrite double_nul_own in Hsep by done. injection Hsep as <-.
  rewrite member_key_app, take_app_length in Hu.
  unfold from_utf8 in Hu. destruct (utf8_valid o); [injection Hu as <-|done].
  exists m. split_and!; [done| |done]. exists m. by rewrite <- Heq'.
Qed.

Lemma owns_owner_hold owner m held :
  own_ok V → nul_free owner → owns V owner m → parse_hold_member m = Some held →
  ∃ k b, cf_map s CF_OWNER_HOLDS !! k = Some b ∧ owner_hold now k b = Some (owner, held).
Proof.
  intros Hok Ho [x Hx] Hp. unfold sk in Hx.
  destruct (own_key _ Hok _ _ Hx) as [(o' & Ho' & Hu & Heq) _].
  apply (sk_inj OWN_CF OWN_CF) in Heq as (_ & <- & <-); [|done..].
  apply view_own in Hx as (b & rec & Hb & Hd & Hl).
  exists (member_key (owner ++ [NUL]) m), b. split; [done|]. unfold owner_hold.
  rewrite double_nul_own by done. cbn. rewrite member_key_app, take_app_length.
  unfold from_utf8. rewrite Hu. cbn. apply lenient_decode in Hd. rewrite Hd. cbn.
  cbn in Hl. rewrite Hl. cbn. by rewrite Hp.
Qed.

Lemma has_locks_spec namespace :
  sane s → own_ok V →
  ∃ b, namespace_has_live_locks db g now namespace = Ok b ∧
    (b = true ↔ ∃ owner m held, nul_free owner ∧ alive V owner ∧ owns V owner m ∧
       parse_hold_member m = Some held ∧ namespace_contains_path namespace (hl_path held) = true).
Proof.
  intros Hs Hok. rewrite namespace_has_live_locks_run by by apply sane_alive_decodes.
  eexists. split; [reflexivity|]. rewrite existsb_exists. unfold live_inside. split.
  - intros ([k b] & Hin%list_elem_of_In & Hl). apply btree_range_elem in Hin as [Hk _]. cbn [fst snd] in Hl.
    destruct (owner_hold now k b) as [[owner held]|] eqn:Hh; [|done].
    apply andb_true_iff in Hl as [Hc Ha%stored_alive_spec].
    destruct (owner_hold_owns _ _ _ _ Hok Hk Hh) as (m & ? & ? & ?). by exists owner, m, held.
  - intros (owner & m & held & Ho & Ha & Hown & Hp & Hc).
    destruct (owns_owner_hold owner m held Hok Ho Hown Hp) as (k & b & Hk & Hh).
    exists (k, b). split; [by apply list_elem_of_In, btree_range_elem|]. cbn [fst snd]. rewrite Hh, Hc.
    by apply stored_alive_spec.
Qed.

Lemma page_rows_from page raw rows e :
  e ∈ (page_rows page raw rows).1 → ∃ k, (k, Some e) ∈ rows.
Proof.
  revert page raw. induction rows as [|[k row] rows IH]; intros page raw; [by intros ?%not_elem_of_nil|].
  cbn [page_rows]. destruct ((page <=? 0) || _); [by intros ?%not_elem_of_nil|].
  specialize (IH (match row with Some _ => page - 1 | None => page end) (raw + 1)).
  destruct (page_rows _ _ _) as [es next]. cbn [fst] in *. destruct row as [e'|].
  - intros [->|He]%elem_of_cons; [exists k; by left|]. destruct (IH He) as [k' ?]. exists k'. by right.
  - intros He. destruct (IH He) as [k' ?]. exists k'. by right.
Qed.

Lemma dump_entry_spec cursor page e :
  sane s → own_ok V →
  e ∈ entries (dump_page (dump_rows db g now) cursor page) →
  nul_free (le_owner e) ∧ alive V (le_owner e) ∧
  ∃ m held, owns V (le_owner e) m ∧ parse_hold_member m = Some held ∧
    hl_path held = le_path e ∧ hl_mode held = le_mode e.
Proof.
  intros Hs Hok. unfold dump_page. pose proof (page_rows_from page 0 (from_cursor cursor (dump_rows db g now)) e) as Hpage.
  destruct (page_rows _ _ _) as [es next]. cbn [entries fst] in *. intros [k Hin]%Hpage.
  apply list_elem_of_filter in Hin as [_ Hin]. unfold dump_rows in Hin.
  apply list_elem_of_fmap in Hin as ([k' b] & [= -> Hrow] & [Hk _]%btree_range_elem). cbn [fst snd] in *.
  unfold dump_row in Hrow. destruct (owner_hold now k' b) as [[owner held]|] eqn:Hh; [|done].
  destruct (stored_alive db g now owner) eqn:Ha; [|done]. injection Hrow as ->. cbn.
  apply stored_alive_spec in Ha. destruct (owner_hold_owns _ _ _ _ Hok Hk Hh) as (m & ? & ? & ?).
  split_and!; [done|done|]. by exists m, held.
Qed.

Lemma read_alive owner :
  alive_decodes db g →
  run_read (is_owner_alive_inner owner) {| rt_db := db; rt_group := g; rt_now_ms := now |} =
  Ok (stored_alive db g now owner).
Proof.
  intros Hd. unfold run_read, is_owner_alive_inner, owner_alive, stored_alive. cbn.
  unfold w_get_str, mbind, txm_bind, result_bind, asks, rt_get_raw, rt_scoped. cbn.
  destruct (get_cf db CF_OWNER_ALIVE _) as [raw|] eqn:Hg; [|done]. cbn.
  destruct (Hd _ _ Hg) as [rec ->]. cbn. by destruct (live_str rec now).
Qed.

(** Every hold of an owner that has no recorded hold inside the namespace is outside. *)
Lemma outside_holds namespace owner q :
  own_ok V → nul_free owner → nul_free q →
  writer V q = Some owner ∨ EngineView.reads V owner q ∨ permit V owner q →
  (∀ m held, owns V owner m → parse_hold_member m = Some held →
     namespace_contains_path namespace (hl_path held) = false) →
  ∃ ns path, q = scoped_path ns path ∧ namespace_contains_path namespace path = false.
Proof.
  intros Hok Ho Hq Hheld Hout.
  assert (∃ m, has_own V owner m q) as (m & ns & path & -> & Hown).
  { destruct Hheld as [Hh|[Hh|Hh]]; eexists; [by eapply own_w|by eapply own_r|by eapply own_s]. }
  exists ns, path. split; [done|].
  assert (nul_free ns) as Hns by by apply (scoped_path_nul_free ns path).
  exact (Hout _ _ Hown (parse_hold_member_member ns m path Hns)).
Qed.
End read_state.

Section theorems.
Context `{!Bincode StoredRecord, !Bincode QueueEntry, !Bincode GroupRecord}.
Context `{!Bincode Op, !Bincode (Z * ApplyResponse)} (xxh3_64 : bytes → Z) (d : LockAlgorithm).

Lemma reachable_reads `{!RocksDb} g db0 db wall :
  is_u32 g → (∀ c k, get_cf db0 c (group_key g k) = None) → rtc (db_step d xxh3_64 g) db0 db →
  let s := kv_of_db db g (Z.max wall (read_last_now db g)) in sane s ∧ own_ok (KvView.view s).
Proof.
  intros Hg He Hsteps. destruct (db_steps_state d xxh3_64 g db0 db Hg He Hsteps) as [Hinv _ _ _].
  rewrite (shows_last_now db g _ (group_kv_shows db g)).
  assert (kv_last_now (group_kv db g) ≤ Z.max wall (kv_last_now (group_kv db g))) as Hle by lia.
  pose proof (group_inv_at d _ _ _ Hinv Hle) as [Hs Hgood _ _].
  change (kv_of_db db g ?n) with (at_time (group_kv db g) n). split; [exact Hs|apply Hgood].
Qed.

(** C37: A replica of a group answers from the state its commands produced.  In every state the group
    reaches by submitted commands, the reads below return (no error): an owner is reported alive exactly when its lease is;
    a namespace is reported to have locks exactly when a live owner holds one at a path inside it, so
    after the answer no, whoever is a writer, reader or permit holder and alive holds a path outside the
    namespace; and every entry of a page of the lock dump is a hold of a live owner. *)
Theorem reads_report_group `{!RocksDb} g db0 db wall :
  is_u32 g → (∀ c k, get_cf db0 c (group_key g k) = None) → rtc (db_step d xxh3_64 g) db0 db →
  let V := KvView.view (kv_of_db db g (Z.max wall (read_last_now db g))) in
  (∀ owner, execute_read_blocking db g (IsOwnerAlive owner) d wall =
     Ok (ReadBool (bool_decide (alive V owner)))) ∧
  (∀ namespace, ∃ b, execute_read_blocking db g (NamespaceHasLocks namespace) d wall = Ok (ReadBool b) ∧
     (b = true ↔ ∃ owner m held, nul_free owner ∧ alive V owner ∧ owns V owner m ∧
        parse_hold_member m = Some held ∧ namespace_contains_path namespace (hl_path held) = true) ∧
     (b = false → ∀ owner q, nul_free owner → nul_free q → alive V owner →
        writer V q = Some owner ∨ EngineView.reads V owner q ∨ permit V owner q →
        ∃ ns path, q = scoped_path ns path ∧ namespace_contains_path namespace path = false)) ∧
  (∀ cursor page, ∃ p, execute_read_blocking db g (DumpPage cursor page) d wall = Ok (ReadDumpPage p) ∧
     ∀ e, e ∈ entries p → alive V (le_owner e) ∧
       ∃ m held, owns V (le_owner e) m ∧ parse_hold_member m = Some held ∧
         hl_path held = le_path e ∧ hl_mode held = le_mode e).
Proof.
  intros Hg He Hsteps V. destruct (reachable_reads g db0 db wall Hg He Hsteps) as [Hs Hok].
  split_and!.
  - intros owner. unfold execute_read_blocking. cbv zeta.
    assert (run_read (is_owner_alive_inner owner)
      {| rt_db := db; rt_group := g; rt_now_ms := Z.max wall (read_last_now db g) |} =
      Ok (stored_alive db g (Z.max wall (read_last_now db g)) owner)) as ->.
    { by apply read_alive, (sane_alive_decodes db g (Z.max wall (read_last_now db g))). }
    cbn. do 2 f_equal. apply eq_true_iff_eq. rewrite bool_decide_eq_true. apply stored_alive_spec.
  - intros namespace. destruct (has_locks_spec db g (Z.max wall (read_last_now db g)) namespace Hs Hok)
      as (b & Hrun & Hb). exists b. cbn [execute_read_blocking]. rewrite Hrun. split_and!; [done|exact Hb|].
    intros -> owner q Ho Hq Ha Hheld. apply (outside_holds db g _ namespace owner q Hok Ho Hq Hheld).
    intros m held Hown Hp. destruct (namespace_contains_path namespace (hl_path held)) eqn:Hc; [|done].
    assert (false = true) by (apply Hb; by exists owner, m, held). done.
  - intros cursor page. eexists. unfold execute_read_blocking. cbv zeta.
    rewrite dump_owner_holds_page by by apply (sane_alive_decodes db g (Z.max wall (read_last_now db g))).
    split; [reflexivity|]. intros e He'. by apply (dump_entry_spec _ _ _ _ _ e Hs Hok) in He' as (_ & ? & ?).
Qed.
End theorems.

Module ReadWitness.
Import ApplyTheorems.Witness GroupWitness.
#[local] Existing Instance ref_bincode.
#[local] Existing Instance ref_rocksdb.
#[local] Existing Instance entry_codec.
#[local] Existing Instance group_codec.
#[local] Existing Instance op_codec.
#[local] Existing Instance response_codec.

Definition read_busy (b : bool) : Prop :=
  execute_read_blocking db2 7 (NamespaceHasLocks (bs "fs:/x")) d 2000 = Ok (ReadBool b).
Lemma busy : read_busy true.
Proof. vm_compute. reflexivity. Qed.

(** Alice's lock is reported. *)
Lemma reads_report_group_witness :
  read_busy true ∧
  ∃ owner m held, nul_free owner ∧
    alive (KvView.view (kv_of_db db2 7 (Z.max 2000 (read_last_now db2 7)))) owner ∧
    owns (KvView.view (kv_of_db db2 7 (Z.max 2000 (read_last_now db2 7)))) owner m ∧
    parse_hold_member m = Some held ∧ namespace_contains_path (bs "fs:/x") (hl_path held) = true.
Proof.
  split; [exact busy|].
  pose proof (reads_report_group hash d 7 db0 db2 2000 u32_7 db0_empty db_steps) as (_ & H & _).
  destruct (H (bs "fs:/x")) as (b & Hrun & Hb & _). apply Hb.
  assert (Ok (ReadBool b) = Ok (ReadBool true)) as [= Heq] by (rewrite <- Hrun; exact busy). exact Heq.
Defined.
End ReadWitness.
