(* ===== verification/ServiceLogic.v ===== *)
(** * What the service submits: a logic for the router's proposals

    [sound G m φ]: when [G] holds and the router's namespace roots are valid,
    running [m] keeps them valid, proposes well-formed commands only, and its
    result satisfies [φ].  The namespace lists the system group answers with are
    taken to hold valid names. *)

From Stdlib Require Import ZArith NArith Lia Strings.Byte.
From stdpp Require Import sorting countable base numbers gmap strings list.
From S2P Require Import Prelude RustStd StoreKeys Store Snapshot Grpc Proto EngineTypes.
From S2P Require Import Validate Engine.
From S2P Require Import EngineInv Placement Queue Command StateMachine Reads Router RouterOps.
From S2P Require Import RouterApi.
From S2P Require Import RouterReads RouterLogic Service ApplySim ApplyTheorems GroupState.
From S2P Require Import GroupOps.
Local Open Scope Z_scope.

Definition ns_ok (ns : str) : Prop := nul_free ns ∧ sep_free ns.
Record router_ok (r : Router) : Prop := {
  ro_roots ns : ns ∈ namespace_roots r → ns_ok ns;
  ro_seq : is_u64 (seq_counter r)
}.

(** The namespace lists of a run's reads. *)
Definition listed_ok (r : RouterError + ReadResult) : Prop :=
  ∀ es, r = inr (ReadNamespaceList es) → ∀ e, e ∈ es → ns_ok (npe_namespace e).
Definition answers_ok (l : list event) : Prop := ∀ g op r, Asked g op r ∈ l → listed_ok r.
Definition submits (l : list event) : Prop := ∀ g cmd r, Proposed g cmd r ∈ l → cmd_ok cmd ∧ admissible cmd.

Lemma answers_app l l' : answers_ok (l ++ l') ↔ answers_ok l ∧ answers_ok l'.
Proof. unfold answers_ok. setoid_rewrite elem_of_app. naive_solver. Qed.
Lemma submits_app l l' : submits (l ++ l') ↔ submits l ∧ submits l'.
Proof. unfold submits. setoid_rewrite elem_of_app. naive_solver. Qed.
Lemma submits_nil : submits [].
Proof. intros g cmd r ?%not_elem_of_nil. done. Qed.

Section sound.
Context `{!Bincode StoredRecord, !RocksDb, !Cluster}.
Context `{!Bincode Command, !Bincode ReadOp}.
Context `{!Bincode (ForwardError + ApplyResponse), !Bincode (ForwardError + ReadResult)}.

Definition sound (G : Prop) {A} (m : rm A) (φ : A → Prop) : Prop :=
  ∀ n, emits m (λ r l n', G → router_ok (router n) → answers_ok l →
    router_ok (router n') ∧ submits l ∧ ∀ a, r = inr a → φ a) n.

Lemma sound_ret G {A} (a : A) φ : (G → φ a) → sound G (mret a) φ.
Proof. intros Ha n. apply emits_ret. intros HH Hn _. split_and!; [done|apply submits_nil|]. by intros ? [= <-]; auto. Qed.
Lemma sound_fail G {A} e (φ : A → Prop) : sound G (fail e) φ.
Proof. intros n. apply emits_fail. intros HH Hn _. split_and!; [done|apply submits_nil|done]. Qed.
Lemma sound_of_sum G {A} (r : RouterError + A) (φ : A → Prop) :
  (G → ∀ a, r = inr a → φ a) → sound G (of_sum r) φ.
Proof. intros Hr n. apply emits_of_sum. intros HH Hn _. split_and!; [done|apply submits_nil|auto]. Qed.
Lemma sound_bind G {A B} (m : rm A) (f : A → rm B) φ ψ :
  sound G m φ → (∀ a, sound (G ∧ φ a) (f a) ψ) → sound G (m ≫= f) ψ.
Proof.
  intros Hm Hf n. apply emits_bind. eapply emits_mono; [by apply Hm|]. intros [e|a] l n' HQ; cbn.
  - intros HH Hn Ha. destruct (HQ HH Hn Ha) as (? & ? & _). done.
  - apply emits_after. eapply emits_mono; [by apply Hf|]. intros r l' n'' HQ' HH Hn [Ha Ha']%answers_app.
    destruct (HQ HH Hn Ha) as (Hn' & Hs & Gφ). destruct HQ' as (? & Hs' & ?); [split; auto|done|done|].
    split_and!; [done|by apply submits_app|done].
Qed.
Lemma sound_mono (G G' : Prop) {A} (m : rm A) (φ φ' : A → Prop) :
  sound G m φ → (G' → G) → (∀ a, G' → φ a → φ' a) → sound G' m φ'.
Proof.
  intros Hm HH Gφ n. eapply emits_mono; [by apply Hm|]. intros r l n' HQ HG' Hn Ha.
  destruct (HQ (HH HG') Hn Ha) as (? & ? & ?). split_and!; [done|done|]. auto.
Qed.
Lemma sound_attempt G {A} (m : rm A) φ : sound G m φ → sound G (attempt m) (λ r, ∀ a, r = inr a → φ a).
Proof.
  intros Hm n. apply emits_attempt. eapply emits_mono; [by apply Hm|]. intros r l n' HQ HH Hn Ha.
  destruct (HQ HH Hn Ha) as (? & ? & ?). split_and!; [done|done|]. by intros ? [= <-].
Qed.
Lemma sound_get_router G : sound G get_router router_ok.
Proof. intros n. apply emits_get_router. intros ? Hn _. split_and!; [done|apply submits_nil|]. by intros ? [= <-]. Qed.
Lemma sound_get_world G : sound G get_world (λ _, True).
Proof. intros n. apply emits_get_world. intros ? Hn _. split_and!; [done|apply submits_nil|done]. Qed.
Lemma sound_modify G f : (∀ r, G → router_ok r → router_ok (f r)) → sound G (modify f) (λ _, True).
Proof. intros Hf n. apply emits_modify. intros HH Hn _. split_and!; [cbn; auto|apply submits_nil|done]. Qed.
Lemma sound_with_router G {A} (f : Router → A * Router) φ :
  (∀ r, G → router_ok r → router_ok (f r).2 ∧ φ (f r).1) → sound G (with_router f) φ.
Proof.
  intros Hf n. apply emits_with_router. intros HH Hn _. destruct (Hf (router n) HH Hn) as [? ?].
  split_and!; [done|apply submits_nil|]. by intros ? [= <-].
Qed.
Lemma sound_await G {A} (f : Router * World → A * (Router * World)) :
  (∀ r w, router_ok r → router_ok (f (r, w)).2.1) → sound G (await f) (λ _, True).
Proof.
  intros Hf n. unfold emits, await. specialize (Hf (router n) (world n)).
  destruct (f (router n, world n)) as [a [r w]]. exists []. split; [by rewrite app_nil_r|].
  intros ? Hn _. split_and!; [by apply Hf|apply submits_nil|done].
Qed.
Lemma sound_pause G f : (∀ r w, router_ok r → router_ok (f (r, w)).1) → sound G (pause f) (λ _, True).
Proof. intros Hf. apply sound_await. intros r w. apply Hf. Qed.
Lemma sound_each G {A B} (f : A → rm B) (xs : list A) (φ : B → Prop) :
  (∀ x, x ∈ xs → sound G (f x) φ) → sound G (each f xs) (λ ys, Forall φ ys).
Proof.
  induction xs as [|x xs IH]; intros Hf; cbn [each]; [apply sound_ret; constructor|].
  eapply sound_bind; [apply Hf; by left|]. intros y. eapply sound_bind.
  { eapply sound_mono; [apply IH; intros x' Hx'; apply Hf; by right|by intros [? _]|by intros ? ? ?]. }
  intros ys. apply sound_ret. intros [[_ ?] ?]. by constructor.
Qed.
End sound.

(** ** Valid roots *)

Lemma elem_dedup x l : x ∈ dedup l → x ∈ l.
Proof.
  induction l as [|a l IH]; [done|]. destruct l as [|b l]; [done|].
  change (dedup (a :: b :: l)) with (if bool_decide (a = b) then dedup (b :: l) else a :: dedup (b :: l)).
  case_bool_decide; [intros ?; right; auto|]. intros [->|?]%elem_of_cons; [by left|right; auto].
Qed.
Lemma elem_sorted_roots x l : x ∈ sort_namespace_roots l → x ∈ l.
Proof. intros Hx%elem_dedup. by rewrite merge_sort_Permutation in Hx. Qed.
Lemma policies_of_keys es ns : is_Some (policies_of es !! ns) → ∃ e, e ∈ es ∧ npe_namespace e = ns.
Proof.
  unfold policies_of. assert (∀ es (m : gmap str NamespacePolicyEntry),
    is_Some (foldl (λ m e, <[npe_namespace e := e]> m) m es !! ns) →
    is_Some (m !! ns) ∨ ∃ e, e ∈ es ∧ npe_namespace e = ns) as Hgen.
  { clear es. induction es as [|e es IH]; intros m; cbn [foldl]; [by left|].
    intros [Hm|(e' & ? & ?)]%IH; [|right; exists e'; split; [by right|done]].
    destruct (decide (npe_namespace e = ns)); [right; exists e; split; [by left|done]|].
    left. by rewrite lookup_insert_ne in Hm. }
  intros [Hm|?]%Hgen; [by rewrite lookup_empty in Hm; destruct Hm|done].
Qed.

Section roots.
Context (routing : RoutingOptions) (dflt : LockAlgorithm).

Lemma ok_times a b r : router_ok r → router_ok (set_cache_times a b r).
Proof. by intros [? ?]. Qed.
Lemma ok_load es t r :
  (∀ e, e ∈ es → ns_ok (npe_namespace e)) → router_ok r → router_ok (load_namespaces es t r).
Proof.
  intros Hes [_ ?]. split; [|done]. cbn. intros ns Hns%elem_sorted_roots.
  apply list_elem_of_fmap in Hns as ([k e] & -> & Hk%elem_of_map_to_list). cbn.
  destruct (policies_of_keys es k) as (e' & ? & <-); [by eexists|]. auto.
Qed.
Lemma ok_cache e r : ns_ok (npe_namespace e) → router_ok r → router_ok (cache_namespace_entry e r).
Proof.
  intros He [Hr ?]. split; [|done]. cbn. intros ns Hns%elem_sorted_roots.
  apply elem_of_app in Hns as [?| ->%list_elem_of_singleton]; auto.
Qed.
Lemma ok_uncache ns r : router_ok r → router_ok (uncache_namespace_root ns r).
Proof. intros [Hr ?]. split; [|done]. cbn. intros ns' [_ ?]%list_elem_of_filter. auto. Qed.
Lemma ok_domain (xxh3_64 : bytes → Z) d r : router_ok r → router_ok (group_of_domain xxh3_64 routing r d).2.
Proof. intros [? ?]. unfold group_of_domain. destruct (_ !! _); [done|]. by destruct (_ <? _). Qed.

(** The namespace a path is routed by. *)
Lemma routing_prefix_prefix path k : routing_prefix path k `prefix_of` path.
Proof.
  unfold routing_prefix. destruct (find c_colon path); [|done]. destruct (_ =? _); [apply prefix_take|].
  destruct (segment_end _ _ _ _); [apply prefix_take|done].
Qed.
Lemma prefix_ns_ok p path : p `prefix_of` path → ns_ok path → ns_ok p.
Proof. intros [r ->] [? ?]. unfold ns_ok, nul_free, sep_free in *. set_solver. Qed.
Lemma ok_resolve r path :
  router_ok r → ns_ok path → ns_ok (nr_namespace (resolve_namespace_cached routing dflt r path)).
Proof.
  intros [Hr _] Hp. unfold resolve_namespace_cached.
  destruct (List.find _ _) as [ns|] eqn:Hf.
  - apply find_some in Hf as [Hin _]. by apply Hr, list_elem_of_In.
  - cbn. eapply prefix_ns_ok; [apply routing_prefix_prefix|done].
Qed.

Lemma relative_nul_free ns path : nul_free path → nul_free (relative_path ns path).
Proof.
  assert (nul_free slash) by (by apply (bool_decide_unpack _)).
  assert (∀ p s, nul_free path → strip_prefix p path = Some s → nul_free s) as Hstrip.
  { intros p s Hp Hs%strip_prefix_Some. subst. unfold nul_free in *. set_solver. }
  intros Hp. unfold relative_path. destruct (negb _).
  { destruct (find c_colon path); [|done]. rewrite <- (take_drop (n + 1) path) in Hp.
    unfold nul_free in *. set_solver. }
  case_bool_decide; [done|]. destruct (ends_with _ ns).
  - destruct (strip_prefix ns path) as [s|] eqn:Hs; [|done]. apply Hstrip in Hs; [|done]. cbn.
    destruct s; [done|]. unfold nul_free in *. set_solver.
  - destruct (strip_prefix ns path) as [s|] eqn:Hs; [|done]. destruct (starts_with _ s); [|done].
    by eapply Hstrip.
Qed.
Lemma scoped_nul_free ns path : nul_free ns → nul_free path → nul_free (scoped_path ns path).
Proof.
  intros Hns Hp%(relative_nul_free ns). unfold scoped_path, nul_free in *.
  rewrite elem_of_app, elem_of_cons. intros [?|[?|?]]; [done|discriminate|done].
Qed.
End roots.

(** ** The operations *)

(** Operations a command may carry when it has a request id. *)
Definition good_op (op : Op) : Prop :=
  is_noop op = false ∧ ∀ cmd, cmd_op cmd = op → is_Some (request_id cmd) → admissible cmd.
Record fits (op : Op) (cmd : Command) : Prop := {
  fits_op : cmd_op cmd = op;
  fits_id : is_Some (request_id cmd);
  fits_now : is_u64 (cmd_now_ms cmd);
  fits_seq id : request_id cmd = Some id → is_u64 (ri_seq id)
}.
Lemma fits_ok op cmd : fits op cmd → good_op op → cmd_ok cmd ∧ admissible cmd.
Proof. intros [Hop Hid Hnow Hseq] [Hn Ha]. split; [|by apply Ha]. split_and!; [done|done|]. rewrite Hop. congruence. Qed.

Record acquire_valid (args : AcquireArgs) : Prop := {
  av_owner : nul_free (owner_id args) ∧ utf8_valid (owner_id args) = true;
  av_reqs req : req ∈ requests args → ns_ok (lr_path req) ∧ is_u32 (lr_permits req);
  av_rels rel : rel ∈ release_requests args → ns_ok (rel_path rel)
}.
Lemma good_acquire ns policy args : ns_ok ns → acquire_valid args → good_op (AcquireInNamespace ns policy args).
Proof.
  intros [Hn Hs] [Ho Hq Hl]. split; [done|]. intros cmd Hop Hid. unfold admissible. rewrite Hop. split; [|done].
  split; [done|done| |].
  - intros req Hreq. destruct (Hq req Hreq) as [[? _] ?]. split; [by apply scoped_nul_free|done].
  - intros rel Hrel. destruct (Hl rel Hrel) as [? _]. by apply scoped_nul_free.
Qed.
Lemma good_release ns owner reqs del_wait :
  ns_ok ns → nul_free owner → (∀ req, req ∈ reqs → ns_ok (rel_path req)) → good_op (Release ns owner reqs del_wait).
Proof.
  intros [Hn _] Ho Hr. split; [done|]. intros cmd Hop _. unfold admissible. rewrite Hop. split; [done|].
  intros req Hreq. destruct (Hr req Hreq). by apply scoped_nul_free.
Qed.
(** Operations that carry an owner only, or nothing to check. *)
Lemma good_simple op :
  match op with
  | ReleaseAll owner _ | ForceRelease owner | Renew owner _ => nul_free owner
  | SetNamespacePolicy ns _ | DeleteNamespacePolicy ns => sep_free ns
  | SetWaitEdge _ _ _ | ClearWaitEdge _ | IncrFence | RequestRevoke _ _ => True
  | _ => False
  end → good_op op.
Proof. intros Hop. split; [by destruct op|]. intros cmd <- _. unfold admissible. by destruct (cmd_op cmd). Qed.

Lemma elem_in_order {A} (order : list nat) (l : list A) x : x ∈ in_order order l → x ∈ l.
Proof. unfold in_order. intros (i & _ & Hi)%list_elem_of_omap. by eapply list_elem_of_lookup_2. Qed.
Lemma elem_iterate {A} order (m : list (str * A)) e : e ∈ iterate order m → e ∈ m.
Proof. intros (ns & _ & [Hin _]%find_some)%list_elem_of_omap. by apply list_elem_of_In. Qed.

Section operations.
Context `{!Bincode StoredRecord, !RocksDb, !Cluster}.
Context `{!Bincode Command, !Bincode ReadOp}.
Context `{!Bincode (ForwardError + ApplyResponse), !Bincode (ForwardError + ReadResult)}.
Context (xxh3_64 : bytes → Z) (routing : RoutingOptions) (dflt : LockAlgorithm).
Context (node_id : Z) (own_client_id : str).
Context (Hkept : kept router_ok) (Hclock : ∀ w, is_u64 (wall_ms w)).

Local Abbreviation apply_to := (apply_to routing node_id).
Local Abbreviation read_on := (read_on dflt node_id).
Local Abbreviation read_linearizable := (read_linearizable dflt node_id).
Local Abbreviation the_command := (the_command own_client_id).

(** What a read or write leaves of the router. *)
Lemma basic_ok r0 : basic (λ r, router_ok r0 → router_ok r).
Proof.
  split.
  - destruct Hkept. split; intros; eauto.
  - intros f r Hr Hr0. by destruct (Hr Hr0).
  - intros i r Hr Hr0. by destruct (Hr Hr0).
Qed.

Lemma sound_apply_to G g cmd :
  (G → cmd_ok cmd ∧ admissible cmd) → sound G (apply_to g cmd) (λ _, True).
Proof.
  intros Hc n. apply (basic_apply_to routing node_id _ (basic_ok (router n))); [done|].
  intros r n' Hn' HG Hn _. split_and!; [auto| |done]. intros g' cmd' r' [= <- <- <-]%list_elem_of_singleton. auto.
Qed.
Lemma sound_asked G g op (m : rm ReadResult) :
  (∀ Q n, (∀ r n', (router_ok (router n) → router_ok (router n')) → Q r [Asked g op r] n') → emits m Q n) →
  sound G m (λ r, listed_ok (inr r)).
Proof.
  intros Hm n. apply Hm. intros r n' Hn' HG Hn Ha. split_and!; [auto| |].
  - by intros g' cmd' r' ?%list_elem_of_singleton.
  - intros a ->. apply (Ha g op). by left.
Qed.
Lemma sound_read_on G g op : sound G (read_on g op) (λ r, listed_ok (inr r)).
Proof.
  apply (sound_asked G g op). intros Q n HQ.
  by apply (basic_read_on dflt node_id _ (basic_ok (router n))).
Qed.
Lemma sound_read_linearizable G g op : sound G (read_linearizable g op) (λ r, listed_ok (inr r)).
Proof.
  apply (sound_asked G g op). intros Q n HQ.
  by apply (basic_read_linearizable dflt node_id _ (basic_ok (router n))).
Qed.

Lemma seq_next r : router_ok r → router_ok (next_request_id own_client_id r).2 ∧
  is_u64 (ri_seq (next_request_id own_client_id r).1).
Proof.
  intros [? ?]. split; [|done]. split; [done|]. cbn. unfold wrap_u64, is_u64, u64_max.
  pose proof (Z.mod_pos_bound (seq_counter r + 1) (2 ^ 64)). lia.
Qed.
Lemma external_seq : is_u64 0.
Proof. done. Qed.
Lemma sound_the_command G op k : sound G (the_command op k) (fits op).
Proof.
  eapply sound_bind; [apply sound_get_world|]. intros w. apply sound_with_router. intros r _ Hr.
  unfold command_with_idempotency, request_id_for. destruct k as [k|].
  - cbn. split; [done|]. split; [done|by eexists|apply Hclock|by intros ? [= <-]].
  - destruct (seq_next r Hr) as [? ?]. destruct (next_request_id own_client_id r). cbn. split; [done|].
    split; [done|by eexists|apply Hclock|by intros ? [= <-]].
Qed.
Lemma sound_scoped G op k scope w :
  sound G (with_router (command_with_scoped_idempotency own_client_id op k scope (wall_ms w))) (fits op).
Proof.
  apply sound_with_router. intros r _ Hr. unfold command_with_scoped_idempotency, scoped_request_id.
  destruct k as [k|].
  - cbn. split; [done|]. split; [done|by eexists|apply Hclock|by intros ? [= <-]].
  - destruct (seq_next r Hr) as [? ?]. destruct (next_request_id own_client_id r). cbn. split; [done|].
    split; [done|by eexists|apply Hclock|by intros ? [= <-]].
Qed.

(** A command for one group. *)
Lemma sound_propose G g op k :
  good_op op → sound G (cmd ← the_command op k; apply_to g cmd) (λ _, True).
Proof.
  intros Hop. eapply sound_bind; [apply sound_the_command|]. intros cmd. apply sound_apply_to.
  intros [_ Hf]. by apply (fits_ok op).
Qed.

(** ** The namespace cache *)

#[local] Hint Resolve sound_get_router sound_get_world sound_read_on sound_read_linearizable
  sound_the_command : sound.
#[local] Ltac sound_leaf := solve [eauto with sound].
#[local] Ltac sound_step :=
  match goal with
  | |- sound _ (mret _) _ => apply sound_ret; done
  | |- sound _ (fail _) _ => apply sound_fail
  | |- sound _ (_ ≫= _) _ =>
      first [eapply sound_bind; [sound_leaf|intros ?] | apply sound_bind with (φ := λ _, True); [|intros ?]]
  | |- sound _ (match ?x with _ => _ end) _ => destruct x
  | |- sound _ _ _ => sound_leaf
  end.
Ltac sound_steps := repeat sound_step.

Lemma sound_cache_now G : sound G cache_now (λ _, True).
Proof. unfold cache_now. sound_steps. Qed.
#[local] Hint Resolve sound_cache_now : sound.
Lemma sound_pause_lock G : sound G (pause lock_refresh) (λ _, True).
Proof. apply sound_pause. by apply kept_lock. Qed.
Lemma sound_pause_abandon G : sound G (pause abandon_refresh) (λ _, True).
Proof. apply sound_pause. by apply kept_abandon. Qed.
Lemma sound_sleep G t : sound G (pause (sleep_ms t)) (λ _, True).
Proof. apply sound_pause. by apply kept_sleep. Qed.
Lemma sound_times G a (b : Router → Z) : sound G (modify (λ r, set_cache_times (a r) (b r) r)) (λ _, True).
Proof. apply sound_modify. intros r _. by apply ok_times. Qed.
#[local] Hint Resolve sound_pause_lock sound_pause_abandon sound_sleep sound_times : sound.
Lemma sound_refresh_failed G loaded now : sound G (refresh_failed loaded now) (λ _, True).
Proof.
  unfold refresh_failed. eapply sound_bind; [apply sound_modify; intros r _; by apply ok_times|]. intros ?. sound_steps.
Qed.
#[local] Hint Resolve sound_refresh_failed : sound.
Lemma sound_refresh_locked G : sound G (refresh_locked dflt node_id) (λ _, True).
Proof.
  unfold refresh_locked, cache_answer. do 2 sound_step. destruct (cache_fresh _ _) as [[e|]|]; [sound_steps..|].
  cbv zeta. sound_step. destruct (refresh_times_out _); [sound_steps|].
  eapply sound_bind; [apply sound_attempt, sound_read_linearizable|].
  intros [e|[]]; try apply sound_refresh_failed. apply sound_modify. intros r [_ Hl] Hr.
  apply ok_load; [|done]. by apply (Hl _ eq_refl).
Qed.
#[local] Hint Resolve sound_refresh_locked : sound.
Lemma sound_refresh G : sound G (refresh_namespace_cache_if_stale dflt node_id) (λ _, True).
Proof. unfold refresh_namespace_cache_if_stale, cache_answer. sound_steps. Qed.
#[local] Hint Resolve sound_refresh : sound.

(** ** Fan-out *)

Lemma sound_unordered G {A B} (f : A → rm B) (xs : list A) (φ : B → Prop) :
  (∀ x, x ∈ xs → sound G (f x) φ) → sound G (unordered f xs) (λ ys, Forall φ ys).
Proof.
  intros Hf. unfold unordered. sound_step. apply sound_each. intros x Hx%elem_in_order.
  eapply sound_mono; [by apply Hf|by intros [? _]|done].
Qed.
Lemma sound_fanout_apply G cmds :
  (G → ∀ g cmd, (g, cmd) ∈ cmds → cmd_ok cmd ∧ admissible cmd) → sound G (fanout_apply routing node_id cmds) (λ _, True).
Proof.
  intros Hc. unfold fanout_apply. eapply sound_mono; [apply sound_unordered with (φ := λ _, True)|done|done].
  intros [g cmd] Hx. apply sound_apply_to. eauto.
Qed.
Lemma sound_resilient G op k rounds first remaining responses :
  good_op op →
  sound G (resilient_rounds routing node_id rounds first (λ _, the_command op k) remaining responses) (λ _, True).
Proof.
  intros Hop. revert G first remaining responses. induction rounds as [|rounds IH]; intros; cbn [resilient_rounds]; [sound_steps|].
  case_bool_decide; [sound_steps|].
  apply sound_bind with (φ := λ _, True); [sound_steps|]. intros ?. eapply sound_bind; [|intros; apply IH].
  eapply sound_unordered with (φ := λ _, True). intros g ?. eapply sound_bind; [by apply sound_attempt, sound_propose|].
  intros r. sound_steps.
Qed.

(** ** Acquire and release *)

Definition routes_ok (routes : list NamespaceRoute) : Prop := ∀ rt, rt ∈ routes → ns_ok (nr_namespace rt).
Lemma add_route_ok routes rt : routes_ok routes → ns_ok (nr_namespace rt) → routes_ok (add_route routes rt).
Proof.
  intros Hr Hn. unfold add_route. destruct (existsb _ _); [done|].
  intros rt' [?| ->%list_elem_of_singleton]%elem_of_app; auto.
Qed.
Lemma acquire_routes_ok r reqs routes routes' :
  router_ok r → (∀ req, req ∈ reqs → ns_ok (lr_path req)) → routes_ok routes →
  acquire_routes routing dflt r reqs routes = inr routes' → routes_ok routes'.
Proof.
  intros Hr. revert routes. induction reqs as [|req reqs IH]; intros routes Hq Hrt; cbn [acquire_routes].
  { by intros [= <-]. }
  cbv zeta. destruct (match lr_state req with New => _ | Held => _ end); [done|]. apply IH.
  - intros req' ?. apply Hq. by right.
  - apply add_route_ok; [done|]. apply ok_resolve; [done|]. apply Hq. by left.
Qed.
Lemma release_routes_ok r reqs routes :
  router_ok r → (∀ rel, rel ∈ reqs → ns_ok (rel_path rel)) → routes_ok routes →
  routes_ok (release_routes routing dflt r reqs routes).
Proof.
  intros Hr. revert routes. induction reqs as [|req reqs IH]; intros routes Hq Hrt; [done|]. cbn.
  apply IH; [intros; apply Hq; by right|]. apply add_route_ok; [done|]. apply ok_resolve; [done|]. apply Hq. by left.
Qed.
Lemma sound_domain G d :
  sound G (with_router (λ r, group_of_domain xxh3_64 routing r d)) (λ _, True).
Proof. apply sound_with_router. intros r ? Hr. split; [by apply ok_domain|done]. Qed.
#[local] Hint Resolve sound_domain : sound.

Lemma sound_acquire_attempts G attempts first args k :
  acquire_valid args →
  sound G (acquire_attempts xxh3_64 routing dflt node_id own_client_id attempts first args k) (λ _, True).
Proof.
  intros Hargs. revert G first. induction attempts as [|attempts IH]; intros G first; cbn [acquire_attempts]; [sound_steps|].
  sound_step. eapply sound_bind; [apply sound_get_router|]. intros r.
  eapply sound_bind with (φ := routes_ok).
  { apply sound_of_sum. intros [_ Hr] routes Hrun.
    eapply acquire_routes_ok; [exact Hr| |by intros ? ?%not_elem_of_nil|exact Hrun].
    intros req Hreq. by apply (av_reqs _ Hargs). }
  intros routes. cbv zeta. destruct (1 <? _); [sound_steps|].
  destruct (release_routes _ _ _ _ _) as [|route rest] eqn:Hroutes; [sound_steps|].
  sound_step. eapply sound_bind; [apply sound_the_command|]. intros cmd.
  eapply sound_bind; [eapply sound_attempt, sound_apply_to|].
  { intros [[[[_ Hr] Hrt] _] Hf]. eapply fits_ok; [done|]. apply good_acquire; [|done].
    pose proof (release_routes_ok r (release_requests args) routes Hr (av_rels _ Hargs) Hrt) as Hall.
    rewrite Hroutes in Hall. apply Hall. by left. }
  intros resp. destruct resp as [e|resp]; [|unfold unexpected_response; sound_steps].
  destruct (first && stale_rejection e); [|sound_steps].
  eapply sound_bind; [apply sound_modify; intros; by apply ok_times|]. intros ?. sound_step. apply IH.
Qed.

(** The entries of [by_namespace]. *)
Definition entry_ok {A} (ok : A → Prop) (e : str * (GroupId * list A)) : Prop :=
  ns_ok e.1 ∧ ∀ x, x ∈ e.2.2 → ok x.
Lemma add_to_namespace_ok {A} (ok : A → Prop) ns g x m :
  ns_ok ns → ok x → Forall (entry_ok ok) m → Forall (entry_ok ok) (add_to_namespace ns g x m).
Proof.
  intros Hns Hx. induction 1 as [|[ns' [g' xs]] m He Hm IH]; cbn [add_to_namespace].
  { constructor; [|constructor]. split; [done|]. by intros y ->%list_elem_of_singleton. }
  case_bool_decide; constructor; try done. destruct He as [? Hxs]. split; [done|]. cbn.
  intros y [?| ->%list_elem_of_singleton]%elem_of_app; auto.
Qed.
Lemma sound_by_namespace G {A} (path : A → str) (ok : A → Prop) xs m :
  (∀ x, x ∈ xs → ns_ok (path x) ∧ ok x) →
  sound (G ∧ Forall (entry_ok ok) m) (by_namespace xxh3_64 routing dflt path xs m) (Forall (entry_ok ok)).
Proof.
  intros Hxs. revert G m. induction xs as [|x xs IH]; intros G m; cbn [by_namespace].
  { apply sound_ret. by intros [_ ?]. }
  eapply sound_bind; [apply sound_get_router|]. intros r. cbv zeta. sound_step.
  destruct (Hxs x ltac:(by left)) as [Hp Hx].
  eapply sound_mono; [apply (IH ltac:(intros; apply Hxs; by right) G)| |done].
  intros [[[HG Hm] Hr] _]. split; [done|]. apply add_to_namespace_ok; [|done|done]. by apply ok_resolve.
Qed.
Lemma sound_clear_edge G owner k :
  sound G (clear_wait_edge_with_idempotency routing node_id own_client_id owner k) (λ _, True).
Proof.
  unfold clear_wait_edge_with_idempotency. eapply sound_bind; [apply sound_the_command|]. intros cmd.
  eapply sound_bind; [apply sound_apply_to|intros; sound_steps].
  intros [_ Hf]. eapply fits_ok; [done|]. by apply good_simple.
Qed.
#[local] Hint Resolve sound_clear_edge : sound.

Lemma sound_release G owner reqs del_wait k :
  nul_free owner → (∀ req, req ∈ reqs → ns_ok (rel_path req)) →
  sound G (release_with_idempotency xxh3_64 routing dflt node_id own_client_id owner reqs del_wait k) (λ _, True).
Proof.
  intros Ho Hr. unfold release_with_idempotency. case_bool_decide; [sound_steps|]. sound_step.
  eapply sound_bind.
  { eapply sound_mono; [apply (sound_by_namespace G rel_path (λ req, ns_ok (rel_path req)) reqs [])| |].
    - intros x Hx. auto.
    - intros [? _]. split; [done|constructor].
    - intros m _ Hm. exact Hm. }
  intros m. sound_step. eapply sound_bind.
  { apply sound_each with (φ := λ c, cmd_ok c.2 ∧ admissible c.2). intros [ns [g rs]] He%elem_iterate.
    unfold release_command. cbn [fst snd]. sound_step. eapply sound_bind; [apply sound_scoped|]. intros cmd.
    apply sound_ret. cbn. intros [[[[_ Hm] _] _] Hf]. eapply fits_ok; [done|].
    rewrite Forall_forall in Hm. destruct (Hm _ He). by apply good_release. }
  intros cmds. eapply sound_bind; [apply sound_fanout_apply|].
  { intros [_ Hall] g cmd Hin. rewrite Forall_forall in Hall. by apply (Hall _ Hin). }
  intros resps. sound_steps.
Qed.

Lemma sound_commands_for G op k groups :
  good_op op →
  sound G (commands_for own_client_id op k groups) (Forall (λ c, cmd_ok c.2 ∧ admissible c.2)).
Proof.
  intros Hop. apply sound_each. intros g _. eapply sound_bind; [apply sound_the_command|]. intros cmd.
  apply sound_ret. intros [_ Hf]. by apply (fits_ok op).
Qed.
(** The same command in many groups. *)
Lemma sound_everywhere G op k groups {A} (f : list ApplyResponse → rm A) (φ : A → Prop) :
  good_op op → (∀ G resps, sound G (f resps) φ) →
  sound G (cmds ← commands_for own_client_id op k groups; resps ← fanout_apply routing node_id cmds; f resps) φ.
Proof.
  intros Hop Hf. eapply sound_bind; [by apply sound_commands_for|]. intros cmds.
  eapply sound_bind; [apply sound_fanout_apply|intros; apply Hf].
  intros [_ Hall] g cmd Hin. rewrite Forall_forall in Hall. by apply (Hall _ Hin).
Qed.
Lemma sound_resolve_domains G domains :
  sound G (resolve_domains_to_groups xxh3_64 routing dflt node_id domains) (λ _, True).
Proof.
  unfold resolve_domains_to_groups. case_bool_decide; [sound_steps|].
  eapply sound_bind; [apply sound_attempt, sound_refresh|]. intros ?. sound_steps.
Qed.
#[local] Hint Resolve sound_resolve_domains : sound.

(** ** Owner-wide operations, the wait graph *)

Lemma sound_release_all G owner del_wait domains k :
  nul_free owner →
  sound G (release_all_with_idempotency xxh3_64 routing dflt node_id own_client_id owner del_wait domains k)
    (λ _, True).
Proof.
  intros Ho. unfold release_all_with_idempotency. sound_step. destruct a as [groups ?].
  apply sound_everywhere; [by apply good_simple|]. intros G' resps. sound_steps.
Qed.
Lemma sound_renew G owner ttl domains k :
  nul_free owner →
  sound G (renew_with_idempotency xxh3_64 routing dflt node_id own_client_id owner ttl domains k) (λ _, True).
Proof.
  intros Ho. unfold renew_with_idempotency, unexpected_response. cbv zeta. sound_step. destruct a as [groups ?].
  apply sound_everywhere; [by apply good_simple|]. intros G' resps. sound_steps.
Qed.
Lemma sound_force_release G victim k :
  nul_free victim → sound G (force_release_with_idempotency routing node_id own_client_id victim k) (λ _, True).
Proof.
  intros Ho. apply sound_everywhere; [by apply good_simple|]. intros G' resps. sound_steps.
Qed.
Lemma sound_request_revoke G owner : sound G (RouterApi.request_revoke routing node_id own_client_id owner) (λ _, True).
Proof. apply sound_everywhere; [by apply good_simple|]. intros G' resps. sound_steps. Qed.
Lemma sound_set_wait_edge G owner co ttl md k :
  sound G (set_wait_edge_with_idempotency routing node_id own_client_id owner co ttl md k) (λ _, True).
Proof.
  unfold set_wait_edge_with_idempotency. eapply sound_bind; [apply sound_the_command|]. intros cmd.
  eapply sound_bind; [apply sound_apply_to|intros; sound_steps].
  intros [_ Hf]. eapply fits_ok; [done|]. by apply good_simple.
Qed.
Lemma sound_incr G k : sound G (incr_fencing_token_with_idempotency routing node_id own_client_id k) (λ _, True).
Proof.
  unfold incr_fencing_token_with_idempotency, unexpected_response. eapply sound_bind; [apply sound_the_command|].
  intros cmd. eapply sound_bind; [apply sound_apply_to|intros; sound_steps].
  intros [_ Hf]. eapply fits_ok; [done|]. by apply good_simple.
Qed.

(** ** Namespace policies *)

Lemma sound_policy_record G ns : sound G (namespace_policy_record dflt node_id ns) (λ _, True).
Proof. unfold namespace_policy_record, unexpected_read. sound_steps. Qed.
#[local] Hint Resolve sound_policy_record : sound.
Lemma sound_any_read G (reads : list (rm ReadResult)) :
  (∀ m, m ∈ reads → ∀ G, sound G m (λ r, listed_ok (inr r))) → sound G (any_read reads) (λ _, True).
Proof.
  revert G. induction reads as [|m reads IH]; intros G Hr; cbn [any_read]; [sound_steps|].
  unfold unexpected_read. eapply sound_bind; [apply Hr; by left|]. intros [| |[]| | | | |]; try sound_step. apply IH. intros. apply Hr. by right.
Qed.
Lemma sound_any_unordered G {A} (f : A → rm ReadResult) xs :
  (∀ x G, sound G (f x) (λ r, listed_ok (inr r))) → sound G (any_unordered f xs) (λ _, True).
Proof.
  intros Hf. unfold any_unordered. sound_step. apply sound_any_read. intros m (x & -> & _)%list_elem_of_fmap. auto.
Qed.
Lemma sound_drained G ns : sound G (ensure_drained routing dflt node_id ns) (λ _, True).
Proof.
  unfold ensure_drained, namespace_has_locks_anywhere.
  eapply sound_bind; [apply sound_any_unordered; intros; apply sound_read_linearizable|]. intros busy. sound_steps.
Qed.
#[local] Hint Resolve sound_drained : sound.
Lemma sound_apply_policy G op k :
  good_op op → sound G (apply_policy_everywhere routing node_id own_client_id op k) (λ _, True).
Proof.
  intros Hop. unfold apply_policy_everywhere, fanout_apply_resilient, unexpected_response.
  eapply sound_bind; [by apply sound_resilient|]. intros [responses failed].
  destruct (collect_all_cleared _ _); [|sound_steps]. destruct (negb _); [sound_steps|].
  eapply sound_bind; [apply sound_the_command|]. intros cmd. eapply sound_bind; [apply sound_apply_to|intros; sound_steps].
  intros [_ Hf]. by apply (fits_ok op).
Qed.
Lemma sound_set_policy G ns alg k :
  ns_ok ns → sound G (RouterApi.set_namespace_policy routing dflt node_id own_client_id ns alg k) (λ _, True).
Proof.
  intros Hns. unfold RouterApi.set_namespace_policy, ensure_namespace_drained_if_route_changes.
  eapply sound_bind; [apply sound_modify; intros; by apply ok_times|]. intros ?.
  eapply sound_bind; [apply sound_refresh|intros ?]. eapply sound_bind; [apply sound_policy_record|intros [policy explicit]].
  eapply sound_bind; [apply sound_get_router|intros r]. cbv zeta.
  apply sound_bind with (φ := λ _, True); [sound_steps|intros ?].
  eapply sound_bind; [apply sound_apply_policy, good_simple; apply Hns|]. intros cleared.
  eapply sound_bind; [apply sound_policy_record|intros [policy' ?]].
  eapply sound_bind; [apply sound_modify; intros; by apply ok_cache|]. intros ?. sound_steps.
Qed.
Lemma sound_delete_policy G ns k :
  ns_ok ns → sound G (RouterApi.delete_namespace_policy routing dflt node_id own_client_id ns k) (λ _, True).
Proof.
  intros Hns. unfold RouterApi.delete_namespace_policy, ensure_namespace_drained_before_delete.
  eapply sound_bind; [apply sound_modify; intros; by apply ok_times|]. intros ?.
  eapply sound_bind; [apply sound_refresh|intros ?]. eapply sound_bind; [apply sound_policy_record|intros [policy explicit]].
  apply sound_bind with (φ := λ _, True); [sound_steps|intros ?].
  eapply sound_bind; [apply sound_apply_policy, good_simple; apply Hns|]. intros cleared.
  eapply sound_bind; [apply sound_modify; intros; by apply ok_uncache|]. intros ?. sound_steps.
Qed.

(** ** Reads *)

Lemma sound_route_path G path : sound G (route_path xxh3_64 routing dflt node_id path) (λ _, True).
Proof. unfold route_path. sound_steps. Qed.
#[local] Hint Resolve sound_route_path : sound.
Lemma sound_is_blocking G path owner reason :
  sound G (RouterReads.is_blocking xxh3_64 routing dflt node_id path owner reason) (λ _, True).
Proof. unfold RouterReads.is_blocking, unexpected_read. sound_steps. Qed.
Lemma sound_is_owner_alive G owner domains :
  sound G (RouterReads.is_owner_alive xxh3_64 routing dflt node_id owner domains) (λ _, True).
Proof.
  unfold RouterReads.is_owner_alive. eapply sound_bind; [apply sound_resolve_domains|]. intros [groups ?].
  apply sound_any_unordered. intros. apply sound_read_on.
Qed.
Lemma sound_inspect_path G path : sound G (RouterReads.inspect_path xxh3_64 routing dflt node_id path) (λ _, True).
Proof. unfold RouterReads.inspect_path, unexpected_read. sound_steps. Qed.
Lemma sound_list_owner_locks G owner domains :
  sound G (RouterReads.list_owner_locks xxh3_64 routing dflt node_id owner domains) (λ _, True).
Proof.
  unfold RouterReads.list_owner_locks, unexpected_read. eapply sound_bind; [apply sound_resolve_domains|].
  intros [groups ?]. eapply sound_bind; [apply sound_unordered with (φ := λ _, True)|intros; sound_steps].
  intros g ?. sound_steps.
Qed.
Lemma sound_dump_loop G fuel page g rel es :
  sound G (dump_loop routing dflt node_id fuel page g rel es) (λ _, True).
Proof.
  revert G g rel es. induction fuel as [|fuel IH]; intros; cbn [dump_loop]; unfold unexpected_read; [sound_steps|].
  cbv zeta. destruct (_ =? 0); [sound_steps|]. eapply sound_bind; [apply sound_read_on|].
  intros [| | | |p| | |]; try apply sound_fail. destruct (next_cursor p); [sound_steps|].
  destruct (_ <=? _); [sound_steps|]. apply IH.
Qed.
Lemma sound_dump_locks G cursor page : sound G (RouterReads.dump_locks routing dflt node_id cursor page) (λ _, True).
Proof.
  unfold RouterReads.dump_locks. eapply sound_bind with (φ := λ _, True); [by apply sound_of_sum|].
  intros [g rel]. apply sound_dump_loop.
Qed.
Lemma sound_assert_each G owner token l : sound G (assert_each dflt node_id owner token l) (λ _, True).
Proof.
  revert G. induction l as [|[ns [g paths]] l IH]; intros G; cbn [assert_each]; unfold unexpected_read; [sound_steps|].
  eapply sound_bind; [apply sound_read_linearizable|]. intros [o| | | | | | |]; try apply sound_fail.
  destruct o; [apply IH|sound_steps].
Qed.
Lemma sound_assert_fencing G owner token paths :
  sound G (RouterReads.assert_fencing xxh3_64 routing dflt node_id owner token paths) (λ _, True).
Proof.
  unfold RouterReads.assert_fencing. sound_step. eapply sound_bind with (φ := λ _, True).
  { generalize (@nil (str * (GroupId * list str))). generalize (G ∧ True). induction paths as [|p paths IH]; intros G' m;
      cbn [by_namespace]; [sound_steps|]. sound_step. cbv zeta. sound_step. apply IH. }
  intros m. sound_step. apply sound_assert_each.
Qed.
Lemma sound_edge_blocks G current edge :
  sound G (edge_blocks xxh3_64 routing dflt node_id own_client_id current edge) (λ _, True).
Proof.
  unfold edge_blocks, clear_wait_edge. cbv zeta. destruct (metadata edge).
  - eapply sound_bind; [apply sound_is_blocking|]. intros []; [sound_steps|].
    eapply sound_bind; [apply sound_attempt, sound_clear_edge|]. intros ?. sound_steps.
  - eapply sound_bind; [apply sound_is_owner_alive|]. intros []; [sound_steps|].
    do 2 (eapply sound_bind; [apply sound_attempt, sound_clear_edge|]; intros ?). sound_steps.
Qed.
Lemma sound_detect_cycle G start depth :
  sound G (RouterReads.detect_cycle xxh3_64 routing dflt node_id own_client_id start depth) (λ _, True).
Proof.
  unfold RouterReads.detect_cycle. generalize (∅ : gset str) (@nil str). generalize start at 2.
  generalize (S (Z.to_nat depth)). intros fuel current visited chain. revert G visited chain current.
  induction fuel as [|fuel IH]; intros; cbn [cycle_walk]; unfold unexpected_read; [sound_steps|].
  case_bool_decide; [sound_steps; destruct (list_find _ _) as [[? ?]|]; sound_steps|]. cbv zeta.
  eapply sound_bind; [apply sound_read_on|]. intros [| | | | |[edge|]| |]; try apply sound_fail; [|sound_step].
  eapply sound_bind; [apply sound_edge_blocks|]. intros []; cbn [negb]; [|sound_steps].
  case_bool_decide; [sound_steps|]. apply IH.
Qed.
End operations.
