(* ===== verification/ServiceClaims.v ===== *)
(** * The service: what reaches the state machine, what a stream amounts to

    Every command the service submits satisfies what the theorems about the groups
    ask of a command; a streamed acquire is the acquire of its concatenation. *)

From Stdlib Require Import ZArith NArith Lia Strings.Byte.
From stdpp Require Import sorting countable base numbers gmap strings list.
From S2P Require Import Prelude RustStd StoreKeys Store Snapshot Instances Grpc Proto.
From S2P Require Import EngineTypes Validate.
From S2P Require Import Engine EngineInv Placement Queue Command Codecs StateMachine Reads.
From S2P Require Import Router RouterOps.
From S2P Require Import RouterApi RouterReads MiniCluster RouterLogic Service ApplySim.
From S2P Require Import ApplyTheorems.
From S2P Require Import GroupState GroupOps ServiceLogic.
Local Open Scope Z_scope.

(** ** Handlers *)

(** The messages' field types: strings are UTF-8, [permits] is a [uint32]. *)
Definition typed_acquire (req : Proto.AcquireRequest) : Prop :=
  utf8_valid (Proto.aq_owner_id req) = true ∧ ∀ r, r ∈ Proto.aq_requests req → is_u32 (Proto.lq_permits r).
Definition typed (req : Request) : Prop :=
  match req with
  | Acquire req => typed_acquire req
  | AcquireStream chunks => ∀ chunk, Served chunk ∈ chunks → typed_acquire chunk
  | _ => True
  end.

Section handlers.
Context `{!Bincode StoredRecord, !RocksDb, !Cluster}.
Context `{!Bincode Command, !Bincode ReadOp}.
Context `{!Bincode (ForwardError + ApplyResponse), !Bincode (ForwardError + ReadResult)}.

(** [sound] for handlers. *)
Definition handles (G : Prop) {A} (m : sm A) (φ : A → Prop) : Prop :=
  ∀ n, let '(r, _, n') := m n in
    ∃ l, events n' = events n ++ l ∧
      (G → router_ok (router n) → answers_ok l →
       router_ok (router n') ∧ submits l ∧ ∀ a, r = Some (Served a) → φ a).

Lemma handles_ret G {A} (a : A) (φ : A → Prop) : (G → φ a) → handles G (mret a) φ.
Proof.
  intros Ha n. exists []. rewrite app_nil_r. split; [done|]. intros HG Hn _.
  split_and!; [done|apply submits_nil|]. intros ? [= <-]. auto.
Qed.
Lemma handles_bind G {A B} (m : sm A) (f : A → sm B) φ ψ :
  handles G m φ → (∀ a, handles (G ∧ φ a) (f a) ψ) → handles G (m ≫= f) ψ.
Proof.
  intros Hm Hf n. unfold mbind, sm_bind. specialize (Hm n). destruct (m n) as [[r evs] n1].
  destruct Hm as (l & Hl & HQ). destruct r as [[a|s]|].
  - specialize (Hf a n1). destruct (f a n1) as [[r evs'] n2]. destruct Hf as (l' & Hl' & HQ').
    exists (l ++ l'). split; [by rewrite Hl', Hl, app_assoc|]. intros HG Hn [Ha Ha']%answers_app.
    destruct (HQ HG Hn Ha) as (Hn' & ? & Hφ). destruct HQ' as (? & ? & ?); [split; auto|done|done|].
    split_and!; [done|by apply submits_app|done].
  - exists l. split; [done|]. intros HG Hn Ha. by destruct (HQ HG Hn Ha) as (? & ? & _).
  - exists l. split; [done|]. intros HG Hn Ha. by destruct (HQ HG Hn Ha) as (? & ? & _).
Qed.
Lemma handles_check G {A} (r : served A) : handles G (check r) (λ a, r = Served a).
Proof.
  intros n. exists []. rewrite app_nil_r. split; [done|]. intros HG Hn _.
  split_and!; [done|apply submits_nil|]. by intros a [= ->].
Qed.
(** What passed a check is known for the rest. *)
Lemma handles_weak G {A} (r : served A) : handles G (check r) (λ _, True).
Proof. intros n. exists []. rewrite app_nil_r. split; [done|]. intros HG Hn _. by split_and!; [|apply submits_nil|]. Qed.
Lemma handles_checked G {A B} (r : served A) (f : A → sm B) ψ :
  (∀ a, r = Served a → handles G (f a) ψ) → handles G (check r ≫= f) ψ.
Proof.
  intros Hf n. unfold mbind, sm_bind, check. destruct r as [a|s].
  - specialize (Hf a eq_refl n). by destruct (f a n) as [[r evs] n'].
  - exists []. rewrite app_nil_r. split; [done|]. intros HG Hn _. by split_and!; [|apply submits_nil|].
Qed.
Lemma handles_run G {A} (m : rm A) φ : sound G m φ → handles G (run m) (λ r, ∀ a, r = inr a → φ a).
Proof.
  intros Hm n. specialize (Hm n). unfold run, emits in *. destruct (m n) as [r n']. destruct Hm as (l & Hl & HQ).
  exists l. split; [done|]. intros HG Hn Ha. destruct (HQ HG Hn Ha) as (? & ? & ?).
  split_and!; [done|done|]. by intros ? [= <-].
Qed.
Lemma handles_served_by G {A} (r : RouterError + A) : handles G (served_by r) (λ a, r = inr a).
Proof.
  intros n. exists []. rewrite app_nil_r. split; [done|]. intros HG Hn _.
  split_and!; [done|apply submits_nil|]. intros a. destruct r as [e|a']; [by destruct (engine_err e)|by intros [= <-]].
Qed.
Lemma handles_call G {A} (m : rm A) φ : sound G m φ → handles G (call m) φ.
Proof.
  intros Hm. eapply handles_bind; [by apply handles_run|]. intros r n.
  pose proof (handles_served_by (G ∧ ∀ a, r = inr a → φ a) r n) as Hs. destruct (served_by r n) as [[r' evs] n'].
  destruct Hs as (l & Hl & HQ). exists l. split; [done|]. intros HG Hn Ha.
  destruct (HQ HG Hn Ha) as (? & ? & Hr). split_and!; [done|done|]. intros a Ha'. destruct HG as [_ HG]. eauto.
Qed.
Lemma handles_publish G evs : handles G (publish evs) (λ _, True).
Proof. intros n. exists []. rewrite app_nil_r. split; [done|]. intros HG Hn _. by split_and!; [|apply submits_nil|]. Qed.
Lemma handles_replied G {A} (f : A → Reply) (m : sm A) φ : handles G m φ → handles G (replied f m) (λ _, True).
Proof. intros Hm. eapply handles_bind; [done|]. intros a. by apply handles_ret. Qed.
End handlers.
#[export] Hint Resolve handles_check handles_publish : handles.

(** Follows a handler; a call is left to the lemma about the operation. *)
Ltac handles_step :=
  match goal with
  | |- handles _ (mret _) _ => apply handles_ret; done
  | |- handles _ (check _) _ => eauto with handles
  | |- handles _ (publish _) _ => apply handles_publish
  | |- handles _ (check _ ≫= _) _ => apply handles_checked; intros ? ?
  | |- handles _ (call _ ≫= _) _ => eapply handles_bind; [apply handles_call|intros ?]
  | |- handles _ (call _) _ => apply handles_call
  | |- handles _ (publish _ ≫= _) _ => eapply handles_bind; [apply handles_publish|intros ?]
  | |- handles _ (too_many_paths _) _ => apply handles_weak
  | |- handles _ (if ?b then _ else _) _ => destruct b
  | |- handles _ (let '(_, _) := ?x in _) _ => destruct x
  end.

(** ** What validation gives *)

Lemma canonical_ns_ok path : canonical path → ns_ok path.
Proof. by intros (_ & ? & ? & _). Qed.
Lemma check_namespace_ns_ok ns : check_namespace ns = Served tt → ns_ok ns.
Proof.
  unfold check_namespace. case_bool_decide; [done|].
  destruct (contains NUL ns) eqn:Hn; [done|]. destruct (contains SCOPED_PATH_SEP ns) eqn:Hs; [done|].
  apply contains_false in Hn, Hs. by intros _.
Qed.
Lemma check_id_nul_free label id u : check_id label id = Served u → nul_free id.
Proof. destruct u. intros (_ & _ & ?)%check_id_ok. done. Qed.
Lemma lock_reqs_valid reqs reqs' u :
  check_each (λ r, check_path (Proto.lq_path r)) reqs = Served u → collect to_lock_req reqs = Served reqs' →
  (∀ r, r ∈ reqs → is_u32 (Proto.lq_permits r)) →
  ∀ req, req ∈ reqs' → ns_ok (lr_path req) ∧ is_u32 (lr_permits req).
Proof.
  destruct u. rewrite check_each_ok, collect_ok. intros Hp Hc Ht req Hin.
  apply list_elem_of_lookup in Hin as [i Hi]. eapply Forall2_lookup_r in Hi as (r & Hr & Hto); [|done].
  apply list_elem_of_lookup_2 in Hr. specialize (Hp r Hr). apply check_path_exact, canonical_ns_ok in Hp.
  unfold to_lock_req, mbind, served_bind in Hto. destruct (to_mode _); [|done]. destruct (to_state _); [|done].
  injection Hto as <-. split; [done|by apply Ht].
Qed.
Lemma rel_reqs_valid reqs reqs' u :
  check_each (λ r, check_path (Proto.rq_path r)) reqs = Served u → collect to_rel_req reqs = Served reqs' →
  ∀ req, req ∈ reqs' → ns_ok (rel_path req).
Proof.
  destruct u. rewrite check_each_ok, collect_ok. intros Hp Hc req Hin.
  apply list_elem_of_lookup in Hin as [i Hi]. eapply Forall2_lookup_r in Hi as (r & Hr & Hto); [|done].
  apply list_elem_of_lookup_2 in Hr. specialize (Hp r Hr). apply check_path_exact, canonical_ns_ok in Hp.
  unfold to_rel_req, mbind, served_bind in Hto. destruct (to_mode _); [|done]. by injection Hto as <-.
Qed.

(** A stream of typed chunks merges to a typed request. *)
Lemma merge_field_cases {A} `{EqDecision A} (unset base chunk a : A) msg :
  merge_field unset base chunk msg = Served a → a = base ∨ a = chunk.
Proof. unfold merge_field. repeat case_bool_decide; try done; intros [= <-]; auto. Qed.
Lemma merge_typed base chunk req :
  merge_acquire_stream_chunk base chunk = Served req → typed_acquire base → typed_acquire chunk → typed_acquire req.
Proof.
  unfold merge_acquire_stream_chunk, mbind, served_bind. destruct (merge_field [] (Proto.aq_owner_id base) _ _) as [o|] eqn:Ho; [|done].
  apply merge_field_cases in Ho.
  repeat (destruct (merge_field _ _ _ _); [|done]). intros [= <-] [Hb Hbr] [Hc Hcr]. split; cbn.
  - by destruct Ho as [->| ->].
  - intros r [?|?]%elem_of_app; auto.
Qed.
Lemma stream_typed encoded_len chunks st st' :
  stream_chunks encoded_len st chunks = Served st' →
  (∀ chunk, Served chunk ∈ chunks → typed_acquire chunk) →
  (∀ req, ss_merged st = Some req → typed_acquire req) → ∀ req, ss_merged st' = Some req → typed_acquire req.
Proof.
  revert st. induction chunks as [|[chunk|s] chunks IH]; intros st; cbn [stream_chunks].
  - intros [= <-] _ Hst. done.
  - unfold mbind, served_bind at 1. destruct (stream_chunk encoded_len st (Served chunk)) as [st1|] eqn:Hst1; [|done].
    intros Hrun Hall Hst. apply (IH st1 Hrun); [intros; apply Hall; by right|].
    assert (typed_acquire chunk) as Hc by (apply Hall; by left). clear IH Hrun Hall.
    unfold stream_chunk, mbind, served_bind in Hst1. destruct (checked_add _ _); [|done].
    destruct (_ <? _); [done|]. destruct (_ <? _); [done|]. destruct (checked_add _ _); [|done].
    destruct (_ <? _); [done|]. destruct (ss_merged st) as [base|].
    + destruct (merge_acquire_stream_chunk base chunk) as [req|] eqn:Hm; [|done]. injection Hst1 as <-. cbn.
      intros ? [= <-]. eapply merge_typed; [done|by apply Hst|done].
    + injection Hst1 as <-. by intros ? [= <-].
  - done.
Qed.

(** ** Each method *)
Section methods.
Context `{!Bincode StoredRecord, !RocksDb, !Cluster}.
Context `{!Bincode Command, !Bincode ReadOp}.
Context `{!Bincode (ForwardError + ApplyResponse), !Bincode (ForwardError + ReadResult)}.
Context (encoded_len : Proto.AcquireRequest → Z).
Context (xxh3_64 : bytes → Z) (routing : RoutingOptions) (dflt : LockAlgorithm).
Context (node_id : Z) (own_client_id : str).
Context (Hkept : kept router_ok) (Hclock : ∀ w, is_u64 (wall_ms w)).

#[local] Ltac valid := eauto using check_id_nul_free, rel_reqs_valid.

Lemma handles_acquire G req max_paths :
  typed_acquire req →
  handles G (handle_acquire_request xxh3_64 routing dflt node_id own_client_id req max_paths) (λ _, True).
Proof.
  intros [Hu Ht]. unfold handle_acquire_request. do 5 handles_step; [by apply handles_weak|]. repeat handles_step.
  apply sound_acquire_attempts; [done|done|]. split; cbn; [split; [valid|done]| |valid].
  by eapply lock_reqs_valid.
Qed.
Lemma handles_policy G {A} (m : rm (list str)) (response : A) :
  (∀ G, sound G m (λ _, True)) → handles G (policy_change m response) (λ _, True).
Proof.
  intros Hm. unfold policy_change. eapply handles_bind; [by apply handles_run|]. intros r.
  eapply handles_bind with (φ := λ _, True); [destruct r as [[]|]; repeat handles_step|]. intros ?.
  eapply handles_bind; [apply handles_served_by|]. intros owners. repeat handles_step.
Qed.

Lemma handles_any G req :
  typed req → handles G (handle encoded_len xxh3_64 routing dflt node_id own_client_id req) (λ _, True).
Proof.
  intros Ht. destruct req; cbn [handle]; eapply handles_replied with (φ := λ _, True).
  - by apply handles_acquire.
  - apply handles_checked. intros req Hm. apply handles_acquire.
    unfold merge_stream, mbind, served_bind in Hm. destruct (stream_chunks _ _ _) as [st|] eqn:Hs; [|done].
    destruct (ss_merged st) as [req'|] eqn:Hst; [|done]. injection Hm as <-.
    by eapply stream_typed.
  - unfold PathLock.set_namespace_policy. repeat handles_step. apply handles_policy. intros.
    apply sound_set_policy; [done|done|]. destruct a. by apply check_namespace_ns_ok.
  - unfold PathLock.get_namespace_policy. repeat handles_step. by apply sound_policy_record.
  - unfold PathLock.delete_namespace_policy. repeat handles_step. apply handles_policy. intros.
    apply sound_delete_policy; [done|done|]. destruct a. by apply check_namespace_ns_ok.
  - unfold PathLock.release. repeat handles_step. apply sound_release; [done..|valid|valid].
  - unfold PathLock.release_all. repeat handles_step. apply sound_release_all; [done|done|valid].
  - unfold PathLock.renew. repeat handles_step; [by apply handles_weak|]. apply sound_renew; [done|done|valid].
  - unfold PathLock.force_release. repeat handles_step. apply sound_force_release; [done|done|valid].
  - unfold PathLock.assert_fencing. repeat handles_step; [by apply handles_weak|].
    eapply handles_bind with (φ := λ _, True); [case_bool_decide; [repeat handles_step|apply handles_weak]|intros ?].
    repeat handles_step. by apply sound_assert_fencing.
  - unfold PathLock.detect_cycle. repeat handles_step. by apply sound_detect_cycle.
  - unfold PathLock.is_blocking. repeat handles_step. by apply sound_is_blocking.
  - unfold PathLock.incr_fencing_token. repeat handles_step. by apply sound_incr.
  - unfold PathLock.set_wait_edge. repeat handles_step. by apply sound_set_wait_edge.
  - unfold PathLock.clear_wait_edge. repeat handles_step. by apply sound_clear_edge.
  - unfold PathLock.is_owner_alive. repeat handles_step. by apply sound_is_owner_alive.
  - unfold PathLock.request_revoke. repeat handles_step. by apply sound_request_revoke.
  - unfold PathLock.inspect_path. repeat handles_step. by apply sound_inspect_path.
  - unfold PathLock.list_owner_locks. repeat handles_step. by apply sound_list_owner_locks.
  - unfold PathLock.dump_locks. cbv zeta. repeat handles_step. by apply sound_dump_locks.
Qed.
End methods.

(** C6: What the service submits is what the groups expect.  Whatever typed request a client sends, the
    commands that handling it proposes, to whichever group, satisfy [cmd_ok] and [admissible], as long as the
    namespace lists it reads hold valid names ([answers_ok]); these are the conditions under
    which a group keeps its invariants and never fails to apply: NUL-free identifiers and paths, separator-free namespaces, machine-width numbers, a request id on every acquire. *)
Theorem service_submits_admissible `{!Bincode StoredRecord, !RocksDb, !Cluster}
    `{!Bincode Command, !Bincode ReadOp}
    `{!Bincode (ForwardError + ApplyResponse), !Bincode (ForwardError + ReadResult)}
    encoded_len xxh3_64 routing dflt node_id own_client_id req n r evs n' :
  kept router_ok → (∀ w, is_u64 (wall_ms w)) → typed req → router_ok (router n) →
  handle encoded_len xxh3_64 routing dflt node_id own_client_id req n = (r, evs, n') →
  ∃ l, events n' = events n ++ l ∧
    (answers_ok l → ∀ g cmd res, Proposed g cmd res ∈ l → cmd_ok cmd ∧ admissible cmd).
Proof.
  intros Hk Hc Ht Hn Hrun.
  pose proof (handles_any encoded_len xxh3_64 routing dflt node_id own_client_id Hk Hc True req Ht n) as Hh.
  rewrite Hrun in Hh. destruct Hh as (l & Hl & HQ). exists l. split; [done|]. intros Ha.
  by destruct (HQ I Hn Ha) as (_ & ? & _).
Qed.

Module ServiceWitness.
Import Mini.
#[local] Existing Instance ref_bincode.
#[local] Existing Instance ref_rocksdb.
#[local] Instance cluster : Cluster := mini true.

Definition routing : RoutingOptions :=
  {| group_count := 4; routing_prefix_segments := 1; max_inflight_per_group := 8 |}.
Definition lock_request (path : string) : Proto.LockRequest :=
  {| Proto.lq_path := bs path; Proto.lq_mode := 0; Proto.lq_state := 0; Proto.lq_permits := 0 |}.
Definition req : Request :=
  Acquire {| Proto.aq_owner_id := bs "alice"; Proto.aq_ttl_ms := 5000; Proto.aq_requests := [lock_request "fs:/a/x"];
             Proto.aq_fencing_token := 0; Proto.aq_release_requests := []; Proto.aq_idempotency_key := [];
             Proto.aq_queue_ttl_ms := 0 |}.
Definition n0 : Node :=
  {| router := router_new; world := ({| st_db := (∅ : gmap cf (gmap bytes bytes)); st_now := 1000 |} : World);
     events := [] |}.
Definition run := handle (λ _, 0) hash routing dflt 1 (bs "1:7:1000") req n0.

Lemma clock w : is_u64 (wall_ms w).
Proof.
  cbn. unfold wrap_u64, is_u64, u64_max. pose proof (Z.mod_pos_bound (st_now w) (2 ^ 64)). lia.
Qed.
Lemma unchanged : kept router_ok.
Proof.
  split; cbn; intros; try done; unfold at_world; cbn.
  - by destruct (propose g c w).
  - by destruct (deliver i g b w).
  - by destruct (deliver_read i g b w).
Qed.
Lemma req_typed : typed req.
Proof. split; [done|]. by intros r ->%list_elem_of_singleton. Qed.
Lemma start_ok : router_ok (router n0).
Proof. split; [|done]. by intros ns ?%not_elem_of_nil. Qed.
Definition handled : Type := option (served Reply) * list Proto.Event * Node.
(** The handler grants the lock with one proposal, after reading an empty namespace list. *)
Definition granted_one (x : handled) : bool :=
  match x with
  | (Some (Served (AcquireReply resp)), [], n') =>
      (Proto.ap_fencing_token resp =? 1) &&
      match events n' with
      | [Asked _ _ (inr (ReadNamespaceList [])); Proposed _ _ _] => true
      | _ => false
      end
  | _ => false
  end.
Lemma granted_one_events x :
  granted_one x = true →
  ∃ g0 op0 g cmd res, events x.2 = [Asked g0 op0 (inr (ReadNamespaceList [])); Proposed g cmd res].
Proof.
  destruct x as [[r evs] n]. unfold granted_one. cbn [snd].
  destruct r as [[[resp| | | | | | | | | |]|]|]; try done. destruct evs; [|done].
  intros [_ Hg]%andb_true_iff. destruct (events n) as [|[|g0 op0 [|[| | | | | | |[|]]]] [|[g cmd res|] [|]]]; try done.
  by exists g0, op0, g, cmd, res.
Qed.
Lemma run_events :
  ∃ g0 op0 g cmd res, events run.2 = [Asked g0 op0 (inr (ReadNamespaceList [])); Proposed g cmd res].
Proof. apply granted_one_events. vm_compute. reflexivity. Qed.
Lemma run_split (x : handled) : x = (x.1.1, x.1.2, x.2).
Proof. by destruct x as [[? ?] ?]. Qed.
Lemma run_eq :
  handle (λ _, 0) hash routing dflt 1 (bs "1:7:1000") req n0 = (run.1.1, run.1.2, run.2).
Proof. unfold run. apply run_split. Qed.
Lemma empty_list_ok g0 op0 g cmd res :
  answers_ok [Asked g0 op0 (inr (ReadNamespaceList [])); Proposed g cmd res].
Proof.
  intros g' op' r' [[= -> -> ->]|Hin%list_elem_of_singleton]%elem_of_cons; [|done].
  by intros es [= <-] e ?%not_elem_of_nil.
Qed.
Lemma first_events (n n' : Node) l : events n = [] → events n' = events n ++ l → events n' = l.
Proof. by intros ->. Qed.

Lemma service_submits_admissible_witness :
  ∃ e g cmd res, events run.2 = [e; Proposed g cmd res] ∧ cmd_ok cmd ∧ admissible cmd.
Proof.
  pose proof (service_submits_admissible (λ _, 0) hash routing dflt 1 (bs "1:7:1000") req n0 run.1.1 run.1.2 run.2
    unchanged clock req_typed start_ok run_eq) as (l & Hl & HQ).
  pose proof run_events as (g0 & op0 & g & cmd & res & He).
  assert (l = [Asked g0 op0 (inr (ReadNamespaceList [])); Proposed g cmd res]) as Heq
    by exact (eq_trans (eq_sym (first_events n0 run.2 l eq_refl Hl)) He).
  rewrite Heq in HQ. exists (Asked g0 op0 (inr (ReadNamespaceList []))), g, cmd, res. split; [exact He|].
  apply (HQ (empty_list_ok g0 op0 g cmd res) g cmd res). right. left.
Defined.
End ServiceWitness.
